(* ===== verification/_CoqProject ===== *)
-Q . S2P
Prelude.v
StdMap.v
Message.v
NodeStore.v
BeTree.v
Iterator.v
MessageSem.v
Tree.v
NodeLemmas.v
SplitProof.v
SplitForest.v
Grown.v
FlushNode.v
FlushProof.v
QueryProof.v
Live.v
Listing.v
NextProof.v
Merge.v
MergeProof.v
Serialize.v
BackingStore.v
SwapSpace.v
SwapSpaceProof.v
Pointers.v
PointersProof.v
NodeCodec.v
NodeTypes.v
Dictionary.v
Transparency.v
IteratorProof.v
FKey.v
Config.v
ConfigProof.v
ConfigMemory.v
StorageRpc.v
StorageRpcProof.v
Transport.v
TransportProof.v
TransportCalls.v
StorageClient.v
TransportFrame.v
ClientCalls.v
Loopback.v
ServerLoop.v
Driver.v
StoreFrame.v
DriverProof.v
TreeProperties.v
Concrete.v
Witnesses.v
MergeWitness.v
Lifetime.v
Log.v
LogProof.v
Programs.v
Requests.v
Traffic.v
ProgramsProof.v
FKeyTree.v
Startup.v
StartupProof.v
