(* ===== verification/Prelude.v ===== *)
(** * Verification of Be-Tree

    ** The program

    Be-Tree is a B^e-tree written in C++: a search tree whose inner nodes buffer messages (insert, delete, update) on
    their way to the leaves.  Its parts, under src/:
    - client/betree.hpp: messages, nodes ([apply], [split], [flush], [query], [get_next_message]), the tree and its iterators;
    - client/swap_space.hpp, swap_space.cpp: an object cache.  Nodes are objects that are pinned while they are used, written
      as text to a backing store when they are evicted, and read back on access;
    - client/backing_store.cpp: one file per object;
    - client/filesystem.hpp: [FKey], the key type of the program, a path;
    - client/storage_client.cpp, server/storage_server.cpp, common/messages.hpp: two remote calls, [GetNodeId] (for each object
      that is allocated) and [EvictNode] (for each object that is written back), and the server that answers them;
    - network/fasttransport.cpp, network/transport.hpp: requests and responses over eRPC;
    - network/configuration.cpp: the list of servers;
    - client/main.cpp, server/main.cpp: a test of the tree against [std::map], two benchmarks, and the two programs;
    - common/gflags.hpp: the flags of both;
    - debug/message.cpp, debug/assert.hpp: the log and the assertions on it.

    ** How it is modelled

    A C++ computation on a state [S] with a result [A] is a function [M S A] (below): it returns, throws, or halts with a
    fault, where a fault is a failed assertion, undefined behaviour, a fault of the object store, or a lack of fuel.  [wp tol
    m s Q E] says what a run does, for the faults [tol] that are tolerated: [store_only] tolerates nothing but faults
    of the store, [may_abort] everything but a lack of fuel, so also failed assertions and undefined behaviour.  A fault of the store is one of: a 64-bit
    counter at its end; the text of a node too long for the buffer of [EvictNode] (in C++ it is overrun: undefined behaviour); a pointer field that is written or read
    when its target is gone (in C++ a failed assertion of [pointer::_serialize] or [_deserialize]; that the tree never gets there is not shown); and a
    value outside its C++ type, or a map of 2^31 entries, put into a node (the C++ code has no such check: the first cannot be in a C++ variable, the second could not be read back).  Machine integers are [Z] with their wrap-around written out;
    [std::map] and [std::set] are sorted lists (StdMap); text is [list ascii]; memory buffers are lists with bounded writes
    ([poke]).

    - StdMap: [std::map] and the order of keys ([KeyOps], [KeyOrder]).
    - Message, BeTree, Iterator: the code of betree.hpp, over an object store given by the class [StoreOps] of NodeStore.  The
      class [Store] states what the tree relies on: its view of the objects, the pins, what is dirty.
    - MessageSem, Tree, NodeLemmas, SplitProof, SplitForest, Grown, FlushNode, FlushProof, QueryProof, Live, Listing, NextProof: the tree that
      the nodes in a store represent ([rep], [wf]), the meaning of its messages ([lookup], [live]), and what each operation
      of betree.hpp does to it.
    - Merge, MergeProof, MergeWitness: [merge] and [merge_small_children] of a node, which the program has and does not call.
    - Dictionary, IteratorProof, TreeProperties: the operations of the tree against a dictionary; iterators against the sorted list of pairs.  Transparency: two
      trees that mean the same dictionary.
    - Serialize: the textual format and its round trips.  BackingStore: the files.  SwapSpace, SwapSpaceProof: the cache and
      its invariant [ss_inv], and the proof that it is an instance of [Store].  NodeCodec: tree nodes as its objects.  NodeTypes:
      what can be read from any text at all.
    - Pointers, PointersProof, Lifetime: pointers and pins as values, reference counts as the number of pointers ([gc_inv]), and the end of a tree.
    - FKey: paths as keys.  FKeyTree: trees of such keys, for the programs.
    - Config, ConfigProof, ConfigMemory: configuration.{hpp,cpp}; ConfigMemory has the heap of multicast addresses.
    - StorageRpc, StorageRpcProof: the messages as bytes, the handlers of client and server, and a system of clients and a server as a
      step relation.
    - Transport, TransportProof, TransportCalls: fasttransport.{hpp,cpp} over the class [Rpc] of eRPC's operations, with eRPC's
      documented behaviour as the laws of [RpcOk].  StorageClient, ClientCalls: the client's calls through the transport until they return.  Loopback: an
      instance of the laws.  ServerLoop: the server's event loop, with the laws of [ServerOk] and an instance.
    - Driver, DriverProof: [test], [do_scan] and [benchmark_queries] of client/main.cpp.
    - Concrete, Witnesses: a tree of 64-bit keys in a swap space, which runs inside the logic, and the properties applied to it.
    - Log, LogProof: debug/message.{hpp,cpp}.
    - Programs, ProgramsProof: the flags, scripts, timers, the work of a client fiber and the two [main] functions.
    - Startup, StartupProof: the constructor of [FastTransport], run by several threads that share a lock, and the threads of server and client up to
      their loops and fibers.  The class [Erpc] has the constructors of eRPC's objects.
    - Requests, Traffic: the requests that the swap space of a fiber makes, and the same requests through its client and the transport.
    - TransportFrame, StoreFrame: what every method of the transport, and every operation on the tree, keeps ([keeps], below).

    ** What is shown

    - The tree is a dictionary.  Whatever the parameters, [upsert], [query] and [flush] have the effect of the dictionary's operation
      whenever they return, and have fuel enough ([upsert_refines], [query_refines], [flush_applies_batch], [split_partitions],
      [apply_runs_message]).  [query] never aborts.  [upsert] may: [batch_flush_dangles] is a run in which [flush] uses a dangling
      iterator, [lookup_breaks_flush] one in which a lookup makes a later insertion fail an assertion of [flush].  The answers a program gets from a tree do not depend on the sizes
      of nodes and cache ([tuning_invisible]), but whether it gets them can.  [nodes_outgrow_limit] is a run after which a node is larger than the maximum.  [merge] loses no
      message ([merge_keeps_messages]); [merge_overfills] shows that [merge_small_children] makes nodes that are too large.  With
      the parameters of the program no batch is ever large enough to be flushed, and then nothing aborts (the second parts of [upsert_refines], [tuning_invisible] and
      [flush_applies_batch]): the test driver passes and the benchmarks finish ([test_passes], [client_fiber_completes]), for keys with a total order that survive being
      written and read.  The program's own keys have the first property; with a cache that never evicts the second is not needed ([fkey_test_passes], [fkey_benchmark_finds_all],
      [fkey_fiber_completes]).  Iteration is in [get_next_is_least], [lower_bound_scan], [dump_lists_all].
    - The swap space is transparent: an access gives what was last written ([access_reads_content]), the victim is the least
      recently used object without a pin, and with nothing pinned eviction leaves the objects that the limit allows and those that the count of
      objects in memory misses ([victim_least_recent], [cache_within_limit], [evict_all_persists]).  The count goes wrong when a leaf is freed that is not in
      memory ([freed_leaf_miscounted]; [evict_all_leaves_dirty] is such a run of the tree).
    - Reference counting is garbage collection: through copies, assignments and destructions of pointers the counts are right, nothing in use is freed and nothing
      is left over ([pointers_collect], [tree_freed]); likewise for the addresses of configurations ([configurations_own_addresses]).
    - What is written is read back: [node_text_roundtrip], [evict_node_roundtrip], [configuration_roundtrip], [script_roundtrip],
      [hexdump_roundtrip]; and what was read, from any text, is read again from what is then written ([node_rewrites]).
    - The remote calls: in every reachable state the node ids are 0, 1, 2 and so on modulo 2^32, a call can always complete ([node_ids_unique], [call_completes]), and through the transport it
      does, within a bounded number of passes of the event loop ([get_node_id_returns], [evict_node_returns]); the server answers every request once and in order
      ([server_pass_refines]); tags and sessions are not mixed up ([pool_tags_distinct], [session_opened_once]).  All that a
      fiber's swap space asks for is answered ([fiber_traffic_answered]).
    - Start: however threads interleave, libevent is set up once and each thread gets its transport ([libevent_set_up_once], [transports_made]); the server then serves for
      ever and the fibers of a client may call ([server_serves], [clients_ready]).  [thread_limit] is the thread too many, which leaves the lock locked.
    - Keys: [FKey] is ordered on paths of fewer than 256 tokens without a slash at their end ([clean_keys_ordered]) and not otherwise; a key read back from its
      text is not ordered at all ([trailing_slash_breaks_order], [reloaded_keys_unordered], [deep_paths_never_compare]).
    - Configuration, start and log: [configurations_ordered], [equal_configurations_hash_equal], [malformed_server_lines], [main_starts],
      [fmt_blob_bounds], [debug_patterns], [debug_decided_once], [log_statement_frees].

    The theorems on the tree are for every key type with a total order and every store with the laws of [Store]; those on eviction in the swap
    space are for every object type whose text can be read back.  The witnesses take 64-bit integers as keys.  [FKey] satisfies the first
    condition for the numbers the driver draws, but not the second, because of [reloaded_keys_unordered].  FKeyTree therefore takes the keys that the constructor of
    [FKey] makes and a cache that never evicts; with the program's cache of four objects nodes are evicted and loaded again, [std::map] then has keys without an order,
    its behaviour is undefined, and nothing is claimed.

    ** Bounds and fuel

    Recursion over the tree ([flush], [query], [get_next_message]) takes the height of the tree as fuel; a tree of [n] operations is
    at most [n + 1] high, so [S n] is enough for the driver, which is stated and proved with the theorems.  Loops whose length is known take it as fuel (the entries
    of the queue, the bytes of a dump, the lines of a file).  Waiting for a response takes as many rounds as eRPC takes to deliver it, a number whose existence is a
    law of [RpcOk].  The theorems on the driver are for up to 2^13 operations, twice what the program does: a flush needs more than 2^13 messages for one child, so no batch arises.
    Counters that run for the life of the program (object ids, access times, pins) stop with a store fault at 2^64 - 1.

    ** Not modelled

    - The moment at which each temporary pointer inside a tree operation is destroyed: the tree releases an object where the code drops its last pointer.
      Pointers as values are in Pointers.
    - The timers, the signal handlers and most of transport.cpp, which are commented out; destructors that are empty or never run.
    - Threads inside one process, beyond the constructor of the transport (Startup), the interleaving of fibers in ClientCalls and that of clients and server in
      StorageRpc; the mutex of the log.
    - Failures of the file system, and the loss of messages, which eRPC hides.
    - The inside of eRPC, libevent, libnuma and gflags, which are libraries (the code of eRPC is in src/third_party; what is assumed of it are the laws of [RpcOk], [ServerOk] and [Erpc]); [hash] of debug/hash.hpp, which is declared and nowhere defined; the Python scripts, which
      start processes and collect their output.  What is left of the C++ files is includes, declarations, licences and commented-out code. *)
From Stdlib Require Import ZArith Lia.
From stdpp Require Import prelude gmap.

Declare Scope cpp_scope.
Delimit Scope cpp_scope with cpp.

(** ** Machine integers *)
Definition UINT64_MAX : Z := (2 ^ 64 - 1)%Z.
Definition wrap64 (z : Z) : Z := (z `mod` 2 ^ 64)%Z.
Definition wrap32 (z : Z) : Z := (z `mod` 2 ^ 32)%Z.
(** Conversion of an unsigned value to [int]: two's complement wrap. *)
Definition to_int (z : Z) : Z :=
  let r := (z `mod` 2 ^ 32)%Z in if (r <? 2 ^ 31)%Z then r else (r - 2 ^ 32)%Z.
Definition in_int (z : Z) : bool := (- 2 ^ 31 <=? z)%Z && (z <? 2 ^ 31)%Z.

(** ** Outcomes of a C++ computation

    [Ok]: normal return.  [Throw]: a C++ exception (the state reached is kept:
    a handler resumes from it).  [Halt]: the program stops or has no meaning
    any more. *)
Inductive exn :=
  | out_of_range
  | runtime_error.

Inductive fault :=
  | assert_failed      (* assert(...), Assert(...), Panic(...), abort() *)
  | undefined_behaviour
  | store_fault        (* a fault of the object store below the tree *)
  | out_of_fuel.

Inductive outcome (S A : Type) :=
  | Ok (a : A) (s : S)
  | Throw (e : exn) (s : S)
  | Halt (f : fault).
Arguments Ok {S A} a s.
Arguments Throw {S A} e s.
Arguments Halt {S A} f.

Definition M (S A : Type) := S → outcome S A.

Definition ret {S A} (a : A) : M S A := λ s, Ok a s.
Definition bind {S A B} (m : M S A) (k : A → M S B) : M S B := λ s,
  match m s with
  | Ok a s' => k a s'
  | Throw e s' => Throw e s'
  | Halt f => Halt f
  end.
Definition throw {S A} (e : exn) : M S A := λ s, Throw e s.
Definition halt {S A} (f : fault) : M S A := λ _, Halt f.
(** [try { m } catch (std::out_of_range e) { h }] *)
Definition catch_oor {S A} (m h : M S A) : M S A := λ s,
  match m s with
  | Throw out_of_range s' => h s'
  | r => r
  end.
(** [try { m } catch (std::exception e) { h }]: both modelled exceptions derive from it. *)
Definition catch_any {S A} (m h : M S A) : M S A := λ s,
  match m s with
  | Throw _ s' => h s'
  | r => r
  end.
Definition assert_ {S} (b : bool) : M S unit := if b then ret tt else halt assert_failed.
Definition check_int {S} (z : Z) : M S Z := if in_int z then ret z else halt undefined_behaviour.
(** A pure partial step whose failure is the given fault. *)
Definition of_option {S A} (f : fault) (o : option A) : M S A :=
  match o with Some a => ret a | None => halt f end.

Notation "'let!' x := m 'in' k" := (bind m (λ x, k))
  (at level 200, x name, m at level 100, k at level 200, right associativity) : cpp_scope.
Notation "'let!' ' p := m 'in' k" := (bind m (λ x, match x with p => k end))
  (at level 200, p pattern, m at level 100, k at level 200, right associativity) : cpp_scope.
Notation "m ;; k" := (bind m (λ _, k)) (at level 100, right associativity) : cpp_scope.

(** ** Weakest preconditions

    [wp tol m s Q E]: run from [s], [m] returns in [Q], throws in [E], or stops
    with a fault that [tol] tolerates.  Total correctness is [tol] empty;
    in particular running out of fuel is a fault like any other. *)
Definition wp {S A} (tol : fault → Prop) (m : M S A) (s : S)
    (Q : A → S → Prop) (E : exn → S → Prop) : Prop :=
  match m s with
  | Ok a s' => Q a s'
  | Throw e s' => E e s'
  | Halt f => tol f
  end.

(** Every fault but exhausted fuel: an operation may abort, but it does not loop. *)
Definition may_abort (f : fault) : Prop := f ≠ out_of_fuel.
(** Only the store itself may fail. *)
Definition store_only (f : fault) : Prop := f = store_fault.

Definition no_exn {S} : exn → S → Prop := λ _ _, False.

Section wp_rules.
Context {S : Type} (tol : fault → Prop).

Lemma wp_ret {A} (a : A) s (Q : A → S → Prop) E : Q a s → wp tol (ret a) s Q E.
Proof. done. Qed.

Lemma wp_bind {A B} (m : M S A) (k : A → M S B) s Q E :
  wp tol m s (λ a s', wp tol (k a) s' Q E) E → wp tol (bind m k) s Q E.
Proof. unfold wp, bind. by destruct (m s). Qed.

Lemma wp_mono {A} (m : M S A) s (Q Q' : A → S → Prop) (E E' : exn → S → Prop) :
  wp tol m s Q E → (∀ a s', Q a s' → Q' a s') → (∀ e s', E e s' → E' e s') →
  wp tol m s Q' E'.
Proof. unfold wp. destruct (m s); eauto. Qed.

Lemma wp_bind_mono {A B} (m : M S A) (k : A → M S B) s (R : A → S → Prop) Q (E0 E : exn → S → Prop) :
  wp tol m s R E0 → (∀ a s', R a s' → wp tol (k a) s' Q E) → (∀ e s', E0 e s' → E e s') →
  wp tol (bind m k) s Q E.
Proof. intros H1 H2 H3. unfold wp, bind in *. destruct (m s); [by apply H2 | by apply H3 | done]. Qed.

Lemma wp_throw {A} e s (Q : A → S → Prop) (E : exn → S → Prop) :
  E e s → wp tol (throw e) s Q E.
Proof. done. Qed.

Lemma wp_halt {A} f s (Q : A → S → Prop) (E : exn → S → Prop) :
  tol f → wp tol (halt f) s Q E.
Proof. done. Qed.

Lemma wp_catch_oor {A} (m h : M S A) s Q (E : exn → S → Prop) :
  wp tol m s Q (λ e s', match e with out_of_range => wp tol h s' Q E | _ => E e s' end) →
  wp tol (catch_oor m h) s Q E.
Proof. unfold wp, catch_oor. destruct (m s) as [| [] |]; auto. Qed.

Lemma wp_catch_any {A} (m h : M S A) s Q (E : exn → S → Prop) :
  wp tol m s Q (λ _ s', wp tol h s' Q E) → wp tol (catch_any m h) s Q E.
Proof. unfold wp, catch_any. by destruct (m s). Qed.

Lemma wp_assert b s (Q : unit → S → Prop) E :
  (b = true → Q tt s) → (b = false → tol assert_failed) → wp tol (assert_ b) s Q E.
Proof. destruct b; cbn; auto. Qed.

Lemma wp_of_option {A} f (o : option A) s (Q : A → S → Prop) E :
  (∀ a, o = Some a → Q a s) → (o = None → tol f) → wp tol (of_option f o) s Q E.
Proof. destruct o; cbn; auto. Qed.

Lemma wp_check_int z s (Q : Z → S → Prop) E :
  in_int z = true → Q z s → wp tol (check_int z) s Q E.
Proof. unfold check_int. by intros ->. Qed.
End wp_rules.

Lemma wp_tol_mono {S A} (tol tol' : fault → Prop) (m : M S A) s Q E :
  (∀ f, tol f → tol' f) → wp tol m s Q E → wp tol' m s Q E.
Proof. unfold wp. destruct (m s); eauto. Qed.

(** ** Frames

    [keeps P m]: [m] returns or throws in a state with [P] when it starts in one. *)
Definition ends {S A} (P : S → Prop) (o : outcome S A) : Prop :=
  match o with Ok _ s' | Throw _ s' => P s' | Halt _ => True end.
Definition keeps {S A} (P : S → Prop) (m : M S A) : Prop := ∀ s, P s → ends P (m s).

Section frame_rules.
Context {S : Type} (P : S → Prop).

Lemma keeps_ok {A} (m : M S A) s a s' : keeps P m → P s → m s = Ok a s' → P s'.
Proof. intros Hm Hs Hr. specialize (Hm s Hs). by rewrite Hr in Hm. Qed.
Lemma keeps_ret {A} (a : A) : keeps P (ret a).
Proof. intros s Hs. exact Hs. Qed.
Lemma keeps_halt {A} f : keeps P (halt (A := A) f).
Proof. by intros s. Qed.
Lemma keeps_throw {A} e : keeps P (throw (A := A) e).
Proof. intros s Hs. exact Hs. Qed.
Lemma keeps_assert b : keeps P (assert_ b).
Proof. destruct b; [apply keeps_ret|apply keeps_halt]. Qed.
Lemma keeps_option {A} f (o : option A) : keeps P (of_option f o).
Proof. destruct o; [apply keeps_ret|apply keeps_halt]. Qed.
Lemma keeps_check_int z : keeps P (check_int z).
Proof. unfold check_int. destruct (in_int z); [apply keeps_ret|apply keeps_halt]. Qed.
Lemma keeps_bind {A B} (m : M S A) (k : A → M S B) : keeps P m → (∀ a, keeps P (k a)) → keeps P (bind m k).
Proof. intros Hm Hk s Hs. unfold bind. specialize (Hm s Hs). destruct (m s); [by apply Hk|done..]. Qed.
Lemma keeps_catch_oor {A} (m h : M S A) : keeps P m → keeps P h → keeps P (catch_oor m h).
Proof. intros Hm Hh s Hs. unfold catch_oor. specialize (Hm s Hs). destruct (m s) as [| [] |]; try done. by apply Hh. Qed.
End frame_rules.

(** A run that returned: its result, and what a specification says of it. *)
Definition is_ok {S A} (o : outcome S A) : bool := match o with Ok _ _ => true | _ => false end.
Definition result {S A} (dummy : A * S) (o : outcome S A) : A * S :=
  match o with Ok a s => (a, s) | _ => dummy end.

Lemma ok_result {S A} dummy (o : outcome S A) : is_ok o = true → o = Ok (result dummy o).1 (result dummy o).2.
Proof. by destruct o. Qed.

Lemma wp_result {S A} tol (m : M S A) s dummy Q E :
  is_ok (m s) = true → wp tol m s Q E → Q (result dummy (m s)).1 (result dummy (m s)).2.
Proof. unfold wp. by destruct (m s). Qed.

(** ** Development tactics *)
Ltac deex :=
  repeat match goal with
  | H : ∃ x, _ |- _ => let x' := fresh x in destruct H as [x' H]
  | H : _ ∧ _ |- _ => destruct H
  end.

(** One step of symbolic execution of the outermost monadic construct. *)
Ltac wp_step :=
  lazymatch goal with
  | |- wp _ (bind _ _) _ _ _ => apply wp_bind
  | |- wp _ (ret _) _ _ _ => apply wp_ret
  | |- wp _ (throw _) _ _ _ => apply wp_throw
  end.

Create HintDb betree discriminated.
#[export] Hint Resolve keeps_ret keeps_halt keeps_throw keeps_assert keeps_option keeps_check_int : betree.

(** ** List lemmas *)
Section list_lemmas.
Context {A B : Type}.
Implicit Types (l : list A) (f g : A → bool).

Lemma elem_of_lfilter f l x : x ∈ List.filter f l ↔ x ∈ l ∧ f x = true.
Proof. rewrite !list_elem_of_In. apply List.filter_In. Qed.

Lemma lfilter_all f l : (∀ x, x ∈ l → f x = true) → List.filter f l = l.
Proof.
  induction l as [|a l IH]; [done|]. intros Hf. cbn.
  rewrite Hf by (apply elem_of_cons; auto). f_equal. apply IH.
  intros; apply Hf, elem_of_cons; auto.
Qed.

Lemma lfilter_none f l : (∀ x, x ∈ l → f x = false) → List.filter f l = [].
Proof.
  induction l as [|a l IH]; [done|]. intros Hf. cbn.
  rewrite Hf by (apply elem_of_cons; auto). apply IH.
  intros; apply Hf, elem_of_cons; auto.
Qed.

Lemma lfilter_nil_inv f l x : List.filter f l = [] → x ∈ l → f x = false.
Proof.
  intros Hn Hx. destruct (f x) eqn:E; [|done].
  assert (x ∈ List.filter f l) as Hin by by apply elem_of_lfilter.
  rewrite Hn in Hin. by apply not_elem_of_nil in Hin.
Qed.

Lemma lfilter_ext f g l : (∀ x, x ∈ l → f x = g x) → List.filter f l = List.filter g l.
Proof.
  induction l as [|a l IH]; [done|]. intros Hf. cbn.
  rewrite Hf by (apply elem_of_cons; auto). rewrite IH; [done|].
  intros; apply Hf, elem_of_cons; auto.
Qed.

Lemma lfilter_lfilter f g l : List.filter f (List.filter g l) = List.filter (λ x, g x && f x) l.
Proof. induction l as [|a l IH]; [done|]. cbn. destruct (g a); cbn; by rewrite IH. Qed.

Lemma length_lfilter_le f l : length (List.filter f l) ≤ length l.
Proof. induction l as [|a l IH]; cbn; [done|]. destruct (f a); cbn; lia. Qed.

Lemma lfilter_negb_length f l :
  length (List.filter f l) + length (List.filter (λ x, negb (f x)) l) = length l.
Proof. induction l as [|a l IH]; cbn; [done|]. destruct (f a); cbn; lia. Qed.
End list_lemmas.

Lemma app_swap_middle {A} (a b c d : list A) : (a ++ b) ++ (c ++ d) ≡ₚ (a ++ c) ++ (b ++ d).
Proof.
  rewrite <- !(assoc_L (++)). apply Permutation_app_head. rewrite !(assoc_L (++)).
  apply Permutation_app_tail, Permutation_app_comm.
Qed.

(** ** Buffers of a fixed size *)
Section buffers.
Context {A : Type}.
Implicit Types (buf b : list A).

(** Writing at an offset of a buffer; [None]: past its end. *)
Definition poke buf (off : nat) b : option (list A) :=
  if decide (off + length b ≤ length buf) then Some (take off buf ++ b ++ drop (off + length b) buf) else None.
Definition peek buf (off n : nat) : list A := take n (drop off buf).

Lemma poke_Some buf off b buf' :
  poke buf off b = Some buf' ↔
  off + length b ≤ length buf ∧ buf' = take off buf ++ b ++ drop (off + length b) buf.
Proof. unfold poke. case_decide; naive_solver. Qed.

Lemma length_poke buf off b buf' : poke buf off b = Some buf' → length buf' = length buf.
Proof. intros [Hle ->]%poke_Some. rewrite !length_app, length_take, length_drop. lia. Qed.

(** Reading what was written there. *)
Lemma peek_poke_same buf off b buf' : poke buf off b = Some buf' → peek buf' off (length b) = b.
Proof.
  intros [Hle ->]%poke_Some. unfold peek. rewrite drop_app_ge by (rewrite length_take; lia).
  rewrite length_take, Nat.min_l, Nat.sub_diag, drop_0 by lia. by rewrite take_app_length.
Qed.

(** A write after the place that is read. *)
Lemma peek_poke_before buf off b buf' o n :
  poke buf off b = Some buf' → o + n ≤ off → peek buf' o n = peek buf o n.
Proof.
  intros [Hle ->]%poke_Some Ho. unfold peek. rewrite !take_drop_commute.
  rewrite take_app_le by (rewrite length_take; lia). rewrite take_take. do 2 f_equal. lia.
Qed.

Lemma poke_fits buf off b : off + length b ≤ length buf → is_Some (poke buf off b).
Proof. intros. unfold poke. rewrite decide_True by done. eauto. Qed.
End buffers.
