(* ===== verification/StdMap.v ===== *)
(** * [std::map] as the sources use it

    A map is the list of its entries in iteration order.  The operations follow
    the container's documented behaviour for the comparator [klt] and never look
    at anything else, so they are meaningful for a comparator that breaks the
    ordering laws too; the lemmas assume the laws ([KeyOrder]).  An iterator is
    the split of the entries at its position: (entries before, entries from it on). *)
From Stdlib Require Import ZArith Lia Sorted.
From stdpp Require Import prelude.
From S2P Require Import Prelude.

(** What the templates require of a key type: [operator<] and [operator==]. *)
Class KeyOps (K : Type) := {
  klt : K → K → bool;
  keq : K → K → bool;
}.

(** The laws of a strict total order compatible with [operator==]. *)
Class KeyOrder (K : Type) `{KeyOps K} : Prop := {
  klt_irrefl a : klt a a = false;
  klt_trans a b c : klt a b = true → klt b c = true → klt a c = true;
  klt_total a b : klt a b = false → klt b a = false → a = b;
  keq_eq a b : keq a b = true ↔ a = b;
}.

(** [uint64_t] and [int64_t] as keys. *)
#[global] Instance Z_key_ops : KeyOps Z := { klt := Z.ltb; keq := Z.eqb }.
#[global] Instance Z_key_order : KeyOrder Z.
Proof.
  split; cbn; intros; rewrite ?Z.ltb_lt, ?Z.ltb_ge, ?Z.eqb_eq in *; lia.
Qed.

Section std_map.
Context {K V : Type} `{KeyOps K}.

(** [m.lower_bound(k)]: first entry whose key is not less than [k]. *)
Fixpoint lower_bound (m : list (K * V)) (k : K) : list (K * V) * list (K * V) :=
  match m with
  | [] => ([], [])
  | e :: m' => if klt e.1 k then let '(a, b) := lower_bound m' k in (e :: a, b)
               else ([], m)
  end.

(** [m.upper_bound(k)]: first entry whose key is greater than [k]. *)
Fixpoint upper_bound (m : list (K * V)) (k : K) : list (K * V) * list (K * V) :=
  match m with
  | [] => ([], [])
  | e :: m' => if klt k e.1 then ([], m)
               else let '(a, b) := upper_bound m' k in (e :: a, b)
  end.

(** [m[k] = v] *)
Fixpoint map_assign (m : list (K * V)) (k : K) (v : V) : list (K * V) :=
  match m with
  | [] => [(k, v)]
  | e :: m' => if klt e.1 k then e :: map_assign m' k v
               else if klt k e.1 then (k, v) :: m
               else (e.1, v) :: m'
  end.

(** [m.insert({k, v})]: an existing entry is kept. *)
Fixpoint map_insert (m : list (K * V)) (k : K) (v : V) : list (K * V) :=
  match m with
  | [] => [(k, v)]
  | e :: m' => if klt e.1 k then e :: map_insert m' k v
               else if klt k e.1 then (k, v) :: m
               else m
  end.

(** [m.insert(l.begin(), l.end())] *)
Definition map_insert_range (m l : list (K * V)) : list (K * V) :=
  foldl (λ m e, map_insert m e.1 e.2) m l.

(** [m.erase(k)] *)
Fixpoint map_erase (m : list (K * V)) (k : K) : list (K * V) :=
  match m with
  | [] => []
  | e :: m' => if klt e.1 k then e :: map_erase m' k
               else if klt k e.1 then m
               else m'
  end.

(** [m.find(k)], as the value found. *)
Fixpoint map_find (m : list (K * V)) (k : K) : option V :=
  match m with
  | [] => None
  | e :: m' => if klt e.1 k then map_find m' k
               else if klt k e.1 then None
               else Some e.2
  end.

(** [m.erase(m.lower_bound(lo), m.upper_bound(hi))] *)
Definition map_erase_range (m : list (K * V)) (lo hi : K) : list (K * V) :=
  (lower_bound m lo).1 ++ (upper_bound m hi).2.

(** Iteration order: strictly increasing keys. *)
Definition sorted (m : list (K * V)) : Prop := StronglySorted (λ x y, klt x.1 y.1 = true) m.
End std_map.

(** [std::distance(a, b)] for two positions of one map given by their suffixes;
    [None] when [b] is not reachable from [a]. *)
Definition distance {A} (a b : list A) : option Z :=
  if (length b <=? length a)%nat then Some (Z.of_nat (length a) - Z.of_nat (length b))%Z else None.

Section order_lemmas.
Context {K : Type} `{KeyOrder K}.
Implicit Types a b c : K.

Lemma klt_asym a b : klt a b = true → klt b a = false.
Proof.
  intros Hab. destruct (klt b a) eqn:E; [|done].
  by rewrite <- (klt_trans _ _ _ Hab E), klt_irrefl.
Qed.

Lemma klt_ne a b : klt a b = true → a ≠ b.
Proof. intros Hab ->. by rewrite klt_irrefl in Hab. Qed.

Lemma klt_le_trans a b c : klt a b = true → klt c b = false → klt a c = true.
Proof.
  intros Hab Hcb. destruct (klt b c) eqn:E; [by eapply klt_trans|].
  by rewrite <- (klt_total _ _ Hcb E) in Hab.
Qed.

Lemma kle_lt_trans a b c : klt b a = false → klt b c = true → klt a c = true.
Proof.
  intros Hba Hbc. destruct (klt a b) eqn:E; [by eapply klt_trans|].
  by rewrite (klt_total _ _ Hba E) in Hbc.
Qed.

Lemma kle_trans a b c : klt b a = false → klt c b = false → klt c a = false.
Proof.
  intros Hba Hcb. destruct (klt c a) eqn:E; [|done].
  rewrite <- Hcb. symmetry. by eapply klt_le_trans.
Qed.

Lemma keq_refl a : keq a a = true.
Proof. by apply keq_eq. Qed.

Lemma keq_ne a b : keq a b = false ↔ a ≠ b.
Proof.
  split; [intros E ->; by rewrite keq_refl in E|].
  intros Hne. destruct (keq a b) eqn:E; [|done]. by apply keq_eq in E.
Qed.

(** Case analysis on the order of two keys. *)
Lemma klt_cases a b :
  (klt a b = true ∧ klt b a = false ∧ keq a b = false) ∨
  (a = b ∧ klt a b = false ∧ klt b a = false ∧ keq a b = true) ∨
  (klt b a = true ∧ klt a b = false ∧ keq a b = false).
Proof.
  destruct (klt a b) eqn:E1.
  - left. split_and!; [done|by apply klt_asym|by apply keq_ne, klt_ne].
  - destruct (klt b a) eqn:E2; right.
    + right. split_and!; [done|done|]. apply keq_ne. intros ->. by rewrite klt_irrefl in E2.
    + left. pose proof (klt_total _ _ E1 E2) as ->. by rewrite keq_refl.
Qed.

#[global] Instance key_eq_dec : EqDecision K.
Proof.
  intros a b. destruct (keq a b) eqn:E; [left; by apply keq_eq|right; by apply keq_ne].
Defined.
End order_lemmas.

Ltac kcases a b :=
  let E := fresh "E" in
  destruct (klt_cases a b) as [(?&?&?)|[(E&?&?&?)|(?&?&?)]]; [|try subst a|];
  repeat match goal with
  | H : klt ?x ?y = _ |- context [klt ?x ?y] => rewrite H
  | H : keq ?x ?y = _ |- context [keq ?x ?y] => rewrite H
  end.

(** Closes order goals by saturation with transitivity. *)
Ltac korder :=
  repeat match goal with
  | H : ?x = ?y |- _ => first [subst x | subst y | fail]
  end;
  solve [ done
        | eauto 6 using klt_trans, klt_le_trans, kle_lt_trans, kle_trans, klt_asym, klt_irrefl, klt_ne
        | exfalso; repeat match goal with
          | H : klt ?x ?x = true |- _ => by rewrite klt_irrefl in H
          | H1 : klt ?x ?y = true, H2 : klt ?y ?x = true |- _ => by rewrite (klt_asym _ _ H1) in H2
          | H1 : klt ?x ?y = true, H2 : klt ?x ?y = false |- _ => by rewrite H1 in H2
          end ].

Section sorted_lemmas.
Context {K V : Type} `{KeyOrder K}.
Implicit Types (m l : list (K * V)) (k : K).

Lemma sorted_nil : sorted ([] : list (K * V)).
Proof. constructor. Qed.

Lemma sorted_cons e m :
  sorted (e :: m) ↔ (∀ x, x ∈ m → klt e.1 x.1 = true) ∧ sorted m.
Proof.
  unfold sorted. split.
  - intros Hs. apply StronglySorted_inv in Hs as [? Hf]. split; [|done]. by rewrite Forall_forall in Hf.
  - intros [Hf ?]. constructor; [done|]. by rewrite Forall_forall.
Qed.

Lemma sorted_app m l :
  sorted (m ++ l) ↔ sorted m ∧ sorted l ∧ (∀ x y, x ∈ m → y ∈ l → klt x.1 y.1 = true).
Proof.
  induction m as [|e m IH]; cbn.
  - split; [intros; split_and!; auto using sorted_nil|by intros (_&?&_)].
    intros ? ? Hx. by apply not_elem_of_nil in Hx.
  - rewrite !sorted_cons, IH. setoid_rewrite elem_of_app. setoid_rewrite elem_of_cons.
    split; [|naive_solver].
    intros (H1 & H2 & H3 & H4). split_and!; auto.
    intros x y [->|?] ?; auto.
Qed.

Lemma sorted_singleton e : sorted [e : K * V].
Proof. apply sorted_cons. split; [|apply sorted_nil]. intros x Hx. by apply not_elem_of_nil in Hx. Qed.

Lemma sorted_filter (f : K * V → bool) m : sorted m → sorted (List.filter f m).
Proof.
  induction m as [|e m IH]; [done|]. rewrite sorted_cons. intros [He Hm]. cbn.
  destruct (f e); [|auto]. apply sorted_cons. split; [|auto].
  intros x Hx. apply He. rewrite list_elem_of_In in Hx |- *.
  by apply List.filter_In in Hx as [? _].
Qed.

Lemma sorted_key_inj m k v1 v2 : sorted m → (k, v1) ∈ m → (k, v2) ∈ m → v1 = v2.
Proof.
  induction m as [|e m IH]; [intros _ Hx; by apply not_elem_of_nil in Hx|].
  rewrite sorted_cons, !elem_of_cons. intros [He Hm] [<-|H1] [E|H2]; try congruence.
  - apply He in H2. cbn in H2. by rewrite klt_irrefl in H2.
  - subst e. apply He in H1. cbn in H1. by rewrite klt_irrefl in H1.
  - auto.
Qed.

(** Closed forms of the operations on sorted entries. *)
Lemma lower_bound_app m k : m = (lower_bound m k).1 ++ (lower_bound m k).2.
Proof.
  induction m as [|e m IH]; [done|]. cbn. destruct (klt e.1 k); [|done].
  destruct (lower_bound m k); cbn in *. by rewrite IH at 1.
Qed.

Lemma upper_bound_app m k : m = (upper_bound m k).1 ++ (upper_bound m k).2.
Proof.
  induction m as [|e m IH]; [done|]. cbn. destruct (klt k e.1); [done|].
  destruct (upper_bound m k); cbn in *. by rewrite IH at 1.
Qed.

Lemma lower_bound_filter m k : sorted m →
  lower_bound m k = (List.filter (λ e, klt e.1 k) m, List.filter (λ e, negb (klt e.1 k)) m).
Proof.
  induction m as [|e m IH]; [done|]. rewrite sorted_cons. intros [He Hm]. cbn.
  destruct (klt e.1 k) eqn:E; cbn; [by rewrite IH|].
  assert (∀ x, x ∈ m → klt x.1 k = false) as Hx by (intros x Hx%He; korder).
  rewrite lfilter_none by auto. rewrite lfilter_all; [done|].
  intros x Hin. by rewrite Hx.
Qed.

Lemma upper_bound_filter m k : sorted m →
  upper_bound m k = (List.filter (λ e, negb (klt k e.1)) m, List.filter (λ e, klt k e.1) m).
Proof.
  induction m as [|e m IH]; [done|]. rewrite sorted_cons. intros [He Hm]. cbn.
  destruct (klt k e.1) eqn:E; cbn; [|by rewrite IH].
  assert (∀ x, x ∈ m → klt k x.1 = true) as Hx by (intros x Hx%He; korder).
  rewrite lfilter_none by (intros x Hin; by rewrite Hx). by rewrite lfilter_all.
Qed.

Lemma map_assign_filter m k v : sorted m →
  map_assign m k v = List.filter (λ e, klt e.1 k) m ++ (k, v) :: List.filter (λ e, klt k e.1) m.
Proof.
  induction m as [|e m IH]; [done|]. rewrite sorted_cons. intros [He Hm]. cbn.
  kcases (e.1) k.
  - cbn. by rewrite IH.
  - assert (∀ x, x ∈ m → klt k x.1 = true) as Hx by (intros x Hx%He; by rewrite <- E).
    rewrite lfilter_none by (intros x Hin%Hx; korder). by rewrite lfilter_all, E.
  - assert (∀ x, x ∈ m → klt k x.1 = true) as Hx by (intros x Hx%He; korder).
    rewrite lfilter_none by (intros x Hin%Hx; korder). by rewrite lfilter_all.
Qed.

Lemma map_erase_filter m k : sorted m →
  map_erase m k = List.filter (λ e, negb (keq e.1 k)) m.
Proof.
  induction m as [|e m IH]; [done|]. rewrite sorted_cons. intros [He Hm]. cbn.
  kcases (e.1) k; cbn.
  - by rewrite IH.
  - rewrite lfilter_all; [done|].
    intros x Hx%He. rewrite E in Hx. apply negb_true_iff, keq_ne. intros Heq. rewrite Heq in Hx. korder.
  - rewrite lfilter_all; [done|].
    intros x Hx%He. apply negb_true_iff, keq_ne. intros Heq. rewrite Heq in Hx. korder.
Qed.

Lemma map_erase_absent m k : sorted m → (∀ x, x ∈ m → x.1 ≠ k) → map_erase m k = m.
Proof. intros Hm Hk. rewrite map_erase_filter by done. apply lfilter_all. intros x Hx%Hk. by apply negb_true_iff, keq_ne. Qed.

Lemma map_find_elem_of m k v : sorted m → map_find m k = Some v ↔ (k, v) ∈ m.
Proof.
  induction m as [|e m IH]; [intros; by rewrite elem_of_nil|]. rewrite sorted_cons.
  intros [He Hm]. cbn. rewrite elem_of_cons. kcases (e.1) k.
  - rewrite IH by done. split; [auto|]. intros [<-|]; [cbn in *; korder|done].
  - split; [intros [= <-]; left; subst k; by destruct e|].
    intros [<-|Hx%He]; [done|]. cbn in Hx. korder.
  - split; [done|]. intros [<-|Hx%He]; cbn in *; korder.
Qed.

Lemma map_find_None m k : sorted m → map_find m k = None ↔ (∀ v, (k, v) ∉ m).
Proof.
  intros Hm. split.
  - intros Hn v Hv. apply map_find_elem_of in Hv; [|done]. congruence.
  - intros Hn. destruct (map_find m k) as [v|] eqn:E; [|done].
    apply map_find_elem_of in E; [|done]. by apply Hn in E.
Qed.

Lemma elem_of_map_assign m k v x : sorted m →
  x ∈ map_assign m k v ↔ x = (k, v) ∨ (x ∈ m ∧ x.1 ≠ k).
Proof.
  intros Hm. rewrite map_assign_filter, elem_of_app, elem_of_cons, !elem_of_lfilter by done.
  split.
  - intros [[? ?]|[?|[? ?]]]; [right|by left|right]; (split; [done|]);
      intros <-; korder.
  - intros [?|[? ?]]; [auto|]. destruct (klt_cases (x.1) k) as [(?&?&?)|[(?&?&?&?)|(?&?&?)]]; auto.
Qed.

Lemma sorted_map_assign m k v : sorted m → sorted (map_assign m k v).
Proof.
  intros Hm. rewrite map_assign_filter by done. apply sorted_app. rewrite sorted_cons.
  split_and!; eauto using sorted_filter.
  - intros x [_ ?]%elem_of_lfilter. done.
  - intros x y [_ ?]%elem_of_lfilter [->|[_ ?]%elem_of_lfilter]%elem_of_cons; [done|]. korder.
Qed.

Lemma length_map_assign m k v : length (map_assign m k v) ≤ S (length m).
Proof. induction m as [|e m IH]; cbn; [lia|]. destruct (klt e.1 k); [cbn; lia|]. destruct (klt k e.1); cbn; lia. Qed.

Lemma elem_of_map_erase m k x : sorted m → x ∈ map_erase m k ↔ x ∈ m ∧ x.1 ≠ k.
Proof.
  intros Hm. rewrite map_erase_filter, elem_of_lfilter, negb_true_iff, keq_ne by done. done.
Qed.

Lemma sorted_map_erase m k : sorted m → sorted (map_erase m k).
Proof. intros Hm. rewrite map_erase_filter by done. by apply sorted_filter. Qed.

(** Inserting an entry whose key is absent is assigning it. *)
Lemma map_insert_assign m k v : sorted m → (∀ w, (k, w) ∉ m) → map_insert m k v = map_assign m k v.
Proof.
  induction m as [|e m IH]; [done|]. rewrite sorted_cons. intros [He Hm] Hk. cbn.
  kcases (e.1) k.
  - f_equal. apply IH; [done|]. intros w Hw. apply (Hk w), elem_of_cons; auto.
  - exfalso. apply (Hk e.2), elem_of_cons. left. subst k. by destruct e.
  - done.
Qed.

(** Two sorted lists with the same entries are equal. *)
Lemma sorted_ext m l : sorted m → sorted l → (∀ x, x ∈ m ↔ x ∈ l) → m = l.
Proof.
  revert l. induction m as [|e m IH]; intros [|e' l] Hm Hl Hext.
  - done.
  - exfalso. apply (not_elem_of_nil e'), Hext, elem_of_cons; auto.
  - exfalso. apply (not_elem_of_nil e), Hext, elem_of_cons; auto.
  - apply sorted_cons in Hm as [He Hm]. apply sorted_cons in Hl as [He' Hl].
    assert (e = e') as <-.
    { assert (e ∈ e' :: l) as [|Hin%He']%elem_of_cons by (apply Hext, elem_of_cons; auto); [done|].
      assert (e' ∈ e :: m) as [|Hin'%He]%elem_of_cons by (apply Hext, elem_of_cons; auto); [done|].
      korder. }
    f_equal. apply IH; [done..|]. intros x. split; intros Hx.
    + assert (x ∈ e :: l) as [->|]%elem_of_cons by (apply Hext, elem_of_cons; auto); [|done].
      apply He in Hx. korder.
    + assert (x ∈ e :: m) as [->|]%elem_of_cons by (apply Hext, elem_of_cons; auto); [|done].
      apply He' in Hx. korder.
Qed.

(** Lookups after the operations. *)
Lemma map_find_eq m m' k k' :
  sorted m → sorted m' → (∀ v, (k, v) ∈ m ↔ (k', v) ∈ m') → map_find m k = map_find m' k'.
Proof.
  intros Hm Hm' Hext. destruct (map_find m k) as [v|] eqn:E; symmetry.
  - apply map_find_elem_of; [done|]. by apply Hext, map_find_elem_of.
  - apply map_find_None; [done|]. intros v Hv%Hext. by apply (proj1 (map_find_None m k Hm) E v).
Qed.

Lemma map_find_assign m k v k' :
  sorted m → map_find (map_assign m k v) k' = if keq k' k then Some v else map_find m k'.
Proof.
  intros Hm. pose proof (sorted_map_assign m k v Hm) as Hs. destruct (keq k' k) eqn:E.
  - apply keq_eq in E as ->. apply map_find_elem_of; [done|]. apply elem_of_map_assign; auto.
  - apply keq_ne in E. apply map_find_eq; [done..|]. intros w. rewrite elem_of_map_assign by done. cbn.
    split; [intros [[= ? ?]|[? _]]; done|auto].
Qed.

Lemma map_find_erase m k k' :
  sorted m → map_find (map_erase m k) k' = if keq k' k then None else map_find m k'.
Proof.
  intros Hm. pose proof (sorted_map_erase m k Hm) as Hs. destruct (keq k' k) eqn:E.
  - apply keq_eq in E as ->. apply map_find_None; [done|]. intros v. rewrite elem_of_map_erase by done. by intros [_ ?].
  - apply keq_ne in E. apply map_find_eq; [done..|]. intros w. rewrite elem_of_map_erase by done. cbn. tauto.
Qed.

Lemma map_find_lfilter (f : K → bool) m k :
  sorted m → map_find (List.filter (λ x, f x.1) m) k = if f k then map_find m k else None.
Proof.
  intros Hm. pose proof (sorted_filter (λ x : K * V, f x.1) m Hm) as Hs. destruct (f k) eqn:E.
  - apply map_find_eq; [done..|]. intros v. rewrite elem_of_lfilter. cbn. rewrite E. tauto.
  - apply map_find_None; [done|]. intros v [_ Hv]%elem_of_lfilter. cbn in Hv. congruence.
Qed.
End sorted_lemmas.
