(* ===== verification/Message.v ===== *)
(** * Messages and nodes of the tree (client/betree.hpp)

    [MessageKey], [Message], the node record with its two maps, and the node
    operations that touch no other node: [is_leaf], [get_pivot],
    [get_element_begin] and [apply]. *)
From Stdlib Require Import ZArith Lia.
From stdpp Require Import prelude.
From S2P Require Import Prelude StdMap.

#[local] Open Scope cpp_scope.

(** What the tree requires of a value type: [operator+] and [Value()]. *)
Class ValueOps (V : Type) := {
  vadd : V → V → V;
  vnew : V;
}.

Section message_key.
Context {K : Type} `{KeyOps K}.

Record MessageKey := MkMessageKey { mk_key : K; mk_timestamp : Z }.

Definition range_start (k : K) : MessageKey := MkMessageKey k 0.
Definition range_end (k : K) : MessageKey := MkMessageKey k UINT64_MAX.
Definition mkey_range_start (mk : MessageKey) : MessageKey := range_start (mk_key mk).
Definition mkey_range_end (mk : MessageKey) : MessageKey := range_end (mk_key mk).

(** [operator<] and [operator==] on two message keys. *)
Definition mkey_lt (a b : MessageKey) : bool :=
  klt (mk_key a) (mk_key b) ||
  (keq (mk_key a) (mk_key b) && (mk_timestamp a <? mk_timestamp b)%Z).
Definition mkey_eq (a b : MessageKey) : bool :=
  keq (mk_key a) (mk_key b) && (mk_timestamp a =? mk_timestamp b)%Z.

(** The mixed comparisons of a key with a message key. *)
Definition key_lt_mkey (k : K) (b : MessageKey) : bool := klt k (mk_key b).
Definition mkey_lt_key (a : MessageKey) (k : K) : bool := klt (mk_key a) k.

#[global] Instance mkey_ops : KeyOps MessageKey := { klt := mkey_lt; keq := mkey_eq }.
End message_key.
Arguments MessageKey K : clear implicits.
Arguments mkey_range_start {K} mk /.
Arguments mkey_range_end {K} mk /.

(** [#define INSERT (0)], [DELETE (1)], [UPDATE (2)] *)
Definition INSERT : Z := 0.
Definition DELETE : Z := 1.
Definition UPDATE : Z := 2.

Record Message (V : Type) := MkMessage { opcode : Z; val : V }.
Arguments MkMessage {V} opcode val.
Arguments opcode {V} m.
Arguments val {V} m.

(** A [swap_space::pointer<node>] is the id of its target object; 0 is the null pointer. *)
Definition node_pointer := N.
Record child_info := MkChildInfo { child : node_pointer; child_size : Z }.

Section node.
Context {K V : Type} `{KeyOps K} `{ValueOps V}.

Definition pivot_map : Type := list (K * child_info).
Definition message_map : Type := list (MessageKey K * Message V).

Record node := MkNode { pivots : pivot_map; elements : message_map }.

(** [new node] *)
Definition empty_node : node := MkNode [] [].

Definition set_pivots (n : node) (p : pivot_map) : node := MkNode p (elements n).
Definition set_elements (n : node) (e : message_map) : node := MkNode (pivots n) e.

Definition is_leaf (n : node) : bool := match pivots n with [] => true | _ => false end.

(** [elements.size() + pivots.size()] *)
Definition node_size (n : node) : Z := (Z.of_nat (length (elements n)) + Z.of_nat (length (pivots n)))%Z.

(** The pivot whose child is responsible for [k]; an iterator is the entry it points to. *)
Definition get_pivot {S} (mp : pivot_map) (k : K) : M S (K * child_info) :=
  assert_ (0 <? Z.of_nat (length mp))%Z ;;
  match lower_bound mp k with
  | ([], it :: _) => if klt k it.1 then throw out_of_range else ret it
  | (before, it :: _) => if klt k it.1 then of_option undefined_behaviour (last before) else ret it
  | (before, []) => of_option undefined_behaviour (last before)
  end.

(** First element with key at least [k]. *)
Definition get_element_begin (n : node) (k : K) : message_map :=
  (lower_bound (elements n) (range_start k)).2.

(** First element that goes to the child indicated by a pivot iterator ([None] is [pivots.end()]). *)
Definition get_element_begin_it (n : node) (it : option K) : message_map :=
  match it with None => [] | Some k => get_element_begin n k end.

(** [next(it)] for the pivot iterator at key [k]. *)
Fixpoint next_pivot (mp : pivot_map) (k : K) : option K :=
  match mp with
  | [] => None
  | e :: mp' => if keq e.1 k then fst <$> head mp' else next_pivot mp' k
  end.

(** [apply] with opcode [INSERT]. *)
Definition apply_insert (n : node) (mkey : MessageKey K) (elt : Message V) : node :=
  set_elements n
    (map_assign
       (map_erase_range (elements n) (mkey_range_start mkey) (mkey_range_end mkey))
       mkey elt).

(** [apply] with opcode [DELETE]. *)
Definition apply_delete (n : node) (mkey : MessageKey K) (elt : Message V) : node :=
  let es := map_erase_range (elements n) (mkey_range_start mkey) (mkey_range_end mkey) in
  set_elements n (if is_leaf n then es else map_assign es mkey elt).

(** [apply] with opcode [UPDATE]: [iter] is the entry before [upper_bound(range_end)], or the
    first one when there is none before it. *)
Definition apply_update (n : node) (mkey : MessageKey K) (elt : Message V) (default_value : V) : node :=
  let '(before, from) := upper_bound (elements n) (mkey_range_end mkey) in
  let iter := match last before with Some e => Some e | None => head from end in
  let fresh :=
    if is_leaf n
    then apply_insert n mkey (MkMessage INSERT (vadd default_value (val elt)))
    else set_elements n (map_assign (elements n) mkey elt) in
  match iter with
  | None => fresh
  | Some (mk, m) =>
      if negb (keq (mk_key mk) (mk_key mkey)) then fresh
      else if (opcode m =? INSERT)%Z
      then apply_insert n mkey (MkMessage INSERT (vadd (val m) (val elt)))
      else set_elements n (map_assign (elements n) mkey elt)
  end.

(** Apply a message to a node; [None] is [assert(0)] on an unknown opcode. *)
Definition apply (n : node) (mkey : MessageKey K) (elt : Message V) (default_value : V) : option node :=
  if (opcode elt =? INSERT)%Z then Some (apply_insert n mkey elt)
  else if (opcode elt =? DELETE)%Z then Some (apply_delete n mkey elt)
  else if (opcode elt =? UPDATE)%Z then Some (apply_update n mkey elt default_value)
  else None.

(** [for (auto it = elts.begin(); it != elts.end(); ++it) apply(it->first, it->second, ...)] *)
Fixpoint apply_all (n : node) (elts : message_map) (default_value : V) : option node :=
  match elts with
  | [] => Some n
  | e :: elts' => n' ← apply n e.1 e.2 default_value; apply_all n' elts' default_value
  end.
End node.
Arguments node K V : clear implicits.
Arguments pivot_map K : clear implicits.
Arguments message_map K V : clear implicits.
