(* ===== verification/NodeStore.v ===== *)
(** * The object store the tree runs on

    The tree reaches its nodes only through [swap_space::pointer]: [p->f()]
    builds a temporary [pin] (constructor, [operator->], destructor), [allocate]
    makes a new object, [is_dirty] and [is_in_memory] ask for an object's state, and
    when the last pointer to an object goes away the object is freed.
    [StoreOps] is that interface; [Store] states what a store promises about it:
    a logical content per object that swapping never changes, pinned objects that
    stay addressable, and dirty marks that appear only through the operations
    named by the caller. *)
From Stdlib Require Import ZArith Lia.
From stdpp Require Import prelude gmap.
From S2P Require Import Prelude.

#[local] Open Scope cpp_scope.

(** The pointers an object holds. *)
Class Links (node : Type) := links : node → list N.

Class StoreOps (St node : Type) := {
  st_enter : N → bool → M St unit;     (* pin(p) and pin::operator->; true: the non-const one *)
  st_leave : N → M St unit;            (* ~pin() *)
  st_deref : N → M St node;            (* reading through the plain pointer *)
  st_update : N → node → M St unit;    (* writing through the plain pointer *)
  st_allocate : node → M St N;         (* ss->allocate(new node) *)
  st_release : N → M St unit;          (* ~pointer() of the last pointer to an object *)
  st_is_dirty : N → M St bool;         (* pointer::is_dirty() *)
  st_is_in_memory : N → M St bool;     (* pointer::is_in_memory() *)
}.

(** [p->body]: the pin lives to the end of the call, also when it throws. *)
Definition arrow {St node A} `{StoreOps St node} (p : N) (d : bool) (body : M St A) : M St A :=
  st_enter p d ;;
  λ s, match body s with
       | Ok a s' => (st_leave p ;; ret a) s'
       | Throw e s' => (st_leave p ;; throw e) s'
       | Halt f => Halt f
       end.

(** [p->field], and a statement that changes the object [p] points to. *)
Definition arrow_read {St node} `{StoreOps St node} (p : N) (d : bool) : M St node :=
  arrow p d (st_deref p).
Definition arrow_modify {St node} `{StoreOps St node} (p : N) (f : node → node) : M St unit :=
  arrow p true (let! n := st_deref p in st_update p (f n)).

(** An expression that goes through [p->] twice: both pins live to its end. *)
Definition arrow_twice {St node A} `{StoreOps St node} (p : N) (f : node → node → M St A) : M St A :=
  arrow p true (let! n1 := st_deref p in arrow p true (let! n2 := st_deref p in f n1 n2)).

Class Store (St node : Type) `{Links node} `{StoreOps St node} := {
  st_inv : St → Prop;
  st_view : St → gmap N node;
  st_pins : St → N → nat;
  st_dirty : St → N → Prop;

  st_pins_absent s i : st_inv s → st_view s !! i = None → st_pins s i = 0;
  st_enter_spec tol s i d :
    tol store_fault → st_inv s → is_Some (st_view s !! i) →
    wp tol (st_enter i d) s (λ _ s',
      st_inv s' ∧ st_view s' = st_view s ∧
      (∀ j, st_pins s' j = st_pins s j + (if decide (j = i) then 1 else 0)) ∧
      (∀ j, 0 < st_pins s j → st_dirty s j → st_dirty s' j) ∧
      (∀ j, st_dirty s' j → st_dirty s j ∨ (j = i ∧ d = true)) ∧
      (d = true → st_dirty s' i)) no_exn;
  st_leave_spec tol s i :
    tol store_fault → st_inv s → 0 < st_pins s i →
    wp tol (st_leave i) s (λ _ s',
      st_inv s' ∧ st_view s' = st_view s ∧
      (∀ j, st_pins s j = st_pins s' j + (if decide (j = i) then 1 else 0)) ∧
      (∀ j, 0 < st_pins s' j → st_dirty s j → st_dirty s' j) ∧
      (∀ j, st_dirty s' j → st_dirty s j)) no_exn;
  st_deref_spec s i n :
    st_inv s → 0 < st_pins s i → st_view s !! i = Some n → st_deref i s = Ok n s;
  st_update_spec tol s i n :
    tol store_fault → st_inv s → 0 < st_pins s i → st_dirty s i →
    wp tol (st_update i n) s (λ _ s',
      st_inv s' ∧ st_view s' = <[i := n]> (st_view s) ∧
      (∀ j, st_pins s' j = st_pins s j) ∧ (∀ j, st_dirty s' j ↔ st_dirty s j)) no_exn;
  st_allocate_spec tol s n :
    tol store_fault → st_inv s →
    wp tol (st_allocate n) s (λ i s',
      st_inv s' ∧ st_view s !! i = None ∧ st_view s' = <[i := n]> (st_view s) ∧
      (∀ j, st_pins s' j = st_pins s j) ∧
      (∀ j, 0 < st_pins s j → st_dirty s j → st_dirty s' j) ∧
      (∀ j, st_dirty s' j → st_dirty s j ∨ j = i)) no_exn;
  st_release_spec tol s i n :
    tol store_fault → st_inv s → st_view s !! i = Some n → links n = [] → st_pins s i = 0 →
    wp tol (st_release i) s (λ _ s',
      st_inv s' ∧ st_view s' = delete i (st_view s) ∧
      (∀ j, st_pins s' j = st_pins s j) ∧ (∀ j, st_dirty s' j ↔ st_dirty s j ∧ j ≠ i)) no_exn;
  st_is_dirty_spec s i :
    st_inv s → is_Some (st_view s !! i) →
    ∃ b, st_is_dirty i s = Ok b s ∧ (b = true ↔ st_dirty s i);
  st_is_in_memory_spec s i :
    st_inv s → is_Some (st_view s !! i) → ∃ b, st_is_in_memory i s = Ok b s;
}.

Section evolution.
Context {St node : Type} `{Links node} `{StoreOps St node} `{!Store St node}.
Implicit Types (s : St) (X Y : gset N).

(** From [s] to [s'] only objects of [X] and objects created meanwhile were written
    or became dirty; pins are balanced. *)
Record evolves (X : gset N) (s s' : St) : Prop := {
  ev_inv : st_inv s';
  ev_pins j : st_pins s' j = st_pins s j;
  ev_keep j : 0 < st_pins s j → st_dirty s j → st_dirty s' j;
  ev_dirty j : st_dirty s' j → st_dirty s j ∨ j ∈ X ∨ st_view s !! j = None;
  ev_view j n : st_view s !! j = Some n → j ∉ X → st_view s' !! j = Some n;
}.

Lemma evolves_refl X s : st_inv s → evolves X s s.
Proof. by intros; split; auto. Qed.

Lemma evolves_dom X s s' j :
  evolves X s s' → is_Some (st_view s !! j) → is_Some (st_view s' !! j) ∨ j ∈ X.
Proof.
  intros Hev [n Hn]. destruct (decide (j ∈ X)); [by right|left]. exists n. by apply (ev_view _ _ _ Hev).
Qed.

Lemma evolves_trans X Y s1 s2 s3 :
  evolves X s1 s2 → evolves Y s2 s3 →
  (∀ i, i ∈ Y → i ∈ X ∨ st_view s1 !! i = None) → evolves X s1 s3.
Proof.
  intros [Hi1 Hp1 Hk1 Hd1 Hv1] [Hi2 Hp2 Hk2 Hd2 Hv2] HY. split; auto.
  - intros j. by rewrite Hp2, Hp1.
  - intros j ? ?. apply Hk2; [rewrite Hp1|]; auto.
  - intros j Hj. destruct (Hd2 j Hj) as [?|[Hin|Hn]].
    + by apply Hd1.
    + destruct (HY j Hin); auto.
    + right. destruct (decide (j ∈ X)); [by left|right]. destruct (st_view s1 !! j) eqn:E; [|done].
      apply Hv1 in E; [congruence|done].
  - intros j n Hj Hx. apply Hv2; [auto|]. intros Hin. destruct (HY j Hin); [done|congruence].
Qed.

Lemma evolves_mono X Y s s' : evolves X s s' → X ⊆ Y → evolves Y s s'.
Proof.
  intros [? ? ? Hd Hv] HXY. split; auto.
  intros j [?|[?|?]]%Hd; auto.
Qed.

(** What [p->] adds to the set of written objects: the non-const one marks its target dirty. *)
Definition arrow_writes (d : bool) (i : N) : gset N := if d then {[ i ]} else ∅.

(** The state inside the call: same contents, the target pinned. *)
Record entered (i : N) (d : bool) (s s1 : St) : Prop := {
  en_inv : st_inv s1;
  en_view : st_view s1 = st_view s;
  en_pin : 0 < st_pins s1 i;
  en_dirty : d = true → st_dirty s1 i;
  en_others j : st_dirty s1 j → st_dirty s j ∨ (j = i ∧ d = true);
  en_pins j : j ≠ i → st_pins s1 j = st_pins s j;
  en_keep j : 0 < st_pins s j → st_dirty s j → st_dirty s1 j;
}.

(** A state reached by swapping alone. *)
Record swapped (s s' : St) : Prop := {
  sw_view : st_view s' = st_view s;
  sw_dirty j : st_dirty s' j → st_dirty s j;
}.

Lemma leave_evolves i d X s s1 s2 s3 :
  entered i d s s1 →
  (∀ j, st_pins s1 j = st_pins s j + (if decide (j = i) then 1 else 0)) →
  (∀ j, 0 < st_pins s j → st_dirty s j → st_dirty s1 j) →
  evolves X s1 s2 → st_inv s3 → swapped s2 s3 →
  (∀ j, st_pins s2 j = st_pins s3 j + (if decide (j = i) then 1 else 0)) →
  (∀ j, 0 < st_pins s3 j → st_dirty s2 j → st_dirty s3 j) →
  evolves (X ∪ arrow_writes d i) s s3.
Proof.
  intros [Hi1 Hv1 Hp1 Hd1 Ho1 _ _] Hpin1 Hk1 [Hi2 Hp2 Hk2 Hd2 Hv2] Hi3 [Hv3 Hd3] Hpin3 Hk3.
  assert (∀ j, st_pins s3 j = st_pins s j) as Hpins.
  { intros j. specialize (Hpin1 j). specialize (Hpin3 j). specialize (Hp2 j). lia. }
  split; auto.
  - intros j Hj Hd. apply Hk3; [by rewrite Hpins|]. apply Hk2; [rewrite Hpin1; lia|auto].
  - intros j Hj. rewrite elem_of_union. destruct (Hd2 j) as [Hj1|[?|Hn]]; auto.
    + destruct (Ho1 j Hj1) as [?|[-> ->]]; [auto|]. right; left; right. cbn. set_solver.
    + right; right. by rewrite <- Hv1.
  - intros j n Hj Hx. rewrite Hv3. apply Hv2; [by rewrite Hv1|set_solver].
Qed.

Lemma wp_arrow {A} tol i d (body : M St A) s Q (E : exn → St → Prop) :
  tol store_fault → st_inv s → is_Some (st_view s !! i) →
  (∀ s1, entered i d s s1 →
     wp tol body s1
       (λ a s2, ∃ X, evolves X s1 s2 ∧
          ∀ s3, swapped s2 s3 → evolves (X ∪ arrow_writes d i) s s3 → Q a s3)
       (λ e s2, ∃ X, evolves X s1 s2 ∧
          ∀ s3, swapped s2 s3 → evolves (X ∪ arrow_writes d i) s s3 → E e s3)) →
  wp tol (arrow i d body) s Q E.
Proof.
  intros Htol Hinv Hdom Hbody. unfold arrow.
  eapply wp_bind_mono; [by apply st_enter_spec| |by intros ? ? []].
  intros _ s1 (Hi1 & Hv1 & Hp1 & Hk1 & Ho1 & Hd1).
  assert (entered i d s s1) as Hen.
  { split; auto; [rewrite Hp1, decide_True by done; lia|]. intros j Hj. rewrite Hp1, decide_False by done. lia. }
  specialize (Hbody s1 Hen). unfold wp in Hbody |- *.
  destruct (body s1) as [a s2|e s2|]; [| |done]; destruct Hbody as (X & Hev & HQ).
  all: assert (0 < st_pins s2 i) as Hp2 by (rewrite (ev_pins _ _ _ Hev); apply Hen).
  all: pose proof (st_leave_spec tol s2 i Htol (ev_inv _ _ _ Hev) Hp2) as Hl;
    unfold wp in Hl; unfold bind; destruct (st_leave i s2) as [? s3|? s3|]; [|done|done];
    destruct Hl as (Hi3 & Hv3 & Hpin3 & Hk3 & Hd3); cbn;
    apply HQ; [by split|]; eapply leave_evolves; eauto; by split.
Qed.

(** Reading a field of the target: nothing changes. *)
Lemma wp_arrow_read tol i d s n Q (E : exn → St → Prop) :
  tol store_fault → st_inv s → st_view s !! i = Some n →
  (∀ s', st_view s' = st_view s → (∀ j, st_dirty s' j → st_dirty s j ∨ (j = i ∧ d = true)) →
     evolves (arrow_writes d i) s s' → Q n s') →
  wp tol (arrow_read i d) s Q E.
Proof.
  intros Htol Hinv Hn HQ. apply wp_arrow; [done..| |].
  { by rewrite Hn. }
  intros s1 Hen. unfold wp. rewrite (st_deref_spec s1 i n); [|apply Hen|apply Hen|by rewrite (en_view _ _ _ _ Hen)].
  exists ∅. split; [apply evolves_refl, Hen|]. intros s3 [Hv Hd] Hev.
  apply HQ; [by rewrite Hv, (en_view _ _ _ _ Hen)| |by rewrite union_empty_l_L in Hev].
  intros j Hj. by apply (en_others _ _ _ _ Hen), Hd.
Qed.

Lemma wp_arrow_deref {A} tol i d (f : node → M St A) s n Q (E : exn → St → Prop) :
  tol store_fault → st_inv s → st_view s !! i = Some n →
  (∀ s1, entered i d s s1 →
     wp tol (f n) s1 (λ a s2, ∃ X, evolves X s1 s2 ∧
       ∀ s3, swapped s2 s3 → evolves (X ∪ arrow_writes d i) s s3 → Q a s3) no_exn) →
  wp tol (arrow i d (let! n' := st_deref i in f n')) s Q E.
Proof.
  intros Htol Hinv Hn Hf. apply wp_arrow; [done|done|by rewrite Hn|]. intros s1 Hen. specialize (Hf s1 Hen). unfold wp, bind in *.
  rewrite (st_deref_spec s1 i n); [|apply Hen|apply Hen|by rewrite (en_view _ _ _ _ Hen)]. by destruct (f n s1).
Qed.

Lemma wp_arrow_twice {A} tol i (f : node → node → M St A) s n Q (E : exn → St → Prop) :
  tol store_fault → st_inv s → st_view s !! i = Some n →
  (∀ s1, st_inv s1 → st_view s1 = st_view s → (∀ j, j ≠ i → st_pins s1 j = st_pins s j) →
     wp tol (f n n) s1 (λ a s2, ∃ X, evolves X s1 s2 ∧
       ∀ s3, st_view s3 = st_view s2 → evolves (X ∪ {[ i ]}) s s3 → Q a s3) no_exn) →
  wp tol (arrow_twice i f) s Q E.
Proof.
  intros Htol Hinv Hn Hf. unfold arrow_twice. eapply wp_arrow_deref; [done..|]. intros s1 Hen1.
  eapply wp_arrow_deref; [done|apply Hen1|by rewrite (en_view _ _ _ _ Hen1)|]. intros s2 Hen2.
  eapply wp_mono; [apply (Hf s2)| |done].
  - apply Hen2.
  - by rewrite (en_view _ _ _ _ Hen2), (en_view _ _ _ _ Hen1).
  - intros j Hj. by rewrite (en_pins _ _ _ _ Hen2), (en_pins _ _ _ _ Hen1).
  - intros a s3 (X & Hev & HQ). exists X. split; [done|]. intros s4 Hsw4 Hev4. exists (X ∪ {[i]}). split; [done|].
    intros s5 Hsw5 Hev5. apply HQ; [by rewrite (sw_view _ _ Hsw5), (sw_view _ _ Hsw4)|].
    eapply evolves_mono; [done|]. cbn. set_solver.
Qed.

(** Reading two fields of the target. *)
Lemma wp_arrow_twice_ret {A} tol i (f : node → node → A) s n Q (E : exn → St → Prop) :
  tol store_fault → st_inv s → st_view s !! i = Some n →
  (∀ s', st_view s' = st_view s → (∀ j, st_dirty s' j → st_dirty s j ∨ j = i) → evolves {[ i ]} s s' → Q (f n n) s') →
  wp tol (arrow_twice i (λ n1 n2, ret (f n1 n2))) s Q E.
Proof.
  intros Htol Hinv Hn HQ. unfold arrow_twice. eapply wp_arrow_deref; [done..|]. intros s1 Hen1.
  eapply wp_arrow_deref; [done|apply Hen1|by rewrite (en_view _ _ _ _ Hen1)|]. intros s2 Hen2. apply wp_ret.
  exists ∅. split; [apply evolves_refl, Hen2|]. intros s3 [Hv3 Hd3] Hev3. exists {[ i ]}. split; [eapply evolves_mono; [done|cbn; set_solver]|].
  intros s4 [Hv4 Hd4] Hev4. apply HQ.
  - by rewrite Hv4, Hv3, (en_view _ _ _ _ Hen2), (en_view _ _ _ _ Hen1).
  - intros j Hj%Hd4%Hd3. destruct (en_others _ _ _ _ Hen2 j Hj) as [Hj1|[-> _]]; [|by right].
    destruct (en_others _ _ _ _ Hen1 j Hj1) as [|[-> _]]; auto.
  - eapply evolves_mono; [done|]. cbn. set_solver.
Qed.

(** Writing the pinned, dirty object itself. *)
Lemma wp_update tol i n s Q (E : exn → St → Prop) :
  tol store_fault → st_inv s → 0 < st_pins s i → st_dirty s i →
  (∀ s', st_view s' = <[i := n]> (st_view s) → (∀ j, st_dirty s' j ↔ st_dirty s j) →
     evolves {[ i ]} s s' → Q tt s') →
  wp tol (st_update i n) s Q E.
Proof.
  intros Htol Hinv Hp Hd HQ. eapply wp_mono; [by apply st_update_spec| |by intros ? ? []].
  intros [] s' (Hi & Hv & Hpins & Hdirty). apply HQ; [done..|]. split; auto.
  - intros j _. by rewrite Hdirty.
  - intros j. rewrite Hdirty. auto.
  - intros j m Hj Hx. rewrite Hv, lookup_insert_ne; [done|set_solver].
Qed.

Lemma wp_allocate tol n s Q (E : exn → St → Prop) :
  tol store_fault → st_inv s →
  (∀ i s', st_view s !! i = None → st_view s' = <[i := n]> (st_view s) →
     (∀ j, st_dirty s' j → st_dirty s j ∨ j = i) → evolves ∅ s s' → Q i s') →
  wp tol (st_allocate n) s Q E.
Proof.
  intros Htol Hinv HQ. eapply wp_mono; [by apply st_allocate_spec| |by intros ? ? []].
  intros i s' (Hi & Hfresh & Hv & Hpins & Hk & Hd). apply (HQ i); [done..|]. split; auto.
  - intros j [Hj| ->]%Hd; auto.
  - intros j m Hj _. rewrite Hv, lookup_insert_ne; [done|congruence].
Qed.

(** An object that nothing points to any more. *)
Lemma wp_release tol i n s Q (E : exn → St → Prop) :
  tol store_fault → st_inv s → st_view s !! i = Some n → links n = [] → st_pins s i = 0 →
  (∀ s', st_view s' = delete i (st_view s) → (∀ j, st_dirty s' j ↔ st_dirty s j ∧ j ≠ i) →
     evolves {[ i ]} s s' → Q tt s') →
  wp tol (st_release i) s Q E.
Proof.
  intros Htol Hinv Hn Hl Hp HQ. eapply wp_mono; [by eapply st_release_spec| |by intros ? ? []].
  intros [] s' (Hi & Hv & Hpins & Hd). apply HQ; [done..|]. split; auto.
  - intros j Hj Hdj. apply Hd. split; [done|]. intros ->. lia.
  - intros j [? _]%Hd. auto.
  - intros j m Hj Hx. rewrite Hv, lookup_delete_ne; [done|set_solver].
Qed.

(** [p->field = ...] *)
Lemma wp_arrow_modify tol i f n s Q (E : exn → St → Prop) :
  tol store_fault → st_inv s → st_view s !! i = Some n →
  (∀ s', st_view s' = <[i := f n]> (st_view s) →
     (∀ j, st_dirty s' j → st_dirty s j ∨ j = i) → evolves {[ i ]} s s' → Q tt s') →
  wp tol (arrow_modify i f) s Q E.
Proof.
  intros Htol Hinv Hn HQ. apply wp_arrow; [done..| |]; [by rewrite Hn|].
  intros s1 Hen. unfold wp, bind.
  rewrite (st_deref_spec s1 i n); [|apply Hen|apply Hen|by rewrite (en_view _ _ _ _ Hen)].
  apply (wp_update tol i (f n) s1); [done|apply Hen|apply Hen|by apply Hen|].
  intros s2 Hv2 Hd2 Hev2. exists {[ i ]}. split; [done|]. intros s3 [Hv3 Hd3] Hev3.
  apply HQ.
  - by rewrite Hv3, Hv2, (en_view _ _ _ _ Hen).
  - intros j Hj%Hd3%Hd2. destruct (en_others _ _ _ _ Hen j Hj) as [|[]]; auto.
  - eapply evolves_mono; [done|]. cbn. set_solver.
Qed.
End evolution.
