(* ===== verification/BeTree.v ===== *)
(** * The tree operations (client/betree.hpp)

    [split], [flush], [query], [get_next_message] and the public operations of
    [betree], over any object store.  [this] is the id of the node a method
    runs on; the caller's pin keeps it addressable.  The C++ recursion over the
    height of the tree takes a fuel argument; the loops of [flush] and [split]
    take their own, computed from the sizes of the node.

    Each node has one pointer to it: the root pointer or an entry of a pivot map.
    [st_release] is called where that pointer goes away ([pivots.erase], the
    assignment of [root], the assignment to an entry of [result]); the copies made
    on the way (a pivot moved to a new node before the old map is cleared) leave
    the count at one and are not modelled here; pointers as values are in Pointers. *)
From Stdlib Require Import ZArith Lia.
From stdpp Require Import prelude gmap.
From S2P Require Import Prelude StdMap Message NodeStore.

#[local] Open Scope cpp_scope.

#[global] Instance node_links {K V} : Links (node K V) := λ n, (λ p, child p.2) <$> pivots n.

Section betree.
Context {K V : Type} `{KeyOps K} `{ValueOps V}.
Context {St : Type} `{StoreOps St (node K V)}.

Record betree := MkBetree {
  min_flush_size : Z;
  max_node_size : Z;
  min_node_size : Z;
  root : node_pointer;
  next_timestamp : Z;
  default_value : V;
}.

(** ** split *)

(** The numbers of new nodes and of things per new node, with the conversions to [int]. *)
Definition split_counts (bet : betree) (n : node K V) : M St (Z * Z) :=
  let total := node_size n in
  let unit_size := (wrap64 (10 * max_node_size bet) / 24)%Z in
  if (unit_size =? 0)%Z then halt undefined_behaviour
  else
    let num_new_leaves := to_int (total / unit_size) in
    if (num_new_leaves =? 0)%Z then halt undefined_behaviour
    else ret (num_new_leaves, to_int (wrap64 (total + num_new_leaves - 1) / wrap64 num_new_leaves)).

Definition put_pivot (p : K * child_info) (n : node K V) : node K V :=
  set_pivots n (map_assign (pivots n) p.1 p.2).
Definition put_element (e : MessageKey K * Message V) (n : node K V) : node K V :=
  set_elements n (map_assign (elements n) e.1 e.2).

(** [while (elt_idx != elt_end) { new_node->elements[...] = ...; ++elt_idx; things_moved++; }] *)
Fixpoint move_elements (new_node : node_pointer) (elt_idx elt_end : message_map K V) (things_moved : Z)
    : M St (message_map K V * Z) :=
  if (length elt_idx =? length elt_end)%nat then ret (elt_idx, things_moved)
  else match elt_idx with
  | [] => halt undefined_behaviour
  | e :: elt_idx' =>
      arrow_modify new_node (put_element e) ;;
      let! moved := check_int (things_moved + 1) in
      move_elements new_node elt_idx' elt_end moved
  end.

(** The loop that fills one new node; [limit] is [(i+1) * things_per_new_leaf]. *)
Fixpoint fill_node (fuel : nat) (this new_node : node_pointer) (limit : Z)
    (pivot_idx : pivot_map K) (elt_idx : message_map K V) (things_moved : Z)
    : M St (pivot_map K * message_map K V * Z) :=
  match fuel with
  | O => halt out_of_fuel
  | S fuel' =>
      if (things_moved <? limit)%Z then
        match pivot_idx with
        | p :: pivot_idx' =>
            arrow_modify new_node (put_pivot p) ;;
            let! moved := check_int (things_moved + 1) in
            let! n := st_deref this in
            let elt_end := get_element_begin_it n (fst <$> head pivot_idx') in
            let! '(elt_idx', moved') := move_elements new_node elt_idx elt_end moved in
            fill_node fuel' this new_node limit pivot_idx' elt_idx' moved'
        | [] =>
            match elt_idx with
            | e :: elt_idx' =>
                let! n := st_deref this in
                assert_ (length (pivots n) =? 0)%nat ;;
                arrow_modify new_node (put_element e) ;;
                let! moved := check_int (things_moved + 1) in
                fill_node fuel' this new_node limit [] elt_idx' moved
            | [] => ret (pivot_idx, elt_idx, things_moved)
            end
        end
      else ret (pivot_idx, elt_idx, things_moved)
  end.

(** [result[k] = ...] drops the pointer that was there. *)
Definition release_old (result : pivot_map K) (k : K) : M St unit :=
  match map_find result k with Some ci => st_release (child ci) | None => ret tt end.

(** The loop over the new nodes, [count] iterations left, at index [i]. *)
Fixpoint split_loop (count : nat) (i : Z) (this : node_pointer) (things_per_new_leaf : Z)
    (pivot_idx : pivot_map K) (elt_idx : message_map K V) (things_moved : Z) (result : pivot_map K)
    : M St (pivot_map K * message_map K V * pivot_map K) :=
  match count with
  | O => ret (pivot_idx, elt_idx, result)
  | S count' =>
      let first_key := match pivot_idx with
                       | p :: _ => Some p.1
                       | [] => (λ e : MessageKey K * Message V, mk_key e.1) <$> head elt_idx
                       end in
      match first_key with
      | None => ret (pivot_idx, elt_idx, result)
      | Some k =>
          let! new_node := st_allocate empty_node in
          let! info := arrow_twice new_node (λ n1 n2,
            release_old result k ;;
            ret (MkChildInfo new_node (Z.of_nat (length (elements n1)) + Z.of_nat (length (pivots n2))))) in
          let! limit := check_int ((i + 1) * things_per_new_leaf) in
          let! '(pivot_idx', elt_idx', moved) :=
            fill_node (S (length pivot_idx + length elt_idx)) this new_node limit
                      pivot_idx elt_idx things_moved in
          split_loop count' (i + 1) this things_per_new_leaf pivot_idx' elt_idx' moved
                     (map_assign result k info)
      end
  end.

(** [for (auto it = result.begin(); ...) it->second.child_size = ...] *)
Fixpoint set_child_sizes (result : pivot_map K) : M St (pivot_map K) :=
  match result with
  | [] => ret []
  | (k, ci) :: result' =>
      let! sz := arrow_twice (child ci) (λ n1 n2,
        ret (Z.of_nat (length (elements n1)) + Z.of_nat (length (pivots n2)))%Z) in
      let! rest := set_child_sizes result' in
      ret ((k, MkChildInfo (child ci) sz) :: rest)
  end.

Definition split (bet : betree) (this : node_pointer) : M St (pivot_map K) :=
  let! n := st_deref this in
  assert_ (max_node_size bet <=? node_size n)%Z ;;
  let! '(num_new_leaves, things_per_new_leaf) := split_counts bet n in
  let! '(pivot_idx, elt_idx, result) :=
    split_loop (Z.to_nat num_new_leaves) 0 this things_per_new_leaf (pivots n) (elements n) 0 [] in
  let! result := set_child_sizes result in
  assert_ (length pivot_idx =? 0)%nat ;;
  assert_ (length elt_idx =? 0)%nat ;;
  st_update this empty_node ;;
  ret result.

(** ** flush *)

(** Update the key of the first child, if necessary. *)
Definition lower_first_pivot (n : node K V) (newmin : MessageKey K) : node K V :=
  match pivots n with
  | [] => n
  | (oldmin, _) :: _ =>
      if mkey_lt_key newmin oldmin then
        let old := default (MkChildInfo 0%N 0%Z) (map_find (pivots n) oldmin) in
        set_pivots n (map_erase (map_assign (pivots n) (mk_key newmin) old) oldmin)
      else n
  end.

(** [it->second.child_size = sz] through a valid iterator at key [k]. *)
Definition set_child_size (mp : pivot_map K) (k : K) (sz : Z) : pivot_map K :=
  map (λ e : K * child_info, if keq e.1 k then (e.1, MkChildInfo (child e.2) sz) else e) mp.

(** [child->pivots.size() + child->elements.size()] *)
Definition child_total (c : node_pointer) : M St Z :=
  arrow_twice c (λ n1 n2, ret (Z.of_nat (length (pivots n1)) + Z.of_nat (length (elements n2)))%Z).

(** [pivots.erase(it); pivots.insert(new_children.begin(), new_children.end())] *)
Definition replace_pivot (n : node K V) (k : K) (new_children : pivot_map K) : node K V :=
  set_pivots n (map_insert_range (map_erase (pivots n) k) new_children).

(** The child with the largest set of messages in our buffer; [best] is
    ([max_size], [child_pivot], [next_pivot]). *)
Fixpoint largest_child (n : node K V) (ps : pivot_map K) (best : Z * (K * child_info) * option K)
    : option (Z * (K * child_info) * option K) :=
  match ps with
  | [] => Some best
  | it :: ps' =>
      let it2 := fst <$> head ps' in
      d ← distance (get_element_begin n it.1) (get_element_begin_it n it2);
      let dist := wrap32 d in
      largest_child n ps' (if (best.1.1 <? dist)%Z then (dist, it, it2) else best)
  end.

(** The messages from one position up to another, and the buffer without them. *)
Definition messages_between (from to : message_map K V) : message_map K V :=
  take (length from - length to) from.
Definition erase_between (es from to : message_map K V) : message_map K V :=
  take (length es - length from) es ++ to.

(** [!(...)] of the test that leaves the loop; the second disjunct asks the store. *)
Definition worth_flushing (bet : betree) (max_size : Z) (c : node_pointer) : M St bool :=
  if (min_flush_size bet <? max_size)%Z then ret true
  else if (min_flush_size bet / 2 <? max_size)%Z then st_is_in_memory c
  else ret false.

Section flush_loop.
Context (flush : node_pointer → message_map K V → M St (pivot_map K)).

(** Flush to out-of-core or clean children while the node is too big.
    [first_pivot] is the key of the iterator [first_pivot_idx], [valid] whether
    the entry it points to has not been erased. *)
Fixpoint flush_loop (fuel : nat) (bet : betree) (this : node_pointer) (first_pivot : K) (valid : bool)
    : M St unit :=
  match fuel with
  | O => halt out_of_fuel
  | S fuel' =>
      let! n := st_deref this in
      match pivots n with
      | [] => ret tt
      | begin :: _ =>
          if (max_node_size bet <=? node_size n)%Z then
            let! '(max_size, child_pivot, next_pivot) :=
              of_option undefined_behaviour
                (largest_child n (pivots n) (0%Z, begin, Some begin.1)) in
            let! go := worth_flushing bet max_size (child child_pivot.2) in
            if go then
              let elt_child_it := get_element_begin n child_pivot.1 in
              let elt_next_it := get_element_begin_it n next_pivot in
              let! new_children :=
                arrow (child child_pivot.2) true
                  (flush (child child_pivot.2) (messages_between elt_child_it elt_next_it)) in
              let! n := st_deref this in
              let n := set_elements n (erase_between (elements n) elt_child_it elt_next_it) in
              st_update this n ;;
              match new_children with
              | [] =>
                  let! sz := child_total (child child_pivot.2) in
                  if valid then
                    let! n := st_deref this in
                    st_update this (set_pivots n (set_child_size (pivots n) first_pivot sz)) ;;
                    flush_loop fuel' bet this first_pivot valid
                  else halt undefined_behaviour
              | _ =>
                  st_release (child child_pivot.2) ;;
                  st_update this (replace_pivot n child_pivot.1 new_children) ;;
                  flush_loop fuel' bet this first_pivot (valid && negb (keq child_pivot.1 first_pivot))
              end
            else ret tt
          else ret tt
      end
  end.
End flush_loop.

(** Receive a collection of new messages; the result is empty unless the node was split. *)
Fixpoint flush (fuel : nat) (bet : betree) (this : node_pointer) (elts : message_map K V)
    : M St (pivot_map K) :=
  match fuel with
  | O => halt out_of_fuel
  | S fuel' =>
      match elts, last elts with
      | first_elt :: _, Some last_elt =>
          let! n := st_deref this in
          if is_leaf n then
            let! n := of_option assert_failed (apply_all n elts (default_value bet)) in
            st_update this n ;;
            if (max_node_size bet <=? node_size n)%Z then split bet this else ret []
          else
            let n := lower_first_pivot n first_elt.1 in
            st_update this n ;;
            let! first_pivot_idx := get_pivot (pivots n) (mk_key first_elt.1) in
            let! last_pivot_idx := get_pivot (pivots n) (mk_key last_elt.1) in
            let c := child first_pivot_idx.2 in
            let! to_dirty :=
              if keq first_pivot_idx.1 last_pivot_idx.1 then st_is_dirty c else ret false in
            if to_dirty then
              assert_ (length (get_element_begin n first_pivot_idx.1) =?
                       length (get_element_begin_it n (next_pivot (pivots n) first_pivot_idx.1)))%nat ;;
              let! new_children := arrow c true (flush fuel' bet c elts) in
              let! n := st_deref this in
              match new_children with
              | [] =>
                  let! sz := child_total c in
                  let! n := st_deref this in
                  st_update this (set_pivots n (set_child_size (pivots n) first_pivot_idx.1 sz)) ;;
                  ret []
              | _ =>
                  st_release c ;;
                  st_update this (replace_pivot n first_pivot_idx.1 new_children) ;;
                  ret []
              end
            else
              let! n := of_option assert_failed (apply_all n elts (default_value bet)) in
              st_update this n ;;
              flush_loop (flush fuel' bet) (S (length (elements n))) bet this first_pivot_idx.1 true ;;
              let! n := st_deref this in
              if (max_node_size bet <? node_size n)%Z then split bet this else ret []
      | _, _ => ret []
      end
  end.

(** ** query *)

(** [while (message_iter != elements.end() && message_iter->first.key == k) { ... }] *)
Fixpoint apply_updates (k : K) (v : V) (message_iter : message_map K V) : M St V :=
  match message_iter with
  | [] => ret v
  | (mk, m) :: message_iter' =>
      if keq (mk_key mk) k then
        assert_ (opcode m =? UPDATE)%Z ;;
        apply_updates k (vadd v (val m)) message_iter'
      else ret v
  end.

Fixpoint query_node (fuel : nat) (bet : betree) (this : node_pointer) (k : K) : M St V :=
  match fuel with
  | O => halt out_of_fuel
  | S fuel' =>
      let! n := st_deref this in
      if is_leaf n then
        match (lower_bound (elements n) (range_start k)).2 with
        | (mk, m) :: _ =>
            if keq (mk_key mk) k then assert_ (opcode m =? INSERT)%Z ;; ret (val m)
            else throw out_of_range
        | [] => throw out_of_range
        end
      else
        let ask := let! p := get_pivot (pivots n) k in
                   arrow (child p.2) false (query_node fuel' bet (child p.2) k) in
        match get_element_begin n k with
        | [] => ask
        | (mk, m) :: rest =>
            if key_lt_mkey k mk then
              let! v := ask in apply_updates k v ((mk, m) :: rest)
            else if (opcode m =? UPDATE)%Z then
              let! v := catch_oor ask (ret (default_value bet)) in
              apply_updates k v ((mk, m) :: rest)
            else if (opcode m =? DELETE)%Z then
              match rest with
              | [] => throw out_of_range
              | (mk', _) :: _ =>
                  if key_lt_mkey k mk' then throw out_of_range
                  else apply_updates k (default_value bet) rest
              end
            else if (opcode m =? INSERT)%Z then apply_updates k (val m) rest
            else apply_updates k (default_value bet) ((mk, m) :: rest)
        end
  end.

(** ** Iteration *)

Section children.
Context (get_next : node_pointer → option (MessageKey K) → M St (MessageKey K * Message V)).

Fixpoint try_children (its : pivot_map K) (mkey : option (MessageKey K)) : M St (MessageKey K * Message V) :=
  match its with
  | [] => throw out_of_range
  | it :: its' =>
      catch_oor (arrow (child it.2) false (get_next (child it.2) mkey)) (try_children its' mkey)
  end.

(** The entries from the iterator at key [k] on. *)
Fixpoint pivots_from (mp : pivot_map K) (k : K) : pivot_map K :=
  match mp with
  | [] => []
  | e :: mp' => if keq e.1 k then mp else pivots_from mp' k
  end.

Definition get_next_message_from_children (n : node K V) (mkey : option (MessageKey K))
    : M St (MessageKey K * Message V) :=
  match pivots n with
  | [] => halt undefined_behaviour
  | begin :: _ =>
      let mkey := match mkey with
                  | Some mk => if mkey_lt_key mk begin.1 then None else Some mk
                  | None => None
                  end in
      match mkey with
      | Some mk =>
          let! p := get_pivot (pivots n) (mk_key mk) in
          try_children (pivots_from (pivots n) p.1) mkey
      | None => try_children (pivots n) mkey
      end
  end.
End children.

Fixpoint get_next_message (fuel : nat) (this : node_pointer) (mkey : option (MessageKey K))
    : M St (MessageKey K * Message V) :=
  match fuel with
  | O => halt out_of_fuel
  | S fuel' =>
      let! n := st_deref this in
      let it := match mkey with
                | Some mk => (upper_bound (elements n) mk).2
                | None => elements n
                end in
      if is_leaf n then
        match it with [] => throw out_of_range | e :: _ => ret e end
      else
        match it with
        | [] => get_next_message_from_children (get_next_message fuel') n mkey
        | e :: _ =>
            catch_oor
              (let! kids := get_next_message_from_children (get_next_message fuel') n mkey in
               if klt kids.1 e.1 then ret kids else ret e)
              (ret e)
        end
  end.

(** ** Public operations *)

Definition new_betree (maxnodesize minnodesize minflushsize : Z) : M St betree :=
  let! r := st_allocate empty_node in
  ret (MkBetree minflushsize maxnodesize minnodesize r 1 vnew).

Definition upsert (fuel : nat) (bet : betree) (opc : Z) (k : K) (v : V) : M St betree :=
  let tmp := map_assign [] (MkMessageKey k (next_timestamp bet)) (MkMessage opc v) in
  let bet := MkBetree (min_flush_size bet) (max_node_size bet) (min_node_size bet) (root bet)
                      (wrap64 (next_timestamp bet + 1)) (default_value bet) in
  let! new_nodes := arrow (root bet) true (flush fuel bet (root bet) tmp) in
  match new_nodes with
  | [] => ret bet
  | _ =>
      let! r := st_allocate empty_node in
      st_release (root bet) ;;
      arrow_modify r (λ n, set_pivots n new_nodes) ;;
      ret (MkBetree (min_flush_size bet) (max_node_size bet) (min_node_size bet) r
                    (next_timestamp bet) (default_value bet))
  end.

Definition insert (fuel : nat) (bet : betree) (k : K) (v : V) : M St betree := upsert fuel bet INSERT k v.
Definition update (fuel : nat) (bet : betree) (k : K) (v : V) : M St betree := upsert fuel bet UPDATE k v.
Definition erase (fuel : nat) (bet : betree) (k : K) : M St betree :=
  upsert fuel bet DELETE k (default_value bet).

(** The call on [root] is the non-const one: a query dirties the root. *)
Definition query (fuel : nat) (bet : betree) (k : K) : M St V :=
  arrow (root bet) true (query_node fuel bet (root bet) k).
End betree.
Arguments betree V : clear implicits.
