(* ===== verification/Iterator.v ===== *)
(** * Iterators over a tree (client/betree.hpp, [betree::iterator])

    [begin], [lower_bound], [upper_bound] and [end] make iterators; [++] moves one
    to the next key that has a value.  [dump_messages] lists all messages. *)
From Stdlib Require Import ZArith Lia.
From stdpp Require Import prelude gmap.
From S2P Require Import Prelude StdMap Message NodeStore BeTree.

#[local] Open Scope cpp_scope.

(** [Key()] *)
Class KeyNew (K : Type) := knew : K.

Section iterator.
Context {K V : Type} `{KeyOps K} `{KeyNew K} `{ValueOps V} `{EqDecision V}.
Context {St : Type} `{StoreOps St (node K V)}.
Implicit Types (bet : betree V).

(** [std::pair<MessageKey<Key>, Message<Value>>] *)
Definition entry : Type := MessageKey K * Message V.

Record iterator := MkIterator {
  position : entry;
  is_valid : bool;
  pos_is_valid : bool;
  first : K;
  second : V;
}.

(** [iterator(bet)] *)
Definition end_iterator : iterator :=
  MkIterator (MkMessageKey knew 0, MkMessage INSERT vnew) false false knew vnew.

Definition set_position (it : iterator) (p : entry) : iterator :=
  MkIterator p (is_valid it) true (first it) (second it).
Definition lose_position (it : iterator) : iterator :=
  MkIterator (position it) (is_valid it) false (first it) (second it).
Definition invalidate (it : iterator) : iterator :=
  MkIterator (position it) false (pos_is_valid it) (first it) (second it).

(** [iterator::apply]; an unknown opcode calls [abort()]. *)
Definition iterator_apply (bet : betree V) (it : iterator) (msgkey : MessageKey K) (msg : Message V)
    : M St iterator :=
  if (opcode msg =? INSERT)%Z then
    ret (MkIterator (position it) true (pos_is_valid it) (mk_key msgkey) (val msg))
  else if (opcode msg =? UPDATE)%Z then
    let second := if is_valid it then second it else default_value bet in
    ret (MkIterator (position it) true (pos_is_valid it) (mk_key msgkey) (vadd second (val msg)))
  else if (opcode msg =? DELETE)%Z then ret (invalidate it)
  else halt assert_failed.

(** [bet.root->get_next_message(mkey)] on a [const betree &]. *)
Definition root_next (fuel : nat) (bet : betree V) (mkey : option (MessageKey K)) : M St entry :=
  arrow (root bet) false (get_next_message fuel (root bet) mkey).

(** The loop of [setup_next_element]; [rounds] bounds its iterations. *)
Fixpoint setup_loop (rounds fuel : nat) (bet : betree V) (it : iterator) : M St iterator :=
  if pos_is_valid it && (negb (is_valid it) || keq (mk_key (position it).1) (first it)) then
    match rounds with
    | O => halt out_of_fuel
    | S rounds' =>
        let! it := iterator_apply bet it (position it).1 (position it).2 in
        let! it := catch_any (let! p := root_next fuel bet (Some (position it).1) in ret (set_position it p))
                             (ret (lose_position it)) in
        setup_loop rounds' fuel bet it
    end
  else ret it.

Definition setup_next_element (rounds fuel : nat) (bet : betree V) (it : iterator) : M St iterator :=
  setup_loop rounds fuel bet (invalidate it).

(** [iterator(bet, mkey)] *)
Definition iterator_from (rounds fuel : nat) (bet : betree V) (mkey : option (MessageKey K)) : M St iterator :=
  catch_oor (let! p := root_next fuel bet mkey in
             setup_next_element rounds fuel bet (set_position end_iterator p))
            (ret end_iterator).

Definition begin (rounds fuel : nat) (bet : betree V) : M St iterator := iterator_from rounds fuel bet None.
Definition iterator_lower_bound (rounds fuel : nat) (bet : betree V) (key : K) : M St iterator :=
  iterator_from rounds fuel bet (Some (range_start key)).
Definition iterator_upper_bound (rounds fuel : nat) (bet : betree V) (key : K) : M St iterator :=
  iterator_from rounds fuel bet (Some (range_end key)).

(** [operator==] of [MessageKey], [Message], and [iterator] (of one tree). *)
Definition message_eqb (a b : Message V) : bool :=
  (opcode a =? opcode b)%Z && bool_decide (val a = val b).
Definition position_eqb (a b : entry) : bool := keq a.1 b.1 && message_eqb a.2 b.2.
Definition iterator_eqb (a b : iterator) : bool :=
  eqb (is_valid a) (is_valid b) && eqb (pos_is_valid a) (pos_is_valid b) &&
  (negb (pos_is_valid a) || position_eqb (position a) (position b)) &&
  (negb (is_valid a) || (keq (first a) (first b) && bool_decide (second a = second b))).

Definition iterator_neb (a b : iterator) : bool := negb (iterator_eqb a b).

(** [operator++] and [end()] *)
Definition iterator_incr (rounds fuel : nat) (bet : betree V) (it : iterator) : M St iterator := setup_next_element rounds fuel bet it.
Definition betree_end : iterator := end_iterator.

(** [dump_messages], as the list of what it prints; the call on [root] is the non-const one. *)
Fixpoint dump_loop (rounds fuel : nat) (bet : betree V) (mkey : option (MessageKey K)) (out : list entry)
    : M St (list entry) :=
  match rounds with
  | O => halt out_of_fuel
  | S rounds' =>
      catch_oor
        (let! current := arrow (root bet) true (get_next_message fuel (root bet) mkey) in
         dump_loop rounds' fuel bet (Some current.1) (out ++ [current]))
        (ret out)
  end.
Definition dump_messages (rounds fuel : nat) (bet : betree V) : M St (list entry) :=
  dump_loop rounds fuel bet None [].
End iterator.
Arguments iterator K V : clear implicits.
Arguments entry K V : clear implicits.
