(* ===== verification/MessageSem.v ===== *)
(** * What a sequence of messages means, and [node::apply]

    [run d ms o] applies the messages [ms], oldest first, to the value [o] a key
    had before.  A node's buffer is well formed ([buf_ok]) when it is sorted and
    the messages of each key form a [chain]; [apply] preserves this and composes
    the meanings. *)
From Stdlib Require Import ZArith Lia.
From stdpp Require Import prelude.
From S2P Require Import Prelude StdMap Message.

Section mkey_order.
Context {K : Type} `{KeyOrder K}.

#[global] Instance mkey_order : KeyOrder (MessageKey K).
Proof.
  split.
  - intros [a i]. cbn. unfold mkey_lt; cbn. rewrite klt_irrefl, Z.ltb_irrefl. by rewrite andb_false_r.
  - intros [a i] [b j] [c l]. cbn. unfold mkey_lt; cbn.
    rewrite !orb_true_iff, !andb_true_iff, !Z.ltb_lt, !keq_eq.
    intros [?|[-> ?]] [?|[-> ?]]; [left; by eapply klt_trans|auto|auto|right; split; [done|lia]].
  - intros [a i] [b j]. cbn. unfold mkey_lt; cbn.
    rewrite !orb_false_iff, !andb_false_iff, !Z.ltb_ge.
    intros [Hab H1] [Hba H2]. pose proof (klt_total _ _ Hab Hba) as ->.
    rewrite keq_refl in *. f_equal. destruct H1, H2; try done. lia.
  - intros [a i] [b j]. cbn. unfold mkey_eq; cbn. rewrite andb_true_iff, keq_eq, Z.eqb_eq.
    split; [by intros [-> ->]|by intros [= -> ->]].
Qed.

Lemma mkey_lt_spec (a b : MessageKey K) :
  klt a b = true ↔ klt (mk_key a) (mk_key b) = true ∨
                   (mk_key a = mk_key b ∧ (mk_timestamp a < mk_timestamp b)%Z).
Proof. cbn. unfold mkey_lt. by rewrite orb_true_iff, andb_true_iff, keq_eq, Z.ltb_lt. Qed.

Lemma mkey_lt_key_le (a b : MessageKey K) : klt a b = true → klt (mk_key b) (mk_key a) = false.
Proof.
  intros [?|[-> _]]%mkey_lt_spec; [by apply klt_asym|by apply klt_irrefl].
Qed.
End mkey_order.

Section semantics.
Context {K V : Type} `{KeyOrder K} `{ValueOps V}.
Implicit Types (es : message_map K V) (k : K) (m : Message V) (e : MessageKey K * Message V).

Definition step (d : V) (o : option V) (m : Message V) : option V :=
  if (opcode m =? INSERT)%Z then Some (val m)
  else if (opcode m =? DELETE)%Z then None
  else Some (vadd (default d o) (val m)).

Definition run (d : V) (ms : list (Message V)) (o : option V) : option V := foldl (step d) o ms.

(** The key of an entry, and the messages for one key in timestamp order. *)
Definition ekey e : K := mk_key e.1.
Definition ets e : Z := mk_timestamp e.1.
Definition for_key k es : message_map K V := List.filter (λ e, keq (ekey e) k) es.
Definition msgs k es : list (Message V) := snd <$> for_key k es.

Definition valid_op m : Prop := opcode m = INSERT ∨ opcode m = DELETE ∨ opcode m = UPDATE.

(** The messages buffered for one key: an [INSERT] stands alone, everything after
    the first message is an [UPDATE]. *)
Definition chain (ms : list (Message V)) : Prop :=
  match ms with
  | [] => True
  | m :: ms' => valid_op m ∧ Forall (λ m', opcode m' = UPDATE) ms' ∧ (opcode m = INSERT → ms' = [])
  end.

(** In a leaf: at most one message per key, an [INSERT]. *)
Definition leaf_chain (ms : list (Message V)) : Prop :=
  match ms with [] => True | [m] => opcode m = INSERT | _ => False end.

Record buf_ok (leaf : bool) es : Prop := {
  buf_sorted : sorted es;
  buf_ts e : e ∈ es → (0 < ets e <= UINT64_MAX)%Z;
  buf_chain k : chain (msgs k es);
  buf_leaf k : leaf = true → leaf_chain (msgs k es);
}.

Lemma run_app d ms ms' o : run d (ms ++ ms') o = run d ms' (run d ms o).
Proof. apply foldl_app. Qed.

Lemma for_key_app k es es' : for_key k (es ++ es') = for_key k es ++ for_key k es'.
Proof. apply List.filter_app. Qed.

Lemma msgs_app k es es' : msgs k (es ++ es') = msgs k es ++ msgs k es'.
Proof. unfold msgs. by rewrite for_key_app, fmap_app. Qed.

Lemma for_key_nil k es : (∀ e, e ∈ es → ekey e ≠ k) → for_key k es = [].
Proof. intros He. apply lfilter_none. intros e Hin. by apply keq_ne, He. Qed.

Lemma msgs_nil k es : (∀ e, e ∈ es → ekey e ≠ k) → msgs k es = [].
Proof. intros He. unfold msgs. by rewrite for_key_nil. Qed.

Lemma elem_of_for_key k es e : e ∈ for_key k es ↔ e ∈ es ∧ ekey e = k.
Proof. unfold for_key. by rewrite elem_of_lfilter, keq_eq. Qed.

Lemma msgs_nil_inv k es e : msgs k es = [] → e ∈ es → ekey e ≠ k.
Proof.
  intros Hn Hin Hk. apply fmap_nil_inv in Hn.
  apply (not_elem_of_nil e). rewrite <- Hn. by apply elem_of_for_key.
Qed.

Lemma length_for_key k es : length (msgs k es) ≤ length es.
Proof. unfold msgs. rewrite length_fmap. apply length_lfilter_le. Qed.

(** Filtering a sorted map by two tests, the first of which only holds before the second. *)
Lemma sorted_filter_app {A} (es : list (MessageKey K * A)) (f g : MessageKey K * A → bool) :
  sorted es → (∀ x y, x ∈ es → y ∈ es → f x = true → g y = true → klt x.1 y.1 = true) →
  List.filter f es ++ List.filter g es = List.filter (λ x, f x || g x) es.
Proof.
  intros Hs Hfg. apply sorted_ext.
  - apply sorted_app. split_and!; eauto using sorted_filter.
    intros x y [? ?]%elem_of_lfilter [? ?]%elem_of_lfilter. auto.
  - by apply sorted_filter.
  - intros x. rewrite elem_of_app, !elem_of_lfilter, orb_true_iff. tauto.
Qed.

(** The range erased by [apply] is every message of the key. *)
Lemma erase_range_filter es k :
  sorted es → (∀ e, e ∈ es → (0 < ets e <= UINT64_MAX)%Z) →
  map_erase_range es (range_start k) (range_end k) = List.filter (λ e, negb (keq (ekey e) k)) es.
Proof.
  intros Hs Hts. unfold map_erase_range.
  rewrite lower_bound_filter, upper_bound_filter by done. cbn [fst snd].
  rewrite sorted_filter_app; [|done|].
  - apply lfilter_ext. intros e He. specialize (Hts e He). unfold ekey, ets in *.
    destruct e as [[k' ts] m]; cbn in *. unfold mkey_lt; cbn.
    replace (ts <? 0)%Z with false by (symmetry; apply Z.ltb_ge; lia).
    replace (UINT64_MAX <? ts)%Z with false by (symmetry; apply Z.ltb_ge; lia).
    rewrite !andb_false_r, !orb_false_r. by kcases k' k.
  - intros x y Hx Hy Hlt Hgt. eapply klt_trans; [done|]. eapply kle_lt_trans; [|done].
    cbn. unfold mkey_lt; cbn. by rewrite klt_irrefl, andb_false_r.
Qed.

Lemma msgs_erase_same es k : msgs k (List.filter (λ e, negb (keq (ekey e) k)) es) = [].
Proof. apply msgs_nil. intros e [_ He]%elem_of_lfilter. by apply negb_true_iff, keq_ne in He. Qed.

Lemma msgs_erase_other es k k' :
  k ≠ k' → msgs k (List.filter (λ e, negb (keq (ekey e) k')) es) = msgs k es.
Proof.
  intros Hne. unfold msgs, for_key. rewrite lfilter_lfilter. f_equal. apply lfilter_ext.
  intros e _. destruct (keq (ekey e) k) eqn:E; [|by rewrite andb_false_r].
  apply keq_eq in E as ->. by replace (keq k k') with false by (symmetry; by apply keq_ne).
Qed.

(** Assigning a message that is newer than the others of its key appends it to their chain. *)
Lemma msgs_assign_other es mk m k :
  sorted es → k ≠ mk_key mk → msgs k (map_assign es mk m) = msgs k es.
Proof.
  intros Hs Hne. rewrite map_assign_filter, msgs_app by done.
  change ((mk, m) :: ?l) with ([(mk, m)] ++ l). rewrite msgs_app.
  rewrite (msgs_nil k [(mk, m)]) by (intros e ->%list_elem_of_singleton; auto). cbn [app].
  rewrite <- msgs_app. unfold msgs, for_key. f_equal.
  rewrite sorted_filter_app; [|done|].
  - rewrite lfilter_lfilter. apply lfilter_ext. intros e He.
    destruct (keq (ekey e) k) eqn:E; [|by rewrite andb_false_r]. rewrite andb_true_r.
    apply keq_eq in E. destruct (klt_cases e.1 mk) as [(->&->&_)|[(Heq&_)|(->&->&_)]]; [done| |done].
    unfold ekey in E. congruence.
  - intros x y _ _ ? ?. by eapply klt_trans.
Qed.

Lemma msgs_assign_same es mk m :
  sorted es → (∀ e, e ∈ es → ekey e = mk_key mk → (ets e < mk_timestamp mk)%Z) →
  msgs (mk_key mk) (map_assign es mk m) = msgs (mk_key mk) es ++ [m].
Proof.
  intros Hs Hts. rewrite map_assign_filter, msgs_app by done.
  change ((mk, m) :: ?l) with ([(mk, m)] ++ l). rewrite msgs_app. f_equal.
  - unfold msgs, for_key. rewrite lfilter_lfilter. f_equal. apply lfilter_ext. intros e He.
    destruct (keq (ekey e) (mk_key mk)) eqn:E; [|by rewrite andb_false_r].
    apply keq_eq in E. rewrite andb_true_r. apply mkey_lt_spec. right. split; [done|by apply Hts].
  - rewrite (msgs_nil _ (List.filter _ es)).
    + rewrite app_nil_r. unfold msgs, for_key. cbn. unfold ekey; cbn. by rewrite keq_refl.
    + intros e [He Hlt]%elem_of_lfilter Heq. apply mkey_lt_spec in Hlt.
      unfold ekey in Heq. rewrite Heq, klt_irrefl in Hlt. specialize (Hts e He Heq).
      unfold ets in Hts. destruct Hlt as [|[_ ?]]; [done|lia].
Qed.

(** ** apply *)

(** What applying [elt] under [mk] to a buffer does. *)
Record applied (leaf : bool) (d : V) es (mk : MessageKey K) (elt : Message V) es' : Prop := {
  ap_buf : buf_ok leaf es';
  ap_other k : k ≠ mk_key mk → msgs k es' = msgs k es;
  ap_run o : (leaf = true → o = None) →
    run d (msgs (mk_key mk) es') o = step d (run d (msgs (mk_key mk) es) o) elt;
  ap_from e : e ∈ es' → e.1 = mk ∨ e ∈ es;
  ap_len : length es' ≤ S (length es);
}.

(** Replacing the whole chain of a key by one message. *)
Lemma replace_chain leaf d es mk m elt :
  buf_ok leaf es → (0 < mk_timestamp mk <= UINT64_MAX)%Z → valid_op m →
  (leaf = true → opcode m = INSERT) →
  (∀ o, (leaf = true → o = None) → step d o m = step d (run d (msgs (mk_key mk) es) o) elt) →
  applied leaf d es mk elt
    (map_assign (map_erase_range es (range_start (mk_key mk)) (range_end (mk_key mk))) mk m).
Proof.
  intros [Hs Hts Hc Hl] Hmk Hm Hleaf Hrun. rewrite erase_range_filter by done.
  set (es0 := List.filter _ es).
  assert (sorted es0) as Hs0 by by apply sorted_filter.
  assert (∀ e, e ∈ es0 → e ∈ es ∧ ekey e ≠ mk_key mk) as Hes0.
  { intros e [? ?%negb_true_iff%keq_ne]%elem_of_lfilter. done. }
  assert (msgs (mk_key mk) (map_assign es0 mk m) = [m]) as Hsame.
  { rewrite msgs_assign_same; [by unfold es0; rewrite msgs_erase_same|done|].
    intros e [_ ?]%Hes0. done. }
  assert (∀ k, k ≠ mk_key mk → msgs k (map_assign es0 mk m) = msgs k es) as Hother.
  { intros k Hk. rewrite msgs_assign_other by done. by apply msgs_erase_other. }
  split; [split| | | |].
  - by apply sorted_map_assign.
  - intros e [->|[[? _]%Hes0 _]]%elem_of_map_assign; [done| |done]. by apply Hts.
  - intros k. destruct (decide (k = mk_key mk)) as [->|Hk]; [rewrite Hsame; cbn; auto|].
    by rewrite Hother.
  - intros k ?. destruct (decide (k = mk_key mk)) as [->|Hk]; [rewrite Hsame; cbn; auto|].
    rewrite Hother by done. auto.
  - done.
  - intros o Ho. rewrite Hsame. by apply Hrun.
  - intros e [->|[[? _]%Hes0 _]]%elem_of_map_assign; auto.
  - etransitivity; [by apply length_map_assign|]. apply le_n_S, length_lfilter_le.
Qed.

(** Appending a message to the chain of its key. *)
Lemma append_chain d es mk elt :
  buf_ok false es → (0 < mk_timestamp mk <= UINT64_MAX)%Z →
  (∀ e, e ∈ es → ekey e = mk_key mk → (ets e < mk_timestamp mk)%Z) →
  chain (msgs (mk_key mk) es ++ [elt]) →
  applied false d es mk elt (map_assign es mk elt).
Proof.
  intros [Hs Hts Hc Hl] Hmk Hnew Hchain. split; [split| | | |].
  - by apply sorted_map_assign.
  - intros e [->|[? _]]%elem_of_map_assign; [done| |done]. by apply Hts.
  - intros k. destruct (decide (k = mk_key mk)) as [->|Hk];
      [by rewrite msgs_assign_same|by rewrite msgs_assign_other].
  - done.
  - intros k Hk. by rewrite msgs_assign_other.
  - intros o _. rewrite msgs_assign_same, run_app by done. done.
  - intros e [->|[? _]]%elem_of_map_assign; auto.
  - by apply length_map_assign.
Qed.

(** The entry the [UPDATE] case looks at. *)
Definition update_iter es k : option (MessageKey K * Message V) :=
  let '(before, from) := upper_bound es (range_end k) in
  match last before with Some e => Some e | None => head from end.

Lemma update_iter_spec es k :
  sorted es → (∀ e, e ∈ es → (0 < ets e <= UINT64_MAX)%Z) →
  (msgs k es = [] ∧ (∀ e, update_iter es k = Some e → ekey e ≠ k)) ∨
  (∃ e, update_iter es k = Some e ∧ ekey e = k ∧ last (msgs k es) = Some e.2).
Proof.
  intros Hs Hts. unfold update_iter.
  assert ((upper_bound es (range_end k)).1 =
          List.filter (λ e, klt (ekey e) k) es ++ for_key k es) as Hbefore.
  { rewrite upper_bound_filter by done. unfold for_key. cbn [fst].
    rewrite sorted_filter_app; [|done|].
    - apply lfilter_ext. intros e He. specialize (Hts e He). unfold ekey, ets in *.
      destruct e as [[k' ts] m]; cbn in *. unfold mkey_lt; cbn.
      replace (UINT64_MAX <? ts)%Z with false by (symmetry; apply Z.ltb_ge; lia).
      rewrite andb_false_r, orb_false_r. by kcases k' k.
    - intros x y _ _ Hx Hy. apply keq_eq in Hy. apply mkey_lt_spec. left.
      unfold ekey in *. by rewrite Hy. }
  pose proof (upper_bound_app es (range_end k)) as Happ.
  destruct (upper_bound es (range_end k)) as [before from]. cbn in Hbefore, Happ.
  destruct (for_key k es) as [|e0 l] eqn:Ek using rev_ind.
  - left. unfold msgs. rewrite Ek. split; [done|]. intros e He.
    assert (e ∈ es) as Hin.
    { rewrite Happ. apply elem_of_app. destruct (last before) eqn:El.
      - left. injection He as <-. by apply last_Some_elem_of.
      - right. by apply head_Some_elem_of. }
    apply (msgs_nil_inv k es); [|done]. unfold msgs. by rewrite Ek.
  - clear IHl. right. exists e0. rewrite Hbefore, app_assoc, last_snoc.
    assert (e0 ∈ for_key k es) as [_ ?]%elem_of_for_key by (rewrite Ek; apply elem_of_app; right; by apply list_elem_of_singleton).
    split_and!; [done..|]. unfold msgs. rewrite Ek, fmap_app. apply last_snoc.
Qed.

Lemma leaf_chain_inv (ms : list (Message V)) : leaf_chain ms → ms = [] ∨ ∃ v, ms = [MkMessage INSERT v].
Proof. destruct ms as [|[o v] [|]]; cbn; [auto| |done]. intros ->. right. by exists v. Qed.

Lemma apply_insert_spec n mk elt d :
  buf_ok (is_leaf n) (elements n) → (0 < mk_timestamp mk <= UINT64_MAX)%Z →
  opcode elt = INSERT →
  applied (is_leaf n) d (elements n) mk elt (elements (apply_insert n mk elt)).
Proof.
  intros Hb Hts Hop. cbn. apply replace_chain; auto; [by left|].
  intros o _. unfold step. by rewrite Hop.
Qed.

Lemma apply_delete_spec n mk elt d :
  buf_ok (is_leaf n) (elements n) → (0 < mk_timestamp mk <= UINT64_MAX)%Z →
  opcode elt = DELETE →
  applied (is_leaf n) d (elements n) mk elt (elements (apply_delete n mk elt)).
Proof.
  intros Hb Hts Hop. cbn.
  assert (∀ o, step d o elt = None) as Hstep by (intros; unfold step; by rewrite Hop).
  destruct (is_leaf n) eqn:El.
  - destruct Hb as [Hs Ht Hc Hl]. rewrite erase_range_filter by done.
    split; [split| | | |].
    + by apply sorted_filter.
    + intros e [? _]%elem_of_lfilter. auto.
    + intros k. destruct (decide (k = mk_key mk)) as [->|Hk];
        [by rewrite msgs_erase_same|by rewrite msgs_erase_other].
    + intros k _. destruct (decide (k = mk_key mk)) as [->|Hk];
        [by rewrite msgs_erase_same|rewrite msgs_erase_other by done; auto].
    + intros k Hk. by apply msgs_erase_other.
    + intros o Ho. rewrite msgs_erase_same, Hstep. cbn. auto.
    + intros e [? _]%elem_of_lfilter. auto.
    + etransitivity; [apply length_lfilter_le|]. lia.
  - apply replace_chain; [done..| |done|].
    + right; left. done.
    + intros o _. by rewrite !Hstep.
Qed.

(** A chain whose last message is an [INSERT] is that message alone. *)
Lemma chain_last_insert ms m : chain ms → last ms = Some m → opcode m = INSERT → ms = [m].
Proof.
  destruct ms as [|m0 ms]; [done|]. intros (Hv & Hu & _) Hl Hop.
  destruct ms as [|m1 ms' _] using rev_ind; [by injection Hl as ->|].
  rewrite app_comm_cons, last_snoc in Hl. injection Hl as Hl. subst.
  apply Forall_app in Hu as [_ Hu]. rewrite Forall_singleton, Hop in Hu. done.
Qed.

Lemma chain_snoc ms m elt :
  chain ms → last ms = Some m → opcode m ≠ INSERT → opcode elt = UPDATE → chain (ms ++ [elt]).
Proof.
  destruct ms as [|m0 ms]; [done|]. intros (Hv & Hu & Hi) Hl Hop He. cbn. split_and!; [done| |].
  - apply Forall_app. split; [done|]. by apply Forall_singleton.
  - intros Hins. rewrite (Hi Hins) in Hl. injection Hl as ->. done.
Qed.

Lemma apply_update_spec n mk elt d :
  buf_ok (is_leaf n) (elements n) → (0 < mk_timestamp mk <= UINT64_MAX)%Z →
  (∀ e, e ∈ elements n → ekey e = mk_key mk → (ets e < mk_timestamp mk)%Z) →
  opcode elt = UPDATE →
  applied (is_leaf n) d (elements n) mk elt (elements (apply_update n mk elt d)).
Proof.
  intros Hb Hts Hnew Hop. pose proof Hb as [Hs Ht Hc Hl].
  assert (∀ o, step d o elt = Some (vadd (default d o) (val elt))) as Hstep
    by (intros; unfold step; by rewrite Hop).
  assert (buf_ok false (elements n)) as Hb' by (destruct Hb; split; done).
  assert (msgs (mk_key mk) (elements n) = [] →
    applied (is_leaf n) d (elements n) mk elt (elements
      (if is_leaf n then apply_insert n mk (MkMessage INSERT (vadd d (val elt)))
       else set_elements n (map_assign (elements n) mk elt)))) as Hfresh.
  { intros Hnil. destruct (is_leaf n) eqn:El; cbn.
    - apply replace_chain; [done..|by left|done|].
      intros o Ho. rewrite Hnil, Hstep. cbn. by rewrite Ho.
    - apply append_chain; [done..|]. rewrite Hnil. cbn. split_and!; [by right; right|done|].
      rewrite Hop. done. }
  unfold apply_update, mkey_range_end.
  pose proof (update_iter_spec (elements n) (mk_key mk) Hs Ht) as Hiter.
  unfold update_iter in Hiter.
  destruct (upper_bound (elements n) (range_end (mk_key mk))) as [before from].
  destruct Hiter as [[Hnil Hno]|(e & -> & Hkey & Hlast)].
  - destruct (match last before with Some e => Some e | None => head from end) as [[mk' m]|];
      [|by apply Hfresh].
    assert (keq (mk_key mk') (mk_key mk) = false) as ->
      by (apply keq_ne; by apply (Hno (mk', m))). by apply Hfresh.
  - destruct e as [mk' m]. cbn in Hlast. unfold ekey in Hkey; cbn in Hkey.
    rewrite Hkey, keq_refl. cbn [negb].
    destruct (Z.eqb_spec (opcode m) INSERT) as [Hins|Hins].
    + pose proof (chain_last_insert _ _ (Hc _) Hlast Hins) as Hm.
      apply replace_chain; [done..|by left|done|].
      intros o _. rewrite Hm, Hstep. cbn. unfold step. by rewrite Hins.
    + destruct (is_leaf n) eqn:El.
      { specialize (Hl (mk_key mk) eq_refl). apply leaf_chain_inv in Hl as [Hm|[v Hm]];
          rewrite Hm in Hlast; [done|]. injection Hlast as <-. done. }
      apply append_chain; [done..|]. by eapply chain_snoc.
Qed.

Lemma apply_spec n mk elt d :
  buf_ok (is_leaf n) (elements n) → (0 < mk_timestamp mk <= UINT64_MAX)%Z → valid_op elt →
  (∀ e, e ∈ elements n → ekey e = mk_key mk → (ets e < mk_timestamp mk)%Z) →
  ∃ n', apply n mk elt d = Some n' ∧ pivots n' = pivots n ∧
        applied (is_leaf n) d (elements n) mk elt (elements n').
Proof.
  intros Hb Hts Hop Hnew. unfold apply. destruct Hop as [Hop|[Hop|Hop]]; rewrite Hop; cbn.
  - eexists. split_and!; [done..|]. by apply apply_insert_spec.
  - eexists. split_and!; [done..|]. by apply apply_delete_spec.
  - eexists. split_and!; [done| |by apply apply_update_spec].
    unfold apply_update, mkey_range_end. destruct (upper_bound _ _) as [before from].
    by repeat case_match.
Qed.

(** ** Batches *)

(** A batch on its way down: sorted, valid, and newer than what it meets. *)
Record batch_ok es : Prop := {
  batch_sorted : sorted es;
  batch_ts e : e ∈ es → (0 < ets e <= UINT64_MAX)%Z;
  batch_op e : e ∈ es → valid_op e.2;
}.

Lemma chain_valid ms m : chain ms → m ∈ ms → valid_op m.
Proof.
  destruct ms as [|m0 ms]; intros Hc Hm; [by apply elem_of_nil in Hm|]. destruct Hc as (Hv & Hu & _).
  apply elem_of_cons in Hm as [->|Hm]; [done|]. rewrite Forall_forall in Hu. right; right. by apply Hu.
Qed.

(** A part of a buffer can travel on. *)
Lemma buf_batch leaf es f : buf_ok leaf es → batch_ok (List.filter f es).
Proof.
  intros [Hs Hts Hc _]. split.
  - by apply sorted_filter.
  - intros e [He _]%elem_of_lfilter. auto.
  - intros e [He _]%elem_of_lfilter. apply (chain_valid (msgs (ekey e) es)); [done|].
    unfold msgs. apply list_elem_of_fmap. exists e. split; [done|]. by apply elem_of_for_key.
Qed.

Definition newer (old new : message_map K V) : Prop :=
  ∀ e e', e ∈ old → e' ∈ new → ekey e = ekey e' → (ets e < ets e')%Z.

Record applied_all (leaf : bool) (d : V) es elts es' : Prop := {
  aa_buf : buf_ok leaf es';
  aa_run k o : (leaf = true → o = None) →
    run d (msgs k es') o = run d (msgs k elts) (run d (msgs k es) o);
  aa_from e : e ∈ es' → e ∈ es ∨ ∃ e', e' ∈ elts ∧ e'.1 = e.1;
  aa_len : length es' ≤ length es + length elts;
}.

Lemma apply_all_spec n elts d :
  buf_ok (is_leaf n) (elements n) → batch_ok elts → newer (elements n) elts →
  ∃ n', apply_all n elts d = Some n' ∧ pivots n' = pivots n ∧
        applied_all (is_leaf n) d (elements n) elts (elements n').
Proof.
  revert n. induction elts as [|[mk m] elts IH]; intros n Hb [Hs Hts Hop] Hnew.
  - exists n. split_and!; [done..|]. split; [done|done|auto|cbn; lia].
  - apply sorted_cons in Hs as [Hhd Hs]. cbn.
    destruct (apply_spec n mk m d) as (n1 & -> & Hp & Ha).
    { done. } { apply (Hts (mk, m)), elem_of_cons; auto. } { apply (Hop (mk, m)), elem_of_cons; auto. }
    { intros e He Hk. apply (Hnew e (mk, m)); [done|apply elem_of_cons; auto|done]. }
    assert (is_leaf n1 = is_leaf n) as Hleaf by (unfold is_leaf; by rewrite Hp).
    destruct (IH n1) as (n' & Happ & Hp' & [Hb' Hr' Hf' Hl']).
    { rewrite Hleaf. apply Ha. }
    { split; [done|intros; apply Hts, elem_of_cons; auto|intros; apply Hop, elem_of_cons; auto]. }
    { intros e e' He He' Hk. apply (ap_from _ _ _ _ _ _ Ha) in He as [He|He].
      - specialize (Hhd e' He'). apply mkey_lt_spec in Hhd. unfold ekey, ets in *. rewrite He in *.
        cbn in Hhd. destruct Hhd as [Hhd|[_ ?]]; [|done]. rewrite Hk, klt_irrefl in Hhd. done.
      - apply Hnew; [done|apply elem_of_cons; auto|done]. }
    exists n'. split_and!; [done|congruence|]. rewrite Hleaf in *. split; [done| | |].
    + intros k o Ho. rewrite Hr' by done.
      change ((mk, m) :: elts) with ([(mk, m)] ++ elts). rewrite msgs_app, run_app. f_equal.
      destruct (decide (k = mk_key mk)) as [->|Hk].
      * rewrite (ap_run _ _ _ _ _ _ Ha) by done. unfold msgs at 2, for_key. cbn.
        unfold ekey; cbn. by rewrite keq_refl.
      * rewrite (ap_other _ _ _ _ _ _ Ha) by done. rewrite (msgs_nil k [(mk, m)]); [done|].
        intros e ->%list_elem_of_singleton. auto.
    + intros e [He|(e' & He' & Heq)]%Hf'.
      * apply (ap_from _ _ _ _ _ _ Ha) in He as [He|He]; [|auto].
        right. exists (mk, m). split; [apply elem_of_cons; auto|done].
      * right. exists e'. split; [apply elem_of_cons; auto|done].
    + pose proof (ap_len _ _ _ _ _ _ Ha). cbn. lia.
Qed.
End semantics.
