(* ===== verification/Tree.v ===== *)
(** * The tree behind the pointers

    [tree] is the mathematical tree a root pointer denotes: ids, buffers and
    children.  [rep h t] says the store holds it, [wf t] is the invariant of the
    data structure, [entries t] its messages (children before their parent), and
    [lookup d t k] the value a key has in it. *)
From Stdlib Require Import ZArith Lia.
From stdpp Require Import prelude gmap.
From S2P Require Import Prelude StdMap Message MessageSem.

Section tree.
Context {K V : Type} `{KeyOrder K} `{ValueOps V}.

Inductive tree := Tree (i : N) (es : message_map K V) (ch : list (K * (Z * tree))).

Definition forest := list (K * (Z * tree)).

Lemma tree_ind' (P : tree → Prop) :
  (∀ i es ch, (∀ x : K * (Z * tree), x ∈ ch → P x.2.2) → P (Tree i es ch)) → ∀ t, P t.
Proof.
  intros HP. fix IH 1. intros [i es ch]. apply HP.
  induction ch as [|x ch IHch].
  - intros x Hx. clear IH. by apply not_elem_of_nil in Hx.
  - intros y Hy. destruct x as [k [sz t]]. pose proof (IH t) as Ht. clear IH.
    apply elem_of_cons in Hy as [->|Hy]; [exact Ht|by apply IHch].
Qed.

Definition tid (t : tree) : N := let 'Tree i _ _ := t in i.
Definition tes (t : tree) : message_map K V := let 'Tree _ es _ := t in es.
Definition tch (t : tree) : forest := let 'Tree _ _ ch := t in ch.

(** The pivots that point to a forest, and the node of a tree. *)
Definition pivot_of (x : K * (Z * tree)) : K * child_info := (x.1, MkChildInfo (tid x.2.2) x.2.1).
Definition fpivots (ch : forest) : pivot_map K := pivot_of <$> ch.
Definition tnode (t : tree) : node K V := MkNode (fpivots (tch t)) (tes t).

Fixpoint nodes (t : tree) : list (N * node K V) :=
  match t with
  | Tree i es ch => (i, MkNode (fpivots ch) es) :: flat_map (λ x : K * (Z * tree), nodes x.2.2) ch
  end.
Definition fnodes (ch : forest) : list (N * node K V) := flat_map (λ x : K * (Z * tree), nodes x.2.2) ch.
Definition ids (t : tree) : list N := (nodes t).*1.
Definition fids (ch : forest) : list N := (fnodes ch).*1.

Fixpoint entries (t : tree) : message_map K V :=
  match t with
  | Tree _ es ch => flat_map (λ x : K * (Z * tree), entries x.2.2) ch ++ es
  end.
Definition fentries (ch : forest) : message_map K V := flat_map (λ x : K * (Z * tree), entries x.2.2) ch.

(** Every key that occurs in a tree, in a message or as a pivot. *)
Fixpoint tkeys (t : tree) : list K :=
  match t with
  | Tree _ es ch => flat_map (λ x : K * (Z * tree), x.1 :: tkeys x.2.2) ch ++ (ekey <$> es)
  end.
Definition fkeys (ch : forest) : list K := flat_map (λ x : K * (Z * tree), x.1 :: tkeys x.2.2) ch.

Fixpoint height (t : tree) : nat :=
  match t with
  | Tree _ _ ch => S (foldr (λ (x : K * (Z * tree)) m, Nat.max (height x.2.2) m) 0 ch)
  end.
Definition fheight (ch : forest) : nat := foldr (λ (x : K * (Z * tree)) m, Nat.max (height x.2.2) m) 0 ch.

Fixpoint leaves (t : tree) : nat :=
  match t with
  | Tree _ _ [] => 1
  | Tree _ _ ch => foldr (λ (x : K * (Z * tree)) m, leaves x.2.2 + m) 0 ch
  end.
Definition fleaves (ch : forest) : nat := foldr (λ (x : K * (Z * tree)) m, leaves x.2.2 + m) 0 ch.

(** The value of a key. *)
Definition lookup (d : V) (t : tree) (k : K) : option V := run d (msgs k (entries t)) None.

Definition no_children (ch : forest) : bool := match ch with [] => true | _ => false end.

(** The children of a node: sorted pivots, and each subtree within its pivot's range. *)
Record forest_ok (ch : forest) : Prop := {
  fo_sorted : sorted ch;
  fo_lo x k : x ∈ ch → k ∈ tkeys x.2.2 → klt k x.1 = false;
  fo_hi x y k : x ∈ ch → y ∈ ch → klt x.1 y.1 = true → k ∈ tkeys x.2.2 → klt k y.1 = true;
}.

(** Every buffered message of an inner node has a pivot to go to. *)
Definition covered (es : message_map K V) (ch : forest) : Prop :=
  ch = [] ∨ ∀ e, e ∈ es → ∃ x, x ∈ ch ∧ klt (ekey e) x.1 = false.

Inductive wf : tree → Prop :=
  | wf_intro i es ch :
      buf_ok (no_children ch) es → forest_ok ch → covered es ch → newer (fentries ch) es →
      (∀ x : K * (Z * tree), x ∈ ch → wf x.2.2) → wf (Tree i es ch).

(** The store holds the tree. *)
Definition rep (h : gmap N (node K V)) (t : tree) : Prop := ∀ i n, (i, n) ∈ nodes t → h !! i = Some n.
Definition frep (h : gmap N (node K V)) (ch : forest) : Prop := ∀ i n, (i, n) ∈ fnodes ch → h !! i = Some n.

(** [k] goes to the child of pivot [p]. *)
Definition routes (ch : forest) (p k : K) : Prop :=
  klt k p = false ∧ ∀ x, x ∈ ch → klt p x.1 = true → klt k x.1 = true.

(** No message waits in a buffer for a child that is dirty. *)
Inductive drained (dirty : N → Prop) : tree → Prop :=
  | drained_intro i es ch :
      (∀ x : K * (Z * tree), x ∈ ch → dirty (tid x.2.2) → ∀ e, e ∈ es → ¬ routes ch x.1 (ekey e)) →
      (∀ x : K * (Z * tree), x ∈ ch → drained dirty x.2.2) →
      drained dirty (Tree i es ch).
End tree.
Arguments tree K V : clear implicits.
Arguments forest K V : clear implicits.

Section tree_lemmas.
Context {K V : Type} `{KeyOrder K} `{ValueOps V}.
Implicit Types (t : tree K V) (ch : forest K V) (es : message_map K V) (k p : K)
  (h : gmap N (node K V)) (x y : K * (Z * tree K V)).

Lemma nodes_unfold t : nodes t = (tid t, tnode t) :: fnodes (tch t).
Proof. by destruct t. Qed.

Lemma ids_unfold t : ids t = tid t :: fids (tch t).
Proof. unfold ids. by rewrite nodes_unfold. Qed.

Lemma entries_unfold t : entries t = fentries (tch t) ++ tes t.
Proof. by destruct t. Qed.

Lemma tkeys_unfold t : tkeys t = fkeys (tch t) ++ (ekey <$> tes t).
Proof. by destruct t. Qed.

Lemma height_unfold t : height t = S (fheight (tch t)).
Proof. by destruct t. Qed.

Lemma wf_inv t : wf t →
  buf_ok (no_children (tch t)) (tes t) ∧ forest_ok (tch t) ∧ covered (tes t) (tch t) ∧
  newer (fentries (tch t)) (tes t) ∧ (∀ x, x ∈ tch t → wf x.2.2).
Proof. by destruct 1. Qed.

Lemma elem_of_flat_map {A B} (f : A → list B) l b : b ∈ flat_map f l ↔ ∃ a, a ∈ l ∧ b ∈ f a.
Proof. rewrite list_elem_of_In, in_flat_map. by setoid_rewrite list_elem_of_In. Qed.

Lemma fnodes_app ch ch' : fnodes (ch ++ ch') = fnodes ch ++ fnodes ch'.
Proof. apply flat_map_app. Qed.
Lemma fids_app ch ch' : fids (ch ++ ch') = fids ch ++ fids ch'.
Proof. unfold fids. by rewrite fnodes_app, fmap_app. Qed.
Lemma fids_cons x ch : fids (x :: ch) = ids x.2.2 ++ fids ch.
Proof. unfold fids, fnodes. cbn. by rewrite fmap_app. Qed.
Lemma fentries_app ch ch' : fentries (ch ++ ch') = fentries ch ++ fentries ch'.
Proof. apply flat_map_app. Qed.
Lemma fentries_cons x ch : fentries (x :: ch) = entries x.2.2 ++ fentries ch.
Proof. done. Qed.
Lemma fkeys_app ch ch' : fkeys (ch ++ ch') = fkeys ch ++ fkeys ch'.
Proof. apply flat_map_app. Qed.
Lemma fheight_app ch ch' : fheight (ch ++ ch') = Nat.max (fheight ch) (fheight ch').
Proof. induction ch as [|x ch IH]; cbn; [done|]. unfold fheight in *. rewrite IH. lia. Qed.
Lemma fleaves_app ch ch' : fleaves (ch ++ ch') = fleaves ch + fleaves ch'.
Proof. induction ch as [|x ch IH]; cbn; [done|]. unfold fleaves in *. rewrite IH. lia. Qed.
Lemma fpivots_app ch ch' : fpivots (ch ++ ch') = fpivots ch ++ fpivots ch'.
Proof. apply fmap_app. Qed.

Lemma length_fpivots ch : length (fpivots ch) = length ch.
Proof. apply length_fmap. Qed.

Lemma elem_of_fentries ch e : e ∈ fentries ch ↔ ∃ x, x ∈ ch ∧ e ∈ entries x.2.2.
Proof. apply elem_of_flat_map. Qed.
Lemma elem_of_fkeys ch k : k ∈ fkeys ch ↔ ∃ x, x ∈ ch ∧ (k = x.1 ∨ k ∈ tkeys x.2.2).
Proof. unfold fkeys. rewrite elem_of_flat_map. by setoid_rewrite elem_of_cons. Qed.
Lemma elem_of_fids ch i : i ∈ fids ch ↔ ∃ x, x ∈ ch ∧ i ∈ ids x.2.2.
Proof.
  unfold fids, ids, fnodes. rewrite list_elem_of_fmap. setoid_rewrite elem_of_flat_map.
  setoid_rewrite list_elem_of_fmap. naive_solver.
Qed.

Lemma tid_in_ids t : tid t ∈ ids t.
Proof. rewrite ids_unfold. apply elem_of_cons. auto. Qed.

(** Every message key of a tree is one of its keys. *)
Lemma entries_tkeys t e : e ∈ entries t → ekey e ∈ tkeys t.
Proof.
  induction t as [i es ch IH] using tree_ind'. rewrite entries_unfold, tkeys_unfold. cbn [tch tes].
  rewrite !elem_of_app, elem_of_fentries, elem_of_fkeys.
  intros [(x & Hx & He)|He].
  - left. exists x. split; [done|]. right. by apply IH.
  - right. apply list_elem_of_fmap. eauto.
Qed.

Lemma fentries_fkeys ch e : e ∈ fentries ch → ekey e ∈ fkeys ch.
Proof.
  rewrite elem_of_fentries, elem_of_fkeys. intros (x & ? & ?%entries_tkeys). eauto.
Qed.

(** *** Representation *)
Lemma rep_unfold h t : rep h t ↔ h !! tid t = Some (tnode t) ∧ frep h (tch t).
Proof.
  unfold rep, frep. rewrite nodes_unfold. setoid_rewrite elem_of_cons. split.
  - intros Hr. split; [apply Hr; auto|]. intros i n Hin. apply Hr. auto.
  - intros [Hi Hr] i n [[= -> ->]|Hin]; auto.
Qed.

Lemma frep_elem h ch : frep h ch ↔ ∀ x, x ∈ ch → rep h x.2.2.
Proof.
  unfold frep, rep, fnodes. setoid_rewrite elem_of_flat_map. naive_solver.
Qed.

Lemma rep_frame h h' t : rep h t → (∀ i, i ∈ ids t → h' !! i = h !! i) → rep h' t.
Proof.
  intros Hr Hi i n Hin. rewrite Hi; [by apply Hr|]. unfold ids. apply list_elem_of_fmap. by exists (i, n).
Qed.

Lemma frep_frame h h' ch : frep h ch → (∀ i, i ∈ fids ch → h' !! i = h !! i) → frep h' ch.
Proof.
  rewrite !frep_elem. intros Hr Hi x Hx. eapply rep_frame; [by apply Hr|].
  intros i Hin. apply Hi, elem_of_fids. eauto.
Qed.

Lemma rep_dom h t i : rep h t → i ∈ ids t → is_Some (h !! i).
Proof.
  intros Hr Hi. unfold ids in Hi. apply list_elem_of_fmap in Hi as ([j n] & -> & Hin).
  exists n. by apply Hr.
Qed.

Lemma frep_dom h ch i : frep h ch → i ∈ fids ch → is_Some (h !! i).
Proof. rewrite frep_elem, elem_of_fids. intros Hr (x & Hx & Hi). eapply rep_dom; eauto. Qed.

(** *** Heights, leaves, drained trees *)
Lemma fheight_elem ch x : x ∈ ch → height x.2.2 ≤ fheight ch.
Proof.
  induction ch as [|y ch IH]; intros Hx; [by apply elem_of_nil in Hx|].
  apply elem_of_cons in Hx as [->|Hx]; cbn; [lia|]. specialize (IH Hx). unfold fheight in IH. lia.
Qed.

Lemma fheight_le ch m : (∀ x, x ∈ ch → height x.2.2 ≤ m) → fheight ch ≤ m.
Proof.
  induction ch as [|y ch IH]; intros Hx; cbn; [lia|]. unfold fheight in IH.
  apply Nat.max_lub; [apply Hx, elem_of_cons; auto|apply IH]. intros x ?. apply Hx, elem_of_cons; auto.
Qed.

Lemma leaves_unfold t : leaves t = match tch t with [] => 1 | ch => fleaves ch end.
Proof. by destruct t as [? ? []]. Qed.

Lemma leaves_pos t : 1 ≤ leaves t.
Proof.
  induction t as [i es ch IH] using tree_ind'. destruct ch as [|x ch]; cbn; [done|].
  specialize (IH x). rewrite elem_of_cons in IH. cbn in IH. pose proof (IH (or_introl eq_refl)). lia.
Qed.

Lemma fleaves_length ch : length ch ≤ fleaves ch.
Proof. induction ch as [|x ch IH]; cbn; [done|]. pose proof (leaves_pos x.2.2). unfold fleaves in IH. lia. Qed.

Lemma drained_frame (D D' : N → Prop) t : drained D t → (∀ i, i ∈ ids t → D' i → D i) → drained D' t.
Proof.
  induction t as [i es ch IH] using tree_ind'. inversion 1 as [? ? ? Hd Hch]; subst. intros HD.
  rewrite ids_unfold in HD. cbn [tid tch] in HD.
  assert (∀ x j, x ∈ ch → j ∈ ids x.2.2 → D' j → D j) as HD'.
  { intros x j Hx Hj. apply HD, elem_of_cons. right. apply elem_of_fids. eauto. }
  constructor.
  - intros x Hx Hdx. apply Hd; [done|]. eapply HD'; [done|apply tid_in_ids|done].
  - intros x Hx. apply IH; [done|by apply Hch|eauto].
Qed.

(** The mark of the root does not matter. *)
Lemma drained_below (D D' : N → Prop) t :
  drained D t → (∀ i, i ∈ fids (tch t) → D' i → D i) → drained D' t.
Proof.
  destruct t as [i es ch]. inversion 1 as [? ? ? Hd Hch]; subst. cbn [tch]. intros HD.
  assert (∀ x j, x ∈ ch → j ∈ ids x.2.2 → D' j → D j) as HD'.
  { intros x j Hx Hj. apply HD, elem_of_fids. eauto. }
  constructor; intros x Hx; [intros Hdx|].
  - apply Hd; [done|]. eapply HD'; [done|apply tid_in_ids|done].
  - eapply drained_frame; [by apply Hch|eauto].
Qed.

(** *** Routing *)
Lemma sorted_fpivots ch : sorted (fpivots ch) ↔ sorted ch.
Proof.
  induction ch as [|x ch IH]; [split; intros; apply sorted_nil|]. unfold fpivots in *. cbn.
  rewrite !sorted_cons, IH. setoid_rewrite list_elem_of_fmap.
  split; intros [Hlt ?]; (split; [|done]).
  - intros y Hy. apply (Hlt (pivot_of y)). eauto.
  - intros y (z & -> & Hz). by apply Hlt.
Qed.

Lemma sorted_key_unique ch x y : sorted ch → x ∈ ch → y ∈ ch → x.1 = y.1 → x = y.
Proof.
  intros Hs Hx Hy Heq. destruct x as [k v], y as [k' v']. cbn in Heq. subst k'.
  by rewrite (sorted_key_inj ch k v v').
Qed.

Lemma routes_other ch x y k :
  forest_ok ch → x ∈ ch → y ∈ ch → routes ch x.1 k → k ∈ tkeys y.2.2 → x = y.
Proof.
  intros [Hs Hlo Hhi] Hx Hy [Hk1 Hk2] Hk.
  destruct (klt_cases x.1 y.1) as [(Hlt&_)|[(?&_)|(Hlt&_)]].
  - pose proof (Hk2 y Hy Hlt). pose proof (Hlo y k Hy Hk). congruence.
  - by eapply sorted_key_unique.
  - pose proof (Hhi y x k Hy Hx Hlt Hk). congruence.
Qed.

(** A key in a subtree's keys routes to it. *)
Lemma tkeys_routes ch x k : forest_ok ch → x ∈ ch → k ∈ tkeys x.2.2 → routes ch x.1 k.
Proof.
  intros [Hs Hlo Hhi] Hx Hk. split; [by apply Hlo|]. intros y Hy Hlt. by apply (Hhi x y k).
Qed.

Lemma routes_unique ch x y k :
  sorted ch → x ∈ ch → y ∈ ch → routes ch x.1 k → routes ch y.1 k → x = y.
Proof.
  intros Hs Hx Hy [Hk1 Hk2] [Hk3 Hk4]. destruct (klt_cases x.1 y.1) as [(Hlt&_)|[(?&_)|(Hlt&_)]].
  - pose proof (Hk2 y Hy Hlt). congruence.
  - by eapply sorted_key_unique.
  - pose proof (Hk4 x Hx Hlt). congruence.
Qed.

(** A key at or above some pivot has a child to go to. *)
Lemma routes_exists ch k :
  sorted ch → (∃ x, x ∈ ch ∧ klt k x.1 = false) → ∃ x, x ∈ ch ∧ routes ch x.1 k.
Proof.
  induction ch as [|x ch IH]; intros Hs (y & Hy & Hk); [by apply elem_of_nil in Hy|].
  apply sorted_cons in Hs as [Hx Hs].
  destruct (decide (Exists (λ z : K * (Z * tree K V), klt k z.1 = false) ch)) as [Hex|Hno].
  - apply Exists_exists in Hex as (z & Hz). destruct IH as (w & Hw & Hr1 & Hr2); [done|eauto|].
    exists w. split; [apply elem_of_cons; auto|]. split; [done|].
    intros v [->|Hv]%elem_of_cons Hlt; [|auto].
    rewrite (klt_asym x.1 w.1) in Hlt; [done|by apply Hx].
  - exists x. split; [apply elem_of_cons; auto|]. split.
    + apply elem_of_cons in Hy as [->|Hy]; [done|]. destruct Hno. apply Exists_exists. eauto.
    + intros v [->|Hv]%elem_of_cons Hlt; [by rewrite klt_irrefl in Hlt|].
      destruct (klt k v.1) eqn:Hv'; [done|]. destruct Hno. apply Exists_exists. eauto.
Qed.

Lemma routes_dec ch k :
  sorted ch → (∃ x, x ∈ ch ∧ routes ch x.1 k) ∨ (∀ x, x ∈ ch → ¬ routes ch x.1 k).
Proof.
  intros Hs. destruct (decide (Exists (λ z : K * (Z * tree K V), klt k z.1 = false) ch)) as [Hex|Hno].
  - left. apply routes_exists; [done|]. by apply Exists_exists in Hex.
  - right. intros x Hx [Hk _]. apply Hno, Exists_exists. eauto.
Qed.

(** The messages for a key in a forest are those of the child it routes to. *)
Lemma for_key_routes ch x k :
  forest_ok ch → x ∈ ch → routes ch x.1 k → for_key k (fentries ch) = for_key k (entries x.2.2).
Proof.
  intros Hok Hx Hr. apply list_elem_of_split in Hx as (pre & post & ->).
  rewrite fentries_app, fentries_cons, !for_key_app.
  assert (∀ y, y ∈ pre ++ x :: post → y ≠ x → for_key k (entries y.2.2) = []) as Hnil.
  { intros y Hy Hne. apply for_key_nil. intros e He%entries_tkeys <-. apply Hne. symmetry.
    eapply routes_other; [done| |done|done|done]. apply elem_of_app; right; apply elem_of_cons; auto. }
  pose proof (fo_sorted _ Hok) as Hs. apply sorted_app in Hs as (Hs1 & Hs2 & Hs3).
  apply sorted_cons in Hs2 as [Hs2 _].
  assert (∀ l, (∀ y, y ∈ l → y ∈ pre ++ x :: post ∧ y ≠ x) → for_key k (fentries l) = []) as Hall.
  { induction l as [|y l IH]; intros Hl; [done|]. rewrite fentries_cons, for_key_app.
    destruct (Hl y) as [? ?]; [apply elem_of_cons; auto|]. rewrite Hnil by done. cbn. apply IH.
    intros z Hz. apply Hl, elem_of_cons; auto. }
  rewrite (Hall pre), (Hall post); [by rewrite app_nil_r| |].
  - intros y Hy. split; [apply elem_of_app; right; apply elem_of_cons; auto|].
    intros ->. apply Hs2 in Hy. by rewrite klt_irrefl in Hy.
  - intros y Hy. split; [apply elem_of_app; auto|]. intros ->.
    pose proof (Hs3 x x Hy) as Hlt. rewrite klt_irrefl in Hlt.
    discriminate Hlt. apply elem_of_cons; auto.
Qed.

Lemma msgs_routes ch x k :
  forest_ok ch → x ∈ ch → routes ch x.1 k → msgs k (fentries ch) = msgs k (entries x.2.2).
Proof. intros. unfold msgs. by erewrite for_key_routes. Qed.

(** A key no child is responsible for has no messages below. *)
Lemma msgs_no_route ch k :
  forest_ok ch → (∀ x, x ∈ ch → ¬ routes ch x.1 k) → msgs k (fentries ch) = [].
Proof.
  intros Hok Hno. apply msgs_nil. intros e (x & Hx & He%entries_tkeys)%elem_of_fentries <-.
  apply (Hno x Hx). by apply tkeys_routes.
Qed.
End tree_lemmas.
