(* ===== verification/NodeLemmas.v ===== *)
(** * Positions inside one node

    [get_pivot] finds the child a key routes to, [get_element_begin] cuts the
    buffer at a key; edits of the pivot map seen on the list of children. *)
From Stdlib Require Import ZArith Lia.
From stdpp Require Import prelude gmap.
From S2P Require Import Prelude StdMap Message MessageSem Tree.

Section map_edits.
Context {K A : Type} `{KeyOrder K}.
Implicit Types (m l : list (K * A)) (k : K).

Lemma map_assign_snoc m k (a : A) :
  (∀ x, x ∈ m → klt x.1 k = true) → map_assign m k a = m ++ [(k, a)].
Proof.
  induction m as [|e m IH]; [done|]. intros Hlt. cbn.
  rewrite (Hlt e) by (apply elem_of_cons; auto). f_equal. apply IH.
  intros x Hx. apply Hlt, elem_of_cons; auto.
Qed.

Lemma map_assign_twice m k (a b : A) : sorted m → map_assign (map_assign m k a) k b = map_assign m k b.
Proof.
  intros Hs. apply sorted_ext; auto using sorted_map_assign. intros x.
  rewrite !elem_of_map_assign by auto using sorted_map_assign. naive_solver.
Qed.

Lemma map_assign_middle m l k (a : A) :
  (∀ x, x ∈ m → klt x.1 k = true) → (∀ x, x ∈ l → klt k x.1 = true) →
  map_insert (m ++ l) k a = m ++ (k, a) :: l.
Proof.
  induction m as [|e m IH]; intros Hlt Hgt; cbn.
  - destruct l as [|e l]; [done|]. cbn. assert (klt k e.1 = true) as Hk by (apply Hgt, elem_of_cons; auto).
    by rewrite (klt_asym _ _ Hk), Hk.
  - rewrite (Hlt e) by (apply elem_of_cons; auto). f_equal. apply IH; [|done].
    intros x Hx. apply Hlt, elem_of_cons; auto.
Qed.

(** Inserting a sorted block into the gap it belongs to. *)
Lemma map_insert_range_middle m b l :
  sorted (m ++ b ++ l) → map_insert_range (m ++ l) b = m ++ b ++ l.
Proof.
  revert m. induction b as [|e b IH]; intros m Hs; [done|]. cbn.
  apply sorted_app in Hs as (Hm & Hbl & Hmb). cbn in Hbl. apply sorted_cons in Hbl as [He Hbl].
  destruct e as [k a]. cbn in *. rewrite map_assign_middle.
  - change (m ++ (k, a) :: l) with (m ++ [(k, a)] ++ l). rewrite app_assoc.
    unfold map_insert_range in IH. rewrite IH; [by rewrite <- app_assoc|].
    rewrite <- app_assoc. cbn. apply sorted_app. split_and!; [done|by apply sorted_cons|done].
  - intros x Hx. apply (Hmb x (k, a)); [done|]. apply elem_of_cons; auto.
  - intros x Hx. apply He, elem_of_app. auto.
Qed.

Lemma map_erase_middle m l k (a : A) : sorted (m ++ (k, a) :: l) → map_erase (m ++ (k, a) :: l) k = m ++ l.
Proof.
  intros Hs. pose proof Hs as Hs'. apply sorted_app in Hs' as (Hm & Hl & Hml).
  apply sorted_cons in Hl as [Hl1 Hl2].
  apply sorted_ext; [by apply sorted_map_erase|..].
  - apply sorted_app. split_and!; [done|done|]. intros x y Hx Hy. apply Hml; [done|]. apply elem_of_cons; auto.
  - intros x. rewrite elem_of_map_erase, !elem_of_app, elem_of_cons by done. split.
    + intros [[?|[->|?]] Hne]; [auto|done|auto].
    + intros [Hx|Hx].
      * split; [auto|]. apply klt_ne. apply (Hml x (k, a)); [done|]. apply elem_of_cons; auto.
      * split; [auto|]. intros Heq. apply Hl1 in Hx. cbn in Hx. rewrite Heq, klt_irrefl in Hx. done.
Qed.

(** The lower bound of [k] splits a sorted map at the first key not below [k]. *)
Lemma lower_bound_split m k : sorted m →
  ∃ a b, lower_bound m k = (a, b) ∧ m = a ++ b ∧
    (∀ x, x ∈ a → klt x.1 k = true) ∧ (∀ x, x ∈ b → klt x.1 k = false).
Proof.
  intros Hs. eexists _, _. split; [by apply lower_bound_filter|].
  pose proof (lower_bound_app m k) as Happ. rewrite lower_bound_filter in Happ by done. split; [done|].
  split; intros x [_ Hx]%elem_of_lfilter; [done|by apply negb_true_iff in Hx].
Qed.
End map_edits.

Section node_lemmas.
Context {K V : Type} `{KeyOrder K} `{ValueOps V}.
Implicit Types (t : tree K V) (ch : forest K V) (es : message_map K V) (k p : K).

(** *** get_pivot *)
Lemma elem_of_fpivots ch c : c ∈ fpivots ch ↔ ∃ x, x ∈ ch ∧ c = pivot_of x.
Proof. unfold fpivots. rewrite list_elem_of_fmap. naive_solver. Qed.

(** The last entry before a bound that is above [k]. *)
Lemma last_route ca cb k (y : K * (Z * tree K V)) :
  sorted ca → (∀ x, x ∈ ca → klt x.1 k = true) → (∀ x, x ∈ cb → klt k x.1 = true) →
  y ∈ ca ++ cb → klt k y.1 = false →
  ∃ pre x, ca = pre ++ [x] ∧ routes (ca ++ cb) x.1 k ∧ last (pivot_of <$> ca) = Some (pivot_of x).
Proof.
  intros Hs1 Hca Hgt Hy Hky. destruct ca as [|x pre _] using rev_ind.
  - cbn in Hy. apply Hgt in Hy. congruence.
  - exists pre, x. split; [done|]. split; [|rewrite fmap_app; apply last_snoc].
    split; [apply klt_asym, Hca, elem_of_app; right; by apply list_elem_of_singleton|].
    intros z [Hz|Hz]%elem_of_app Hlt; [|auto].
    apply elem_of_app in Hz as [Hz| ->%list_elem_of_singleton]; [|by rewrite klt_irrefl in Hlt].
    apply sorted_app in Hs1 as (_ & _ & Hs1).
    rewrite (klt_asym _ _ (Hs1 z x Hz (proj2 (list_elem_of_singleton _ _) eq_refl))) in Hlt. done.
Qed.

(** For a key at or above the first pivot: the entry of the child it routes to. *)
Lemma get_pivot_found {S} ch k (s : S) :
  sorted ch → (∃ x, x ∈ ch ∧ klt k x.1 = false) →
  ∃ pre x post, ch = pre ++ x :: post ∧ routes ch x.1 k ∧ get_pivot (fpivots ch) k s = Ok (pivot_of x) s.
Proof.
  intros Hs (y & Hy & Hky). assert (sorted (fpivots ch)) as Hps by by apply sorted_fpivots.
  destruct (lower_bound_split (fpivots ch) k Hps) as (a & b & Hlb & Hab & Ha & Hb).
  unfold fpivots in Hab. apply fmap_app_inv in Hab as (ca & cb & -> & -> & ->).
  unfold get_pivot, bind.
  assert ((0 <? Z.of_nat (length (fpivots (ca ++ cb))))%Z = true) as ->.
  { unfold fpivots. rewrite length_fmap. apply Z.ltb_lt.
    destruct (ca ++ cb); [by apply not_elem_of_nil in Hy|cbn; lia]. }
  cbn [assert_ ret]. rewrite Hlb. clear Hlb Hps.
  assert (∀ x, x ∈ ca → klt x.1 k = true) as Hca.
  { intros x Hx. apply (Ha (pivot_of x)), elem_of_fpivots. eauto. }
  assert (∀ x, x ∈ cb → klt x.1 k = false) as Hcb.
  { intros x Hx. apply (Hb (pivot_of x)), elem_of_fpivots. eauto. }
  apply sorted_app in Hs as (Hs1 & Hs2 & Hs3).
  pose proof (λ Hgt, last_route ca cb k y Hs1 Hca Hgt Hy Hky) as Hlast.
  destruct cb as [|x cb].
  - destruct Hlast as (pre & x & -> & Hr & Hl). { intros x Hx. by apply not_elem_of_nil in Hx. }
    exists pre, x, []. split_and!; [by rewrite <- app_assoc|done|]. cbn [fmap list_fmap].
    rewrite Hl. destruct (pivot_of <$> pre ++ [x]) eqn:E; [|done].
    by destruct pre.
  - cbn [fmap list_fmap]. destruct (klt k x.1) eqn:Ekx.
    + destruct Hlast as (pre & z & -> & Hr & Hl).
      { intros z [->|Hz]%elem_of_cons; [done|]. apply sorted_cons in Hs2 as [Hs2 _].
        eapply klt_trans; [done|auto]. }
      exists pre, z, (x :: cb). split_and!; [by rewrite <- app_assoc|done|].
      rewrite Hl. destruct (pivot_of <$> pre ++ [z]) eqn:E; [by destruct pre|]. cbn. by rewrite Ekx.
    + exists ca, x, cb. split_and!; [done| |].
      * split; [done|]. intros z [Hz|Hz]%elem_of_app Hlt.
        -- rewrite (klt_asym _ _ (Hs3 z x Hz (proj2 (elem_of_cons _ _ _) (or_introl eq_refl)))) in Hlt. done.
        -- apply elem_of_cons in Hz as [->|Hz]; [by rewrite klt_irrefl in Hlt|].
           eapply kle_lt_trans; [|done]. apply Hcb, elem_of_cons; auto.
      * destruct (pivot_of <$> ca); cbn; by rewrite Ekx.
Qed.

Lemma get_pivot_below {S} ch k (s : S) :
  sorted ch → ch ≠ [] → (∀ x, x ∈ ch → klt k x.1 = true) →
  get_pivot (fpivots ch) k s = Throw out_of_range s.
Proof.
  intros Hs Hne Hlt. destruct ch as [|x ch]; [done|]. unfold get_pivot, bind.
  assert ((0 <? Z.of_nat (length (fpivots (x :: ch))))%Z = true) as -> by (apply Z.ltb_lt; cbn; lia).
  cbn. assert (klt k x.1 = true) as Hx by (apply Hlt, elem_of_cons; auto).
  rewrite (klt_asym _ _ Hx). cbn. by rewrite Hx.
Qed.

(** *** get_element_begin *)
Lemma get_element_begin_filter (n : node K V) k :
  sorted (elements n) → (∀ e, e ∈ elements n → (0 < ets e <= UINT64_MAX)%Z) →
  get_element_begin n k = List.filter (λ e, negb (klt (ekey e) k)) (elements n).
Proof.
  intros Hs Hts. unfold get_element_begin. rewrite lower_bound_filter by done. cbn [snd].
  apply lfilter_ext. intros e He. f_equal. specialize (Hts e He). unfold ekey, ets in *.
  destruct e as [[k' ts] m]; cbn in *. unfold mkey_lt; cbn.
  replace (ts <? 0)%Z with false by (symmetry; apply Z.ltb_ge; lia).
  by rewrite andb_false_r, orb_false_r.
Qed.

(** A buffer is its part below a key followed by the rest. *)
Lemma cut_at es k : sorted es →
  es = List.filter (λ e, klt (ekey e) k) es ++ List.filter (λ e, negb (klt (ekey e) k)) es.
Proof.
  intros Hs. rewrite sorted_filter_app; [|done|].
  - rewrite lfilter_all; [done|]. intros e _. by destruct (klt (ekey e) k).
  - intros x y _ _ Hx Hy%negb_true_iff. apply mkey_lt_spec. left. by eapply klt_le_trans.
Qed.
End node_lemmas.
