(* ===== verification/SplitProof.v ===== *)
(** * [node::split]

    The new nodes partition the children and the buffer of the old one, in
    order, each buffered message staying with the child it is for; nothing else
    in the store changes.  The loops terminate and, below the [int] range, no
    assertion fails. *)
From Stdlib Require Import ZArith Lia Sorted.
From stdpp Require Import prelude gmap.
From S2P Require Import Prelude StdMap Message NodeStore BeTree MessageSem Tree NodeLemmas.

#[local] Open Scope cpp_scope.

(** Callers that accept an abort or undefined behaviour of the code as an outcome. *)
Definition lenient (tol : fault → Prop) : Prop := tol assert_failed ∧ tol undefined_behaviour.

Lemma wp_check_int_or {S} tol z (s : S) (Q : Z → S → Prop) E :
  (lenient tol ∨ in_int z = true) → Q z s → wp tol (check_int z) s Q E.
Proof. intros Hz HQ. unfold check_int. destruct (in_int z) eqn:Ez; [done|]. destruct Hz as [[]|]; done. Qed.

Lemma wp_assert_or {S} tol b (s : S) (Q : unit → S → Prop) E :
  (lenient tol ∨ b = true) → (b = true → Q tt s) → wp tol (assert_ b) s Q E.
Proof. intros Hb HQ. destruct b; [by apply HQ|]. destruct Hb as [[]|]; done. Qed.

Lemma in_int_true z : (0 <= z < 2 ^ 31)%Z → in_int z = true.
Proof. intros. unfold in_int. apply andb_true_iff. split; [apply Z.leb_le|apply Z.ltb_lt]; lia. Qed.

Section split.
Context {K V : Type} `{KeyOrder K} `{ValueOps V}.
Context {St : Type} `{StoreOps St (node K V)} `{!Store St (node K V)}.
Implicit Types (s : St) (ch : forest K V) (es : message_map K V) (n : node K V).

Lemma put_element_snoc n e :
  (∀ x, x ∈ elements n → klt x.1 e.1 = true) →
  put_element e n = MkNode (pivots n) (elements n ++ [e]).
Proof.
  intros Hlt. unfold put_element, set_elements. rewrite map_assign_snoc by done. by destruct e.
Qed.

Lemma put_pivot_snoc n p :
  (∀ x, x ∈ pivots n → klt x.1 p.1 = true) →
  put_pivot p n = MkNode (pivots n ++ [p]) (elements n).
Proof.
  intros Hlt. unfold put_pivot, set_pivots. rewrite map_assign_snoc by done. by destruct p.
Qed.

(** Moving a block of messages to the end of the new node. *)
Lemma wp_move_elements tol nn te rest moved n s Q E :
  tol store_fault → st_inv s → st_view s !! nn = Some n → sorted (elements n ++ te) →
  (lenient tol ∨ (0 <= moved ∧ moved + Z.of_nat (length te) < 2 ^ 31)%Z) →
  (∀ s', st_view s' !! nn = Some (MkNode (pivots n) (elements n ++ te)) → evolves {[ nn ]} s s' →
     Q (rest, (moved + Z.of_nat (length te))%Z) s') →
  wp tol (move_elements nn (te ++ rest) rest moved) s Q E.
Proof.
  intros Htol. revert moved n s. induction te as [|e te IH]; intros moved n s Hinv Hn Hs Hint HQ.
  - assert (move_elements nn ([] ++ rest) rest moved = ret (rest, moved)) as ->
      by (destruct rest; cbn; by rewrite ?Nat.eqb_refl).
    cbn in HQ. rewrite Z.add_0_r in HQ. apply HQ; [|by apply evolves_refl].
    rewrite app_nil_r. by destruct n.
  - cbn [app move_elements].
    destruct (Nat.eqb_spec (length (e :: te ++ rest)) (length rest)) as [Hl|_].
    { cbn in Hl. rewrite length_app in Hl. lia. }
    eapply wp_bind, wp_arrow_modify; [done..|].
    intros s1 Hv1 _ Hev1. eapply wp_bind, wp_check_int_or.
    { destruct Hint as [|[? Hint]]; [by left|right]. cbn in Hint. apply in_int_true. lia. }
    rewrite put_element_snoc in Hv1.
    2:{ intros x Hx. apply sorted_app in Hs as (_ & _ & Hs). apply Hs; [done|]. apply elem_of_cons; auto. }
    eapply IH; [apply Hev1|by rewrite Hv1, lookup_insert_eq|..].
    + cbn. by rewrite <- app_assoc.
    + destruct Hint as [|[? Hint]]; [by left|right]. cbn in Hint. lia.
    + intros s' Hs' Hev'. cbn in Hs'. rewrite <- app_assoc in Hs'.
      replace (moved + 1 + Z.of_nat (length te))%Z
        with (moved + Z.of_nat (length (e :: te)))%Z by (cbn [length]; lia).
      apply HQ; [done|]. eapply evolves_trans; [done..|]. auto.
Qed.

(** ** One new node *)

(** Cursors into a node: the part still to move.  In an inner node the messages left are
    exactly those at or above the next pivot. *)
Definition aligned ch es (chr : forest K V) (esr : message_map K V) : Prop :=
  (∃ ch0, ch = ch0 ++ chr) ∧
  ∃ es0, es = es0 ++ esr ∧
    (ch ≠ [] → match chr with
               | [] => esr = []
               | c :: _ => (∀ e, e ∈ esr → klt (ekey e) c.1 = false) ∧
                           (∀ e, e ∈ es0 → klt (ekey e) c.1 = true)
               end).

Definition first_key (chr : forest K V) (esr : message_map K V) : option K :=
  match chr with c :: _ => Some c.1 | [] => ekey <$> head esr end.

Section fill.
Context (tol : fault → Prop) (Htol : tol store_fault).
Context (s0 : St) (this nn : N) (ch : forest K V) (es : message_map K V) (limit : Z).
Context (Hinv0 : st_inv s0) (Hpin0 : 0 < st_pins s0 this)
        (Hthis0 : st_view s0 !! this = Some (MkNode (fpivots ch) es)).
Context (Hch : sorted ch) (Hes : sorted es)
        (Hts : ∀ e, e ∈ es → (0 < ets e <= UINT64_MAX)%Z).

Lemma this_deref s : evolves ∅ s0 s → st_deref this s = Ok (MkNode (fpivots ch) es) s.
Proof.
  intros Hev. apply st_deref_spec; [apply Hev|by rewrite (ev_pins _ _ _ Hev)|].
  apply (ev_view _ _ _ Hev); [done|set_solver].
Qed.

(** Taking one pivot leaves the messages below the next one to go with it. *)
Lemma aligned_pivot c chr esr :
  aligned ch es (c :: chr) esr →
  ∃ te, esr = te ++ get_element_begin_it (MkNode (fpivots ch) es) (fst <$> head (fpivots chr)) ∧
        aligned ch es chr (get_element_begin_it (MkNode (fpivots ch) es) (fst <$> head (fpivots chr))).
Proof.
  intros ([ch0 Hch0] & es0 & Hes0 & Hal). destruct Hal as [Hge Hlt]; [by rewrite Hch0; destruct ch0|].
  destruct chr as [|c2 chr]; cbn.
  - exists esr. rewrite app_nil_r. split; [done|]. split; [exists (ch0 ++ [c]); by rewrite <- app_assoc|].
    exists es. rewrite app_nil_r. done.
  - rewrite get_element_begin_filter by done. cbn [elements].
    assert (klt c.1 c2.1 = true) as Hc.
    { rewrite Hch0 in Hch. apply sorted_app in Hch as (_ & Hch1 & _). apply sorted_cons in Hch1 as [Hch1 _].
      apply Hch1, elem_of_cons; auto. }
    set (f := λ e : MessageKey K * Message V, negb (klt (ekey e) c2.1)).
    assert (List.filter f es = List.filter f esr) as Hf.
    { rewrite Hes0, List.filter_app, lfilter_none; [done|]. intros e He. unfold f.
      apply negb_false_iff. eapply klt_trans; [by apply Hlt|done]. }
    assert (sorted esr) as Hsr by (rewrite Hes0 in Hes; by apply sorted_app in Hes as (_ & ? & _)).
    exists (List.filter (λ e, klt (ekey e) c2.1) esr). rewrite Hf. split; [by apply cut_at|].
    split; [exists (ch0 ++ [c]); by rewrite <- app_assoc|].
    exists (es0 ++ List.filter (λ e, klt (ekey e) c2.1) esr).
    split; [by rewrite <- app_assoc; unfold f; rewrite <- (cut_at esr c2.1 Hsr)|]. intros _. split.
    + intros e [_ He]%elem_of_lfilter. by apply negb_true_iff in He.
    + intros e [He|[_ He]%elem_of_lfilter]%elem_of_app; [|done]. eapply klt_trans; [by apply Hlt|done].
Qed.

Lemma aligned_element e esr : ch = [] → aligned ch es [] (e :: esr) → aligned ch es [] esr.
Proof.
  intros Hnil (_ & es0 & Hes0 & _). split; [by exists ch; rewrite app_nil_r|].
  exists (es0 ++ [e]). split; [by rewrite <- app_assoc|done].
Qed.

(** What filling a node from [chr] and [esr] on is to establish: it moves a prefix of each, up to the limit or the end. *)
Definition fill_post (Q : pivot_map K * message_map K V * Z → St → Prop) s cj ej moved (chr : forest K V) (esr : message_map K V) : Prop :=
  ∀ s' cj' ej' chr' esr',
    chr = cj' ++ chr' → esr = ej' ++ esr' → aligned ch es chr' esr' →
    st_view s' !! nn = Some (MkNode (fpivots (cj ++ cj')) (ej ++ ej')) → evolves {[ nn ]} s s' →
    let moved' := (moved + Z.of_nat (length cj' + length ej'))%Z in
    ((limit <= moved')%Z ∨ (chr' = [] ∧ esr' = [])) →
    ((moved < limit)%Z → (chr ≠ [] → cj' ≠ []) ∧ (chr = [] → esr ≠ [] → ej' ≠ [])) →
    ((limit <= moved)%Z → cj' = [] ∧ ej' = []) →
    Q (fpivots chr', esr', moved') s'.

Lemma fill_post_stop Q s cj ej moved chr esr :
  fill_post Q s cj ej moved chr esr → st_inv s → st_view s !! nn = Some (MkNode (fpivots cj) ej) → aligned ch es chr esr →
  (limit <= moved)%Z ∨ (chr = [] ∧ esr = []) → ((moved < limit)%Z → chr = [] ∧ esr = []) → Q (fpivots chr, esr, moved) s.
Proof.
  intros HQ Hinv Hnn Hal Hdone Hlim. specialize (HQ s [] [] chr esr). cbn in HQ. rewrite Z.add_0_r in HQ.
  apply HQ; [done..| | |done| |done].
  - by rewrite !app_nil_r.
  - by apply evolves_refl.
  - intros Hl. destruct (Hlim Hl) as [-> ->]. done.
Qed.

Lemma fill_post_element Q s s1 cj ej moved e esr :
  fill_post Q s cj ej moved [] (e :: esr) → evolves {[ nn ]} s s1 → (moved < limit)%Z →
  fill_post Q s1 cj (ej ++ [e]) (moved + 1) [] esr.
Proof.
  intros HQ Hev1 Hlim s' cj' ej' chr' esr' Hc' -> Hal' Hnn' Hev' moved' Hdone _ _.
  symmetry in Hc'. apply app_nil in Hc' as [-> ->]. rewrite <- app_assoc in Hnn'. cbn in Hnn'.
  assert (moved' = moved + Z.of_nat (length (@nil (K * (Z * tree K V))) + length (e :: ej')))%Z as Hm
    by (unfold moved'; cbn [length Nat.add]; lia).
  rewrite Hm in Hdone |- *. apply HQ; [done..| |done|done|lia]. eapply evolves_trans; [done..|]. auto.
Qed.

Lemma fill_post_pivot Q s s2 cj ej moved c chr te rest :
  fill_post Q s cj ej moved (c :: chr) (te ++ rest) → evolves {[ nn ]} s s2 → (moved < limit)%Z →
  fill_post Q s2 (cj ++ [c]) (ej ++ te) (moved + 1 + Z.of_nat (length te)) chr rest.
Proof.
  intros HQ Hev2 Hlim s' cj' ej' chr' esr' -> -> Hal' Hnn' Hev' moved' Hdone _ _. rewrite <- !app_assoc in Hnn'. cbn in Hnn'.
  assert (moved' = moved + Z.of_nat (length (c :: cj') + length (te ++ ej')))%Z as Hm.
  { unfold moved'. rewrite length_app. cbn [length]. lia. }
  rewrite Hm in Hdone |- *. apply HQ; [done|by rewrite app_assoc|done|done| |done|done|lia].
  eapply evolves_trans; [done..|]. auto.
Qed.

Definition counts (moved : Z) (chr : forest K V) (esr : message_map K V) : Prop :=
  lenient tol ∨ (0 <= moved ∧ moved + Z.of_nat (length chr + length esr) < 2 ^ 31)%Z.

Lemma wp_fill_node : ∀ fuel chr esr moved s cj ej Q E,
  evolves ∅ s0 s → st_view s0 !! nn = None → st_view s !! nn = Some (MkNode (fpivots cj) ej) →
  length chr + length esr < fuel → aligned ch es chr esr →
  sorted (cj ++ chr) → sorted (ej ++ esr) → counts moved chr esr → fill_post Q s cj ej moved chr esr →
  wp tol (fill_node fuel this nn limit (fpivots chr) esr moved) s Q E.
Proof.
  induction fuel as [|fuel IH]; intros chr esr moved s cj ej Q E Hev Hfresh Hnn Hfuel Hal Hsc Hse Hint HQ; [lia|].
  cbn [fill_node]. pose proof (fill_post_stop Q s cj ej moved chr esr HQ (ev_inv _ _ _ Hev) Hnn Hal) as Hstop.
  destruct (Z.ltb_spec moved limit) as [Hlim|Hlim]; [|apply Hstop; [auto|lia]].
  destruct chr as [|c chr]; cbn [fpivots fmap list_fmap].
  - destruct esr as [|e esr]; [apply Hstop; auto|].
    apply wp_bind. unfold wp at 1. rewrite this_deref by done.
    assert (ch = []) as Hnil.
    { destruct Hal as (_ & es0 & _ & Hal). destruct ch; [done|]. by discriminate Hal. }
    apply wp_bind, wp_assert_or; [right; by rewrite Hnil|]. intros _.
    eapply wp_bind, wp_arrow_modify; [done|apply Hev|done|]. intros s1 Hv1 _ Hev1.
    rewrite put_element_snoc in Hv1; cbn [pivots elements] in *.
    2:{ intros x Hx. apply sorted_app in Hse as (_ & _ & Hse). apply Hse; [done|]. apply elem_of_cons; auto. }
    apply wp_bind, wp_check_int_or.
    { destruct Hint as [|[? Hint]]; [by left|right]. cbn in Hint. apply in_int_true. lia. }
    eapply (IH [] esr _ s1 cj (ej ++ [e])); [|done|by rewrite Hv1, lookup_insert_eq|cbn in *; lia|by eapply aligned_element|done|by rewrite <- app_assoc| |].
    + eapply evolves_trans; [done..|]. set_solver.
    + destruct Hint as [|[? Hint]]; [by left|right]. cbn in Hint |- *. lia.
    + by eapply fill_post_element.
  - eapply wp_bind, wp_arrow_modify; [done|apply Hev|done|]. intros s1 Hv1 _ Hev1.
    rewrite put_pivot_snoc in Hv1; cbn [pivots elements] in *.
    2:{ cbn. intros x (y & Hy & ->)%elem_of_fpivots. apply sorted_app in Hsc as (_ & _ & Hsc).
        apply (Hsc y c); [done|]. apply elem_of_cons; auto. }
    apply wp_bind, wp_check_int_or.
    { destruct Hint as [|[? Hint]]; [by left|right]. cbn in Hint. apply in_int_true. lia. }
    assert (evolves ∅ s0 s1) as Hev01 by (eapply evolves_trans; [done..|]; set_solver).
    apply wp_bind. unfold wp at 1. rewrite this_deref by done. destruct (aligned_pivot c chr esr Hal) as (te & Hte & Hal2).
    set (elt_end := get_element_begin_it _ _) in *. rewrite Hte in *. rewrite length_app in *. apply wp_bind.
    assert (fpivots cj ++ [pivot_of c] = fpivots (cj ++ [c])) as Hcj by (by rewrite fpivots_app).
    eapply wp_move_elements; [done|apply Hev1|by rewrite Hv1, lookup_insert_eq|..]; cbn [pivots elements].
    + rewrite app_assoc in Hse. by apply sorted_app in Hse as (? & _ & _).
    + destruct Hint as [|[? Hint]]; [by left|right]. rewrite length_app in Hint. cbn in Hint. lia.
    + intros s2 Hv2 Hev2. rewrite Hcj in Hv2.
      eapply (IH chr elt_end _ s2 (cj ++ [c]) (ej ++ te)); [|done|done|cbn in Hfuel; lia|done|by rewrite <- app_assoc|by rewrite <- app_assoc| |].
      * eapply evolves_trans; [done..|]. set_solver.
      * destruct Hint as [|[? Hint]]; [by left|right]. rewrite length_app in Hint. cbn in Hint. lia.
      * eapply fill_post_pivot; [done| |done]. eapply evolves_trans; [done..|]. auto.
Qed.
End fill.

(** ** The new nodes *)

(** A new child: its key is its first one, and its messages are for its own children. *)
Definition piece_ok (x : K * (Z * tree K V)) : Prop :=
  Some x.1 = first_key (tch x.2.2) (tes x.2.2) ∧
  (∀ c e, head (tch x.2.2) = Some c → e ∈ tes x.2.2 → klt (ekey e) c.1 = false).
Definition piece_below (x : K * (Z * tree K V)) (k : K) : Prop :=
  klt x.1 k = true ∧ (∀ e, e ∈ tes x.2.2 → klt (ekey e) k = true) ∧
  (∀ c, c ∈ tch x.2.2 → klt c.1 k = true).
Definition pieces : forest K V → Prop := StronglySorted (λ x y, piece_below x y.1).

Definition fch (F : forest K V) : forest K V := flat_map (λ x, tch x.2.2) F.
Definition fes (F : forest K V) : message_map K V := flat_map (λ x, tes x.2.2) F.
Definition ftids (F : forest K V) : list N := (λ x, tid x.2.2) <$> F.

Lemma pieces_snoc F x : pieces F → (∀ y, y ∈ F → piece_below y x.1) → pieces (F ++ [x]).
Proof.
  unfold pieces. induction F as [|y F IH]; intros HF Hx; cbn.
  - repeat constructor.
  - inversion HF as [|? ? HF1 HF2]; subst. constructor.
    + apply IH; [done|]. intros z Hz. apply Hx, elem_of_cons; auto.
    + apply Forall_app. split; [done|]. constructor; [|done]. apply Hx, elem_of_cons; auto.
Qed.

Lemma pieces_sorted F : pieces F → sorted F.
Proof.
  unfold pieces, sorted. induction 1 as [|x F HF IH Hx]; constructor; [done|].
  eapply Forall_impl; [exact Hx|]. by intros y [? _].
Qed.

Section loop.
Context (tol : fault → Prop) (Htol : tol store_fault).
Context (s0 : St) (this : N) (ch : forest K V) (es : message_map K V) (tp : Z).
Context (Hinv0 : st_inv s0) (Hpin0 : 0 < st_pins s0 this)
        (Hthis0 : st_view s0 !! this = Some (MkNode (fpivots ch) es)).
Context (Hch : sorted ch) (Hes : sorted es)
        (Hts : ∀ e, e ∈ es → (0 < ets e <= UINT64_MAX)%Z)
        (Hleaf : ch = [] → ∀ a b e e', es = a ++ b → e ∈ a → e' ∈ b → klt (ekey e) (ekey e') = true).

(** What was moved is below what is left. *)
Lemma aligned_below cj ej chr esr k :
  aligned ch es (cj ++ chr) (ej ++ esr) → aligned ch es chr esr → first_key chr esr = Some k →
  (∀ e, e ∈ ej → klt (ekey e) k = true) ∧ (∀ c, c ∈ cj → klt c.1 k = true).
Proof.
  intros ([ch0 Hch0] & es0 & Hes0 & _) (_ & es1 & Hes1 & Hal) Hk.
  rewrite Hes0, app_assoc in Hes1. apply app_inv_tail in Hes1 as <-.
  destruct chr as [|c chr]; cbn in Hk.
  - destruct esr as [|e0 esr]; [done|]. injection Hk as <-.
    assert (ch = []) as Hnil by (destruct ch; [done|by discriminate Hal]).
    rewrite Hnil in Hch0. symmetry in Hch0. apply app_nil in Hch0 as [_ [-> _]%app_nil].
    split; [|by intros ? ?%elem_of_nil]. intros e He. eapply (Hleaf Hnil (es0 ++ ej) (e0 :: esr)).
    + by rewrite <- app_assoc.
    + apply elem_of_app; auto.
    + apply elem_of_cons; auto.
  - injection Hk as <-. destruct Hal as [_ Hal]; [rewrite Hch0; by destruct ch0, cj|]. split.
    + intros e He. apply Hal, elem_of_app; auto.
    + intros c' Hc'. rewrite Hch0, app_assoc in Hch. apply sorted_app in Hch as (_ & _ & Hlt).
      apply Hlt; [apply elem_of_app; auto|apply elem_of_cons; auto].
Qed.

(** The loop's invariant: [F] the finished nodes, [g] the entry of a node that got
    nothing, to be replaced by the next one. *)
Definition gids (g : pivot_map K) : list N := (λ p : K * child_info, child p.2) <$> g.

Record split_inv (s : St) (F : forest K V) (g : pivot_map K) chr esr : Prop := {
  si_ev : evolves ∅ s0 s;
  si_al : aligned ch es chr esr;
  si_ch : ch = fch F ++ chr;
  si_es : es = fes F ++ esr;
  si_piece x : x ∈ F → piece_ok x;
  si_inner x : x ∈ F → ch ≠ [] → tch x.2.2 ≠ [];
  si_pieces : pieces F;
  si_below x k : x ∈ F → first_key chr esr = Some k → piece_below x k;
  si_nodes x : x ∈ F → st_view s !! tid x.2.2 = Some (tnode x.2.2);
  si_fresh x : x ∈ F → st_view s0 !! tid x.2.2 = None;
  si_nodup : NoDup (ftids F);
  si_g : g = [] ∨ ∃ k (i : N), g = [(k, MkChildInfo i 0)] ∧ first_key chr esr = Some k ∧
                         st_view s !! i = Some empty_node ∧ st_view s0 !! i = None ∧ i ∉ ftids F;
}.

Lemma si_evolve s s' nn F g chr esr :
  split_inv s F g chr esr → st_view s0 !! nn = None → nn ∉ ftids F → nn ∉ gids g →
  evolves {[ nn ]} s s' → split_inv s' F g chr esr.
Proof.
  intros [] Hfresh Hnn Hng Hev. split; auto.
  - eapply evolves_trans; [done..|]. set_solver.
  - intros x Hx. apply (ev_view _ _ _ Hev); [by apply si_nodes0|].
    intros <-%elem_of_singleton. apply Hnn, list_elem_of_fmap. eauto.
  - destruct si_g0 as [?|(k & i & -> & ? & ? & ? & ?)]; [by left|right]. exists k, i. split_and!; [done..| |done|done].
    apply (ev_view _ _ _ Hev); [done|]. cbn in Hng. set_solver.
Qed.

(** Assigning the next key: the entry of an empty node goes. *)
Lemma assign_next s F g chr esr k ci :
  split_inv s F g chr esr → first_key chr esr = Some k →
  map_assign (fpivots F ++ g) k ci = fpivots F ++ [(k, ci)].
Proof.
  intros [] Hk.
  assert (∀ x, x ∈ fpivots F → klt x.1 k = true) as Hlt.
  { intros x (y & Hy & ->)%elem_of_fpivots. by destruct (si_below0 y k Hy Hk) as [? _]. }
  assert (sorted (fpivots F)) as Hs.
  { by apply sorted_fpivots, pieces_sorted. }
  destruct si_g0 as [->|(k' & i & -> & Hk' & _)].
  - rewrite app_nil_r. by apply map_assign_snoc.
  - rewrite Hk in Hk'. injection Hk' as <-. rewrite <- map_assign_snoc by done.
    rewrite map_assign_twice by done. by apply map_assign_snoc.
Qed.

(** After one round of the loop. *)
Lemma si_step s s' F chr esr cj ej chr' esr' k nn :
  split_inv s F [] chr esr → first_key chr esr = Some k →
  st_view s0 !! nn = None → nn ∉ ftids F → is_Some (st_view s !! nn) →
  chr = cj ++ chr' → esr = ej ++ esr' → aligned ch es chr' esr' →
  st_view s' !! nn = Some (MkNode (fpivots cj) ej) → evolves {[ nn ]} s s' →
  (chr ≠ [] → cj ≠ []) ∧ (chr = [] → esr ≠ [] → ej ≠ []) →
  split_inv s' (F ++ [(k, (0%Z, Tree nn ej cj))]) [] chr' esr'.
Proof.
  intros Hsi Hk Hfresh Hnn Hdom Hc He Hal' Hnn' Hev [Hp1 Hp2].
  pose proof (si_evolve s s' nn F [] chr esr Hsi Hfresh Hnn (not_elem_of_nil _) Hev) as [].
  set (x := (k, (0%Z, Tree nn ej cj))).
  assert (∀ k', first_key chr' esr' = Some k' → piece_below x k') as Hbelow.
  { intros k' Hk'. subst chr esr. destruct (aligned_below cj ej chr' esr' k') as [He Hc]; [done..|].
    split; [|done]. cbn. destruct cj as [|c cj]; cbn in Hk.
    - destruct chr' as [|c' chr'].
      + destruct ej as [|e ej]; cbn in Hk.
        { destruct Hp2; [done| |done]. by destruct esr'. }
        injection Hk as <-. apply He, elem_of_cons; auto.
      + by destruct Hp1.
    - injection Hk as <-. apply Hc, elem_of_cons; auto. }
  split; auto.
  - rewrite si_ch0, Hc. unfold fch. rewrite flat_map_app. cbn. by rewrite app_nil_r, <- app_assoc.
  - rewrite si_es0, He. unfold fes. rewrite flat_map_app. cbn. by rewrite app_nil_r, <- app_assoc.
  - intros y [Hy| ->%list_elem_of_singleton]%elem_of_app; [auto|].
    destruct si_al0 as (_ & es0 & _ & Hal). subst chr esr. split; cbn.
    + destruct cj as [|c cj]; cbn in Hk |- *; [|done].
      destruct chr' as [|c' chr']; [|by destruct Hp1]. destruct ej as [|e ej]; cbn in Hk |- *; [|done].
      destruct Hp2; [done| |done]. by destruct esr'.
    + intros c e Hhd Hin. destruct cj as [|c1 cj]; [done|]. injection Hhd as ->.
      apply Hal; [rewrite si_ch0; by destruct (fch F)|]. apply elem_of_app; auto.
  - intros y [Hy| ->%list_elem_of_singleton]%elem_of_app Hne; [auto|]. cbn. apply Hp1. intros ->.
    destruct si_al0 as (_ & es0 & _ & Hal). by rewrite (Hal Hne) in Hk.
  - apply pieces_snoc; [done|]. intros y Hy. by apply si_below0.
  - intros y k' [Hy| ->%list_elem_of_singleton]%elem_of_app Hk'; [|auto].
    destruct (si_below0 y k Hy Hk) as (Hlt & Hlt1 & Hlt2). destruct (Hbelow k' Hk') as [Hkk _]. cbn in Hkk.
    split_and!; eauto using klt_trans.
  - intros y [Hy| ->%list_elem_of_singleton]%elem_of_app; auto.
  - intros y [Hy| ->%list_elem_of_singleton]%elem_of_app; auto.
  - unfold ftids in *. rewrite fmap_app. apply NoDup_app. split_and!; [done| |apply NoDup_singleton].
    intros i Hi Hin. cbn in Hin. apply list_elem_of_singleton in Hin. subst. done.
Qed.

Definition counts_ok (count i moved : Z) (chr : forest K V) (esr : message_map K V) : Prop :=
  (0 <= i ∧ 0 <= moved ∧ 0 <= tp ∧ (i + count) * tp < 2 ^ 31 ∧
   moved + Z.of_nat (length chr + length esr) <= (i + count) * tp ∧
   (i * tp <= moved ∨ (chr = [] ∧ esr = [])))%Z.

Lemma wp_new_node s F g chr esr (Q : N → St → Prop) E :
  split_inv s F g chr esr →
  (∀ nn s1, split_inv s1 F g chr esr → st_view s0 !! nn = None → nn ∉ ftids F → nn ∉ gids g →
     st_view s1 !! nn = Some empty_node → Q nn s1) →
  wp tol (st_allocate empty_node) s Q E.
Proof.
  intros Hsi HQ. apply wp_allocate; [done|apply Hsi|]. intros nn s1 Hnone Hv1 _ Hev1.
  assert (st_view s0 !! nn = None) as Hfresh.
  { destruct (st_view s0 !! nn) eqn:E0; [|done].
    apply (ev_view _ _ _ (si_ev _ _ _ _ _ Hsi)) in E0; [congruence|set_solver]. }
  assert (nn ∉ ftids F) as Hnn.
  { intros (x & -> & Hx)%list_elem_of_fmap. pose proof (si_nodes _ _ _ _ _ Hsi x Hx). congruence. }
  assert (nn ∉ gids g) as Hng.
  { destruct (si_g _ _ _ _ _ Hsi) as [->|(k & i & -> & _ & Hi & _)]; [apply not_elem_of_nil|].
    cbn. intros ->%list_elem_of_singleton. congruence. }
  apply HQ; [|done..|by rewrite Hv1, lookup_insert_eq].
  eapply si_evolve; [done..|]. eapply evolves_mono; [done|]. set_solver.
Qed.

Lemma si_drop s s' F g chr esr Y :
  split_inv s F g chr esr → evolves Y s s' → (∀ j, j ∈ Y → st_view s0 !! j = None ∧ j ∉ ftids F) →
  split_inv s' F [] chr esr.
Proof.
  intros [] Hev HY. split; auto.
  - eapply evolves_trans; [done..|]. intros j [? _]%HY. by right.
  - intros x Hx. apply (ev_view _ _ _ Hev); [auto|]. intros [_ HF]%HY. apply HF, list_elem_of_fmap. eauto.
Qed.

(** Of the old entry for [k], if there is one, the node got nothing. *)
Lemma old_entry s F g chr esr k :
  split_inv s F g chr esr → first_key chr esr = Some k →
  map_find (fpivots F ++ g) k = None ∨
  ∃ i, map_find (fpivots F ++ g) k = Some (MkChildInfo i 0) ∧ gids g = [i] ∧ st_view s !! i = Some empty_node ∧
    st_view s0 !! i = None ∧ i ∉ ftids F.
Proof.
  intros Hsi Hk.
  assert (∀ x, x ∈ fpivots F → klt x.1 k = true) as Hlt.
  { intros x (y & Hy & ->)%elem_of_fpivots. by destruct (si_below _ _ _ _ _ Hsi y k Hy Hk) as [? _]. }
  assert (sorted (fpivots F)) as HsF by (apply sorted_fpivots, pieces_sorted, Hsi).
  destruct (si_g _ _ _ _ _ Hsi) as [->|(k' & i & -> & Hk' & Hi & Hi0 & HiF)].
  - left. rewrite app_nil_r. apply map_find_None; [done|]. intros v Hv%Hlt. cbn in Hv. by rewrite klt_irrefl in Hv.
  - right. exists i. rewrite Hk in Hk'. injection Hk' as <-. split_and!; [|done..].
    apply map_find_elem_of; [|apply elem_of_app; right; by apply list_elem_of_singleton].
    apply sorted_app. split_and!; [done|apply sorted_singleton|]. intros x y Hx ->%list_elem_of_singleton. by apply Hlt.
Qed.

(** The entry of the new node replaces that of a node that got nothing, which is dropped. *)
Lemma wp_new_entry s F g chr esr k nn (Q : child_info → St → Prop) E :
  split_inv s F g chr esr → first_key chr esr = Some k → st_view s0 !! nn = None → nn ∉ ftids F → nn ∉ gids g →
  st_view s !! nn = Some empty_node →
  (∀ s1, split_inv s1 F [] chr esr → st_view s1 !! nn = Some empty_node → Q (MkChildInfo nn 0) s1) →
  wp tol (arrow_twice nn (λ n1 n2, release_old (fpivots F ++ g) k ;;
    ret (MkChildInfo nn (Z.of_nat (length (elements n1)) + Z.of_nat (length (pivots n2)))))) s Q E.
Proof.
  intros Hsi Hk Hfresh Hnn Hng Hn HQ. eapply wp_arrow_twice; [done|apply Hsi|done|]. intros s1 Hi1 Hv1 Hp1. unfold release_old.
  destruct (old_entry _ _ _ _ _ _ Hsi Hk) as [->|(i & -> & Hg & Hi & Hi0 & HiF)].
  - apply wp_bind, wp_ret, wp_ret. exists ∅. split; [by apply evolves_refl|]. intros s3 Hv3 Hev3.
    apply HQ; [eapply si_drop; [done..|]; set_solver|by rewrite Hv3, Hv1].
  - rewrite Hg in Hng. assert (i ≠ nn) as Hne by set_solver. pose proof (si_ev _ _ _ _ _ Hsi) as Hev.
    cbn [child]. eapply wp_bind, wp_release; [done|done|by rewrite Hv1|done| |].
    { rewrite Hp1, (ev_pins _ _ _ Hev) by done. by apply st_pins_absent. }
    intros s2 Hv2 _ Hev2. apply wp_ret. exists {[ i ]}. split; [done|]. intros s3 Hv3 Hev3.
    apply HQ; [eapply si_drop; [done..|]; set_solver|]. by rewrite Hv3, Hv2, lookup_delete_ne, Hv1 by done.
Qed.

Lemma wp_split_loop : ∀ count i chr esr moved s F g Q E,
  split_inv s F g chr esr →
  (lenient tol ∨ counts_ok (Z.of_nat count) i moved chr esr) →
  (∀ s' F' g' chr' esr', split_inv s' F' g' chr' esr' → (lenient tol ∨ (chr' = [] ∧ esr' = [])) →
     Q (fpivots chr', esr', fpivots F' ++ g') s') →
  wp tol (split_loop count i this tp (fpivots chr) esr moved (fpivots F ++ g)) s Q E.
Proof.
  induction count as [|count IH]; intros i chr esr moved s F g Q E Hsi Hcnt HQ; cbn [split_loop].
  { apply (HQ s F g); [done|]. destruct Hcnt as [|(?&?&?&?&?&[?|?])]; [by left|right..]; [|done].
    destruct chr, esr; cbn in *; [done|lia..]. }
  assert (match fpivots chr with
          | [] => (λ e : MessageKey K * Message V, mk_key e.1) <$> head esr
          | p :: _ => Some p.1 end = first_key chr esr) as -> by (by destruct chr).
  destruct (first_key chr esr) as [k|] eqn:Hk.
  2:{ apply (HQ s F g); [done|right]. destruct chr; [|done]. by destruct esr. }
  eapply wp_bind, wp_new_node; [done|]. intros nn s1 Hsi1 Hfresh Hnn Hng Hv1.
  eapply wp_bind, wp_new_entry; [done..|]. intros s3 Hsi3 Hv3.
  apply wp_bind, wp_check_int_or.
  { destruct Hcnt as [|(?&?&?&?&?&_)]; [by left|right]. apply in_int_true. nia. }
  erewrite assign_next by eassumption. rewrite length_fpivots.
  eapply wp_bind, (wp_fill_node tol Htol s0 this nn ch es) with (cj := []) (ej := []);
    try done; try apply Hsi3; try lia.
  { destruct (si_al _ _ _ _ _ Hsi3) as [[ch0 Hch0] _]. rewrite Hch0 in Hch. by apply sorted_app in Hch as (_ & ? & _). }
  { rewrite (si_es _ _ _ _ _ Hsi3) in Hes. by apply sorted_app in Hes as (_ & ? & _). }
  { destruct Hcnt as [|(?&?&?&?&?&_)]; [by left|right]. nia. }
  intros s' cj ej chr' esr' Hc He Hal Hnn' Hev moved' Hdone Hprog Hnoprog. cbn [app] in Hnn'.
  assert (lenient tol ∨ counts_ok (Z.of_nat count) (i + 1) moved' chr' esr') as Hcnt'.
  { destruct Hcnt as [|(?&?&?&?&?&_)]; [by left|right]. unfold counts_ok.
    subst moved' chr esr. rewrite !length_app in *. replace (i + 1 + Z.of_nat count)%Z with (i + Z.of_nat (S count))%Z by lia.
    split_and!; try lia. destruct Hdone as [?|?]; [left; lia|by right]. }
  destruct (Z.ltb_spec moved ((i + 1) * tp)) as [Hlim|Hlim].
  - replace (fpivots F ++ [(k, MkChildInfo nn 0)]) with (fpivots (F ++ [(k, (0%Z, Tree nn ej cj))]) ++ [])
      by (by rewrite fpivots_app, app_nil_r).
    apply IH; [|done..]. eapply si_step; eauto.
  - destruct (Hnoprog Hlim) as [-> ->]. cbn in Hc, He. subst chr' esr'.
    apply IH; [|done..]. pose proof (si_evolve _ _ _ _ _ _ _ Hsi3 Hfresh Hnn (not_elem_of_nil _) Hev) as [].
    split; auto. right. exists k, nn. by split_and!.
Qed.
End loop.

(** ** The whole of [split] *)

Definition size_at (h : gmap N (node K V)) (i : N) : Z :=
  match h !! i with
  | Some n => Z.of_nat (length (elements n)) + Z.of_nat (length (pivots n))
  | None => 0
  end.
Definition resize (h : gmap N (node K V)) (p : K * child_info) : K * child_info :=
  (p.1, MkChildInfo (child p.2) (size_at h (child p.2))).

Lemma wp_set_child_sizes tol (r : list (K * child_info)) : ∀ s Q E,
  tol store_fault → st_inv s → (∀ p, p ∈ r → is_Some (st_view s !! (child p.2 : N))) →
  (∀ s', st_view s' = st_view s → evolves (list_to_set ((λ p, child p.2) <$> r)) s s' →
     Q (map (resize (st_view s)) r) s') →
  wp tol (set_child_sizes r) s Q E.
Proof.
  induction r as [|[k ci] r IH]; intros s Q E Htol Hinv Hdom HQ; cbn [set_child_sizes].
  { apply HQ; [done|by apply evolves_refl]. }
  destruct (Hdom (k, ci)) as [n Hn]; [apply elem_of_cons; auto|]. cbn in Hn.
  eapply wp_bind, wp_arrow_twice_ret; [done..|]. intros s1 Hv1 _ Hev1.
  apply wp_bind, IH; [done|apply Hev1| |].
  { rewrite Hv1. intros p Hp. apply Hdom, elem_of_cons; auto. }
  intros s2 Hv2 Hev2. rewrite Hv1.
  assert ((k, MkChildInfo (child ci) (Z.of_nat (length (elements n)) + Z.of_nat (length (pivots n))))
          = resize (st_view s) (k, ci)) as -> by (unfold resize, size_at; cbn [fst snd]; by rewrite Hn).
  apply (HQ s2); [by rewrite Hv2|]. cbn.
  eapply evolves_trans; [eapply evolves_mono; [exact Hev1|]|exact Hev2|]; set_solver.
Qed.

(** What [split] leaves: the new nodes [F] share out the old one. *)
Record split_result (s0 s : St) ch es (F : forest K V) : Prop := {
  sr_ch : fch F = ch;
  sr_es : fes F = es;
  sr_piece x : x ∈ F → piece_ok x;
  sr_inner x : x ∈ F → ch ≠ [] → tch x.2.2 ≠ [];
  sr_pieces : pieces F;
  sr_nodes x : x ∈ F → st_view s !! tid x.2.2 = Some (tnode x.2.2);
  sr_fresh x : x ∈ F → st_view s0 !! tid x.2.2 = None;
  sr_nodup : NoDup (ftids F);
  sr_size x : x ∈ F → x.2.1 = Z.of_nat (length (tes x.2.2) + length (tch x.2.2));
}.

Definition sized (x : K * (Z * tree K V)) : K * (Z * tree K V) :=
  (x.1, (Z.of_nat (length (tes x.2.2) + length (tch x.2.2)), x.2.2)).

Lemma resize_pieces h F :
  (∀ x, x ∈ F → h !! tid x.2.2 = Some (tnode x.2.2)) →
  map (resize h) (fpivots F) = fpivots (map sized F).
Proof.
  intros Hh. unfold fpivots. change (@map) with (λ A B f (l : list A), fmap (B := B) f l). cbn.
  rewrite <- !list_fmap_compose. apply list_fmap_ext. intros i x Hx.
  apply list_elem_of_lookup_2 in Hx. unfold resize, size_at, pivot_of, sized. cbn [fst snd compose child]. rewrite Hh by done.
  unfold tnode. cbn. rewrite length_fpivots, Nat2Z.inj_add. done.
Qed.

(** [split] neither divides by zero nor overflows. *)
Definition split_safe (bet : betree V) (total : nat) : Prop :=
  (3 <= max_node_size bet < 2 ^ 59 ∧ max_node_size bet <= Z.of_nat total < 2 ^ 30)%Z.

Lemma split_counts_safe bet (n : node K V) :
  split_safe bet (length (pivots n) + length (elements n)) →
  ∃ num tp, (∀ s, split_counts bet n s = Ok (num, tp) s) ∧
    (1 <= num ∧ 0 <= tp ∧ num * tp < 2 ^ 31 ∧ node_size n <= num * tp)%Z.
Proof.
  intros [Hmax Htot]. unfold split_counts. set (total := node_size n).
  assert (total = Z.of_nat (length (pivots n) + length (elements n))) as Ht
    by (unfold total, node_size; lia).
  rewrite <- Ht in Htot. set (mx := max_node_size bet) in *. clearbody mx total. clear Ht.
  assert (wrap64 (10 * mx) = 10 * mx)%Z as -> by (apply Z.mod_small; lia).
  set (u := (10 * mx / 24)%Z).
  assert (1 <= u <= mx)%Z as Hu.
  { split; [apply Z.div_le_lower_bound; lia|apply Z.div_le_upper_bound; lia]. }
  destruct (Z.eqb_spec u 0) as [?|_]; [lia|].
  assert (1 <= total / u <= total)%Z as Hnum.
  { split; [apply Z.div_le_lower_bound; lia|apply Z.div_le_upper_bound; nia]. }
  assert (∀ z, (0 <= z < 2 ^ 31)%Z → to_int z = z) as Hto.
  { intros z Hz. unfold to_int. rewrite Z.mod_small by lia. destruct (Z.ltb_spec z (2 ^ 31)); lia. }
  rewrite (Hto (total / u)%Z) by lia. set (num := (total / u)%Z) in *. clearbody num.
  destruct (Z.eqb_spec num 0) as [?|_]; [lia|].
  assert (wrap64 (total + num - 1) = total + num - 1)%Z as -> by (apply Z.mod_small; lia).
  assert (wrap64 num = num)%Z as -> by (apply Z.mod_small; lia).
  pose proof (Z.div_mod (total + num - 1) num) as Hdm.
  pose proof (Z.mod_pos_bound (total + num - 1) num) as Hmb.
  assert (0 <= (total + num - 1) / num <= total)%Z as Htp.
  { split; [apply Z.div_le_lower_bound; lia|apply Z.div_le_upper_bound; nia]. }
  rewrite Hto by lia.
  exists num, ((total + num - 1) / num)%Z. split; [done|]. split_and!; lia.
Qed.

Lemma wp_split_counts tol bet (n : node K V) s (Q : Z * Z → St → Prop) E :
  (lenient tol ∨ split_safe bet (length (pivots n) + length (elements n))) →
  (∀ num tp, (lenient tol ∨ (1 <= num ∧ 0 <= tp ∧ num * tp < 2 ^ 31 ∧ node_size n <= num * tp)%Z) →
     Q (num, tp) s) →
  wp tol (split_counts bet n) s Q E.
Proof.
  intros [Htol|Hsafe] HQ.
  - unfold split_counts. repeat case_match; try apply Htol. apply HQ. by left.
  - destruct (split_counts_safe bet n Hsafe) as (num & tp & Hc & Hb). unfold wp. rewrite Hc. auto.
Qed.

Lemma leaf_strict es a b e e' :
  buf_ok true es → es = a ++ b → e ∈ a → e' ∈ b → klt (ekey e) (ekey e') = true.
Proof.
  intros Hok -> He He'. pose proof (buf_sorted _ _ Hok) as Hs. apply sorted_app in Hs as (_ & _ & Hs).
  specialize (Hs e e' He He'). apply mkey_lt_spec in Hs as [?|[Hk _]]; [done|exfalso].
  pose proof (buf_leaf _ _ Hok (ekey e) eq_refl) as Hl. rewrite msgs_app in Hl.
  destruct (msgs (ekey e) a) as [|m ms] eqn:Ha; [by eapply (msgs_nil_inv _ _ e) in Ha|].
  destruct (msgs (ekey e) b) as [|m' ms'] eqn:Hb; [by eapply (msgs_nil_inv _ _ e') in Hb|].
  cbn in Hl. by destruct ms.
Qed.

(** At the start, everything is left. *)
Lemma aligned_start ch es : sorted ch → covered es ch → aligned ch es ch es.
Proof.
  intros Hs Hcov. split; [by exists []|]. exists []. split; [done|]. intros Hne.
  destruct ch as [|c ch]; [done|]. split; [|by intros ? ?%elem_of_nil].
  intros e He. destruct Hcov as [?|Hcov]; [done|]. destruct (Hcov e He) as (x & Hx & Hk).
  apply elem_of_cons in Hx as [->|Hx]; [done|]. apply sorted_cons in Hs as [Hs _].
  apply klt_asym. eapply klt_le_trans; [by apply Hs|done].
Qed.

Lemma split_inv_start s ch es : st_inv s → sorted ch → covered es ch → split_inv s ch es s [] [] ch es.
Proof.
  intros Hinv Hs Hcov. split; try done; try (by intros ? ?%elem_of_nil).
  - by apply evolves_refl.
  - by apply aligned_start.
  - constructor.
  - intros x k Hx. by apply elem_of_nil in Hx.
  - constructor.
  - by left.
Qed.

Lemma flat_map_sized {A} (f : tree K V → list A) F :
  flat_map (λ x, f x.2.2) (map sized F) = flat_map (λ x, f x.2.2) F.
Proof. by rewrite !flat_map_concat_map, map_map. Qed.

Lemma elem_of_sized F x : x ∈ map sized F → ∃ y, y ∈ F ∧ x = sized y.
Proof. intros (y & ? & ?)%list_elem_of_fmap. eauto. Qed.

Lemma split_result_intro s this ch es s0 s' F :
  split_inv s0 ch es s F [] [] [] → is_Some (st_view s0 !! this) →
  st_view s' = <[ this := empty_node ]> (st_view s) → split_result s0 s' ch es (map sized F).
Proof.
  intros [] Hthis Hv. split.
  - unfold fch. rewrite flat_map_sized. by rewrite app_nil_r in si_ch0.
  - unfold fes. rewrite flat_map_sized. by rewrite app_nil_r in si_es0.
  - intros ? (x & Hx & ->)%elem_of_sized. apply (si_piece0 x Hx).
  - intros ? (x & Hx & ->)%elem_of_sized. apply (si_inner0 x Hx).
  - clear -si_pieces0. unfold pieces in *. induction si_pieces0 as [|x F HF IH Hx]; constructor; [done|].
    apply Forall_map. exact Hx.
  - intros ? (x & Hx & ->)%elem_of_sized. cbn. rewrite Hv, lookup_insert_ne; [by apply si_nodes0|].
    intros ->. rewrite (si_fresh0 x Hx) in Hthis. by destruct Hthis.
  - intros ? (x & Hx & ->)%elem_of_sized. exact (si_fresh0 x Hx).
  - unfold ftids in *. change (map sized F) with (fmap (M := list) sized F). by rewrite <- list_fmap_compose.
  - by intros ? (x & Hx & ->)%elem_of_sized.
Qed.

Lemma wp_split tol bet s0 this ch es (Q : pivot_map K → St → Prop) E :
  tol store_fault → st_inv s0 → 0 < st_pins s0 this → st_dirty s0 this →
  st_view s0 !! this = Some (MkNode (fpivots ch) es) →
  sorted ch → buf_ok (no_children ch) es → covered es ch →
  (lenient tol ∨ split_safe bet (length ch + length es)) →
  (∀ s F, evolves {[ this ]} s0 s → st_view s !! this = Some empty_node →
     split_result s0 s ch es F → Q (fpivots F) s) →
  wp tol (split bet this) s0 Q E.
Proof.
  intros Htol Hinv Hpin Hdirty Hthis Hch Hbuf Hcov Hsafe HQ. unfold split.
  apply wp_bind. unfold wp at 1. rewrite (st_deref_spec s0 this _ Hinv Hpin Hthis).
  apply wp_bind, wp_assert_or.
  { destruct Hsafe as [|[_ Hs]]; [by left|right]. apply Z.leb_le. unfold node_size. cbn.
    rewrite length_fpivots. lia. }
  intros _. apply wp_bind, wp_split_counts; [cbn; by rewrite length_fpivots|].
  intros num tp Hcnt. apply wp_bind. cbn [pivots elements].
  change (@nil (K * child_info)) with (fpivots (@nil (K * (Z * tree K V))) ++ []) at 1.
  eapply (wp_split_loop tol Htol s0 this ch es tp); try done; [apply Hbuf..| | | |].
  { intros -> a b e e'. by apply leaf_strict. }
  { by apply split_inv_start. }
  { destruct Hcnt as [|(?&?&?&Hn)]; [by left|right]. unfold counts_ok. unfold node_size in Hn. cbn in Hn.
    rewrite length_fpivots in Hn. rewrite Z2Nat.id by lia. split_and!; lia. }
  intros s1 F g chr esr Hsi Hdone. apply wp_bind, wp_set_child_sizes; [done|apply Hsi| |].
  { intros p [(x & Hx & ->)%elem_of_fpivots|Hp]%elem_of_app; cbn.
    - by rewrite (si_nodes _ _ _ _ _ _ _ _ Hsi x Hx).
    - destruct (si_g _ _ _ _ _ _ _ _ Hsi) as [->|(k & i & -> & _ & Hi & _)]; [by apply elem_of_nil in Hp|].
      apply list_elem_of_singleton in Hp as ->. by eexists. }
  intros s2 Hv2 Hev2. rewrite length_fpivots.
  apply wp_bind, wp_assert_or; [destruct Hdone as [|[-> _]]; auto|]. intros ->%Nat.eqb_eq%nil_length_inv.
  apply wp_bind, wp_assert_or; [destruct Hdone as [|[_ ->]]; auto|]. intros ->%Nat.eqb_eq%nil_length_inv.
  assert (g = []) as -> by (destruct (si_g _ _ _ _ _ _ _ _ Hsi) as [|(?&?&_&?&_)]; done).
  rewrite app_nil_r in Hev2 |- *.
  assert (evolves ∅ s0 s2) as Hev02.
  { eapply evolves_trans; [apply Hsi|exact Hev2|]. intros i Hi. right.
    apply elem_of_list_to_set, list_elem_of_fmap in Hi as (p & -> & (x & Hx & ->)%elem_of_fpivots).
    by apply (si_fresh _ _ _ _ _ _ _ _ Hsi). }
  apply wp_bind, wp_update; [done|apply Hev02|by rewrite (ev_pins _ _ _ Hev02)| |].
  { by apply (ev_keep _ _ _ Hev02). }
  intros s3 Hv3 _ Hev3. rewrite resize_pieces by apply Hsi.
  apply HQ.
  - eapply evolves_trans; [eapply evolves_mono; [exact Hev02|]|exact Hev3|]; set_solver.
  - by rewrite Hv3, lookup_insert_eq.
  - eapply (split_result_intro s1); [done|by rewrite Hthis|by rewrite Hv3, Hv2].
Qed.
End split.
