(* ===== verification/SplitForest.v ===== *)
(** * The nodes made by [split], as a forest

    The new children of a split node form a well-formed forest with the same
    messages for every key, no higher than the old node. *)
From Stdlib Require Import ZArith Lia Sorted.
From stdpp Require Import prelude gmap.
From S2P Require Import Prelude StdMap Message NodeStore BeTree MessageSem Tree NodeLemmas SplitProof.

Section split_forest.
Context {K V : Type} `{KeyOrder K} `{ValueOps V}.
Implicit Types (F ch : forest K V) (es : message_map K V) (k : K) (x y : K * (Z * tree K V)).

(** ** Parts of a forest *)

Lemma forest_ok_sublist ch ch' :
  forest_ok ch → sorted ch' → (∀ x, x ∈ ch' → x ∈ ch) → forest_ok ch'.
Proof. intros [Hs Hlo Hhi] Hs' Hsub. split; [done|eauto..]. Qed.

(** A forest with parts of the trees left out. *)
Definition on_trees (g : tree K V → tree K V) F : forest K V :=
  map (λ x : K * (Z * tree K V), (x.1, (x.2.1, g x.2.2))) F.

Lemma elem_of_on_trees g F x :
  x ∈ on_trees g F ↔ ∃ y, y ∈ F ∧ x = (y.1, (y.2.1, g y.2.2)).
Proof. unfold on_trees. rewrite list_elem_of_fmap. naive_solver. Qed.

Lemma sorted_on_trees g F : sorted (on_trees g F) ↔ sorted F.
Proof.
  induction F as [|x F IH]; [split; intros; apply sorted_nil|]. cbn. rewrite !sorted_cons. fold (on_trees g F).
  rewrite IH. setoid_rewrite elem_of_on_trees. split; intros [Hlt ?]; (split; [|done]).
  - intros y Hy. apply (Hlt (y.1, (y.2.1, g y.2.2))). eauto.
  - intros y (z & Hz & ->). exact (Hlt z Hz).
Qed.

Lemma forest_ok_on_trees g F :
  forest_ok F → (∀ t k, k ∈ tkeys (g t) → k ∈ tkeys t) → forest_ok (on_trees g F).
Proof.
  intros [Hs Hlo Hhi] Hg. split; [by apply sorted_on_trees|..].
  - intros ? k (x & Hx & ->)%elem_of_on_trees Hk. cbn in *. eauto.
  - intros ? ? k (x & Hx & ->)%elem_of_on_trees (y & Hy & ->)%elem_of_on_trees Hlt Hk. cbn in *. eauto.
Qed.

Lemma routes_on_trees g F p k : routes (on_trees g F) p k ↔ routes F p k.
Proof.
  unfold routes. setoid_rewrite elem_of_on_trees. split; intros [? Hr]; (split; [done|]).
  - intros x Hx. apply (Hr (x.1, (x.2.1, g x.2.2))). eauto.
  - intros ? (x & Hx & ->). exact (Hr x Hx).
Qed.

Definition only_buffer (t : tree K V) : tree K V := Tree (tid t) (tes t) [].
Definition only_children (t : tree K V) : tree K V := Tree (tid t) [] (tch t).

Lemma fentries_only_buffer F : fentries (on_trees only_buffer F) = fes F.
Proof. unfold fentries, fes, on_trees. by rewrite !flat_map_concat_map, map_map. Qed.
Lemma fentries_only_children F : fentries (on_trees only_children F) = fentries (fch F).
Proof.
  induction F as [|x F IH]; [done|]. cbn [on_trees map]. fold (on_trees only_children F).
  rewrite fentries_cons, IH. unfold fch. cbn [flat_map]. rewrite fentries_app. cbn. by rewrite app_nil_r.
Qed.

Lemma tkeys_only_buffer t k : k ∈ tkeys (only_buffer t) → k ∈ tkeys t.
Proof. rewrite !tkeys_unfold. cbn. rewrite elem_of_app. auto. Qed.
Lemma tkeys_only_children t k : k ∈ tkeys (only_children t) → k ∈ tkeys t.
Proof. rewrite !tkeys_unfold. cbn. rewrite !elem_of_app. intros [?|?%elem_of_nil]; [auto|done]. Qed.

(** The same messages for every key. *)
Lemma msgs_shared F k :
  forest_ok F → msgs k (fentries F) = msgs k (fentries (fch F) ++ fes F).
Proof.
  intros Hok.
  pose proof (forest_ok_on_trees only_buffer F Hok tkeys_only_buffer) as Hb.
  pose proof (forest_ok_on_trees only_children F Hok tkeys_only_children) as Hc.
  rewrite msgs_app, <- fentries_only_buffer, <- fentries_only_children.
  destruct (routes_dec F k (fo_sorted _ Hok)) as [(x & Hx & Hr)|Hno].
  - rewrite (msgs_routes F x), entries_unfold, msgs_app by done.
    rewrite (msgs_routes (on_trees only_children F) (x.1, (x.2.1, only_children x.2.2))); [|done|..].
    2:{ apply elem_of_on_trees. eauto. } 2:{ by apply routes_on_trees. }
    rewrite (msgs_routes (on_trees only_buffer F) (x.1, (x.2.1, only_buffer x.2.2))); [|done|..].
    2:{ apply elem_of_on_trees. eauto. } 2:{ by apply routes_on_trees. }
    cbn. by rewrite app_nil_r.
  - rewrite !msgs_no_route; [done|done| |done| |done|done].
    + intros ? (x & Hx & ->)%elem_of_on_trees. rewrite routes_on_trees. exact (Hno x Hx).
    + intros ? (x & Hx & ->)%elem_of_on_trees. rewrite routes_on_trees. exact (Hno x Hx).
Qed.

(** All buffered messages of a key are with one of the nodes. *)
Lemma msgs_buffer F x k :
  forest_ok F → x ∈ F → msgs k (tes x.2.2) = [] ∨ msgs k (tes x.2.2) = msgs k (fes F).
Proof.
  intros Hok Hx. destruct (msgs k (tes x.2.2)) as [|m ms] eqn:Hm; [by left|right].
  assert (k ∈ tkeys x.2.2) as Hk.
  { rewrite tkeys_unfold. apply elem_of_app. right. unfold msgs in Hm.
    destruct (for_key k (tes x.2.2)) as [|e l] eqn:He; [done|].
    assert (e ∈ for_key k (tes x.2.2)) as Hin by (rewrite He; apply elem_of_cons; auto).
    apply elem_of_for_key in Hin as [Hin <-]. apply list_elem_of_fmap. eauto. }
  rewrite <- fentries_only_buffer.
  rewrite (msgs_routes _ (x.1, (x.2.1, only_buffer x.2.2))); [by cbn| | |].
  - apply forest_ok_on_trees; [done|apply tkeys_only_buffer].
  - apply elem_of_on_trees. eauto.
  - apply routes_on_trees. cbn. by apply tkeys_routes.
Qed.

(** ** The forest a node is split into *)
Section shared.
Context (i : N) (es : message_map K V) (ch F : forest K V).
Context (Hwf : wf (Tree i es ch)) (Hfch : fch F = ch) (Hfes : fes F = es)
        (Hpiece : ∀ x, x ∈ F → piece_ok x) (Hinner : ∀ x, x ∈ F → ch ≠ [] → tch x.2.2 ≠ [])
        (Hpieces : pieces F).

Lemma pieces_lt x y : x ∈ F → y ∈ F → klt x.1 y.1 = true → piece_below x y.1.
Proof.
  clear -Hpieces H0. unfold pieces in *. induction Hpieces as [|z F' HF' IH Hz]; intros Hx Hy Hlt.
  { by apply elem_of_nil in Hx. }
  rewrite Forall_forall in Hz.
  apply elem_of_cons in Hx as [->|Hx], Hy as [->|Hy]; auto.
  - by rewrite klt_irrefl in Hlt.
  - pose proof (Hz x Hx) as [Hlt' _]. by rewrite (klt_asym _ _ Hlt') in Hlt.
Qed.

Lemma piece_children x c : x ∈ F → c ∈ tch x.2.2 → c ∈ ch.
Proof. intros Hx Hc. rewrite <- Hfch. apply elem_of_flat_map. eauto. Qed.
Lemma piece_messages x e : x ∈ F → e ∈ tes x.2.2 → e ∈ es.
Proof. intros Hx He. rewrite <- Hfes. apply elem_of_flat_map. eauto. Qed.

Lemma piece_sorted x : x ∈ F → sorted (tch x.2.2) ∧ sorted (tes x.2.2).
Proof.
  intros (F1 & F2 & HF)%list_elem_of_split.
  destruct (wf_inv _ Hwf) as (Hb & Hf & _). cbn in Hb, Hf. split.
  - pose proof (fo_sorted _ Hf) as Hs. rewrite <- Hfch, HF in Hs. unfold fch in Hs.
    rewrite flat_map_app in Hs. apply sorted_app in Hs as (_ & Hs & _). by apply sorted_app in Hs as (? & _ & _).
  - pose proof (buf_sorted _ _ Hb) as Hs. rewrite <- Hfes, HF in Hs. unfold fes in Hs.
    rewrite flat_map_app in Hs. apply sorted_app in Hs as (_ & Hs & _). by apply sorted_app in Hs as (? & _ & _).
Qed.

(** The key of a new node is a key of the old one. *)
Lemma piece_key x : x ∈ F → x.1 ∈ tkeys (Tree i es ch).
Proof.
  intros Hx. destruct (Hpiece x Hx) as [Hk _]. rewrite tkeys_unfold. cbn [tch tes]. rewrite elem_of_app, elem_of_fkeys.
  destruct (tch x.2.2) as [|c cj] eqn:Hc; cbn in Hk.
  - destruct (tes x.2.2) as [|e l] eqn:He; [done|]. injection Hk as ->. right. apply list_elem_of_fmap.
    exists e. split; [done|]. eapply piece_messages; [done|]. rewrite He. apply elem_of_cons; auto.
  - injection Hk as ->. left. exists c. split; [|auto]. eapply piece_children; [done|].
    rewrite Hc. apply elem_of_cons; auto.
Qed.

Lemma split_forest_ok : forest_ok F.
Proof.
  destruct (wf_inv _ Hwf) as (_ & [Hs Hlo Hhi] & _). cbn in Hs, Hlo, Hhi.
  split; [by apply pieces_sorted|..].
  - intros x k Hx Hk. destruct (Hpiece x Hx) as [Hkey Hge], (piece_sorted x Hx) as [Hsc Hse].
    rewrite tkeys_unfold in Hk. apply elem_of_app in Hk as [(c & Hc & Hk)%elem_of_fkeys|(e & -> & He)%list_elem_of_fmap].
    + destruct (tch x.2.2) as [|c0 cj] eqn:Htch; [by apply elem_of_nil in Hc|]. injection Hkey as ->.
      assert (klt k c.1 = false) as Hkc.
      { destruct Hk as [->|Hk]; [apply klt_irrefl|]. apply (Hlo c); [|done].
        eapply piece_children; [done|]. by rewrite Htch. }
      apply elem_of_cons in Hc as [->|Hc]; [done|]. apply sorted_cons in Hsc as [Hsc _].
      apply klt_asym. eapply klt_le_trans; [by apply Hsc|done].
    + destruct (tch x.2.2) as [|c0 cj]; [|injection Hkey as ->; by apply Hge].
      destruct (tes x.2.2) as [|e0 l]; [by apply elem_of_nil in He|]. injection Hkey as ->.
      apply elem_of_cons in He as [->|He]; [apply klt_irrefl|]. apply sorted_cons in Hse as [Hse _].
      exact (mkey_lt_key_le _ _ (Hse e He)).
  - intros x y k Hx Hy Hlt Hk. destruct (pieces_lt x y Hx Hy Hlt) as (_ & Hle & Hlc).
    rewrite tkeys_unfold in Hk. apply elem_of_app in Hk as [(c & Hc & Hk)%elem_of_fkeys|(e & -> & He)%list_elem_of_fmap]; [|auto].
    destruct Hk as [->|Hk]; [auto|]. destruct (Hpiece y Hy) as [Hkey _].
    pose proof (piece_children x c Hx Hc) as Hc'.
    destruct (tch y.2.2) as [|c0 cj] eqn:Htch.
    { exfalso. apply (Hinner y Hy); [|done]. intros Hn. rewrite Hn in Hc'. by apply elem_of_nil in Hc'. }
    injection Hkey as Hkey. rewrite Hkey in *. apply (Hhi c c0); [done| |by apply Hlc|done].
    eapply piece_children; [done|]. rewrite Htch. apply elem_of_cons; auto.
Qed.

Lemma split_wf x : x ∈ F → wf x.2.2.
Proof.
  intros Hx. destruct (wf_inv _ Hwf) as (Hb & Hf & _ & Hn & Hc). cbn in Hb, Hf, Hn, Hc.
  destruct (piece_sorted x Hx) as [Hsc Hse]. destruct (Hpiece x Hx) as [_ Hge].
  assert (∀ k, msgs k (tes x.2.2) = [] ∨ msgs k (tes x.2.2) = msgs k es) as Hmsgs.
  { intros k. rewrite <- Hfes. apply msgs_buffer; [apply split_forest_ok|done]. }
  pose proof (piece_messages x) as Hme. pose proof (piece_children x) as Hce. pose proof (Hinner x Hx) as Hin.
  destruct (x.2.2) as [nn ej cj]. cbn [tes tch] in *. constructor; auto.
  - split; [done| | |].
    + intros e He. by apply (buf_ts _ _ Hb), Hme.
    + intros k. destruct (Hmsgs k) as [->| ->]; [done|apply Hb].
    + intros k Hl. destruct (Hmsgs k) as [->| ->]; [done|]. apply (buf_leaf _ _ Hb).
      destruct cj; [|done]. destruct ch; [done|]. by destruct Hin.
  - eapply forest_ok_sublist; [done..|]. auto.
  - destruct cj as [|c cj]; [by left|right]. intros e He. exists c. split; [apply elem_of_cons; auto|]. by apply Hge.
  - intros e e' (c & Hcc & He)%elem_of_fentries He'. apply Hn; [|auto]. apply elem_of_fentries. eauto.
Qed.

Lemma split_msgs k : msgs k (fentries F) = msgs k (entries (Tree i es ch)).
Proof. rewrite msgs_shared by apply split_forest_ok. rewrite entries_unfold. cbn. by rewrite Hfch, Hfes. Qed.

(** A message of a new node goes to the child it went to in the old one. *)
Lemma split_routes x c e :
  x ∈ F → c ∈ tch x.2.2 → e ∈ tes x.2.2 → routes (tch x.2.2) c.1 (ekey e) → routes ch c.1 (ekey e).
Proof.
  intros Hx Hc He [Hge Hnext]. split; [done|]. intros c' Hc' Hlt.
  rewrite <- Hfch in Hc'. apply elem_of_flat_map in Hc' as (y & Hy & Hc').
  destruct (klt_cases x.1 y.1) as [(Hxy&_)|[(Hxy&_)|(Hxy&_)]].
  - destruct (pieces_lt x y Hx Hy Hxy) as (_ & Hle & _). eapply klt_le_trans; [by apply Hle|].
    apply (fo_lo _ split_forest_ok y); [done|]. rewrite tkeys_unfold. apply elem_of_app. left.
    apply elem_of_fkeys. eauto.
  - assert (x = y) as <- by (eapply sorted_key_unique; [by apply pieces_sorted|done..]). auto.
  - destruct (pieces_lt y x Hy Hx Hxy) as (_ & _ & Hlc). specialize (Hlc c' Hc').
    assert (klt c.1 x.1 = false) as Hcx.
    { apply (fo_lo _ split_forest_ok x); [done|]. rewrite tkeys_unfold. apply elem_of_app. left.
      apply elem_of_fkeys. eauto. }
    rewrite (klt_trans c.1 c'.1 x.1) in Hcx by done. done.
Qed.

(** *** Sizes *)
Lemma fentries_shared (G : forest K V) : fentries G ≡ₚ fentries (fch G) ++ fes G.
Proof.
  induction G as [|x G IH]; [done|]. rewrite fentries_cons, IH, entries_unfold.
  unfold fch, fes. cbn [flat_map]. rewrite fentries_app. apply app_swap_middle.
Qed.

Lemma fids_shared (G : forest K V) : fids G ≡ₚ ftids G ++ fids (fch G).
Proof.
  induction G as [|x G IH]; [done|]. rewrite fids_cons, IH, ids_unfold. unfold fch, ftids.
  cbn [flat_map fmap list_fmap]. rewrite fids_app. apply (app_swap_middle [tid x.2.2]).
Qed.

Lemma split_entries : fentries F ≡ₚ entries (Tree i es ch).
Proof. rewrite fentries_shared, Hfch, Hfes. done. Qed.

Lemma split_keys x k : x ∈ F → k ∈ tkeys x.2.2 → k ∈ tkeys (Tree i es ch).
Proof.
  intros Hx. rewrite !tkeys_unfold, !elem_of_app. cbn [tes tch].
  intros [(c & Hc & Hk)%elem_of_fkeys|(e & -> & He)%list_elem_of_fmap].
  - left. apply elem_of_fkeys. exists c. split; [by eapply piece_children|done].
  - right. apply list_elem_of_fmap. exists e. split; [done|by eapply piece_messages].
Qed.

Lemma split_height : fheight F ≤ height (Tree i es ch).
Proof.
  apply fheight_le. intros x Hx. rewrite !height_unfold. cbn [tch]. apply le_n_S, fheight_le.
  intros c Hc. apply fheight_elem. by eapply piece_children.
Qed.

Lemma split_nonempty : es ≠ [] ∨ ch ≠ [] → F ≠ [].
Proof. intros Hne ->. cbn in Hfes, Hfch. destruct Hne; congruence. Qed.

Lemma split_leaves : fleaves F ≤ leaves (Tree i es ch) + length es.
Proof.
  destruct (decide (ch = [])) as [Hnil|Hne].
  - assert (fleaves F ≤ length (fes F)) as Hle; [|rewrite Hfes in Hle; lia].
    rewrite Hnil in *. clear Hfes Hinner Hpieces Hwf. induction F as [|x G IH]; [done|].
    unfold fch in Hfch. cbn in Hfch. apply app_nil in Hfch as [Hx HG].
    assert (fleaves G ≤ length (fes G)) as HG'.
    { apply IH; [done|]. intros y Hy. apply Hpiece, elem_of_cons; auto. }
    unfold fes in *. cbn. fold (fleaves G). rewrite length_app, leaves_unfold, Hx.
    destruct (Hpiece x) as [Hk _]; [apply elem_of_cons; auto|]. rewrite Hx in Hk. cbn in Hk.
    destruct (tes x.2.2); [done|cbn]. lia.
  - assert (∀ G : forest K V, (∀ x, x ∈ G → tch x.2.2 ≠ []) → fleaves G = fleaves (fch G)) as Heq.
    { induction G as [|x G IH]; intros HG; [done|]. unfold fch. cbn [flat_map]. fold (fch G).
      rewrite fleaves_app. cbn [fleaves foldr]. fold (fleaves G). rewrite leaves_unfold, IH; [|intros; apply HG, elem_of_cons; auto].
      destruct (tch x.2.2) eqn:Ex; [|done]. exfalso. eapply (HG x); [apply elem_of_cons; auto|done]. }
    rewrite Heq, Hfch by auto. rewrite leaves_unfold. cbn [tch]. destruct ch; [done|lia].
Qed.

Lemma split_drained (D D' : N → Prop) x :
  drained D (Tree i es ch) → (∀ j, j ∈ fids ch → D' j → D j) → x ∈ F → drained D' x.2.2.
Proof.
  intros Hd HD Hx. inversion Hd as [? ? ? Hd1 Hd2]; subst i0 es0 ch0.
  pose proof (split_routes x) as Hr. pose proof (piece_messages x) as Hm. pose proof (piece_children x) as Hc.
  destruct (x.2.2) as [nn ej cj]. cbn [tes tch] in *.
  assert (∀ c j, c ∈ cj → j ∈ ids c.2.2 → D' j → D j) as HD'.
  { intros c j Hcj Hj. apply HD, elem_of_fids. eauto. }
  constructor.
  - intros c Hcj Hdc e He Hrt. apply (Hd1 c) with e; eauto using tid_in_ids.
  - intros c Hcj. eapply drained_frame; eauto.
Qed.
End shared.
End split_forest.
