(* ===== verification/Grown.v ===== *)
(** * Trees that took in a batch of messages

    [carries d t elts G]: the trees of the forest [G] together are [t] after the
    messages [elts].  This is the functional part of what [flush] does to a
    subtree; [stored] is its part about the store.  The lemmas compose such steps,
    and replace a child of a node by what it became. *)
From Stdlib Require Import ZArith Lia.
From stdpp Require Import prelude gmap.
From S2P Require Import Prelude StdMap Message NodeStore BeTree MessageSem Tree NodeLemmas.

Section grown.
Context {K V : Type} `{KeyOrder K} `{ValueOps V}.
Implicit Types (G ch : forest K V) (es elts : message_map K V) (k : K) (x y : K * (Z * tree K V))
  (t : tree K V) (h : gmap N (node K V)).

Record carries (d : V) t elts G : Prop := {
  ca_wf x : x ∈ G → wf x.2.2;
  ca_keys x k : x ∈ G → k ∈ tkeys x.2.2 → k ∈ tkeys t ∨ k ∈ ekey <$> elts;
  ca_run k : run d (msgs k (fentries G)) None = run d (msgs k elts) (run d (msgs k (entries t)) None);
  ca_from e : e ∈ fentries G → ∃ e0, (e0 ∈ entries t ∨ e0 ∈ elts) ∧ e0.1 = e.1;
  ca_height : fheight G ≤ height t;
  ca_len : length (fentries G) ≤ length (entries t) + length elts;
}.

Record stored h h' t G : Prop := {
  so_rep : frep h' G;
  so_nodup : NoDup (fids G);
  so_ids i : i ∈ fids G → i ∈ ids t ∨ h !! i = None;
}.

(** A tree as a forest; the pivot does not matter here. *)
Definition single k (sz : Z) t : forest K V := [(k, (sz, t))].

Lemma fentries_single k sz t : fentries (single k sz t) = entries t.
Proof. cbn. apply app_nil_r. Qed.
Lemma fids_single k sz t : fids (single k sz t) = ids t.
Proof. unfold single. rewrite fids_cons. apply app_nil_r. Qed.
Lemma elem_of_single k sz t x : x ∈ single k sz t ↔ x = (k, (sz, t)).
Proof. apply list_elem_of_singleton. Qed.

Lemma carries_rekey d t elts k sz k' sz' t' :
  carries d t elts (single k sz t') → carries d t elts (single k' sz' t').
Proof.
  intros [Hw Hk Hr Hf Hh Hl]. split; try done.
  - intros ? ->%elem_of_single. by apply (Hw (k, (sz, t'))), elem_of_single.
  - intros ? k0 ->%elem_of_single. by apply (Hk (k, (sz, t'))), elem_of_single.
Qed.

Lemma stored_rekey h h' t k sz k' sz' t' :
  stored h h' t (single k sz t') → stored h h' t (single k' sz' t').
Proof. by intros [Hr Hn Hi]. Qed.

Lemma carries_nil d t k sz : wf t → carries d t [] (single k sz t).
Proof.
  intros Hwf. split.
  - by intros ? ->%elem_of_single.
  - intros ? k0 ->%elem_of_single. auto.
  - intros k0. by rewrite fentries_single.
  - intros e. rewrite fentries_single. eauto.
  - cbn. lia.
  - rewrite fentries_single. lia.
Qed.

(** First the batch, then reorganisation. *)
Lemma carries_trans d t elts k sz t1 G :
  carries d t elts (single k sz t1) → carries d t1 [] G → carries d t elts G.
Proof.
  intros [Hw1 Hk1 Hr1 Hf1 Hh1 Hl1] [Hw2 Hk2 Hr2 Hf2 Hh2 Hl2].
  rewrite fentries_single in Hf1, Hl1. split; auto.
  - intros x k0 Hx [Hk0|Hk0]%Hk2; [|by apply elem_of_nil in Hk0|done].
    apply (Hk1 (k, (sz, t1))); [by apply elem_of_single|done].
  - intros k0. rewrite Hr2. specialize (Hr1 k0). rewrite fentries_single in Hr1. by rewrite Hr1.
  - intros e (e1 & [He1|He1] & <-)%Hf2; [|by apply elem_of_nil in He1]. auto.
  - cbn in Hh1. lia.
  - cbn in Hl2. lia.
Qed.

Lemma stored_trans h h1 h2 t k sz t1 G :
  (∀ i, is_Some (h !! i) → is_Some (h1 !! i) ∨ i ∈ ids t) →
  stored h h1 t (single k sz t1) → stored h1 h2 t1 G → stored h h2 t G.
Proof.
  intros Hdom [_ _ Hi1] [Hr2 Hn2 Hi2]. rewrite fids_single in Hi1. split; [done..|].
  intros i [Hi|Hi]%Hi2; [auto|]. destruct (h !! i) eqn:E; [|by right].
  destruct (Hdom i) as [[? ?]|?]; [by rewrite E|congruence|by left].
Qed.

(** A node with the same messages and keys as another one up to the keys of the batch. *)
Lemma carries_from d t0 t elts G :
  carries d t elts G → entries t = entries t0 → height t = height t0 →
  (∀ k, k ∈ tkeys t → k ∈ tkeys t0 ∨ k ∈ ekey <$> elts) → carries d t0 elts G.
Proof.
  intros [Hw Hk Hr Hf Hh Hl] He Hht Hks. rewrite <- ?He in *. split; rewrite <- ?He, <- ?Hht; auto.
  intros x k0 Hx Hk0. destruct (Hk x k0 Hx Hk0); auto.
Qed.

(** ** A batch applied to the buffer *)
Lemma carries_apply d i es es' ch elts k sz :
  wf (Tree i es ch) → newer (entries (Tree i es ch)) elts →
  applied_all (no_children ch) d es elts es' → covered es' ch →
  carries d (Tree i es ch) elts (single k sz (Tree i es' ch)).
Proof.
  intros Hwf Hnew [Hb Hrun Hfrom Hlen] Hcov.
  destruct (wf_inv _ Hwf) as (_ & Hfo & _ & Hnw & Hch). cbn [tes tch] in *.
  rewrite entries_unfold in Hnew. cbn [tes tch] in Hnew. split.
  - intros ? ->%elem_of_single. constructor; auto.
    intros e e' He He' Hk. apply Hfrom in He' as [He'|(e0 & He0 & Heq)]; [by apply Hnw|].
    unfold ets, ekey in *. rewrite <- Heq in *. apply Hnew; [|done..]. apply elem_of_app; auto.
  - intros ? k0 ->%elem_of_single. cbn [snd]. rewrite !tkeys_unfold, !elem_of_app. cbn [tes tch].
    intros [?|(e & -> & He)%list_elem_of_fmap]; [auto|]. apply Hfrom in He as [He|(e0 & He0 & Heq)].
    + left; right. apply list_elem_of_fmap. eauto.
    + right. apply list_elem_of_fmap. exists e0. unfold ekey. rewrite Heq. auto.
  - intros k0. rewrite fentries_single, !entries_unfold. cbn [tes tch]. rewrite !msgs_app, !run_app.
    apply Hrun. intros Hl. destruct ch; [done|by cbn in Hl].
  - intros e. rewrite fentries_single, !entries_unfold. cbn [tes tch]. rewrite elem_of_app.
    setoid_rewrite elem_of_app. intros [He|[He|(e0 & He0 & Heq)]%Hfrom]; eauto 6.
  - cbn. lia.
  - rewrite fentries_single, !entries_unfold, !length_app. cbn [tes tch]. lia.
Qed.

(** ** Lowering the first pivot *)
Definition lower k ch : forest K V :=
  match ch with
  | [] => []
  | x :: ch' => if klt k x.1 then (k, x.2) :: ch' else ch
  end.

Lemma lower_first_pivot_spec ch es (mk : MessageKey K) :
  sorted ch → lower_first_pivot (MkNode (fpivots ch) es) mk = MkNode (fpivots (lower (mk_key mk) ch)) es.
Proof.
  destruct ch as [|[k0 [z0 t0]] ch]; intros Hs; [done|]. unfold lower_first_pivot, mkey_lt_key. cbn.
  destruct (klt (mk_key mk) k0) eqn:Hlt; [|done]. unfold set_pivots. cbn.
  rewrite klt_irrefl, (klt_asym _ _ Hlt). cbn. rewrite Hlt. cbn. by rewrite klt_irrefl.
Qed.

Lemma lower_cases k ch : lower k ch = ch ∨ ∃ x ch', ch = x :: ch' ∧ klt k x.1 = true ∧ lower k ch = (k, x.2) :: ch'.
Proof. destruct ch as [|x ch]; [by left|]. cbn. destruct (klt k x.1) eqn:E; [right; eauto|by left]. Qed.

Lemma lower_fentries k ch : fentries (lower k ch) = fentries ch.
Proof. by destruct (lower_cases k ch) as [->|(x & ch' & -> & _ & ->)]. Qed.
Lemma lower_fnodes k ch : fnodes (lower k ch) = fnodes ch.
Proof. by destruct (lower_cases k ch) as [->|(x & ch' & -> & _ & ->)]. Qed.
Lemma lower_fheight k ch : fheight (lower k ch) = fheight ch.
Proof. by destruct (lower_cases k ch) as [->|(x & ch' & -> & _ & ->)]. Qed.
Lemma lower_fleaves k ch : fleaves (lower k ch) = fleaves ch.
Proof. by destruct (lower_cases k ch) as [->|(x & ch' & -> & _ & ->)]. Qed.
Lemma lower_nil k ch : lower k ch = [] ↔ ch = [].
Proof. by destruct (lower_cases k ch) as [->|(x & ch' & -> & _ & ->)]. Qed.

Lemma lower_elem k ch x : x ∈ lower k ch → x ∈ ch ∨ ∃ y, y ∈ ch ∧ x = (k, y.2) ∧ klt k y.1 = true.
Proof.
  destruct (lower_cases k ch) as [->|(y & ch' & -> & Hlt & ->)]; [auto|].
  intros [->|Hx]%elem_of_cons; [right|left; apply elem_of_cons; auto].
  exists y. split_and!; [apply elem_of_cons; auto|done..].
Qed.

(** Afterwards the key has a child to go to. *)
Lemma lower_covers k ch : ch ≠ [] → ∃ x, x ∈ lower k ch ∧ klt k x.1 = false.
Proof.
  destruct ch as [|x ch]; [done|]. intros _. cbn. destruct (klt k x.1) eqn:E; eexists;
    (split; [apply elem_of_cons; left; reflexivity|]); [apply klt_irrefl|done].
Qed.

Lemma lower_ok k ch : forest_ok ch → forest_ok (lower k ch).
Proof.
  destruct (lower_cases k ch) as [->|(x & ch' & -> & Hlt & ->)]; [done|]. intros [Hs Hlo Hhi].
  apply sorted_cons in Hs as [Hx Hs]. split.
  - apply sorted_cons. split; [|done]. intros y Hy. cbn. eapply klt_trans; [done|by apply Hx].
  - intros y k0 [->|Hy]%elem_of_cons Hk; cbn in *.
    + apply klt_asym. eapply klt_le_trans; [done|]. apply (Hlo x); [apply elem_of_cons; auto|done].
    + apply (Hlo y); [apply elem_of_cons; auto|done].
  - intros y z k0 [->|Hy]%elem_of_cons [->|Hz]%elem_of_cons Hyz Hk; cbn in *.
    + by rewrite klt_irrefl in Hyz.
    + apply (Hhi x z); [apply elem_of_cons; auto..|by apply Hx|done].
    + rewrite (klt_asym k y.1) in Hyz; [done|]. eapply klt_trans; [done|by apply Hx].
    + apply (Hhi y z); [apply elem_of_cons; auto..|done|done].
Qed.

(** What routed to a child still does. *)
Lemma lower_routes k ch y k0 :
  sorted ch → y ∈ lower k ch → (∃ z, z ∈ ch ∧ klt k0 z.1 = false) → routes (lower k ch) y.1 k0 →
  ∃ x, x ∈ ch ∧ x.2 = y.2 ∧ routes ch x.1 k0.
Proof.
  destruct (lower_cases k ch) as [->|(x & ch' & -> & Hlt & ->)]; [eauto|].
  intros [Hx Hs]%sorted_cons Hy (z & Hz & Hk0) [Hr1 Hr2].
  assert (klt k0 x.1 = false) as Hk0x.
  { apply elem_of_cons in Hz as [->|Hz]; [done|]. apply klt_asym. eapply klt_le_trans; [by apply Hx|done]. }
  apply elem_of_cons in Hy as [->|Hy].
  - exists x. split_and!; [apply elem_of_cons; auto|done|]. split; [done|].
    intros w [->|Hw]%elem_of_cons Hxw; [by rewrite klt_irrefl in Hxw|].
    apply Hr2; [apply elem_of_cons; auto|]. cbn. by eapply klt_trans.
  - exists y. split_and!; [apply elem_of_cons; auto|done|]. split; [done|].
    intros w [->|Hw]%elem_of_cons Hxw; [|apply Hr2; [apply elem_of_cons; auto|done]].
    rewrite (klt_asym x.1 y.1) in Hxw; [done|by apply Hx].
Qed.

Lemma lower_covered k ch es : sorted ch → covered es ch → covered es (lower k ch).
Proof.
  intros Hs [->|Hcov]; [by left|right]. intros e He. destruct (Hcov e He) as (x & Hx & Hk).
  destruct (lower_cases k ch) as [->|(y & ch' & -> & Hlt & ->)]; [eauto|].
  apply elem_of_cons in Hx as [->|Hx].
  - exists (k, y.2). split; [apply elem_of_cons; auto|]. cbn. apply klt_asym. by eapply klt_le_trans.
  - exists x. split; [apply elem_of_cons; auto|done].
Qed.

Lemma lower_wf i es ch k : wf (Tree i es ch) → wf (Tree i es (lower k ch)).
Proof.
  intros Hwf. destruct (wf_inv _ Hwf) as (Hb & Hf & Hc & Hn & Hch). cbn [tes tch] in *. constructor.
  - destruct (lower_cases k ch) as [->|(x & ch' & -> & _ & ->)]; done.
  - by apply lower_ok.
  - apply lower_covered; [apply Hf|done].
  - by rewrite lower_fentries.
  - intros x [Hx|(y & Hy & -> & _)]%lower_elem; [auto|exact (Hch y Hy)].
Qed.

Lemma lower_tkeys i es ch k k0 :
  k0 ∈ tkeys (Tree i es (lower k ch)) → k0 ∈ tkeys (Tree i es ch) ∨ k0 = k.
Proof.
  rewrite !tkeys_unfold, !elem_of_app. cbn [tes tch]. intros [Hk|Hk]; [|auto].
  apply elem_of_fkeys in Hk as (x & Hx & Hk). apply lower_elem in Hx as [Hx|(y & Hy & -> & _)].
  - left; left. apply elem_of_fkeys. eauto.
  - cbn in Hk. destruct Hk as [->|Hk]; [auto|]. left; left. apply elem_of_fkeys. eauto.
Qed.

Lemma lower_drained (D : N → Prop) i es ch k :
  wf (Tree i es ch) → drained D (Tree i es ch) → drained D (Tree i es (lower k ch)).
Proof.
  intros Hwf Hd. destruct (wf_inv _ Hwf) as (_ & Hf & Hc & _). cbn [tes tch] in *.
  inversion Hd as [? ? ? Hd1 Hd2]; subst. constructor.
  - intros y Hy Hdy e He Hr.
    destruct (lower_routes k ch y (ekey e)) as (x & Hx & Heq & Hrx); [apply Hf|done| |done|].
    + destruct Hc as [->|Hc]; [by apply elem_of_nil in Hy|auto].
    + apply (Hd1 x Hx) with e; [by rewrite Heq|done|done].
  - intros x [Hx|(y & Hy & -> & _)]%lower_elem; [auto|exact (Hd2 y Hy)].
Qed.

(** ** Replacing a child *)

(** [k] is in the range of pivot [p], the next pivots being those of [post]. *)
Definition in_range (p : K) (post : forest K V) k : bool :=
  negb (klt k p) && match post with [] => true | y :: _ => klt k y.1 end.

Lemma in_range_routes pre x post k :
  sorted (pre ++ x :: post) → in_range x.1 post k = true ↔ routes (pre ++ x :: post) x.1 k.
Proof.
  intros (_ & Hs & Hpre)%sorted_app. apply sorted_cons in Hs as [Hx Hs]. unfold in_range, routes.
  rewrite andb_true_iff, negb_true_iff. split; intros [Hk Hr]; (split; [done|]).
  - intros y [Hy|[->|Hy]%elem_of_cons]%elem_of_app Hlt.
    + rewrite (klt_asym y.1 x.1) in Hlt; [done|]. apply Hpre; [done|apply elem_of_cons; auto].
    + by rewrite klt_irrefl in Hlt.
    + destruct post as [|z post]; [by apply elem_of_nil in Hy|]. apply sorted_cons in Hs as [Hz _].
      apply elem_of_cons in Hy as [->|Hy]; [done|]. eapply klt_trans; [done|by apply Hz].
  - destruct post as [|z post]; [done|]. apply Hr; [|apply Hx, elem_of_cons; auto].
    apply elem_of_app; right. apply elem_of_cons; right. apply elem_of_cons; auto.
Qed.

Section replace.
Context (d : V) (i : N) (es es' B : message_map K V) (pre post G : forest K V) (x : K * (Z * tree K V)).
Notation ch := (pre ++ x :: post).
Notation ch' := (pre ++ G ++ post).
Notation ours := (in_range x.1 post).
Context (Hwf : wf (Tree i es ch)) (HB : ∀ e, e ∈ B → ours (ekey e) = true)
        (Hsub : ∀ e, e ∈ es' → e ∈ es ∧ ours (ekey e) = false) (Hes' : sorted es')
        (Hkept : ∀ k, ours k = false → msgs k es' = msgs k es)
        (HG : carries d x.2.2 B G) (Hok : forest_ok G) (Hne : G ≠ [])
        (Hkeys : ∀ y, y ∈ G → y.1 = x.1 ∨ y.1 ∈ tkeys x.2.2 ∨ y.1 ∈ ekey <$> B).

Lemma replace_parts : forest_ok ch ∧ sorted pre ∧ sorted post ∧
  (∀ y, y ∈ pre → klt y.1 x.1 = true) ∧ (∀ y, y ∈ post → klt x.1 y.1 = true).
Proof.
  destruct (wf_inv _ Hwf) as (_ & Hf & _). cbn [tch] in Hf. split; [done|].
  pose proof (fo_sorted _ Hf) as (Hs1 & [Hs2 Hs3]%sorted_cons & Hs4)%sorted_app.
  split_and!; [done..| |done]. intros y Hy. apply Hs4; [done|apply elem_of_cons; auto].
Qed.

Lemma x_in_ch : x ∈ ch.
Proof. apply elem_of_app; right. apply elem_of_cons; auto. Qed.

(** Every key below the new children is in the range of the old one. *)
Lemma replace_range y k : y ∈ G → k = y.1 ∨ k ∈ tkeys y.2.2 → ours k = true.
Proof.
  destruct replace_parts as (Hf & _). intros Hy Hk.
  assert (k = x.1 ∨ k ∈ tkeys x.2.2 ∨ k ∈ ekey <$> B) as Hk'.
  { destruct Hk as [->|Hk]; [by apply Hkeys|]. right. by apply (ca_keys _ _ _ _ HG y). }
  apply in_range_routes with (pre := pre); [apply Hf|].
  destruct Hk' as [->|[Hk'|(e & -> & He)%list_elem_of_fmap]].
  - split; [apply klt_irrefl|done].
  - apply tkeys_routes; [done|apply x_in_ch|done].
  - apply in_range_routes; [apply Hf|by apply HB].
Qed.

Lemma ours_bounds k : ours k = true →
  klt k x.1 = false ∧ (∀ y, y ∈ post → klt k y.1 = true) ∧ (∀ y, y ∈ pre → klt y.1 k = true).
Proof.
  destruct replace_parts as (Hf & _ & _ & Hpre & Hpost). intros Hk.
  apply (in_range_routes pre) in Hk as [Hk1 Hk2]; [|apply Hf]. split_and!; [done|..].
  - intros y Hy. apply Hk2; [|by apply Hpost]. apply elem_of_app; right. apply elem_of_cons; auto.
  - intros y Hy. eapply klt_le_trans; [by apply Hpre|done].
Qed.

Lemma replace_ok : forest_ok ch'.
Proof.
  destruct replace_parts as (Hf & Hs1 & Hs2 & Hpre & Hpost).
  assert (∀ y k, y ∈ G → k = y.1 ∨ k ∈ tkeys y.2.2 →
     klt k x.1 = false ∧ (∀ z, z ∈ post → klt k z.1 = true) ∧ (∀ z, z ∈ pre → klt z.1 k = true)) as Hr
    by (intros; eapply ours_bounds, replace_range; eauto).
  assert (∀ y, y ∈ pre ++ post → y ∈ ch) as Hin.
  { intros y [?|?]%elem_of_app; apply elem_of_app; [auto|right; apply elem_of_cons; auto]. }
  split.
  - apply sorted_app. split_and!; [done|apply sorted_app; split_and!|].
    + apply Hok.
    + done.
    + intros y z Hy Hz. apply (Hr y y.1); auto.
    + intros y z Hy [Hz|Hz]%elem_of_app; [apply (Hr z z.1); auto|].
      eapply klt_trans; [by apply Hpre|by apply Hpost].
  - intros y k [Hy|[Hy|Hy]%elem_of_app]%elem_of_app Hk; [|by apply (fo_lo _ Hok)|];
      apply (fo_lo _ Hf y); auto; apply Hin, elem_of_app; auto.
  - intros y z k [Hy|[Hy|Hy]%elem_of_app]%elem_of_app [Hz|[Hz|Hz]%elem_of_app]%elem_of_app Hlt Hk;
      try (apply (fo_hi _ Hf y z); auto; apply Hin, elem_of_app; auto; fail).
    + (* [y] before the new children *)
      assert (klt k x.1 = true) as Hkx.
      { apply (fo_hi _ Hf y x); [apply Hin, elem_of_app; auto|apply x_in_ch|by apply Hpre|done]. }
      eapply klt_le_trans; [done|]. apply (Hr z z.1); auto.
    + destruct (Hr y k) as (_ & _ & Hb); [auto..|]. destruct (Hr y y.1) as (_ & _ & Hb'); [auto..|].
      rewrite (klt_asym z.1 y.1) in Hlt; [done|auto].
    + by apply (fo_hi _ Hok y z).
    + destruct (Hr y k) as (_ & Hb & _); auto.
    + destruct (Hr z z.1) as (_ & Hb & _); [auto..|]. rewrite (klt_asym z.1 y.1) in Hlt; [done|auto].
Qed.

Lemma replace_elem y : y ∈ ch' ↔ y ∈ pre ∨ y ∈ G ∨ y ∈ post.
Proof. by rewrite !elem_of_app. Qed.

Lemma replace_covered : covered es' ch'.
Proof.
  destruct (wf_inv _ Hwf) as (_ & _ & Hc & _). cbn [tes tch] in Hc. right. intros e He.
  destruct (Hsub e He) as [He' Hours]. destruct Hc as [Hnil|Hc]; [by destruct pre|].
  destruct (Hc e He') as (y & Hy & Hk). apply elem_of_app in Hy as [Hy|[->|Hy]%elem_of_cons].
  - exists y. split; [apply replace_elem; auto|done].
  - unfold in_range in Hours. rewrite Hk in Hours. cbn in Hours. destruct post as [|z post']; [done|].
    exists z. split; [|done]. apply elem_of_app; right. apply elem_of_app; right. apply elem_of_cons; auto.
  - exists y. split; [apply replace_elem; auto|done].
Qed.

Lemma replace_entry e : e ∈ fentries ch' → e ∈ fentries ch ∨ e ∈ fentries G ∧ ours (ekey e) = true.
Proof.
  rewrite !elem_of_fentries. intros (y & Hy & He).
  apply replace_elem in Hy as [Hy|[Hy|Hy]].
  - left. exists y. split; [apply elem_of_app; auto|done].
  - right. split; [by exists y|]. eapply replace_range; [done|]. right. by apply entries_tkeys.
  - left. exists y. split; [apply elem_of_app; right; apply elem_of_cons; auto|done].
Qed.

Lemma replace_wf : wf (Tree i es' ch').
Proof.
  destruct (wf_inv _ Hwf) as (Hb & _ & _ & Hn & Hch). cbn [tes tch] in *.
  assert (∀ k, msgs k es' = [] ∨ msgs k es' = msgs k es) as Hm.
  { intros k. destruct (ours k) eqn:Ek; [left|right; by apply Hkept].
    apply msgs_nil. intros e He <-. destruct (Hsub e He). congruence. }
  constructor.
  - split; [done| | |].
    + intros e He. apply (buf_ts _ _ Hb). by apply Hsub.
    + intros k. destruct (Hm k) as [->| ->]; [done|apply Hb].
    + intros k Hl. exfalso. clear -Hl Hne. destruct pre, G; done.
  - apply replace_ok.
  - apply replace_covered.
  - intros e e' He He' Hk. destruct (Hsub e' He') as [He'' Ho].
    apply replace_entry in He as [He|[_ Ho']]; [by apply Hn|congruence].
  - intros y [Hy|[Hy|Hy]]%replace_elem.
    + apply Hch, elem_of_app; auto.
    + by apply (ca_wf _ _ _ _ HG).
    + apply Hch, elem_of_app; right; apply elem_of_cons; auto.
Qed.

Lemma replace_msgs_ours k : ours k = true →
  msgs k (fentries ch) = msgs k (entries x.2.2) ∧ msgs k (fentries ch') = msgs k (fentries G).
Proof.
  destruct replace_parts as (Hf & _). intros Hk.
  assert (msgs k (fentries ch) = msgs k (entries x.2.2)) as Hx.
  { apply msgs_routes; [done|apply x_in_ch|]. apply in_range_routes; [apply Hf|done]. }
  split; [done|]. rewrite fentries_app, fentries_cons, !msgs_app in Hx.
  rewrite !fentries_app, !msgs_app. apply (f_equal length) in Hx. rewrite !length_app in Hx.
  rewrite (nil_length_inv (msgs k (fentries pre))), (nil_length_inv (msgs k (fentries post))) by lia.
  apply app_nil_r.
Qed.

Lemma replace_msgs_other k : ours k = false → msgs k (fentries ch') = msgs k (fentries ch).
Proof.
  destruct replace_parts as (Hf & _). intros Hk.
  rewrite !fentries_app, fentries_cons, !msgs_app.
  rewrite (msgs_nil k (fentries G)), (msgs_nil k (entries x.2.2)); [done|..].
  - intros e He%entries_tkeys <-. apply (tkeys_routes ch) in He; [|done|apply x_in_ch].
    apply in_range_routes in He; [congruence|apply Hf].
  - intros e (y & Hy & He%entries_tkeys)%elem_of_fentries <-.
    rewrite (replace_range y (ekey e)) in Hk by auto. done.
Qed.

Lemma replace_drained (D D' : N → Prop) :
  drained D (Tree i es ch) → (∀ y j, y ∈ pre ++ post → j ∈ ids y.2.2 → D' j → D j) →
  (∀ y, y ∈ G → drained D' y.2.2) → drained D' (Tree i es' ch').
Proof.
  intros Hd HD HGd. inversion Hd as [? ? ? Hd1 Hd2]; subst.
  destruct replace_parts as (Hf & _ & _ & Hpre & Hpost).
  assert (∀ e, e ∈ es' → klt (ekey e) x.1 = false → (∀ z, z ∈ post → klt (ekey e) z.1 = true) → False) as Hno.
  { intros e He Hge Hlt. destruct (Hsub e He) as [_ Ho]. unfold in_range in Ho. rewrite Hge in Ho. cbn in Ho.
    destruct post as [|z post']; [done|]. rewrite (Hlt z) in Ho; [done|apply elem_of_cons; auto]. }
  assert (∀ y, y ∈ pre ++ post → D' (tid y.2.2) → ∀ e, e ∈ es' → ¬ routes ch' y.1 (ekey e)) as Hold.
  { intros y Hy Hdy e He [Hr1 Hr2]. destruct (Hsub e He) as [Hes _].
    assert (y ∈ ch) as Hych by (apply elem_of_app in Hy as [|]; apply elem_of_app; [auto|right; apply elem_of_cons; auto]).
    apply (Hd1 y Hych) with e; [by eapply HD, Hdy; [|apply tid_in_ids]|done|]. split; [done|].
    intros z [Hz|[->|Hz]%elem_of_cons]%elem_of_app Hlt; [apply Hr2; [apply replace_elem; auto|done]| |apply Hr2; [apply replace_elem; auto|done]].
    destruct (klt (ekey e) x.1) eqn:Hex; [done|]. exfalso. apply (Hno e He Hex). intros z Hz.
    apply Hr2; [apply replace_elem; auto|]. eapply klt_trans; [done|by apply Hpost]. }
  constructor.
  - intros y [Hy|[Hy|Hy]]%replace_elem Hdy e He; [apply Hold; [apply elem_of_app; auto|done..]| |
      apply Hold; [apply elem_of_app; auto|done..]].
    intros [Hr1 Hr2]. destruct (ours_bounds y.1) as (Hb1 & Hb2 & _); [eapply replace_range; eauto|].
    apply (Hno e He).
    + destruct (klt (ekey e) x.1) eqn:Hex; [|done]. rewrite <- Hr1. symmetry. by eapply klt_le_trans.
    + intros z Hz. apply Hr2; [apply replace_elem; auto|auto].
  - intros y [Hy|[Hy|Hy]]%replace_elem; [|by apply HGd|].
    + eapply drained_frame; [apply Hd2, elem_of_app; auto|]. intros j. apply (HD y), elem_of_app; auto.
    + eapply drained_frame; [apply Hd2, elem_of_app; right; apply elem_of_cons; auto|].
      intros j. apply (HD y), elem_of_app; auto.
Qed.

Context (elts : message_map K V) (HBin : ∀ e, e ∈ B → e ∈ es ∨ e ∈ elts)
        (Hours : ∀ k o, ours k = true → run d (msgs k B) o = run d (msgs k elts) (run d (msgs k es) o))
        (Hother : ∀ k, ours k = false → msgs k elts = [])
        (Hlen : length B + length es' ≤ length es + length elts).

Lemma replace_keys k : k ∈ tkeys (Tree i es' ch') → k ∈ tkeys (Tree i es ch) ∨ k ∈ ekey <$> elts.
Proof.
  rewrite !tkeys_unfold, !elem_of_app. cbn [tes tch].
  assert (∀ e, e ∈ B → k = ekey e → (k ∈ fkeys ch ∨ k ∈ ekey <$> es) ∨ k ∈ ekey <$> elts) as HBk.
  { intros e He ->. destruct (HBin e He); [left; right|right]; apply list_elem_of_fmap; eauto. }
  intros [(y & Hy & Hk)%elem_of_fkeys|(e & -> & He)%list_elem_of_fmap].
  2:{ left; right. apply list_elem_of_fmap. exists e. split; [done|]. by apply Hsub. }
  apply replace_elem in Hy as [Hy|[Hy|Hy]].
  - left; left. apply elem_of_fkeys. exists y. split; [apply elem_of_app; auto|done].
  - assert (k = x.1 ∨ k ∈ tkeys x.2.2 ∨ k ∈ ekey <$> B) as [Hk'|[Hk'|(e & -> & He)%list_elem_of_fmap]].
    { destruct Hk as [->|Hk]; [by apply Hkeys|right]. by apply (ca_keys _ _ _ _ HG y). }
    3: by eapply HBk.
    all: left; left; apply elem_of_fkeys; exists x; split; [apply x_in_ch|auto].
  - left; left. apply elem_of_fkeys. exists y. split; [apply elem_of_app; right; apply elem_of_cons; auto|done].
Qed.

Lemma replace_run k :
  run d (msgs k (entries (Tree i es' ch'))) None = run d (msgs k elts) (run d (msgs k (entries (Tree i es ch))) None).
Proof.
  rewrite !entries_unfold. cbn [tes tch]. rewrite !msgs_app, !run_app. destruct (ours k) eqn:Ek.
  - destruct (replace_msgs_ours k Ek) as [-> ->]. rewrite (msgs_nil k es').
    2:{ intros e He <-. destruct (Hsub e He). congruence. }
    cbn [run foldl]. rewrite (ca_run _ _ _ _ HG). by apply Hours.
  - rewrite (replace_msgs_other k Ek), (Hother k Ek), (Hkept k Ek). done.
Qed.

Lemma replace_carries k sz : carries d (Tree i es ch) elts (single k sz (Tree i es' ch')).
Proof.
  split.
  - intros ? ->%elem_of_single. apply replace_wf.
  - intros ? k0 ->%elem_of_single. apply replace_keys.
  - intros k0. rewrite fentries_single. apply replace_run.
  - intros e. rewrite fentries_single, !entries_unfold. cbn [tes tch]. setoid_rewrite elem_of_app.
    intros [He|He]; [|destruct (Hsub e He); eauto 6].
    apply replace_entry in He as [He|[He _]]; [eauto 6|].
    destruct (ca_from _ _ _ _ HG e He) as (e0 & [He0|He0] & Heq); exists e0; (split; [|done]).
    + left; left. apply elem_of_fentries. exists x. split; [apply x_in_ch|done].
    + destruct (HBin e0 He0); auto.
  - pose proof (ca_height _ _ _ _ HG) as Hh. cbn [single fheight foldr snd]. rewrite !height_unfold. cbn [tch].
    rewrite !fheight_app. change (x :: post) with ([x] ++ post). rewrite fheight_app. cbn [fheight foldr]. lia.
  - pose proof (ca_len _ _ _ _ HG) as Hl. rewrite fentries_single, !entries_unfold. cbn [tes tch].
    rewrite !fentries_app, fentries_cons, !length_app. lia.
Qed.

End replace.

(** ** Sizes recorded with the pivots *)
Definition set_size (p : K) (sz : Z) ch : forest K V :=
  map (λ x : K * (Z * tree K V), if keq x.1 p then (x.1, (sz, x.2.2)) else x) ch.

Lemma set_size_fpivots p sz ch : set_child_size (fpivots ch) p sz = fpivots (set_size p sz ch).
Proof.
  unfold set_child_size, fpivots, set_size. induction ch as [|x ch IH]; [done|]. cbn. rewrite IH.
  by destruct (keq x.1 p).
Qed.

Lemma set_size_elem p sz ch y : y ∈ set_size p sz ch → ∃ x, x ∈ ch ∧ y.1 = x.1 ∧ y.2.2 = x.2.2.
Proof. intros (x & -> & Hx)%list_elem_of_fmap. exists x. by destruct (keq x.1 p). Qed.

Lemma set_size_elem_inv p sz ch x : x ∈ ch → ∃ y, y ∈ set_size p sz ch ∧ y.1 = x.1 ∧ y.2.2 = x.2.2.
Proof.
  intros Hx. eexists. split; [by apply list_elem_of_fmap; exists x|]. by destruct (keq x.1 p).
Qed.

Lemma set_size_fnodes p sz ch : fnodes (set_size p sz ch) = fnodes ch.
Proof.
  unfold fnodes, set_size. induction ch as [|x ch IH]; [done|]. cbn. rewrite IH. by destruct (keq x.1 p).
Qed.
Lemma set_size_fentries p sz ch : fentries (set_size p sz ch) = fentries ch.
Proof.
  unfold fentries, set_size. induction ch as [|x ch IH]; [done|]. cbn. rewrite IH. by destruct (keq x.1 p).
Qed.
Lemma set_size_fheight p sz ch : fheight (set_size p sz ch) = fheight ch.
Proof.
  unfold fheight, set_size. induction ch as [|x ch IH]; [done|]. cbn. rewrite IH. by destruct (keq x.1 p).
Qed.
Lemma set_size_fkeys p sz ch : fkeys (set_size p sz ch) = fkeys ch.
Proof.
  unfold fkeys, set_size. induction ch as [|x ch IH]; [done|]. cbn. rewrite IH. by destruct (keq x.1 p).
Qed.
Lemma set_size_fleaves p sz ch : fleaves (set_size p sz ch) = fleaves ch.
Proof.
  unfold fleaves, set_size. induction ch as [|x ch IH]; [done|]. cbn. rewrite IH. by destruct (keq x.1 p).
Qed.
Lemma set_size_nil p sz ch : set_size p sz ch = [] ↔ ch = [].
Proof. by destruct ch. Qed.

Lemma set_size_sorted p sz ch : sorted ch → sorted (set_size p sz ch).
Proof.
  induction ch as [|x ch IH]; [done|]. intros [Hx Hs]%sorted_cons. cbn [set_size map]. apply sorted_cons.
  split; [|by apply IH]. intros y (z & Hz & -> & _)%set_size_elem. specialize (Hx z Hz).
  by destruct (keq x.1 p).
Qed.

Lemma set_size_routes p sz ch q k : routes (set_size p sz ch) q k ↔ routes ch q k.
Proof.
  unfold routes. split; intros [Hq Hr]; (split; [done|]); intros x Hx.
  - destruct (set_size_elem_inv p sz ch x Hx) as (y & Hy & <- & _). by apply Hr.
  - destruct (set_size_elem p sz ch x Hx) as (y & Hy & -> & _). by apply Hr.
Qed.

Lemma set_size_wf p sz i es ch : wf (Tree i es ch) → wf (Tree i es (set_size p sz ch)).
Proof.
  intros Hwf. destruct (wf_inv _ Hwf) as (Hb & [Hs Hlo Hhi] & Hc & Hn & Hch). cbn [tes tch] in *.
  pose proof (set_size_elem p sz ch) as Hin. constructor.
  - destruct ch; done.
  - split; [by apply set_size_sorted|..].
    + intros y k (x & Hx & -> & ->)%Hin. eauto.
    + intros y z k (x & Hx & Hk1 & Hk2)%Hin (w & Hw & Hk3 & _)%Hin. rewrite Hk1, Hk2, Hk3. eauto.
  - destruct Hc as [->|Hc]; [by left|right]. intros e He. destruct (Hc e He) as (x & Hx & Hk).
    destruct (set_size_elem_inv p sz ch x Hx) as (y & Hy & Hk' & _). exists y. by rewrite Hk'.
  - by rewrite set_size_fentries.
  - intros y (x & Hx & _ & ->)%Hin. auto.
Qed.

Lemma set_size_carries d p sz i es ch k z :
  wf (Tree i es ch) → carries d (Tree i es ch) [] (single k z (Tree i es (set_size p sz ch))).
Proof.
  intros Hwf.
  assert (entries (Tree i es (set_size p sz ch)) = entries (Tree i es ch)) as He
    by (rewrite !entries_unfold; cbn [tes tch]; by rewrite set_size_fentries).
  split.
  - intros ? ->%elem_of_single. by apply set_size_wf.
  - intros ? k0 ->%elem_of_single. cbn [snd]. rewrite !tkeys_unfold. cbn [tes tch]. rewrite set_size_fkeys. auto.
  - intros k0. by rewrite fentries_single, He.
  - intros e. rewrite fentries_single, He. eauto.
  - cbn [single fheight foldr snd]. rewrite !height_unfold. cbn [tch]. rewrite set_size_fheight. lia.
  - rewrite fentries_single, He. lia.
Qed.

Lemma set_size_drained (D : N → Prop) p sz i es ch :
  drained D (Tree i es ch) → drained D (Tree i es (set_size p sz ch)).
Proof.
  intros Hd. inversion Hd as [? ? ? Hd1 Hd2]; subst. constructor.
  - intros y (x & Hx & Hk & ->)%set_size_elem Hdx e He. rewrite Hk, set_size_routes. eauto.
  - intros y (x & Hx & _ & ->)%set_size_elem. auto.
Qed.
End grown.
