(* ===== verification/FlushNode.v ===== *)
(** * Node-level steps of [flush]

    The messages for one child as a range of the buffer, the child with the most
    of them, and the edits of the pivot map. *)
From Stdlib Require Import ZArith Lia.
From stdpp Require Import prelude gmap.
From S2P Require Import Prelude StdMap Message NodeStore BeTree MessageSem Tree NodeLemmas Grown.

Section flush_node.
Context {K V : Type} `{KeyOrder K} `{ValueOps V}.
Implicit Types (ch pre post : forest K V) (es : message_map K V) (k : K) (x : K * (Z * tree K V)).

(** The iterator after the pivot of [x]. *)
Definition next_key post : option K := fst <$> head (fpivots post).

Lemma next_pivot_middle pre x post :
  sorted (pre ++ x :: post) → next_pivot (fpivots (pre ++ x :: post)) x.1 = next_key post.
Proof.
  induction pre as [|y pre IH]; intros Hs; cbn.
  - by rewrite keq_refl.
  - apply sorted_cons in Hs as [Hy Hs]. 
    assert (keq y.1 x.1 = false) as ->; [|by apply IH].
    apply keq_ne, klt_ne, Hy, elem_of_app. right. apply elem_of_cons; auto.
Qed.

Lemma replace_pivot_middle pre x post G es :
  sorted (pre ++ x :: post) → sorted (pre ++ G ++ post) →
  replace_pivot (MkNode (fpivots (pre ++ x :: post)) es) x.1 (fpivots G) = MkNode (fpivots (pre ++ G ++ post)) es.
Proof.
  intros Hs Hs'. apply sorted_fpivots in Hs, Hs'. unfold replace_pivot, set_pivots. cbn [pivots elements]. f_equal.
  rewrite !fpivots_app in *. change (fpivots (x :: post)) with ((x.1, MkChildInfo (tid x.2.2) x.2.1) :: fpivots post) in *.
  rewrite map_erase_middle by done. by apply map_insert_range_middle.
Qed.

Section range.
Context (es : message_map K V) (pre post : forest K V) (x : K * (Z * tree K V)).
Notation n := (MkNode (fpivots (pre ++ x :: post)) es).
Notation ours := (λ e : MessageKey K * Message V, in_range x.1 post (ekey e)).
Context (Hs : sorted (pre ++ x :: post)) (Hes : sorted es)
        (Hts : ∀ e, e ∈ es → (0 < ets e <= UINT64_MAX)%Z).

Lemma next_above z : head post = Some z → klt x.1 z.1 = true.
Proof.
  intros Hz. apply sorted_app in Hs as (_ & [Hx _]%sorted_cons & _). destruct post as [|y post']; [done|].
  injection Hz as ->. apply Hx, elem_of_cons; auto.
Qed.

Lemma range_from :
  get_element_begin n x.1 = List.filter ours es ++ get_element_begin_it n (next_key post).
Proof.
  rewrite get_element_begin_filter by done. cbn [elements]. unfold next_key, in_range.
  pose proof next_above as Hz. destruct post as [|z post']; cbn.
  - rewrite app_nil_r. apply lfilter_ext. intros e _. by rewrite andb_true_r.
  - rewrite get_element_begin_filter by done. cbn [elements]. specialize (Hz z eq_refl).
    rewrite sorted_filter_app; [|done|].
    + apply lfilter_ext. intros e _. destruct (klt (ekey e) x.1) eqn:E1; cbn.
      * rewrite (klt_trans _ _ _ E1 Hz). done.
      * by destruct (klt (ekey e) z.1).
    + intros a b _ _ [_ Ha]%andb_true_iff Hb%negb_true_iff. apply mkey_lt_spec. left. by eapply klt_le_trans.
Qed.

Lemma range_all :
  es = List.filter (λ e, klt (ekey e) x.1) es ++ List.filter ours es ++ get_element_begin_it n (next_key post).
Proof. rewrite <- range_from, get_element_begin_filter by done. by apply cut_at. Qed.

Lemma range_between :
  messages_between (get_element_begin n x.1) (get_element_begin_it n (next_key post)) = List.filter ours es.
Proof.
  unfold messages_between. rewrite range_from, length_app, Nat.add_sub. apply take_app_length.
Qed.

Lemma range_erase :
  erase_between es (get_element_begin n x.1) (get_element_begin_it n (next_key post)) =
  List.filter (λ e, negb (ours e)) es.
Proof.
  unfold erase_between. rewrite range_from.
  set (A := List.filter (λ e, klt (ekey e) x.1) es). set (B := List.filter ours es).
  set (C := get_element_begin_it n (next_key post)).
  assert (length es = length A + length (B ++ C)) as Hl by (rewrite range_all at 1; by rewrite length_app).
  rewrite Hl, Nat.add_sub. rewrite range_all at 1. fold A B C. rewrite take_app_length.
  subst A C. unfold next_key, in_range. pose proof next_above as Hz. destruct post as [|z post']; cbn.
  - rewrite app_nil_r. apply lfilter_ext. intros e _. by rewrite andb_true_r, negb_involutive.
  - rewrite get_element_begin_filter by done. cbn [elements]. specialize (Hz z eq_refl).
    rewrite sorted_filter_app; [|done|].
    + apply lfilter_ext. intros e _. destruct (klt (ekey e) x.1) eqn:E1; cbn; [done|]. done.
    + intros a b _ _ Ha Hb%negb_true_iff. apply mkey_lt_spec. left. eapply klt_le_trans; [|done].
      by eapply klt_trans.
Qed.
End range.

(** ** The largest child *)
Section largest.
Context (es : message_map K V) (ch : forest K V).
Notation n := (MkNode (fpivots ch) es).
Context (Hs : sorted ch) (Hes : sorted es) (Hts : ∀ e, e ∈ es → (0 < ets e <= UINT64_MAX)%Z).

(** A candidate: some child, and the number of its messages. *)
Definition candidate (b : Z * (K * child_info) * option K) : Prop :=
  (b.1.1 <= Z.of_nat (length es))%Z ∧
  (b.1.1 = 0%Z ∨ ∃ pre x post, ch = pre ++ x :: post ∧ b.1.2 = pivot_of x ∧ b.2 = next_key post ∧
     List.filter (λ e, in_range x.1 post (ekey e)) es ≠ []).

Lemma largest_child_spec : ∀ todo done best,
  ch = done ++ todo → candidate best →
  ∃ b, largest_child n (fpivots todo) best = Some b ∧ candidate b.
Proof.
  induction todo as [|x post IH]; intros pre best Hch Hbest; cbn [largest_child fpivots fmap list_fmap].
  { eauto. }
  assert (distance (get_element_begin n x.1) (get_element_begin_it n (next_key post)) =
          Some (Z.of_nat (length (List.filter (λ e, in_range x.1 post (ekey e)) es)))) as Hd.
  { rewrite Hch in Hs |- *. rewrite range_from by done. unfold distance. rewrite length_app.
    destruct (Nat.leb_spec (length (get_element_begin_it (MkNode (fpivots (pre ++ x :: post)) es) (next_key post)))
      (length (List.filter (λ e, in_range x.1 post (ekey e)) es) +
       length (get_element_begin_it (MkNode (fpivots (pre ++ x :: post)) es) (next_key post)))); [|lia].
    f_equal. lia. }
  change (pivot_of <$> post) with (fpivots post). fold (next_key post). cbn [fst pivot_of]. rewrite Hd. cbn [mbind option_bind].
  apply (IH (pre ++ [x])); [by rewrite <- app_assoc|].
  set (l := List.filter _ es) in *.
  destruct (Z.ltb_spec best.1.1 (wrap32 (Z.of_nat (length l)))) as [Hlt|_]; [|done].
  assert (length l ≤ length es) by apply length_lfilter_le.
  assert (wrap32 (Z.of_nat (length l)) <= Z.of_nat (length l))%Z by (apply Z.mod_le; lia).
  split; cbn [fst snd]; [lia|]. destruct l as [|e l'] eqn:El; [left; done|right].
  exists pre, x, post. split_and!; [done..|]. unfold l in El. by rewrite El.
Qed.
End largest.
End flush_node.
