(* ===== verification/FlushProof.v ===== *)
(** * [node::flush]

    [flush] turns a well-formed subtree into a well-formed subtree, or the forest
    it was split into, that means the old one followed by the new messages; it
    writes only nodes of the subtree and new ones.  With fuel for the height of
    the tree it never runs out of it.  On a path of single messages it never fails
    an assertion either ([careful]). *)
From Stdlib Require Import ZArith Lia.
From stdpp Require Import prelude gmap.
From S2P Require Import Prelude StdMap Message NodeStore BeTree MessageSem Tree NodeLemmas.
From S2P Require Import SplitProof SplitForest Grown FlushNode.

#[local] Open Scope cpp_scope.

Section flush_proof.
Context {K V : Type} `{KeyOrder K} `{ValueOps V}.
Context {St : Type} `{StoreOps St (node K V)} `{!Store St (node K V)}.
Implicit Types (s : St) (ch pre post G : forest K V) (es elts B : message_map K V) (n : node K V) (t : tree K V)
  (x y : K * (Z * tree K V)).

(** The store holds [t]; its root, and nothing below, is pinned, and marked dirty, by the caller. *)
Record holds s t : Prop := {
  ho_inv : st_inv s;
  ho_rep : rep (st_view s) t;
  ho_nodup : NoDup (ids t);
  ho_pin : 0 < st_pins s (tid t);
  ho_dirty : st_dirty s (tid t);
  ho_free j : j ∈ fids (tch t) → st_pins s j = 0;
}.

Definition id_set t : gset N := list_to_set (ids t).

Record flushed (bet : betree V) s s' t elts G (r : pivot_map K) : Prop := {
  fl_carries : carries (default_value bet) t elts G;
  fl_stored : stored (st_view s) (st_view s') t G;
  fl_ev : evolves (id_set t) s s';
  fl_result :
    (r = [] ∧ ∃ k z t', tid t' = tid t ∧ G = single k z t') ∨
    (r = fpivots G ∧ G ≠ [] ∧ forest_ok G ∧ (∀ y, y ∈ G → y.1 ∈ tkeys t ∨ y.1 ∈ ekey <$> elts) ∧
     st_view s' !! tid t = Some empty_node ∧ tid t ∉ fids G);
}.

(** One message at a time into a small tree in which nothing waits for a dirty child. *)
Record careful (bet : betree V) s t elts : Prop := {
  cf_one : length elts = 1;
  cf_max : (3 <= max_node_size bet < 2 ^ 59)%Z;
  cf_flush : (2 * (Z.of_nat (length (entries t)) + 1) <= min_flush_size bet)%Z;
  cf_size : (Z.of_nat (leaves t + length (entries t)) + 1 < 2 ^ 30)%Z;
  cf_drained : drained (st_dirty s) t;
}.

Record tidy s' t G : Prop := {
  ti_drained y : y ∈ G → drained (st_dirty s') y.2.2;
  ti_leaves : fleaves G ≤ leaves t + length (entries t) + 1;
}.

Definition flush_spec (tol : fault → Prop) (bet : betree V)
    (fl : node_pointer → message_map K V → M St (pivot_map K)) (hmax : nat) : Prop :=
  ∀ t elts s Q E,
    holds s t → wf t → batch_ok elts → elts ≠ [] → newer (entries t) elts → height t ≤ hmax →
    (lenient tol ∨ careful bet s t elts) →
    (∀ s' G r, flushed bet s s' t elts G r → (lenient tol ∨ tidy s' t G) → Q r s') →
    wp tol (fl (tid t) elts) s Q E.

Lemma elem_of_id_set i t : i ∈ id_set t ↔ i ∈ ids t.
Proof. apply elem_of_list_to_set. Qed.

Lemma holds_node s t : holds s t → st_view s !! tid t = Some (tnode t).
Proof. intros Hh. by apply rep_unfold, Hh. Qed.

Lemma holds_deref s t : holds s t → st_deref (tid t) s = Ok (tnode t) s.
Proof. intros Hh. apply st_deref_spec; [apply Hh..|by apply holds_node]. Qed.

Lemma wp_holds_deref tol s t (Q : node K V → St → Prop) E :
  holds s t → Q (tnode t) s → wp tol (st_deref (tid t)) s Q E.
Proof. intros Hh HQ. unfold wp. by rewrite holds_deref. Qed.

(** Swapping and work on other objects leave it alone. *)
Lemma holds_evolves X s s' t :
  holds s t → evolves X s s' → (∀ i, i ∈ ids t → i ∉ X) → holds s' t.
Proof.
  intros [] Hev HX. split; [apply Hev| |done| | |].
  - eapply rep_frame; [done|]. intros i Hi. destruct (rep_dom _ _ i ho_rep0 Hi) as [m Hm].
    rewrite Hm. apply (ev_view _ _ _ Hev); [done|auto].
  - by rewrite (ev_pins _ _ _ Hev).
  - by apply (ev_keep _ _ _ Hev).
  - intros j. rewrite (ev_pins _ _ _ Hev). auto.
Qed.

(** Writing the root: a new buffer and new pivots over the same subtrees. *)
Lemma holds_update s s' i es es' ch ch' :
  holds s (Tree i es ch) → fnodes ch' = fnodes ch →
  st_view s' = <[ i := MkNode (fpivots ch') es' ]> (st_view s) → evolves {[ i ]} s s' →
  holds s' (Tree i es' ch').
Proof.
  intros [] Hn Hv Hev.
  assert (ids (Tree i es' ch') = ids (Tree i es ch)) as Hids.
  { rewrite !ids_unfold. cbn [tid tch]. unfold fids. by rewrite Hn. }
  split; [apply Hev| |by rewrite Hids| | |].
  - apply rep_unfold. cbn [tid tch]. split; [by rewrite Hv, lookup_insert_eq|].
    apply rep_unfold in ho_rep0 as [_ Hr]. cbn [tch] in Hr.
    assert (frep (st_view s) ch') as Hr' by (unfold frep in *; by rewrite Hn).
    eapply frep_frame; [done|]. intros j Hj. rewrite Hv, lookup_insert_ne; [done|]. intros <-.
    rewrite ids_unfold in ho_nodup0. cbn [tid tch] in ho_nodup0. apply NoDup_cons in ho_nodup0 as [Hni _].
    apply Hni. unfold fids in *. by rewrite <- Hn.
  - by rewrite (ev_pins _ _ _ Hev).
  - by apply (ev_keep _ _ _ Hev).
  - intros j Hj. rewrite (ev_pins _ _ _ Hev). apply ho_free0. cbn [tch] in *. unfold fids in *. by rewrite <- Hn.
Qed.

Lemma stored_update s s' i es es' ch ch' k z :
  holds s (Tree i es ch) → fnodes ch' = fnodes ch → holds s' (Tree i es' ch') →
  stored (st_view s) (st_view s') (Tree i es ch) (single k z (Tree i es' ch')).
Proof.
  intros Hh Hn Hh'. split.
  - apply frep_elem. intros ? ->%elem_of_single. apply Hh'.
  - rewrite fids_single. apply Hh'.
  - rewrite fids_single, !ids_unfold. cbn [tid tch]. unfold fids. rewrite Hn. auto.
Qed.

Lemma wp_holds_update tol s i es ch es' ch' (Q : unit → St → Prop) E :
  tol store_fault → holds s (Tree i es ch) → fnodes ch' = fnodes ch →
  (∀ s', holds s' (Tree i es' ch') → (∀ j, st_dirty s' j ↔ st_dirty s j) →
     st_view s' = <[ i := MkNode (fpivots ch') es' ]> (st_view s) → evolves {[ i ]} s s' → Q tt s') →
  wp tol (st_update i (MkNode (fpivots ch') es')) s Q E.
Proof.
  intros Htol Hh Hn HQ. apply wp_update; [done|apply Hh|exact (ho_pin _ _ Hh)|exact (ho_dirty _ _ Hh)|].
  intros s' Hv Hd Hev. apply HQ; [|done..]. by eapply holds_update.
Qed.

(** ** Steps on a node that stays where it is *)
Record stepped (d : V) s s' t elts t' : Prop := {
  sp_carries k z : carries d t elts (single k z t');
  sp_stored k z : stored (st_view s) (st_view s') t (single k z t');
  sp_ev : evolves (id_set t) s s';
  sp_tid : tid t' = tid t;
  sp_holds : holds s' t';
}.

Lemma stepped_wf d s s' t elts t' (k : K) : stepped d s s' t elts t' → wf t'.
Proof.
  intros Hs. apply (ca_wf _ _ _ _ (sp_carries _ _ _ _ _ _ Hs k 0%Z) (k, (0%Z, t'))). by apply elem_of_single.
Qed.

Lemma stepped_ids d s s' t elts t' (k : K) i :
  stepped d s s' t elts t' → i ∈ ids t' → i ∈ ids t ∨ st_view s !! i = None.
Proof.
  intros Hs Hi. apply (so_ids _ _ _ _ (sp_stored _ _ _ _ _ _ Hs k 0%Z)). by rewrite fids_single.
Qed.

Lemma evolves_next d s s1 s2 t elts t1 (k : K) :
  stepped d s s1 t elts t1 → evolves (id_set t1) s1 s2 → evolves (id_set t) s s2.
Proof.
  intros Hs Hev. eapply evolves_trans; [apply Hs|exact Hev|]. intros i Hi%elem_of_id_set.
  rewrite elem_of_id_set. by eapply stepped_ids.
Qed.

Lemma stepped_trans d s s1 s2 t elts t1 t2 (k : K) :
  stepped d s s1 t elts t1 → stepped d s1 s2 t1 [] t2 → stepped d s s2 t elts t2.
Proof.
  intros Hs1 Hs2. split.
  - intros k' z. eapply carries_trans; [apply Hs1|apply Hs2]; done.
  - intros k' z. eapply stored_trans; [|by eapply (sp_stored _ _ _ _ _ _ Hs1)|apply Hs2].
    intros i Hi. rewrite <- elem_of_id_set. by apply (evolves_dom _ _ _ _ (sp_ev _ _ _ _ _ _ Hs1)).
  - eapply evolves_next; [done..|apply Hs2].
  - rewrite (sp_tid _ _ _ _ _ _ Hs2). apply Hs1.
  - apply Hs2.
Unshelve. all: done.
Qed.

Lemma stepped_flushed bet s s1 s2 t elts t1 G r (k : K) :
  stepped (default_value bet) s s1 t elts t1 → flushed bet s1 s2 t1 [] G r → flushed bet s s2 t elts G r.
Proof.
  intros Hs [Hc Hst Hev Hr]. split.
  - eapply carries_trans; [apply (sp_carries _ _ _ _ _ _ Hs k 0%Z)|done].
  - eapply stored_trans; [|apply (sp_stored _ _ _ _ _ _ Hs k 0%Z)|done].
    intros i Hi. rewrite <- elem_of_id_set. by apply (evolves_dom _ _ _ _ (sp_ev _ _ _ _ _ _ Hs)).
  - by eapply evolves_next.
  - rewrite <- (sp_tid _ _ _ _ _ _ Hs). destruct Hr as [Hr|(-> & Hne & Hok & Hk & Hemp & Hid)]; [by left|right].
    split_and!; [done..| |done|done]. intros y Hy. destruct (Hk y Hy) as [Hy'|Hy']; [|by apply elem_of_nil in Hy'].
    apply (ca_keys _ _ _ _ (sp_carries _ _ _ _ _ _ Hs k 0%Z) (k, (0%Z, t1))); [by apply elem_of_single|done].
Qed.

Lemma stepped_kept bet s s' t elts t' (k : K) :
  stepped (default_value bet) s s' t elts t' → flushed bet s s' t elts (single k 0%Z t') [].
Proof. intros Hs. split; [apply Hs..|]. left. split; [done|]. eexists _, _, _. split; [apply Hs|done]. Qed.

(** ** Splitting at the end of a flush *)
Lemma split_carries d s s' i es ch F :
  wf (Tree i es ch) → split_result s s' ch es F → carries d (Tree i es ch) [] F.
Proof.
  intros Hwf [Hfch Hfes Hp Hi Hps _ _ _ _]. split.
  - intros x Hx. by eapply split_wf.
  - intros x k Hx Hk. left. by eapply split_keys.
  - intros k. by rewrite (split_msgs i es ch).
  - intros e He. exists e. split; [left|done]. by rewrite <- (split_entries i es ch F Hfch Hfes).
  - by apply split_height.
  - rewrite (split_entries i es ch F Hfch Hfes). lia.
Qed.

Lemma split_stored s s' i es ch F :
  holds s (Tree i es ch) → evolves {[ i ]} s s' → split_result s s' ch es F →
  stored (st_view s) (st_view s') (Tree i es ch) F.
Proof.
  intros [_ Hr Hnd _ _ _] Hev [Hfch Hfes _ _ _ Hn Hfr Hndt _].
  apply rep_unfold in Hr as [_ Hr]. rewrite ids_unfold in Hnd. cbn [tid tch] in *.
  apply NoDup_cons in Hnd as [Hi Hnd].
  assert (∀ j, j ∈ fids ch → is_Some (st_view s !! j)) as Hdom by (intros; by eapply frep_dom).
  split.
  - apply frep_elem. intros x Hx. apply rep_unfold. split; [by apply Hn|].
    apply frep_elem. intros c Hc.
    assert (c ∈ ch) as Hcc by (rewrite <- Hfch; apply elem_of_flat_map; eauto).
    eapply rep_frame; [by eapply frep_elem in Hr|]. intros j Hj.
    assert (j ∈ fids ch) as Hjc by (apply elem_of_fids; eauto).
    destruct (Hdom j Hjc) as [m Hm]. rewrite Hm. apply (ev_view _ _ _ Hev); [done|set_solver].
  - rewrite fids_shared, Hfch. apply NoDup_app. split_and!; [done| |done].
    intros j (x & -> & Hx)%list_elem_of_fmap Hj. destruct (Hdom _ Hj) as [m Hm].
    rewrite (Hfr x Hx) in Hm. done.
  - intros j. rewrite fids_shared, Hfch, elem_of_app, ids_unfold. cbn [tid tch]. rewrite elem_of_cons.
    intros [(x & -> & Hx)%list_elem_of_fmap|?]; [right; by apply Hfr|auto].
Qed.

Lemma wp_split_flushed tol bet s t (Q : pivot_map K → St → Prop) E :
  tol store_fault → holds s t → wf t → tes t ≠ [] ∨ tch t ≠ [] →
  (lenient tol ∨ split_safe bet (length (tch t) + length (tes t))) →
  (∀ s' F, flushed bet s s' t [] F (fpivots F) →
     (drained (st_dirty s) t → ∀ y, y ∈ F → drained (st_dirty s') y.2.2) →
     fleaves F ≤ leaves t + length (tes t) → Q (fpivots F) s') →
  wp tol (split bet (tid t)) s Q E.
Proof.
  intros Htol Hh Hwf Hne Hsafe HQ. destruct t as [i es ch]. cbn [tid tes tch] in *.
  destruct (wf_inv _ Hwf) as (Hb & Hf & Hc & _). cbn [tes tch] in *.
  apply (wp_split tol bet s i ch es); try done; try apply Hh; [by apply elem_of_cons; left|apply Hf|].
  intros s' F Hev Hemp Hsr. pose proof Hsr as [Hfch Hfes Hp Hi Hps Hn Hfr Hnd _].
  pose proof (split_forest_ok i es ch F Hwf Hfch Hfes Hp Hi Hps) as Hok.
  apply HQ.
  - split.
    + by eapply split_carries.
    + by eapply split_stored.
    + eapply evolves_mono; [done|]. intros j ->%elem_of_singleton. apply elem_of_id_set, (tid_in_ids (Tree i es ch)).
    + right. split_and!; [done|by eapply split_nonempty|done| |done|].
      * intros y Hy. left. by eapply piece_key.
      * rewrite fids_shared, Hfch, elem_of_app. intros [(x & Hx & Hin)%list_elem_of_fmap|Hin].
        -- pose proof (holds_node _ _ Hh) as Hnode. cbn [tid] in Hnode, Hx. rewrite Hx, (Hfr x Hin) in Hnode. done.
        -- pose proof (ho_nodup _ _ Hh) as Hnd'. rewrite ids_unfold in Hnd'. by apply NoDup_cons in Hnd' as [[] _].
  - intros Hd y Hy. eapply split_drained; [done..| |done]. intros j Hj Hj'.
    destruct Hh as [_ Hr Hnd' _ _ _]. rewrite ids_unfold in Hnd'. apply NoDup_cons in Hnd' as [Hni _].
    destruct (ev_dirty _ _ _ Hev j Hj') as [|[->%elem_of_singleton|Hnone]]; [done|by destruct Hni|].
    destruct (rep_dom _ _ j Hr) as [? ?]; [rewrite ids_unfold; apply elem_of_cons; auto|congruence].
  - by eapply split_leaves.
Qed.

(** ** Flushing through a pointer *)
Lemma wp_arrow_flush tol bet fl h s t B (Q : pivot_map K → St → Prop) E :
  tol store_fault → flush_spec tol bet fl h → st_inv s → rep (st_view s) t → NoDup (ids t) → wf t →
  (∀ j, j ∈ fids (tch t) → st_pins s j = 0) →
  height t ≤ h → batch_ok B → B ≠ [] → newer (entries t) B →
  (lenient tol ∨ careful bet s t B) →
  (∀ s' G r, flushed bet s s' t B G r → (lenient tol ∨ tidy s' t G) → Q r s') →
  wp tol (arrow (tid t) true (fl (tid t) B)) s Q E.
Proof.
  intros Htol Hfl Hinv Hr Hnd Hwf Hfree Hht HB Hne Hnew Hcare HQ.
  apply wp_arrow; [done..|eapply rep_dom; [done|apply tid_in_ids]|].
  intros s1 Hen. apply Hfl; [|done..| |].
  - split; [apply Hen|by rewrite (en_view _ _ _ _ Hen)|done|apply Hen|by apply Hen|].
    intros j Hj. rewrite (en_pins _ _ _ _ Hen); [by apply Hfree|]. intros ->.
    rewrite ids_unfold in Hnd. by apply NoDup_cons in Hnd as [[] _].
  - destruct Hcare as [|[]]; [by left|right]. split; auto.
    eapply drained_below; [done|]. intros j Hj Hj1. destruct (en_others _ _ _ _ Hen j Hj1) as [|[-> _]]; [done|].
    rewrite ids_unfold in Hnd. by apply NoDup_cons in Hnd as [[] _].
  - intros s2 G r [Hc Hst Hev Hr2] Htidy. exists (id_set t). split; [done|].
    intros s3 [Hv3 Hd3] Hev3. apply (HQ s3 G r).
    + split; [done| | |by rewrite Hv3].
      * rewrite Hv3, <- (en_view _ _ _ _ Hen). done.
      * eapply evolves_mono; [exact Hev3|]. intros j [Hj|Hj]%elem_of_union; [done|].
        apply elem_of_singleton in Hj as ->. apply elem_of_id_set, tid_in_ids.
    + destruct Htidy as [|[Hd Hl]]; [by left|right]. split; [|done].
      intros y Hy. eapply drained_frame; [by apply Hd|auto].
Qed.

(** ** Flushing into a child *)
Section child.
Context (tol : fault → Prop) (Htol : tol store_fault) (bet : betree V).
Context (s : St) (i : N) (es : message_map K V) (pre post : forest K V) (x : K * (Z * tree K V)).
Notation t := (Tree i es (pre ++ x :: post)).
Context (Hh : holds s t) (Hwf : wf t).

Lemma child_facts : rep (st_view s) x.2.2 ∧ NoDup (ids x.2.2) ∧ wf x.2.2 ∧
  (∀ j, j ∈ ids x.2.2 → j ∈ ids t).
Proof.
  destruct Hh as [_ Hr Hnd _ _ _]. apply rep_unfold in Hr as [_ Hr]. cbn [tch] in Hr.
  rewrite frep_elem in Hr. rewrite ids_unfold in Hnd. cbn [tid tch] in Hnd.
  apply NoDup_cons in Hnd as [_ Hnd]. rewrite fids_app, fids_cons in Hnd.
  apply NoDup_app in Hnd as (_ & _ & (Hnd & _ & _)%NoDup_app).
  destruct (wf_inv _ Hwf) as (_ & _ & _ & _ & Hch).
  split_and!; [apply Hr, x_in_ch|done|apply Hch, x_in_ch|].
  intros j Hj. rewrite ids_unfold. apply elem_of_cons. right. apply elem_of_fids. exists x.
  split; [apply x_in_ch|done].
Qed.

Lemma child_free j : j ∈ ids x.2.2 → st_pins s j = 0.
Proof. intros Hj. apply (ho_free _ _ Hh), elem_of_fids. exists x. split; [apply x_in_ch|done]. Qed.

Lemma child_not_self : tid x.2.2 ≠ i.
Proof.
  pose proof (ho_nodup _ _ Hh) as Hnd. rewrite ids_unfold in Hnd. cbn [tid tch] in Hnd.
  apply NoDup_cons in Hnd as [Hni _]. intros <-. apply Hni, elem_of_fids.
  exists x. split; [apply x_in_ch|apply tid_in_ids].
Qed.

Lemma wp_child_flush fl h B (Q : pivot_map K → St → Prop) E :
  flush_spec tol bet fl h → height x.2.2 ≤ h → batch_ok B → B ≠ [] → newer (entries x.2.2) B →
  (lenient tol ∨ careful bet s x.2.2 B) →
  (∀ s' G r, flushed bet s s' x.2.2 B G r → (lenient tol ∨ tidy s' x.2.2 G) → Q r s') →
  wp tol (arrow (tid x.2.2) true (fl (tid x.2.2) B)) s Q E.
Proof.
  intros Hfl Hht HB Hne Hnew Hcare HQ. destruct child_facts as (Hr & Hnd & Hwx & _).
  eapply wp_arrow_flush; try done; [apply Hh|]. intros j Hj. apply child_free. rewrite ids_unfold. apply elem_of_cons; auto.
Qed.

(** Afterwards the node itself is as it was. *)
Lemma child_flushed_node s' B G r :
  flushed bet s s' x.2.2 B G r → st_view s' !! i = Some (tnode t) ∧ st_inv s' ∧ 0 < st_pins s' i ∧ st_dirty s' i.
Proof.
  intros [_ _ Hev _]. pose proof (holds_node _ _ Hh) as Hn. destruct Hh as [_ _ Hnd Hp Hd _]. cbn [tid] in *.
  split_and!.
  - apply (ev_view _ _ _ Hev); [done|]. rewrite elem_of_id_set. intros Hi.
    rewrite ids_unfold in Hnd. apply NoDup_cons in Hnd as [Hni _]. apply Hni, elem_of_fids.
    exists x. split; [apply x_in_ch|done].
  - apply Hev.
  - by rewrite (ev_pins _ _ _ Hev).
  - by apply (ev_keep _ _ _ Hev).
Qed.

(** The other subtrees are apart from it, and so are the nodes it became. *)
Lemma sibling_ids j : j ∈ fids pre ∨ j ∈ fids post → j ∉ ids x.2.2 ∧ j ≠ i ∧ is_Some (st_view s !! j).
Proof.
  destruct Hh as [_ Hr Hnd _ _ _]. rewrite ids_unfold in Hnd. cbn [tid tch] in Hnd.
  apply NoDup_cons in Hnd as [Hni Hnd]. rewrite fids_app, fids_cons in Hnd.
  apply NoDup_app in Hnd as (_ & Hdis1 & (_ & Hdis2 & _)%NoDup_app).
  apply rep_unfold in Hr as [_ Hr]. cbn [tch] in Hr. intros Hj.
  assert (j ∈ fids (pre ++ x :: post)) as Hjc.
  { rewrite fids_app, fids_cons, !elem_of_app. destruct Hj; auto. }
  split_and!; [|by intros ->|by eapply frep_dom]. intros Hjx. destruct Hj as [Hj|Hj].
  - apply (Hdis1 j Hj), elem_of_app. auto.
  - by apply (Hdis2 j).
Qed.

Lemma new_ids h' G j : stored (st_view s) h' x.2.2 G → j ∈ fids G → j ∉ fids pre ∧ j ∉ fids post ∧ j ≠ i.
Proof.
  intros [_ _ Hids] Hj. pose proof (holds_node _ _ Hh) as Hn. cbn [tid] in Hn.
  assert (¬ (j ∈ fids pre ∨ j ∈ fids post) ∧ j ≠ i) as [? ?]; [|tauto].
  destruct (Hids j Hj) as [Hjx|Hfresh].
  - split; [intros Hjo; by destruct (sibling_ids j Hjo)|]. intros ->.
    destruct Hh as [_ _ Hnd _ _ _]. rewrite ids_unfold in Hnd. apply NoDup_cons in Hnd as [Hni _].
    apply Hni, elem_of_fids. exists x. split; [apply x_in_ch|done].
  - split; [|congruence]. intros Hjo. destruct (sibling_ids j Hjo) as (_ & _ & [? ?]). congruence.
Qed.

Lemma replace_nodup h' G es' : stored (st_view s) h' x.2.2 G → NoDup (ids (Tree i es' (pre ++ G ++ post))).
Proof.
  intros Hst. pose proof (new_ids h' G) as Hnew. pose proof (so_nodup _ _ _ _ Hst) as HndG.
  destruct Hh as [_ _ Hnd _ _ _]. rewrite ids_unfold in *. cbn [tid tch] in *.
  apply NoDup_cons in Hnd as [Hni Hnd]. rewrite fids_app, fids_cons in Hni, Hnd.
  apply NoDup_app in Hnd as (Hnd1 & Hdis1 & (Hndx & Hdis2 & Hnd2)%NoDup_app).
  rewrite !fids_app. rewrite !not_elem_of_app in Hni. apply NoDup_cons. split.
  - rewrite !not_elem_of_app. split_and!; [tauto| |tauto]. intros Hi. by destruct (Hnew i Hst Hi) as (_ & _ & []).
  - apply NoDup_app. split_and!; [done| |apply NoDup_app; split_and!; [done| |done]].
    + intros j Hj [HjG|Hjp]%elem_of_app; [by destruct (Hnew j Hst HjG)|]. apply (Hdis1 j Hj), elem_of_app. auto.
    + intros j HjG Hjp. by destruct (Hnew j Hst HjG) as (_ & ? & _).
Qed.

(** The store after the child's place was given to what it became: the node itself is
    written, the new subtrees and the other children are as the flush left them. *)
Record installed (s1 s2 : St) (G : forest K V) (es' : message_map K V) : Prop := {
  in_node : st_view s2 !! i = Some (MkNode (fpivots (pre ++ G ++ post)) es');
  in_same j : j ≠ i → j ∈ fids (pre ++ G ++ post) → st_view s2 !! j = st_view s1 !! j;
  in_ev : evolves ({[ i ]} ∪ id_set x.2.2) s1 s2;
}.

Lemma installed_update s1 s2 G es' :
  st_view s2 = <[ i := MkNode (fpivots (pre ++ G ++ post)) es' ]> (st_view s1) → evolves {[ i ]} s1 s2 →
  installed s1 s2 G es'.
Proof.
  intros Hv Hev. split.
  - by rewrite Hv, lookup_insert_eq.
  - intros j Hj _. by rewrite Hv, lookup_insert_ne.
  - eapply evolves_mono; [done|]. intros j Hj. apply elem_of_union. by left.
Qed.

Lemma replace_rep s1 s2 B G r es' :
  flushed bet s s1 x.2.2 B G r → installed s1 s2 G es' → rep (st_view s2) (Tree i es' (pre ++ G ++ post)).
Proof.
  intros [_ Hst Hev1 _] [Hnode Hsame _]. apply rep_unfold. cbn [tid tch]. split; [done|].
  apply frep_elem. pose proof (ho_rep _ _ Hh) as Hr. apply rep_unfold in Hr as [_ Hr]. cbn [tch] in Hr.
  rewrite frep_elem in Hr. rewrite !fids_app in Hsame. setoid_rewrite elem_of_app in Hsame.
  setoid_rewrite elem_of_app in Hsame.
  assert (∀ y, y ∈ pre ++ x :: post → (∀ j, j ∈ ids y.2.2 → j ∈ fids pre ∨ j ∈ fids post) →
               rep (st_view s2) y.2.2) as Hold.
  { intros y Hy Hin. eapply rep_frame; [by apply Hr|]. intros j Hj.
    destruct (sibling_ids j (Hin j Hj)) as (Hjx & Hji & [m Hm]).
    rewrite Hsame, Hm; [|done|destruct (Hin j Hj); auto]. apply (ev_view _ _ _ Hev1); [done|].
    by rewrite elem_of_id_set. }
  intros y [Hy|[Hy|Hy]%elem_of_app]%elem_of_app.
  - apply Hold; [apply elem_of_app; auto|]. intros j Hj. left. apply elem_of_fids. eauto.
  - pose proof (so_rep _ _ _ _ Hst) as HrG. rewrite frep_elem in HrG.
    eapply rep_frame; [by apply HrG|]. intros j Hj.
    assert (j ∈ fids G) as HjG by (apply elem_of_fids; eauto).
    apply Hsame; [by apply (new_ids _ G j Hst)|auto].
  - apply Hold; [apply elem_of_app; right; apply elem_of_cons; auto|].
    intros j Hj. right. apply elem_of_fids. eauto.
Qed.

Lemma replace_free s1 s2 B G r es' j :
  flushed bet s s1 x.2.2 B G r → installed s1 s2 G es' → j ∈ fids (pre ++ G ++ post) → st_pins s2 j = 0.
Proof.
  intros Hfl Hin Hj. rewrite (ev_pins _ _ _ (in_ev _ _ _ _ Hin)), (ev_pins _ _ _ (fl_ev _ _ _ _ _ _ _ Hfl)).
  assert (j ∈ fids (pre ++ x :: post) ∨ st_view s !! j = None) as [Hj'|Hnone].
  { rewrite !fids_app, fids_cons, !elem_of_app in *. destruct Hj as [|[HjG|]]; [auto| |auto].
    destruct (so_ids _ _ _ _ (fl_stored _ _ _ _ _ _ _ Hfl) j HjG); auto. }
  - by apply (ho_free _ _ Hh).
  - apply st_pins_absent; [apply Hh|done].
Qed.

Lemma replace_stored s1 s2 B G r es' :
  flushed bet s s1 x.2.2 B G r → installed s1 s2 G es' →
  holds s2 (Tree i es' (pre ++ G ++ post)) ∧ evolves (id_set t) s s2 ∧
  (∀ k z, stored (st_view s) (st_view s2) t (single k z (Tree i es' (pre ++ G ++ post)))).
Proof.
  intros Hfl Hin. destruct (child_flushed_node _ _ _ _ Hfl) as (Hn & Hi1 & Hp1 & Hd1).
  pose proof (replace_rep _ _ _ _ _ es' Hfl Hin) as Hrep.
  pose proof (replace_nodup _ G es' (fl_stored _ _ _ _ _ _ _ Hfl)) as Hnd.
  destruct child_facts as (_ & _ & _ & Hsub). pose proof (in_ev _ _ _ _ Hin) as Hev2.
  split_and!.
  - split; [apply Hev2|done|done|by rewrite (ev_pins _ _ _ Hev2)|by apply (ev_keep _ _ _ Hev2)|].
    intros j. by eapply replace_free.
  - eapply (evolves_trans _ _ s s1 s2); [eapply evolves_mono; [apply Hfl|]|done|].
    + intros j. rewrite !elem_of_id_set. auto.
    + intros j [->%elem_of_singleton|Hj]%elem_of_union; left; apply elem_of_id_set;
        [apply (tid_in_ids t)|by apply Hsub, elem_of_id_set].
  - intros k z. split.
    + apply frep_elem. by intros ? ->%elem_of_single.
    + by rewrite fids_single.
    + intros j. rewrite fids_single, !ids_unfold. cbn [tid tch].
      rewrite !fids_app, fids_cons, !elem_of_cons, !elem_of_app.
      intros [?|[?|[HjG|?]]]; auto. destruct (so_ids _ _ _ _ (fl_stored _ _ _ _ _ _ _ Hfl) j HjG); auto.
Qed.

(** The old child is dropped before the node is written. *)
Lemma installed_release s1 s1' s2 s3 G es' m :
  tid x.2.2 ∉ fids G →
  st_view s1' = <[ i := m ]> (st_view s1) → evolves {[ i ]} s1 s1' →
  st_view s2 = delete (tid x.2.2) (st_view s1') → evolves {[ tid x.2.2 ]} s1' s2 →
  st_view s3 = <[ i := MkNode (fpivots (pre ++ G ++ post)) es' ]> (st_view s2) → evolves {[ i ]} s2 s3 →
  installed s1 s3 G es'.
Proof.
  intros Hid Hv1 Hev1 Hv2 Hev2 Hv3 Hev3. split.
  - by rewrite Hv3, lookup_insert_eq.
  - intros j Hj Hin. rewrite Hv3, lookup_insert_ne, Hv2, lookup_delete_ne, Hv1, lookup_insert_ne by
      (done || (intros <-; rewrite !fids_app, !elem_of_app in Hin;
                destruct Hin as [Hin|[Hin|Hin]]; [|done|];
                destruct (sibling_ids (tid x.2.2)) as ([] & _); auto using tid_in_ids)). done.
  - eapply evolves_trans; [eapply evolves_trans; [eapply evolves_mono; [exact Hev1|]|exact Hev2|]|exact Hev3|].
    + apply union_subseteq_l.
    + intros j ->%elem_of_singleton. left. apply elem_of_union_r, elem_of_id_set, tid_in_ids.
    + intros j Hj. left. by apply elem_of_union_l.
Qed.
End child.

(** What the child became, under the pivot it keeps or under its new ones. *)
Lemma flushed_replacement bet s s' i es pre x post B G r :
  wf (Tree i es (pre ++ x :: post)) → (∀ e, e ∈ B → in_range x.1 post (ekey e) = true) →
  flushed bet s s' x.2.2 B G r →
  ∃ G', flushed bet s s' x.2.2 B G' r ∧ (tidy s' x.2.2 G → tidy s' x.2.2 G') ∧ forest_ok G' ∧ G' ≠ [] ∧
    (∀ y, y ∈ G' → y.1 = x.1 ∨ y.1 ∈ tkeys x.2.2 ∨ y.1 ∈ ekey <$> B) ∧
    ((r = [] ∧ fpivots G' = [pivot_of x]) ∨
     (r = fpivots G' ∧ r ≠ [] ∧ st_view s' !! tid x.2.2 = Some empty_node ∧ tid x.2.2 ∉ fids G')).
Proof.
  intros Hwf HB Hfl. destruct (wf_inv _ Hwf) as (_ & Hf & _). cbn [tch] in Hf.
  destruct (fl_result _ _ _ _ _ _ _ Hfl) as [(-> & k & z & t' & Htid & ->)|(-> & Hne & Hok & Hk & Hemp & Hid)].
  - exists (single x.1 x.2.1 t'). destruct Hfl as [Hc Hst Hev _]. split_and!; [split| | | | |].
    + by eapply carries_rekey.
    + by eapply stored_rekey.
    + done.
    + left. split; [done|]. eauto.
    + intros [Hd Hl]. split; [|done]. intros ? ->%elem_of_single.
      apply (Hd (k, (z, t'))). by apply elem_of_single.
    + split.
      * apply sorted_singleton.
      * intros ? k0 ->%elem_of_single Hk0. cbn [fst snd] in *.
        destruct (ca_keys _ _ _ _ Hc (k, (z, t')) k0) as [Hk1|(e & -> & He)%list_elem_of_fmap];
          [by apply elem_of_single|done|apply (fo_lo _ Hf x); [apply x_in_ch|done]|].
        specialize (HB e He). apply andb_true_iff in HB as [HB _]. by apply negb_true_iff in HB.
      * intros ? ? k0 ->%elem_of_single ->%elem_of_single Hlt. by rewrite klt_irrefl in Hlt.
    + done.
    + intros ? ->%elem_of_single. by left.
    + left. split; [done|]. unfold fpivots, single, pivot_of. cbn. by rewrite Htid.
  - exists G. split_and!; [done..|by auto|]. right. split_and!; [done| |done|done]. by destruct G.
Qed.

(** The size bookkeeping after a flush that did not split the child. *)
Lemma holds_view X s s' t : holds s t → evolves X s s' → st_view s' = st_view s → holds s' t.
Proof.
  intros [] Hev Hv. split; [apply Hev|by rewrite Hv|done|by rewrite (ev_pins _ _ _ Hev)|by apply (ev_keep _ _ _ Hev)|].
  intros j. rewrite (ev_pins _ _ _ Hev). auto.
Qed.

Lemma wp_child_total tol s t c (Q : Z → St → Prop) E :
  tol store_fault → holds s t → c ∈ ids t →
  (∀ s' sz, holds s' t → st_view s' = st_view s → (∀ j, st_dirty s' j → st_dirty s j ∨ j = c) →
     evolves {[ c ]} s s' → Q sz s') →
  wp tol (child_total c) s Q E.
Proof.
  intros Htol Hh Hc HQ. destruct (rep_dom _ _ c (ho_rep _ _ Hh) Hc) as [n Hn]. unfold child_total.
  eapply wp_arrow_twice_ret; [done|apply Hh|done|]. intros s1 Hv1 Hd1 Hev1. apply (HQ s1); [by eapply holds_view|done..].
Qed.

Lemma stepped_refl d s t : holds s t → wf t → stepped d s s t [] t.
Proof.
  intros Hh Hwf. split; [intros; by apply carries_nil| |apply evolves_refl, Hh|done|done].
  intros k z. split; [apply frep_elem; intros ? ->%elem_of_single; apply Hh|rewrite fids_single; apply Hh|].
  rewrite fids_single. auto.
Qed.

Lemma stepped_set_size d s s' i es ch p sz :
  holds s (Tree i es ch) → wf (Tree i es ch) → holds s' (Tree i es (set_size p sz ch)) → evolves {[ i ]} s s' →
  stepped d s s' (Tree i es ch) [] (Tree i es (set_size p sz ch)).
Proof.
  intros Hh Hwf Hh' Hev. split; [intros; by apply set_size_carries|..].
  - intros k z. eapply stored_update; [done|apply set_size_fnodes|done].
  - eapply evolves_mono; [done|]. intros j ->%elem_of_singleton. apply elem_of_id_set, (tid_in_ids (Tree i es ch)).
  - done.
  - done.
Qed.

(** Sizes of the child and the pivot entry it is recorded in. *)
Lemma wp_record_size {A} tol d s i es ch p c (k : M St A) Q E :
  tol store_fault → holds s (Tree i es ch) → wf (Tree i es ch) → c ∈ ids (Tree i es ch) →
  (∀ s' sz, stepped d s s' (Tree i es ch) [] (Tree i es (set_size p sz ch)) →
     (∀ j, st_dirty s' j → st_dirty s j ∨ j = c) → wp tol k s' Q E) →
  wp tol (let! sz := child_total c in let! n := st_deref i in
          st_update i (set_pivots n (set_child_size (pivots n) p sz)) ;; k) s Q E.
Proof.
  intros Htol Hh Hwf Hc HQ. eapply wp_bind, wp_child_total; [done..|]. intros s1 sz Hh1 Hv1 Hd1 Hev1.
  apply wp_bind. apply (wp_holds_deref tol s1 (Tree i es ch)); [done|]. unfold set_pivots. cbn [tnode tes tch pivots elements].
  rewrite set_size_fpivots. eapply wp_bind, wp_holds_update; [done..|apply set_size_fnodes|]. intros s2 Hh2 Hd2 Hv2 Hev2.
  apply (HQ s2 sz); [|intros j Hj%Hd2; auto].
  eapply (stepped_trans _ s s1); [exact p| |by apply stepped_set_size]. split.
  - intros. by apply carries_nil.
  - intros. split; [apply frep_elem; intros ? ->%elem_of_single; apply Hh1|rewrite fids_single; apply Hh1|].
    rewrite fids_single. auto.
  - eapply evolves_mono; [done|]. intros j ->%elem_of_singleton. by apply elem_of_id_set.
  - done.
  - done.
Qed.

Section install.
Context (bet : betree V) (s s1 : St) (i : N) (es es' B elts : message_map K V) (pre post G : forest K V)
        (x : K * (Z * tree K V)) (r : pivot_map K).
Notation t := (Tree i es (pre ++ x :: post)).
Notation t' := (Tree i es' (pre ++ G ++ post)).
Notation ours := (in_range x.1 post).
Notation d := (default_value bet).
Context (Hh : holds s t) (Hwf : wf t) (HB : ∀ e, e ∈ B → ours (ekey e) = true)
        (Hsub : ∀ e, e ∈ es' → e ∈ es ∧ ours (ekey e) = false) (Hes' : sorted es')
        (Hkept : ∀ k, ours k = false → msgs k es' = msgs k es)
        (Hfl : flushed bet s s1 x.2.2 B G r) (Hok : forest_ok G) (Hne : G ≠ [])
        (Hkeys : ∀ y, y ∈ G → y.1 = x.1 ∨ y.1 ∈ tkeys x.2.2 ∨ y.1 ∈ ekey <$> B).
Context (HBin : ∀ e, e ∈ B → e ∈ es ∨ e ∈ elts)
        (Hours : ∀ k o, ours k = true → run d (msgs k B) o = run d (msgs k elts) (run d (msgs k es) o))
        (Hother : ∀ k, ours k = false → msgs k elts = [])
        (Hlen : length B + length es' ≤ length es + length elts).

Lemma install_ok : forest_ok (pre ++ G ++ post).
Proof. eapply replace_ok; try done. apply Hfl. Qed.

Lemma replace_stepped s2 : installed i pre post x s1 s2 G es' → stepped d s s2 t elts t'.
Proof.
  intros Hin. destruct (replace_stored bet s i es pre post x Hh Hwf s1 s2 B G r es' Hfl Hin) as (Hh2 & Hev2 & Hst2).
  split; [|done..]. intros k z. eapply replace_carries; try done. apply Hfl.
Qed.

End install.

Lemma child_id_installed i es' pre post G x :
  fpivots G = [pivot_of x] → tid x.2.2 ∈ ids (Tree i es' (pre ++ G ++ post)).
Proof.
  intros HG. rewrite ids_unfold. apply elem_of_cons. right. cbn [tch]. rewrite !fids_app, !elem_of_app.
  right; left. destruct G as [|y [|]]; try done. injection HG as _ <- _. apply elem_of_fids. exists y.
  split; [by apply list_elem_of_singleton|apply tid_in_ids].
Qed.


(** ** The loop *)
Definition params_ok (bet : betree V) : Prop := (0 <= min_flush_size bet ∧ 1 <= max_node_size bet)%Z.

Lemma wp_worth_flushing tol bet s t c max_size (Q : bool → St → Prop) E :
  holds s t → c ∈ ids t →
  (∀ b, (b = true → (min_flush_size bet / 2 < max_size)%Z ∨ (min_flush_size bet < max_size)%Z) → Q b s) →
  wp tol (worth_flushing bet max_size c) s Q E.
Proof.
  intros Hh Hc HQ. unfold worth_flushing. destruct (Z.ltb_spec (min_flush_size bet) max_size); [by apply HQ; auto|].
  destruct (Z.ltb_spec (min_flush_size bet / 2) max_size); [|by apply HQ].
  destruct (st_is_in_memory_spec s c) as [b Hb]; [apply Hh|eapply rep_dom; [apply Hh|done]|].
  unfold wp. rewrite Hb. apply HQ. auto.
Qed.

Section loop.
Context (tol : fault → Prop) (Htol : tol store_fault) (bet : betree V) (Hpar : params_ok bet).
Context (fl : node_pointer → message_map K V → M St (pivot_map K)) (h : nat) (Hfl : flush_spec tol bet fl h).
Notation d := (default_value bet).

(** One child's messages leave the buffer. *)
Lemma range_kept es post (x : K * (Z * tree K V)) k :
  in_range x.1 post k = false →
  msgs k (List.filter (λ e, negb (in_range x.1 post (ekey e))) es) = msgs k es.
Proof.
  intros Hk. unfold msgs. f_equal. unfold for_key. rewrite lfilter_lfilter. apply lfilter_ext. intros e _.
  destruct (keq (ekey e) k) eqn:E; [|by rewrite andb_false_r]. apply keq_eq in E as ->. by rewrite Hk.
Qed.

Lemma range_msgs es post (x : K * (Z * tree K V)) k :
  in_range x.1 post k = true → msgs k (List.filter (λ e, in_range x.1 post (ekey e)) es) = msgs k es.
Proof.
  intros Hk. unfold msgs. f_equal. unfold for_key. rewrite lfilter_lfilter. apply lfilter_ext. intros e _.
  destruct (keq (ekey e) k) eqn:E; [|by rewrite andb_false_r]. apply keq_eq in E as ->. by rewrite Hk.
Qed.

Lemma round_install s s1 i es pre x post G r :
  let B := List.filter (λ e, in_range x.1 post (ekey e)) es in
  let es' := List.filter (λ e, negb (in_range x.1 post (ekey e))) es in
  holds s (Tree i es (pre ++ x :: post)) → wf (Tree i es (pre ++ x :: post)) →
  flushed bet s s1 x.2.2 B G r → forest_ok G → G ≠ [] →
  (∀ y, y ∈ G → y.1 = x.1 ∨ y.1 ∈ tkeys x.2.2 ∨ y.1 ∈ ekey <$> B) →
  ∀ s3, installed i pre post x s1 s3 G es' →
    stepped d s s3 (Tree i es (pre ++ x :: post)) [] (Tree i es' (pre ++ G ++ post)).
Proof.
  cbn zeta. intros Hh Hwf Hfl1 Hok HneG Hkeys s3 Hin. destruct (wf_inv _ Hwf) as (Hb & _). cbn [tes] in Hb.
  eapply (replace_stepped bet s s1 i es _ _ []); eauto; try done.
  - by intros e [_ He]%elem_of_lfilter.
  - intros e [? ?%negb_true_iff]%elem_of_lfilter. done.
  - apply sorted_filter, Hb.
  - intros k0 Hk0. by apply range_kept.
  - intros e He. apply elem_of_lfilter in He. left. apply He.
  - intros k0 o Hk0. by rewrite range_msgs.
  - rewrite lfilter_negb_length. cbn. lia.
Qed.

(** A round of the loop: the child of [x] takes its messages. *)
Lemma wp_flush_round {A} s i es pre x post p valid (k : bool → M St A) Q E :
  let t := Tree i es (pre ++ x :: post) in
  let n := tnode t in
  lenient tol → holds s t → wf t → height t ≤ S h →
  List.filter (λ e, in_range x.1 post (ekey e)) es ≠ [] →
  (∀ s' t' v, stepped d s s' t [] t' → length (tes t') < length es → wp tol (k v) s' Q E) →
  wp tol
    (let! new_children := arrow (tid x.2.2) true (fl (tid x.2.2)
         (messages_between (get_element_begin n x.1) (get_element_begin_it n (next_key post)))) in
     let! n0 := st_deref i in
     let n1 := set_elements n0 (erase_between (elements n0) (get_element_begin n x.1)
                                  (get_element_begin_it n (next_key post))) in
     st_update i n1 ;;
     match new_children with
     | [] =>
         let! sz := child_total (tid x.2.2) in
         if (valid : bool) then
           let! n := st_deref i in
           st_update i (set_pivots n (set_child_size (pivots n) p sz)) ;; k valid
         else halt undefined_behaviour
     | _ =>
         st_release (tid x.2.2) ;;
         st_update i (replace_pivot n1 x.1 new_children) ;; k (valid && negb (keq x.1 p))
     end) s Q E.
Proof.
  cbn zeta. intros Hlen Hh Hwf Hht Hne Hk. destruct (wf_inv _ Hwf) as (Hb & Hf & _ & Hnw & _).
  unfold tnode. cbn [tes tch] in *. pose proof Hb as [Hs Hts _ _]. pose proof (fo_sorted _ Hf) as Hsc.
  rewrite range_between by done.
  set (B := List.filter (λ e, in_range x.1 post (ekey e)) es) in *.
  set (es' := List.filter (λ e, negb (in_range x.1 post (ekey e))) es).
  assert (∀ e, e ∈ B → e ∈ es ∧ in_range x.1 post (ekey e) = true) as HB
    by (intros e He; by apply elem_of_lfilter in He).
  assert (∀ e, e ∈ es' → e ∈ es ∧ in_range x.1 post (ekey e) = false) as Hes'
    by (intros e [? ?%negb_true_iff]%elem_of_lfilter; done).
  assert (length B + length es' = length es) as Hl by apply lfilter_negb_length.
  assert (length es' < length es) as Hlt by (destruct B; [done|cbn in Hl; lia]).
  eapply wp_bind, wp_child_flush; [done|exact Hh|done|exact Hfl| |by eapply buf_batch|done| |by left|].
  { rewrite height_unfold in Hht. cbn [tch] in Hht. pose proof (fheight_elem _ _ (x_in_ch pre post x)). lia. }
  { intros e e' He [He' _]%HB. apply Hnw; [|done]. apply elem_of_fentries. exists x. split; [apply x_in_ch|done]. }
  intros s1 G0 r Hfl0 _.
  destruct (flushed_replacement bet s s1 i es pre x post B G0 r Hwf) as (G & Hfl1 & _ & Hok & HneG & Hkeys & Hr);
    [intros e He; by apply HB|done|].
  destruct (child_flushed_node bet s i es pre post x Hh s1 B G r Hfl1) as (Hn1 & Hi1 & Hp1 & Hd1).
  apply wp_bind. unfold wp at 1. rewrite (st_deref_spec s1 i _ Hi1 Hp1 Hn1).
  unfold set_elements, tnode. cbn [pivots elements tes tch]. rewrite range_erase by done. fold es'.
  apply wp_bind, wp_update; [done..|]. intros s2 Hv2 Hd2 Hev2.
  pose proof (round_install s s1 i es pre x post G r Hh Hwf Hfl1 Hok HneG Hkeys) as Hinst. fold es' in Hinst.
  destruct Hr as [[-> HG]|(-> & Hrne & Hemp & Hid)].
  - assert (fpivots (pre ++ x :: post) = fpivots (pre ++ G ++ post)) as Hp.
    { rewrite !fpivots_app, HG. done. }
    rewrite Hp in Hv2. specialize (Hinst s2 (installed_update i pre post x s1 s2 G es' Hv2 Hev2)).
    pose proof (child_id_installed i es' pre post G x HG) as Hcid.
    destruct valid; [|eapply wp_bind, wp_child_total; [done|apply Hinst|done|intros; apply Hlen]].
    eapply (wp_record_size tol d); [done|apply Hinst|exact (stepped_wf _ _ _ _ _ _ x.1 Hinst)|done|].
    intros s3 sz Hst3 _. eapply (Hk s3 _ true); [exact (stepped_trans _ _ _ _ _ _ _ _ x.1 Hinst Hst3)|done].
  - destruct (fpivots G) as [|p0 ps] eqn:HfG; [done|]. rewrite <- HfG.
    pose proof (install_ok bet s s1 i es B pre post G x _ Hwf (λ e He, proj2 (HB e He)) Hfl1 Hok Hkeys) as Hok'.
    rewrite replace_pivot_middle by (done || apply Hok').
    assert (tid x.2.2 ≠ i) as Hxi by (by eapply child_not_self).
    eapply wp_bind, wp_release; [done|apply Hev2|by rewrite Hv2, lookup_insert_ne|done| |].
    { rewrite (ev_pins _ _ _ Hev2), (ev_pins _ _ _ (fl_ev _ _ _ _ _ _ _ Hfl1)). eapply child_free; [done..|apply tid_in_ids]. }
    intros s3 Hv3 Hd3 Hev3.
    apply wp_bind, wp_update; [done|apply Hev3|by rewrite (ev_pins _ _ _ Hev3), (ev_pins _ _ _ Hev2)| |].
    { apply Hd3. split; [by apply Hd2|done]. }
    intros s4 Hv4 _ Hev4. eapply Hk; [apply (Hinst s4)|done]. rewrite <- HfG in Hfl1.
    by eapply (installed_release s i es pre post x Hh s1 s2 s3 s4).
Qed.

Lemma wp_flush_loop : ∀ fuel s t p valid Q E,
  holds s t → wf t → height t ≤ S h → length (tes t) < fuel →
  (lenient tol ∨ (2 * Z.of_nat (length (tes t)) <= min_flush_size bet)%Z) →
  (∀ s' t', stepped d s s' t [] t' → (lenient tol ∨ (s' = s ∧ t' = t)) → Q tt s') →
  wp tol (flush_loop fl fuel bet (tid t) p valid) s Q E.
Proof.
  induction fuel as [|fuel IH]; intros s t p valid Q E Hh Hwf Hht Hfuel Hmode HQ; [lia|].
  assert (Q tt s) as Hstop by (apply (HQ s t); [by apply stepped_refl|auto]).
  cbn [flush_loop]. apply wp_bind, wp_holds_deref; [done|].
  destruct t as [i es ch]. cbn [tnode tid tes tch pivots elements] in *.
  destruct (fpivots ch) as [|begin ps] eqn:Hps; [done|]. rewrite <- Hps.
  destruct (_ <=? _)%Z; [|done]. change (tnode (Tree i es ch)) with (MkNode (fpivots ch) es).
  destruct (wf_inv _ Hwf) as (Hb & Hf & _). cbn [tes tch] in *.
  destruct (largest_child_spec es ch (fo_sorted _ Hf) (buf_sorted _ _ Hb) (buf_ts _ _ Hb)
              ch [] (0%Z, begin, Some begin.1)) as ([[max_size cp] np] & Hlc & Hmax & Hcand); [done| |].
  { split; cbn; [lia|by left]. }
  cbn [fst snd] in Hmax, Hcand. apply wp_bind. rewrite Hlc. cbn [of_option]. unfold wp at 1, ret at 1.
  destruct Hpar as [Hmin _].
  destruct Hcand as [->|(pre & x & post & Hch & -> & -> & Hne)].
  { unfold worth_flushing. destruct (Z.ltb_spec (min_flush_size bet) 0); [lia|].
    destruct (Z.ltb_spec (min_flush_size bet / 2) 0) as [Hneg|_]; [|done].
    pose proof (Z.div_pos (min_flush_size bet) 2). lia. }
  rewrite Hch in *. cbn [pivot_of fst snd child].
  eapply wp_bind, wp_worth_flushing; [exact Hh| |].
  { rewrite ids_unfold. apply elem_of_cons. right. apply elem_of_fids. exists x. split; [apply x_in_ch|apply tid_in_ids]. }
  intros [] Hgo; [|done].
  assert (lenient tol) as Hlen.
  { destruct Hmode as [|Hm]; [done|]. pose proof (Z.div_le_lower_bound (min_flush_size bet) 2 (Z.of_nat (length es))).
    pose proof (Z.div_le_upper_bound (min_flush_size bet) 2 (min_flush_size bet)).
    destruct (Hgo eq_refl); lia. }
  apply (wp_flush_round s i es pre x post p valid (λ v, flush_loop fl fuel bet i p v)); [done..|].
  intros s' t' v Hst Hlt. pose proof (sp_tid _ _ _ _ _ _ Hst) as Htid. cbn [tid] in Htid. rewrite <- Htid.
  apply IH; [apply Hst|exact (stepped_wf _ _ _ _ _ _ p Hst)| |lia|by left|].
  - pose proof (ca_height _ _ _ _ (sp_carries _ _ _ _ _ _ Hst p 0%Z)) as Hle. cbn [single fheight foldr snd] in Hle. lia.
  - intros s2 t2 Hst2 _. apply (HQ s2 t2); [|by left]. exact (stepped_trans _ _ _ _ _ _ _ _ p Hst Hst2).
Qed.
End loop.

(** ** The end of a flush: split if too big *)
Lemma wp_finish tol bet s s1 t elts t1 (b : bool) (k : K) (Q : pivot_map K → St → Prop) E :
  tol store_fault → params_ok bet → stepped (default_value bet) s s1 t elts t1 →
  (b = true → (max_node_size bet <= node_size (tnode t1))%Z) →
  (lenient tol ∨ (careful bet s t elts ∧ drained (st_dirty s1) t1 ∧ leaves t1 = leaves t ∧
                  length (tes t1) ≤ length (entries t) + 1)) →
  (∀ s' G r, flushed bet s s' t elts G r → (lenient tol ∨ tidy s' t G) → Q r s') →
  wp tol (if b then split bet (tid t1) else ret []) s1 Q E.
Proof.
  intros Htol [_ Hmax] Hst Hb Hmode HQ. destruct b; [specialize (Hb eq_refl)|].
  - apply wp_split_flushed; [done|apply Hst|by eapply stepped_wf| | |].
    + destruct (tes t1) eqn:E1; [|by left]. destruct (tch t1) eqn:E2; [|by right].
      unfold node_size, tnode in Hb. rewrite E1, E2 in Hb. cbn in Hb. lia.
    + destruct Hmode as [|([_ Hm _ Hsz _] & _ & Hlv & Htes)]; [by left|right]. split; [done|].
      unfold node_size, tnode in Hb. cbn [elements pivots] in Hb. rewrite length_fpivots in Hb.
      pose proof (fleaves_length (tch t1)) as Hfl. pose proof (leaves_unfold t1) as Hlu.
      destruct (tch t1); cbn [length] in *; lia.
    + intros s' F Hfl Hd Hl. apply (HQ s' F); [by eapply stepped_flushed|].
      destruct Hmode as [|(_ & Hdr & Hlv & Htes)]; [by left|right]. split; [|lia].
      by apply Hd.
  - apply (HQ s1 (single k 0%Z t1)); [by apply stepped_kept|].
    destruct Hmode as [|(_ & Hdr & Hlv & _)]; [by left|right]. split; [by intros ? ->%elem_of_single|].
    cbn. lia.
Qed.

(** ** A batch into the buffer of a node *)
Lemma stepped_apply bet s s' i es ch elts n' :
  holds s (Tree i es ch) → wf (Tree i es ch) → newer (entries (Tree i es ch)) elts →
  applied_all (no_children ch) (default_value bet) es elts (elements n') → covered (elements n') ch →
  holds s' (Tree i (elements n') ch) → evolves {[ i ]} s s' →
  stepped (default_value bet) s s' (Tree i es ch) elts (Tree i (elements n') ch).
Proof.
  intros Hh Hwf Hnew Happ Hcov Hh' Hev. split; [intros; by apply carries_apply| | |done|done].
  - intros k z. by eapply stored_update.
  - eapply evolves_mono; [done|]. intros j ->%elem_of_singleton. apply elem_of_id_set, (tid_in_ids (Tree i es ch)).
Qed.

Lemma wp_apply_batch {A} tol bet s i es ch elts (f : node K V → M St A) Q E :
  tol store_fault → holds s (Tree i es ch) → wf (Tree i es ch) → batch_ok elts →
  newer (entries (Tree i es ch)) elts →
  (ch = [] ∨ ∀ e, e ∈ elts → ∃ x, x ∈ ch ∧ klt (ekey e) x.1 = false) →
  (∀ s' es', let t' := Tree i es' ch in
     stepped (default_value bet) s s' (Tree i es ch) elts t' →
     (∀ e, e ∈ es' → e ∈ es ∨ ∃ e', e' ∈ elts ∧ e'.1 = e.1) → length es' ≤ length es + length elts →
     (∀ j, st_dirty s' j ↔ st_dirty s j) → wp tol (f (tnode t')) s' Q E) →
  wp tol (let! n := of_option assert_failed (apply_all (tnode (Tree i es ch)) elts (default_value bet)) in
          st_update i n ;; f n) s Q E.
Proof.
  intros Htol Hh Hwf HB Hnew Hcovers Hk. destruct (wf_inv _ Hwf) as (Hb & Hf & Hc & _). cbn [tes tch] in *.
  assert (is_leaf (tnode (Tree i es ch)) = no_children ch) as Hleaf by (by destruct ch).
  destruct (apply_all_spec (tnode (Tree i es ch)) elts (default_value bet)) as (n' & Hap & Hp & Ha).
  { by rewrite Hleaf. } { done. }
  { intros e e' He. apply Hnew. rewrite entries_unfold. apply elem_of_app. auto. }
  rewrite Hleaf in Ha. destruct n' as [ps es']. cbn [pivots elements tnode tch tes] in *. subst ps.
  assert (covered es' ch) as Hcov'.
  { destruct Hcovers as [->|Hcovers]; [by left|]. destruct Hc as [->|Hc]; [by left|right].
    intros e [He|(e' & He' & Heq)]%(aa_from _ _ _ _ _ Ha); [auto|]. unfold ekey. rewrite <- Heq. by apply Hcovers. }
  rewrite Hap. unfold of_option. apply wp_bind. unfold wp at 1, ret at 1.
  eapply wp_bind, wp_holds_update; [done..|]. intros s' Hh' Hd' _ Hev.
  apply (Hk s' es'); [|apply Ha|apply Ha|done].
  by apply (stepped_apply bet s s' i es ch elts (MkNode (fpivots ch) es')).
Qed.

(** ** Inner nodes *)
Section inner.
Context (tol : fault → Prop) (Htol : tol store_fault) (bet : betree V) (Hpar : params_ok bet).
Context (fl : node_pointer → message_map K V → M St (pivot_map K)) (h : nat) (Hfl : flush_spec tol bet fl h).
Notation d := (default_value bet).
Context (s : St) (i : N) (es elts : message_map K V).

Lemma drained_apply s' es' ch :
  drained (st_dirty s) (Tree i es ch) → (∀ j, st_dirty s' j ↔ st_dirty s j) →
  (∀ e, e ∈ es' → e ∈ es ∨ ∃ e', e' ∈ elts ∧ e'.1 = e.1) →
  (∀ x e, x ∈ ch → e ∈ elts → routes ch x.1 (ekey e) → ¬ st_dirty s (tid x.2.2)) →
  drained (st_dirty s') (Tree i es' ch).
Proof.
  intros Hd Hdd Hfrom Hclean. inversion Hd as [? ? ? Hd1 Hd2]; subst. constructor.
  - intros x Hx Hdx e He Hr. apply Hdd in Hdx. destruct (Hfrom e He) as [He'|(e' & He' & Heq)].
    + by apply (Hd1 x Hx Hdx e).
    + apply (Hclean x e' Hx He'); [|done]. unfold ekey in *. by rewrite Heq.
  - intros x Hx. eapply drained_frame; [by apply Hd2|]. intros j _. by rewrite Hdd.
Qed.

Lemma wp_into_buffer ch p (Q : pivot_map K → St → Prop) E :
  let t := Tree i es ch in
  holds s t → wf t → batch_ok elts → newer (entries t) elts → height t ≤ S h →
  (ch = [] ∨ ∀ e, e ∈ elts → ∃ x, x ∈ ch ∧ klt (ekey e) x.1 = false) →
  (lenient tol ∨ (careful bet s t elts ∧
     ∀ x e, x ∈ ch → e ∈ elts → routes ch x.1 (ekey e) → ¬ st_dirty s (tid x.2.2))) →
  (∀ s' G r, flushed bet s s' t elts G r → (lenient tol ∨ tidy s' t G) → Q r s') →
  wp tol (let! n := of_option assert_failed (apply_all (tnode t) elts d) in
          st_update i n ;;
          flush_loop fl (S (length (elements n))) bet i p true ;;
          let! n := st_deref i in
          if (max_node_size bet <? node_size n)%Z then split bet i else ret []) s Q E.
Proof.
  cbn zeta. intros Hh Hwf HB Hnew Hht Hcov Hmode HQ. apply (wp_apply_batch tol bet); [done..|].
  intros s1 es1 t1 Hst1 Hfrom Hlen Hd1. subst t1.
  assert (length es ≤ length (entries (Tree i es ch))) as Hle by (rewrite entries_unfold, length_app; cbn; lia).
  eapply wp_bind, (wp_flush_loop tol Htol bet Hpar fl h Hfl _ s1 (Tree i es1 ch));
    [apply Hst1|exact (stepped_wf _ _ _ _ _ _ p Hst1)|done|cbn; lia| |].
  { destruct Hmode as [|[[Hone _ Hfs _ _] _]]; [by left|right]. cbn [tes]. lia. }
  intros s2 t2 Hst2 Hsame. pose proof (stepped_trans _ _ _ _ _ _ _ _ p Hst1 Hst2) as Hst.
  pose proof (sp_tid _ _ _ _ _ _ Hst) as Htid. cbn [tid] in Htid. rewrite <- Htid.
  apply wp_bind, wp_holds_deref; [apply Hst2|].
  eapply (wp_finish tol bet s s2); [done..| | |exact HQ].
  { intros ?%Z.ltb_lt. lia. }
  destruct Hmode as [|[Hcf Hclean]]; [by left|]. destruct Hsame as [|[-> ->]]; [by left|right].
  split_and!; [done| |by destruct ch|cbn [tes]; destruct Hcf; lia].
  eapply drained_apply; [apply Hcf|done..].
Qed.

Lemma in_forest_sizes ch (x : K * (Z * tree K V)) :
  x ∈ ch → leaves x.2.2 ≤ leaves (Tree i es ch) ∧ length (entries x.2.2) ≤ length (entries (Tree i es ch)).
Proof.
  intros Hx. rewrite (entries_unfold (Tree _ _ _)), (leaves_unfold (Tree _ _ _)). cbn [tes tch].
  apply list_elem_of_split in Hx as (pre & post & ->). rewrite fentries_app, fentries_cons, !length_app.
  split; [|lia]. transitivity (fleaves (pre ++ x :: post)); [rewrite fleaves_app; cbn; lia|]. by destruct pre.
Qed.

Lemma careful_child ch (x : K * (Z * tree K V)) :
  careful bet s (Tree i es ch) elts → x ∈ ch → careful bet s x.2.2 elts.
Proof.
  intros [Hone Hmax Hfs Hsz Hd] Hx. destruct (in_forest_sizes ch x Hx) as [Hl He]. split; [done|done|lia|lia|].
  inversion Hd; subst. auto.
Qed.

Lemma careful_drained pre x post e :
  careful bet s (Tree i es (pre ++ x :: post)) elts → sorted (pre ++ x :: post) →
  st_dirty s (tid x.2.2) → e ∈ es → in_range x.1 post (ekey e) = false.
Proof.
  intros Hcf Hs Hdx He. destruct (in_range x.1 post (ekey e)) eqn:Er; [exfalso|done].
  apply (in_range_routes pre) in Er; [|done]. pose proof (cf_drained _ _ _ _ Hcf) as Hd.
  inversion Hd as [? ? ? Hd1 _]; subst. by apply (Hd1 x (x_in_ch pre post x) Hdx e).
Qed.

Lemma child_install s1 pre x post G r :
  holds s (Tree i es (pre ++ x :: post)) → wf (Tree i es (pre ++ x :: post)) →
  (∀ e, e ∈ elts → in_range x.1 post (ekey e) = true) →
  (∀ e, e ∈ es → e ∈ es ∧ in_range x.1 post (ekey e) = false) →
  flushed bet s s1 x.2.2 elts G r → forest_ok G → G ≠ [] →
  (∀ y, y ∈ G → y.1 = x.1 ∨ y.1 ∈ tkeys x.2.2 ∨ y.1 ∈ ekey <$> elts) →
  ∀ s3, installed i pre post x s1 s3 G es →
    stepped d s s3 (Tree i es (pre ++ x :: post)) elts (Tree i es (pre ++ G ++ post)).
Proof.
  intros Hh Hwf Hours Hfree Hfl1 Hok HneG Hkeys s3 Hin. destruct (wf_inv _ Hwf) as (Hb & _). cbn [tes] in Hb.
  eapply (replace_stepped bet s s1 i es es elts elts); eauto; try done; try apply Hb.
  - intros k0 o Hk0. rewrite (msgs_nil k0 es); [done|]. intros e He <-. destruct (Hfree e He). congruence.
  - intros k0 Hk0. apply msgs_nil. intros e He <-. specialize (Hours e He). congruence.
  - lia.
Qed.

(** Nothing waits for a dirty child afterwards, either. *)
Lemma child_drained s1 s2 pre x post G r :
  holds s (Tree i es (pre ++ x :: post)) → wf (Tree i es (pre ++ x :: post)) →
  (∀ e, e ∈ elts → in_range x.1 post (ekey e) = true) →
  (∀ e, e ∈ es → e ∈ es ∧ in_range x.1 post (ekey e) = false) →
  flushed bet s s1 x.2.2 elts G r → forest_ok G → G ≠ [] →
  (∀ y, y ∈ G → y.1 = x.1 ∨ y.1 ∈ tkeys x.2.2 ∨ y.1 ∈ ekey <$> elts) →
  drained (st_dirty s) (Tree i es (pre ++ x :: post)) → tidy s1 x.2.2 G →
  (∀ j, st_dirty s2 j → st_dirty s1 j ∨ j = tid x.2.2) →
  (∀ y j, y ∈ G → j ∈ fids (tch y.2.2) → st_dirty s2 j → st_dirty s1 j) →
  drained (st_dirty s2) (Tree i es (pre ++ G ++ post)).
Proof.
  intros Hh Hwf Hours Hfree Hfl1 Hok HneG Hkeys Hdr [Htd _] Hd2 HdG.
  destruct (wf_inv _ Hwf) as (Hb & _). cbn [tes] in Hb.
  eapply (replace_drained d i es es elts); try done; try apply Hb; [apply Hfl1| |].
  - intros y j Hy Hj Hj2.
    assert (j ∈ fids pre ∨ j ∈ fids post) as Hjo.
    { rewrite !elem_of_fids. apply elem_of_app in Hy as [Hy|Hy]; eauto. }
    destruct (sibling_ids s i es pre post x Hh j Hjo) as (Hjx & _ & [m Hm]).
    destruct (Hd2 j Hj2) as [Hj1|Heq]; [|by rewrite Heq in Hjx; destruct Hjx; apply tid_in_ids].
    destruct (ev_dirty _ _ _ (fl_ev _ _ _ _ _ _ _ Hfl1) j Hj1) as [?|[Hin%elem_of_id_set|?]]; [done..|congruence].
  - intros y Hy. eapply drained_below; [by apply Htd|]. eauto.
Qed.

Lemma child_tidy s1 s2 pre x post G t2 k z :
  tidy s1 x.2.2 G → drained (st_dirty s2) t2 → leaves t2 = fleaves (pre ++ G ++ post) →
  tidy s2 (Tree i es (pre ++ x :: post)) (single k z t2).
Proof.
  intros [_ Hl] Hd Hlv. split; [by intros ? ->%elem_of_single|].
  destruct (in_forest_sizes (pre ++ x :: post) x (x_in_ch pre post x)) as [_ He].
  assert (leaves (Tree i es (pre ++ x :: post)) = fleaves (pre ++ x :: post)) as ->
    by (rewrite leaves_unfold; cbn [tch]; by destruct pre).
  change (fleaves (single k z t2)) with (leaves t2 + 0). rewrite Hlv, !fleaves_app.
  change (fleaves (x :: post)) with (leaves x.2.2 + fleaves post). lia.
Qed.

Lemma leaves_installed pre post G : G ≠ [] → leaves (Tree i es (pre ++ G ++ post)) = fleaves (pre ++ G ++ post).
Proof. intros Hne. rewrite leaves_unfold. cbn [tch]. by destruct pre, G. Qed.

(** A child that was not split keeps its id, which none of its own children has. *)
Lemma lone_child_below s1 x G r y j :
  flushed bet s s1 x.2.2 elts G r → fpivots G = [pivot_of x] → y ∈ G → j ∈ fids (tch y.2.2) → j ≠ tid x.2.2.
Proof.
  intros Hfl1 HG Hy Hj ->. pose proof (so_nodup _ _ _ _ (fl_stored _ _ _ _ _ _ _ Hfl1)) as Hnd.
  destruct G as [|y' [|]]; try done. apply list_elem_of_singleton in Hy as ->. injection HG as _ Hid _.
  rewrite fids_cons, ids_unfold, Hid in Hnd. apply NoDup_cons in Hnd as [Hni _]. apply Hni, elem_of_app. auto.
Qed.

(** After the child has taken the messages: its new size is recorded, or its successors take its place. *)
Lemma wp_after_child s1 pre x post G r (Q : pivot_map K → St → Prop) E :
  let t := Tree i es (pre ++ x :: post) in
  holds s t → wf t → (∀ e, e ∈ elts → in_range x.1 post (ekey e) = true) →
  (∀ e, e ∈ es → e ∈ es ∧ in_range x.1 post (ekey e) = false) →
  flushed bet s s1 x.2.2 elts G r → forest_ok G → G ≠ [] →
  (∀ y, y ∈ G → y.1 = x.1 ∨ y.1 ∈ tkeys x.2.2 ∨ y.1 ∈ ekey <$> elts) →
  ((r = [] ∧ fpivots G = [pivot_of x]) ∨
   (r = fpivots G ∧ r ≠ [] ∧ st_view s1 !! tid x.2.2 = Some empty_node ∧ tid x.2.2 ∉ fids G)) →
  (lenient tol ∨ careful bet s t elts ∧ tidy s1 x.2.2 G) →
  (∀ s' G r, flushed bet s s' t elts G r → (lenient tol ∨ tidy s' t G) → Q r s') →
  wp tol
    (let! n := st_deref i in
     match r with
     | [] =>
         let! sz := child_total (tid x.2.2) in
         let! n := st_deref i in
         st_update i (set_pivots n (set_child_size (pivots n) x.1 sz)) ;; ret []
     | _ => st_release (tid x.2.2) ;; st_update i (replace_pivot n x.1 r) ;; ret []
     end) s1 Q E.
Proof.
  cbn zeta. intros Hh Hwf Hours Hfree Hfl1 Hok HneG Hkeys Hr Hmode1 HQ.
  destruct (wf_inv _ Hwf) as (_ & Hf & _). pose proof (fo_sorted _ Hf) as Hsc.
  destruct (child_flushed_node bet s i es pre post x Hh s1 elts G r Hfl1) as (Hn1 & Hi1 & Hp1 & Hd1).
  pose proof (child_install s1 pre x post G r Hh Hwf Hours Hfree Hfl1 Hok HneG Hkeys) as Hinst.
  apply wp_bind. unfold wp at 1. rewrite (st_deref_spec s1 i _ Hi1 Hp1 Hn1).
  destruct Hr as [[-> HG]|(-> & Hrne & Hemp & Hid)].
  - assert (fpivots (pre ++ x :: post) = fpivots (pre ++ G ++ post)) as Hp by (by rewrite !fpivots_app, HG).
    assert (st_view s1 = <[ i := MkNode (fpivots (pre ++ G ++ post)) es ]> (st_view s1)) as Hv1.
    { rewrite insert_id; [done|]. by rewrite Hn1, <- Hp. }
    specialize (Hinst s1 (installed_update i pre post x s1 s1 G es Hv1 (evolves_refl _ _ Hi1))).
    eapply (wp_record_size tol d); [done|apply Hinst|exact (stepped_wf _ _ _ _ _ _ x.1 Hinst)|by apply child_id_installed|].
    intros s2 sz Hst2 Hd2. pose proof (stepped_trans _ _ _ _ _ _ _ _ x.1 Hinst Hst2) as Hst.
    eapply (HQ s2 _ []); [exact (stepped_kept _ _ _ _ _ _ x.1 Hst)|].
    destruct Hmode1 as [|[Hcf Htd]]; [by left|right]. eapply child_tidy; [done| |].
    + apply set_size_drained. eapply (child_drained s1); try done; [apply Hcf|].
      intros y j Hy Hj Hj2. destruct (Hd2 j Hj2) as [|Hjx]; [done|]. by destruct (lone_child_below s1 x G [] y j Hfl1 HG Hy Hj).
    + rewrite <- (set_size_fleaves x.1 sz), leaves_unfold. cbn [tch]. by destruct pre, G.
  - destruct (fpivots G) as [|p0 ps] eqn:HfG; [done|]. rewrite <- HfG.
    pose proof (install_ok bet s s1 i es elts pre post G x _ Hwf Hours Hfl1 Hok Hkeys) as Hok'.
    unfold tnode. cbn [tes tch]. rewrite replace_pivot_middle by (done || apply Hok').
    assert (tid x.2.2 ≠ i) as Hxi by (by eapply child_not_self).
    eapply wp_bind, wp_release; [done|done|exact Hemp|done| |].
    { rewrite (ev_pins _ _ _ (fl_ev _ _ _ _ _ _ _ Hfl1)). eapply child_free; [done..|apply tid_in_ids]. }
    intros s1' Hv1' Hd1' Hev1'.
    apply wp_bind, wp_update; [done|apply Hev1'|by rewrite (ev_pins _ _ _ Hev1')|by apply Hd1'|].
    intros s2 Hv2 Hd2 Hev2.
    assert (installed i pre post x s1 s2 G es) as Hin.
    { eapply (installed_release s i es pre post x Hh s1 s1 s1' s2); try done; [|by apply evolves_refl].
      symmetry. by apply insert_id. }
    specialize (Hinst s2 Hin).
    eapply (HQ s2 _ []); [exact (stepped_kept _ _ _ _ _ _ x.1 Hinst)|].
    destruct Hmode1 as [|[Hcf Htd]]; [by left|right].
    eapply child_tidy; [done| |by apply leaves_installed].
    eapply (child_drained s1); try done; [apply Hcf|..].
    + intros j Hj. left. by apply Hd1', Hd2.
    + intros y j _ _ Hj. by apply Hd1', Hd2.
Qed.
Lemma wp_into_child pre x post (Q : pivot_map K → St → Prop) E :
  let t := Tree i es (pre ++ x :: post) in
  holds s t → wf t → batch_ok elts → elts ≠ [] → newer (entries t) elts → height t ≤ S h →
  (∀ e, e ∈ elts → in_range x.1 post (ekey e) = true) → st_dirty s (tid x.2.2) →
  (lenient tol ∨ careful bet s t elts) →
  (∀ s' G r, flushed bet s s' t elts G r → (lenient tol ∨ tidy s' t G) → Q r s') →
  wp tol
    (assert_ (length (get_element_begin (tnode t) x.1) =?
              length (get_element_begin_it (tnode t) (next_key post)))%nat ;;
     let! new_children := arrow (tid x.2.2) true (fl (tid x.2.2) elts) in
     let! n := st_deref i in
     match new_children with
     | [] =>
         let! sz := child_total (tid x.2.2) in
         let! n := st_deref i in
         st_update i (set_pivots n (set_child_size (pivots n) x.1 sz)) ;; ret []
     | _ => st_release (tid x.2.2) ;; st_update i (replace_pivot n x.1 new_children) ;; ret []
     end) s Q E.
Proof.
  cbn zeta. intros Hh Hwf HB Hne Hnew Hht Hours Hdx Hmode HQ.
  destruct (wf_inv _ Hwf) as (Hb & Hf & _ & Hnw & _). cbn [tes tch] in *.
  pose proof Hb as [Hs Hts _ _]. pose proof (fo_sorted _ Hf) as Hsc.
  unfold tnode at 1 2. cbn [tch tes]. rewrite range_from by done. rewrite length_app.
  set (B0 := List.filter (λ e, in_range x.1 post (ekey e)) es).
  apply wp_bind, wp_assert_or.
  { destruct Hmode as [|Hcf]; [by left|right]. unfold B0. rewrite lfilter_none; [cbn; apply Nat.eqb_refl|].
    intros e He. by eapply careful_drained. }
  intros Hlen%Nat.eqb_eq. assert (B0 = []) as HB0 by (apply nil_length_inv; lia). clear Hlen.
  assert (∀ e, e ∈ es → e ∈ es ∧ in_range x.1 post (ekey e) = false) as Hfree.
  { intros e He. split; [done|]. exact (lfilter_nil_inv _ _ e HB0 He). }
  eapply wp_bind, wp_child_flush; [done|exact Hh|done|exact Hfl| |done..| | |].
  { rewrite height_unfold in Hht. cbn [tch] in Hht. pose proof (fheight_elem _ _ (x_in_ch pre post x)). lia. }
  { intros e e' He. apply Hnew. rewrite entries_unfold. apply elem_of_app. left.
    apply elem_of_fentries. exists x. split; [apply x_in_ch|done]. }
  { destruct Hmode as [|Hcf]; [by left|right]. exact (careful_child _ x Hcf (x_in_ch pre post x)). }
  intros s1 G0 r Hfl0 Htidy0.
  destruct (flushed_replacement bet s s1 i es pre x post elts G0 r Hwf Hours Hfl0)
    as (G & Hfl1 & Htidy & Hok & HneG & Hkeys & Hr).
  eapply wp_after_child; [done..|destruct Hmode, Htidy0; auto|exact HQ].
Qed.
End inner.

(** ** The whole of [flush] *)

(** A batch lies between its first and its last message. *)
Lemma batch_bounds e1 elts el e :
  sorted (e1 :: elts) → last (e1 :: elts) = Some el → e ∈ e1 :: elts →
  klt (ekey e) (ekey e1) = false ∧ klt (ekey el) (ekey e) = false.
Proof.
  intros Hs Hl He. split.
  - apply sorted_cons in Hs as [Hs _]. apply elem_of_cons in He as [->|He]; [apply klt_irrefl|].
    exact (mkey_lt_key_le _ _ (Hs e He)).
  - apply last_Some in Hl as [l Hl]. rewrite Hl in Hs, He. apply sorted_app in Hs as (_ & _ & Hs).
    apply elem_of_app in He as [He| ->%list_elem_of_singleton]; [|apply klt_irrefl].
    exact (mkey_lt_key_le _ _ (Hs e el He (proj2 (list_elem_of_singleton _ _) eq_refl))).
Qed.

(** Lowering the first pivot to a key of the batch. *)
Lemma flushed_lower bet s s1 s' i es ch k elts G r :
  holds s (Tree i es ch) → evolves {[ i ]} s s1 → k ∈ ekey <$> elts →
  flushed bet s1 s' (Tree i es (lower k ch)) elts G r → flushed bet s s' (Tree i es ch) elts G r.
Proof.
  intros Hh Hev1 Hk [Hc Hst Hev Hr].
  assert (∀ k0, k0 ∈ tkeys (Tree i es (lower k ch)) → k0 ∈ tkeys (Tree i es ch) ∨ k0 ∈ ekey <$> elts) as Hks.
  { intros k0 [?| ->]%lower_tkeys; auto. }
  assert (ids (Tree i es (lower k ch)) = ids (Tree i es ch)) as Hids.
  { rewrite !ids_unfold. cbn [tid tch]. unfold fids. by rewrite lower_fnodes. }
  split.
  - eapply carries_from; [done| | |done].
    + rewrite !entries_unfold. cbn [tes tch]. by rewrite lower_fentries.
    + rewrite !height_unfold. cbn [tch]. by rewrite lower_fheight.
  - destruct Hst as [Hrep Hnd Hi]. split; [done..|]. rewrite Hids in Hi. intros j Hj.
    destruct (Hi j Hj) as [|Hnone]; [auto|]. destruct (st_view s !! j) eqn:Ej; [|by right].
    destruct (evolves_dom _ _ _ j Hev1) as [[? ?]| ->%elem_of_singleton]; [by rewrite Ej|congruence|].
    left. apply (tid_in_ids (Tree i es ch)).
  - unfold id_set in *. rewrite Hids in Hev. eapply evolves_trans; [eapply evolves_mono; [exact Hev1|]|exact Hev|auto].
    intros j ->%elem_of_singleton. apply elem_of_id_set, (tid_in_ids (Tree i es ch)).
  - destruct Hr as [Hr|(-> & Hne & Hok & Hkeys & Hemp & Hid)]; [by left|right]. split_and!; [done..| |done|done].
    intros y Hy. destruct (Hkeys y Hy); auto.
Qed.

Lemma careful_lower bet s s1 i es ch k elts :
  wf (Tree i es ch) → (∀ j, st_dirty s1 j ↔ st_dirty s j) →
  careful bet s (Tree i es ch) elts → careful bet s1 (Tree i es (lower k ch)) elts.
Proof.
  intros Hwf Hd [Hone Hmax Hfs Hsz Hdr].
  assert (entries (Tree i es (lower k ch)) = entries (Tree i es ch)) as He
    by (rewrite !entries_unfold; cbn [tes tch]; by rewrite lower_fentries).
  split; rewrite ?He; [done..| |].
  - rewrite !leaves_unfold in *. cbn [tch] in *. pose proof (lower_fleaves k ch) as Hl.
    pose proof (lower_nil k ch). destruct (lower k ch), ch; naive_solver lia.
  - apply lower_drained; [done|]. eapply drained_frame; [done|]. intros j _. by rewrite Hd.
Qed.

Lemma tidy_lower s' i es ch k G : tidy s' (Tree i es (lower k ch)) G → tidy s' (Tree i es ch) G.
Proof.
  intros [Hd Hl]. split; [done|]. rewrite !entries_unfold, !leaves_unfold in *. cbn [tes tch] in *.
  rewrite lower_fentries in Hl. pose proof (lower_fleaves k ch) as Hf. pose proof (lower_nil k ch) as Hn.
  destruct (lower k ch) as [|y chl], ch as [|x chx]; rewrite <- ?Hf; try done; naive_solver.
Qed.

(** An inner node that has a child for every message of the batch. *)
Lemma wp_flush_inner tol bet fl h s i es ch e1 elts' el (Q : pivot_map K → St → Prop) E :
  let elts := e1 :: elts' in
  let t := Tree i es ch in
  tol store_fault → params_ok bet → flush_spec tol bet fl h →
  holds s t → wf t → batch_ok elts → newer (entries t) elts → height t ≤ S h →
  last elts = Some el → ch ≠ [] → (∃ x, x ∈ ch ∧ klt (ekey e1) x.1 = false) →
  (lenient tol ∨ careful bet s t elts) →
  (∀ s' G r, flushed bet s s' t elts G r → (lenient tol ∨ tidy s' t G) → Q r s') →
  wp tol
    (let! first_pivot_idx := get_pivot (fpivots ch) (mk_key e1.1) in
     let! last_pivot_idx := get_pivot (fpivots ch) (mk_key el.1) in
     let c := child first_pivot_idx.2 in
     let! to_dirty :=
       if keq first_pivot_idx.1 last_pivot_idx.1 then st_is_dirty c else ret false in
     if to_dirty then
       assert_ (length (get_element_begin (tnode t) first_pivot_idx.1) =?
                length (get_element_begin_it (tnode t) (next_pivot (fpivots ch) first_pivot_idx.1)))%nat ;;
       let! new_children := arrow c true (fl c elts) in
       let! n := st_deref i in
       match new_children with
       | [] =>
           let! sz := child_total c in
           let! n := st_deref i in
           st_update i (set_pivots n (set_child_size (pivots n) first_pivot_idx.1 sz)) ;; ret []
       | _ => st_release c ;; st_update i (replace_pivot n first_pivot_idx.1 new_children) ;; ret []
       end
     else
       let! n := of_option assert_failed (apply_all (tnode t) elts (default_value bet)) in
       st_update i n ;;
       flush_loop fl (S (length (elements n))) bet i first_pivot_idx.1 true ;;
       let! n := st_deref i in
       if (max_node_size bet <? node_size n)%Z then split bet i else ret []) s Q E.
Proof.
  cbn zeta. intros Htol Hpar Hfl Hh Hwf HB Hnew Hht Hlast Hchne Hcov Hmode HQ.
  destruct (wf_inv _ Hwf) as (_ & Hf & _). cbn [tch] in Hf. pose proof (fo_sorted _ Hf) as Hsc.
  pose proof (batch_sorted _ HB) as Hsb.
  assert (∀ e, e ∈ e1 :: elts' → ∃ x, x ∈ ch ∧ klt (ekey e) x.1 = false) as Hcov'.
  { intros e He. destruct Hcov as (x & Hx & Hk). exists x. split; [done|].
    destruct (batch_bounds e1 elts' el e Hsb Hlast He) as [Hb1 _]. by eapply kle_trans. }
  destruct (get_pivot_found ch (ekey e1) s Hsc Hcov) as (pre & x & post & Hch & Hrx & Hget1).
  destruct (get_pivot_found ch (ekey el) s Hsc) as (pre2 & y & post2 & Hch2 & Hry & Hget2).
  { apply Hcov'. apply last_Some in Hlast as [l ->]. apply elem_of_app. right. by apply list_elem_of_singleton. }
  assert (x ∈ ch) as Hx by (rewrite Hch; apply x_in_ch).
  assert (y ∈ ch) as Hy by (rewrite Hch2; apply x_in_ch).
  apply wp_bind. unfold wp at 1. unfold ekey in Hget1. rewrite Hget1.
  apply wp_bind. unfold wp at 1. unfold ekey in Hget2. rewrite Hget2. cbn [pivot_of fst snd child].
  destruct (st_is_dirty_spec s (tid x.2.2)) as (b & Hb & Hbd); [apply Hh| |].
  { eapply rep_dom; [apply Hh|]. rewrite ids_unfold. apply elem_of_cons. right. apply elem_of_fids.
    exists x. split; [done|apply tid_in_ids]. }
  apply wp_bind. eapply (wp_mono tol _ s (λ v s1, s1 = s ∧ v = (keq x.1 y.1 && b))) with (E := no_exn); [| |done].
  { destruct (keq x.1 y.1); [unfold wp; by rewrite Hb|done]. }
  intros v s1 [-> ->]. destruct (keq x.1 y.1 && b) eqn:Hd.
  - apply andb_true_iff in Hd as [Hxy%keq_eq Hd]. assert (x = y) as <- by by eapply sorted_key_unique.
    rewrite Hch in Hsc |- *. rewrite next_pivot_middle by done. rewrite Hch in Hh, Hwf, Hnew, Hht, Hmode, HQ, Hrx, Hry.
    eapply (wp_into_child tol Htol bet fl h Hfl); try done; [|by apply Hbd].
    intros e He. apply (in_range_routes pre); [done|].
    destruct (batch_bounds e1 elts' el e Hsb Hlast He) as [Hb1 Hb2]. split.
    + eapply kle_trans; [apply Hrx|exact Hb1].
    + intros z Hz Hlt. eapply kle_lt_trans; [exact Hb2|]. by apply Hry.
  - eapply (wp_into_buffer tol Htol bet Hpar fl h Hfl); try done; [by right|].
    destruct Hmode as [|Hcf]; [by left|right]. split; [done|].
    pose proof (cf_one _ _ _ _ Hcf) as Hone. destruct elts'; [|done]. injection Hlast as <-.
    rewrite Hget1 in Hget2. injection Hget2 as Hxy _ _. rewrite Hxy, keq_refl in Hd. cbn in Hd.
    intros z e Hz ->%list_elem_of_singleton Hrz.
    assert (z = x) as -> by by eapply routes_unique. intros Hdz%Hbd. congruence.
Qed.

Lemma wp_flush tol bet : tol store_fault → params_ok bet → ∀ fuel, flush_spec tol bet (flush fuel bet) fuel.
Proof.
  intros Htol Hpar. induction fuel as [|fuel IH]; intros t elts s Q E Hh Hwf HB Hne Hnew Hht Hmode HQ.
  { destruct t. cbn in Hht. lia. }
  destruct elts as [|e1 elts']; [done|]. destruct (last (e1 :: elts')) as [el|] eqn:Hlast.
  2:{ by apply last_None in Hlast. }
  cbn [flush]. rewrite Hlast. apply wp_bind, wp_holds_deref; [done|].
  destruct t as [i es ch]. cbn [tid] in *. destruct ch as [|x ch].
  - cbn [is_leaf tnode fpivots fmap list_fmap tch tes pivots].
    apply (wp_apply_batch tol bet s i es []); try done; [by left|].
    intros s1 es1 t1 Hst Hfrom Hlen Hd1.
    apply (wp_finish tol bet s s1 (Tree i es []) (e1 :: elts') t1 _ (ekey e1)); try done.
    { intros ?%Z.leb_le. done. }
    destruct Hmode as [|Hcf]; [by left|right]. split_and!; [done| |done|].
    + constructor; intros ? ?%elem_of_nil; done.
    + rewrite entries_unfold, (cf_one _ _ _ _ Hcf) in *. cbn in *. lia.
  - change (is_leaf (tnode (Tree i es (x :: ch)))) with false. cbn iota.
    change (tnode (Tree i es (x :: ch))) with (MkNode (fpivots (x :: ch)) es).
    destruct (wf_inv _ Hwf) as (_ & Hf & _). cbn [tch] in Hf.
    rewrite lower_first_pivot_spec by apply Hf.
    eapply wp_bind, wp_holds_update; [done..|apply lower_fnodes|]. intros s1 Hh1 Hd1 _ Hev1.
    pose proof (lower_wf i es (x :: ch) (mk_key e1.1) Hwf) as Hwf1.
    eapply (wp_flush_inner tol bet (flush fuel bet) fuel s1 i es (lower (mk_key e1.1) (x :: ch)) e1 elts' el);
      try done.
    + rewrite entries_unfold in *. cbn [tch tes] in *. by rewrite lower_fentries.
    + rewrite height_unfold in *. cbn [tch] in *. by rewrite lower_fheight.
    + by rewrite lower_nil.
    + by apply lower_covers.
    + destruct Hmode as [|Hcf]; [by left|right]. by eapply careful_lower.
    + intros s' G r Hfl Htidy. apply (HQ s' G r).
      * eapply flushed_lower; [done|done| |done]. apply list_elem_of_fmap. exists e1. split; [done|apply elem_of_cons; auto].
      * destruct Htidy as [|Htd]; [by left|right]. by eapply tidy_lower.
Qed.
End flush_proof.
