(* ===== verification/QueryProof.v ===== *)
(** * [node::query]

    On a well-formed tree a query returns the meaning of the messages for the key,
    or throws [out_of_range] when there is none; no assertion fails, and the store
    only swaps. *)
From Stdlib Require Import ZArith Lia.
From stdpp Require Import prelude gmap.
From S2P Require Import Prelude StdMap Message NodeStore BeTree MessageSem Tree NodeLemmas.

#[local] Open Scope cpp_scope.

Section query_proof.
Context {K V : Type} `{KeyOrder K} `{ValueOps V}.
Context {St : Type} `{StoreOps St (node K V)} `{!Store St (node K V)}.
Implicit Types (s : St) (ch : forest K V) (es : message_map K V) (k : K) (t : tree K V).

(** From [k] on: its own messages, then larger keys. *)
Lemma from_key es k : sorted es →
  List.filter (λ e, negb (klt (ekey e) k)) es = for_key k es ++ List.filter (λ e, klt k (ekey e)) es.
Proof.
  intros Hs. unfold for_key. rewrite sorted_filter_app; [|done|].
  - apply lfilter_ext. intros e _. destruct (klt_cases (ekey e) k) as [(->&->&->)|[(->&_)|(->&->&->)]]; cbn; [done| |done].
    by rewrite klt_irrefl, keq_refl.
  - intros x y _ _ Hx%keq_eq Hy. apply mkey_lt_spec. left. unfold ekey in *. by rewrite Hx.
Qed.

Lemma apply_updates_spec d k v l l' s :
  (∀ e, e ∈ l → ekey e = k ∧ opcode e.2 = UPDATE) → (∀ e, e ∈ l' → klt k (ekey e) = true) →
  ∃ v', apply_updates k v (l ++ l') s = Ok v' s ∧ run d (snd <$> l) (Some v) = Some v'.
Proof.
  intros Hl Hl'. revert v. induction l as [|[mk m] l IH]; intros v; cbn [app apply_updates].
  - exists v. split; [|done]. destruct l' as [|[mk m] l']; [done|]. cbn.
    assert (keq (mk_key mk) k = false) as ->; [|done].
    apply keq_ne. intros Hk. specialize (Hl' (mk, m)). unfold ekey in Hl'. cbn in Hl'.
    rewrite Hk, klt_irrefl in Hl'. discriminate Hl'. apply elem_of_cons; auto.
  - destruct (Hl (mk, m)) as [Hk Hop]; [apply elem_of_cons; auto|]. unfold ekey in Hk. cbn in Hk, Hop.
    rewrite Hk, keq_refl, Hop. cbn. destruct (IH ltac:(intros; apply Hl, elem_of_cons; auto) (vadd v (val m))) as (v' & Hv' & Hr).
    exists v'. unfold bind. cbn. split; [done|]. cbn. unfold step at 2. by rewrite Hop.
Qed.

(** The result of a query that leaves the state as swapping does. *)
Definition answers {A} tol (m : M St A) s (o : option A) : Prop :=
  wp tol m s (λ v s', o = Some v ∧ evolves ∅ s s' ∧ st_view s' = st_view s)
             (λ e s', e = out_of_range ∧ o = None ∧ evolves ∅ s s' ∧ st_view s' = st_view s).

Lemma answers_ret {A} tol (v : A) s : st_inv s → answers tol (ret v) s (Some v).
Proof. intros Hinv. split_and!; [done|by apply evolves_refl|done]. Qed.
Lemma answers_throw {A} tol s : st_inv s → answers tol (throw out_of_range : M St A) s None.
Proof. intros Hinv. split_and!; [done|done|by apply evolves_refl|done]. Qed.

Lemma answers_leaf tol es k d s :
  st_inv s → buf_ok true es →
  answers tol (match (lower_bound es (range_start k)).2 with
               | (mk, m) :: _ =>
                   if keq (mk_key mk) k then assert_ (opcode m =? INSERT)%Z ;; ret (val m)
                   else throw out_of_range
               | [] => throw out_of_range
               end) s (run d (msgs k es) None).
Proof.
  intros Hinv [Hs Hts Hc Hl]. specialize (Hl k eq_refl).
  pose proof (get_element_begin_filter (MkNode [] es) k Hs Hts) as Hf. unfold get_element_begin in Hf. cbn [elements] in Hf.
  rewrite Hf, from_key by done. unfold msgs in *. clear Hf.
  pose proof (elem_of_for_key k es) as Hfk.
  destruct (for_key k es) as [|[mk m] l]; cbn [app].
  - cbn. destruct (List.filter (λ e, klt k (ekey e)) es) as [|[mk m] l] eqn:El; [by apply answers_throw|].
    assert ((mk, m) ∈ List.filter (λ e, klt k (ekey e)) es) as Hin by (rewrite El; apply elem_of_cons; auto).
    apply elem_of_lfilter in Hin as [_ Hlt]. unfold ekey in Hlt. cbn in Hlt.
    assert (keq (mk_key mk) k = false) as ->; [|by apply answers_throw].
    apply keq_ne. intros Heq. by rewrite Heq, klt_irrefl in Hlt.
  - cbn in Hl. destruct l as [|[]]; [|done]. destruct (Hfk (mk, m)) as [Hin _].
    destruct Hin as [_ Hk]; [by apply list_elem_of_singleton|]. unfold ekey in Hk. cbn in Hk.
    rewrite Hk, keq_refl, Hl. cbn. unfold step. rewrite Hl. cbn. by apply answers_ret.
Qed.

(** A call through a pointer that does not mark its target dirty. *)
Lemma answers_arrow {A} tol i (body : M St A) s o :
  tol store_fault → st_inv s → is_Some (st_view s !! i) →
  (∀ s1, st_inv s1 → st_view s1 = st_view s → 0 < st_pins s1 i → answers tol body s1 o) →
  answers tol (arrow i false body) s o.
Proof.
  intros Htol Hinv Hi Hbody. apply wp_arrow; [done..|]. intros s1 Hen.
  assert (∀ s2 s3, st_view s2 = st_view s1 → swapped s2 s3 → evolves (∅ ∪ arrow_writes false i) s s3 →
            evolves ∅ s s3 ∧ st_view s3 = st_view s) as Hafter.
  { intros s2 s3 Hv2 [Hv3 _] Hev. split; [eapply evolves_mono; [done|set_solver]|].
    by rewrite Hv3, Hv2, (en_view _ _ _ _ Hen). }
  eapply wp_mono; [apply Hbody; [apply Hen|apply Hen|apply Hen]|..].
  - intros v s2 (Hv & Hev & Hvw). exists ∅. split; [done|]. intros s3 Hsw Hev3.
    by destruct (Hafter s2 s3 Hvw Hsw Hev3).
  - intros e s2 (-> & Hv & Hev & Hvw). exists ∅. split; [done|]. intros s3 Hsw Hev3.
    by destruct (Hafter s2 s3 Hvw Hsw Hev3).
Qed.

(** Asking the child a key routes to. *)
Lemma answers_child tol fuel bet k s t :
  tol store_fault → st_inv s → rep (st_view s) t → wf t → tch t ≠ [] →
  (∀ x s1, x ∈ tch t → st_inv s1 → rep (st_view s1) x.2.2 → 0 < st_pins s1 (tid x.2.2) →
     answers tol (query_node fuel bet (tid x.2.2) k) s1 (lookup (default_value bet) x.2.2 k)) →
  answers tol (let! p := get_pivot (fpivots (tch t)) k in
               arrow (child p.2) false (query_node fuel bet (child p.2) k)) s
          (run (default_value bet) (msgs k (fentries (tch t))) None).
Proof.
  intros Htol Hinv Hrep Hwf Hne IH. destruct (wf_inv _ Hwf) as (_ & Hf & _). pose proof (fo_sorted _ Hf) as Hs.
  destruct (routes_dec (tch t) k Hs) as [(x0 & Hx0 & Hr0)|Hno].
  - destruct (get_pivot_found (tch t) k s Hs) as (pre & x & post & Hch & Hr & Hget); [exists x0; split; [done|apply Hr0]|].
    assert (x ∈ tch t) as Hx by (rewrite Hch; apply elem_of_app; right; apply elem_of_cons; auto).
    apply rep_unfold in Hrep as [_ Hrep]. rewrite frep_elem in Hrep.
    unfold answers. apply wp_bind. unfold wp at 1. rewrite Hget. cbn [pivot_of snd child].
    rewrite (msgs_routes (tch t) x) by done.
    apply answers_arrow; [done|done|eapply rep_dom; [by apply Hrep|apply tid_in_ids]|].
    intros s1 Hi1 Hv1 Hp1. apply IH; [done|done|rewrite Hv1; by apply Hrep|done].
  - rewrite msgs_no_route by done. cbn [run foldl]. unfold answers. apply wp_bind. unfold wp at 1.
    rewrite get_pivot_below; [|done..|].
    + split_and!; [done..|by apply evolves_refl|done].
    + intros x Hx. destruct (klt k x.1) eqn:Ek; [done|].
      destruct (routes_exists (tch t) k Hs) as (y & Hy & Hr); [eauto|by destruct (Hno y)].
Qed.

Lemma answers_bind tol (ask : M St V) s o (f : V → M St V) (F : V → option V) :
  answers tol ask s o → (∀ v s', st_inv s' → answers tol (f v) s' (F v)) →
  answers tol (let! v := ask in f v) s (o ≫= F).
Proof.
  intros Ha Hf. unfold answers in *. apply wp_bind. eapply wp_mono; [exact Ha|..].
  - intros v s' (-> & Hev & Hv). eapply wp_mono; [by apply Hf, Hev|..].
    + intros w s'' (Hw & Hev' & Hv'). split_and!; [done|by eapply evolves_trans; eauto|by rewrite Hv'].
    + intros e s'' (-> & Hw & Hev' & Hv'). split_and!; [done|done|by eapply evolves_trans; eauto|by rewrite Hv'].
  - by intros e s' (-> & -> & ?).
Qed.

Lemma answers_updates tol d k v l rest s :
  st_inv s → (∀ e, e ∈ l → ekey e = k ∧ opcode e.2 = UPDATE) → (∀ e, e ∈ rest → klt k (ekey e) = true) →
  answers tol (apply_updates k v (l ++ rest)) s (run d (snd <$> l) (Some v)).
Proof.
  intros Hinv Hl Hrest. destruct (apply_updates_spec d k v l rest s Hl Hrest) as (v' & Hv' & Hr).
  rewrite Hr. unfold answers, wp. rewrite Hv'. by apply (answers_ret tol).
Qed.

Lemma answers_default tol (ask : M St V) s o d :
  answers tol ask s o → answers tol (catch_oor ask (ret d)) s (Some (default d o)).
Proof.
  intros Ha. unfold answers in *. apply wp_catch_oor. eapply wp_mono; [exact Ha|..].
  - by intros v s' (-> & ?).
  - intros e s' (-> & -> & ?). done.
Qed.

(** Updates only: an absent value counts as the default one. *)
Lemma run_updates_default d (l : list (Message V)) o :
  l ≠ [] → Forall (λ m, opcode m = UPDATE) l → run d l (Some (default d o)) = run d l o.
Proof.
  intros Hne Hu. destruct l as [|m l]; [done|]. inversion Hu as [|? ? Hop _]; subst. cbn. unfold step at 2 4.
  rewrite Hop. done.
Qed.

(** After a [DELETE]: the updates that follow it start from the default value. *)
Lemma answers_after_delete tol d k l rest s :
  st_inv s → (∀ e, e ∈ l → ekey e = k ∧ opcode e.2 = UPDATE) → (∀ e, e ∈ rest → klt k (ekey e) = true) →
  answers tol (match l ++ rest with
               | [] => throw out_of_range
               | (mk', _) :: _ => if key_lt_mkey k mk' then throw out_of_range else apply_updates k d (l ++ rest)
               end) s (run d (snd <$> l) None).
Proof.
  intros Hinv Hl Hrest. destruct l as [|[mk m] l]; cbn [app].
  - cbn. destruct rest as [|[mk m] rest]; [by apply answers_throw|].
    assert (key_lt_mkey k mk = true) as ->; [|by apply answers_throw]. apply (Hrest (mk, m)), elem_of_cons; auto.
  - assert (key_lt_mkey k mk = false) as ->.
    { unfold key_lt_mkey. destruct (Hl (mk, m)) as [<- _]; [apply elem_of_cons; auto|apply klt_irrefl]. }
    rewrite <- (run_updates_default d _ None); [|done|].
    + by apply (answers_updates tol d k d ((mk, m) :: l)).
    + apply Forall_fmap, Forall_forall. intros e He. by apply Hl.
Qed.

Lemma answers_inner tol ask d ps es k s o :
  let n := MkNode ps es in
  st_inv s → buf_ok false es → answers tol ask s o →
  answers tol
    (match get_element_begin n k with
     | [] => ask
     | (mk, m) :: rest =>
         if key_lt_mkey k mk then
           let! v := ask in apply_updates k v ((mk, m) :: rest)
         else if (opcode m =? UPDATE)%Z then
           let! v := catch_oor ask (ret d) in
           apply_updates k v ((mk, m) :: rest)
         else if (opcode m =? DELETE)%Z then
           match rest with
           | [] => throw out_of_range
           | (mk', _) :: _ =>
               if key_lt_mkey k mk' then throw out_of_range
               else apply_updates k d rest
           end
         else if (opcode m =? INSERT)%Z then apply_updates k (val m) rest
         else apply_updates k d ((mk, m) :: rest)
     end) s (run d (msgs k es) o).
Proof.
  intros n Hinv [Hs Hts Hc _] Hask. specialize (Hc k). subst n.
  rewrite get_element_begin_filter by done. cbn [elements]. rewrite from_key by done. unfold msgs in *.
  assert (∀ e, e ∈ for_key k es → ekey e = k) as Hkeys by (intros e He%elem_of_for_key; apply He).
  assert (∀ e, e ∈ List.filter (λ e, klt k (ekey e)) es → klt k (ekey e) = true) as Hrest
    by (intros e He%elem_of_lfilter; apply He).
  set (rest := List.filter (λ e, klt k (ekey e)) es) in *. clearbody rest.
  destruct (for_key k es) as [|[mk m] l]; cbn [app].
  - destruct rest as [|[mk m] rest]; cbn [fmap list_fmap run foldl]; [done|].
    assert (key_lt_mkey k mk = true) as ->. { apply (Hrest (mk, m)), elem_of_cons; auto. }
    assert (o = o ≫= Some) as -> by by destruct o. apply answers_bind; [done|]. intros v s' Hi.
    apply (answers_updates tol d k v []); [done|by intros ? ?%elem_of_nil|done].
  - destruct Hc as (Hop & Hup & Hins). cbn [fmap list_fmap snd] in *.
    assert (mk_key mk = k) as Hk by (apply (Hkeys (mk, m)), elem_of_cons; auto).
    assert (key_lt_mkey k mk = false) as -> by (unfold key_lt_mkey; rewrite Hk; apply klt_irrefl).
    assert (∀ e, e ∈ l → ekey e = k ∧ opcode e.2 = UPDATE) as Hl.
    { intros e He. split; [apply Hkeys, elem_of_cons; auto|]. rewrite Forall_fmap, Forall_forall in Hup. by apply Hup. }
    destruct Hop as [Hop|[Hop|Hop]].
    + rewrite Hop. cbn [Z.eqb INSERT UPDATE DELETE]. cbn. unfold step at 2. rewrite Hop. cbn. by apply answers_updates.
    + rewrite Hop. cbn [Z.eqb INSERT UPDATE DELETE]. cbn. unfold step at 2. rewrite Hop. cbn.
      by apply answers_after_delete.
    + rewrite Hop. cbn [Z.eqb INSERT UPDATE DELETE]. cbn.
      change (foldl (step d) (step d o m) (snd <$> l)) with (run d (snd <$> (mk, m) :: l) o).
      rewrite <- run_updates_default; [|done|by constructor].
      change (run d (snd <$> (mk, m) :: l) (Some (default d o)))
        with (Some (default d o) ≫= λ v, run d (snd <$> (mk, m) :: l) (Some v)).
      apply answers_bind; [by apply answers_default|]. intros v s' Hi.
      apply (answers_updates tol d k v ((mk, m) :: l)); [done| |done].
      intros e [->|He]%elem_of_cons; auto.
Qed.

Lemma answers_query tol bet k : tol store_fault → ∀ fuel t s,
  st_inv s → rep (st_view s) t → 0 < st_pins s (tid t) → wf t → height t ≤ fuel →
  answers tol (query_node fuel bet (tid t) k) s (lookup (default_value bet) t k).
Proof.
  intros Htol. induction fuel as [|fuel IH]; intros t s Hinv Hrep Hpin Hwf Hht.
  { rewrite height_unfold in Hht. lia. }
  destruct (wf_inv _ Hwf) as (Hb & _ & _ & _ & Hch).
  cbn [query_node]. unfold answers. apply wp_bind. unfold wp at 1.
  rewrite (st_deref_spec s (tid t) (tnode t)); [|done|done|by apply rep_unfold].
  change (wp tol ?m s _ _) with (answers tol m s (lookup (default_value bet) t k)).
  unfold lookup. rewrite entries_unfold, msgs_app, run_app.
  destruct (tch t) as [|x ch] eqn:Htch.
  - unfold tnode at 1 2. rewrite Htch. cbn [is_leaf fpivots fmap list_fmap pivots fentries flat_map msgs]. by apply answers_leaf.
  - unfold tnode. rewrite Htch. cbn [is_leaf fpivots fmap list_fmap pivots].
    apply answers_inner; [done..|]. change (pivot_of x :: (pivot_of <$> ch)) with (fpivots (x :: ch)).
    rewrite <- Htch. apply answers_child; [done..|by rewrite Htch|].
    intros y s1 Hy Hi1 Hr1 Hp1. apply IH; [done..|by apply Hch; rewrite <- Htch|].
    rewrite height_unfold in Hht. pose proof (fheight_elem (tch t) y Hy). lia.
Qed.
End query_proof.
