(* ===== verification/Live.v ===== *)
(** * The key-value pairs of a sorted list of messages

    [live d L] runs the messages of each key of [L] in turn and keeps the keys that
    end with a value: the dictionary that [L] means, in order. *)
From Stdlib Require Import ZArith Lia.
From stdpp Require Import prelude gmap.
From S2P Require Import Prelude StdMap Message MessageSem.

Section live.
Context {K V : Type} `{KeyOrder K} `{ValueOps V} (d : V).
Implicit Types (L : message_map K V) (e : MessageKey K * Message V) (k c : K) (o : option V).

Definition emit c o : list (K * V) := match o with Some v => [(c, v)] | None => [] end.

(** With [o] the value so far of the current key [c]. *)
Fixpoint live_from c o L : list (K * V) :=
  match L with
  | [] => emit c o
  | e :: L' => if keq (ekey e) c then live_from c (step d o e.2) L'
               else emit c o ++ live_from (ekey e) (step d None e.2) L'
  end.

Definition live L : list (K * V) :=
  match L with [] => [] | e :: L' => live_from (ekey e) (step d None e.2) L' end.

(** No key of [L] is less than [c]. *)
Definition from c L : Prop := ∀ e, e ∈ L → klt (ekey e) c = false.

Lemma from_tail c e L : from c (e :: L) → from c L.
Proof. intros Hf x Hx. apply Hf. by right. Qed.

Lemma from_sorted e L : sorted (e :: L) → from (ekey e) L.
Proof. intros [Hlt _]%sorted_cons x Hx. by apply (mkey_lt_key_le e.1 x.1), Hlt. Qed.

Lemma elem_of_emit c o x : x ∈ emit c o ↔ x.1 = c ∧ o = Some x.2.
Proof.
  destruct o as [v|], x as [k w]; cbn; [rewrite list_elem_of_singleton|rewrite elem_of_nil]; naive_solver.
Qed.

Lemma msgs_cons k e L : msgs k (e :: L) = (if keq (ekey e) k then [e.2] else []) ++ msgs k L.
Proof. unfold msgs, for_key. cbn. by destruct (keq (ekey e) k). Qed.

Lemma elem_of_live_from L : ∀ c o x,
  sorted L → from c L →
  x ∈ live_from c o L ↔ run d (msgs x.1 L) (if keq x.1 c then o else None) = Some x.2.
Proof.
  induction L as [|e L IH]; intros c o x Hs Hf; cbn [live_from].
  - rewrite elem_of_emit. cbn. destruct (keq x.1 c) eqn:E; [apply keq_eq in E|apply keq_ne in E]; naive_solver.
  - pose proof (from_sorted e L Hs) as Hfe. apply sorted_cons in Hs as [Hlt Hs]. rewrite msgs_cons, run_app.
    destruct (keq (ekey e) c) eqn:Ec.
    + apply keq_eq in Ec. rewrite IH; [|done|by eapply from_tail]. rewrite Ec.
      destruct (keq x.1 c) eqn:E.
      * apply keq_eq in E. rewrite E, keq_refl. done.
      * rewrite (proj2 (keq_ne c x.1)); [done|]. apply keq_ne in E. congruence.
    + rewrite elem_of_app, elem_of_emit, IH by done.
      assert (klt c (ekey e) = true) as Hce.
      { destruct (klt_cases c (ekey e)) as [(?&_)|[(->&_)|(?&_)]]; [done|by rewrite keq_refl in Ec|].
        rewrite (Hf e) in *; [done|by left]. }
      destruct (keq x.1 c) eqn:E.
      * apply keq_eq in E. rewrite E. rewrite (proj2 (keq_ne (ekey e) c)) by by apply keq_ne.
        rewrite (proj2 (keq_ne c (ekey e))) by by apply klt_ne. cbn.
        rewrite msgs_nil; [cbn; naive_solver|]. intros y Hy Hyk. pose proof (Hfe y Hy) as Hge. rewrite Hyk in Hge. congruence.
      * apply keq_ne in E. destruct (keq (ekey e) x.1) eqn:E2.
        -- apply keq_eq in E2. rewrite <- E2, keq_refl. cbn. naive_solver.
        -- apply keq_ne in E2. rewrite (proj2 (keq_ne x.1 (ekey e))) by congruence. cbn. naive_solver.
Qed.

Lemma elem_of_live L x : sorted L → x ∈ live L ↔ run d (msgs x.1 L) None = Some x.2.
Proof.
  destruct L as [|e L]; intros Hs; cbn [live].
  - cbn. rewrite elem_of_nil. naive_solver.
  - rewrite elem_of_live_from; [|by apply sorted_cons in Hs as [_ ?]|by apply from_sorted].
    rewrite msgs_cons, run_app. destruct (keq (ekey e) x.1) eqn:E.
    + apply keq_eq in E. by rewrite E, keq_refl.
    + apply keq_ne in E. rewrite (proj2 (keq_ne x.1 (ekey e))) by congruence. done.
Qed.

Lemma sorted_live_from L : ∀ c o,
  sorted L → from c L → sorted (live_from c o L) ∧ ∀ x, x ∈ live_from c o L → klt x.1 c = false.
Proof.
  induction L as [|e L IH]; intros c o Hs Hf; cbn [live_from].
  - destruct o; cbn; split; [apply sorted_singleton| |apply sorted_nil|by intros ? ?%elem_of_nil].
    intros x ->%list_elem_of_singleton. apply klt_irrefl.
  - pose proof (from_sorted e L Hs) as Hfe. apply sorted_cons in Hs as [Hlt Hs].
    destruct (keq (ekey e) c) eqn:Ec; [apply IH; [done|by eapply from_tail]|].
    assert (klt c (ekey e) = true) as Hce.
    { destruct (klt_cases c (ekey e)) as [(?&_)|[(->&_)|(?&_)]]; [done|by rewrite keq_refl in Ec|].
      rewrite (Hf e) in *; [done|by left]. }
    destruct (IH (ekey e) (step d None e.2) Hs Hfe) as [Hs' Hge]. split.
    + apply sorted_app. split_and!; [|done|].
      * destruct o; [apply sorted_singleton|apply sorted_nil].
      * intros x y [-> _]%elem_of_emit Hy. by eapply klt_le_trans; [|apply Hge].
    + intros x [[-> _]%elem_of_emit|Hx]%elem_of_app; [apply klt_irrefl|].
      eapply kle_trans; [|by apply Hge]. by apply klt_asym.
Qed.

Lemma sorted_live L : sorted L → sorted (live L).
Proof.
  destruct L as [|e L]; intros Hs; [apply sorted_nil|].
  apply sorted_live_from; [by apply sorted_cons in Hs as [_ ?]|by apply from_sorted].
Qed.

(** The dictionary as a sorted map. *)
Lemma live_eq L (m : list (K * V)) :
  sorted L → sorted m → (∀ k, map_find m k = run d (msgs k L) None) → live L = m.
Proof.
  intros Hs Hm Hf. apply sorted_ext; [by apply sorted_live|done|]. intros [k v].
  by rewrite elem_of_live, <- Hf, map_find_elem_of.
Qed.
End live.
