(* ===== verification/Listing.v ===== *)
(** * All messages of a tree in order

    [listing es] is the sorted map of the messages [es]; [next_after mkey es] its
    first message after [mkey].  The messages of a tree can be listed because those
    for one key have increasing timestamps from the leaves up. *)
From Stdlib Require Import ZArith Lia.
From stdpp Require Import prelude gmap.
From S2P Require Import Prelude StdMap Message MessageSem Tree.

Section listing.
Context {K V : Type} `{KeyOrder K}.
Implicit Types (es : message_map K V) (e : MessageKey K * Message V) (k : K) (mkey : option (MessageKey K)).

Definition listing es : message_map K V := foldr (λ e m, map_assign m e.1 e.2) [] es.

(** The messages of every key are in order of their timestamps. *)
Definition keyed es : Prop := ∀ k, sorted (for_key k es).

Lemma keyed_inj es e e' : keyed es → e ∈ es → e' ∈ es → e.1 = e'.1 → e = e'.
Proof.
  intros Hk He He' Heq. destruct e as [mk m], e' as [mk' m']. cbn in Heq. subst mk'. f_equal.
  eapply (sorted_key_inj (for_key (mk_key mk) es) mk); [apply Hk|by apply elem_of_for_key..].
Qed.

Lemma keyed_app es es' : keyed es → keyed es' → newer es es' → keyed (es ++ es').
Proof.
  intros H1 H2 Hn k. rewrite for_key_app. apply sorted_app. split_and!; [apply H1|apply H2|].
  intros x y [Hx Hxk]%elem_of_for_key [Hy Hyk]%elem_of_for_key. apply mkey_lt_spec. right.
  unfold ekey in *. split; [congruence|]. apply Hn; [done..|]. unfold ekey. congruence.
Qed.

Lemma sorted_listing es : sorted (listing es).
Proof. induction es as [|e es IH]; cbn; [apply sorted_nil|by apply sorted_map_assign]. Qed.

Lemma length_listing es : length (listing es) ≤ length es.
Proof.
  induction es as [|e es IH]; [done|]. change (listing (e :: es)) with (map_assign (listing es) e.1 e.2).
  etrans; [apply length_map_assign|]. cbn. lia.
Qed.

Lemma keyed_tail e es : keyed (e :: es) → keyed es.
Proof.
  intros Hk k. specialize (Hk k). unfold for_key in *. cbn in Hk. destruct (keq (ekey e) k); [|done].
  by apply sorted_cons in Hk as [_ ?].
Qed.

Lemma elem_of_listing es e : keyed es → e ∈ listing es ↔ e ∈ es.
Proof.
  induction es as [|x es IH]; intros Hk; [done|]. cbn. rewrite elem_of_map_assign by apply sorted_listing.
  rewrite IH by by eapply keyed_tail. rewrite elem_of_cons, <- surjective_pairing. split; [tauto|].
  intros [?|Hin]; [by left|]. destruct (decide (e.1 = x.1)) as [Heq|]; [left|by right].
  eapply (keyed_inj (x :: es)); [done|by right|by left|done].
Qed.

Lemma for_key_listing es k : keyed es → for_key k (listing es) = for_key k es.
Proof.
  intros Hk. apply sorted_ext; [apply sorted_filter, sorted_listing|apply Hk|].
  intros x. by rewrite !elem_of_for_key, elem_of_listing.
Qed.

(** The message an iterator at [mkey] goes to. *)
Definition after mkey e : bool := match mkey with None => true | Some mk => klt mk e.1 end.
Definition next_after mkey es : option (MessageKey K * Message V) := head (List.filter (after mkey) (listing es)).

Definition is_next mkey es (o : option (MessageKey K * Message V)) : Prop :=
  match o with
  | Some e => e ∈ es ∧ after mkey e = true ∧ ∀ e', e' ∈ es → after mkey e' = true → e' = e ∨ klt e.1 e'.1 = true
  | None => ∀ e, e ∈ es → after mkey e = false
  end.

Lemma is_next_unique mkey es o o' : is_next mkey es o → is_next mkey es o' → o = o'.
Proof.
  destruct o as [e|], o' as [e'|]; cbn [is_next]; [|..|done].
  - intros (He & Ha & Hmin) (He' & Ha' & Hmin'). f_equal.
    destruct (Hmin e' He' Ha') as [|Hlt]; [done|]. destruct (Hmin' e He Ha) as [|Hlt']; [done|].
    apply klt_asym in Hlt. congruence.
  - intros (He & Ha & _) Hn. rewrite Hn in Ha by done. done.
  - intros Hn (He & Ha & _). rewrite Hn in Ha by done. done.
Qed.

Lemma next_after_is_next mkey es : keyed es → is_next mkey es (next_after mkey es).
Proof.
  intros Hk. unfold next_after.
  assert (∀ e, e ∈ List.filter (after mkey) (listing es) ↔ e ∈ es ∧ after mkey e = true) as Hin.
  { intros e. by rewrite elem_of_lfilter, elem_of_listing. }
  pose proof (sorted_filter (after mkey) _ (sorted_listing es)) as Hs.
  destruct (List.filter (after mkey) (listing es)) as [|e l]; cbn [head is_next].
  - intros e He. destruct (after mkey e) eqn:Ha; [|done].
    destruct (not_elem_of_nil e). by apply Hin.
  - destruct (proj1 (Hin e)) as [He Ha]; [by left|]. split_and!; [done..|]. intros e' He' Ha'.
    assert (e' ∈ e :: l) as [->|Hl]%elem_of_cons by by apply Hin.
    + by left.
    + right. apply sorted_cons in Hs as [Hlt _]. by apply Hlt.
Qed.

Lemma next_after_eq mkey es o : keyed es → is_next mkey es o → next_after mkey es = o.
Proof. intros Hk Ho. eapply is_next_unique; [by apply next_after_is_next|done]. Qed.
End listing.

Section tree_listing.
Context {K V : Type} `{KeyOrder K} `{ValueOps V}.
Implicit Types (t : tree K V) (ch : forest K V) (mkey : option (MessageKey K)).

Lemma keyed_forest ch : forest_ok ch → (∀ x, x ∈ ch → keyed (entries x.2.2)) → keyed (fentries ch).
Proof.
  intros Hok Hch k. destruct (routes_dec ch k (fo_sorted _ Hok)) as [(x & Hx & Hr)|Hno].
  - rewrite (for_key_routes ch x k Hok Hx Hr). by apply Hch.
  - rewrite for_key_nil; [apply sorted_nil|]. intros e (x & Hx & He%entries_tkeys)%elem_of_fentries <-.
    apply (Hno x Hx). by apply tkeys_routes.
Qed.

Lemma keyed_entries t : wf t → keyed (entries t).
Proof.
  induction t as [i es ch IH] using tree_ind'. intros Hwf. destruct (wf_inv _ Hwf) as (Hb & Hf & _ & Hn & Hch).
  rewrite entries_unfold. apply keyed_app; [|intros k; by apply sorted_filter, Hb|done].
  apply keyed_forest; [done|]. intros x Hx. apply IH; [done|by apply Hch].
Qed.
End tree_listing.
