(* ===== verification/NextProof.v ===== *)
(** * [node::get_next_message]

    On a well-formed tree it returns the first message after the given message key,
    over all levels of the tree, or throws [out_of_range] when there is none. *)
From Stdlib Require Import ZArith Lia.
From stdpp Require Import prelude gmap.
From S2P Require Import Prelude StdMap Message NodeStore BeTree MessageSem Tree NodeLemmas QueryProof Listing.

#[local] Open Scope cpp_scope.

Section merge.
Context {K V : Type} `{KeyOrder K} `{ValueOps V}.
Implicit Types (ch : forest K V) (es : message_map K V) (k : K) (mkey : option (MessageKey K)).

(** Everything in [es] comes before everything in [es']. *)
Lemma next_after_app mkey es es' :
  keyed es → keyed es' → keyed (es ++ es') → (∀ x y, x ∈ es → y ∈ es' → klt x.1 y.1 = true) →
  next_after mkey (es ++ es') = match next_after mkey es with Some e => Some e | None => next_after mkey es' end.
Proof.
  intros Hk Hk' Hkk Hlt. apply next_after_eq; [done|].
  pose proof (next_after_is_next mkey es Hk) as Hn1. pose proof (next_after_is_next mkey es' Hk') as Hn2.
  destruct (next_after mkey es) as [e|]; cbn [is_next] in *.
  - destruct Hn1 as (He & Ha & Hmin). split_and!; [apply elem_of_app; by left|done|].
    intros e' [He'|He']%elem_of_app Ha'; [by apply Hmin|]. right. by apply Hlt.
  - destruct (next_after mkey es') as [e|]; cbn [is_next] in *.
    + destruct Hn2 as (He & Ha & Hmin). split_and!; [apply elem_of_app; by right|done|].
      intros e' [He'|He']%elem_of_app Ha'; [rewrite Hn1 in Ha' by done; done|by apply Hmin].
    + intros e [He|He]%elem_of_app; auto.
Qed.

(** The smaller one of two candidates. *)
Lemma next_after_merge mkey es es' :
  keyed es → keyed es' → keyed (es ++ es') →
  next_after mkey (es ++ es') =
    match next_after mkey es, next_after mkey es' with
    | Some a, Some b => if klt a.1 b.1 then Some a else Some b
    | Some a, None => Some a
    | None, o => o
    end.
Proof.
  intros Hk Hk' Hkk. apply next_after_eq; [done|].
  pose proof (next_after_is_next mkey es Hk) as Hn1. pose proof (next_after_is_next mkey es' Hk') as Hn2.
  destruct (next_after mkey es) as [a|], (next_after mkey es') as [b|]; cbn [is_next] in *.
  - destruct Hn1 as (Ha & Ha1 & Hmin), Hn2 as (Hb & Hb1 & Hmin').
    destruct (klt a.1 b.1) eqn:E; cbn [is_next]; (split_and!; [apply elem_of_app; auto|done|]).
    + intros e' [He|He]%elem_of_app Ha'; [by apply Hmin|]. destruct (Hmin' e' He Ha') as [->|]; [by right|].
      right. by eapply klt_trans.
    + intros e' [He|He]%elem_of_app Ha'; [|by apply Hmin'].
      destruct (Hmin e' He Ha') as [->|Hlt]; [|right; by eapply kle_lt_trans].
      destruct (klt b.1 a.1) eqn:E'; [by right|left].
      eapply (keyed_inj (es ++ es')); [done|apply elem_of_app; auto..|by apply klt_total].
  - destruct Hn1 as (Ha & Ha1 & Hmin). split_and!; [apply elem_of_app; auto|done|].
    intros e' [He|He]%elem_of_app Ha'; [by apply Hmin|]. rewrite Hn2 in Ha' by done. done.
  - destruct Hn2 as (Ha & Ha1 & Hmin). split_and!; [apply elem_of_app; auto|done|].
    intros e' [He|He]%elem_of_app Ha'; [|by apply Hmin]. rewrite Hn1 in Ha' by done. done.
  - intros e [He|He]%elem_of_app; auto.
Qed.
End merge.

Section next_proof.
Context {K V : Type} `{KeyOrder K} `{ValueOps V}.
Context {St : Type} `{StoreOps St (node K V)} `{!Store St (node K V)}.
Implicit Types (s : St) (ch : forest K V) (k : K) (t : tree K V) (mkey : option (MessageKey K)).

Lemma forest_ok_suffix (pre ch : forest K V) : forest_ok (pre ++ ch) → forest_ok ch.
Proof.
  intros [Hs Hlo Hhi]. apply sorted_app in Hs as (_ & Hs & _). split; [done| |].
  - intros x k Hx. apply Hlo, elem_of_app. by right.
  - intros x y k Hx Hy. apply Hhi; apply elem_of_app; by right.
Qed.

Lemma forest_before x y e ch :
  forest_ok ch → x ∈ ch → y ∈ ch → klt x.1 y.1 = true → e ∈ entries x.2.2 → klt (ekey e) y.1 = true.
Proof. intros Hok Hx Hy Hlt He%entries_tkeys. by apply (fo_hi _ Hok x y). Qed.

Lemma forest_head_before x ch a b :
  forest_ok (x :: ch) → a ∈ entries x.2.2 → b ∈ fentries ch → klt a.1 b.1 = true.
Proof.
  intros Hok Ha (y & Hy & Hb)%elem_of_fentries. pose proof (fo_sorted _ Hok) as [Hlt _]%sorted_cons.
  apply mkey_lt_spec. left. eapply klt_le_trans.
  - eapply (forest_before x y); [done|by left|by right|by apply Hlt|done].
  - apply (fo_lo _ Hok y); [by right|by apply entries_tkeys].
Qed.

Lemma keyed_subforest ch : forest_ok ch → (∀ x, x ∈ ch → wf x.2.2) → keyed (fentries ch).
Proof. intros Hok Hwf. apply keyed_forest; [done|]. intros x Hx. by apply keyed_entries, Hwf. Qed.

Lemma answers_catch {A} tol (m h : M St A) s o o' :
  answers tol m s o → (∀ s', st_inv s' → st_view s' = st_view s → answers tol h s' o') →
  answers tol (catch_oor m h) s (match o with Some a => Some a | None => o' end).
Proof.
  intros Hm Hh. unfold answers in *. apply wp_catch_oor. eapply wp_mono; [exact Hm|..].
  - by intros a s' (-> & ?).
  - intros e s' (-> & -> & Hev & Hv). eapply wp_mono; [apply Hh; [apply Hev|done]|..].
    + intros a s2 (-> & Hev2 & Hv2). split_and!; [done|by eapply evolves_trans; eauto|by rewrite Hv2].
    + intros e s2 (-> & -> & Hev2 & Hv2). split_and!; [done|done|by eapply evolves_trans; eauto|by rewrite Hv2].
Qed.

Section children.
Context (tol : fault → Prop) (Htol : tol store_fault).
Context (get_next : node_pointer → option (MessageKey K) → M St (MessageKey K * Message V)).

(** What the recursive call does on the children of a forest. *)
Definition gets (ch : forest K V) : Prop := ∀ x s mkey,
  x ∈ ch → st_inv s → rep (st_view s) x.2.2 → 0 < st_pins s (tid x.2.2) →
  answers tol (get_next (tid x.2.2) mkey) s (next_after mkey (entries x.2.2)).

Lemma answers_try ch mkey s :
  gets ch → forest_ok ch → (∀ x, x ∈ ch → wf x.2.2) → st_inv s → frep (st_view s) ch →
  answers tol (try_children get_next (fpivots ch) mkey) s (next_after mkey (fentries ch)).
Proof.
  revert s. induction ch as [|x ch IH]; intros s Hget Hok Hwf Hinv Hrep; [by apply answers_throw|].
  cbn [fpivots fmap list_fmap try_children pivot_of snd child]. change (pivot_of <$> ch) with (fpivots ch).
  pose proof (forest_ok_suffix [x] ch Hok) as Hok'. rewrite frep_elem in Hrep.
  assert (∀ y, y ∈ ch → wf y.2.2) as Hwf' by (intros y Hy; apply Hwf; by right).
  rewrite fentries_cons, next_after_app; [|by apply keyed_entries, Hwf; left|by apply keyed_subforest| |].
  2:{ rewrite <- fentries_cons. by apply keyed_subforest. }
  2:{ intros a b Ha Hb. by eapply forest_head_before. }
  apply answers_catch.
  - apply answers_arrow; [done|done|eapply rep_dom; [apply Hrep; by left|apply tid_in_ids]|].
    intros s1 Hi1 Hv1 Hp1. apply Hget; [by left|done|rewrite Hv1; apply Hrep; by left|done].
  - intros s' Hi' Hv'. apply IH; [|done|done|done|].
    + intros y s2 mk Hy. apply Hget. by right.
    + rewrite frep_elem, Hv'. intros y Hy. apply Hrep. by right.
Qed.

Lemma pivots_from_middle (pre post : forest K V) x :
  sorted (pre ++ x :: post) → pivots_from (fpivots (pre ++ x :: post)) x.1 = fpivots (x :: post).
Proof.
  induction pre as [|y pre IH]; intros Hs; cbn [app fpivots fmap list_fmap pivots_from pivot_of fst].
  - by rewrite keq_refl.
  - apply sorted_cons in Hs as [Hlt Hs]. rewrite (proj2 (keq_ne y.1 x.1)); [by apply IH|].
    apply klt_ne, (Hlt x), elem_of_app. right. by left.
Qed.

(** Subtrees before the pivot of the key hold nothing after it. *)
Lemma next_after_suffix mk (pre post : forest K V) x :
  forest_ok (pre ++ x :: post) → (∀ y, y ∈ pre ++ x :: post → wf y.2.2) → klt (mk_key mk) x.1 = false →
  next_after (Some mk) (fentries (pre ++ x :: post)) = next_after (Some mk) (fentries (x :: post)).
Proof.
  intros Hok Hwf Hk. pose proof (keyed_subforest _ Hok Hwf) as Hkd.
  pose proof (forest_ok_suffix pre _ Hok) as Hok'.
  assert (keyed (fentries (x :: post))) as Hkd' by (apply keyed_subforest; [done|]; intros y Hy; apply Hwf, elem_of_app; auto).
  apply next_after_eq; [done|]. pose proof (next_after_is_next (Some mk) _ Hkd') as Hn.
  assert (∀ e, e ∈ fentries pre → after (Some mk) e = false) as Hpre.
  { intros e (y & Hy & He)%elem_of_fentries. cbn [after]. destruct (klt mk e.1) eqn:E; [|done].
    apply mkey_lt_key_le in E. pose proof (fo_sorted _ Hok) as (_ & _ & Hlt)%sorted_app.
    assert (klt (ekey e) x.1 = true) as Hex.
    { eapply (forest_before y x e (pre ++ x :: post)); [done|apply elem_of_app; by left|apply elem_of_app; right; by left| |done].
      apply Hlt; [done|by left]. }
    unfold ekey in Hex. rewrite (kle_lt_trans _ _ _ E Hex) in Hk. done. }
  rewrite fentries_app. destruct (next_after (Some mk) (fentries (x :: post))) as [e|]; cbn [is_next] in *.
  - destruct Hn as (He & Ha & Hmin). split_and!; [apply elem_of_app; by right|done|].
    intros e' [He'|He']%elem_of_app Ha'; [rewrite Hpre in Ha' by done; done|by apply Hmin].
  - intros e [He|He]%elem_of_app; auto.
Qed.

(** Nothing is before the first pivot. *)
Lemma next_after_first mk x ch :
  forest_ok (x :: ch) → (∀ y, y ∈ x :: ch → wf y.2.2) → mkey_lt_key mk x.1 = true →
  next_after (Some mk) (fentries (x :: ch)) = next_after None (fentries (x :: ch)).
Proof.
  intros Hok Hwf Hlt. unfold next_after. f_equal. apply lfilter_ext.
  intros e He. rewrite elem_of_listing in He by by apply keyed_subforest. apply elem_of_fentries in He as (y & Hy & He).
  cbn [after]. apply mkey_lt_spec. left. pose proof (fo_sorted _ Hok) as [Hx _]%sorted_cons.
  unfold mkey_lt_key in Hlt. eapply klt_le_trans; [exact Hlt|].
  pose proof (fo_lo _ Hok y (ekey e) Hy (entries_tkeys _ _ He)) as Hlo. apply elem_of_cons in Hy as [->|Hy]; [done|].
  eapply kle_trans; [|exact Hlo]. by apply klt_asym, Hx.
Qed.

Lemma answers_from_children t mkey s :
  gets (tch t) → wf t → tch t ≠ [] → st_inv s → frep (st_view s) (tch t) →
  answers tol (get_next_message_from_children get_next (tnode t) mkey) s (next_after mkey (fentries (tch t))).
Proof.
  intros Hget Hwf Hne Hinv Hrep. destruct (wf_inv _ Hwf) as (_ & Hok & _ & _ & Hch).
  unfold get_next_message_from_children, tnode. cbn [pivots]. set (ch := tch t) in *. clearbody ch.
  destruct ch as [|x ch]; [done|]. cbn [fpivots fmap list_fmap pivot_of fst].
  change (pivot_of x :: (pivot_of <$> ch)) with (fpivots (x :: ch)).
  destruct mkey as [mk|]; [|by apply answers_try].
  destruct (mkey_lt_key mk x.1) eqn:E; [rewrite next_after_first by done; by apply answers_try|].
  destruct (get_pivot_found (x :: ch) (mk_key mk) s (fo_sorted _ Hok)) as (pre & y & post & Heq & Hr & Hget').
  { exists x. split; [by left|done]. }
  unfold answers. apply wp_bind. unfold wp at 1. rewrite Hget'. cbn [pivot_of fst].
  rewrite Heq in Hok, Hch, Hrep, Hget |- *. rewrite pivots_from_middle by apply Hok.
  rewrite next_after_suffix; [|done|done|apply Hr].
  assert (∀ z, z ∈ y :: post → z ∈ pre ++ y :: post) as Hsub by (intros z Hz; apply elem_of_app; by right).
  apply answers_try; [|by eapply forest_ok_suffix|by auto|done|].
  - intros z s1 mk1 Hz. by apply Hget, Hsub.
  - rewrite frep_elem in Hrep |- *. auto.
Qed.
End children.

(** The buffer of the node itself. *)
Lemma next_in_buffer (es : message_map K V) mkey :
  sorted es →
  match mkey with Some mk => (upper_bound es mk).2 | None => es end = List.filter (after mkey) (listing es).
Proof.
  intros Hs. assert (keyed es) as Hk by (intros k; by apply sorted_filter).
  assert (listing es = es) as ->.
  { apply sorted_ext; [apply sorted_listing|done|]. intros e. by apply elem_of_listing. }
  destruct mkey as [mk|]; [by rewrite upper_bound_filter|]. by rewrite lfilter_all.
Qed.

Lemma answers_merge tol (ask : M St (MessageKey K * Message V)) s o (e : MessageKey K * Message V) :
  st_inv s → answers tol ask s o →
  answers tol (catch_oor (let! kids := ask in if klt kids.1 e.1 then ret kids else ret e) (ret e)) s
    (Some (match o with Some a => if klt a.1 e.1 then a else e | None => e end)).
Proof.
  intros Hinv Hask. unfold answers in *. apply wp_catch_oor, wp_bind. eapply wp_mono; [exact Hask|..].
  - intros a s' (-> & Hev & Hv). by destruct (klt a.1 e.1).
  - intros ex s' (-> & -> & Hev & Hv). by apply wp_ret.
Qed.

Lemma answers_next tol : tol store_fault → ∀ fuel t s mkey,
  st_inv s → rep (st_view s) t → 0 < st_pins s (tid t) → wf t → height t ≤ fuel →
  answers tol (get_next_message fuel (tid t) mkey) s (next_after mkey (entries t)).
Proof.
  intros Htol. induction fuel as [|fuel IH]; intros t s mkey Hinv Hrep Hpin Hwf Hht.
  { rewrite height_unfold in Hht. lia. }
  destruct (wf_inv _ Hwf) as (Hb & Hf & _ & Hn & Hch). pose proof (keyed_entries t Hwf) as Hkd.
  cbn [get_next_message]. unfold answers. apply wp_bind. unfold wp at 1.
  rewrite (st_deref_spec s (tid t) (tnode t)); [|done|done|by apply rep_unfold].
  change (wp tol ?m s _ _) with (answers tol m s (next_after mkey (entries t))). cbn zeta.
  cbn [elements tnode]. rewrite next_in_buffer by apply Hb.
  assert (keyed (tes t)) as Hkb by (intros k; apply sorted_filter, Hb).
  rewrite entries_unfold in Hkd |- *. apply rep_unfold in Hrep as [_ Hrep].
  destruct (decide (tch t = [])) as [Hnil|Hne].
  - unfold tnode. rewrite Hnil. cbn [is_leaf fpivots fmap list_fmap pivots fentries flat_map app]. unfold next_after.
    destruct (List.filter _ _) as [|e l]; [by apply answers_throw|by apply answers_ret].
  - assert (is_leaf (tnode t) = false) as -> by (unfold tnode; by destruct (tch t)).
    rewrite next_after_merge; [|by apply keyed_subforest|done|done].
    assert (gets tol (get_next_message fuel) (tch t)) as Hget.
    { intros x s1 mk Hx Hi1 Hr1 Hp1. apply IH; [done..|by apply Hch|].
      rewrite height_unfold in Hht. pose proof (fheight_elem (tch t) x Hx). lia. }
    assert (∀ o : option (MessageKey K * Message V), match o with Some a => Some a | None => None end = o) as Hid by by intros [].
    change (next_after mkey (tes t)) with (head (List.filter (after mkey) (listing (tes t)))).
    destruct (List.filter (after mkey) (listing (tes t))) as [|e l] eqn:El; cbn [head].
    + rewrite Hid. by apply answers_from_children.
    + assert (∀ o : option (MessageKey K * Message V),
        match o with Some a => if klt a.1 e.1 then Some a else Some e | None => Some e end =
        Some (match o with Some a => if klt a.1 e.1 then a else e | None => e end)) as Hs.
      { intros [a|]; [|done]. by destruct (klt a.1 e.1). }
      rewrite Hs. apply answers_merge; [done|]. by apply answers_from_children.
Qed.
End next_proof.
