(* ===== verification/Merge.v ===== *)
(** * Merging children (client/betree.hpp)

    [merge] and [merge_small_children] of a node, whose only call is commented out in [flush].  A position in the
    pivots is the suffix that starts there. *)
From Stdlib Require Import ZArith Lia.
From stdpp Require Import prelude gmap.
From S2P Require Import Prelude StdMap Message NodeStore BeTree.

#[local] Open Scope cpp_scope.

Section merge.
Context {K V : Type} `{KeyOps K} `{ValueOps V}.
Context {St : Type} `{StoreOps St (node K V)}.

(** [new_node->f.insert(c->f.begin(), c->f.end())]: the three pins live to the end of the statement. *)
Definition insert_from (new_node c : node_pointer) (f : node K V → node K V → node K V) : M St unit :=
  arrow new_node true (arrow c true (arrow c true (
    let! cn := st_deref c in
    let! n := st_deref new_node in
    st_update new_node (f n cn)))).

Definition insert_elements (n cn : node K V) : node K V := set_elements n (map_insert_range (elements n) (elements cn)).
Definition insert_pivots (n cn : node K V) : node K V := set_pivots n (map_insert_range (pivots n) (pivots cn)).

Fixpoint merge_into (new_node : node_pointer) (range : pivot_map K) : M St unit :=
  match range with
  | [] => ret tt
  | it :: range =>
      insert_from new_node (child it.2) insert_elements ;;
      insert_from new_node (child it.2) insert_pivots ;;
      merge_into new_node range
  end.

(** [range] is the pivots from [begin] to [end]. *)
Definition merge (range : pivot_map K) : M St node_pointer :=
  let! new_node := st_allocate empty_node in
  merge_into new_node range ;;
  ret new_node.

(** How many pivots the inner loop takes from [endit] on; [size] is the size of the child at [beginit]. *)
Fixpoint small_run (limit size total_size : Z) (endit : pivot_map K) : nat :=
  match endit with
  | [] => 0
  | _ :: endit' =>
      if (limit <? wrap64 (total_size + size))%Z then 0
      else S (small_run limit size (wrap64 (total_size + size)) endit')
  end.

(** [tmp->second.child->elements.clear(); tmp->second.child->pivots.clear();] *)
Fixpoint clear_children (range : pivot_map K) : M St unit :=
  match range with
  | [] => ret tt
  | tmp :: range =>
      arrow_modify (child tmp.2) (λ n, set_elements n []) ;;
      arrow_modify (child tmp.2) (λ n, set_pivots n []) ;;
      clear_children range
  end.

(** [pivots.erase(beginit, endit)]: the pointers go away. *)
Fixpoint erase_pivots (this : node_pointer) (range : pivot_map K) : M St unit :=
  match range with
  | [] => ret tt
  | it :: range =>
      let! n := st_deref this in
      st_update this (set_pivots n (map_erase (pivots n) it.1)) ;;
      st_release (child it.2) ;;
      erase_pivots this range
  end.

Fixpoint merge_loop (fuel : nat) (bet : betree V) (this : node_pointer) (beginit : pivot_map K) : M St unit :=
  match beginit with
  | [] => ret tt
  | (key, info) :: next =>
      match fuel with
      | O => halt out_of_fuel
      | S fuel' =>
          let run := small_run (wrap64 (6 * max_node_size bet) / 10) (child_size info) 0 beginit in
          if (run =? 0)%nat then merge_loop fuel' bet this next
          else
            let! merged_node := merge (take run beginit) in
            clear_children (take run beginit) ;;
            erase_pivots this (take run beginit) ;;
            let! size := child_total merged_node in
            let! n := st_deref this in
            st_update this (set_pivots n (map_assign (pivots n) key (MkChildInfo merged_node size))) ;;
            let! n := st_deref this in
            merge_loop fuel' bet this (tail (lower_bound (pivots n) key).2)
      end
  end.

Definition merge_small_children (bet : betree V) (this : node_pointer) : M St unit :=
  let! n := st_deref this in
  if is_leaf n then ret tt
  else merge_loop (length (pivots n)) bet this (pivots n).
End merge.
