(* ===== verification/MergeProof.v ===== *)
(** * What a merged node holds

    The node that [merge] makes of neighbouring children holds their messages and their pivots, in order, so that every
    key keeps the messages it had in the children. *)
From Stdlib Require Import ZArith Lia.
From stdpp Require Import prelude gmap.
From S2P Require Import Prelude StdMap Message NodeStore BeTree MessageSem Tree NodeLemmas Merge.

#[local] Open Scope cpp_scope.

Section merge_proof.
Context {K V : Type} `{KeyOrder K} `{ValueOps V}.
Context {St : Type} `{StoreOps St (node K V)} `{!Store St (node K V)}.
Implicit Types (s : St) (t : tree K V) (ch : forest K V) (k : K).

(** The messages and the subtrees of the children, in order. *)
Definition all_messages ch : message_map K V := flat_map (λ x, tes x.2.2) ch.
Definition all_subtrees ch : forest K V := flat_map (λ x, tch x.2.2) ch.
Definition merged (i : N) ch : tree K V := Tree i (all_messages ch) (all_subtrees ch).

Lemma forest_ok_tail x ch : forest_ok (x :: ch) → forest_ok ch.
Proof.
  intros [Hs Hlo Hhi]. apply sorted_cons in Hs as [_ Hs]. split; [done| |].
  - intros y k Hy. apply Hlo. by right.
  - intros y z k Hy Hz. apply Hhi; by right.
Qed.

(** The keys of a child come before those of the children after it. *)
Lemma forest_ok_before x ch y k k' :
  forest_ok (x :: ch) → y ∈ ch → k ∈ tkeys x.2.2 → k' ∈ tkeys y.2.2 → klt k k' = true.
Proof.
  intros [Hs Hlo Hhi] Hy Hk Hk'. apply sorted_cons in Hs as [Hs _].
  apply klt_le_trans with y.1; [apply (Hhi x y); [by left|by right|by apply Hs|done]|apply (Hlo y); [by right|done]].
Qed.

Lemma tes_tkeys t e : e ∈ tes t → ekey e ∈ tkeys t.
Proof. intros He. rewrite tkeys_unfold. apply elem_of_app. right. apply list_elem_of_fmap. by exists e. Qed.

Lemma tch_tkeys t x : x ∈ tch t → x.1 ∈ tkeys t.
Proof. intros Hx. rewrite tkeys_unfold. apply elem_of_app. left. apply elem_of_fkeys. exists x. auto. Qed.

Lemma sorted_all_messages ch : forest_ok ch → (∀ x, x ∈ ch → wf x.2.2) → sorted (all_messages ch).
Proof.
  induction ch as [|x ch IH]; intros Hok Hwf; [apply sorted_nil|]. cbn. apply sorted_app. split_and!.
  - destruct (wf_inv _ (Hwf x (list_elem_of_here _ _))) as (Hb & _). apply Hb.
  - apply IH; [by eapply forest_ok_tail|]. intros y Hy. apply Hwf. by right.
  - intros e e' He (y & Hy & He')%elem_of_flat_map. cbn. unfold mkey_lt.
    pose proof (forest_ok_before x ch y (ekey e) (ekey e') Hok Hy (tes_tkeys _ _ He) (tes_tkeys _ _ He')) as Hlt.
    unfold ekey in Hlt. by rewrite Hlt.
Qed.

Lemma sorted_all_pivots ch : forest_ok ch → (∀ x, x ∈ ch → wf x.2.2) → sorted (fpivots (all_subtrees ch)).
Proof.
  induction ch as [|x ch IH]; intros Hok Hwf; [apply sorted_nil|].
  change (all_subtrees (x :: ch)) with (tch x.2.2 ++ all_subtrees ch). rewrite fpivots_app. apply sorted_app. split_and!.
  - destruct (wf_inv _ (Hwf x (list_elem_of_here _ _))) as (_ & Hf & _). by apply sorted_fpivots, Hf.
  - apply IH; [by eapply forest_ok_tail|]. intros y Hy. apply Hwf. by right.
  - intros p p' (z & -> & Hz)%list_elem_of_fmap (z' & -> & (y & Hy & Hz')%elem_of_flat_map)%list_elem_of_fmap. cbn.
    apply (forest_ok_before x ch y); [done|done|by apply tch_tkeys..].
Qed.

Lemma msgs_elsewhere t k : k ∉ tkeys t → msgs k (fentries (tch t)) = [] ∧ msgs k (tes t) = [].
Proof.
  intros Hk. split; apply msgs_nil; intros e He <-; apply Hk.
  - rewrite tkeys_unfold. apply elem_of_app. left. by apply fentries_fkeys.
  - by apply tes_tkeys.
Qed.

Lemma msgs_all_elsewhere ch k : (∀ y, y ∈ ch → k ∉ tkeys y.2.2) → msgs k (fentries (all_subtrees ch)) = [] ∧ msgs k (all_messages ch) = [].
Proof.
  induction ch as [|x ch IH]; [done|]. intros Hk. destruct (msgs_elsewhere x.2.2 k) as [Hf Ht]; [apply Hk; by left|].
  destruct IH as [IHf IHt]; [intros y Hy; apply Hk; by right|].
  change (all_subtrees (x :: ch)) with (tch x.2.2 ++ all_subtrees ch). change (all_messages (x :: ch)) with (tes x.2.2 ++ all_messages ch).
  by rewrite fentries_app, !msgs_app, Hf, Ht, IHf, IHt.
Qed.

(** Each key keeps its messages. *)
Lemma msgs_merged i ch k : forest_ok ch → msgs k (entries (merged i ch)) = msgs k (fentries ch).
Proof.
  rewrite entries_unfold. cbn [merged tch tes]. induction ch as [|x ch IH]; intros Hok; [done|].
  change (fentries (x :: ch)) with (entries x.2.2 ++ fentries ch). rewrite (msgs_app k (entries _)), <- IH by (by eapply forest_ok_tail).
  change (all_subtrees (x :: ch)) with (tch x.2.2 ++ all_subtrees ch). change (all_messages (x :: ch)) with (tes x.2.2 ++ all_messages ch).
  rewrite fentries_app, (entries_unfold x.2.2), !msgs_app. destruct (decide (k ∈ tkeys x.2.2)) as [Hk|Hk].
  - destruct (msgs_all_elsewhere ch k) as [-> ->]; [|by rewrite !app_nil_r].
    intros y Hy Hk'. pose proof (forest_ok_before x ch y k k Hok Hy Hk Hk') as Hlt. by apply klt_ne in Hlt.
  - destruct (msgs_elsewhere x.2.2 k Hk) as [-> ->]. done.
Qed.

(** ** The run of children that is merged *)

(** The run depends on the size of its first child only: as many as would fit if all were of that size. *)
Lemma small_run_count limit size (ps : pivot_map K) :
  (0 < size)%Z → (0 <= limit < 2 ^ 64 - size)%Z → small_run limit size 0 ps = Nat.min (Z.to_nat (limit / size)) (length ps).
Proof.
  intros Hsize Hlimit.
  assert (∀ total, (0 <= total <= limit)%Z → small_run limit size total ps = Nat.min (Z.to_nat ((limit - total) / size)) (length ps)) as Hrun.
  { induction ps as [|p ps IH]; intros total Htotal; [cbn; lia|]. cbn [small_run length].
    assert (wrap64 (total + size) = total + size)%Z as -> by (apply Z.mod_small; lia). destruct (Z.ltb_spec limit (total + size)) as [Hlt|Hge].
    - rewrite Z.div_small by lia. done.
    - rewrite IH by lia. replace (limit - total)%Z with (limit - (total + size) + 1 * size)%Z by lia.
      rewrite Z.div_add by lia. pose proof (Z.div_pos (limit - (total + size)) size). lia. }
  rewrite Hrun by lia. by rewrite Z.sub_0_r.
Qed.

(** ** The operation *)
Lemma wp_insert_from tol i c f n cn s Q (E : exn → St → Prop) :
  tol store_fault → st_inv s → st_view s !! i = Some n → st_view s !! c = Some cn → i ≠ c →
  (∀ s', st_inv s' → st_view s' = <[i := f n cn]> (st_view s) → Q tt s') →
  wp tol (insert_from i c f) s Q E.
Proof.
  intros Htol Hinv Hn Hcn Hne HQ. apply wp_arrow; [done..|by eauto|]. intros s1 Hen1. pose proof (en_view _ _ _ _ Hen1) as Hv1.
  apply wp_arrow; [done|apply Hen1|by rewrite Hv1; eauto|]. intros s2 Hen2. pose proof (en_view _ _ _ _ Hen2) as Hv2.
  apply wp_arrow; [done|apply Hen2|by rewrite Hv2, Hv1; eauto|]. intros s3 Hen3. pose proof (en_view _ _ _ _ Hen3) as Hv3.
  assert (0 < st_pins s3 i) as Hp3.
  { rewrite (en_pins _ _ _ _ Hen3), (en_pins _ _ _ _ Hen2) by done. apply Hen1. }
  unfold wp, bind. rewrite (st_deref_spec s3 c cn); [|apply Hen3|apply Hen3|by rewrite Hv3, Hv2, Hv1].
  rewrite (st_deref_spec s3 i n); [|apply Hen3|done|by rewrite Hv3, Hv2, Hv1].
  apply (wp_update tol i (f n cn) s3); [done|apply Hen3|done| |].
  { apply (en_keep _ _ _ _ Hen3); [rewrite (en_pins _ _ _ _ Hen2) by done; apply Hen1|]. apply (en_keep _ _ _ _ Hen2); [apply Hen1|by apply Hen1]. }
  intros s4 Hv4 _ Hev4. eexists. split; [exact Hev4|]. intros s5 [Hv5 _] Hev5.
  eexists. split; [exact Hev5|]. intros s6 [Hv6 _] Hev6. eexists. split; [exact Hev6|]. intros s7 [Hv7 _] Hev7.
  apply HQ; [apply Hev7|]. by rewrite Hv7, Hv6, Hv5, Hv4, Hv3, Hv2, Hv1.
Qed.

Lemma map_insert_range_end {A B} `{KeyOrder A} (m b : list (A * B)) : sorted (m ++ b) → map_insert_range m b = m ++ b.
Proof. intros Hs. pose proof (map_insert_range_middle m b []) as Hm. rewrite !app_nil_r in Hm. by apply Hm. Qed.

Lemma all_messages_snoc dn x : all_messages (dn ++ [x]) = all_messages dn ++ tes x.2.2.
Proof. unfold all_messages. rewrite flat_map_app. cbn. by rewrite app_nil_r. Qed.
Lemma all_subtrees_snoc dn x : all_subtrees (dn ++ [x]) = all_subtrees dn ++ tch x.2.2.
Proof. unfold all_subtrees. rewrite flat_map_app. cbn. by rewrite app_nil_r. Qed.

Lemma wp_merge_into tol i dn ch s Q (E : exn → St → Prop) :
  tol store_fault → st_inv s → st_view s !! i = Some (tnode (merged i dn)) → frep (st_view s) ch → i ∉ fids ch →
  sorted (all_messages (dn ++ ch)) → sorted (fpivots (all_subtrees (dn ++ ch))) →
  (∀ s', st_inv s' → st_view s' = <[i := tnode (merged i (dn ++ ch))]> (st_view s) → Q tt s') →
  wp tol (merge_into i (fpivots ch)) s Q E.
Proof.
  intros Htol. revert dn s. induction ch as [|x ch IH]; intros dn s Hinv Hi Hrep Hfresh Hm Hp HQ.
  - apply wp_ret, HQ; [done|]. rewrite app_nil_r. by rewrite insert_id.
  - cbn [fpivots fmap list_fmap merge_into pivot_of snd child]. rewrite fids_cons, not_elem_of_app in Hfresh. destruct Hfresh as [Hx Hfresh].
    assert (i ≠ tid x.2.2) as Hne by (intros ->; apply Hx; rewrite ids_unfold; by left).
    rewrite frep_elem in Hrep. pose proof (Hrep x (list_elem_of_here _ _)) as [Hxn _]%rep_unfold.
    replace (dn ++ x :: ch) with ((dn ++ [x]) ++ ch) in Hm, Hp, HQ by (by rewrite <- app_assoc).
    assert (map_insert_range (all_messages dn) (tes x.2.2) = all_messages (dn ++ [x])) as Em.
    { rewrite all_messages_snoc. apply map_insert_range_end. rewrite <- all_messages_snoc. unfold all_messages in Hm |- *.
      rewrite flat_map_app in Hm. by apply sorted_app in Hm as [Hm _]. }
    assert (map_insert_range (fpivots (all_subtrees dn)) (fpivots (tch x.2.2)) = fpivots (all_subtrees (dn ++ [x]))) as Ep.
    { rewrite all_subtrees_snoc, fpivots_app. apply map_insert_range_end. rewrite <- fpivots_app, <- all_subtrees_snoc.
      unfold all_subtrees in Hp |- *. rewrite flat_map_app, fpivots_app in Hp. by apply sorted_app in Hp as [Hp _]. }
    apply wp_bind. eapply wp_insert_from; [done|done|exact Hi|exact Hxn|done|]. intros s1 Hi1 Hv1.
    apply wp_bind. eapply wp_insert_from; [done|done|rewrite Hv1; apply lookup_insert_eq|rewrite Hv1, lookup_insert_ne by done; exact Hxn|done|].
    intros s2 Hi2 Hv2. rewrite Hv1, insert_insert_eq in Hv2.
    assert (insert_pivots (insert_elements (tnode (merged i dn)) (tnode x.2.2)) (tnode x.2.2) = tnode (merged i (dn ++ [x]))) as En.
    { unfold insert_pivots, insert_elements, set_pivots, set_elements, tnode. cbn [merged tch tes pivots elements]. by rewrite Em, Ep. }
    rewrite En in Hv2. apply (IH (dn ++ [x])); [done|rewrite Hv2; apply lookup_insert_eq| |done|done|done|].
    + apply frep_frame with (st_view s); [apply frep_elem; intros y Hy; apply Hrep; by right|].
      intros j Hj. rewrite Hv2, lookup_insert_ne; [done|congruence].
    + intros s3 Hi3 Hv3. apply HQ; [done|]. by rewrite Hv3, Hv2, insert_insert_eq.
Qed.

(** C11: [merge] of neighbouring children: the new node holds the messages of the children and their pivots, in order,
    the children are as they were, and every key has the same messages in the new node as it had in the children. *)
Theorem merge_keeps_messages s ch :
  st_inv s → frep (st_view s) ch → forest_ok ch → (∀ x, x ∈ ch → wf x.2.2) →
  wp store_only (merge (fpivots ch)) s (λ i s',
    st_view s !! i = None ∧ st_view s' = <[i := tnode (merged i ch)]> (st_view s) ∧
    ∀ d k, Tree.lookup d (merged i ch) k = run d (msgs k (fentries ch)) None) no_exn.
Proof.
  intros Hinv Hrep Hok Hwf. unfold merge. apply wp_bind, wp_allocate; [done|done|]. intros i s1 Hfresh Hv1 _ Hev1.
  apply wp_bind. apply (wp_merge_into store_only i []).
  - done.
  - apply Hev1.
  - rewrite Hv1. apply lookup_insert_eq.
  - apply frep_frame with (st_view s); [done|]. intros j Hj. rewrite Hv1, lookup_insert_ne; [done|].
    intros ->. pose proof (frep_dom _ _ _ Hrep Hj) as [? ?]. congruence.
  - intros Hi. pose proof (frep_dom _ _ _ Hrep Hi) as [? ?]. congruence.
  - by apply sorted_all_messages.
  - by apply sorted_all_pivots.
  - intros s2 _ Hv2. apply wp_ret. split_and!; [done|by rewrite Hv2, Hv1, insert_insert_eq|].
    intros d k. unfold Tree.lookup. by rewrite msgs_merged.
Qed.
End merge_proof.
