(* ===== verification/Serialize.v ===== *)
(** * Textual serialization (client/swap_space.cpp, swap_space.hpp, betree.hpp)

    Streams are texts: writing appends, reading consumes a prefix and fails
    ([None]) where the C++ stream would leave the good state, be it by a character
    that does not fit, a number out of range or the end of the text.  The main
    result is that everything written can be read back. *)
From Stdlib Require Import ZArith Lia Ascii String.
From stdpp Require Import prelude.
From S2P Require Import Prelude StdMap Message NodeStore BeTree MessageSem Tree NodeLemmas.

Definition text := list ascii.
Definition lit (s : string) : text := list_ascii_of_string s.

(** ** Characters *)
Definition is_space (c : ascii) : bool :=
  let n := N_of_ascii c in (n =? 32)%N || ((9 <=? n)%N && (n <=? 13)%N).
Definition is_digit (c : ascii) : bool :=
  let n := N_of_ascii c in (48 <=? n)%N && (n <=? 57)%N.
Definition digit_char (d : N) : ascii := ascii_of_N (48 + d).
Definition char_digit (c : ascii) : N := (N_of_ascii c - 48)%N.

(** [std::endl] *)
Definition endl : text := [ascii_of_N 10].

Fixpoint span (f : ascii → bool) (s : text) : text * text :=
  match s with
  | [] => ([], [])
  | c :: s' => if f c then let '(a, b) := span f s' in (c :: a, b) else ([], s)
  end.
Definition skip_ws (s : text) : text := (span is_space s).2.

(** ** Numbers *)

(** [fs << n]: decimal digits, most significant first. *)
Fixpoint digits (fuel : nat) (n : N) (acc : text) : text :=
  match fuel with
  | O => acc
  | S fuel' =>
      let acc' := digit_char (n `mod` 10) :: acc in
      if (n / 10 =? 0)%N then acc' else digits fuel' (n / 10)%N acc'
  end.
Definition print_N (n : N) : text := digits (S (N.size_nat n)) n [].
Definition print_Z (z : Z) : text :=
  if (z <? 0)%Z then lit "-" ++ print_N (Z.to_N (- z)) else print_N (Z.to_N z).

Definition digits_value (s : text) : N := foldl (λ a c, 10 * a + char_digit c)%N 0%N s.

(** [fs >> n]: skips white space, takes an optional sign and all digits; the text
    must go on after them. *)
Definition read_digits (s : text) : option (bool * N * text) :=
  let s := skip_ws s in
  let '(neg, s) := match s with
                   | c :: s' => if Ascii.eqb c "-" then (true, s')
                                else if Ascii.eqb c "+" then (false, s') else (false, s)
                   | [] => (false, s)
                   end in
  let '(ds, rest) := span is_digit s in
  match ds, rest with
  | _ :: _, _ :: _ => Some (neg, digits_value ds, rest)
  | _, _ => None
  end.

(** Unsigned: the magnitude must fit; a minus sign negates modulo 2^64. *)
Definition read_uint64 (s : text) : option (Z * text) :=
  '(neg, v, rest) ← read_digits s;
  if (Z.of_N v <=? UINT64_MAX)%Z
  then Some (if (neg : bool) then wrap64 (- Z.of_N v) else Z.of_N v, rest) else None.

(** Signed, for a type of [2 * half] values. *)
Definition read_signed (half : Z) (s : text) : option (Z * text) :=
  '(neg, v, rest) ← read_digits s;
  let z := if (neg : bool) then (- Z.of_N v)%Z else Z.of_N v in
  if (- half <=? z)%Z && (z <? half)%Z then Some (z, rest) else None.
Definition read_int64 : text → option (Z * text) := read_signed (2 ^ 63).
Definition read_int : text → option (Z * text) := read_signed (2 ^ 31).

(** [fs >> dummy] for a string: one word. *)
Definition read_word (s : text) : option (text * text) :=
  let '(w, rest) := span (λ c, negb (is_space c)) (skip_ws s) in
  match w, rest with _ :: _, _ :: _ => Some (w, rest) | _, _ => None end.

(** [fs >> c] for a character. *)
Definition read_char (s : text) : option (ascii * text) :=
  match skip_ws s with c :: rest => Some (c, rest) | [] => None end.

(** ** Serialization of the types *)
Class Serial (A : Type) := {
  serialize : A → text;
  deserialize : text → option (A * text);
}.

(** [serialize(fs, context, uint64_t)] and [int64_t] *)
Definition serialize_uint64 (x : Z) : text := print_Z x ++ lit " ".
Definition serialize_int64 (x : Z) : text := print_Z x ++ lit " ".

(** [std::string]: length, a comma, the bytes. *)
Definition serialize_string (x : text) : text := print_N (N.of_nat (length x)) ++ lit "," ++ x.
Definition deserialize_string (s : text) : option (text * text) :=
  '(len, s) ← read_uint64 s;
  '(_, s) ← read_char s;
  if (Z.of_nat (length s) <? len)%Z then None
  else Some (take (Z.to_nat len) s, drop (Z.to_nat len) s).

#[global] Instance string_serial : Serial text :=
  { serialize := serialize_string; deserialize := deserialize_string }.

(** [std::map] *)
Section map_serial.
Context {K A : Type} `{KeyOps K} `{Serial K} `{Serial A}.

Definition serialize_entry (e : K * A) : text :=
  lit "  " ++ serialize e.1 ++ lit " -> " ++ serialize e.2 ++ endl.
Definition serialize_map (mp : list (K * A)) : text :=
  lit "map " ++ print_N (N.of_nat (length mp)) ++ lit " {" ++ endl ++
  flat_map serialize_entry mp ++ lit "}" ++ endl.

Fixpoint deserialize_entries (size : nat) (mp : list (K * A)) (s : text) : option (list (K * A) * text) :=
  match size with
  | O => Some (mp, s)
  | S size' =>
      '(k, s) ← deserialize s;
      '(_, s) ← read_word s;
      '(v, s) ← deserialize s;
      deserialize_entries size' (map_assign mp k v) s
  end.
Definition deserialize_map (s : text) : option (list (K * A) * text) :=
  '(_, s) ← read_word s;
  '(size, s) ← read_int s;
  '(_, s) ← read_word s;
  '(mp, s) ← deserialize_entries (Z.to_nat size) [] s;
  '(_, s) ← read_word s;
  Some (mp, s).
End map_serial.

(** A plain pointer is written as what it points to; reading makes a new object. *)
Record raw_pointer (A : Type) := MkRaw { pointee : A }.
Arguments MkRaw {A} pointee.
Arguments pointee {A} r.

Definition serialize_raw {A} `{Serial A} (x : raw_pointer A) : text := lit "pointer " ++ serialize (pointee x).
Definition deserialize_raw {A} `{Serial A} (s : text) : option (raw_pointer A * text) :=
  '(dummy, s) ← read_word s;
  guard (dummy = lit "pointer");;
  '(x, s) ← deserialize s;
  Some (MkRaw x, s).
#[global] Instance raw_serial {A} `{Serial A} : Serial (raw_pointer A) :=
  { serialize := serialize_raw; deserialize := deserialize_raw }.

(** The types of client/betree.hpp. *)
Section node_serial.
Context {K V : Type} `{KeyOps K} `{Serial K} `{Serial V}.

#[global] Instance message_key_serial : Serial (MessageKey K) := {
  serialize mk := print_Z (mk_timestamp mk) ++ lit " " ++ serialize (mk_key mk);
  deserialize s :=
    '(ts, s) ← read_uint64 s;
    '(k, s) ← deserialize s;
    Some (MkMessageKey k ts, s);
}.

#[global] Instance message_serial : Serial (Message V) := {
  serialize m := print_Z (opcode m) ++ lit " " ++ serialize (val m);
  deserialize s :=
    '(opc, s) ← read_int s;
    '(v, s) ← deserialize s;
    Some (MkMessage opc v, s);
}.

(** A pointer is written as the id of its target. *)
Definition serialize_pointer (p : node_pointer) : text := print_N p ++ lit " ".
Definition deserialize_pointer (s : text) : option (node_pointer * text) :=
  '(p, s) ← read_uint64 s; Some (Z.to_N p, s).

#[global] Instance child_info_serial : Serial child_info := {
  serialize ci := serialize_pointer (child ci) ++ lit " " ++ serialize_uint64 (child_size ci);
  deserialize s :=
    '(c, s) ← deserialize_pointer s;
    '(sz, s) ← read_uint64 s;
    Some (MkChildInfo c sz, s);
}.

Definition serialize_node (n : node K V) : text :=
  lit "pivots:" ++ endl ++ serialize_map (pivots n) ++
  lit "elements:" ++ endl ++ serialize_map (elements n).
Definition deserialize_node (s : text) : option (node K V * text) :=
  '(_, s) ← read_word s;
  '(ps, s) ← deserialize_map s;
  '(_, s) ← read_word s;
  '(es, s) ← deserialize_map s;
  Some (MkNode ps es, s).

#[global] Instance node_serial : Serial (node K V) :=
  { serialize := serialize_node; deserialize := deserialize_node }.
End node_serial.

(** ** What is written can be read *)

Definition ws (w : text) : Prop := Forall (λ c, is_space c = true) w.

Lemma span_app f a b :
  Forall (λ c, f c = true) a → match b with c :: _ => f c = false | [] => True end → span f (a ++ b) = (a, b).
Proof.
  induction 1 as [|c a Hc Ha IH]; intros Hb; cbn.
  - destruct b as [|c b]; [done|]. cbn. by rewrite Hb.
  - by rewrite Hc, IH.
Qed.

Lemma skip_ws_app w s : ws w → skip_ws (w ++ s) = skip_ws s.
Proof.
  unfold skip_ws. induction 1 as [|c w Hc Hw IH]; [done|]. cbn. rewrite Hc.
  destruct (span is_space (w ++ s)). done.
Qed.

Lemma skip_ws_stop c s : is_space c = false → skip_ws (c :: s) = c :: s.
Proof. unfold skip_ws. cbn. by intros ->. Qed.

Lemma skip_ws_text w c s : ws w → is_space c = false → skip_ws (w ++ c :: s) = c :: s.
Proof. intros. rewrite skip_ws_app by done. by apply skip_ws_stop. Qed.

Lemma digit_char_ok d : (d < 10)%N →
  is_digit (digit_char d) = true ∧ char_digit (digit_char d) = d ∧ is_space (digit_char d) = false ∧
  Ascii.eqb (digit_char d) "-" = false ∧ Ascii.eqb (digit_char d) "+" = false.
Proof.
  intros Hd. assert (d ∈ ([0; 1; 2; 3; 4; 5; 6; 7; 8; 9]%N : list N)) as Hin.
  { destruct d as [|p]; [by apply elem_of_cons; left|]. do 9 (destruct p as [p|p|]; try lia; try set_solver). }
  revert d Hd Hin. assert (Forall (λ d, is_digit (digit_char d) = true ∧ char_digit (digit_char d) = d ∧
    is_space (digit_char d) = false ∧ Ascii.eqb (digit_char d) "-" = false ∧
    Ascii.eqb (digit_char d) "+" = false) ([0; 1; 2; 3; 4; 5; 6; 7; 8; 9]%N : list N)) as Hall
    by (repeat constructor).
  rewrite Forall_forall in Hall. auto.
Qed.

Lemma digits_app fuel : ∀ n acc, digits fuel n acc = digits fuel n [] ++ acc.
Proof.
  induction fuel as [|fuel IH]; intros n acc; [done|]. cbn. destruct (n / 10 =? 0)%N; [done|].
  rewrite IH, (IH _ [_]), <- app_assoc. done.
Qed.

Lemma digits_chars fuel : ∀ n, Forall (λ c, ∃ d, (d < 10)%N ∧ c = digit_char d) (digits fuel n []).
Proof.
  induction fuel as [|fuel IH]; intros n; [constructor|]. cbn.
  assert (∃ d, (d < 10)%N ∧ digit_char (n `mod` 10) = digit_char d) as Hd.
  { eexists. split; [|done]. apply N.mod_lt. lia. }
  destruct (n / 10 =? 0)%N; [by repeat constructor|]. rewrite digits_app. apply Forall_app. split; [apply IH|].
  by repeat constructor.
Qed.

Lemma digits_value_correct fuel : ∀ n, (n < 10 ^ N.of_nat fuel)%N → digits_value (digits fuel n []) = n.
Proof.
  induction fuel as [|fuel IH]; intros n Hn; [cbn in *; lia|]. cbn.
  pose proof (N.mod_lt n 10 ltac:(lia)) as Hmod. pose proof (N.div_mod n 10 ltac:(lia)) as Hdm.
  destruct (digit_char_ok (n `mod` 10) Hmod) as (_ & Hc & _).
  destruct (N.eqb_spec (n / 10) 0) as [Hz|Hz].
  - unfold digits_value. cbn. rewrite Hc. lia.
  - rewrite digits_app. unfold digits_value. rewrite foldl_app. cbn. fold (digits_value (digits fuel (n / 10) [])).
    rewrite IH, Hc; [lia|]. apply N.Div0.div_lt_upper_bound. rewrite Nat2N.inj_succ, N.pow_succ_r' in Hn. lia.
Qed.

Lemma size_pow10 n : (n < 10 ^ N.of_nat (S (N.size_nat n)))%N.
Proof.
  rewrite Nat2N.inj_succ, N.pow_succ_r'. 
  pose proof (N.size_gt n) as Hs. assert (N.size n = N.of_nat (N.size_nat n)) as Heq.
  { destruct n as [|p]; [done|]. cbn. clear. induction p as [p IH|p IH|]; cbn in *; lia. }
  rewrite Heq in Hs. pose proof (N.pow_le_mono_l 2 10 (N.of_nat (N.size_nat n)) ltac:(done)). lia.
Qed.

Lemma print_N_value n : digits_value (print_N n) = n.
Proof. apply digits_value_correct, size_pow10. Qed.

(** A printed number: its first character, and that all are digits. *)
Lemma print_N_digits n :
  Forall (λ c, is_digit c = true) (print_N n) ∧
  ∃ c s, print_N n = c :: s ∧ is_space c = false ∧ Ascii.eqb c "-" = false ∧ Ascii.eqb c "+" = false.
Proof.
  pose proof (digits_chars (S (N.size_nat n)) n) as Hd. fold (print_N n) in Hd. split.
  - eapply Forall_impl; [exact Hd|]. intros c (d & Hlt & ->). by apply digit_char_ok.
  - assert (print_N n ≠ []) as Hne.
    { unfold print_N. cbn. destruct (n / 10 =? 0)%N; [done|]. rewrite digits_app. by destruct (digits _ _ []). }
    destruct (print_N n) as [|c s]; [done|]. inversion Hd as [|? ? (d & Hlt & ->) _]; subst.
    exists (digit_char d), s. destruct (digit_char_ok d Hlt) as (_ & _ & ? & ? & ?). done.
Qed.

Lemma read_digits_print w n c rest :
  ws w → is_digit c = false → read_digits (w ++ print_N n ++ c :: rest) = Some (false, n, c :: rest).
Proof.
  intros Hw Hc. destruct (print_N_digits n) as (Hd & c0 & s0 & Hp & Hsp & Hm & Hpl). unfold read_digits.
  rewrite Hp. cbn [app]. rewrite skip_ws_text by done. rewrite Hm, Hpl.
  change (c0 :: s0 ++ c :: rest) with ((c0 :: s0) ++ c :: rest). rewrite <- Hp.
  rewrite span_app by done. rewrite Hp, <- Hp, print_N_value. done.
Qed.

Lemma read_digits_print_neg w n c rest :
  ws w → is_digit c = false → read_digits (w ++ lit "-" ++ print_N n ++ c :: rest) = Some (true, n, c :: rest).
Proof.
  intros Hw Hc. destruct (print_N_digits n) as (Hd & c0 & s0 & Hp & _). unfold read_digits.
  cbn [lit list_ascii_of_string app]. rewrite skip_ws_text by done. rewrite Ascii.eqb_refl.
  rewrite span_app by done. rewrite Hp, <- Hp, print_N_value. done.
Qed.

Lemma read_uint64_print w z c rest :
  ws w → (0 <= z <= UINT64_MAX)%Z → is_digit c = false →
  read_uint64 (w ++ print_Z z ++ c :: rest) = Some (z, c :: rest).
Proof.
  intros Hw Hz Hc. unfold read_uint64, print_Z. destruct (Z.ltb_spec z 0); [lia|].
  rewrite read_digits_print by done. cbn [mbind option_bind].
  rewrite Z2N.id by lia. destruct (Z.leb_spec z UINT64_MAX); [done|lia].
Qed.

Lemma read_signed_print half w z c rest :
  ws w → (- half <= z < half)%Z → is_digit c = false →
  read_signed half (w ++ print_Z z ++ c :: rest) = Some (z, c :: rest).
Proof.
  intros Hw Hz Hc. unfold read_signed, print_Z. destruct (Z.ltb_spec z 0).
  - rewrite <- (app_assoc (lit "-")), read_digits_print_neg by done. cbn [mbind option_bind].
    rewrite Z2N.id by lia. rewrite Z.opp_involutive.
    destruct (Z.leb_spec (- half) z), (Z.ltb_spec z half); cbn; done || lia.
  - rewrite read_digits_print by done. cbn [mbind option_bind]. rewrite Z2N.id by lia.
    destruct (Z.leb_spec (- half) z), (Z.ltb_spec z half); cbn; done || lia.
Qed.

Lemma print_N_Z n : print_N n = print_Z (Z.of_N n).
Proof. unfold print_Z. destruct (Z.ltb_spec (Z.of_N n) 0); [lia|]. by rewrite N2Z.id. Qed.

(** A word, written as such and followed by white space. *)
Lemma read_word_print w a sp rest :
  ws w → a ≠ [] → Forall (λ c, is_space c = false) a → is_space sp = true →
  read_word (w ++ a ++ sp :: rest) = Some (a, sp :: rest).
Proof.
  intros Hw Hne Ha Hsp. unfold read_word. destruct a as [|c a]; [done|]. inversion Ha; subst.
  cbn [app]. rewrite skip_ws_text by done. change (c :: a ++ sp :: rest) with ((c :: a) ++ sp :: rest).
  rewrite span_app; [done| |by rewrite Hsp]. eapply Forall_impl; [exact Ha|]. intros ? Hx. by rewrite Hx.
Qed.

(** ** The law of serialization

    Reading skips leading white space and may leave trailing white space behind. *)
Class SerialOk (A : Type) `{Serial A} (good : A → Prop) :=
  serial_ok w a rest : ws w → good a →
    ∃ w', ws w' ∧ deserialize (w ++ serialize a ++ rest) = Some (a, w' ++ rest).

Definition uint64_ok (z : Z) : Prop := (0 <= z <= UINT64_MAX)%Z.

#[global] Instance raw_serial_ok {A} `{SerialOk A good} : SerialOk (raw_pointer A) (λ x, good (pointee x)).
Proof.
  intros w [a] rest Hw Ha. cbn [deserialize serialize raw_serial]. unfold serialize_raw, deserialize_raw. cbn [pointee].
  change (lit "pointer ") with (lit "pointer" ++ [" "%char]). rewrite <- !app_assoc. cbn [app].
  rewrite read_word_print; [|done|done|by repeat constructor|done]. cbn [mbind option_bind].
  destruct (serial_ok [" "%char] a rest) as (w' & Hw' & Hd); [by repeat constructor|done|].
  exists w'. split; [done|]. cbn [app] in Hd. cbn. by rewrite Hd.
Qed.

#[global] Instance string_serial_ok : SerialOk text (λ s, uint64_ok (Z.of_nat (length s))).
Proof.
  intros w a rest Hw Ha. exists []. split; [constructor|]. cbn [deserialize serialize string_serial].
  unfold deserialize_string, serialize_string. rewrite print_N_Z, nat_N_Z, <- !app_assoc.
  change (lit "," ++ a ++ rest) with ("," :: a ++ rest)%char. rewrite read_uint64_print by done.
  cbn [mbind option_bind]. unfold read_char. rewrite skip_ws_stop by done. cbn [mbind option_bind].
  rewrite length_app. destruct (Z.ltb_spec (Z.of_nat (length a + length rest)) (Z.of_nat (length a))); [lia|].
  rewrite Nat2Z.id, take_app_length, drop_app_length. done.
Qed.

Lemma ws_app w w' : ws w → ws w' → ws (w ++ w').
Proof. intros. by apply Forall_app. Qed.
Lemma ws_spaces n : ws (repeat " "%char n).
Proof. induction n; constructor; done. Qed.

Section map_roundtrip.
Context {K A : Type} `{KeyOrder K} `{Serial K} `{Serial A}.
Context (goodK : K → Prop) (goodA : A → Prop) `{!SerialOk K goodK} `{!SerialOk A goodA}.

Definition map_ok (mp : list (K * A)) : Prop :=
  sorted mp ∧ (∀ e, e ∈ mp → goodK e.1 ∧ goodA e.2) ∧ (Z.of_nat (length mp) < 2 ^ 31)%Z.

Lemma entries_roundtrip mp : ∀ acc w rest,
  ws w → sorted (acc ++ mp) → (∀ e, e ∈ mp → goodK e.1 ∧ goodA e.2) →
  ∃ w', ws w' ∧
    deserialize_entries (length mp) acc (w ++ flat_map serialize_entry mp ++ rest) = Some (acc ++ mp, w' ++ rest).
Proof.
  induction mp as [|[k v] mp IH]; intros acc w rest Hw Hs Hgood; cbn [length deserialize_entries flat_map].
  { exists w. rewrite app_nil_r. done. }
  destruct (Hgood (k, v)) as [Hk Hv]; [apply elem_of_cons; auto|]. cbn in Hk, Hv.
  unfold serialize_entry at 1. cbn [fst snd]. rewrite <- !app_assoc, (app_assoc w).
  destruct (serial_ok (w ++ lit "  ") k (lit " -> " ++ serialize v ++ endl ++ flat_map serialize_entry mp ++ rest))
    as (w1 & Hw1 & Hd1); [apply ws_app; [done|by repeat constructor]|done|].
  rewrite Hd1. cbn [mbind option_bind].
  change (lit " -> " ++ ?r) with (lit " " ++ lit "->" ++ " "%char :: r). rewrite (app_assoc w1).
  rewrite read_word_print; [|apply ws_app; [done|by repeat constructor]|done|by repeat constructor|done].
  cbn [mbind option_bind].
  destruct (serial_ok [" "%char] v (endl ++ flat_map serialize_entry mp ++ rest)) as (w2 & Hw2 & Hd2);
    [by repeat constructor|done|].
  cbn [app] in Hd2. rewrite Hd2. cbn [mbind option_bind]. rewrite (app_assoc w2).
  rewrite map_assign_snoc.
  2:{ intros x Hx. apply sorted_app in Hs as (_ & _ & Hs). apply (Hs x (k, v) Hx), elem_of_cons; auto. }
  destruct (IH (acc ++ [(k, v)]) (w2 ++ endl) rest) as (w3 & Hw3 & Hd3).
  - apply ws_app; [done|by repeat constructor].
  - by rewrite <- app_assoc.
  - intros e He. apply Hgood, elem_of_cons; auto.
  - exists w3. split; [done|]. rewrite Hd3, <- app_assoc. done.
Qed.

Lemma map_roundtrip w mp rest : ws w → map_ok mp →
  ∃ w', ws w' ∧ deserialize_map (w ++ serialize_map mp ++ rest) = Some (mp, w' ++ rest).
Proof.
  intros Hw (Hs & Hgood & Hlen). unfold deserialize_map, serialize_map. rewrite <- !app_assoc.
  change (lit "map " ++ ?r) with (lit "map" ++ " "%char :: r). rewrite read_word_print by (done || by repeat constructor).
  cbn [mbind option_bind]. rewrite print_N_Z, nat_N_Z.
  change (lit " {" ++ ?r) with (" "%char :: lit "{" ++ r).
  change (" "%char :: print_Z ?z ++ ?r) with ([" "%char] ++ print_Z z ++ r).
  unfold read_int. rewrite read_signed_print by (done || lia || by repeat constructor).
  cbn [mbind option_bind]. change (" "%char :: lit "{" ++ endl ++ ?r) with ([" "%char] ++ lit "{" ++ ascii_of_N 10 :: r).
  rewrite read_word_print by (done || by repeat constructor). cbn [mbind option_bind]. rewrite Nat2Z.id.
  destruct (entries_roundtrip mp [] [ascii_of_N 10] (lit "}" ++ endl ++ rest)) as (w1 & Hw1 & Hd1);
    [by repeat constructor|done|done|].
  cbn [app] in Hd1. rewrite Hd1. cbn [mbind option_bind].
  change (endl ++ rest) with (ascii_of_N 10 :: rest).
  rewrite read_word_print by (done || by repeat constructor). cbn [mbind option_bind].
  exists endl. split; [by repeat constructor|done].
Qed.
End map_roundtrip.

Section node_roundtrip.
Context {K V : Type} `{KeyOrder K} `{Serial K} `{Serial V}.
Context (goodK : K → Prop) (goodV : V → Prop) `{!SerialOk K goodK} `{!SerialOk V goodV}.

Definition mkey_ok (mk : MessageKey K) : Prop := goodK (mk_key mk) ∧ uint64_ok (mk_timestamp mk).
Definition message_ok (m : Message V) : Prop := (- 2 ^ 31 <= opcode m < 2 ^ 31)%Z ∧ goodV (val m).
Definition child_info_ok (ci : child_info) : Prop :=
  uint64_ok (Z.of_N (child ci)) ∧ uint64_ok (child_size ci).

#[global] Instance message_key_serial_ok : SerialOk (MessageKey K) mkey_ok.
Proof.
  intros w [k ts] rest Hw [Hk Hts]. cbn [deserialize serialize message_key_serial mk_timestamp mk_key] in *.
  rewrite <- !app_assoc. change (lit " " ++ ?r) with (" "%char :: r). rewrite read_uint64_print by done.
  cbn [mbind option_bind].
  destruct (serial_ok [" "%char] k rest) as (w' & Hw' & Hd); [by repeat constructor|done|].
  cbn [app] in Hd. rewrite Hd. by exists w'.
Qed.

#[global] Instance message_serial_ok : SerialOk (Message V) message_ok.
Proof.
  intros w [opc v] rest Hw [Hop Hv]. cbn [deserialize serialize message_serial opcode val] in *.
  rewrite <- !app_assoc. change (lit " " ++ ?r) with (" "%char :: r). unfold read_int.
  rewrite read_signed_print by done. cbn [mbind option_bind].
  destruct (serial_ok [" "%char] v rest) as (w' & Hw' & Hd); [by repeat constructor|done|].
  cbn [app] in Hd. rewrite Hd. by exists w'.
Qed.

#[global] Instance child_info_serial_ok : SerialOk child_info child_info_ok.
Proof.
  intros w [c sz] rest Hw [Hc Hsz]. cbn [deserialize serialize child_info_serial child child_size] in *.
  unfold serialize_pointer, serialize_uint64, deserialize_pointer. rewrite <- !app_assoc, print_N_Z.
  change (lit " ") with [" "%char]. cbn [app]. rewrite read_uint64_print by done. cbn [mbind option_bind].
  rewrite N2Z.id. change (" "%char :: " "%char :: ?r) with ([" "; " "]%char ++ r).
  rewrite read_uint64_print by (done || by repeat constructor). cbn [mbind option_bind].
  exists [" "%char]. split; [by repeat constructor|done].
Qed.

Definition node_ok (n : node K V) : Prop :=
  map_ok goodK child_info_ok (pivots n) ∧ map_ok mkey_ok message_ok (elements n).

Lemma node_roundtrip w n rest : ws w → node_ok n →
  ∃ w', ws w' ∧ deserialize_node (w ++ serialize_node n ++ rest) = Some (n, w' ++ rest).
Proof.
  intros Hw [Hp He]. unfold deserialize_node, serialize_node. rewrite <- !app_assoc.
  change endl with [ascii_of_N 10]. cbn [app]. rewrite read_word_print by (done || by repeat constructor).
  cbn [mbind option_bind].
  destruct (map_roundtrip goodK child_info_ok [ascii_of_N 10] (pivots n)
              (lit "elements:" ++ ascii_of_N 10 :: serialize_map (elements n) ++ rest)) as (w1 & Hw1 & Hd1);
    [by repeat constructor|done|].
  cbn [app] in Hd1. rewrite Hd1. cbn [mbind option_bind].
  rewrite read_word_print by (done || by repeat constructor). cbn [mbind option_bind].
  destruct (map_roundtrip mkey_ok message_ok [ascii_of_N 10] (elements n) rest) as (w2 & Hw2 & Hd2);
    [by repeat constructor|done|].
  cbn [app] in Hd2. rewrite Hd2. cbn [mbind option_bind]. exists w2. by destruct n.
Qed.

#[global] Instance node_serial_ok : SerialOk (node K V) node_ok.
Proof. intros w n rest. apply node_roundtrip. Qed.
End node_roundtrip.

(** Keys of type [uint64_t] and [int64_t]. *)
Definition uint64_serial : Serial Z := {| serialize := serialize_uint64; deserialize := read_uint64 |}.
Definition int64_serial : Serial Z := {| serialize := serialize_int64; deserialize := read_int64 |}.

Lemma uint64_serial_ok : @SerialOk Z uint64_serial uint64_ok.
Proof.
  intros w z rest Hw Hz. exists [" "%char]. split; [by repeat constructor|]. cbn [serialize deserialize uint64_serial].
  unfold serialize_uint64. rewrite <- app_assoc. by apply read_uint64_print.
Qed.

Lemma int64_serial_ok : @SerialOk Z int64_serial (λ z, - 2 ^ 63 <= z < 2 ^ 63)%Z.
Proof.
  intros w z rest Hw Hz. exists [" "%char]. split; [by repeat constructor|]. cbn [serialize deserialize int64_serial].
  unfold serialize_int64, read_int64. rewrite <- app_assoc. by apply read_signed_print.
Qed.
