(* ===== verification/BackingStore.v ===== *)
(** * One file per object (client/backing_store.cpp)

    The state is the directory of the store, a map from path to contents, and the
    next object id.  The file system itself accepts every operation on a file that
    exists.  [get] opens a missing file without noticing, and the stream it returns throws
    [std::ios_base::failure], a [std::runtime_error], at the first read or write;
    [deallocate] asserts that the file was there. *)
From Stdlib Require Import ZArith Lia Ascii String.
From stdpp Require Import prelude gmap.
From S2P Require Import Prelude StdMap Serialize.

#[local] Open Scope cpp_scope.

#[global] Instance ascii_eq_dec : EqDecision ascii := Ascii.ascii_dec.
#[global] Instance ascii_countable : Countable ascii.
Proof.
  refine (inj_countable' N_of_ascii ascii_of_N _). intros c. apply ascii_N_embedding.
Defined.

Record backing_store := MkBackingStore {
  bs_root : text;
  bs_nextid : Z;
  bs_files : gmap text text;
}.

(** The constructor. *)
Definition new_backing_store (rt : text) (files : gmap text text) : backing_store := MkBackingStore rt 1 files.

(** [root + "/" + std::to_string(id)] *)
Definition filename (rt : text) (id : Z) : text := rt ++ lit "/" ++ print_Z id.

Definition bs_set_files (b : backing_store) (f : gmap text text) : backing_store :=
  MkBackingStore (bs_root b) (bs_nextid b) f.

(** What is stored under an id. *)
Definition stored_at (b : backing_store) (id : Z) : option text := bs_files b !! filename (bs_root b) id.

(** A 64-bit counter; running through all its values is a fault of the store. *)
Definition count64 {S} (z : Z) : M S Z := if (z <? UINT64_MAX)%Z then ret (z + 1)%Z else halt store_fault.

(** [allocate]: a new, empty file. *)
Definition bs_allocate : M backing_store Z := λ b,
  (let! next := count64 (bs_nextid b) in
   λ _, Ok (bs_nextid b)
           (MkBackingStore (bs_root b) next (<[ filename (bs_root b) (bs_nextid b) := [] ]> (bs_files b)))) b.

(** [deallocate] *)
Definition bs_deallocate (id : Z) : M backing_store unit := λ b,
  match stored_at b id with
  | Some _ => Ok tt (bs_set_files b (delete (filename (bs_root b) id) (bs_files b)))
  | None => Halt assert_failed
  end.

(** [get], for reading: the contents; without the file the first read throws. *)
Definition bs_read (id : Z) : M backing_store text := λ b,
  match stored_at b id with
  | Some s => Ok s b
  | None => Throw runtime_error b
  end.

(** [get], one [write] from the beginning of the file, [put]. *)
Definition bs_write (id : Z) (s : text) : M backing_store unit := λ b,
  match stored_at b id with
  | Some old => Ok tt (bs_set_files b (<[ filename (bs_root b) id := s ++ drop (length s) old ]> (bs_files b)))
  | None => Throw runtime_error b
  end.

(** ** Files of different objects are different *)
Lemma print_Z_inj a b : (0 <= a)%Z → (0 <= b)%Z → print_Z a = print_Z b → a = b.
Proof.
  intros Ha Hb. unfold print_Z. destruct (Z.ltb_spec a 0); [lia|]. destruct (Z.ltb_spec b 0); [lia|].
  intros Heq. apply (f_equal digits_value) in Heq. rewrite !print_N_value in Heq. lia.
Qed.

Lemma filename_inj rt a b : (0 <= a)%Z → (0 <= b)%Z → filename rt a = filename rt b → a = b.
Proof.
  intros Ha Hb Heq. unfold filename in Heq. apply app_inv_head, app_inv_head in Heq. by apply print_Z_inj.
Qed.

(** The ids handed out so far. *)
Definition bs_inv (b : backing_store) : Prop := (1 <= bs_nextid b)%Z.

Lemma bs_allocate_spec tol b Q E :
  tol store_fault → bs_inv b →
  (∀ b', bs_inv b' → bs_nextid b' = (bs_nextid b + 1)%Z → stored_at b' (bs_nextid b) = Some [] →
     (∀ id, (0 <= id)%Z → id ≠ bs_nextid b → stored_at b' id = stored_at b id) → Q (bs_nextid b) b') →
  wp tol bs_allocate b Q E.
Proof.
  intros Htol Hb HQ. unfold wp, bs_allocate, bind, count64, bs_inv in *. destruct (_ <? _)%Z; cbn; [|done].
  apply HQ; unfold stored_at; cbn; [lia|done|by rewrite lookup_insert_eq|].
  intros id Hid Hne. rewrite lookup_insert_ne; [done|]. intros ?%filename_inj; lia.
Qed.

Lemma bs_deallocate_spec tol b id s Q E :
  stored_at b id = Some s → (0 <= id)%Z →
  (∀ b', bs_nextid b' = bs_nextid b → stored_at b' id = None →
     (∀ id', (0 <= id')%Z → id' ≠ id → stored_at b' id' = stored_at b id') → Q tt b') →
  wp tol (bs_deallocate id) b Q E.
Proof.
  intros Hs Hid HQ. unfold wp, bs_deallocate. rewrite Hs.
  apply HQ; unfold stored_at; cbn; [done|by rewrite lookup_delete_eq|].
  intros id' Hid' Hne. rewrite lookup_delete_ne; [done|]. intros ?%filename_inj; lia.
Qed.

Lemma bs_write_spec tol b id s Q E :
  stored_at b id = Some [] → (0 <= id)%Z →
  (∀ b', bs_nextid b' = bs_nextid b → stored_at b' id = Some s →
     (∀ id', (0 <= id')%Z → id' ≠ id → stored_at b' id' = stored_at b id') → Q tt b') →
  wp tol (bs_write id s) b Q E.
Proof.
  intros Hs Hid HQ. unfold wp, bs_write. rewrite Hs. rewrite drop_nil, app_nil_r.
  apply HQ; unfold stored_at; cbn; [done|by rewrite lookup_insert_eq|].
  intros id' Hid' Hne. rewrite lookup_insert_ne; [done|]. intros ?%filename_inj; lia.
Qed.

Lemma bs_read_spec tol b id s Q E : stored_at b id = Some s → Q s b → wp tol (bs_read id) b Q E.
Proof. intros Hs HQ. unfold wp, bs_read. by rewrite Hs. Qed.

(** Two stores in one directory, as two client fibers have them, use the same file names: what the second writes replaces what
    the first wrote. *)
Definition bs_store (s : text) : M backing_store Z := let! id := bs_allocate in bs_write id s ;; ret id.
Lemma shared_directory_collides rt files a b :
  ∃ one two, bs_store a (new_backing_store rt files) = Ok 1%Z one ∧
    bs_store b (new_backing_store rt (bs_files one)) = Ok 1%Z two ∧
    stored_at one 1 = Some a ∧ stored_at (bs_set_files one (bs_files two)) 1 = Some b.
Proof.
  assert (∀ fs s, bs_store s (new_backing_store rt fs) =
    Ok 1%Z (MkBackingStore rt 2 (<[filename rt 1 := s]> (<[filename rt 1 := []]> fs)))) as Hrun.
  { intros fs s. unfold bs_store, bs_write, stored_at, bind, bs_allocate, count64, new_backing_store.
    cbn [bs_root bs_nextid bs_files bs_set_files Z.ltb Z.compare ret UINT64_MAX]. change (1 <? UINT64_MAX)%Z with true.
    cbn [bind ret bs_root bs_nextid bs_files bs_set_files]. unfold bind. cbn [ret bs_root bs_nextid bs_files bs_set_files].
    rewrite lookup_insert_eq. by rewrite drop_nil, app_nil_r. }
  eexists _, _. split_and!; [apply Hrun|apply Hrun|..]; unfold stored_at; cbn [bs_root bs_files bs_set_files]; by rewrite lookup_insert_eq.
Qed.
