(* ===== verification/SwapSpace.v ===== *)
(** * The swap space (client/swap_space.hpp, swap_space.cpp)

    Objects are in memory ([o_target = Some n]) or only in the backing store.  An
    access pins its object, loads it if needed and may evict others, least recently
    used first.  The state is the fields of the C++ class, with the requests sent to
    the storage server as a log; the operations are its methods, those of [pin] and
    [pointer] included.

    Four kinds of failure are faults of the store: a 64-bit counter that has run through all its values; a node whose text
    does not fit the buffer of the [EvictNode] request, which the C++ code overruns; a pointer field whose target is gone, when it is written or read,
    where the C++ code fails an assertion; and a value outside its C++ type that is put into an object ([typed]), where the C++ code, whose variables cannot hold
    such a value, checks nothing.  Every other failed assertion or null dereference is [assert_failed] or [undefined_behaviour]. *)
From Stdlib Require Import ZArith Lia Ascii String.
From stdpp Require Import prelude gmap.
From S2P Require Import Prelude StdMap NodeStore Serialize BackingStore.

#[local] Open Scope cpp_scope.

(** What the swap space needs of its objects: [serializable], and that a value whose
    fields fit their C++ types ([typed]) is read back as written. *)
Class Codec (node : Type) := {
  encode : node → text;
  decode : text → option node;
  typed : node → bool;
}.

(** [evictnode_request_t::buffer] *)
Definition EVICT_BUFFER : nat := Z.to_nat 4096.

Class CodecOk (node : Type) `{Codec node} : Prop :=
  codec_ok n : typed n = true → (Z.of_nat (length (encode n)) <= Z.of_nat EVICT_BUFFER)%Z → decode (encode n) = Some n.

Section swap_space.
Context {node : Type} `{Codec node} `{Links node}.

(** The requests the swap space makes through [StorageClient]. *)
Inductive request := GetNodeId | EvictNode (node_id : N) (buffer : text).

(** [swap_space::object] *)
Record object := MkObject {
  o_target : option node;
  o_bsid : Z;
  o_is_leaf : bool;
  o_refcount : Z;
  o_last_access : Z;
  o_dirty : bool;
  o_pincount : Z;
}.

Record swap_space := MkSwapSpace {
  backstore : backing_store;
  sc : list request;
  next_id : Z;
  next_access_time : Z;
  max_in_memory_objects : Z;
  current_in_memory_objects : Z;
  objects : gmap N object;
  lru_pqueue : list (Z * N);          (* std::set<object *> ordered by last_access *)
}.

Definition new_swap_space (bs : backing_store) (n : Z) : swap_space := MkSwapSpace bs [] 1 0 n 0 ∅ [].

Definition set_backstore (b : backing_store) (s : swap_space) : swap_space :=
  MkSwapSpace b (sc s) (next_id s) (next_access_time s) (max_in_memory_objects s)
    (current_in_memory_objects s) (objects s) (lru_pqueue s).
Definition set_objects (os : gmap N object) (s : swap_space) : swap_space :=
  MkSwapSpace (backstore s) (sc s) (next_id s) (next_access_time s) (max_in_memory_objects s)
    (current_in_memory_objects s) os (lru_pqueue s).
Definition set_lru (l : list (Z * N)) (s : swap_space) : swap_space :=
  MkSwapSpace (backstore s) (sc s) (next_id s) (next_access_time s) (max_in_memory_objects s)
    (current_in_memory_objects s) (objects s) l.
Definition set_current (c : Z) (s : swap_space) : swap_space :=
  MkSwapSpace (backstore s) (sc s) (next_id s) (next_access_time s) (max_in_memory_objects s)
    c (objects s) (lru_pqueue s).
Definition set_access_time (t : Z) (s : swap_space) : swap_space :=
  MkSwapSpace (backstore s) (sc s) (next_id s) t (max_in_memory_objects s)
    (current_in_memory_objects s) (objects s) (lru_pqueue s).
Definition set_next_id (i : Z) (s : swap_space) : swap_space :=
  MkSwapSpace (backstore s) (sc s) i (next_access_time s) (max_in_memory_objects s)
    (current_in_memory_objects s) (objects s) (lru_pqueue s).
Definition set_sc (l : list request) (s : swap_space) : swap_space :=
  MkSwapSpace (backstore s) l (next_id s) (next_access_time s) (max_in_memory_objects s)
    (current_in_memory_objects s) (objects s) (lru_pqueue s).

Definition with_target (o : object) (t : option node) : object :=
  MkObject t (o_bsid o) (o_is_leaf o) (o_refcount o) (o_last_access o) (o_dirty o) (o_pincount o).
Definition with_access (o : object) (t : Z) (dirty : bool) : object :=
  MkObject (o_target o) (o_bsid o) (o_is_leaf o) (o_refcount o) t (o_dirty o || dirty) (o_pincount o).
Definition with_pincount (o : object) (c : Z) : object :=
  MkObject (o_target o) (o_bsid o) (o_is_leaf o) (o_refcount o) (o_last_access o) (o_dirty o) c.
Definition with_refcount (o : object) (c : Z) : object :=
  MkObject (o_target o) (o_bsid o) (o_is_leaf o) c (o_last_access o) (o_dirty o) (o_pincount o).
Definition with_is_leaf (o : object) (l : bool) : object :=
  MkObject (o_target o) (o_bsid o) l (o_refcount o) (o_last_access o) (o_dirty o) (o_pincount o).
Definition with_written (o : object) (bsid : Z) : object :=
  MkObject (o_target o) bsid (o_is_leaf o) (o_refcount o) (o_last_access o) false (o_pincount o).

Definition get : M swap_space swap_space := λ s, Ok s s.
Definition modify (f : swap_space → swap_space) : M swap_space unit := λ s, Ok tt (f s).
Definition on_backstore {A} (m : M backing_store A) : M swap_space A := λ s,
  match m (backstore s) with
  | Ok a b => Ok a (set_backstore b s)
  | Throw e b => Throw e (set_backstore b s)
  | Halt f => Halt f
  end.

(** [objects[id]], after [assert(objects.count(id) > 0)] *)
Definition object_at (id : N) : M swap_space object := λ s,
  match objects s !! id with Some o => Ok o s | None => Halt assert_failed end.
Definition put_object (id : N) (o : object) : M swap_space unit :=
  modify (λ s, set_objects (<[ id := o ]> (objects s)) s).

(** [pointer::_serialize] and [_deserialize] assert that their targets exist; here a target that is gone is a fault of the store. *)
Definition pointers_live (n : node) (s : swap_space) : bool :=
  forallb (λ c, match objects s !! c with Some _ => true | None => false end) (links n).
Definition check_pointers (n : node) : M swap_space unit := λ s,
  if pointers_live n s then Ok tt s else Halt store_fault.

(** [StorageClient::EvictNode]: the text is copied into a buffer of fixed size. *)
Definition evict_node (id : N) (buffer : text) : M swap_space unit :=
  if (Z.of_nat (length buffer) <=? Z.of_nat EVICT_BUFFER)%Z
  then modify (λ s, set_sc (sc s ++ [EvictNode id buffer]) s)
  else halt store_fault.

(** [write_back], with the id of the object for the object. *)
Definition write_back (id : N) : M swap_space unit :=
  let! o := object_at id in
  match o_target o with
  | None => halt undefined_behaviour
  | Some n =>
      check_pointers n ;;
      let buffer := encode n in
      let o := with_is_leaf o (match links n with [] => true | _ => false end) in
      put_object id o ;;
      if o_dirty o then
        let! bsid := on_backstore bs_allocate in
        on_backstore (bs_write bsid buffer) ;;
        evict_node id buffer ;;
        (if (0 <? o_bsid o)%Z then on_backstore (bs_deallocate (o_bsid o)) else ret tt) ;;
        put_object id (with_written o bsid)
      else ret tt
  end.

(** The first object of the queue that is not pinned. *)
Fixpoint find_unpinned (os : gmap N object) (q : list (Z * N)) : option (Z * N) :=
  match q with
  | [] => None
  | e :: q' =>
      match os !! e.2 with
      | Some o => if (o_pincount o =? 0)%Z then Some e else find_unpinned os q'
      | None => find_unpinned os q'
      end
  end.

(** [lru_pqueue.erase(obj); write_back(obj); delete obj->target; ...] *)
Definition evict_object (id : N) : M swap_space unit :=
  let! o := object_at id in
  modify (λ s, set_lru (map_erase (lru_pqueue s) (o_last_access o)) s) ;;
  write_back id ;;
  let! o := object_at id in
  put_object id (with_target o None) ;;
  modify (λ s, set_current (wrap64 (current_in_memory_objects s - 1)) s).

(** The loop of [maybe_evict_something] and of [evict_all], down to [limit] objects. *)
Fixpoint evict_loop (fuel : nat) (limit : Z) : M swap_space unit :=
  let! s := get in
  if (limit <? current_in_memory_objects s)%Z then
    match find_unpinned (objects s) (lru_pqueue s) with
    | None => ret tt
    | Some e =>
        match fuel with
        | O => halt out_of_fuel
        | S fuel' => evict_object e.2 ;; evict_loop fuel' limit
        end
    end
  else ret tt.

Definition maybe_evict_something : M swap_space unit :=
  let! s := get in evict_loop (length (lru_pqueue s)) (max_in_memory_objects s).
Definition evict_all : M swap_space unit :=
  let! s := get in evict_loop (length (lru_pqueue s)) 0.

(** [assert(sz > 0)] *)
Definition set_cache_size (sz : Z) : M swap_space unit :=
  assert_ (0 <? sz)%Z ;;
  modify (λ s, MkSwapSpace (backstore s) (sc s) (next_id s) (next_access_time s) sz
                 (current_in_memory_objects s) (objects s) (lru_pqueue s)) ;;
  maybe_evict_something.

(** A text that is not that of an object makes the stream throw. *)
Definition load (tgt : N) : M swap_space unit :=
  let! o := object_at tgt in
  match o_target o with
  | Some _ => ret tt
  | None =>
      let! file := on_backstore (bs_read (o_bsid o)) in
      match decode file with
      | None => throw runtime_error
      | Some r =>
          check_pointers r ;;
          put_object tgt (with_target o (Some r)) ;;
          modify (λ s, set_current (wrap64 (current_in_memory_objects s + 1)) s)
      end
  end.

(** [pin::dopin], [pin::access] and [pin::unpin] *)
Definition dopin (target : N) : M swap_space unit :=
  if (target =? 0)%N then ret tt else
  let! o := object_at target in
  let! c := count64 (o_pincount o) in
  put_object target (with_pincount o c).

Definition access (tgt : N) (dirty : bool) : M swap_space unit :=
  let! o := object_at tgt in
  modify (λ s, set_lru (map_erase (lru_pqueue s) (o_last_access o)) s) ;;
  let! s := get in
  let now := next_access_time s in
  let! next := count64 now in
  modify (set_access_time next) ;;
  modify (λ s, set_lru (map_insert (lru_pqueue s) now tgt) s) ;;
  put_object tgt (with_access o now dirty) ;;
  load tgt ;;
  maybe_evict_something.

Definition unpin (target : N) : M swap_space unit :=
  if (target =? 0)%N then ret tt else
  let! o := object_at target in
  put_object target (with_pincount o (wrap64 (o_pincount o - 1))) ;;
  maybe_evict_something.

(** The constructor of [object], given the access time it takes. *)
Definition new_object (tgt : node) (now : Z) : object := MkObject (Some tgt) 0 false 1 now true 0.

(** The constructor of a [pointer] to a new object, with that of [object]: each of them
    takes an id from [next_id]. *)
Definition allocate (tgt : node) : M swap_space N :=
  let! s := get in
  let! id := count64 (next_id s) in
  modify (λ s, set_sc (sc s ++ [GetNodeId]) s) ;;
  let! next := count64 id in
  modify (set_next_id next) ;;
  let now := next_access_time s in
  let! time := count64 now in
  modify (set_access_time time) ;;
  let target := Z.to_N id in
  let! s' := get in
  assert_ (match objects s' !! target with Some _ => false | None => true end) ;;
  put_object target (new_object tgt now) ;;
  modify (λ s, set_lru (map_insert (lru_pqueue s) now target) s) ;;
  modify (λ s, set_current (wrap64 (current_in_memory_objects s + 1)) s) ;;
  maybe_evict_something ;;
  ret target.

(** [pointer(const pointer &)] *)
Definition copy_pointer (target : N) : M swap_space unit :=
  if (target =? 0)%N then ret tt else
  let! o := object_at target in
  let! c := count64 (o_refcount o) in
  put_object target (with_refcount o c).

(** [depoint], also run by the destructor of [pointer]: the last pointer to an object
    frees it, and with it the pointers it holds. *)
Fixpoint depoint (fuel : nat) (target : N) : M swap_space unit :=
  match fuel with
  | O => halt out_of_fuel
  | S fuel' =>
      if (target =? 0)%N then ret tt else
      let! o := object_at target in
      assert_ (0 <? o_refcount o)%Z ;;
      put_object target (with_refcount o (o_refcount o - 1)) ;;
      if (o_refcount o - 1 =? 0)%Z then
        match o_target o with
        | None => assert_ (0 <? o_bsid o)%Z ;; if o_is_leaf o then ret tt else load target
        | Some _ => ret tt
        end ;;
        let! o := object_at target in
        modify (λ s, set_objects (delete target (objects s)) s) ;;
        modify (λ s, set_lru (map_erase (lru_pqueue s) (o_last_access o)) s) ;;
        match o_target o with
        | None => ret tt
        | Some n => foldr (λ p k, depoint fuel' p ;; k) (ret tt) (links n)
        end ;;
        modify (λ s, set_current (wrap64 (current_in_memory_objects s - 1)) s) ;;
        if (0 <? o_bsid o)%Z then on_backstore (bs_deallocate (o_bsid o)) else ret tt
      else ret tt
  end.

Definition is_in_memory (target : N) : M swap_space bool :=
  let! o := object_at target in
  ret ((0 <? target)%N && match o_target o with Some _ => true | None => false end).
Definition is_dirty (target : N) : M swap_space bool :=
  let! o := object_at target in
  ret ((0 <? target)%N && match o_target o with Some _ => true | None => false end && o_dirty o).

(** Reading and writing through the pointer [operator->] returned.  [typed] stands for the C++ types of the fields: no value
    outside them is ever stored. *)
Definition deref (target : N) : M swap_space node := λ s,
  match objects s !! target with
  | Some o => match o_target o with Some n => Ok n s | None => Halt undefined_behaviour end
  | None => Halt undefined_behaviour
  end.
Definition update (target : N) (n : node) : M swap_space unit :=
  let! o := object_at target in
  match o_target o with
  | Some _ => if typed n then put_object target (with_target o (Some n)) else halt store_fault
  | None => halt undefined_behaviour
  end.

#[global] Instance swap_space_ops : StoreOps swap_space node := {|
  st_enter p d := dopin p ;; access p d;
  st_leave p := unpin p;
  st_deref p := deref p;
  st_update p n := update p n;
  st_allocate n := if typed n then allocate n else halt store_fault;
  st_release p := λ s, depoint (S (size (objects s))) p s;
  st_is_dirty p := is_dirty p;
  st_is_in_memory p := is_in_memory p;
|}.
End swap_space.
Arguments object : clear implicits.
Arguments swap_space : clear implicits.
