(* ===== verification/SwapSpaceProof.v ===== *)
(** * The swap space is a store

    The invariant of the swap space, and the proof that its operations satisfy the
    laws of [Store]: swapping objects out and in never changes what the tree sees.
    In particular eviction terminates, no assertion of the swap space or of the
    backing store fails, and a pinned object is never evicted. *)
From Stdlib Require Import ZArith Lia Ascii String.
From stdpp Require Import prelude gmap.
From S2P Require Import Prelude StdMap NodeStore Serialize BackingStore SwapSpace.

#[local] Open Scope cpp_scope.

Section proofs.
Context {node : Type} `{Links node} `{Codec node}.
Implicit Types (s : swap_space node) (o : object node) (os : gmap N (object node)).

(** What an object holds, in memory or not. *)
Definition content (b : backing_store) (o : object node) : option node :=
  match o_target o with
  | Some n => Some n
  | None => stored_at b (o_bsid o) ≫= decode
  end.

Definition in_memory (o : object node) : Prop := is_Some (o_target o).

(** The copy in the backing store is up to date. *)
Definition saved (b : backing_store) (o : object node) (n : node) : Prop :=
  (0 < o_bsid o)%Z ∧ (stored_at b (o_bsid o) ≫= decode) = Some n.

(** An object with [r] pointers to it. *)
Record object_ok (r : Z) (b : backing_store) (o : object node) : Prop := {
  ok_refcount : o_refcount o = r;
  ok_pins : (0 <= o_pincount o <= UINT64_MAX)%Z;
  ok_bsid : (0 <= o_bsid o < bs_nextid b)%Z;
  ok_file : (0 < o_bsid o)%Z → is_Some (stored_at b (o_bsid o));
  ok_present n : o_target o = Some n → typed n = true ∧ (o_dirty o = false → saved b o n);
  ok_absent : o_target o = None →
    o_dirty o = false ∧ o_pincount o = 0%Z ∧ ∃ n, saved b o n ∧ typed n = true ∧ (o_is_leaf o = true ↔ links n = []);
}.

(** The queue lists the objects in memory by their last access. *)
Definition lru_ok (os : gmap N (object node)) (l : list (Z * N)) : Prop :=
  sorted l ∧ ∀ t i, (t, i) ∈ l ↔ ∃ o, os !! i = Some o ∧ in_memory o ∧ o_last_access o = t.

(** No two objects share a file or an access time. *)
Definition apart (o1 o2 : object node) : Prop :=
  o_last_access o1 ≠ o_last_access o2 ∧ ((0 < o_bsid o1)%Z → o_bsid o1 ≠ o_bsid o2).

Definition count_fits (s : swap_space node) : Prop := (0 <= current_in_memory_objects s <= UINT64_MAX)%Z.

(** The cache takes all that can be counted: everything is in memory, and nothing has been written. *)
Record resident (s : swap_space node) : Prop := {
  rs_max : max_in_memory_objects s = UINT64_MAX;
  rs_count : current_in_memory_objects s = Z.of_nat (length (lru_pqueue s));
  rs_ids : (Z.of_nat (length (lru_pqueue s)) < next_id s <= UINT64_MAX)%Z;
  rs_object i o : objects s !! i = Some o → in_memory o ∧ o_dirty o = true;
}.

(** Objects are read back as they were written, or none is ever written. *)
Definition swap_ok (s : swap_space node) : Prop := CodecOk node ∨ resident s.

(** [rc]: how many pointers there are to each object; one, when the swap space is used as a store. *)
Context (rc : N → Z).
Record ss_inv_at (s : swap_space node) : Prop := {
  inv_bs : bs_inv (backstore s);
  inv_next : (1 <= next_id s)%Z;
  inv_id i o : objects s !! i = Some o → (0 < Z.of_N i < next_id s)%Z;
  inv_object i o : objects s !! i = Some o → object_ok (rc i) (backstore s) o;
  inv_time i o : objects s !! i = Some o → (o_last_access o < next_access_time s)%Z;
  inv_apart i j oi oj : objects s !! i = Some oi → objects s !! j = Some oj → i ≠ j → apart oi oj;
  inv_lru : lru_ok (objects s) (lru_pqueue s);
  inv_swap : swap_ok s;
}.

#[local] Notation ss_inv := ss_inv_at.

Definition ss_view (s : swap_space node) : gmap N node := omap (content (backstore s)) (objects s).
Definition ss_pins (s : swap_space node) (i : N) : nat :=
  match objects s !! i with Some o => Z.to_nat (o_pincount o) | None => 0 end.
Definition ss_dirty (s : swap_space node) (i : N) : Prop :=
  ∃ o, objects s !! i = Some o ∧ in_memory o ∧ o_dirty o = true.

(** ** Lemmas on the parts of the invariant *)
Lemma length_map_erase (l : list (Z * N)) t i :
  sorted l → (t, i) ∈ l → length l = S (length (map_erase l t)).
Proof.
  induction l as [|e l IH]; [by intros _ ?%not_elem_of_nil|]. rewrite sorted_cons, elem_of_cons.
  intros [He Hl] [<-|Hin]; cbn [map_erase].
  - cbn [fst]. by rewrite !klt_irrefl.
  - specialize (He _ Hin). cbn [fst] in He. rewrite He. cbn [length]. by rewrite IH.
Qed.

Lemma content_ok r b o : object_ok r b o → is_Some (content b o).
Proof.
  intros Ho. unfold content. destruct (o_target o) eqn:E; [done|].
  by destruct (ok_absent _ _ _ Ho E) as (_ & _ & n & [_ ->] & _).
Qed.

Lemma content_typed r b o n : object_ok r b o → content b o = Some n → typed n = true.
Proof.
  intros Ho Hc. unfold content in Hc. destruct (o_target o) as [n'|] eqn:E.
  - injection Hc as ->. by apply (ok_present _ _ _ Ho).
  - destruct (ok_absent _ _ _ Ho E) as (_ & _ & n' & [_ Hs] & Hty & _). congruence.
Qed.

Lemma view_lookup s i : ss_view s !! i = objects s !! i ≫= content (backstore s).
Proof. apply lookup_omap. Qed.

Lemma view_object s i : ss_inv s → is_Some (ss_view s !! i) ↔ is_Some (objects s !! i).
Proof.
  intros Hs. rewrite view_lookup. split.
  - intros [n Hn]. destruct (objects s !! i); done.
  - intros [o Ho]. rewrite Ho. cbn. by eapply content_ok, inv_object.
Qed.

Lemma lru_put os l i o o' :
  lru_ok os l → os !! i = Some o → (in_memory o' ↔ in_memory o) → o_last_access o' = o_last_access o →
  lru_ok (<[i := o']> os) l.
Proof.
  intros [Hs Hl] Ho Hm Ht. split; [done|]. intros t j. rewrite Hl. destruct (decide (i = j)) as [<-|Hne].
  - rewrite lookup_insert_eq, Ho. split; intros (o0 & [= <-] & ? & <-); eexists; split_and!; eauto; by apply Hm.
  - by rewrite lookup_insert_ne by done.
Qed.

Lemma lru_erase os l i o :
  lru_ok os l → os !! i = Some o →
  (∀ j oj, os !! j = Some oj → i ≠ j → o_last_access oj ≠ o_last_access o) →
  lru_ok (delete i os) (map_erase l (o_last_access o)).
Proof.
  intros [Hs Hl] Ho Hne. split; [by apply sorted_map_erase|]. intros t j.
  rewrite elem_of_map_erase, Hl by done. cbn. split.
  - intros [(oj & Hj & Hm & <-) Hd]. exists oj. split_and!; [|done..].
    rewrite lookup_delete_ne; [done|]. intros <-. congruence.
  - intros (oj & [Hij Hj]%lookup_delete_Some & Hm & <-). split; [by exists oj|]. by eapply Hne.
Qed.

Lemma lru_out os l i o' : lru_ok (delete i os) l → ¬ in_memory o' → lru_ok (<[i := o']> os) l.
Proof.
  intros [Hs Hl] Hm. split; [done|]. intros t j. rewrite Hl. destruct (decide (i = j)) as [<-|Hne].
  - rewrite lookup_insert_eq, lookup_delete_eq. split; [by intros (? & ? & _)|]. by intros (? & [= <-] & ? & _).
  - by rewrite lookup_insert_ne, lookup_delete_ne by done.
Qed.

Lemma lru_in os l i o' :
  lru_ok (delete i os) l → in_memory o' →
  (∀ j oj, os !! j = Some oj → i ≠ j → o_last_access oj ≠ o_last_access o') →
  lru_ok (<[i := o']> os) (map_insert l (o_last_access o') i).
Proof.
  intros [Hs Hl] Hm Hne.
  assert (∀ w, (o_last_access o', w) ∉ l) as Hfresh.
  { intros w (ow & [? Hw]%lookup_delete_Some & _ & Ht)%Hl. by eapply Hne. }
  rewrite map_insert_assign by done. split; [by apply sorted_map_assign|]. intros t j.
  rewrite elem_of_map_assign, Hl by done. cbn. destruct (decide (i = j)) as [<-|Hij].
  - rewrite lookup_insert_eq, lookup_delete_eq. split.
    + intros [[= ->]|[(? & ? & _) _]]; [by exists o'|done].
    + intros (o0 & [= <-] & _ & <-). by left.
  - rewrite lookup_insert_ne, lookup_delete_ne by done. split.
    + intros [[= ? ?]|[? _]]; [congruence|done].
    + intros Hj. right. split; [done|]. destruct Hj as (oj & Hj & _ & <-). by eapply Hne.
Qed.

(** Counters grow, and the files of the objects other than [i] are untouched. *)
Record kept (i : N) (s s' : swap_space node) : Prop := {
  kp_bs : bs_inv (backstore s');
  kp_nextid : (bs_nextid (backstore s) <= bs_nextid (backstore s'))%Z;
  kp_next : (next_id s <= next_id s')%Z;
  kp_time : (next_access_time s <= next_access_time s')%Z;
  kp_files j oj : objects s !! j = Some oj → i ≠ j → (0 < o_bsid oj)%Z →
    stored_at (backstore s') (o_bsid oj) = stored_at (backstore s) (o_bsid oj);
  kp_max : max_in_memory_objects s' = max_in_memory_objects s;
}.

Lemma kept_same i s s' :
  ss_inv s → backstore s' = backstore s → (next_id s <= next_id s')%Z →
  (next_access_time s <= next_access_time s')%Z →
  max_in_memory_objects s' = max_in_memory_objects s → kept i s s'.
Proof. intros Hs Hb. split; rewrite ?Hb; [apply Hs|lia|done..]. Qed.

Lemma wrap64_fits z : (0 <= wrap64 z <= UINT64_MAX)%Z.
Proof. unfold wrap64, UINT64_MAX. pose proof (Z.mod_pos_bound z (2 ^ 64)). lia. Qed.

Lemma resident_fits s : resident s → count_fits s.
Proof. intros [_ Hc Hi _]. unfold count_fits. lia. Qed.

(** A change that takes [added - removed] objects into memory. *)
Lemma resident_put s s' i o' (added : Z) :
  resident s → max_in_memory_objects s' = max_in_memory_objects s →
  current_in_memory_objects s' = wrap64 (current_in_memory_objects s + added) →
  Z.of_nat (length (lru_pqueue s')) = (Z.of_nat (length (lru_pqueue s)) + added)%Z →
  (added <= next_id s' - next_id s)%Z → (next_id s' <= UINT64_MAX)%Z →
  (objects s' = <[i := o']> (objects s) ∧ in_memory o' ∧ o_dirty o' = true ∨ objects s' = delete i (objects s)) → resident s'.
Proof.
  intros [Hmax Hc Hi Ho] Hm Hc' Hl Hadd Hn Hos. split; [congruence| |lia|].
  - rewrite Hc', Hc, <- Hl. apply Z.mod_small. unfold UINT64_MAX in *. lia.
  - intros j oj. destruct Hos as [(-> & ? & ?)| ->].
    + intros [[<- <-]|[_ Hj]]%lookup_insert_Some; [done|eauto].
    + intros [_ Hj]%lookup_delete_Some. eauto.
Qed.

Lemma length_map_insert (l : list (Z * N)) t i : sorted l → (∀ w, (t, w) ∉ l) → length (map_insert l t i) = S (length l).
Proof.
  induction l as [|e l IH]; [done|]. rewrite sorted_cons. intros [He Hl] Hw. cbn [map_insert].
  destruct (klt e.1 t) eqn:E1; [cbn [length]; rewrite IH; [done|done|intros w Hin; apply (Hw w), elem_of_cons; by right]|].
  destruct (klt t e.1) eqn:E2; [done|]. destruct e as [t' w]. cbn in *. destruct (Hw w).
  apply Z.ltb_ge in E1, E2. replace t with t' by lia. by left.
Qed.

Lemma kept_object i s s' j oj :
  ss_inv s → kept i s s' → objects s !! j = Some oj → i ≠ j →
  object_ok (rc j) (backstore s') oj ∧ content (backstore s') oj = content (backstore s) oj.
Proof.
  intros Hs [_ Hid _ _ Hf _] Hj Hne. specialize (Hf j oj Hj Hne). destruct (inv_object s Hs j oj Hj) as [Hr Hp Hb Hfile Hin Hout].
  assert (∀ n, saved (backstore s) oj n → saved (backstore s') oj n) as Hsave.
  { intros n [? ?]. split; [done|]. by rewrite Hf. }
  split.
  - split; [done|done|lia| | |].
    + intros Hpos. rewrite Hf; auto.
    + intros n Hn. destruct (Hin n Hn). split; auto.
    + intros Hn. destruct (Hout Hn) as (? & ? & n & ? & ? & ?). split_and!; eauto.
  - unfold content. destruct (o_target oj) eqn:E; [done|].
    destruct (Hout eq_refl) as (_ & _ & n & [Hpos _] & _). by rewrite Hf.
Qed.

Lemma inv_put s s' i o' :
  ss_inv s → kept i s s' → objects s' = <[i := o']> (objects s) →
  (0 < Z.of_N i < next_id s')%Z → object_ok (rc i) (backstore s') o' →
  (o_last_access o' < next_access_time s')%Z →
  (∀ j oj, objects s !! j = Some oj → i ≠ j → apart o' oj ∧ apart oj o') →
  lru_ok (objects s') (lru_pqueue s') → swap_ok s' → ss_inv s'.
Proof.
  intros Hs Hk Hos Hi Ho' Ht Hap Hl Hsw. pose proof Hk as [Hb _ Hn Htime _ _].
  split; [done|pose proof (inv_next s Hs); lia|..|done|done].
  all: rewrite Hos.
  - intros j oj [[<- <-]|[Hne Hj]]%lookup_insert_Some; [done|]. pose proof (inv_id s Hs j oj Hj). lia.
  - intros j oj [[<- <-]|[Hne Hj]]%lookup_insert_Some; [done|]. by eapply kept_object.
  - intros j oj [[<- <-]|[Hne Hj]]%lookup_insert_Some; [done|]. pose proof (inv_time s Hs j oj Hj). lia.
  - intros j k oj ok [[<- <-]|[Hj1 Hj]]%lookup_insert_Some [[<- <-]|[Hk1 Hk2]]%lookup_insert_Some Hne;
      [done|by apply (Hap k)|by apply (Hap j)|by eapply (inv_apart s Hs)].
Qed.

Lemma view_put s s' i o' n :
  ss_inv s → kept i s s' → objects s' = <[i := o']> (objects s) →
  content (backstore s') o' = Some n → ss_view s' = <[i := n]> (ss_view s).
Proof.
  intros Hs Hk Hos Hn. apply map_eq. intros j. rewrite view_lookup, Hos. destruct (decide (i = j)) as [<-|Hne].
  - by rewrite !lookup_insert_eq.
  - rewrite !lookup_insert_ne, view_lookup by done. destruct (objects s !! j) as [oj|] eqn:Hj; [|done]. cbn.
    by eapply kept_object.
Qed.

Lemma inv_delete s s' i o :
  ss_inv s → kept i s s' → objects s !! i = Some o → objects s' = delete i (objects s) →
  lru_pqueue s' = map_erase (lru_pqueue s) (o_last_access o) → swap_ok s' → ss_inv s'.
Proof.
  intros Hs Hk Ho Hos Hl Hsw. pose proof Hk as [Hb _ Hn Htime _ _].
  split; [done|pose proof (inv_next s Hs); lia|..|done]; rewrite Hos.
  - intros j oj [Hne Hj]%lookup_delete_Some. pose proof (inv_id s Hs j oj Hj). lia.
  - intros j oj [Hne Hj]%lookup_delete_Some. by eapply kept_object.
  - intros j oj [Hne Hj]%lookup_delete_Some. pose proof (inv_time s Hs j oj Hj). lia.
  - intros j k oj ok [_ Hj]%lookup_delete_Some [_ Hk2]%lookup_delete_Some Hne. by eapply (inv_apart s Hs).
  - rewrite Hl. apply lru_erase; [apply Hs|done|]. intros j oj Hj Hne. by eapply (inv_apart s Hs).
Qed.

Lemma view_delete s s' i :
  ss_inv s → kept i s s' → objects s' = delete i (objects s) → ss_view s' = delete i (ss_view s).
Proof.
  intros Hs Hk Hos. apply map_eq. intros j. rewrite view_lookup, Hos. destruct (decide (i = j)) as [<-|Hne].
  - by rewrite !lookup_delete_eq.
  - rewrite !lookup_delete_ne, view_lookup by done. destruct (objects s !! j) as [oj|] eqn:Hj; [|done]. cbn.
    by eapply kept_object.
Qed.

Lemma view_same s i o n :
  objects s !! i = Some o → content (backstore s) o = Some n → <[i := n]> (ss_view s) = ss_view s.
Proof. intros Ho Hn. apply insert_id. by rewrite view_lookup, Ho. Qed.

(** ** Eviction *)
Lemma find_unpinned_spec os q e :
  find_unpinned os q = Some e → ∃ l1 l2 o, q = l1 ++ e :: l2 ∧ os !! e.2 = Some o ∧ o_pincount o = 0%Z ∧
    ∀ e' o', e' ∈ l1 → os !! e'.2 = Some o' → o_pincount o' ≠ 0%Z.
Proof.
  induction q as [|x q IH]; [done|]. cbn. destruct (os !! x.2) as [o|] eqn:Ho.
  - destruct (Z.eqb_spec (o_pincount o) 0) as [Hz|Hz].
    + intros [= <-]. exists [], q, o. split_and!; [done..|]. intros e' o' Hin. by apply not_elem_of_nil in Hin.
    + intros (l1 & l2 & o2 & -> & ? & ? & Hl)%IH. exists (x :: l1), l2, o2. split_and!; [done..|].
      intros e' o' [->|Hin]%elem_of_cons; [congruence|eauto].
  - intros (l1 & l2 & o2 & -> & ? & ? & Hl)%IH. exists (x :: l1), l2, o2. split_and!; [done..|].
    intros e' o' [->|Hin]%elem_of_cons; [congruence|eauto].
Qed.

(** What swapping may do: objects that are not pinned lose their dirty mark. *)
Record swaps (s s' : swap_space node) : Prop := {
  ws_inv : ss_inv s';
  ws_view : ss_view s' = ss_view s;
  ws_pins j : ss_pins s' j = ss_pins s j;
  ws_keep j : 0 < ss_pins s j → ss_dirty s j → ss_dirty s' j;
  ws_dirty j : ss_dirty s' j → ss_dirty s j;
}.

Lemma swaps_refl s : ss_inv s → swaps s s.
Proof. by split. Qed.

Lemma swaps_trans s1 s2 s3 : swaps s1 s2 → swaps s2 s3 → swaps s1 s3.
Proof.
  intros [? Hv1 Hp1 Hk1 Hd1] [? Hv2 Hp2 Hk2 Hd2]. split; auto; [congruence|congruence|].
  intros j Hj Hd. apply Hk2; [by rewrite Hp1|auto].
Qed.

Section steps.
Context (tol : fault → Prop) {A : Type} (Q : A → swap_space node → Prop) (E : exn → swap_space node → Prop).

Lemma wp_object_at i o s (k : object node → M (swap_space node) A) :
  objects s !! i = Some o → wp tol (k o) s Q E → wp tol (bind (object_at i) k) s Q E.
Proof. intros Ho. unfold wp, bind, object_at. by rewrite Ho. Qed.

Lemma wp_modify f s (k : unit → M (swap_space node) A) :
  wp tol (k tt) (f s) Q E → wp tol (bind (modify f) k) s Q E.
Proof. done. Qed.

Lemma wp_put_object i o s (k : unit → M (swap_space node) A) :
  wp tol (k tt) (set_objects (<[i := o]> (objects s)) s) Q E → wp tol (bind (put_object i o) k) s Q E.
Proof. done. Qed.

Lemma wp_check_pointers n s (k : unit → M (swap_space node) A) :
  tol store_fault → wp tol (k tt) s Q E → wp tol (bind (check_pointers n) k) s Q E.
Proof. intros Htol. unfold wp, bind, check_pointers. by destruct (pointers_live n s). Qed.

Lemma wp_on_backstore {B} (m : M backing_store B) s (k : B → M (swap_space node) A) :
  wp tol m (backstore s) (λ a b, wp tol (k a) (set_backstore b s) Q E) no_exn →
  wp tol (bind (on_backstore m) k) s Q E.
Proof. unfold wp, bind, on_backstore. by destruct (m (backstore s)). Qed.

Lemma wp_count64 z s (k : Z → M (swap_space node) A) :
  tol store_fault → ((z < UINT64_MAX)%Z → wp tol (k (z + 1)%Z) s Q E) → wp tol (bind (count64 z) k) s Q E.
Proof. intros Htol Hk. unfold wp, bind, count64. destruct (Z.ltb_spec z UINT64_MAX); [by apply Hk|done]. Qed.
End steps.

(** The object left by an eviction that wrote the file [bsid]. *)
Definition evicted (o : object node) (n : node) (bsid : Z) : object node :=
  with_target (with_written (with_is_leaf o (match links n with [] => true | _ => false end)) bsid) None.

(** Writing back the text of a dirty object: a new file, the request, the old file gone. *)
Lemma wp_save_text tol (i : N) o n s l os (k : Z → M (swap_space node) unit) Q E :
  CodecOk node → tol store_fault → ss_inv s → objects s !! i = Some o → typed n = true →
  (∀ b q bsid, bs_inv b → (bs_nextid (backstore s) <= bs_nextid b)%Z → (0 < bsid < bs_nextid b)%Z →
     (stored_at b bsid ≫= decode) = Some n →
     (∀ j oj, objects s !! j = Some oj → i ≠ j →
        o_bsid oj ≠ bsid ∧ ((0 < o_bsid oj)%Z → stored_at b (o_bsid oj) = stored_at (backstore s) (o_bsid oj))) →
     wp tol (k bsid) (set_sc q (set_backstore b (set_objects os (set_lru l s)))) Q E) →
  wp tol (let! bsid := on_backstore bs_allocate in
          on_backstore (bs_write bsid (encode n)) ;;
          evict_node i (encode n) ;;
          (if (0 <? o_bsid o)%Z then on_backstore (bs_deallocate (o_bsid o)) else ret tt) ;;
          k bsid) (set_objects os (set_lru l s)) Q E.
Proof.
  intros Hcodec Htol Hs Ho Hty Hk. pose proof (inv_bs s Hs) as Hbs.
  pose proof (inv_object s Hs i o Ho) as Hok.
  apply wp_on_backstore, bs_allocate_spec; [done|apply Hs|]. cbn [backstore set_objects set_lru].
  intros b1 Hb1 Hid1 Hnew1 Hold1. apply wp_on_backstore, bs_write_spec; [done|unfold bs_inv in *; lia|].
  cbn [backstore set_backstore]. intros b2 Hid2 Hnew2 Hold2. apply wp_bind. unfold evict_node.
  destruct (Z.leb_spec (Z.of_nat (length (encode n))) (Z.of_nat EVICT_BUFFER)) as [Hlen|]; [|by apply wp_halt].
  unfold bs_inv in Hbs. pose proof (codec_ok n Hty Hlen) as Hdec.
  assert (∀ b3, bs_nextid b3 = bs_nextid b2 →
    (∀ id', (0 <= id')%Z → (0 < o_bsid o → id' ≠ o_bsid o)%Z → stored_at b3 id' = stored_at b2 id') →
    wp tol (k (bs_nextid (backstore s))) (set_sc (sc s ++ [EvictNode i (encode n)])
      (set_backstore b3 (set_objects os (set_lru l s)))) Q E) as Hend.
  { intros b3 Hid3 Hold3. pose proof (ok_bsid _ _ _ Hok). apply Hk; [unfold bs_inv; lia|lia|lia| |].
    { rewrite Hold3 by lia. by rewrite Hnew2. }
    intros j oj Hj Hne. pose proof (ok_bsid _ _ _ (inv_object s Hs j oj Hj)). split; [lia|]. intros Hpos.
    rewrite Hold3, Hold2, Hold1; [done|lia..|].
    intros Hpos' Heq. destruct (inv_apart s Hs j i oj o Hj Ho) as [_ Hd]; [congruence|]. by apply Hd. }
  unfold modify. cbn. destruct (Z.ltb_spec 0 (o_bsid o)) as [Hpos|Hz].
  - destruct (ok_file _ _ _ Hok Hpos) as [old Hfile]. pose proof (ok_bsid _ _ _ Hok).
    apply wp_on_backstore. eapply (bs_deallocate_spec _ _ _ old); [|lia|].
    + cbn. rewrite Hold2, Hold1 by lia. done.
    + intros b3 Hid3 Hnone Hold3. apply (Hend b3); [done|]. intros id' ? Hne. apply Hold3; auto.
  - apply wp_bind, wp_ret. apply (Hend b2); [done|]. done.
Qed.

Lemma written_clean o b :
  o_dirty o = false → with_written (with_is_leaf o b) (o_bsid o) = with_is_leaf o b.
Proof. destruct o; cbn. by intros ->. Qed.

(** Writing back keeps the other objects' files and saves this one. *)
Lemma wp_write_back tol i o n s l Q E :
  CodecOk node → tol store_fault → ss_inv s → objects s !! i = Some o → o_target o = Some n →
  (∀ s' bsid, kept i s s' → lru_pqueue s' = l → current_in_memory_objects s' = current_in_memory_objects s →
     objects s' = <[i := with_written (with_is_leaf o (match links n with [] => true | _ => false end)) bsid]> (objects s) →
     saved (backstore s') (evicted o n bsid) n → (bsid < bs_nextid (backstore s'))%Z →
     (∀ j oj, objects s !! j = Some oj → i ≠ j → o_bsid oj ≠ bsid) → Q tt s') →
  wp tol (write_back i) (set_lru l s) Q E.
Proof.
  intros Hcodec Htol Hs Ho Hn HQ. unfold write_back. apply (wp_object_at _ _ _ i o); [done|]. rewrite Hn.
  apply wp_check_pointers; [done|]. apply wp_put_object. cbn [o_dirty with_is_leaf].
  pose proof (inv_object s Hs i o Ho) as Hok. destruct (ok_present _ _ _ Hok n Hn) as [Hty Hsaved].
  destruct (o_dirty o) eqn:Hd.
  - eapply (wp_save_text tol i o n s l); [done..|].
    intros b q bsid Hb Hid Hbsid Hsv Hothers.
    unfold put_object, modify, wp. apply (HQ _ bsid); cbn; [split; cbn; [done|done|lia|lia| |done]|done|done| |split; [cbn; lia|done]|lia|].
    + intros j oj Hj Hne Hpos. by apply (Hothers j oj).
    + by rewrite insert_insert_eq.
    + intros j oj Hj Hne. by apply (Hothers j oj).
  - apply wp_ret. apply (HQ _ (o_bsid o)); cbn; [apply kept_same; cbn; [done|done|lia|lia|done]|done|done| |by apply Hsaved|apply Hok|].
    + by rewrite written_clean.
    + intros j oj Hj Hne Heq. destruct (Hsaved eq_refl) as [Hpos _].
      destruct (inv_apart s Hs i j o oj Ho Hj Hne) as [_ Hd']. by apply Hd'.
Qed.

Lemma dirty_put s s' i o' j :
  objects s' = <[i := o']> (objects s) → i ≠ j → ss_dirty s' j ↔ ss_dirty s j.
Proof. intros Hos Hne. unfold ss_dirty. by rewrite Hos, lookup_insert_ne. Qed.

Lemma pins_put s s' i o' j :
  objects s' = <[i := o']> (objects s) →
  ss_pins s' j = if decide (i = j) then Z.to_nat (o_pincount o') else ss_pins s j.
Proof.
  intros Hos. unfold ss_pins. rewrite Hos. destruct (decide (i = j)) as [<-|Hne].
  - by rewrite lookup_insert_eq.
  - by rewrite lookup_insert_ne.
Qed.

Lemma pins_lookup s i o : objects s !! i = Some o → ss_pins s i = Z.to_nat (o_pincount o).
Proof. unfold ss_pins. by intros ->. Qed.

Lemma evicted_ok r b0 b o n bsid :
  object_ok r b0 o → o_pincount o = 0%Z → typed n = true → saved b (evicted o n bsid) n → (bsid < bs_nextid b)%Z →
  object_ok r b (evicted o n bsid).
Proof.
  intros [Hr Hp _ _ _ _] Hpin Hty [Hpos Hsv] Hid. cbn in *. split; cbn; [done|done|lia| |done|].
  - intros _. by destruct (stored_at b bsid).
  - intros _. split_and!; [done|done|]. exists n. split_and!; [done|done|]. by destruct (links n).
Qed.

Lemma evicted_swaps s s' i o n bsid :
  CodecOk node → ss_inv s → objects s !! i = Some o → o_target o = Some n → o_pincount o = 0%Z →
  kept i s s' → objects s' = <[i := evicted o n bsid]> (objects s) →
  lru_pqueue s' = map_erase (lru_pqueue s) (o_last_access o) →
  saved (backstore s') (evicted o n bsid) n → (bsid < bs_nextid (backstore s'))%Z →
  (∀ j oj, objects s !! j = Some oj → i ≠ j → o_bsid oj ≠ bsid) →
  swaps s s' ∧ ¬ ss_dirty s' i.
Proof.
  intros Hcodec Hs Ho Hn Hpin Hk Hos Hl Hsv Hid Hap.
  assert (∀ j oj, objects s !! j = Some oj → i ≠ j → o_last_access oj ≠ o_last_access o) as Ht.
  { intros j oj Hj Hne. by apply (inv_apart s Hs j i oj o Hj Ho). }
  assert (¬ ss_dirty s' i) as Hclean.
  { intros (o0 & Ho0 & [m Hm] & _). rewrite Hos, lookup_insert_eq in Ho0. injection Ho0 as <-. done. }
  split; [|done]. split.
  - eapply (inv_put s s' i); [done..| | | | | |by left].
    + pose proof (inv_id s Hs i o Ho). pose proof (kp_next _ _ _ Hk). lia.
    + eapply evicted_ok; [by eapply (inv_object s Hs)|done| |done|done].
      by apply (ok_present _ _ _ (inv_object s Hs i o Ho)).
    + cbn. pose proof (inv_time s Hs i o Ho). pose proof (kp_time _ _ _ Hk). lia.
    + intros j oj Hj Hne. split; split; cbn; [|intros _| |intros _].
      * intros Heq. by apply (Ht j oj).
      * intros Heq. by apply (Hap j oj).
      * by apply (Ht j oj).
      * by apply (Hap j oj).
    + rewrite Hos, Hl. apply lru_out; [|by intros [? ?]]. apply lru_erase; [apply Hs|done..].
  - rewrite (view_put s s' i (evicted o n bsid) n); [|done..|apply Hsv]. eapply view_same; [done|]. unfold content. by rewrite Hn.
  - intros j. erewrite pins_put by done. cbn. destruct (decide (i = j)) as [<-|]; [|done]. by erewrite pins_lookup.
  - intros j Hj Hd. destruct (decide (i = j)) as [<-|]; [|by eapply dirty_put].
    erewrite pins_lookup in Hj by done. lia.
  - intros j Hd. destruct (decide (i = j)) as [<-|]; [done|]. by apply (dirty_put s s' i (evicted o n bsid) j).
Qed.

Lemma wp_evict_object tol i o s Q E :
  CodecOk node → tol store_fault → ss_inv s → objects s !! i = Some o → in_memory o → o_pincount o = 0%Z →
  (∀ s', swaps s s' → ¬ ss_dirty s' i →
     lru_pqueue s' = map_erase (lru_pqueue s) (o_last_access o) →
     current_in_memory_objects s' = wrap64 (current_in_memory_objects s - 1) → Q tt s') →
  wp tol (evict_object i) s Q E.
Proof.
  intros Hcodec Htol Hs Ho [n Hn] Hpin HQ. unfold evict_object. apply (wp_object_at _ _ _ i o); [done|].
  apply wp_modify, wp_bind. eapply wp_write_back; [done..|].
  intros s1 bsid Hk Hl Hcur Hos Hsv Hid Hap.
  eapply wp_object_at; [by rewrite Hos, lookup_insert_eq|].
  apply wp_put_object. unfold modify, wp. set (s2 := set_current _ _).
  assert (objects s2 = <[i := evicted o n bsid]> (objects s)) as Hos2.
  { subst s2. cbn. by rewrite Hos, insert_insert_eq. }
  assert (kept i s s2) as Hk2 by (destruct Hk; by split).
  destruct (evicted_swaps s s2 i o n bsid) as [Hsw Hcl]; [done..|]. apply HQ; [done..|]. cbn. by rewrite Hcur.
Qed.

(** [current_in_memory_objects] is the number of objects in memory. *)
Definition counted (s : swap_space node) : Prop :=
  current_in_memory_objects s = Z.of_nat (length (lru_pqueue s)) ∧ (Z.of_nat (length (lru_pqueue s)) <= UINT64_MAX)%Z.

(** How many objects in memory the count misses. *)
Definition uncounted (s : swap_space node) : Z := (Z.of_nat (length (lru_pqueue s)) - current_in_memory_objects s)%Z.

(** Nothing is left to evict. *)
Definition settled (limit : Z) (s : swap_space node) : Prop :=
  (current_in_memory_objects s <= limit)%Z ∨
  ∀ i o, objects s !! i = Some o → in_memory o → o_pincount o ≠ 0%Z.

Record swept (limit : Z) (s s' : swap_space node) : Prop := {
  sp_swaps : swaps s s';
  sp_uncounted : (0 <= limit)%Z → count_fits s → count_fits s' ∧ uncounted s' = uncounted s;
  sp_settled : settled limit s';
}.

Lemma find_unpinned_None os q t i o :
  find_unpinned os q = None → (t, i) ∈ q → os !! i = Some o → o_pincount o ≠ 0%Z.
Proof.
  induction q as [|x q IH]; [by intros _ ?%not_elem_of_nil|]. cbn. intros Hn [<-|Hin]%elem_of_cons Ho; cbn in *.
  - rewrite Ho in Hn. by destruct (Z.eqb_spec (o_pincount o) 0).
  - apply IH; [|done..]. destruct (os !! x.2) as [o'|]; [|done]. by destruct (o_pincount o' =? 0)%Z.
Qed.

Lemma swept_refl limit s :
  ss_inv s → (current_in_memory_objects s <= limit)%Z ∨ find_unpinned (objects s) (lru_pqueue s) = None → swept limit s s.
Proof.
  intros Hs Hend. split; [by apply swaps_refl|done|]. destruct Hend as [?|Hnone]; [by left|right].
  intros i o Ho Hm. eapply (find_unpinned_None _ _ (o_last_access o) i); [done| |done].
  destruct (inv_lru s Hs) as [_ Hl]. apply Hl. by exists o.
Qed.

(** The eviction loop ends: every round takes one object off the queue. *)
Lemma wp_evict_loop tol limit fuel s :
  CodecOk node → tol store_fault → ss_inv s → length (lru_pqueue s) ≤ fuel →
  wp tol (evict_loop fuel limit) s (λ _ s', swept limit s s') no_exn.
Proof.
  intros Hcodec Htol. revert s. induction fuel as [|fuel IH]; intros s Hs Hlen; cbn [evict_loop];
    apply wp_bind; unfold wp at 1, get;
    (destruct (Z.ltb_spec limit (current_in_memory_objects s)); [|by apply wp_ret, swept_refl; auto]);
    (destruct (find_unpinned _ _) as [e|] eqn:Hf; [|by apply wp_ret, swept_refl; auto]);
    apply find_unpinned_spec in Hf as (l1 & l2 & o & Hq & Ho & Hpin & _).
  { rewrite Hq, length_app in Hlen. cbn in Hlen. lia. }
  destruct e as [t i]. cbn in Ho |- *.
  assert ((t, i) ∈ lru_pqueue s) as Hin by (rewrite Hq; apply elem_of_app; right; by left).
  destruct (inv_lru s Hs) as [Hsort Hl]. destruct (proj1 (Hl t i) Hin) as (o' & Ho' & Hm & Ht).
  rewrite Ho in Ho'. injection Ho' as <-. apply wp_bind. eapply wp_evict_object; [done..|].
  intros s1 Hsw _ Hl1 Hc1. rewrite Ht in Hl1. pose proof (length_map_erase _ t i Hsort Hin) as Hlt.
  eapply wp_mono; [apply IH; [apply Hsw|rewrite Hl1; lia]| |done].
  intros [] s2 [Hsw2 Hcount Hend]. split; [by eapply swaps_trans| |done].
  intros Hlim Hfit. unfold count_fits, uncounted, UINT64_MAX in *.
  assert (wrap64 (current_in_memory_objects s - 1) = current_in_memory_objects s - 1)%Z as Hw by (apply Z.mod_small; lia).
  rewrite Hw in Hc1. destruct Hcount as [Hfit2 Heq]; [done|lia|]. split; [done|]. rewrite Heq, Hl1, Hlt, Hc1. lia.
Qed.

Lemma wp_maybe_evict_swept tol s :
  tol store_fault → ss_inv s →
  wp tol maybe_evict_something s (λ _ s', swept (max_in_memory_objects s) s s') no_exn.
Proof.
  intros Htol Hs. apply wp_bind. unfold wp at 1, get. destruct (inv_swap s Hs) as [Hcodec|Hr]; [by apply wp_evict_loop|].
  pose proof (rs_max s Hr) as Hmax. pose proof (resident_fits s Hr) as Hfit.
  assert (∀ fuel, evict_loop fuel (max_in_memory_objects s) s = Ok tt s) as Hnone.
  { intros fuel. assert (max_in_memory_objects s <? current_in_memory_objects s = false)%Z as Hle
      by (apply Z.ltb_ge; unfold count_fits in Hfit; lia). destruct fuel; cbn; unfold bind, get; by rewrite Hle. }
  unfold wp. rewrite Hnone. apply swept_refl; [done|left; unfold count_fits in Hfit; lia].
Qed.

Lemma wp_maybe_evict tol s :
  tol store_fault → ss_inv s → wp tol maybe_evict_something s (λ _ s', swaps s s') no_exn.
Proof. intros. eapply wp_mono; [by apply wp_maybe_evict_swept| |done]. intros [] s' Hsw. apply Hsw. Qed.

(** ** The operations *)

(** The object after [pin] and [operator->], before anything else is evicted. *)
Definition entered_object (o : object node) (n : node) (now : Z) (d : bool) : object node :=
  MkObject (Some n) (o_bsid o) (o_is_leaf o) (o_refcount o) now (o_dirty o || d) (o_pincount o + 1).

Lemma entered_ok r b o n now d :
  object_ok r b o → content b o = Some n → (o_pincount o < UINT64_MAX)%Z →
  object_ok r b (entered_object o n now d).
Proof.
  intros Hok Hc Hlt. pose proof (content_typed r b o n Hok Hc) as Hty.
  destruct Hok as [Hr Hp Hb Hf Hi Ha]. split; cbn; [done|lia|done|done| |done].
  intros m [= <-]. split; [done|]. intros [Hd _]%orb_false_iff. unfold content in Hc.
  destruct (o_target o) as [n'|] eqn:E.
  - injection Hc as ->. by apply (Hi n).
  - destruct (Ha eq_refl) as (_ & _ & n' & [Hpos Hsv] & _). split; [done|]. by rewrite Hc in Hsv.
Qed.

Lemma with_target_id o n : o_target o = Some n → with_target o (Some n) = o.
Proof. destruct o. cbn. by intros ->. Qed.

Lemma wp_load tol i o n s (Q : unit → swap_space node → Prop) E :
  tol store_fault → objects s !! i = Some o → content (backstore s) o = Some n →
  (∀ c, (in_memory o → c = current_in_memory_objects s) → Q tt (set_current c (set_objects (<[i := with_target o (Some n)]> (objects s)) s))) →
  wp tol (load i) s Q E.
Proof.
  intros Htol Ho Hc HQ. unfold load. apply (wp_object_at _ _ _ i o); [done|]. unfold content in Hc.
  destruct (o_target o) as [n'|] eqn:Et.
  - injection Hc as ->. apply wp_ret. specialize (HQ (current_in_memory_objects s) (λ _, eq_refl)).
    rewrite with_target_id, insert_id in HQ by done. by destruct s.
  - destruct (stored_at (backstore s) (o_bsid o)) as [file|] eqn:Hf; [|done]. cbn in Hc.
    apply wp_on_backstore. eapply bs_read_spec; [done|]. rewrite Hc.
    apply wp_check_pointers; [done|]. apply wp_put_object. unfold wp, modify. cbn.
    specialize (HQ (wrap64 (current_in_memory_objects s + 1))). destruct s. apply HQ. unfold in_memory. rewrite Et. by intros [? ?].
Qed.

(** A state in which object [i] has been entered. *)
Lemma entered_inv s s' i o n d :
  ss_inv s → objects s !! i = Some o → content (backstore s) o = Some n → (o_pincount o < UINT64_MAX)%Z →
  kept i s s' → backstore s' = backstore s → next_access_time s' = (next_access_time s + 1)%Z →
  objects s' = <[i := entered_object o n (next_access_time s) d]> (objects s) →
  lru_pqueue s' = map_insert (map_erase (lru_pqueue s) (o_last_access o)) (next_access_time s) i →
  next_id s' = next_id s → (in_memory o → current_in_memory_objects s' = current_in_memory_objects s) → ss_inv s'.
Proof.
  intros Hs Ho Hc Hlt Hk Hb Ht Hos Hl Hid Hcur.
  assert (∀ j oj, objects s !! j = Some oj → i ≠ j → o_last_access oj ≠ next_access_time s) as Hnow.
  { intros j oj Hj _. pose proof (inv_time s Hs j oj Hj). lia. }
  eapply (inv_put s s' i); [done..| | | | | |].
  - pose proof (inv_id s Hs i o Ho). pose proof (kp_next _ _ _ Hk). lia.
  - rewrite Hb. apply entered_ok; [by eapply (inv_object s Hs)|done..].
  - cbn. lia.
  - intros j oj Hj Hne. destruct (inv_apart s Hs i j o oj Ho Hj Hne) as [_ Hd1].
    destruct (inv_apart s Hs j i oj o Hj Ho) as [_ Hd2]; [done|].
    split; split; cbn; [|done| |done]; specialize (Hnow j oj Hj Hne); congruence.
  - rewrite Hos, Hl. apply (lru_in (objects s) _ i (entered_object o n (next_access_time s) d)); [|by eexists|done].
    apply lru_erase; [apply Hs|done|]. intros j oj Hj Hne. by eapply (inv_apart s Hs).
  - destruct (inv_swap s Hs) as [|Hr]; [by left|right]. destruct (rs_object s Hr i o Ho) as [Hm Hd].
    eapply (resident_put s s' i _ 0); [done|apply Hk| | |lia|rewrite Hid; apply Hr|left; split_and!; [done|by eexists|cbn; by rewrite Hd]].
    + rewrite Hcur, Z.add_0_r by done. symmetry. apply Z.mod_small. pose proof (resident_fits s Hr) as Hf. unfold count_fits, UINT64_MAX in Hf. lia.
    + destruct (inv_lru s Hs) as [Hsort Hq]. assert ((o_last_access o, i) ∈ lru_pqueue s) as Hin by (apply Hq; by exists o).
      rewrite Hl, length_map_insert, (length_map_erase _ _ _ Hsort Hin); [lia|by apply sorted_map_erase|].
      intros w [(oj & Hj & _ & Htj)%Hq _]%elem_of_map_erase; [|done]. pose proof (inv_time s Hs w oj Hj). lia.
Qed.

Lemma wp_enter tol s i d :
  tol store_fault → ss_inv s → is_Some (ss_view s !! i) →
  wp tol (st_enter i d) s (λ _ s',
    ss_inv s' ∧ ss_view s' = ss_view s ∧
    (∀ j, ss_pins s' j = ss_pins s j + (if decide (j = i) then 1 else 0)) ∧
    (∀ j, 0 < ss_pins s j → ss_dirty s j → ss_dirty s' j) ∧
    (∀ j, ss_dirty s' j → ss_dirty s j ∨ (j = i ∧ d = true)) ∧
    (d = true → ss_dirty s' i)) no_exn.
Proof.
  intros Htol Hs Hdom. destruct Hdom as [n Hn]. rewrite view_lookup in Hn.
  destruct (objects s !! i) as [o|] eqn:Ho; [|done]. cbn in Hn. pose proof (inv_id s Hs i o Ho) as Hid.
  cbn [st_enter swap_space_ops]. unfold dopin, access.
  destruct (N.eqb_spec i 0) as [->|_]; [lia|].
  apply wp_bind, (wp_object_at _ _ _ i o); [done|]. apply wp_count64; [done|]. intros Hlt.
  unfold put_object at 1, modify at 1, wp at 1.
  eapply wp_object_at; [apply lookup_insert_eq|]. apply wp_modify, wp_bind. unfold get, wp at 1.
  apply wp_count64; [done|]. intros Hlt'. apply wp_modify, wp_modify, wp_put_object, wp_bind.
  eapply (wp_load _ i _ n); [done|apply lookup_insert_eq|done|]. intros c Hfit.
  set (s1 := set_current _ _).
  assert (objects s1 = <[i := entered_object o n (next_access_time s) d]> (objects s)) as Hos.
  { subst s1. cbn. by rewrite !insert_insert_eq. }
  assert (kept i s s1) as Hk by (apply kept_same; cbn; [done|done|lia|lia|done]).
  assert (ss_inv s1) as Hs1 by by eapply entered_inv.
  assert (ss_view s1 = ss_view s) as Hv1.
  { rewrite (view_put s s1 i _ n Hs Hk Hos eq_refl). by eapply view_same. }
  eapply wp_mono; [by apply wp_maybe_evict| |done]. intros [] s2 [Hs2 Hv2 Hp2 Hkeep Hd2].
  pose proof (ok_pins _ _ _ (inv_object s Hs i o Ho)).
  assert (∀ j, ss_pins s2 j = ss_pins s j + (if decide (j = i) then 1 else 0)) as Hpins.
  { intros j. rewrite Hp2, (pins_put s s1 i _ j Hos). cbn.
    destruct (decide (i = j)) as [<-|]; [|rewrite decide_False by congruence; lia].
    rewrite decide_True, (pins_lookup s i o Ho) by done. lia. }
  assert (0 < ss_pins s1 i) by (rewrite <- Hp2, Hpins, decide_True by done; lia).
  assert (∀ o0, objects s1 !! i = Some o0 → o0 = entered_object o n (next_access_time s) d) as Hi1.
  { intros o0. rewrite Hos, lookup_insert_eq. congruence. }
  split_and!; [done|congruence|done| | |].
  - intros j Hj Hd. apply Hkeep; [rewrite <- Hp2, Hpins; lia|]. destruct (decide (i = j)) as [<-|]; [|by eapply dirty_put].
    destruct Hd as (o0 & Ho0 & _ & Hd). rewrite Ho in Ho0. injection Ho0 as <-.
    eexists. split_and!; [by rewrite Hos, lookup_insert_eq|by eexists|]. cbn. by rewrite Hd.
  - intros j Hj%Hd2. destruct (decide (i = j)) as [<-|]; [|left; by apply (dirty_put s s1 _ _ _ Hos)].
    destruct Hj as (o0 & ->%Hi1 & _ & Hd). cbn in Hd. destruct d; [by right|]. rewrite orb_false_r in Hd.
    left. exists o. split_and!; [done| |done]. destruct (o_target o) eqn:E; [by eexists|].
    destruct (ok_absent _ _ _ (inv_object s Hs i o Ho) E) as [? _]. congruence.
  - intros ->. apply Hkeep; [done|]. eexists. split_and!; [by rewrite Hos, lookup_insert_eq|by eexists|].
    cbn. apply orb_true_r.
Qed.

(** Replacing an object by one with the same file and access time. *)
Lemma inv_touch s i o o' :
  ss_inv s → objects s !! i = Some o → object_ok (rc i) (backstore s) o' → (in_memory o' ↔ in_memory o) →
  o_last_access o' = o_last_access o → o_bsid o' = o_bsid o → o_dirty o' = o_dirty o →
  ss_inv (set_objects (<[i := o']> (objects s)) s).
Proof.
  intros Hs Ho Hok Hm Ht Hb Hd.
  assert (kept i s (set_objects (<[i := o']> (objects s)) s)) as Hk by (apply kept_same; cbn; [done|done|lia|lia|done]).
  eapply (inv_put s); [done|done|done| | | | | |].
  - by eapply (inv_id s Hs).
  - done.
  - rewrite Ht. by eapply (inv_time s Hs).
  - intros j oj Hj Hne. unfold apart. rewrite Ht, Hb. split; by eapply (inv_apart s Hs).
  - by eapply lru_put; [apply Hs|..].
  - destruct (inv_swap s Hs) as [|Hr]; [by left|right]. destruct (rs_object s Hr i o Ho) as [Hmo Hdo].
    destruct Hr as [Hmax Hc Hi Hobj]. split; [done..|]. cbn. intros j oj [[<- <-]|[_ Hj]]%lookup_insert_Some; [|eauto].
    split; [by apply Hm|congruence].
Qed.

Lemma view_touch s i o' n :
  ss_inv s → content (backstore s) o' = Some n →
  ss_view (set_objects (<[i := o']> (objects s)) s) = <[i := n]> (ss_view s).
Proof. intros Hs Hc. eapply (view_put s); [done|apply kept_same; cbn; [done|done|lia|lia|done]|done|done]. Qed.

Lemma pinned_object s i :
  ss_inv s → 0 < ss_pins s i → ∃ o n, objects s !! i = Some o ∧ o_target o = Some n ∧ (0 < o_pincount o <= UINT64_MAX)%Z.
Proof.
  intros Hs Hp. unfold ss_pins in Hp. destruct (objects s !! i) as [o|] eqn:Ho; [|lia].
  pose proof (inv_object s Hs i o Ho) as Hok. pose proof (ok_pins _ _ _ Hok). destruct (o_target o) as [n|] eqn:E.
  - exists o, n. split_and!; [done|done|lia|lia].
  - destruct (ok_absent _ _ _ Hok E) as (_ & ? & _). lia.
Qed.

Lemma wp_leave tol s i :
  tol store_fault → ss_inv s → 0 < ss_pins s i →
  wp tol (st_leave i) s (λ _ s',
    ss_inv s' ∧ ss_view s' = ss_view s ∧
    (∀ j, ss_pins s j = ss_pins s' j + (if decide (j = i) then 1 else 0)) ∧
    (∀ j, 0 < ss_pins s' j → ss_dirty s j → ss_dirty s' j) ∧
    (∀ j, ss_dirty s' j → ss_dirty s j)) no_exn.
Proof.
  intros Htol Hs Hpos. destruct (pinned_object s i Hs Hpos) as (o & n & Ho & Hn & Hpin).
  cbn [st_leave swap_space_ops]. unfold unpin. pose proof (inv_id s Hs i o Ho) as Hid.
  destruct (N.eqb_spec i 0) as [->|_]; [lia|]. apply (wp_object_at _ _ _ i o); [done|]. apply wp_put_object.
  assert (wrap64 (o_pincount o - 1) = o_pincount o - 1)%Z as ->.
  { unfold wrap64, UINT64_MAX in *. apply Z.mod_small. lia. }
  set (o' := with_pincount o _). set (s1 := set_objects _ s).
  assert (objects s1 = <[i := o']> (objects s)) as Hos by done.
  assert (ss_inv s1) as Hs1.
  { eapply inv_touch; [done|done| |done..]. destruct (inv_object s Hs i o Ho) as [? ? ? ? ? Ha].
    split; cbn; [done|lia|done|done|done|]. intros E. congruence. }
  assert (ss_view s1 = ss_view s) as Hv1.
  { subst s1. rewrite (view_touch s i o' n Hs); [|unfold content; cbn; by rewrite Hn].
    eapply view_same; [done|]. unfold content. by rewrite Hn. }
  assert (∀ j, ss_dirty s1 j ↔ ss_dirty s j) as Hd1.
  { intros j. destruct (decide (i = j)) as [<-|]; [|by eapply dirty_put]. unfold ss_dirty.
    rewrite Hos, Ho, lookup_insert_eq. split; intros (? & [= <-] & ? & ?); by eexists. }
  eapply wp_mono; [by apply wp_maybe_evict| |done]. intros [] s2 [Hs2 Hv2 Hp2 Hkeep Hd2].
  split_and!; [done|congruence| | |].
  - intros j. rewrite Hp2, (pins_put s s1 i o' j Hos). cbn.
    destruct (decide (i = j)) as [<-|]; [|rewrite decide_False by congruence; lia].
    rewrite decide_True, (pins_lookup s i o Ho) by done. lia.
  - intros j Hj Hd. apply Hkeep; [by rewrite <- Hp2|]. by apply Hd1.
  - intros j Hj. by apply Hd1, Hd2.
Qed.

Lemma deref_pinned s i n : ss_inv s → 0 < ss_pins s i → ss_view s !! i = Some n → st_deref i s = Ok n s.
Proof.
  intros Hs Hpos Hn. destruct (pinned_object s i Hs Hpos) as (o & n' & Ho & Hn' & _).
  cbn [st_deref swap_space_ops]. unfold deref. rewrite view_lookup, Ho in Hn. cbn in Hn. unfold content in Hn.
  rewrite Hn' in Hn. rewrite Ho, Hn'. congruence.
Qed.

Lemma wp_update_pinned tol s i n :
  tol store_fault → ss_inv s → 0 < ss_pins s i → ss_dirty s i →
  wp tol (st_update i n) s (λ _ s',
    ss_inv s' ∧ ss_view s' = <[i := n]> (ss_view s) ∧
    (∀ j, ss_pins s' j = ss_pins s j) ∧ (∀ j, ss_dirty s' j ↔ ss_dirty s j)) no_exn.
Proof.
  intros Htol Hs Hpos (o & Ho & [n' Hn'] & Hd). cbn [st_update swap_space_ops]. unfold update.
  apply (wp_object_at _ _ _ i o); [done|]. rewrite Hn'. destruct (typed n) eqn:Hty; [|by apply wp_halt].
  unfold put_object, modify, wp. set (o' := with_target o (Some n)). set (s1 := set_objects _ s).
  assert (objects s1 = <[i := o']> (objects s)) as Hos by done. split_and!.
  - eapply inv_touch; [done|done| |unfold in_memory; rewrite Hn'; by split|done..].
    destruct (inv_object s Hs i o Ho). split; cbn; [done..| |done]. intros m [= <-]. split; [done|congruence].
  - by apply view_touch.
  - intros j. rewrite (pins_put s s1 i o' j Hos). destruct (decide (i = j)) as [<-|]; [|done].
    by rewrite (pins_lookup s i o Ho).
  - intros j. destruct (decide (i = j)) as [<-|]; [|by eapply dirty_put]. unfold ss_dirty. rewrite Hos, lookup_insert_eq, Ho.
    split; intros (? & [= <-] & ? & ?); eexists; split_and!; eauto; by eexists.
Qed.

Lemma wp_allocate_object tol s n :
  tol store_fault → ss_inv s → (∀ i, objects s !! i = None → rc i = 1%Z) →
  wp tol (st_allocate n) s (λ i s',
    ss_inv s' ∧ ss_view s !! i = None ∧ ss_view s' = <[i := n]> (ss_view s) ∧
    (∀ j, ss_pins s' j = ss_pins s j) ∧
    (∀ j, 0 < ss_pins s j → ss_dirty s j → ss_dirty s' j) ∧
    (∀ j, ss_dirty s' j → ss_dirty s j ∨ j = i)) no_exn.
Proof.
  intros Htol Hs Hrc. cbn [st_allocate swap_space_ops]. destruct (typed n) eqn:Hty; [|by apply wp_halt].
  unfold allocate. apply wp_bind. unfold wp at 1, get. apply wp_count64; [done|]. intros Hid1. apply wp_modify.
  apply wp_count64; [done|]. intros Hid2. apply wp_modify, wp_count64; [done|]. intros Htime. apply wp_modify, wp_bind.
  unfold wp at 1. pose proof (inv_next s Hs) as Hnext.
  set (i := Z.to_N (next_id s + 1)). cbn [objects set_access_time set_next_id set_sc].
  assert (objects s !! i = None) as Hfresh.
  { destruct (objects s !! i) as [o|] eqn:Ho; [|done]. pose proof (inv_id s Hs i o Ho). subst i. lia. }
  rewrite Hfresh. apply wp_bind, wp_ret, wp_put_object, wp_modify, wp_modify. set (s1 := set_current _ _).
  set (o := MkObject (Some n) 0 false 1 (next_access_time s) true 0) in *.
  assert (objects s1 = <[i := o]> (objects s)) as Hos by done.
  assert (kept i s s1) as Hk by (apply kept_same; cbn; [done|done|lia|lia|done]).
  assert (ss_inv s1) as Hs1.
  { eapply (inv_put s s1 i o Hs Hk Hos); cbn; [subst i; lia| |lia| | |].
    - split; cbn; [by rewrite Hrc|unfold UINT64_MAX; lia|pose proof (inv_bs s Hs) as Hb; unfold bs_inv in Hb; lia|lia| |done].
      intros m [= <-]. by split.
    - intros j oj Hj _. pose proof (inv_time s Hs j oj Hj). pose proof (ok_bsid _ _ _ (inv_object s Hs j oj Hj)).
      split; split; cbn; lia.
    - apply (lru_in (objects s) _ i o); [by rewrite delete_id by done; apply Hs|by eexists|].
      intros j oj Hj _. pose proof (inv_time s Hs j oj Hj). cbn. lia.
    - destruct (inv_swap s Hs) as [|Hr]; [by left|right]. eapply (resident_put s s1 i o 1); [done|done|done| |cbn; lia|cbn; lia|left; split_and!; [done|by eexists|done]].
      cbn. rewrite length_map_insert; [lia|apply Hs|]. intros w (oj & Hj & _ & Htj)%(inv_lru s Hs). pose proof (inv_time s Hs w oj Hj). lia. }
  apply wp_bind. eapply wp_mono; [by apply wp_maybe_evict| |done]. intros [] s2 [Hs2 Hv2 Hp2 Hkeep Hd2]. apply wp_ret.
  assert (∀ j, ss_pins s1 j = ss_pins s j) as Hp1.
  { intros j. rewrite (pins_put s s1 i o j Hos). destruct (decide (i = j)) as [<-|]; [|done]. unfold ss_pins. by rewrite Hfresh. }
  split_and!; [done| | | | |].
  - by rewrite view_lookup, Hfresh.
  - rewrite Hv2. by eapply (view_put s s1 i o n).
  - intros j. by rewrite Hp2.
  - intros j Hj Hd. apply Hkeep; [by rewrite Hp1|]. eapply dirty_put; [done| |done].
    intros <-. unfold ss_pins in Hj. rewrite Hfresh in Hj. lia.
  - intros j Hj%Hd2. destruct (decide (i = j)) as [<-|]; [by right|left]. by apply (dirty_put s s1 i o j).
Qed.

(** Freeing the file of an object that is gone. *)
Lemma wp_free_file tol (i : N) o s s1 Q (E : exn → swap_space node → Prop) :
  ss_inv s → objects s !! i = Some o → backstore s1 = backstore s →
  (∀ b, bs_inv b → bs_nextid b = bs_nextid (backstore s) →
     (∀ j oj, objects s !! j = Some oj → i ≠ j → (0 < o_bsid oj)%Z →
        stored_at b (o_bsid oj) = stored_at (backstore s) (o_bsid oj)) → Q tt (set_backstore b s1)) →
  wp tol (if (0 <? o_bsid o)%Z then on_backstore (bs_deallocate (o_bsid o)) else ret tt) s1 Q E.
Proof.
  intros Hs Ho Hb HQ. pose proof (inv_object s Hs i o Ho) as Hok. pose proof (inv_bs s Hs) as Hbs.
  destruct (Z.ltb_spec 0 (o_bsid o)) as [Hpos|_].
  - destruct (ok_file _ _ _ Hok Hpos) as [old Hf].
    assert (wp tol (bs_deallocate (o_bsid o)) (backstore s1) (λ _ b, Q tt (set_backstore b s1)) no_exn) as Hw.
    { rewrite Hb. apply (bs_deallocate_spec _ _ _ old); [done|lia|]. intros b Hn _ Hold. apply HQ; [|done|].
      - unfold bs_inv in *. by rewrite Hn.
      - intros j oj Hj Hne Hp. apply Hold; [lia|]. apply (inv_apart s Hs j i oj o Hj Ho); [congruence|done]. }
    unfold wp, on_backstore in *. destruct (bs_deallocate _ _) as [[] b|? b|]; [exact Hw|done|done].
  - apply wp_ret. specialize (HQ (backstore s)). destruct s1; cbn in *. subst. by apply HQ.
Qed.

Definition freed (i : N) (s s' : swap_space node) : Prop :=
  (∃ o, objects s !! i = Some o ∧ lru_pqueue s' = map_erase (lru_pqueue s) (o_last_access o)) ∧
  current_in_memory_objects s' = wrap64 (current_in_memory_objects s - 1).

Lemma wp_release_freed tol s i n :
  tol store_fault → ss_inv s → rc i = 1%Z → ss_view s !! i = Some n → links n = [] → ss_pins s i = 0 →
  wp tol (st_release i) s (λ _ s',
    ss_inv s' ∧ ss_view s' = delete i (ss_view s) ∧
    (∀ j, ss_pins s' j = ss_pins s j) ∧ (∀ j, ss_dirty s' j ↔ ss_dirty s j ∧ j ≠ i) ∧ freed i s s') no_exn.
Proof.
  intros Htol Hs Hrc Hn Hlinks Hpins. rewrite view_lookup in Hn.
  destruct (objects s !! i) as [o|] eqn:Ho; [|done]. cbn in Hn. pose proof (inv_id s Hs i o Ho) as Hid.
  pose proof (inv_object s Hs i o Ho) as Hok. cbn [st_release swap_space_ops]. unfold wp. change (wp tol (depoint (S (size (objects s))) i) s (λ _ s',
    ss_inv s' ∧ ss_view s' = delete i (ss_view s) ∧
    (∀ j, ss_pins s' j = ss_pins s j) ∧ (∀ j, ss_dirty s' j ↔ ss_dirty s j ∧ j ≠ i) ∧ freed i s s') no_exn).
  cbn [depoint]. destruct (N.eqb_spec i 0) as [->|_]; [lia|]. apply (wp_object_at _ _ _ i o); [done|].
  rewrite (ok_refcount _ _ _ Hok), Hrc. apply wp_bind, wp_ret, wp_put_object. cbn [Z.sub Z.eqb Z.add Z.opp Z.pos_sub].
  apply wp_bind. apply wp_mono with (Q := λ _ s', s' = set_objects (<[i:=with_refcount o 0]> (objects s)) s) (E := no_exn); [| |done].
  { destruct (o_target o) eqn:Et; [by apply wp_ret|].
    destruct (ok_absent _ _ _ Hok Et) as (_ & _ & n' & [Hpos Hsv] & _ & Hleaf).
    unfold content in Hn. rewrite Et in Hn. replace n' with n in Hleaf by congruence.
    apply wp_bind, wp_assert; [|rewrite Z.ltb_ge; lia]. intros _. by rewrite (proj2 Hleaf Hlinks). }
  intros [] s1 ->. eapply wp_object_at; [apply lookup_insert_eq|]. apply wp_modify, wp_modify.
  apply wp_bind. apply wp_mono with (Q := λ _ s', s' = set_lru (map_erase (lru_pqueue s) (o_last_access o))
    (set_objects (delete i (objects s)) s)) (E := no_exn); [| |done].
  { cbn [objects set_objects]. rewrite delete_insert_eq. cbn [o_target with_refcount].
    unfold content in Hn. destruct (o_target o); [|by apply wp_ret]. injection Hn as ->. rewrite Hlinks. by apply wp_ret. }
  intros [] s1 ->. apply wp_modify. cbn [o_bsid with_refcount]. apply (wp_free_file tol i o s); [done|done|done|].
  intros b Hb Hbid Hfiles. set (s2 := set_backstore _ _).
  assert (kept i s s2) as Hk by (split; cbn; [done|lia|lia|lia|done|done]).
  assert (swap_ok s2) as Hsw.
  { destruct (inv_swap s Hs) as [|Hr]; [by left|right]. destruct (rs_object s Hr i o Ho) as [Hm _]. destruct (inv_lru s Hs) as [Hsort Hq].
    assert ((o_last_access o, i) ∈ lru_pqueue s) as Hin by (apply Hq; by exists o).
    eapply (resident_put s s2 i o (-1)); [done|done|done| |cbn; lia|apply Hr|by right].
    cbn. rewrite (length_map_erase _ _ _ Hsort Hin). lia. }
  split_and!; [by eapply (inv_delete s s2 i o)|by eapply (view_delete s s2 i)| | |by split; [exists o|]].
  - intros j. unfold ss_pins. cbn. destruct (decide (i = j)) as [<-|]; [|by rewrite lookup_delete_ne].
    rewrite lookup_delete_eq. unfold ss_pins in Hpins. by rewrite Ho in *.
  - intros j. unfold ss_dirty. cbn. destruct (decide (i = j)) as [<-|].
    + rewrite lookup_delete_eq. split; [by intros (? & ? & _)|by intros [_ ?]].
    + rewrite lookup_delete_ne by done. split; [by split|by intros [? _]].
Qed.

Lemma wp_release_object tol s i n :
  tol store_fault → ss_inv s → rc i = 1%Z → ss_view s !! i = Some n → links n = [] → ss_pins s i = 0 →
  wp tol (st_release i) s (λ _ s',
    ss_inv s' ∧ ss_view s' = delete i (ss_view s) ∧
    (∀ j, ss_pins s' j = ss_pins s j) ∧ (∀ j, ss_dirty s' j ↔ ss_dirty s j ∧ j ≠ i)) no_exn.
Proof. intros. eapply wp_mono; [by eapply wp_release_freed| |done]. by intros [] s' (? & ? & ? & ? & _). Qed.

Lemma is_in_memory_object s i : ss_inv s → is_Some (ss_view s !! i) → ∃ b, st_is_in_memory i s = Ok b s.
Proof.
  intros Hs Hi. apply view_object in Hi as [o Ho]; [|done]. cbn. unfold is_in_memory, bind, object_at. rewrite Ho. by eexists.
Qed.

Lemma is_dirty_object s i :
  ss_inv s → is_Some (ss_view s !! i) → ∃ b, st_is_dirty i s = Ok b s ∧ (b = true ↔ ss_dirty s i).
Proof.
  intros Hs Hi. apply view_object in Hi as [o Ho]; [|done]. cbn. unfold is_dirty, bind, object_at. rewrite Ho.
  pose proof (inv_id s Hs i o Ho). replace (0 <? i)%N with true by (symmetry; apply N.ltb_lt; lia).
  eexists. split; [done|]. unfold ss_dirty, in_memory. rewrite Ho. split.
  - destruct (o_target o) eqn:E; [|done]. intros Hd. exists o. rewrite E. by split_and!.
  - intros (o' & [= <-] & [n ->] & Hd). done.
Qed.

(** ** The swap space on its own *)
Lemma new_swap_space_inv b n :
  CodecOk node ∨ n = UINT64_MAX → bs_inv b → ss_inv (new_swap_space b n) ∧ counted (new_swap_space b n).
Proof.
  intros Hn Hb. split; [|by split].
  split; [done|done|..]; cbn; try (intros *; by rewrite lookup_empty).
  - split; [apply sorted_nil|]. intros t i. rewrite elem_of_nil. split; [done|]. by intros (? & ? & _).
  - destruct Hn as [|Hn]; [by left|right]. split; [done|done|by unfold UINT64_MAX; cbn; lia|]. cbn. intros i o. by rewrite lookup_empty.
Qed.

(** Without pins, a swept cache holds what its limit allows and what the count misses. *)
Lemma unpinned_empty s : ss_inv s → (∀ i, ss_pins s i = 0) →
  (∀ i o, objects s !! i = Some o → in_memory o → o_pincount o ≠ 0%Z) → lru_pqueue s = [].
Proof.
  intros Hs Hpins Hall. destruct (lru_pqueue s) as [|[t i] q] eqn:Hq; [done|].
  destruct (inv_lru s Hs) as [_ Hl]. destruct (proj1 (Hl t i)) as (o & Ho & Hm & _).
  { rewrite Hq. by left. }
  destruct (Hall i o Ho Hm). pose proof (ok_pins _ _ _ (inv_object s Hs i o Ho)).
  specialize (Hpins i). rewrite (pins_lookup s i o Ho) in Hpins. lia.
Qed.

Lemma swept_bounded limit s s' :
  (0 <= limit)%Z → swept limit s s' → count_fits s → (∀ i, ss_pins s i = 0) →
  (Z.of_nat (length (lru_pqueue s')) <= Z.max 0 (limit + uncounted s))%Z.
Proof.
  intros Hlim [Hsw Hcount Hend] Hfit Hpins. destruct (Hcount Hlim Hfit) as [_ Heq]. unfold uncounted in *.
  destruct Hend as [Hle|Hall]; [lia|]. rewrite (unpinned_empty s'); [cbn; lia|apply Hsw| |done].
  intros i. by rewrite (ws_pins _ _ Hsw).
Qed.

Lemma swept_empty s s' :
  swept 0 s s' → count_fits s → (∀ i, ss_pins s i = 0) → Z.of_nat (length (lru_pqueue s')) = Z.max 0 (uncounted s).
Proof.
  intros Hsw Hfit Hpins. pose proof (swept_bounded 0 s s' ltac:(lia) Hsw Hfit Hpins). destruct Hsw as [_ Hcount _].
  destruct (Hcount ltac:(lia) Hfit) as [[? _] Heq]. unfold uncounted in *. lia.
Qed.

(** An object that is not in memory is in its file. *)
Lemma absent_saved s i o : ss_inv s → objects s !! i = Some o → o_target o = None →
  o_dirty o = false ∧ ∃ n, ss_view s !! i = Some n ∧ (stored_at (backstore s) (o_bsid o) ≫= decode) = Some n.
Proof.
  intros Hs Ho Hnone. destruct (ok_absent _ _ _ (inv_object s Hs i o Ho) Hnone) as (Hd & _ & n & [_ Hsv] & _).
  split; [done|]. exists n. split; [|done]. rewrite view_lookup, Ho. cbn. unfold content. by rewrite Hnone.
Qed.

Lemma queue_empty s i o : ss_inv s → lru_pqueue s = [] → objects s !! i = Some o → o_target o = None.
Proof.
  intros Hs Hnil Ho. destruct (o_target o) as [n|] eqn:E; [|done]. destruct (inv_lru s Hs) as [_ Hl]. rewrite Hnil in Hl.
  destruct (not_elem_of_nil (o_last_access o, i)). apply Hl. exists o. split_and!; [done|by eexists|done].
Qed.

Lemma wp_evict_all tol s :
  CodecOk node → tol store_fault → ss_inv s → wp tol evict_all s (λ _ s', swept 0 s s') no_exn.
Proof. intros. apply wp_bind. unfold wp at 1, get. by apply wp_evict_loop. Qed.

End proofs.

(** Each object has one pointer to it. *)
Notation ss_inv := (ss_inv_at (λ _, 1%Z)).

(** The swap space is a store. *)
#[global] Instance swap_space_store {node} `{Links node} `{Codec node} : Store (swap_space node) node.
Proof.
  refine {| st_inv := ss_inv; st_view := ss_view; st_pins := ss_pins; st_dirty := ss_dirty |}.
  - intros s i Hs Hi. unfold ss_pins. destruct (objects s !! i) eqn:Ho; [|done].
    assert (is_Some (ss_view s !! i)) as [? ?] by (apply (view_object _ s i Hs); rewrite Ho; eauto). congruence.
  - apply wp_enter.
  - apply wp_leave.
  - apply deref_pinned.
  - apply wp_update_pinned.
  - intros. by apply wp_allocate_object.
  - intros. by eapply wp_release_object.
  - apply is_dirty_object.
  - apply is_in_memory_object.
Defined.

(** ** Properties of the swap space *)
Section properties.
Context {node : Type} `{Links node} `{CodecOk node}.
Implicit Types (s : swap_space node).

(** C5: swapping is transparent.  Whatever has been evicted before, pinning an object and
    dereferencing it gives the contents the object had when it was last written; other
    objects keep theirs, and the only possible failures are those of the store. *)
Theorem access_reads_content s i n d :
  ss_inv s → ss_view s !! i = Some n →
  wp store_only (st_enter i d ;; st_deref i) s (λ n' s', n' = n ∧ ss_view s' = ss_view s ∧ ss_inv s') no_exn.
Proof.
  intros Hs Hn. apply wp_bind. eapply wp_mono; [apply wp_enter; [done|done|by rewrite Hn]| |done].
  intros [] s' (Hs' & Hv & Hp & _). unfold wp. rewrite (deref_pinned (λ _, 1%Z) s' i n); [done|done| |congruence].
  rewrite Hp, decide_True by done. lia.
Qed.

(** C12: [evict_all] changes no contents and no pins, and every object that is not in memory afterwards is clean and
    its file holds its contents.  It ends when the count of objects in memory is 0 or everything in memory is pinned.
    With nothing pinned exactly as many objects stay in memory as the count missed before; so when the
    count was right, everything has been written back and dropped. *)
Theorem evict_all_persists s :
  ss_inv s → count_fits s →
  wp store_only evict_all s (λ _ s',
    ss_view s' = ss_view s ∧ (∀ i, ss_pins s' i = ss_pins s i) ∧
    (∀ i o, objects s' !! i = Some o → o_target o = None →
       o_dirty o = false ∧ ∃ n, ss_view s !! i = Some n ∧ (stored_at (backstore s') (o_bsid o) ≫= decode) = Some n) ∧
    (current_in_memory_objects s' = 0%Z ∨ ∀ i o, objects s' !! i = Some o → in_memory o → o_pincount o ≠ 0%Z) ∧
    ((∀ i, ss_pins s i = 0) → Z.of_nat (length (lru_pqueue s')) = Z.max 0 (uncounted s)) ∧
    ((∀ i, ss_pins s i = 0) → counted s → ∀ i o, objects s' !! i = Some o → o_target o = None)) no_exn.
Proof.
  intros Hs Hfit. eapply wp_mono; [by apply wp_evict_all| |done]. intros [] s' Hsw.
  pose proof (swept_empty _ s s' Hsw Hfit) as Hlen. destruct Hsw as [[Hs' Hv Hp _ _] Hcount Hend].
  destruct (Hcount ltac:(lia) Hfit) as [[Hge _] _]. split_and!; [done|done| |destruct Hend; [left; lia|by right]|done|].
  - intros i o Ho Hnone. rewrite <- Hv. by apply (absent_saved (λ _, 1%Z)).
  - intros Hpins [Hc _] i o. apply (queue_empty (λ _, 1%Z)); [done|]. apply nil_length_inv.
    specialize (Hlen Hpins). unfold uncounted in Hlen. lia.
Qed.

(** C15: [maybe_evict_something] changes no contents and no pins, and ends with at most [max_in_memory_objects] objects counted or everything in memory
    pinned.  With nothing pinned the number of objects in memory is then at most the limit, plus the objects that the count
    missed before, if any: the limit itself when the count was right. *)
Theorem cache_within_limit s :
  ss_inv s → count_fits s → (0 <= max_in_memory_objects s)%Z →
  wp store_only maybe_evict_something s (λ _ s',
    ss_view s' = ss_view s ∧ (∀ i, ss_pins s' i = ss_pins s i) ∧ uncounted s' = uncounted s ∧
    ((current_in_memory_objects s' <= max_in_memory_objects s)%Z ∨
     ∀ i o, objects s' !! i = Some o → in_memory o → o_pincount o ≠ 0%Z) ∧
    ((∀ i, ss_pins s i = 0) → (Z.of_nat (length (lru_pqueue s')) <= Z.max 0 (max_in_memory_objects s + uncounted s))%Z) ∧
    ((∀ i, ss_pins s i = 0) → counted s → (Z.of_nat (length (lru_pqueue s')) <= max_in_memory_objects s)%Z)) no_exn.
Proof.
  intros Hs Hfit Hmax. eapply wp_mono; [by apply wp_maybe_evict_swept| |done]. intros [] s' Hsw.
  pose proof (swept_bounded _ _ s s' Hmax Hsw Hfit) as Hlen. destruct Hsw as [[Hs' Hv Hp _ _] Hcount Hend].
  split_and!; [done|done|by apply Hcount|done|done|].
  intros Hpins [Hc _]. specialize (Hlen Hpins). unfold uncounted in Hlen. lia.
Qed.

(** C39: [depoint] of the last pointer to a leaf that is only in the backing store decrements the count of objects in memory,
    though none of these goes away.  From any state in which the count is right and nothing pinned, freeing such a leaf leaves an
    object in memory that is not counted, and [evict_all] then stops with exactly one object still in memory. *)
Theorem freed_leaf_miscounted s i o :
  ss_inv s → counted s → (∀ j, ss_pins s j = 0) → lru_pqueue s ≠ [] →
  objects s !! i = Some o → o_target o = None → o_is_leaf o = true →
  wp store_only (st_release i ;; evict_all) s (λ _ s',
    ss_view s' = delete i (ss_view s) ∧ length (lru_pqueue s') = 1 ∧ ¬ counted s') no_exn.
Proof.
  intros Hs [Hc Hle] Hpins Hne Ho Hnone Hleaf.
  destruct (ok_absent _ _ _ (inv_object _ s Hs i o Ho) Hnone) as (_ & _ & n & [_ Hsv] & _ & Hlinks).
  assert (ss_view s !! i = Some n) as Hn by (rewrite view_lookup, Ho; cbn; unfold content; by rewrite Hnone).
  apply wp_bind. eapply wp_mono; [eapply (wp_release_freed (λ _, 1%Z)); [done|done|done|exact Hn|by apply Hlinks|apply Hpins]| |done].
  intros [] s1 (Hs1 & Hv1 & Hp1 & _ & (o' & Ho' & Hl1) & Hc1). rewrite Ho in Ho'. injection Ho' as <-.
  assert (map_erase (lru_pqueue s) (o_last_access o) = lru_pqueue s) as Hsame.
  { destruct (inv_lru _ s Hs) as [Hsort Hl]. apply map_erase_absent; [done|]. intros [t j] Hin Heq. cbn in Heq.
    destruct (proj1 (Hl t j) Hin) as (oj & Hj & [m Hm] & Ht). destruct (decide (i = j)) as [<-|Hij]; [congruence|].
    destruct (inv_apart _ s Hs i j o oj Ho Hj Hij). congruence. }
  rewrite Hsame in Hl1. assert (0 < length (lru_pqueue s)) as Hlen by (by destruct (lru_pqueue s); [|cbn; lia]).
  assert (current_in_memory_objects s1 = current_in_memory_objects s - 1)%Z as Hc1'.
  { rewrite Hc1. apply Z.mod_small. unfold UINT64_MAX in *. lia. }
  assert (count_fits s1) as Hfit by (unfold count_fits; lia).
  eapply wp_mono; [by apply wp_evict_all| |done]. intros [] s2 Hsw.
  assert (length (lru_pqueue s2) = 1) as Hone.
  { pose proof (swept_empty _ s1 s2 Hsw Hfit) as Heq. unfold uncounted in Heq. rewrite Hl1 in Heq.
    apply Nat2Z.inj. rewrite Heq; [lia|]. intros j. by rewrite Hp1. }
  destruct Hsw as [[Hs2 Hv2 _ _ _] Hcount _]. split_and!; [congruence|done|]. intros [Hc2 _].
  destruct (Hcount ltac:(lia) Hfit) as [_ Heq]. unfold uncounted in Heq. rewrite Hl1 in Heq. lia.
Qed.

(** C28: the object chosen for eviction is not pinned, is in memory, and among the objects in
    memory that are not pinned it is the one accessed longest ago. *)
Theorem victim_least_recent s t i :
  ss_inv s → find_unpinned (objects s) (lru_pqueue s) = Some (t, i) →
  ∃ o, objects s !! i = Some o ∧ o_pincount o = 0%Z ∧ in_memory o ∧
    ∀ j oj, objects s !! j = Some oj → in_memory oj → o_pincount oj = 0%Z → (o_last_access o <= o_last_access oj)%Z.
Proof.
  intros Hs (l1 & l2 & o & Hq & Ho & Hpin & Hbefore)%find_unpinned_spec. cbn in Ho.
  destruct (inv_lru _ s Hs) as [Hsort Hl]. rewrite Hq in Hsort, Hl.
  destruct (proj1 (Hl t i)) as (o' & Ho' & Hm & Ht); [apply elem_of_app; right; by left|].
  rewrite Ho in Ho'. injection Ho' as <-. exists o. split_and!; [done..|]. intros j oj Hj Hmj Hpj.
  assert ((o_last_access oj, j) ∈ l1 ++ (t, i) :: l2) as Hin by (apply Hl; by exists oj).
  apply sorted_app in Hsort as (_ & [Hlt _]%sorted_cons & _).
  apply elem_of_app in Hin as [Hin|[[= -> ->]|Hin]%elem_of_cons]; [by destruct (Hbefore _ _ Hin Hj)|lia|].
  apply Hlt in Hin. cbn in Hin. lia.
Qed.
End properties.
