(* ===== verification/Pointers.v ===== *)
(** * Pointers into the swap space and pins (client/swap_space.hpp)

    [swap_space::pointer] and [swap_space::pin] as values: a pointer counts as one reference to its target, and the
    last one that goes away frees it.  There is one swap space, so that [ss] is null or not.  [same] stands for
    [&other == this]. *)
From Stdlib Require Import ZArith Lia Ascii String.
From stdpp Require Import prelude gmap.
From S2P Require Import Prelude StdMap NodeStore Serialize BackingStore SwapSpace.

#[local] Open Scope cpp_scope.

Record pointer := MkPointer { p_ss : bool; p_target : N }.
Record pin := MkPin { pin_ss : bool; pin_target : N }.

(** [pointer(void)] and [pin(void)] *)
Definition new_pointer : pointer := MkPointer false 0.
Definition new_pin : pin := MkPin false 0.

Definition pointer_eqb (a b : pointer) : bool := Bool.eqb (p_ss a) (p_ss b) && (p_target a =? p_target b)%N.
Definition pointer_neqb (a b : pointer) : bool := negb (pointer_eqb a b).

Section pointers.
Context {node : Type} `{Codec node} `{Links node}.
Notation S := (swap_space node).

(** [pointer(const pointer &other)] *)
Definition pointer_copy (other : pointer) : M S pointer :=
  copy_pointer (p_target other) ;;
  ret other.

(** [~pointer()] and [depoint()]: what is left of the pointer. *)
Definition pointer_depoint (p : pointer) : M S pointer := λ s,
  (depoint (Datatypes.S (size (objects s))) (p_target p) ;; ret (MkPointer (p_ss p) 0)) s.

(** [operator=] *)
Definition pointer_assign (this other : pointer) (same : bool) : M S pointer :=
  if same then ret this
  else
    pointer_depoint this ;;
    copy_pointer (p_target other) ;;
    ret other.

(** [get_pin()] and [operator->()] of a pointer: the constructor of [pin] from a pointer. *)
Definition get_pin (p : pointer) : M S pin :=
  dopin (p_target p) ;;
  ret (MkPin (p_ss p) (p_target p)).

(** [~pin()] *)
Definition pin_unpin (p : pin) : M S pin :=
  unpin (pin_target p) ;;
  ret new_pin.

(** [operator=] of a pin has no [return]. *)
Definition pin_assign (this other : pin) (same : bool) : M S pin :=
  if same then halt undefined_behaviour
  else
    pin_unpin this ;;
    dopin (pin_target other) ;;
    halt undefined_behaviour.

(** The copy constructor of [pin] is the implicit one: the members are copied. *)
Definition pin_copy (other : pin) : M S pin := ret other.

(** What a program does with the pointers it holds: a new copy of one, an assignment, the end of one. *)
Inductive pointer_op :=
  | copies (i : nat)
  | assigns (i j : nat)
  | destroys (i : nat).

Definition pointer_step (vars : list pointer) (op : pointer_op) : M S (list pointer) :=
  match op with
  | copies i => match vars !! i with
                | Some p => let! q := pointer_copy p in ret (vars ++ [q])
                | None => ret vars
                end
  | assigns i j => match vars !! i, vars !! j with
                   | Some p, Some q => let! r := pointer_assign p q (i =? j)%nat in ret (<[i := r]> vars)
                   | _, _ => ret vars
                   end
  | destroys i => match vars !! i with
                  | Some p => pointer_depoint p ;; ret (delete i vars)
                  | None => ret vars
                  end
  end.
Fixpoint pointer_steps (vars : list pointer) (ops : list pointer_op) : M S (list pointer) :=
  match ops with
  | [] => ret vars
  | op :: ops => let! vars := pointer_step vars op in pointer_steps vars ops
  end.
End pointers.
