(* ===== verification/PointersProof.v ===== *)
(** * Reference counting is garbage collection

    The count of an object is the number of pointers to it, of the program and in other objects; copying, assigning and
    destroying pointers keeps it so, and an object is freed exactly when nothing points to it any more. *)
From Stdlib Require Import ZArith Lia Ascii String.
From stdpp Require Import prelude gmap gmultiset.
From S2P Require Import Prelude StdMap NodeStore Serialize BackingStore SwapSpace SwapSpaceProof Pointers.

#[local] Open Scope cpp_scope.

Section collection.
Context {node : Type} `{Links node} `{CodecOk node}.
Implicit Types (s : swap_space node) (v : gmap N node) (held : gmultiset N).

(** The pointers that the objects hold. *)
Definition all_links (v : gmap N node) : gmultiset N :=
  map_fold (λ _ n acc, list_to_set_disj (links n) ⊎ acc) ∅ v.

(** All pointers to objects: those held by the program and those held by objects. *)
Definition references (held : gmultiset N) (s : swap_space node) : gmultiset N := held ⊎ all_links (ss_view s).

(** The counts are right: each object has as many references as its count says, one at least, and no
    reference is to an object that is gone. *)
Record gc_inv (held : gmultiset N) (s : swap_space node) : Prop := {
  gc_counts : ss_inv_at (λ i, Z.of_nat (multiplicity i (references held s))) s;
  gc_referenced i : is_Some (objects s !! i) → i ∈ references held s;
  gc_exists i : i ∈ references held s → i ≠ 0%N → is_Some (objects s !! i);
}.

Lemma all_links_delete v i n : v !! i = Some n → all_links v = list_to_set_disj (links n) ⊎ all_links (delete i v).
Proof.
  intros Hi. unfold all_links. rewrite (map_fold_delete_L _ _ i n v); [done| |done].
  intros j1 j2 z1 z2 y _ _ _. multiset_solver.
Qed.

(** ** Changing a count *)
Lemma inv_recount rc rc' s : ss_inv_at rc s → (∀ i, is_Some (objects s !! i) → rc' i = rc i) → ss_inv_at rc' s.
Proof.
  intros [Hb Hn Hid Ho Ht Ha Hl] Hrc. split; try done. intros i o Hi. rewrite Hrc by eauto. by apply Ho.
Qed.

Lemma object_ok_refcount r r' b (o : object node) : object_ok r b o → object_ok r' b (with_refcount o r').
Proof. intros [Hr Hp Hi Hf Hin Hout]. by split. Qed.

Lemma inv_refcount rc rc' s i o r :
  ss_inv_at rc s → objects s !! i = Some o → rc' i = r → (∀ j, is_Some (objects s !! j) → j ≠ i → rc' j = rc j) →
  ss_inv_at rc' (set_objects (<[i := with_refcount o r]> (objects s)) s) ∧
  ss_view (set_objects (<[i := with_refcount o r]> (objects s)) s) = ss_view s.
Proof.
  intros Hs Ho Hr Hrc. split.
  - destruct Hs as [Hb Hn Hid Hok Ht Ha Hl]. split; cbn; try done.
    + intros j oj [[<- <-]|[Hne Hj]]%lookup_insert_Some; eauto.
    + intros j oj [[<- <-]|[Hne Hj]]%lookup_insert_Some.
      * subst r. eapply object_ok_refcount; eauto.
      * rewrite Hrc by eauto. by apply Hok.
    + intros j oj [[<- <-]|[Hne Hj]]%lookup_insert_Some; [by apply (Ht i o)|eauto].
    + intros j k oj ok [[<- <-]|[Hj1 Hj]]%lookup_insert_Some [[<- <-]|[Hk1 Hk]]%lookup_insert_Some Hne; [done| | |].
      * apply (Ha i k o ok Ho Hk Hne).
      * apply (Ha j i oj o Hj Ho Hne).
      * by eapply Ha.
    + eapply lru_put; [done|done|done|done].
    + by left.
  - apply map_eq. intros j. rewrite !view_lookup. cbn. destruct (decide (i = j)) as [<-|Hne].
    + by rewrite lookup_insert_eq, Ho.
    + by rewrite lookup_insert_ne.
Qed.

(** ** Freeing an object *)

(** Only the backing store has changed, and the files of the objects have not. *)
Lemma inv_files rc s s' :
  ss_inv_at rc s → objects s' = objects s → lru_pqueue s' = lru_pqueue s → kept 0 s s' → ss_inv_at rc s' ∧ ss_view s' = ss_view s.
Proof.
  intros Hs Hos Hl Hk.
  assert (∀ j oj, objects s !! j = Some oj → 0%N ≠ j) as Hz by (intros j oj Hj; pose proof (inv_id _ s Hs j oj Hj); lia).
  split.
  - pose proof Hk as [Hb _ Hn Htime _ _]. split; [done|pose proof (inv_next _ s Hs); lia|..]; rewrite ?Hos, ?Hl.
    + intros j oj Hj. pose proof (inv_id _ s Hs j oj Hj). lia.
    + intros j oj Hj. eapply kept_object; eauto.
    + intros j oj Hj. pose proof (inv_time _ s Hs j oj Hj). lia.
    + intros j k oj ok Hj Hk' Hne. by eapply (inv_apart _ s Hs).
    + apply Hs.
    + by left.
  - apply map_eq. intros j. rewrite !view_lookup, Hos. destruct (objects s !! j) as [oj|] eqn:Hj; [|done]. cbn. eapply kept_object; eauto.
Qed.

(** What the end of a pointer leaves: fewer objects, the others with their contents and files. *)
Record collected (held : gmultiset N) (s s' : swap_space node) : Prop := {
  co_inv : gc_inv held s';
  co_view : ss_view s' ⊆ ss_view s;
  co_size : size (objects s') ≤ size (objects s);
  co_object i o' : objects s' !! i = Some o' → ∃ o, objects s !! i = Some o ∧ o_bsid o' = o_bsid o;
  co_file b : (0 < b)%Z → (∀ i o, objects s !! i = Some o → o_bsid o ≠ b) → stored_at (backstore s') b = stored_at (backstore s) b;
  co_nextid : bs_nextid (backstore s') = bs_nextid (backstore s);
}.

Lemma collected_refl held s : gc_inv held s → collected held s s.
Proof. intros Hs. split; eauto. Qed.

Lemma collected_trans held held' s1 s2 s3 : collected held s1 s2 → collected held' s2 s3 → collected held' s1 s3.
Proof.
  intros Ha Hb'. split.
  - apply Hb'.
  - etrans; [apply Hb'|apply Ha].
  - pose proof (co_size _ _ _ Ha). pose proof (co_size _ _ _ Hb'). lia.
  - intros i o3 (o2 & Ho2 & Hb2)%(co_object _ _ _ Hb'). destruct (co_object _ _ _ Ha i o2 Ho2) as (o1 & ? & ?). exists o1. split; [done|congruence].
  - intros b Hb Hfree. rewrite (co_file _ _ _ Hb'), (co_file _ _ _ Ha); [done|done|done|done|].
    intros i o2 (o1 & Ho1 & ->)%(co_object _ _ _ Ha). by apply (Hfree i).
  - rewrite (co_nextid _ _ _ Hb'). apply Ha.
Qed.

(** A pointer that is one of several. *)
Lemma drop_count held s p o :
  gc_inv ({[+ p +]} ⊎ held) s → objects s !! p = Some o → o_refcount o ≠ 1%Z →
  collected held s (set_objects (<[p := with_refcount o (o_refcount o - 1)]> (objects s)) s).
Proof.
  intros Hs Ho Hmany. set (s' := set_objects _ s).
  pose proof (ok_refcount _ _ _ (inv_object _ s (gc_counts _ _ Hs) p o Ho)) as Hc. cbv beta in Hc.
  assert (multiplicity p (references ({[+ p +]} ⊎ held) s) = S (multiplicity p (references held s))) as Hp.
  { unfold references. rewrite !multiplicity_disj_union, multiplicity_singleton, decide_True by done. lia. }
  assert (ss_inv_at (λ i, Z.of_nat (multiplicity i (references held s))) s' ∧ ss_view s' = ss_view s) as [Hinv Hv].
  { eapply inv_refcount; [apply Hs|done|lia|]. intros j _ Hne. unfold references.
    rewrite !multiplicity_disj_union, multiplicity_singleton_ne by done. done. }
  assert (references held s' = references held s) as Href by (unfold references; by rewrite Hv).
  assert (∀ i, is_Some (objects s' !! i) ↔ is_Some (objects s !! i)) as Hdom.
  { intros i. cbn. rewrite lookup_insert_is_Some'. naive_solver. }
  split.
  - split; rewrite ?Href; [done| |].
    + intros i Hi%Hdom%(gc_referenced _ _ Hs). destruct (decide (i = p)) as [->|Hne].
      * apply elem_of_multiplicity. lia.
      * unfold references in *. multiset_solver.
    + intros i Hi Hz. apply Hdom, (gc_exists _ _ Hs); [|done]. unfold references in *. multiset_solver.
  - by rewrite Hv.
  - cbn. rewrite map_size_insert_Some by eauto. done.
  - intros i oi. cbn. intros [[<- <-]|[_ Hi]]%lookup_insert_Some; eauto.
  - done.
  - done.
Qed.

(** The last pointer: the object is taken out, and its own pointers are left to be destroyed. *)
Lemma take_out held s p o n c :
  gc_inv ({[+ p +]} ⊎ held) s → objects s !! p = Some o → o_refcount o = 1%Z → content (backstore s) o = Some n →
  let s1 := set_current c (set_lru (map_erase (lru_pqueue s) (o_last_access o)) (set_objects (delete p (objects s)) s)) in
  gc_inv (list_to_set_disj (links n) ⊎ held) s1 ∧ ss_view s1 = delete p (ss_view s).
Proof.
  intros Hs Ho Hone Hn s1. pose proof (gc_counts _ _ Hs) as Hi.
  pose proof (ok_refcount _ _ _ (inv_object _ s Hi p o Ho)) as Hc. cbv beta in Hc. rewrite Hone in Hc.
  assert (kept p s s1) as Hk by (apply (kept_same (λ i, Z.of_nat (multiplicity i (references ({[+ p +]} ⊎ held) s)))); cbn; (done || lia)).
  assert (ss_view s1 = delete p (ss_view s)) as Hv by by eapply view_delete.
  assert (ss_view s !! p = Some n) as Hp by by rewrite view_lookup, Ho.
  assert (references ({[+ p +]} ⊎ held) s = {[+ p +]} ⊎ references (list_to_set_disj (links n) ⊎ held) s1) as Href.
  { unfold references. rewrite Hv, (all_links_delete _ _ _ Hp). multiset_solver. }
  assert (p ∉ references (list_to_set_disj (links n) ⊎ held) s1) as Hnot.
  { rewrite Href, multiplicity_disj_union, multiplicity_singleton, decide_True in Hc by done. rewrite elem_of_multiplicity. lia. }
  assert (objects s1 = delete p (objects s)) as Hos by done.
  split; [|done]. split.
  - eapply inv_recount; [eapply (inv_delete _ s s1 p o); [done..|by left]|]. rewrite Hos. intros i [oi [Hne _]%lookup_delete_Some].
    rewrite Href, multiplicity_disj_union, multiplicity_singleton_ne by done. done.
  - rewrite Hos. intros i [oi [Hne Hoi]%lookup_delete_Some]. assert (i ∈ references ({[+ p +]} ⊎ held) s) as Hin by (apply Hs; eauto).
    rewrite Href in Hin. multiset_solver.
  - intros i Hin Hz. cbn. rewrite lookup_delete_ne by (intros <-; done). apply (gc_exists _ _ Hs); [|done]. rewrite Href. multiset_solver.
Qed.

(** ** [depoint] *)
Definition destroy_links (fuel : nat) (ps : list N) : M (swap_space node) unit := foldr (λ q k, depoint fuel q ;; k) (ret tt) ps.

(** What is left to do once an object is taken out of the tables. *)
Definition finish_free (fuel : nat) (o : object node) (n : node) : M (swap_space node) unit :=
  destroy_links fuel (links n) ;;
  modify (λ s, set_current (wrap64 (current_in_memory_objects s - 1)) s) ;;
  if (0 <? o_bsid o)%Z then on_backstore (bs_deallocate (o_bsid o)) else ret tt.

Lemma depoint_last rc fuel s p o n (Q : unit → swap_space node → Prop) (E : exn → swap_space node → Prop) :
  ss_inv_at rc s → objects s !! p = Some o → o_refcount o = 1%Z → content (backstore s) o = Some n →
  (∀ c, wp store_only (finish_free fuel o n)
     (set_current c (set_lru (map_erase (lru_pqueue s) (o_last_access o)) (set_objects (delete p (objects s)) s))) Q E) →
  wp store_only (depoint (S fuel) p) s Q E.
Proof.
  intros Hs Ho Hone Hn Hfin. cbn [depoint]. pose proof (inv_id _ s Hs p o Ho) as Hid. pose proof (inv_object _ s Hs p o Ho) as Hok.
  destruct (N.eqb_spec p 0) as [->|_]; [lia|]. apply (wp_object_at _ _ _ p o); [done|]. rewrite Hone. apply wp_bind, wp_ret, wp_put_object.
  change (1 - 1 =? 0)%Z with true. cbn iota. set (s0 := set_objects _ s). apply wp_bind.
  set (o0 := with_refcount o (1 - 1)) in s0.
  set (done_loading := λ s1, ∃ c m, s1 = set_current c (set_objects (<[p := with_target o0 m]> (objects s0)) s0) ∧
    (m = Some n ∨ m = None ∧ links n = [])).
  apply wp_mono with (Q := λ _, done_loading) (E := no_exn); [| |done].
  - unfold content in Hn. destruct (o_target o) as [n'|] eqn:Et.
    + injection Hn as ->. apply wp_ret. exists (current_in_memory_objects s), (Some n). split; [|by left].
      assert (with_target o0 (Some n) = o0) as -> by (apply with_target_id; done). subst s0. cbn. rewrite insert_insert_eq. by destruct s.
    + destruct (ok_absent _ _ _ Hok Et) as (_ & _ & n' & [Hpos Hsv] & _ & Hleaf). replace n' with n in Hleaf by congruence.
      apply wp_bind, wp_assert; [intros _|rewrite Z.ltb_ge; lia]. destruct (o_is_leaf o) eqn:El.
      * apply wp_ret. exists (current_in_memory_objects s), None. split; [|right; split; [done|by apply Hleaf]].
        assert (with_target o0 None = o0) as -> by (subst o0; destruct o; cbn in *; by subst). subst s0. cbn. rewrite insert_insert_eq. by destruct s.
      * apply (wp_load store_only p o0 n s0); [done|apply lookup_insert_eq| |].
        -- unfold content. subst o0 s0. cbn. rewrite Et. exact Hn.
        -- intros c _. exists c, (Some n). split; [done|by left].
  - intros _ s1 (c & m & -> & Hm). eapply wp_object_at; [apply lookup_insert_eq|]. apply wp_modify, wp_modify.
    cbn [objects set_objects set_current]. rewrite delete_insert_eq. subst s0. cbn [objects set_objects set_current lru_pqueue set_lru].
    rewrite delete_insert_eq. specialize (Hfin c). cbn [o_last_access with_target o0 with_refcount o_target o_bsid].
    destruct Hm as [-> |[-> Hl]]; [exact Hfin|]. unfold finish_free in Hfin. rewrite Hl in Hfin. exact Hfin.
Qed.

(** The end of the object, when its pointers are gone. *)
Lemma free_object held s s2 p o n c c' :
  gc_inv ({[+ p +]} ⊎ held) s → objects s !! p = Some o → o_refcount o = 1%Z → content (backstore s) o = Some n →
  collected held (set_current c (set_lru (map_erase (lru_pqueue s) (o_last_access o)) (set_objects (delete p (objects s)) s))) s2 →
  wp store_only (if (0 <? o_bsid o)%Z then on_backstore (bs_deallocate (o_bsid o)) else ret tt) (set_current c' s2)
    (λ _ s', collected held s s') no_exn.
Proof.
  intros Hs Ho Hone Hn Hco. destruct (take_out held s p o n c Hs Ho Hone Hn) as [_ Hv]. set (s1 := set_current c _) in *.
  pose proof (inv_object _ s (gc_counts _ _ Hs) p o Ho) as Hok. assert (objects s1 = delete p (objects s)) as Eo by done.
  assert (∀ i oi, objects s2 !! i = Some oi → i ≠ p ∧ ∃ oi', objects s !! i = Some oi' ∧ o_bsid oi = o_bsid oi') as Hobj.
  { intros i oi Hi. destruct (co_object _ _ _ Hco i oi Hi) as (oi' & Hi' & Hb). rewrite Eo in Hi'.
    apply lookup_delete_Some in Hi' as [Hne Hi']. eauto. }
  assert (∀ s', objects s' = objects s2 → lru_pqueue s' = lru_pqueue s2 → kept 0 s2 s' → bs_nextid (backstore s') = bs_nextid (backstore s2) →
    (∀ b, (0 < b)%Z → (∀ i oi, objects s !! i = Some oi → o_bsid oi ≠ b) → stored_at (backstore s') b = stored_at (backstore s2) b) →
    collected held s s') as Hdone.
  { intros s' Hos Hl Hk Hid Hfiles. pose proof (co_inv _ _ _ Hco) as [Hi2 Hr2 He2].
    destruct (inv_files _ s2 s' Hi2 Hos Hl Hk) as [Hi' Hv'].
    assert (references held s' = references held s2) as Href by (unfold references; by rewrite Hv').
    assert (ss_view s' ⊆ delete p (ss_view s)) as Hsub by (rewrite Hv', <- Hv; apply Hco).
    split.
    - split; rewrite ?Href, ?Hos; done.
    - etrans; [exact Hsub|apply delete_subseteq].
    - rewrite Hos. etrans; [apply Hco|]. rewrite Eo, map_size_delete_Some by eauto. lia.
    - intros i oi. rewrite Hos. intros (_ & oi' & ? & ?)%Hobj. eauto.
    - intros b Hb Hfree. rewrite Hfiles by done. rewrite (co_file _ _ _ Hco); [done|done|]. rewrite Eo. intros i oi [_ Hi]%lookup_delete_Some. by apply (Hfree i oi).
    - rewrite Hid. apply Hco. }
  pose proof (inv_bs _ _ (gc_counts _ _ (co_inv _ _ _ Hco))) as Hbs.
  destruct (Z.ltb_spec 0 (o_bsid o)) as [Hpos|_].
  - destruct (ok_file _ _ _ Hok Hpos) as [file Hf].
    assert (stored_at (backstore s2) (o_bsid o) = Some file) as Hf2.
    { rewrite (co_file _ _ _ Hco); [done|done|]. rewrite Eo. intros i oi [Hne Hi]%lookup_delete_Some. intros Heq.
      by apply (inv_apart _ s (gc_counts _ _ Hs) p i o oi Ho Hi Hne). }
    unfold wp, on_backstore. cbn [backstore set_current].
    pose proof (bs_deallocate_spec store_only (backstore s2) (o_bsid o) file
      (λ _ b, collected held s (set_backstore b (set_current c' s2))) no_exn Hf2) as Hd.
    unfold wp in Hd. destruct (bs_deallocate (o_bsid o) (backstore s2)) as [u b|? b|]; apply Hd; try lia.
    all: intros b' Hid _ Hothers; apply Hdone; cbn; try done.
    all: try (split; cbn; [unfold bs_inv in *; lia|lia|lia|lia| |done]; intros j oj (Hne & oj' & Hj & Heq)%Hobj _ Hposj; apply Hothers; [lia|];
      rewrite Heq in Hposj |- *; by apply (inv_apart _ s (gc_counts _ _ Hs) j p oj' o Hj Ho Hne)).
    all: intros b0 Hb0 Hfree; apply Hothers; [lia|]; intros ->; by apply (Hfree p o Ho).
  - by apply wp_ret, Hdone.
Qed.

(** A pointer that is destroyed is one reference less; what nothing refers to any more is freed, with its file,
    and so on for its pointers.  As many levels of calls suffice as there are objects. *)
Definition can_destroy (fuel : nat) : Prop := ∀ held s p,
  gc_inv ({[+ p +]} ⊎ held) s → size (objects s) < fuel → wp store_only (depoint fuel p) s (λ _ s', collected held s s') no_exn.

Lemma wp_destroy_links fuel ps held s :
  can_destroy fuel → gc_inv (list_to_set_disj ps ⊎ held) s → size (objects s) < fuel →
  wp store_only (destroy_links fuel ps) s (λ _ s', collected held s s') no_exn.
Proof.
  intros Hfuel. revert s. induction ps as [|p ps IH]; intros s Hs Hsize.
  - apply wp_ret, collected_refl. by rewrite list_to_set_disj_nil, (left_id_L ∅ (⊎)) in Hs.
  - cbn [destroy_links foldr]. rewrite list_to_set_disj_cons, <- (assoc_L (⊎)) in Hs. apply wp_bind.
    eapply wp_mono; [apply (Hfuel _ _ _ Hs Hsize)| |done]. intros [] s1 Hs1.
    eapply wp_mono; [apply IH; [apply Hs1|pose proof (co_size _ _ _ Hs1); lia]| |done]. intros [] s2 Hs2. by eapply collected_trans.
Qed.

(** A null pointer is no reference. *)
Lemma drop_null held s : gc_inv ({[+ 0%N +]} ⊎ held) s ↔ gc_inv held s.
Proof.
  assert (∀ held', ss_inv_at (λ i, Z.of_nat (multiplicity i (references held' s))) s → ∀ i, is_Some (objects s !! i) → i ≠ 0%N) as Hpos.
  { intros held' Hs i [o Ho]. pose proof (inv_id _ s Hs i o Ho). lia. }
  assert (∀ i, i ≠ 0%N → multiplicity i (references ({[+ 0%N +]} ⊎ held) s) = multiplicity i (references held s)) as Hm.
  { intros i Hi. unfold references. rewrite !multiplicity_disj_union, multiplicity_singleton_ne by done. done. }
  assert (∀ i, i ≠ 0%N → i ∈ references ({[+ 0%N +]} ⊎ held) s ↔ i ∈ references held s) as He.
  { intros i Hi. by rewrite !elem_of_multiplicity, Hm. }
  split; intros [Hc Hr Hx]; (split; [eapply inv_recount; [exact Hc|]|..]); intros i Hi.
  all: try (cbv beta; rewrite Hm; [done|by eapply Hpos]).
  - apply He; [by eapply Hpos|by apply Hr].
  - intros Hz. apply Hx; [by apply He|done].
  - apply He; [by eapply Hpos|by apply Hr].
  - intros Hz. apply Hx; [by apply He|done].
Qed.

Lemma wp_depoint fuel : can_destroy fuel.
Proof.
  induction fuel as [|fuel IH]; intros held s p Hs Hsize; [lia|]. destruct (decide (p = 0%N)) as [->|Hp].
  - cbn [depoint]. by apply wp_ret, collected_refl, drop_null.
  - destruct (gc_exists _ _ Hs p) as [o Ho]; [unfold references; multiset_solver|done|].
    pose proof (inv_object _ s (gc_counts _ _ Hs) p o Ho) as Hok. destruct (decide (o_refcount o = 1%Z)) as [Hone|Hmany].
    + destruct (content_ok _ _ _ Hok) as [n Hn]. eapply depoint_last; [apply Hs|done|done|done|]. intros c.
      destruct (take_out held s p o n c Hs Ho Hone Hn) as [Hs1 _]. apply wp_bind.
      eapply wp_mono; [apply (wp_destroy_links _ _ held _ IH Hs1)| |done].
      * cbn. rewrite map_size_delete_Some by eauto. assert (size (objects s) ≠ 0) by (apply map_size_ne_0_lookup; eauto). lia.
      * intros [] s2 Hco. apply wp_modify. by eapply free_object.
    + cbn [depoint]. destruct (N.eqb_spec p 0) as [|_]; [done|]. apply (wp_object_at _ _ _ p o); [done|].
      assert (0 < o_refcount o)%Z as Hcount.
      { rewrite (ok_refcount _ _ _ Hok). assert (p ∈ references ({[+ p +]} ⊎ held) s) as He by (unfold references; multiset_solver).
        rewrite elem_of_multiplicity in He. lia. }
      apply wp_bind, wp_assert; [intros _|by rewrite Z.ltb_ge; lia]. apply wp_put_object.
      destruct (Z.eqb_spec (o_refcount o - 1) 0) as [|_]; [lia|]. by apply wp_ret, drop_count.
Qed.

(** ** Programs over pointers *)
Lemma add_count held s p o :
  gc_inv held s → objects s !! p = Some o →
  let s' := set_objects (<[p := with_refcount o (o_refcount o + 1)]> (objects s)) s in
  gc_inv ({[+ p +]} ⊎ held) s' ∧ ss_view s' = ss_view s.
Proof.
  intros Hs Ho s'. pose proof (ok_refcount _ _ _ (inv_object _ s (gc_counts _ _ Hs) p o Ho)) as Hc. cbv beta in Hc.
  assert (ss_inv_at (λ i, Z.of_nat (multiplicity i (references ({[+ p +]} ⊎ held) s))) s' ∧ ss_view s' = ss_view s) as [Hinv Hv].
  { eapply inv_refcount; [apply Hs|done| |].
    - unfold references in *. rewrite !multiplicity_disj_union, multiplicity_singleton, decide_True by done.
      rewrite multiplicity_disj_union in Hc. lia.
    - intros j _ Hne. unfold references. by rewrite !multiplicity_disj_union, multiplicity_singleton_ne. }
  split; [|done]. assert (∀ held', references held' s' = references held' s) as Href by (intros; unfold references; by rewrite Hv).
  assert (∀ i, is_Some (objects s' !! i) ↔ is_Some (objects s !! i)) as Hdom.
  { intros i. cbn. rewrite lookup_insert_is_Some'. naive_solver. }
  split; rewrite ?Href; [done| |].
  - intros i Hi%Hdom%(gc_referenced _ _ Hs). unfold references in *. multiset_solver.
  - intros i Hi Hz. apply Hdom. destruct (decide (i = p)) as [->|Hne]; [eauto|].
    apply (gc_exists _ _ Hs); [|done]. unfold references in *. multiset_solver.
Qed.

Lemma wp_copy_pointer held s p :
  gc_inv held s → p ∈ references held s →
  wp store_only (copy_pointer p) s (λ _ s', gc_inv ({[+ p +]} ⊎ held) s' ∧ ss_view s' = ss_view s) no_exn.
Proof.
  intros Hs Hp. unfold copy_pointer. destruct (N.eqb_spec p 0) as [->|Hz]; [by apply wp_ret; rewrite drop_null|].
  destruct (gc_exists _ _ Hs p Hp Hz) as [o Ho]. apply (wp_object_at _ _ _ p o); [done|]. apply wp_count64; [done|]. intros _.
  by apply add_count.
Qed.

Definition held_by (vars : list pointer) : gmultiset N := list_to_set_disj (p_target <$> vars).

Lemma held_by_delete vars i p : vars !! i = Some p → held_by vars = {[+ p_target p +]} ⊎ held_by (delete i vars).
Proof.
  intros Hi. unfold held_by. rewrite <- (take_drop_middle vars i p Hi) at 1. rewrite delete_take_drop.
  rewrite !fmap_app, fmap_cons, !list_to_set_disj_app, list_to_set_disj_cons. multiset_solver.
Qed.

Lemma held_by_insert vars i p q : vars !! i = Some p → held_by (<[i := q]> vars) = {[+ p_target q +]} ⊎ held_by (delete i vars).
Proof.
  intros Hi. rewrite (held_by_delete (<[i := q]> vars) i q).
  - by rewrite !delete_take_drop, take_insert_ge, drop_insert_lt by lia.
  - apply list_lookup_insert_eq. by eapply lookup_lt_Some.
Qed.

Lemma held_by_other vars i j p q : vars !! i = Some p → vars !! j = Some q → i ≠ j → p_target q ∈ held_by (delete i vars).
Proof.
  intros Hi Hj Hne. unfold held_by. apply elem_of_list_to_set_disj, list_elem_of_fmap. exists q. split; [done|].
  destruct (decide (j < i)) as [Hlt|Hge].
  - apply list_elem_of_lookup_2 with j. by rewrite list_lookup_delete_lt.
  - apply list_elem_of_lookup_2 with (pred j). rewrite list_lookup_delete_ge by lia. by replace (S (pred j)) with j by lia.
Qed.

Lemma wp_pointer_depoint held p s :
  gc_inv ({[+ p_target p +]} ⊎ held) s →
  wp store_only (pointer_depoint p) s (λ q s', q = MkPointer (p_ss p) 0 ∧ collected held s s') no_exn.
Proof.
  intros Hs. unfold wp, pointer_depoint. apply wp_bind. eapply wp_mono; [apply (wp_depoint _ held); [done|lia]| |done].
  intros [] s' Hs'. by apply wp_ret.
Qed.

Lemma wp_pointer_step vars op s :
  gc_inv (held_by vars) s →
  wp store_only (pointer_step vars op) s (λ vars' s', gc_inv (held_by vars') s' ∧ ss_view s' ⊆ ss_view s) no_exn.
Proof.
  intros Hs. destruct op as [i|i j|i]; cbn [pointer_step].
  - destruct (vars !! i) as [p|] eqn:Hi; [|by apply wp_ret]. unfold pointer_copy. do 2 apply wp_bind.
    eapply wp_mono; [apply wp_copy_pointer; [exact Hs|]| |done].
    { unfold references. rewrite (held_by_delete _ _ _ Hi). multiset_solver. }
    intros [] s' [Hs' Hv]. apply wp_ret, wp_ret. rewrite Hv. split; [|done].
    unfold held_by in *. rewrite fmap_app, list_to_set_disj_app, (comm_L (⊎)). cbn [fmap list_fmap].
    by rewrite list_to_set_disj_cons, list_to_set_disj_nil, (right_id_L ∅ (⊎)).
  - destruct (vars !! i) as [p|] eqn:Hi; [|by apply wp_ret]. destruct (vars !! j) as [q|] eqn:Hj; [|by apply wp_ret].
    unfold pointer_assign. apply wp_bind. destruct (Nat.eqb_spec i j) as [->|Hne].
    { apply wp_ret, wp_ret. rewrite list_insert_id by done. by split. }
    apply wp_bind. rewrite (held_by_delete _ _ _ Hi) in Hs. eapply wp_mono; [by apply wp_pointer_depoint| |done].
    intros ? s1 [_ Hs1]. apply wp_bind. eapply wp_mono; [apply wp_copy_pointer; [apply Hs1|]| |done].
    { unfold references. pose proof (held_by_other _ _ _ _ _ Hi Hj Hne). multiset_solver. }
    intros [] s2 [Hs2 Hv]. apply wp_ret, wp_ret. rewrite (held_by_insert _ _ _ _ Hi), Hv. split; [done|apply Hs1].
  - destruct (vars !! i) as [p|] eqn:Hi; [|by apply wp_ret]. apply wp_bind. rewrite (held_by_delete _ _ _ Hi) in Hs.
    eapply wp_mono; [by apply wp_pointer_depoint| |done]. intros ? s1 [_ Hs1]. apply wp_ret. split; apply Hs1.
Qed.

Lemma wp_pointer_steps vars ops s :
  gc_inv (held_by vars) s →
  wp store_only (pointer_steps vars ops) s (λ vars' s', gc_inv (held_by vars') s' ∧ ss_view s' ⊆ ss_view s) no_exn.
Proof.
  revert vars s. induction ops as [|op ops IH]; intros vars s Hs; cbn [pointer_steps]; [by apply wp_ret|].
  apply wp_bind. eapply wp_mono; [by apply wp_pointer_step| |done]. intros vars1 s1 [Hs1 Hv1].
  eapply wp_mono; [by apply IH| |done]. intros vars2 s2 [Hs2 Hv2]. split; [done|by etrans].
Qed.

(** ** Nothing leaks *)

(** The objects do not point to each other in a circle. *)
Definition acyclic (v : gmap N node) : Prop := ∃ rank : N → nat, ∀ i n j, v !! i = Some n → j ∈ links n → rank j < rank i.

Lemma elem_of_all_links v j : j ∈ all_links v ↔ ∃ i n, v !! i = Some n ∧ j ∈ links n.
Proof.
  induction v as [|i n v Hi IH] using map_ind.
  - split; [by intros ?%gmultiset_elem_of_empty|]. intros (i & n & Hi & _). by rewrite lookup_empty in Hi.
  - rewrite (all_links_delete _ i n), delete_insert_id by (done || apply lookup_insert_eq).
    rewrite gmultiset_elem_of_disj_union, elem_of_list_to_set_disj, IH. split.
    + intros [Hj|(i' & n' & Hi' & Hj)]; [exists i, n|exists i', n']; (split; [|done]); [apply lookup_insert_eq|].
      rewrite lookup_insert_ne; [done|congruence].
    + intros (i' & n' & [[<- <-]|[Hne Hi']]%lookup_insert_Some & Hj); eauto.
Qed.

Lemma unreferenced_empty s : gc_inv ∅ s → acyclic (ss_view s) → objects s = ∅.
Proof.
  intros Hs [rank Hrank]. apply map_empty. intros i. apply eq_None_not_Some. intros Hi.
  assert (∀ m, ∃ j, is_Some (objects s !! j) ∧ m ≤ rank j) as Hlarge.
  { induction m as [|m (j & Hj & Hm)]; [exists i; split; [done|lia]|].
    apply (gc_referenced _ _ Hs) in Hj. unfold references in Hj. rewrite (left_id_L ∅ (⊎)), elem_of_all_links in Hj.
    destruct Hj as (k & n & Hk & Hj). exists k. pose proof (Hrank k n j Hk Hj). split; [|lia].
    rewrite view_lookup in Hk. by destruct (objects s !! k). }
  destruct (Hlarge (S (max_list (rank <$> elements (dom (objects s)))))) as (j & Hj & Hm).
  assert (rank j ≤ max_list (rank <$> elements (dom (objects s)))); [|lia].
  apply max_list_elem_of_le, list_elem_of_fmap. exists j. split; [done|]. by apply elem_of_elements, elem_of_dom.
Qed.

Lemma acyclic_subseteq v v' : v' ⊆ v → acyclic v → acyclic v'.
Proof. intros Hsub [rank Hrank]. exists rank. intros i n j Hi. apply Hrank. by eapply lookup_weaken. Qed.

Lemma held_by_null vars s : Forall (λ p, p_target p = 0%N) vars → gc_inv (held_by vars) s → gc_inv ∅ s.
Proof.
  induction 1 as [|p vars Hp _ IH]; [done|]. intros Hs. apply IH. apply drop_null. unfold held_by in *.
  rewrite fmap_cons, list_to_set_disj_cons, Hp in Hs. done.
Qed.
End collection.
