(* ===== verification/NodeCodec.v ===== *)
(** * Tree nodes as objects of the swap space

    A node is written with [serialize_node] and read with [deserialize_node].  It is
    well typed when its numbers fit their C++ types and its maps are maps. *)
From Stdlib Require Import ZArith Lia Ascii String.
From stdpp Require Import prelude gmap.
From S2P Require Import Prelude StdMap Message NodeStore BeTree Serialize BackingStore SwapSpace SwapSpaceProof.

Section codec.
Context {K V : Type} `{KeyOrder K} `{Serial K} `{Serial V} (okK : K → bool) (okV : V → bool).

Fixpoint sortedb {A B} `{KeyOps A} (m : list (A * B)) : bool :=
  match m with
  | [] => true
  | e :: m' => forallb (λ x, klt e.1 x.1) m' && sortedb m'
  end.

Definition is_uint64 (z : Z) : bool := (0 <=? z)%Z && (z <=? UINT64_MAX)%Z.

(** [map<...>] with fewer than 2^31 entries, each of the right types. *)
Definition typed_map {A B} `{KeyOps A} (ok : A * B → bool) (m : list (A * B)) : bool :=
  sortedb m && forallb ok m && (Z.of_nat (length m) <? 2 ^ 31)%Z.
Definition typed_pivot (e : K * child_info) : bool :=
  okK e.1 && is_uint64 (Z.of_N (child e.2)) && is_uint64 (child_size e.2).
Definition typed_element (e : MessageKey K * Message V) : bool :=
  okK (mk_key e.1) && is_uint64 (mk_timestamp e.1) && in_int (opcode e.2) && okV (val e.2).
Definition typed_node (n : node K V) : bool :=
  typed_map typed_pivot (pivots n) && typed_map typed_element (elements n).

Definition node_codec : Codec (node K V) := {|
  encode n := serialize_node n;
  decode s := fst <$> deserialize_node s;
  typed n := typed_node n;
|}.

Context `{!SerialOk K (λ k, okK k = true)} `{!SerialOk V (λ v, okV v = true)}.

Lemma sortedb_sorted {A B} `{KeyOrder A} (m : list (A * B)) : sortedb m = true → sorted m.
Proof.
  induction m as [|e m IH]; [intros _; apply sorted_nil|]. cbn. rewrite andb_true_iff, sorted_cons.
  intros [He Hm]. split; [|auto]. intros x Hx. rewrite forallb_forall in He. by apply He, list_elem_of_In.
Qed.

Lemma is_uint64_ok z : is_uint64 z = true → uint64_ok z.
Proof. unfold is_uint64, uint64_ok. rewrite andb_true_iff, !Z.leb_le. done. Qed.

Lemma typed_map_ok {A B} `{KeyOrder A} (ok : A * B → bool) (goodA : A → Prop) (goodB : B → Prop) m :
  (∀ e, ok e = true → goodA e.1 ∧ goodB e.2) → typed_map ok m = true → map_ok goodA goodB m.
Proof.
  unfold typed_map. rewrite !andb_true_iff, Z.ltb_lt, forallb_forall. intros Hok [[Hs He] Hl].
  split; [by apply sortedb_sorted|]. split; [|done]. intros e Hin. by apply Hok, He, list_elem_of_In.
Qed.

Lemma typed_node_ok n : typed_node n = true → node_ok (λ k, okK k = true) (λ v, okV v = true) n.
Proof.
  unfold typed_node. rewrite andb_true_iff. intros [Hp He]. split; eapply typed_map_ok; try done.
  - intros [k [c z]]. unfold typed_pivot. cbn. rewrite !andb_true_iff. intros [[? ?] ?].
    split; [done|]. by split; apply is_uint64_ok.
  - intros [[k ts] [opc v]]. unfold typed_element, in_int. cbn -[Z.pow]. rewrite !andb_true_iff, Z.leb_le, Z.ltb_lt.
    intros [[[? ?] ?] ?]. split; [split; [done|by apply is_uint64_ok]|by split].
Qed.

Lemma node_codec_ok : @CodecOk (node K V) node_codec.
Proof.
  intros n Hn%typed_node_ok _. destruct (node_roundtrip (λ k, okK k = true) (λ v, okV v = true) [] n []) as (w & _ & Hd);
    [constructor|done|]. cbn [app] in Hd. rewrite app_nil_r in Hd.
  change (fst <$> deserialize_node (serialize_node n) = Some n). by rewrite Hd.
Qed.

(** C16: a node of a tree is read back from the text written for it, wherever the text stands in a stream: pivots, child
    pointers and sizes, messages with their timestamps, opcodes and values, for every key and value type whose own
    texts can be read back. *)
Theorem node_text_roundtrip w n rest : ws w → typed_node n = true →
  ∃ w', ws w' ∧ deserialize_node (w ++ serialize_node n ++ rest) = Some (n, w' ++ rest).
Proof. intros Hw Hn%typed_node_ok. by apply (node_roundtrip (λ k, okK k = true) (λ v, okV v = true)). Qed.
End codec.
