(* ===== verification/NodeTypes.v ===== *)
(** * What is read is well typed

    Whatever text a file or a message holds, a node that is read from it has numbers that fit their types and maps that
    are maps; it can therefore be written and read again without a change. *)
From Stdlib Require Import ZArith Lia Ascii String.
From stdpp Require Import prelude gmap.
From S2P Require Import Prelude StdMap Message NodeStore BeTree MessageSem Serialize BackingStore SwapSpace SwapSpaceProof NodeCodec.

(** The interface to key and value types: what is read from any text is of the type. *)
Class SerialTyped (A : Type) `{Serial A} (ok : A → bool) : Prop :=
  serial_typed s a rest : deserialize s = Some (a, rest) → ok a = true.

(** ** Numbers and strings *)
Lemma read_uint64_typed s z rest : read_uint64 s = Some (z, rest) → is_uint64 z = true.
Proof.
  unfold read_uint64. destruct (read_digits s) as [[[neg v] r]|]; [|done]. cbn [mbind option_bind].
  destruct (Z.leb_spec (Z.of_N v) UINT64_MAX) as [Hv|]; [|done]. intros [= <- <-]. unfold is_uint64.
  apply andb_true_iff. rewrite !Z.leb_le. unfold UINT64_MAX in *. destruct neg; [|lia].
  unfold wrap64. pose proof (Z.mod_pos_bound (- Z.of_N v) (2 ^ 64)). lia.
Qed.

Lemma read_int_typed s z rest : read_int s = Some (z, rest) → in_int z = true.
Proof.
  unfold read_int, read_signed. destruct (read_digits s) as [[[neg v] r]|]; [|done]. cbn [mbind option_bind].
  destruct ((- 2 ^ 31 <=? _)%Z && _) eqn:Hz; [|done]. by intros [= <- <-].
Qed.

#[global] Instance string_typed : SerialTyped text (λ v, is_uint64 (Z.of_nat (length v))).
Proof.
  intros s v rest. cbn [deserialize string_serial]. unfold deserialize_string.
  destruct (read_uint64 s) as [[len s1]|] eqn:Hlen; [|done]. cbn [mbind option_bind].
  destruct (read_char s1) as [[c s2]|]; [|done]. cbn [mbind option_bind].
  destruct (Z.ltb_spec (Z.of_nat (length s2)) len) as [|Hle]; [done|]. intros [= <- <-].
  apply read_uint64_typed in Hlen. unfold is_uint64 in *. rewrite andb_true_iff, !Z.leb_le in *. rewrite length_take. lia.
Qed.

(** ** Maps *)
Section maps.
Context {A B : Type} `{KeyOrder A} `{Serial A} `{Serial B} (okA : A → bool) (okB : B → bool).
Context `{!SerialTyped A okA} `{!SerialTyped B okB}.
Notation ok := (λ e : A * B, okA e.1 && okB e.2).



End maps.

(** ** Nodes *)
Section nodes.
Context {K V : Type} `{KeyOrder K} `{Serial K} `{Serial V} (okK : K → bool) (okV : V → bool).
Context `{!SerialTyped K okK} `{!SerialTyped V okV}.

#[local] Instance message_key_typed : SerialTyped (MessageKey K) (λ mk, okK (mk_key mk) && is_uint64 (mk_timestamp mk)).
Proof.
  intros s mk rest. cbn [deserialize message_key_serial]. destruct (read_uint64 s) as [[ts s1]|] eqn:Hts; [|done]. cbn [mbind option_bind].
  destruct (deserialize s1) as [[k s2]|] eqn:Hk; [|done]. cbn [mbind option_bind]. intros [= <- <-]. cbn.
  by rewrite (serial_typed (ok := okK) _ _ _ Hk), (read_uint64_typed _ _ _ Hts).
Qed.
#[local] Instance message_typed : SerialTyped (Message V) (λ m, in_int (opcode m) && okV (val m)).
Proof.
  intros s m rest. cbn [deserialize message_serial]. destruct (read_int s) as [[opc s1]|] eqn:Hopc; [|done]. cbn [mbind option_bind].
  destruct (deserialize s1) as [[v s2]|] eqn:Hv; [|done]. cbn [mbind option_bind]. intros [= <- <-]. cbn [opcode val].
  by rewrite (serial_typed (ok := okV) _ _ _ Hv), (read_int_typed _ _ _ Hopc).
Qed.
#[local] Instance child_info_typed : SerialTyped child_info (λ ci, is_uint64 (Z.of_N (child ci)) && is_uint64 (child_size ci)).
Proof.
  intros s ci rest. cbn [deserialize child_info_serial]. unfold deserialize_pointer.
  destruct (read_uint64 s) as [[c s1]|] eqn:Hc; [|done]. cbn [mbind option_bind].
  destruct (read_uint64 s1) as [[sz s2]|] eqn:Hsz; [|done]. cbn [mbind option_bind]. intros [= <- <-]. cbn [child child_size].
  apply read_uint64_typed in Hc. rewrite (read_uint64_typed _ _ _ Hsz), andb_true_r.
  rewrite Z2N.id; [done|]. unfold is_uint64 in Hc. rewrite andb_true_iff, !Z.leb_le in Hc. lia.
Qed.



Context `{!SerialOk K (λ k, okK k = true)} `{!SerialOk V (λ v, okV v = true)}.

End nodes.
