(* ===== verification/Dictionary.v ===== *)
(** * The public operations as a dictionary

    [represents h bet s m]: the tree of height at most [h] in store [s] means the
    partial map [m].  Each operation of [betree] refines the operation on [m].  The
    [calm] trees are those on which, in addition, nothing aborts. *)
From Stdlib Require Import ZArith Lia.
From stdpp Require Import prelude gmap.
From S2P Require Import Prelude StdMap Message NodeStore BeTree MessageSem Tree NodeLemmas.
From S2P Require Import SplitProof SplitForest Grown FlushNode FlushProof QueryProof.

#[local] Open Scope cpp_scope.

Section dictionary.
Context {K V : Type} `{KeyOrder K} `{ValueOps V}.
Context {St : Type} `{StoreOps St (node K V)} `{!Store St (node K V)}.
Implicit Types (s : St) (t : tree K V) (k : K) (bet : betree V).

Record tree_at bet s t : Prop := {
  ta_root : root bet = tid t;
  ta_inv : st_inv s;
  ta_rep : rep (st_view s) t;
  ta_nodup : NoDup (ids t);
  ta_free i : i ∈ ids t → st_pins s i = 0;
  ta_wf : wf t;
  ta_ts : (1 <= next_timestamp bet)%Z;
  ta_old e : e ∈ entries t → (ets e < next_timestamp bet)%Z;
}.

(** The dictionary after an operation. *)
Definition updated (d : V) (m : K → option V) (opc : Z) k (v : V) (k' : K) : option V :=
  if keq k' k then step d (m k) (MkMessage opc v) else m k'.

Definition next bet (r : node_pointer) : betree V :=
  MkBetree (min_flush_size bet) (max_node_size bet) (min_node_size bet) r (next_timestamp bet + 1) (default_value bet).

(** What an operation leaves behind. *)
Record upserted (tol : fault → Prop) bet s t opc k v bet' s' t' : Prop := {
  up_bet : bet' = next bet (tid t');
  up_at : tree_at bet' s' t';
  up_lookup k' : lookup (default_value bet) t' k' = updated (default_value bet) (lookup (default_value bet) t) opc k v k';
  up_height : height t' ≤ S (height t);
  up_len : length (entries t') ≤ length (entries t) + 1;
  up_calm : lenient tol ∨ (drained (st_dirty s') t' ∧ leaves t' ≤ leaves t + length (entries t) + 1);
}.

Section upsert.
Context (tol : fault → Prop) (Htol : tol store_fault) (bet : betree V) (Hpar : params_ok bet).
Context (s : St) (t : tree K V) (opc : Z) (k : K) (v : V) (Hat : tree_at bet s t).
Context (Hop : valid_op (MkMessage opc v)) (Hts : (next_timestamp bet < UINT64_MAX)%Z).
Notation d := (default_value bet).
Notation msg := [(MkMessageKey k (next_timestamp bet), MkMessage opc v)].

Lemma message_batch : batch_ok msg ∧ newer (entries t) msg.
Proof.
  pose proof (ta_ts _ _ _ Hat). split.
  - split; [apply sorted_singleton|intros e ->%list_elem_of_singleton; cbn; lia|by intros e ->%list_elem_of_singleton].
  - intros e e' He ->%list_elem_of_singleton _. cbn. by apply (ta_old _ _ _ Hat).
Qed.

Lemma message_run k' o : run d (msgs k' msg) o = if keq k' k then step d o (MkMessage opc v) else o.
Proof.
  unfold msgs, for_key, ekey. cbn. destruct (keq k' k) eqn:E.
  - apply keq_eq in E as ->. by rewrite keq_refl.
  - apply keq_ne in E. by rewrite (proj2 (keq_ne k k')).
Qed.

(** The entries of a tree that took the message are old ones or the message. *)
Lemma carried_old G e : carries d t msg G → e ∈ fentries G → (ets e < next_timestamp bet + 1)%Z.
Proof.
  intros Hc He. destruct (ca_from _ _ _ _ Hc e He) as (e0 & [He0| ->%list_elem_of_singleton] & Heq).
  - pose proof (ta_old _ _ _ Hat e0 He0). unfold ets in *. rewrite <- Heq. lia.
  - unfold ets. rewrite <- Heq. cbn. lia.
Qed.

Lemma carried_lookup G k' :
  carries d t msg G → run d (msgs k' (fentries G)) None = updated d (lookup d t) opc k v k'.
Proof.
  intros Hc. rewrite (ca_run _ _ _ _ Hc), message_run. unfold updated, lookup. destruct (keq k' k) eqn:E; [|done].
  by apply keq_eq in E as ->.
Qed.

(** No node is pinned between operations. *)
Lemma carried_free s' G j :
  evolves (id_set t) s s' → stored (st_view s) (st_view s') t G → j ∈ fids G → st_pins s' j = 0.
Proof.
  intros Hev [_ _ Hids] Hj. rewrite (ev_pins _ _ _ Hev).
  destruct (Hids j Hj); [by apply (ta_free _ _ _ Hat)|apply st_pins_absent; [apply Hat|done]].
Qed.

(** The root was not split. *)
Lemma upserted_kept s' k0 z t' :
  flushed bet s s' t msg (single k0 z t') [] → tid t' = tid t → (lenient tol ∨ tidy s' t (single k0 z t')) →
  upserted tol bet s t opc k v (next bet (root bet)) s' t'.
Proof.
  intros [Hc Hst Hev _] Htid Htidy. pose proof Hst as [Hrep Hnd Hids].
  split.
  - by rewrite Htid, (ta_root _ _ _ Hat).
  - split; [by rewrite Htid; apply Hat|apply Hev| | | | | |].
    + rewrite frep_elem in Hrep. apply (Hrep (k0, (z, t'))). by apply elem_of_single.
    + by rewrite fids_single in Hnd.
    + intros j Hj. eapply carried_free; [done..|]. by rewrite fids_single.
    + apply (ca_wf _ _ _ _ Hc (k0, (z, t'))). by apply elem_of_single.
    + pose proof (ta_ts _ _ _ Hat). cbn. lia.
    + intros e He. eapply carried_old; [done|]. by rewrite fentries_single.
  - intros k'. unfold lookup at 1. rewrite <- (fentries_single k0 z t'). by apply carried_lookup.
  - pose proof (ca_height _ _ _ _ Hc) as Hh. cbn in Hh. lia.
  - pose proof (ca_len _ _ _ _ Hc) as Hl. rewrite fentries_single in Hl. done.
  - destruct Htidy as [|[Hd Hl]]; [by left|right]. split; [|cbn in Hl; lia].
    apply (Hd (k0, (z, t'))). by apply elem_of_single.
Qed.

(** The root was split: a new root over the parts. *)
Lemma new_root_wf r (G : forest K V) : forest_ok G → (∀ x, x ∈ G → wf x.2.2) → wf (Tree r [] G).
Proof.
  intros Hok Hwf. constructor; [|done|right; by intros ? ?%elem_of_nil|by intros ? ? _ ?%elem_of_nil|done].
  split; [apply sorted_nil|by intros ? ?%elem_of_nil|done|done].
Qed.

Lemma upserted_split s' s2 G r :
  flushed bet s s' t msg G (fpivots G) → G ≠ [] → forest_ok G → (lenient tol ∨ tidy s' t G) →
  st_view s' !! r = None → st_inv s2 → st_view s2 !! r = Some (MkNode (fpivots G) []) →
  (∀ j, j ∈ fids G → st_view s2 !! j = st_view s' !! j) → (∀ j, st_pins s2 j = st_pins s' j) →
  (∀ j, st_dirty s2 j → st_dirty s' j ∨ j = r) →
  upserted tol bet s t opc k v (next bet r) s2 (Tree r [] G).
Proof.
  intros [Hc Hst Hev _] Hne Hok Htidy Hfresh Hinv2 Hv2 Hsame Hpins Hd2. pose proof Hst as [Hrep Hnd Hids].
  assert (∀ j, j ∈ fids G → j ≠ r) as Hr.
  { intros j Hj ->. destruct (frep_dom _ _ r Hrep Hj) as [? ?]. congruence. }
  assert (entries (Tree r [] G) = fentries G) as He by (rewrite entries_unfold; apply app_nil_r).
  split; rewrite ?He.
  - done.
  - split; [done|done| | | | | |].
    + apply rep_unfold. split; [done|]. cbn [tch]. by eapply frep_frame.
    + rewrite ids_unfold. apply NoDup_cons. split; [|done]. intros Hj. by apply (Hr r).
    + intros j. rewrite ids_unfold, Hpins. intros [->|Hj]%elem_of_cons; [by apply st_pins_absent; [apply Hev|]|].
      by eapply carried_free.
    + apply new_root_wf; [done|]. intros x. apply (ca_wf _ _ _ _ Hc).
    + pose proof (ta_ts _ _ _ Hat). cbn. lia.
    + intros e. rewrite He. by apply carried_old.
  - intros k'. unfold lookup at 1. rewrite He. by apply carried_lookup.
  - rewrite height_unfold. apply le_n_S, (ca_height _ _ _ _ Hc).
  - apply (ca_len _ _ _ _ Hc).
  - destruct Htidy as [|[Hd Hl]]; [by left|right]. split; [|rewrite leaves_unfold; cbn [tch]; by destruct G].
    constructor; [by intros ? ? _ ? ?%elem_of_nil|]. intros x Hx. eapply drained_frame; [by apply Hd|].
    intros j Hj Hj2. destruct (Hd2 j Hj2) as [| ->]; [done|]. destruct (Hr r); [|done]. apply elem_of_fids. eauto.
Qed.

Lemma wp_upsert fuel (Q : betree V → St → Prop) E :
  height t ≤ fuel → (lenient tol ∨ careful bet s t msg) →
  (∀ bet' s' t', upserted tol bet s t opc k v bet' s' t' → Q bet' s') →
  wp tol (upsert fuel bet opc k v) s Q E.
Proof.
  intros Hfuel Hmode HQ. destruct message_batch as [HB Hnew]. unfold upsert. cbn [map_assign].
  assert (wrap64 (next_timestamp bet + 1) = next_timestamp bet + 1)%Z as ->.
  { apply Z.mod_small. pose proof (ta_ts _ _ _ Hat). unfold UINT64_MAX in Hts. lia. }
  change (MkBetree _ _ _ (root bet) _ _) with (next bet (root bet)).
  set (bet1 := next bet (root bet)) in *. change (root bet1) with (root bet). rewrite (ta_root _ _ _ Hat).
  apply wp_bind. eapply (wp_arrow_flush tol bet1 (flush fuel bet1) fuel); try apply Hat; try done.
  { by apply wp_flush. }
  { intros j Hj. apply (ta_free _ _ _ Hat). rewrite ids_unfold. apply elem_of_cons; auto. }
  { destruct Hmode as [|[]]; [by left|right; by split]. }
  intros s1 G r Hfl Htidy. assert (flushed bet s s1 t msg G r) as Hfl' by (destruct Hfl; by split).
  pose proof (fl_result _ _ _ _ _ _ _ Hfl') as [(-> & k0 & z & t' & Htid & ->)|(-> & Hne & Hok & _ & Hemp & Hid)].
  { apply (HQ bet1 s1 t'). by eapply upserted_kept. }
  destruct (fpivots G) as [|p ps] eqn:HfG; [by destruct G|]. rewrite <- HfG in *.
  pose proof (ev_inv _ _ _ (fl_ev _ _ _ _ _ _ _ Hfl)) as Hinv1.
  eapply wp_bind, wp_allocate; [done..|]. intros r s2 Hfresh Hv2 Hd2 Hev2.
  assert (tid t ≠ r) as Htr by congruence.
  eapply wp_bind, wp_release; [done|apply Hev2|by rewrite Hv2, lookup_insert_ne|done| |].
  { rewrite (ev_pins _ _ _ Hev2), (ev_pins _ _ _ (fl_ev _ _ _ _ _ _ _ Hfl)). apply (ta_free _ _ _ Hat), tid_in_ids. }
  intros s3 Hv3 Hd3 Hev3.
  eapply wp_bind, wp_arrow_modify; [done|apply Hev3|by rewrite Hv3, lookup_delete_ne, Hv2, lookup_insert_eq|].
  intros s4 Hv4 Hd4 Hev4. apply (HQ (next bet r) s4 (Tree r [] G)).
  eapply upserted_split; try done; [apply Hev4| | | |].
  - by rewrite Hv4, lookup_insert_eq.
  - intros j Hj. assert (j ≠ r) by (intros ->; destruct (frep_dom _ _ r (so_rep _ _ _ _ (fl_stored _ _ _ _ _ _ _ Hfl)) Hj); congruence).
    rewrite Hv4, lookup_insert_ne, Hv3, lookup_delete_ne, Hv2, lookup_insert_ne; try done. congruence.
  - intros j. by rewrite (ev_pins _ _ _ Hev4), (ev_pins _ _ _ Hev3), (ev_pins _ _ _ Hev2).
  - intros j [[Hj _]%Hd3| ->]%Hd4; auto.
Qed.
End upsert.

(** ** Queries *)
Lemma tree_at_evolves bet s s' t :
  tree_at bet s t → evolves {[ tid t ]} s s' → st_view s' = st_view s →
  tree_at bet s' t ∧ (drained (st_dirty s) t → drained (st_dirty s') t).
Proof.
  intros [] Hev Hv. split; [split; auto; [apply Hev|by rewrite Hv|intros i Hi; rewrite (ev_pins _ _ _ Hev); auto]|].
  intros Hd. eapply drained_below; [done|]. intros j Hj Hdj. rewrite ids_unfold in ta_nodup0.
  apply NoDup_cons in ta_nodup0 as [Hni _].
  destruct (ev_dirty _ _ _ Hev j Hdj) as [|[->%elem_of_singleton|Hnone]]; [done..|].
  destruct (rep_dom _ _ j ta_rep0) as [? ?]; [rewrite ids_unfold; apply elem_of_cons; auto|congruence].
Qed.

Lemma wp_query tol bet s t k fuel (Q : V → St → Prop) (E : exn → St → Prop) :
  tol store_fault → tree_at bet s t → height t ≤ fuel →
  (∀ s', tree_at bet s' t → (drained (st_dirty s) t → drained (st_dirty s') t) →
     match lookup (default_value bet) t k with Some v => Q v s' | None => E out_of_range s' end) →
  wp tol (query fuel bet k) s Q E.
Proof.
  intros Htol Hat Hfuel HQ. unfold query. rewrite (ta_root _ _ _ Hat).
  apply wp_arrow; [done|apply Hat|eapply rep_dom; [apply Hat|apply tid_in_ids]|]. intros s1 Hen.
  assert (∀ s2 s3, st_view s2 = st_view s1 → swapped s2 s3 → evolves (∅ ∪ arrow_writes true (tid t)) s s3 →
            tree_at bet s3 t ∧ (drained (st_dirty s) t → drained (st_dirty s3) t)) as Hafter.
  { intros s2 s3 Hv2 [Hv3 _] Hev3. rewrite union_empty_l_L in Hev3.
    apply tree_at_evolves; [done..|]. by rewrite Hv3, Hv2, (en_view _ _ _ _ Hen). }
  eapply wp_mono.
  - apply (answers_query tol bet k Htol fuel t s1); [apply Hen|rewrite (en_view _ _ _ _ Hen); apply Hat|apply Hen|apply Hat|done].
  - intros v s2 (Hv & Hev & Hvw). exists ∅. split; [done|]. intros s3 Hsw Hev3.
    destruct (Hafter s2 s3 Hvw Hsw Hev3) as [Hat3 Hd3]. specialize (HQ s3 Hat3 Hd3). by rewrite Hv in HQ.
  - intros e s2 (-> & Hv & Hev & Hvw). exists ∅. split; [done|]. intros s3 Hsw Hev3.
    destruct (Hafter s2 s3 Hvw Hsw Hev3) as [Hat3 Hd3]. specialize (HQ s3 Hat3 Hd3). by rewrite Hv in HQ.
Qed.

(** ** Refinement *)

(** The tree of height at most [h] in [s] means the dictionary [m]. *)
Definition represents (h : nat) bet s (m : K → option V) : Prop :=
  params_ok bet ∧ ∃ t, tree_at bet s t ∧ height t ≤ h ∧ ∀ k, lookup (default_value bet) t k = m k.

Lemma updated_ext d (m m' : K → option V) opc k v :
  (∀ k, m k = m' k) → ∀ k', updated d m opc k v k' = updated d m' opc k v k'.
Proof. intros Hm k'. unfold updated. by rewrite !Hm. Qed.

Lemma wp_upsert_represents fuel h bet s m opc k v :
  represents h bet s m → h ≤ fuel → (next_timestamp bet < UINT64_MAX)%Z → valid_op (MkMessage opc v) →
  wp may_abort (upsert fuel bet opc k v) s
     (λ bet' s', represents (S h) bet' s' (updated (default_value bet) m opc k v) ∧
                 next_timestamp bet' = (next_timestamp bet + 1)%Z ∧ default_value bet' = default_value bet)
     no_exn.
Proof.
  intros (Hpar & t & Hat & Hh & Hm) Hfuel Hts Hop.
  eapply (wp_upsert may_abort); [done..|lia|by left|]. intros bet' s' t' [-> Hat' Hl Hht _ _].
  split; [|done]. split; [done|]. exists t'. split_and!; [done|lia|].
  intros k'. cbn [next default_value]. rewrite Hl. by apply updated_ext.
Qed.

Lemma wp_query_represents fuel h bet s m k :
  represents h bet s m → h ≤ fuel →
  wp store_only (query fuel bet k) s
     (λ v s', m k = Some v ∧ represents h bet s' m)
     (λ e s', e = out_of_range ∧ m k = None ∧ represents h bet s' m).
Proof.
  intros (Hpar & t & Hat & Hh & Hm) Hfuel. eapply (wp_query store_only); [done..|lia|].
  intros s' Hat' _. rewrite Hm. assert (represents h bet s' m) by (split; eauto).
  by destruct (m k).
Qed.

(** C3: [query] refines lookup: it returns the value of the key, or throws [out_of_range] exactly
    when the key has none.  No assertion fails, and the tree means the same afterwards. *)
Theorem query_refines fuel h bet s m k :
  represents h bet s m → h ≤ fuel →
  wp store_only (query fuel bet k) s
     (λ v s', m k = Some v ∧ represents h bet s' m)
     (λ e s', e = out_of_range ∧ m k = None ∧ represents h bet s' m).
Proof. apply wp_query_represents. Qed.

(** ** Runs that never abort *)

(** Room for [N] operations: batches are never flushed ([flush] never finds enough
    messages for one child), so every message travels alone. *)
Definition roomy (N : nat) bet : Prop :=
  (3 <= max_node_size bet < 2 ^ 59 ∧ 2 * Z.of_nat N <= min_flush_size bet ∧ Z.of_nat N <= 2 ^ 14)%Z.

(** After [n] of them. *)
Definition steady (N n : nat) bet s (m : K → option V) : Prop :=
  roomy N bet ∧ n ≤ N ∧ (next_timestamp bet <= Z.of_nat n + 1)%Z ∧
  ∃ t, tree_at bet s t ∧ height t ≤ S n ∧ (∀ k, lookup (default_value bet) t k = m k) ∧
       length (entries t) ≤ n ∧ leaves t ≤ 1 + n * (n + 1) ∧ drained (st_dirty s) t.

Lemma roomy_params N bet : roomy N bet → params_ok bet.
Proof. intros (? & ? & ?). split; lia. Qed.

Lemma steady_represents N n bet s m : steady N n bet s m → represents (S n) bet s m.
Proof. intros (Hr & _ & _ & t & ? & ? & ? & _). split; [by eapply roomy_params|eauto]. Qed.

Lemma wp_steady_upsert fuel N n bet s m opc k v (Q : betree V → St → Prop) :
  steady N n bet s m → n < N → S n ≤ fuel → valid_op (MkMessage opc v) →
  (∀ bet' s', steady N (S n) bet' s' (updated (default_value bet) m opc k v) →
     default_value bet' = default_value bet → Q bet' s') →
  wp store_only (upsert fuel bet opc k v) s Q no_exn.
Proof.
  intros (Hroom & Hn & Hts & t & Hat & Hh & Hm & Hlen & Hlv & Hd) HnN Hfuel Hop HQ.
  pose proof Hroom as (Hmax & Hmin & HN).
  eapply (wp_upsert store_only); [done|by eapply roomy_params|done|done|unfold UINT64_MAX; lia|lia| |].
  { right. split; [done|done|lia|nia|done]. }
  intros bet' s' t' [-> Hat' Hl Hht Hlen' Hcalm]. destruct Hcalm as [[?%eq_sym _]|[Hd' Hlv']]; [done|].
  apply HQ; [|done]. split; [done|]. split; [lia|]. split; [cbn; lia|].
  exists t'. split_and!; [done|lia| |lia|nia|done].
  intros k'. cbn [next default_value]. rewrite Hl. by apply updated_ext.
Qed.

(** C2: [upsert], and with it [insert], [update] and [erase], refines the dictionary operation: from a
    tree that means [m], when it returns, it returns a tree that means [m] with the message run on its key.  This
    holds for all sizes of nodes and flushes ([max_node_size] at least 1) and every state of the cache; the call never returns a wrong tree, throws or loops,
    but it may stop at an assertion or at undefined behaviour of the C++ code.  In a tree with room for the operation ([steady]: built by at most [N] operations, with
    [N] at most 2^14, [max_node_size] at least 3 and [min_flush_size] at least [2 * N], so that no batch of messages is flushed) it
    returns, and only a fault of the store stops it. *)
Theorem upsert_refines fuel h bet s m opc k v :
  represents h bet s m → h ≤ fuel → (next_timestamp bet < UINT64_MAX)%Z → valid_op (MkMessage opc v) →
  wp may_abort (upsert fuel bet opc k v) s
     (λ bet' s', represents (S h) bet' s' (updated (default_value bet) m opc k v) ∧
                 next_timestamp bet' = (next_timestamp bet + 1)%Z)
     no_exn ∧
  (∀ N n, steady N n bet s m → n < N → S n ≤ fuel →
     wp store_only (upsert fuel bet opc k v) s
       (λ bet' s', steady N (S n) bet' s' (updated (default_value bet) m opc k v)) no_exn).
Proof.
  intros Hr Hfuel Hts Hop. split.
  - eapply wp_mono; [by apply wp_upsert_represents| |done]. by intros bet' s' (? & ? & _).
  - intros N n Hst Hn Hfuel'. by eapply wp_steady_upsert.
Qed.

Lemma wp_steady_query fuel N n bet s m k (Q : V → St → Prop) (E : exn → St → Prop) :
  steady N n bet s m → S n ≤ fuel →
  (∀ s', steady N n bet s' m → match m k with Some v => Q v s' | None => E out_of_range s' end) →
  wp store_only (query fuel bet k) s Q E.
Proof.
  intros (Hroom & Hn & Hts & t & Hat & Hh & Hm & Hlen & Hlv & Hd) Hfuel HQ.
  eapply (wp_query store_only); [done..|lia|]. intros s' Hat' Hd'. rewrite Hm. apply HQ.
  split_and!; [done..|]. exists t. split_and!; auto.
Qed.

Lemma wp_new_betree_at s maxnodesize minnodesize minflushsize (Q : betree V → St → Prop) :
  st_inv s →
  (∀ r s', tree_at (MkBetree minflushsize maxnodesize minnodesize r 1 vnew) s' (Tree r [] []) →
     Q (MkBetree minflushsize maxnodesize minnodesize r 1 vnew) s') →
  wp store_only (new_betree maxnodesize minnodesize minflushsize) s Q no_exn.
Proof.
  intros Hinv HQ. unfold new_betree. apply wp_bind, wp_allocate; [done..|].
  intros r s' Hfresh Hv Hd Hev. apply HQ.
  split; [done|apply Hev| |apply NoDup_singleton| | |cbn; lia|intros ? ?%elem_of_nil; done].
  - intros i n [= -> ->]%list_elem_of_singleton. by rewrite Hv, lookup_insert_eq.
  - intros i ->%list_elem_of_singleton. cbn. rewrite (ev_pins _ _ _ Hev). by apply st_pins_absent.
  - constructor; [|split; [apply sorted_nil|by intros ? ? ?%elem_of_nil|by intros ? ? ? ?%elem_of_nil]|by left|
                  by intros ? ? ?%elem_of_nil|by intros ? ?%elem_of_nil].
    split; [apply sorted_nil|by intros ? ?%elem_of_nil|done|done].
Qed.

(** A new tree is the empty dictionary. *)
Lemma wp_new_betree s N maxnodesize minnodesize minflushsize :
  st_inv s →
  (3 <= maxnodesize < 2 ^ 59)%Z → (2 * Z.of_nat N <= minflushsize)%Z → (Z.of_nat N <= 2 ^ 14)%Z →
  wp store_only (new_betree maxnodesize minnodesize minflushsize) s
     (λ bet s', steady N 0 bet s' (λ _, None) ∧ default_value bet = vnew) no_exn.
Proof.
  intros Hinv Hmax Hmin HN. apply wp_new_betree_at; [done|]. intros r s' Hat.
  split; [|done]. split; [done|]. split; [lia|]. split; [cbn; lia|].
  exists (Tree r [] []). split_and!; [done|cbn; lia|done|cbn; lia|cbn; lia|constructor; intros ? ?%elem_of_nil; done].
Qed.
End dictionary.
