(* ===== verification/Transparency.v ===== *)
(** * Tuning parameters and the cache are invisible

    A program that works on a tree sees its answers only.  The sizes of nodes and of flushes, the number of objects
    in memory and the store itself may differ: two trees that mean the same dictionary give the same answers. *)
From Stdlib Require Import ZArith Lia.
From stdpp Require Import prelude gmap.
From S2P Require Import Prelude StdMap Message NodeStore BeTree MessageSem Tree SplitProof Dictionary.

#[local] Open Scope cpp_scope.

Section operations.
Context {K V : Type} `{KeyOps K} `{ValueOps V}.

(** The operations of [betree], and one after the other; a query answers with a value or, when it throws
    [out_of_range], with none. *)
Inductive operation :=
  | inserts (k : K) (v : V)
  | updates (k : K) (v : V)
  | erases (k : K)
  | queries (k : K).

Definition perform {St} `{StoreOps St (node K V)} (fuel : nat) (bet : betree V) (op : operation) : M St (betree V * list (option V)) :=
  match op with
  | inserts k v => let! bet := insert fuel bet k v in ret (bet, [])
  | updates k v => let! bet := update fuel bet k v in ret (bet, [])
  | erases k => let! bet := erase fuel bet k in ret (bet, [])
  | queries k => let! a := catch_oor (let! v := query fuel bet k in ret (Some v)) (ret None) in ret (bet, [a])
  end.
Fixpoint perform_all {St} `{StoreOps St (node K V)} (fuel : nat) (bet : betree V) (ops : list operation) : M St (betree V * list (option V)) :=
  match ops with
  | [] => ret (bet, [])
  | op :: ops =>
      let! '(bet, a) := perform fuel bet op in
      let! '(bet, answers) := perform_all fuel bet ops in
      ret (bet, a ++ answers)
  end.

(** The same on a dictionary. *)
Definition meaning (d : V) (m : K → option V) (op : operation) : (K → option V) * list (option V) :=
  match op with
  | inserts k v => (updated d m INSERT k v, [])
  | updates k v => (updated d m UPDATE k v, [])
  | erases k => (updated d m DELETE k d, [])
  | queries k => (m, [m k])
  end.
Fixpoint meanings (d : V) (m : K → option V) (ops : list operation) : list (option V) :=
  match ops with
  | [] => []
  | op :: ops => (meaning d m op).2 ++ meanings d (meaning d m op).1 ops
  end.
End operations.
Arguments operation K V : clear implicits.

Section answers.
Context {K V : Type} `{KeyOrder K} `{ValueOps V}.
Context {St : Type} `{StoreOps St (node K V)} `{!Store St (node K V)}.

Lemma may_abort_store (f : fault) : store_only f → may_abort f.
Proof. by intros ->. Qed.

Lemma represents_le h h' (bet : betree V) (s : St) m : represents h bet s m → h ≤ h' → represents h' bet s m.
Proof. intros (Hp & t & ? & ? & ?) Hle. split; [done|]. exists t. split_and!; [done|lia|done]. Qed.

(** One operation: the tree means the dictionary after it, and the answer is that of the dictionary. *)
Lemma wp_perform fuel h (bet : betree V) (s : St) m op :
  represents h bet s m → h ≤ fuel → (next_timestamp bet < UINT64_MAX)%Z →
  wp may_abort (perform fuel bet op) s
    (λ r s', represents (S h) r.1 s' (meaning (default_value bet) m op).1 ∧ r.2 = (meaning (default_value bet) m op).2 ∧
             (next_timestamp r.1 <= next_timestamp bet + 1)%Z ∧ default_value r.1 = default_value bet) no_exn.
Proof.
  intros Hr Hfuel Hts. destruct op as [k v|k v|k|k]; cbn [perform meaning fst snd].
  1-3: apply wp_bind; eapply wp_mono; [apply wp_upsert_represents; [done..|by cbv; auto]| |done];
    intros bet' s' (? & ? & ?); apply wp_ret; cbn; split_and!; [done|done|lia|done].
  apply wp_bind, wp_catch_oor, wp_bind. eapply wp_tol_mono; [apply may_abort_store|].
  eapply wp_mono; [by apply wp_query_represents| |].
  - intros v s' [Hk Hr']. apply wp_ret, wp_ret. cbn. split_and!; [eapply represents_le; [done|lia]|by rewrite Hk|lia|done].
  - intros e s' (-> & Hk & Hr'). apply wp_ret, wp_ret. cbn. split_and!; [eapply represents_le; [done|lia]|by rewrite Hk|lia|done].
Qed.

Lemma wp_perform_all fuel h (bet : betree V) (s : St) m ops :
  represents h bet s m → h + length ops ≤ fuel → (next_timestamp bet + Z.of_nat (length ops) <= UINT64_MAX)%Z →
  wp may_abort (perform_all fuel bet ops) s (λ r _, r.2 = meanings (default_value bet) m ops) no_exn.
Proof.
  revert h bet s m. induction ops as [|op ops IH]; intros h bet s m Hr Hfuel Hts; cbn [perform_all meanings]; [by apply wp_ret|].
  cbn [length] in *. apply wp_bind. eapply wp_mono; [eapply wp_perform; [done|lia|lia]| |done].
  intros [bet' a] s' (Hr' & Ha & Hts' & Hd). cbn [fst snd] in *. apply wp_bind.
  eapply wp_mono; [eapply IH; [done|lia|lia]| |done]. intros [bet'' answers] s'' Hall. apply wp_ret. cbn in *. by rewrite Ha, Hall, Hd.
Qed.

(** The same while there is room for the operations: then nothing aborts. *)
Lemma wp_perform_steady fuel N n (bet : betree V) (s : St) m op :
  steady N n bet s m → n < N → S n ≤ fuel →
  wp store_only (perform fuel bet op) s
    (λ r s', ∃ n', n' ≤ S n ∧ steady N n' r.1 s' (meaning (default_value bet) m op).1 ∧ r.2 = (meaning (default_value bet) m op).2 ∧
             default_value r.1 = default_value bet) no_exn.
Proof.
  intros Hst Hn Hfuel. destruct op as [k v|k v|k|k]; cbn [perform meaning fst snd].
  1-3: apply wp_bind; eapply wp_steady_upsert; [done..|by cbv; auto|];
    intros bet' s' ? ?; apply wp_ret; exists (S n); cbn; split_and!; [done|done|done|done].
  apply wp_bind, wp_catch_oor, wp_bind. eapply wp_steady_query; [done..|]. intros s' Hst'.
  destruct (m k) as [v|] eqn:Hk; apply wp_ret, wp_ret; exists n; cbn; split_and!; done || lia.
Qed.

Lemma wp_perform_all_steady fuel N n (bet : betree V) (s : St) m ops :
  steady N n bet s m → n + length ops ≤ N → S N ≤ fuel →
  wp store_only (perform_all fuel bet ops) s (λ r _, r.2 = meanings (default_value bet) m ops) no_exn.
Proof.
  revert n bet s m. induction ops as [|op ops IH]; intros n bet s m Hst Hn Hfuel; cbn [perform_all meanings]; [by apply wp_ret|].
  cbn [length] in *. apply wp_bind. eapply wp_mono; [eapply wp_perform_steady; [done|lia|lia]| |done].
  intros [bet' a] s' (n' & Hn' & Hst' & Ha & Hd). cbn [fst snd] in *. apply wp_bind.
  eapply wp_mono; [eapply (IH n'); [done|lia|lia]| |done]. intros [bet'' answers] s'' Hall. apply wp_ret. cbn in *. by rewrite Ha, Hall, Hd.
Qed.
End answers.

(** C4: a program that inserts, updates, erases and looks up keys gets the same answers from two trees that mean the same
    dictionary, whatever the sizes of their nodes and flushes, their shapes, their stores and the number of objects that
    these keep in memory, whenever it gets them: when both runs return all answers agree.  A run neither throws nor loops, but whether it
    returns or stops at an assertion or at undefined behaviour of the C++ code can depend on the sizes.  Where both trees have room for the operations
    ([steady]: no batch of messages is flushed) both runs return and agree, unless the store fails. *)
Theorem tuning_invisible {K V} `{KeyOrder K} `{ValueOps V}
    {St1} `{StoreOps St1 (node K V)} `{!Store St1 (node K V)} {St2} `{StoreOps St2 (node K V)} `{!Store St2 (node K V)}
    fuel h (bet1 : betree V) (s1 : St1) (bet2 : betree V) (s2 : St2) m (ops : list (operation K V)) :
  represents h bet1 s1 m → represents h bet2 s2 m → default_value bet1 = default_value bet2 →
  h + length ops ≤ fuel →
  (next_timestamp bet1 + Z.of_nat (length ops) <= UINT64_MAX)%Z → (next_timestamp bet2 + Z.of_nat (length ops) <= UINT64_MAX)%Z →
  wp may_abort (perform_all fuel bet1 ops) s1 (λ r1 _,
    wp may_abort (perform_all fuel bet2 ops) s2 (λ r2 _, r1.2 = r2.2) no_exn) no_exn ∧
  (∀ N1 n1 N2 n2, steady N1 n1 bet1 s1 m → steady N2 n2 bet2 s2 m →
   n1 + length ops ≤ N1 → n2 + length ops ≤ N2 → S N1 ≤ fuel → S N2 ≤ fuel →
   wp store_only (perform_all fuel bet1 ops) s1 (λ r1 _,
     wp store_only (perform_all fuel bet2 ops) s2 (λ r2 _, r1.2 = r2.2) no_exn) no_exn).
Proof.
  intros Hr1 Hr2 Hd Hfuel Hts1 Hts2. split.
  - eapply wp_mono; [by eapply wp_perform_all| |done]. intros r1 s1' Hr1'.
    eapply wp_mono; [by eapply wp_perform_all| |done]. intros r2 s2' Hr2'. cbv beta in *. congruence.
  - intros N1 n1 N2 n2 Hst1 Hst2 ? ? ? ?. eapply wp_mono; [by eapply wp_perform_all_steady| |done]. intros r1 s1' Hr1'.
    eapply wp_mono; [by eapply wp_perform_all_steady| |done]. intros r2 s2' Hr2'. cbv beta in *. congruence.
Qed.
