(* ===== verification/IteratorProof.v ===== *)
(** * Iterators walk the dictionary in order

    An iterator of a well-formed tree stands before a suffix of the listing of the
    tree's messages; [begin], [lower_bound], [upper_bound] and [++] move it to the
    next pair of [live], whatever levels the messages are on. *)
From Stdlib Require Import ZArith Lia.
From stdpp Require Import prelude gmap.
From S2P Require Import Prelude StdMap Message NodeStore BeTree Iterator MessageSem Tree NodeLemmas.
From S2P Require Import QueryProof Live Listing NextProof FlushProof Dictionary.

#[local] Open Scope cpp_scope.

Section iterator_proof.
Context {K V : Type} `{KeyOrder K} `{KeyNew K} `{ValueOps V} `{EqDecision V}.
Context {St : Type} `{StoreOps St (node K V)} `{!Store St (node K V)}.
Context (bet : betree V) (t : tree K V) (clean : Prop).
Implicit Types (s : St) (L : message_map K V) (it : iterator K V).
Notation d := (default_value bet).

(** The tree is in place; [clean] asks for the drained state as well. *)
Definition keeps s : Prop := tree_at bet s t ∧ (clean → drained (st_dirty s) t).

Lemma wp_root_next fuel dirty mkey s (Q : entry K V → St → Prop) (E : exn → St → Prop) :
  keeps s → height t ≤ fuel →
  (∀ s', keeps s' → match next_after mkey (entries t) with Some e => Q e s' | None => E out_of_range s' end) →
  wp store_only (arrow (root bet) dirty (get_next_message fuel (root bet) mkey)) s Q E.
Proof.
  intros [Hat Hd] Hfuel HQ. rewrite (ta_root _ _ _ Hat).
  apply wp_arrow; [done|apply Hat|eapply rep_dom; [apply Hat|apply tid_in_ids]|]. intros s1 Hen.
  assert (∀ s2 s3, st_view s2 = st_view s1 → swapped s2 s3 → evolves (∅ ∪ arrow_writes dirty (tid t)) s s3 →
            keeps s3) as Hafter.
  { intros s2 s3 Hv2 [Hv3 _] Hev3. destruct (tree_at_evolves bet s s3 t Hat) as [Hat3 Hd3].
    - eapply evolves_mono; [exact Hev3|]. destruct dirty; cbn; set_solver.
    - by rewrite Hv3, Hv2, (en_view _ _ _ _ Hen).
    - split; auto. }
  eapply wp_mono.
  - eapply (answers_next store_only eq_refl fuel t s1);
      [apply Hen|rewrite (en_view _ _ _ _ Hen); apply Hat|apply Hen|apply Hat|done].
  - intros e s2 (Hn & Hev & Hvw). exists ∅. split; [done|]. intros s3 Hsw Hev3.
    specialize (HQ s3 (Hafter s2 s3 Hvw Hsw Hev3)). by rewrite Hn in HQ.
  - intros ex s2 (-> & Hn & Hev & Hvw). exists ∅. split; [done|]. intros s3 Hsw Hev3.
    specialize (HQ s3 (Hafter s2 s3 Hvw Hsw Hev3)). by rewrite Hn in HQ.
Qed.

(** [L] is what is left of the listing. *)
Definition suffix_of_listing L : Prop := ∃ pre, listing (entries t) = pre ++ L.

Lemma suffix_tail e L : suffix_of_listing (e :: L) → suffix_of_listing L.
Proof. intros [pre Heq]. exists (pre ++ [e]). by rewrite <- app_assoc. Qed.

Lemma suffix_sorted L : suffix_of_listing L → sorted L.
Proof. intros [pre Heq]. pose proof (sorted_listing (entries t)) as Hs. rewrite Heq in Hs. by apply sorted_app in Hs as (_ & ? & _). Qed.

Lemma next_after_suffix_head e L :
  suffix_of_listing (e :: L) → next_after (Some e.1) (entries t) = head L.
Proof.
  intros [pre Heq]. unfold next_after. f_equal.
  pose proof (sorted_listing (entries t)) as Hs. rewrite Heq in Hs |- *.
  apply sorted_app in Hs as (_ & [Hlt _]%sorted_cons & Hpre).
  rewrite List.filter_app. cbn [List.filter after]. rewrite klt_irrefl, lfilter_none, lfilter_all; [done|done|].
  intros x Hx. apply klt_asym, Hpre; [done|by left].
Qed.

Definition stands it L : Prop :=
  match L with [] => pos_is_valid it = false | e :: _ => pos_is_valid it = true ∧ position it = e end.

(** The iterator has run the messages of the current key [c] so far. *)
Definition running it (c : K) (o : option V) : Prop :=
  if is_valid it then first it = c ∧ o = Some (second it) else o = None.

(** What [setup_next_element] finds. *)
Definition found it (l : list (K * V)) L : Prop :=
  stands it L ∧ suffix_of_listing L ∧
  if is_valid it then l = (first it, second it) :: live d L else l = [] ∧ L = [].

Lemma iterator_apply_runs it c o e s :
  valid_op e.2 → running it c o → (ekey e = c ∨ o = None) →
  ∃ it', iterator_apply bet it e.1 e.2 s = Ok it' s ∧ position it' = position it ∧
         running it' (ekey e) (step d o e.2).
Proof.
  intros Hop Hr Hc. unfold iterator_apply, step.
  destruct Hop as [Hop|[Hop|Hop]]; rewrite Hop; cbn; eexists; split_and!; try done.
  unfold running in Hr |- *. cbn. split; [done|]. destruct (is_valid it); [|by subst].
  destruct Hr as [_ ->]. done.
Qed.

Lemma entries_valid e : wf t → e ∈ entries t → valid_op e.2.
Proof.
  induction t as [i es ch IH] using tree_ind'. intros Hwf. destruct (wf_inv _ Hwf) as (Hb & _ & _ & _ & Hch).
  rewrite entries_unfold, elem_of_app, elem_of_fentries. intros [(x & Hx & He)|He].
  - apply (IH x Hx); [by apply Hch|done].
  - eapply chain_valid; [apply (buf_chain _ _ Hb (ekey e))|]. unfold msgs. apply list_elem_of_fmap.
    exists e. split; [done|]. by apply elem_of_for_key.
Qed.

Lemma entries_ts e : wf t → e ∈ entries t → (0 < ets e <= UINT64_MAX)%Z.
Proof.
  induction t as [i es ch IH] using tree_ind'. intros Hwf. destruct (wf_inv _ Hwf) as (Hb & _ & _ & _ & Hch).
  rewrite entries_unfold, elem_of_app, elem_of_fentries. intros [(x & Hx & He)|He].
  - apply (IH x Hx); [by apply Hch|done].
  - by apply (buf_ts _ _ Hb).
Qed.

Lemma after_suffix mkey : suffix_of_listing (List.filter (after mkey) (listing (entries t))).
Proof.
  destruct mkey as [mk|]; cbn [after]; [|exists []; by rewrite lfilter_all].
  exists (upper_bound (listing (entries t)) mk).1. rewrite (upper_bound_app (listing (entries t)) mk) at 1.
  by rewrite upper_bound_filter by apply sorted_listing.
Qed.

Lemma suffix_length L : suffix_of_listing L → length L ≤ length (entries t).
Proof.
  intros [pre Heq]. etrans; [|apply length_listing]. rewrite Heq, length_app. lia.
Qed.

Lemma suffix_valid e L : wf t → suffix_of_listing (e :: L) → valid_op e.2.
Proof.
  intros Hwf [pre Heq]. apply entries_valid; [done|]. apply elem_of_listing; [by apply keyed_entries|].
  rewrite Heq. apply elem_of_app. right. by left.
Qed.

Lemma stands_set it L e : head L = Some e → stands (set_position it e) L.
Proof. destruct L; [done|]. by intros [= ->]. Qed.
Lemma stands_lose it L : head L = None → stands (lose_position it) L.
Proof. by destruct L. Qed.

Lemma wp_setup_loop fuel rounds : ∀ it c o L s,
  keeps s → height t ≤ fuel → stands it L → suffix_of_listing L → running it c o → length L ≤ rounds →
  wp store_only (setup_loop rounds fuel bet it) s
     (λ it' s', keeps s' ∧ ∃ L', found it' (live_from d c o L) L') no_exn.
Proof.
  induction rounds as [|rounds IH]; intros it c o L s Hs Hfuel Hst Hsuf Hrun Hlen.
  { destruct L; [|cbn in Hlen; lia]. cbn in Hst. cbn [setup_loop]. rewrite Hst. apply wp_ret.
    split; [done|]. exists []. split_and!; [done..|]. unfold running in Hrun. cbn.
    destruct (is_valid it); [by destruct Hrun as [-> ->]|by rewrite Hrun]. }
  cbn [setup_loop]. destruct L as [|e L]; cbn [stands] in Hst.
  { rewrite Hst. apply wp_ret. split; [done|]. exists []. split_and!; [done..|]. unfold running in Hrun. cbn.
    destruct (is_valid it); [by destruct Hrun as [-> ->]|by rewrite Hrun]. }
  destruct Hst as [Hpv Hpos]. rewrite Hpv, Hpos. cbn [andb live_from].
  destruct (negb (is_valid it) || keq (mk_key e.1) (first it)) eqn:Hcond.
  - assert (ekey e = c ∨ o = None) as Hc.
    { unfold running in Hrun. destruct (is_valid it); cbn in Hcond; [|by right].
      apply keq_eq in Hcond. left. by destruct Hrun as [<- _]. }
    assert ((if keq (ekey e) c then live_from d c (step d o e.2) L
             else emit c o ++ live_from d (ekey e) (step d None e.2) L) = live_from d (ekey e) (step d o e.2) L) as ->.
    { destruct Hc as [->| ->]; [by rewrite keq_refl|]. destruct (keq (ekey e) c) eqn:Ek; [|done].
      by apply keq_eq in Ek as ->. }
    destruct Hs as [Hat Hd].
    destruct (iterator_apply_runs it c o e s) as (it' & Happ & Hpos' & Hrun'); [|done|done|].
    { eapply suffix_valid; [apply Hat|done]. }
    apply wp_bind. unfold wp at 1. rewrite Happ, Hpos', Hpos. apply wp_bind, wp_catch_any, wp_bind.
    apply wp_root_next; [by split|done|]. intros s1 Hs1. rewrite (next_after_suffix_head e L Hsuf).
    pose proof (suffix_tail _ _ Hsuf) as Hsuf'. cbn in Hlen.
    destruct (head L) as [e'|] eqn:Hh; apply wp_ret; (apply IH; [done|done| |done|done|lia]).
    + by apply stands_set.
    + by apply stands_lose.
  - apply orb_false_iff in Hcond as [Hv%negb_false_iff Hk]. apply wp_ret. split; [done|].
    exists (e :: L). unfold running in Hrun. rewrite Hv in Hrun. destruct Hrun as [<- ->].
    change (ekey e) with (mk_key e.1). rewrite Hk. split_and!; [by split|done|]. by rewrite Hv.
Qed.

Lemma live_from_start c L : live_from d c None L = live d L.
Proof.
  destruct L as [|e L]; [done|]. cbn. destruct (keq (ekey e) c) eqn:E; [|done]. by apply keq_eq in E as ->.
Qed.

Lemma wp_setup_next fuel rounds it L s (Q : iterator K V → St → Prop) :
  keeps s → height t ≤ fuel → stands it L → suffix_of_listing L → length L ≤ rounds →
  (∀ it' s' L', keeps s' → found it' (live d L) L' → Q it' s') →
  wp store_only (setup_next_element rounds fuel bet it) s Q no_exn.
Proof.
  intros Hs Hfuel Hst Hsuf Hlen HQ. unfold setup_next_element.
  eapply wp_mono; [apply (wp_setup_loop fuel rounds (invalidate it) knew None L)| |done]; try done.
  intros it' s' [Hs' [L' Hf]]. rewrite live_from_start in Hf. by eapply HQ.
Qed.

(** The constructor stands before the messages after [mkey]. *)
Lemma wp_iterator_from fuel rounds mkey s (Q : iterator K V → St → Prop) :
  keeps s → height t ≤ fuel → length (entries t) ≤ rounds →
  (∀ it s' L, keeps s' → found it (live d (List.filter (after mkey) (listing (entries t)))) L → Q it s') →
  wp store_only (iterator_from rounds fuel bet mkey) s Q no_exn.
Proof.
  intros Hs Hfuel Hlen HQ. pose proof (after_suffix mkey) as Hsuf. unfold iterator_from, root_next. apply wp_catch_oor, wp_bind.
  apply wp_root_next; [done..|]. intros s1 Hs1. unfold next_after.
  set (L := List.filter _ _) in *. destruct (head L) as [e|] eqn:Hh.
  - eapply wp_mono; [eapply (wp_setup_next fuel rounds _ L); try done|done|by intros ? ? []].
    + by apply stands_set.
    + etrans; [by apply suffix_length|done].
  - apply wp_ret. destruct L as [|]; [|done]. apply (HQ _ _ []); [done|]. by split_and!.
Qed.

(** ** The dictionary from a key on *)

Lemma live_listing (R : list (K * V)) :
  wf t → sorted R → (∀ k, map_find R k = lookup d t k) → live d (listing (entries t)) = R.
Proof.
  intros Hwf HR Hf. apply live_eq; [apply sorted_listing|done|]. intros k. rewrite Hf. unfold lookup, msgs.
  by rewrite for_key_listing by by apply keyed_entries.
Qed.

(** Cutting the messages of the keys outside [f] cuts these keys. *)
Lemma live_cut (f : K → bool) (g : entry K V → bool) (R : list (K * V)) :
  wf t → sorted R → (∀ k, map_find R k = lookup d t k) →
  (∀ e, e ∈ entries t → g e = f (ekey e)) →
  live d (List.filter g (listing (entries t))) = List.filter (λ x, f x.1) R.
Proof.
  intros Hwf HR Hf Hg. pose proof (keyed_entries t Hwf) as Hkd.
  apply live_eq; [apply sorted_filter, sorted_listing|by apply sorted_filter|]. intros k.
  assert (msgs k (List.filter g (listing (entries t))) = if f k then msgs k (entries t) else []) as ->.
  { unfold msgs. rewrite <- (for_key_listing (entries t) k Hkd). unfold for_key. rewrite lfilter_lfilter.
    destruct (f k) eqn:Ef.
    - f_equal. apply lfilter_ext. intros e He. rewrite elem_of_listing in He by done. rewrite (Hg e He).
      destruct (keq (ekey e) k) eqn:Ek; [apply keq_eq in Ek as ->; by rewrite Ef|apply andb_false_r].
    - rewrite lfilter_none; [done|]. intros e He. rewrite elem_of_listing in He by done. rewrite (Hg e He).
      destruct (keq (ekey e) k) eqn:Ek; [apply keq_eq in Ek as ->; by rewrite Ef|apply andb_false_r]. }
  rewrite map_find_lfilter by done. destruct (f k); [apply Hf|done].
Qed.

Lemma live_lower_bound k (R : list (K * V)) :
  wf t → sorted R → (∀ k, map_find R k = lookup d t k) →
  live d (List.filter (after (Some (range_start k))) (listing (entries t))) = (lower_bound R k).2.
Proof.
  intros Hwf HR Hf. rewrite lower_bound_filter by done. apply (live_cut (λ k', negb (klt k' k))); [done..|].
  intros e He. pose proof (entries_ts e Hwf He) as Hts. cbn [after]. apply eq_true_iff_eq.
  rewrite mkey_lt_spec, negb_true_iff. cbn [range_start mk_key mk_timestamp]. unfold ekey, ets in *. split.
  - intros [?|[-> _]]; [by apply klt_asym|apply klt_irrefl].
  - intros Hge. destruct (klt_cases k (mk_key e.1)) as [(?&_)|[(?&_)|(?&_)]]; [by left|right; split; [done|lia]|congruence].
Qed.

Lemma live_upper_bound k (R : list (K * V)) :
  wf t → sorted R → (∀ k, map_find R k = lookup d t k) →
  live d (List.filter (after (Some (range_end k))) (listing (entries t))) = (upper_bound R k).2.
Proof.
  intros Hwf HR Hf. rewrite upper_bound_filter by done. apply (live_cut (λ k', klt k k')); [done..|].
  intros e He. pose proof (entries_ts e Hwf He) as Hts. cbn [after]. apply eq_true_iff_eq.
  rewrite mkey_lt_spec. cbn [range_end mk_key mk_timestamp]. unfold ekey, ets in *. split.
  - intros [?|[_ ?]]; [done|lia].
  - by left.
Qed.
End iterator_proof.
