(* ===== verification/FKey.v ===== *)
(** * File-system keys (client/filesystem.hpp)

    An [FKey] is a path with the tokens between its slashes.  Keys are ordered by
    depth first and then token by token. *)
From Stdlib Require Import ZArith Lia Ascii String.
From stdpp Require Import prelude.
From S2P Require Import Prelude StdMap Serialize Iterator.

Record FKey := MkFKey { fkey : text; tokens : list text }.

(** Lexicographic comparison, as of [std::string] and of the tokens. *)
Section lex.
Context {A : Type} `{KeyOps A}.

Fixpoint lex_eq (a b : list A) : bool :=
  match a, b with
  | [], [] => true
  | x :: a', y :: b' => keq x y && lex_eq a' b'
  | _, _ => false
  end.
Fixpoint lex_lt (a b : list A) : bool :=
  match a, b with
  | _, [] => false
  | [], _ :: _ => true
  | x :: a', y :: b' => klt x y || (keq x y && lex_lt a' b')
  end.
End lex.

(** Characters compare as unsigned. *)
#[global] Instance ascii_key : KeyOps ascii :=
  { klt a b := (N_of_ascii a <? N_of_ascii b)%N; keq := Ascii.eqb }.
#[global] Instance text_key : KeyOps text := { klt := lex_lt; keq := lex_eq }.

(** [split_path]: [getline] up to each slash; [item] is the line read so far, and a line that
    would begin at the end of the stream is not read. *)
Fixpoint lines (item : text) (some : bool) (s : text) : list text :=
  match s with
  | [] => if some then [item] else []
  | c :: s' => if Ascii.eqb c "/" then item :: lines [] false s' else lines (item ++ [c]) true s'
  end.
Definition split_path (key : text) : list text := lines [] false key.

(** [FKey()] and [FKey(k)] *)
Definition empty_fkey : FKey := MkFKey [] [].
Definition new_fkey (k : text) : FKey := MkFKey k (split_path k).

(** The loop of [operator<], whose counter [i] is a [uint8_t]; [None]: it does not end. *)
Fixpoint lt_loop (fuel : nat) (i : Z) (a b : list text) : option bool :=
  if (i <? Z.of_nat (length a))%Z then
    match fuel with
    | O => None
    | S fuel' =>
        let x := nth (Z.to_nat i) a [] in
        let y := nth (Z.to_nat i) b [] in
        if klt y x then Some false
        else if klt x y then Some true
        else lt_loop fuel' ((i + 1) `mod` 256) a b
    end
  else Some true.

(** After 256 rounds the counter is back at its start. *)
Definition fkey_lt (a b : FKey) : option bool :=
  if keq (fkey a) (fkey b) then Some false
  else if (length (tokens a) <? length (tokens b))%nat then Some true
  else if (length (tokens b) <? length (tokens a))%nat then Some false
  else lt_loop 256 0 (tokens a) (tokens b).
Definition fkey_gt (a b : FKey) : option bool :=
  if keq (fkey a) (fkey b) then Some false
  else if (length (tokens b) <? length (tokens a))%nat then Some true
  else if (length (tokens a) <? length (tokens b))%nat then Some false
  else lt_loop 256 0 (tokens b) (tokens a).
Definition fkey_eq (a b : FKey) : bool := keq (fkey a) (fkey b).
Definition fkey_ne (a b : FKey) : bool := negb (keq (fkey a) (fkey b)).

(** The comparison as [std::map] uses it, where it ends. *)
#[global] Instance fkey_ops : KeyOps FKey :=
  { klt a b := match fkey_lt a b with Some r => r | None => false end; keq := fkey_eq }.
#[global] Instance fkey_new : KeyNew FKey := empty_fkey.

(** [_serialize] and [_deserialize]; the latter fills in [key] only. *)
#[global] Instance fkey_serial : Serial FKey := {
  serialize k := fkey k ++ lit " " ++ serialize (fkey k);
  deserialize s :=
    '(_, s) ← read_word s;
    '(key, s) ← deserialize s;
    Some (MkFKey key [], s);
}.

(** ** The order of the keys *)
Section lex_order.
Context {A : Type} `{KeyOrder A}.

Lemma lex_eq_spec (a b : list A) : lex_eq a b = true ↔ a = b.
Proof.
  revert b. induction a as [|x a IH]; intros [|y b]; cbn; try done. rewrite andb_true_iff, keq_eq, IH. naive_solver.
Qed.

Lemma lex_irrefl (a : list A) : lex_lt a a = false.
Proof. induction a as [|x a IH]; cbn; [done|]. by rewrite klt_irrefl, keq_refl, IH. Qed.

Lemma lex_trans (a b c : list A) : lex_lt a b = true → lex_lt b c = true → lex_lt a c = true.
Proof.
  revert b c. induction a as [|x a IH]; intros [|y b] [|z c]; cbn; try done.
  rewrite !orb_true_iff, !andb_true_iff, !keq_eq. intros [?|[-> ?]] [?|[-> ?]].
  - left. by eapply klt_trans.
  - by left.
  - by left.
  - right. split; [done|]. by eapply IH.
Qed.

Lemma lex_total (a b : list A) : lex_lt a b = false → lex_lt b a = false → a = b.
Proof.
  revert b. induction a as [|x a IH]; intros [|y b]; cbn; try done.
  rewrite !orb_false_iff. intros [Hxy Ha] [Hyx Hb]. assert (x = y) as -> by by apply klt_total.
  rewrite keq_refl in Ha, Hb. f_equal. by apply IH.
Qed.
End lex_order.

#[global] Instance ascii_order : KeyOrder ascii.
Proof.
  split; cbn.
  - intros a. apply N.ltb_irrefl.
  - intros a b c. rewrite !N.ltb_lt. lia.
  - intros a b. rewrite !N.ltb_ge. intros. rewrite <- (ascii_N_embedding a), <- (ascii_N_embedding b). f_equal. lia.
  - intros a b. apply Ascii.eqb_eq.
Qed.
#[global] Instance text_order : KeyOrder text.
Proof.
  split; [apply lex_irrefl|apply lex_trans|apply lex_total|apply lex_eq_spec].
Qed.

(** A key made by the constructor, short enough for the counter, whose path does not end in a
    slash: the paths are then determined by their tokens. *)
Definition clean (k : FKey) : bool :=
  bool_decide (tokens k = split_path (fkey k)) && (length (tokens k) <? 256)%nat &&
  match last (fkey k) with Some c => negb (Ascii.eqb c "/") | None => true end.

Fixpoint join (ts : list text) : text :=
  match ts with
  | [] => []
  | [t] => t
  | t :: ts' => t ++ "/"%char :: join ts'
  end.

Lemma lines_nonempty item some s : s ≠ [] ∨ some = true → lines item some s ≠ [].
Proof.
  revert item some. induction s as [|c s IH]; intros item some Hs; cbn; [by destruct Hs as [| ->]|].
  destruct (Ascii.eqb c "/"); [done|]. apply IH. by right.
Qed.

Lemma join_lines s : ∀ item some,
  (some = false → item = []) → match last s with Some c => c ≠ "/"%char | None => True end →
  join (lines item some s) = item ++ s.
Proof.
  induction s as [|c s IH]; intros item some Hitem Hlast; cbn [lines].
  - destruct some; cbn; [by rewrite app_nil_r|]. by rewrite Hitem.
  - destruct (Ascii.eqb_spec c "/") as [->|Hc].
    + destruct s as [|c' s]; [done|]. cbn [last] in Hlast. cbn [join].
      destruct (lines [] false (c' :: s)) as [|t ts] eqn:El.
      * exfalso. eapply lines_nonempty; [|exact El]. by left.
      * rewrite <- El, IH; [done|done|exact Hlast].
    + rewrite IH; [by rewrite <- app_assoc|done|]. by destruct s.
Qed.

Lemma clean_spec k :
  clean k = true → tokens k = split_path (fkey k) ∧ length (tokens k) < 256 ∧ join (tokens k) = fkey k.
Proof.
  unfold clean. rewrite !andb_true_iff, bool_decide_eq_true, Nat.ltb_lt. intros [[Ht Hlen] Hlast].
  split_and!; [done|done|]. rewrite Ht. unfold split_path. rewrite join_lines; [done|done|].
  destruct (last (fkey k)) as [c|]; [|done]. intros ->. by rewrite Ascii.eqb_refl in Hlast.
Qed.

(** The loop on two token lists of the same length. *)
Fixpoint tokens_le (a b : list text) : bool :=
  match a, b with
  | x :: a', y :: b' => if klt y x then false else if klt x y then true else tokens_le a' b'
  | _, _ => true
  end.

Lemma lt_loop_spec fuel : ∀ i a b,
  length a = length b → (0 <= i)%Z → (Z.of_nat (length a) < 256)%Z → (Z.of_nat (length a) <= i + Z.of_nat fuel)%Z →
  lt_loop fuel i a b = Some (tokens_le (drop (Z.to_nat i) a) (drop (Z.to_nat i) b)).
Proof.
  induction fuel as [|fuel IH]; intros i a b Hlen Hi Hmax Hfuel; cbn [lt_loop].
  { destruct (Z.ltb_spec i (Z.of_nat (length a))); [lia|]. by rewrite !drop_ge by lia. }
  destruct (Z.ltb_spec i (Z.of_nat (length a))) as [Hlt|Hge]; [|by rewrite !drop_ge by lia].
  destruct (lookup_lt_is_Some_2 a (Z.to_nat i)) as [x Hx]; [lia|].
  destruct (lookup_lt_is_Some_2 b (Z.to_nat i)) as [y Hy]; [lia|].
  rewrite (drop_S a x (Z.to_nat i) Hx), (drop_S b y (Z.to_nat i) Hy). cbn [tokens_le].
  assert (nth (Z.to_nat i) a [] = x) as -> by by rewrite nth_lookup, Hx.
  assert (nth (Z.to_nat i) b [] = y) as -> by by rewrite nth_lookup, Hy.
  destruct (klt y x); [done|]. destruct (klt x y); [done|].
  rewrite Z.mod_small by lia. rewrite IH by lia. replace (Z.to_nat (i + 1)) with (S (Z.to_nat i)) by lia. done.
Qed.

Lemma tokens_le_lex a b : length a = length b → a ≠ b → tokens_le a b = lex_lt a b.
Proof.
  revert b. induction a as [|x a IH]; intros [|y b] Hlen Hne; cbn [tokens_le lex_lt]; try done.
  cbn in Hlen. destruct (klt_cases x y) as [(Hxy & Hyx & Hq)|[(-> & Hxy & Hyx & Hq)|(Hyx & Hxy & Hq)]]; rewrite ?Hxy, ?Hyx, ?Hq; cbn [andb orb].
  - done.
  - apply IH; [lia|congruence].
  - done.
Qed.

(** The order by depth and tokens. *)
Definition path_lt (a b : list text) : bool :=
  (length a <? length b)%nat || ((length a =? length b)%nat && lex_lt a b).

Lemma clean_lt a b :
  clean a = true → clean b = true → fkey_lt a b = Some (path_lt (tokens a) (tokens b)).
Proof.
  intros (Ha & Hla & Hja)%clean_spec (Hb & Hlb & Hjb)%clean_spec. unfold fkey_lt, path_lt.
  destruct (keq (fkey a) (fkey b)) eqn:E.
  - apply keq_eq in E. assert (tokens a = tokens b) as -> by congruence.
    by rewrite Nat.ltb_irrefl, lex_irrefl, andb_false_r.
  - apply keq_ne in E. destruct (Nat.ltb_spec (length (tokens a)) (length (tokens b))) as [|Hge]; [done|].
    destruct (Nat.ltb_spec (length (tokens b)) (length (tokens a))) as [|Hge'].
    + destruct (Nat.eqb_spec (length (tokens a)) (length (tokens b))); [lia|done].
    + assert (length (tokens a) = length (tokens b)) as Hlen by lia. rewrite (proj2 (Nat.eqb_eq _ _) Hlen).
      rewrite (lt_loop_spec 256 0 (tokens a) (tokens b) Hlen) by lia. f_equal.
      apply (tokens_le_lex (tokens a) (tokens b) Hlen). intros Heq. apply E. rewrite <- Hja, <- Hjb. by f_equal.
Qed.

Lemma path_irrefl a : path_lt a a = false.
Proof. unfold path_lt. by rewrite Nat.ltb_irrefl, lex_irrefl, andb_false_r. Qed.

Lemma path_lt_spec a b :
  path_lt a b = true ↔ length a < length b ∨ (length a = length b ∧ lex_lt a b = true).
Proof. unfold path_lt. by rewrite orb_true_iff, andb_true_iff, Nat.ltb_lt, Nat.eqb_eq. Qed.

Lemma path_trans a b c : path_lt a b = true → path_lt b c = true → path_lt a c = true.
Proof.
  rewrite !path_lt_spec. intros [?|[? ?]] [?|[? ?]]; [left; lia..|right]. split; [lia|]. by eapply lex_trans.
Qed.

Lemma path_total a b : a = b ∨ path_lt a b = true ∨ path_lt b a = true.
Proof.
  rewrite !path_lt_spec. destruct (Nat.lt_trichotomy (length a) (length b)) as [|[Hlen|]]; [by auto| |by auto].
  destruct (lex_lt a b) eqn:E; [by auto|]. destruct (lex_lt b a) eqn:E'; [by auto|]. left. by apply lex_total.
Qed.

Lemma clean_inj a b : clean a = true → clean b = true → fkey a = fkey b → a = b.
Proof.
  intros (Ha & _ & _)%clean_spec (Hb & _ & _)%clean_spec Heq. destruct a as [ka ta], b as [kb tb]. cbn in *. congruence.
Qed.

Lemma clean_tokens_inj a b : clean a = true → clean b = true → tokens a = tokens b → a = b.
Proof.
  intros Ha Hb Heq. apply clean_inj; [done..|]. destruct (clean_spec a Ha) as (_ & _ & <-), (clean_spec b Hb) as (_ & _ & <-). by rewrite Heq.
Qed.

(** C34: on keys made by the constructor from paths of fewer than 256 tokens that do not end in a slash,
    [operator<] ends and is a strict total order, and [operator>] is its converse: what
    [std::map] and the tree need of it. *)
Theorem clean_keys_ordered a b c :
  clean a = true → clean b = true → clean c = true →
  fkey_lt a a = Some false ∧
  (fkey_lt a b = Some true → fkey_lt b c = Some true → fkey_lt a c = Some true) ∧
  (a = b ∨ fkey_lt a b = Some true ∨ fkey_lt b a = Some true) ∧ fkey_gt a b = fkey_lt b a.
Proof.
  intros Ha Hb Hc. rewrite !clean_lt by done. split_and!.
  - by rewrite path_irrefl.
  - intros [= Hab] [= Hbc]. f_equal. by eapply path_trans.
  - destruct (path_total (tokens a) (tokens b)) as [Heq|[->| ->]]; [left; by apply clean_tokens_inj|by auto..].
  - rewrite <- clean_lt by done. unfold fkey_gt, fkey_lt.
    destruct (keq (fkey a) (fkey b)) eqn:E.
    + apply keq_eq in E. by rewrite E, keq_refl.
    + rewrite (proj2 (keq_ne (fkey b) (fkey a))); [done|]. apply keq_ne in E. congruence.
Qed.

Lemma clean_keys_ordered_witness :
  let a := new_fkey (lit "usr/bin") in let b := new_fkey (lit "usr/lib") in let c := new_fkey (lit "etc/x/y") in
  fkey_lt a a = Some false ∧
  (fkey_lt a b = Some true → fkey_lt b c = Some true → fkey_lt a c = Some true) ∧
  (a = b ∨ fkey_lt a b = Some true ∨ fkey_lt b a = Some true) ∧ fkey_gt a b = fkey_lt b a.
Proof. apply clean_keys_ordered; by vm_compute. Defined.

(** ** Where it is not an order *)

(** Paths that differ only in a slash at the end have the same tokens, and each is less than
    the other. *)
Theorem trailing_slash_breaks_order (t : text) :
  t ≠ [] → Forall (λ c, c ≠ "/"%char) t →
  fkey_lt (new_fkey t) (new_fkey (t ++ lit "/")) = Some true ∧
  fkey_lt (new_fkey (t ++ lit "/")) (new_fkey t) = Some true.
Proof.
  intros Hne Ht.
  assert (∀ item some, (t ≠ [] ∨ some = true) → lines item some t = [item ++ t] ∧ lines item some (t ++ lit "/") = [item ++ t]) as Hl.
  { clear Hne. induction Ht as [|c t Hc Ht IH]; intros item some Hs.
    - destruct Hs as [| ->]; [done|]. cbn. by rewrite app_nil_r.
    - cbn [app lines]. rewrite (proj2 (Ascii.eqb_neq c "/") Hc).
      destruct (IH (item ++ [c]) true) as [-> ->]; [by right|]. by rewrite <- app_assoc. }
  destruct (Hl [] false) as [H1 H2]; [by left|]. unfold fkey_lt, new_fkey, split_path. cbn [fkey tokens]. rewrite H1, H2.
  assert (∀ a b : text, a ≠ b → keq a b = false) as Hk by by intros; apply keq_ne.
  assert (t ≠ t ++ lit "/") as Hd. { intros Heq. apply (f_equal length) in Heq. rewrite length_app in Heq. cbn in Heq. lia. }
  rewrite !Hk by congruence. cbn [length Nat.ltb Nat.leb app]. rewrite lt_loop_spec by (cbn; lia).
  assert (tokens_le [t] [t] = true) as Hle by (cbn [tokens_le]; by rewrite !klt_irrefl).
  split; exact (f_equal Some Hle).
Qed.

Lemma trailing_slash_breaks_order_witness :
  fkey_lt (new_fkey (lit "tmp")) (new_fkey (lit "tmp/")) = Some true ∧
  fkey_lt (new_fkey (lit "tmp/")) (new_fkey (lit "tmp")) = Some true.
Proof. apply (trailing_slash_breaks_order (lit "tmp")); [done|]. by repeat constructor. Defined.

(** C40: [_deserialize] does not restore the tokens.  A key read back from its text has none; it still compares
    equal to the original and not less, but it is less than every other key that was not read back, whatever their order was, and of any
    two different keys read back each is less than the other: no order for a [std::map]. *)
Theorem reloaded_keys_unordered (a b : text) :
  a ≠ [] → b ≠ [] → a ≠ b → Forall (λ c, is_space c = false) a → Forall (λ c, is_space c = false) b →
  uint64_ok (Z.of_nat (length a)) → uint64_ok (Z.of_nat (length b)) →
  ∃ a' b', fst <$> deserialize (serialize (new_fkey a)) = Some a' ∧ fst <$> deserialize (serialize (new_fkey b)) = Some b' ∧
    tokens a' = [] ∧ tokens b' = [] ∧ fkey_eq a' (new_fkey a) = true ∧ fkey_lt a' (new_fkey a) = Some false ∧
    fkey_lt a' b' = Some true ∧ fkey_lt b' a' = Some true ∧
    fkey_lt a' (new_fkey b) = Some true ∧ fkey_lt b' (new_fkey a) = Some true.
Proof.
  intros Ha Hb Hne Hsa Hsb Hla Hlb.
  assert (∀ x : text, x ≠ [] → Forall (λ c, is_space c = false) x → uint64_ok (Z.of_nat (length x)) →
    fst <$> deserialize (serialize (new_fkey x)) = Some (MkFKey x [])) as Hrt.
  { intros x Hx Hsp Hlen. cbn [deserialize serialize fkey_serial new_fkey fkey].
    change (lit " " ++ ?r) with (" "%char :: r). rewrite <- (app_nil_l (x ++ _)).
    rewrite read_word_print by (done || constructor). cbn [mbind option_bind].
    destruct (serial_ok (A := text) [" "%char] x []) as (w & Hw & Hd); [by repeat constructor|done|].
    rewrite app_nil_r in Hd. cbn [app] in Hd. change (" "%char :: serialize_string x) with (" "%char :: serialize x).
    by rewrite Hd. }
  assert (∀ x : text, x ≠ [] → 0 < length (tokens (new_fkey x))) as Htok.
  { intros x Hx. pose proof (lines_nonempty [] false x (or_introl Hx)) as Hl. cbn. unfold split_path.
    destruct (lines [] false x); [done|cbn; lia]. }
  assert (keq a b = false ∧ keq b a = false) as [Hab Hba] by (split; apply keq_ne; congruence).
  exists (MkFKey a []), (MkFKey b []). unfold fkey_eq, fkey_lt. cbn [fkey new_fkey]. rewrite Hab, Hba, keq_refl.
  pose proof (Htok a Ha) as Hta%Nat.ltb_lt. pose proof (Htok b Hb) as Htb%Nat.ltb_lt.
  change (length (tokens (MkFKey _ []))) with 0. rewrite Hta, Htb. split_and!; auto.
Qed.

Lemma reloaded_keys_unordered_witness :
  ∃ a' b', fst <$> deserialize (serialize (new_fkey (lit "1"))) = Some a' ∧ fst <$> deserialize (serialize (new_fkey (lit "2"))) = Some b' ∧
    tokens a' = [] ∧ tokens b' = [] ∧ fkey_eq a' (new_fkey (lit "1")) = true ∧ fkey_lt a' (new_fkey (lit "1")) = Some false ∧
    fkey_lt a' b' = Some true ∧ fkey_lt b' a' = Some true ∧
    fkey_lt a' (new_fkey (lit "2")) = Some true ∧ fkey_lt b' (new_fkey (lit "1")) = Some true.
Proof. apply (reloaded_keys_unordered (lit "1") (lit "2")); [done|done|done|by repeat constructor..|by vm_compute|by vm_compute]. Defined.

(** The counter of the loop is too narrow: for paths of the same depth, at least 256, whose first 256
    tokens agree, the loop of [operator<] does not end, however long it runs. *)
Theorem deep_paths_never_compare fuel (a b : list text) :
  256 ≤ length a → (∀ i, i < 256 → nth i a [] = nth i b []) → lt_loop fuel 0 a b = None.
Proof.
  intros Hlen Heq. assert (∀ i, (0 <= i < 256)%Z → lt_loop fuel i a b = None) as Hall; [|by apply Hall].
  induction fuel as [|fuel IH]; intros i Hi; cbn [lt_loop];
    (destruct (Z.ltb_spec i (Z.of_nat (length a))); [|lia]); [done|].
  rewrite Heq by lia. rewrite klt_irrefl. apply IH. apply Z.mod_pos_bound. lia.
Qed.

Lemma deep_paths_never_compare_witness :
  lt_loop 1000 0 (repeat (lit "d") 256 ++ [lit "x"]) (repeat (lit "d") 256 ++ [lit "y"]) = None.
Proof.
  apply deep_paths_never_compare; [rewrite length_app, repeat_length; lia|].
  intros i Hi. by rewrite !app_nth1 by (rewrite repeat_length; lia).
Defined.
