(* ===== verification/Config.v ===== *)
(** * Server addresses and the configuration file (network/configuration.{hpp,cpp})

    A configuration is read from a file of lines [server host:port].  The positions that
    [std::string] returns are kept in [unsigned int] variables, as in the source. *)
From Stdlib Require Import ZArith Lia Ascii String.
From stdpp Require Import prelude.
From S2P Require Import Prelude StdMap Serialize FKey.

#[local] Open Scope Z_scope.

(** ** std::string *)
Definition npos : Z := UINT64_MAX.

Fixpoint find_from (f : ascii → bool) (s : text) (i : Z) : Z :=
  match s with
  | [] => npos
  | c :: s' => if f c then i else find_from f s' (i + 1)
  end.
(** [find_first_of], [find_first_not_of] from a position. *)
Definition find_if (f : ascii → bool) (s : text) (pos : Z) : Z :=
  if pos <? Z.of_nat (length s) then find_from f (drop (Z.to_nat pos) s) pos else npos.

(** [None]: the [std::out_of_range] of a position after the end. *)
Definition substr (s : text) (pos n : Z) : option text :=
  if Z.of_nat (length s) <? pos then None
  else Some (take (Z.to_nat (Z.min n (Z.of_nat (length s) - pos))) (drop (Z.to_nat pos) s)).

Definition nul : ascii := Ascii.zero.
(** [c_str()] ends at the first null character. *)
Fixpoint c_str (s : text) : text :=
  match s with
  | [] => []
  | c :: s' => if Ascii.eqb c Ascii.zero then [] else c :: c_str s'
  end.
Definition tolower (c : ascii) : ascii :=
  let n := N_of_ascii c in if (65 <=? n)%N && (n <=? 90)%N then ascii_of_N (n + 32) else c.
Definition strcasecmp_eq (a b : text) : bool := lex_eq (tolower <$> c_str a) (tolower <$> c_str b).

Definition is_blank (c : ascii) : bool := Ascii.eqb c " " || Ascii.eqb c "009".
Definition is_colon (c : ascii) : bool := Ascii.eqb c ":".

(** The lines that [getline] reads until [eof()]. *)
Fixpoint file_lines (s : text) : list text :=
  match s with
  | [] => [[]]
  | c :: s' =>
      if Ascii.eqb c "010" then [] :: file_lines s'
      else match file_lines s' with
           | [] => [[c]]
           | l :: ls => (c :: l) :: ls
           end
  end.

(** ** Addresses *)
Record ServerAddress := MkAddress { host : text; port : text }.

Definition address_eqb (a b : ServerAddress) : bool := keq (host a) (host b) && keq (port a) (port b).
Definition address_neb (a b : ServerAddress) : bool := negb (address_eqb a b).
(** [forward_as_tuple(host, port) < ...] *)
Definition address_ltb (a b : ServerAddress) : bool :=
  klt (host a) (host b) || (negb (klt (host b) (host a)) && klt (port a) (port b)).
Definition address_leb (a b : ServerAddress) : bool := address_ltb a b || address_eqb a b.
Definition address_gtb (a b : ServerAddress) : bool := negb (address_leb a b).
Definition address_geb (a b : ServerAddress) : bool := negb (address_ltb a b).

#[global] Instance address_key : KeyOps ServerAddress := { klt := address_ltb; keq := address_eqb }.

(** ** Configurations *)
Record Configuration := MkConfiguration {
  n : Z;
  servers : list ServerAddress;
  multicastAddress : option ServerAddress;     (* [None]: no address that may be read *)
  hasMulticast : bool;
}.

(** The copy constructor; [None]: a null pointer is read. *)
Definition copy_configuration (c : Configuration) : option Configuration :=
  if hasMulticast c then
    a ← multicastAddress c;
    Some (MkConfiguration (n c) (servers c) (Some a) (hasMulticast c))
  else Some (MkConfiguration (n c) (servers c) None (hasMulticast c)).

Definition new_configuration (n : Z) (servers : list ServerAddress) (multicast : option ServerAddress) : Configuration :=
  match multicast with
  | Some a => MkConfiguration n servers (Some a) true
  | None => MkConfiguration n servers None false
  end.

(** ** Reading a file *)
Inductive parse_error :=
  | no_argument            (* Panic: 'server' configuration line requires an argument *)
  | no_colon               (* Panic: Configuration line format: 'server host:port' *)
  | unknown_directive (cmd : text)
  | no_servers
  | out_of_range.          (* the exception of substr *)

Definition is_server (cmd : text) : bool := strcasecmp_eq cmd (lit "server").

(** One line: the servers it adds. *)
Definition parse_line (line : text) : parse_error + list ServerAddress :=
  if match line with [] => true | c :: _ => Ascii.eqb c "#" end then inr [] else
  let t1 := wrap32 (find_if is_blank line 0) in
  match substr line 0 t1 with
  | None => inl out_of_range
  | Some cmd =>
      if is_server cmd then
        let t2 := wrap32 (find_if (λ c, negb (is_blank c)) line t1) in
        if t2 =? npos then inl no_argument else
        let t3 := wrap32 (find_if is_colon line t2) in
        if t3 =? npos then inl no_colon else
        match substr line t2 (wrap32 (t3 - t2)), substr line (wrap32 (t3 + 1)) npos with
        | Some h, Some p => inr [MkAddress h p]
        | _, _ => inl out_of_range
        end
      else inl (unknown_directive cmd)
  end.

Fixpoint parse_lines (acc : list ServerAddress) (ls : list text) : parse_error + list ServerAddress :=
  match ls with
  | [] => inr acc
  | l :: ls' =>
      match parse_line l with
      | inl e => inl e
      | inr a => parse_lines (acc ++ a) ls'
      end
  end.

Definition read_configuration (file : text) : parse_error + Configuration :=
  match parse_lines [] (file_lines file) with
  | inl e => inl e
  | inr servers =>
      let n := to_int (Z.of_nat (length servers)) in
      if n =? 0 then inl no_servers else inr (MkConfiguration n servers None false)
  end.

(** ** Access *)
Definition GetServerAddress (c : Configuration) (idx : Z) : option ServerAddress :=
  if idx <? 0 then None else servers c !! Z.to_nat idx.
Definition multicast (c : Configuration) : option ServerAddress :=
  if hasMulticast c then multicastAddress c else None.

(** ** Comparison; [None]: a null pointer is read *)
Definition configuration_eqb (c d : Configuration) : option bool :=
  if negb (n c =? n d) || negb (lex_eq (servers c) (servers d)) || negb (Bool.eqb (hasMulticast c) (hasMulticast d))
  then Some false
  else if hasMulticast c then
    a ← multicastAddress c; b ← multicastAddress d;
    Some (negb (address_neb a b))
  else Some true.

(** [this_t < other_t], [this_t == other_t] on (n, servers, hasMulticast) *)
Definition tuple_ltb (c d : Configuration) : bool :=
  (n c <? n d) || (negb (n d <? n c) &&
    (lex_lt (servers c) (servers d) || (negb (lex_lt (servers d) (servers c)) &&
      (negb (hasMulticast c) && hasMulticast d)))).
Definition tuple_eqb (c d : Configuration) : bool :=
  (n c =? n d) && lex_eq (servers c) (servers d) && Bool.eqb (hasMulticast c) (hasMulticast d).

Definition configuration_ltb (c d : Configuration) : option bool :=
  if tuple_ltb c d then Some true
  else if tuple_eqb c d then
    if hasMulticast c then
      a ← multicastAddress c; b ← multicastAddress d;
      Some (address_ltb a b)
    else Some false
  else Some false.
Definition configuration_neb (c d : Configuration) : option bool := negb <$> configuration_eqb c d.
Definition configuration_leb (c d : Configuration) : option bool :=
  match configuration_ltb c d with
  | None => None
  | Some true => Some true
  | Some false => configuration_eqb c d
  end.
Definition configuration_gtb (c d : Configuration) : option bool := negb <$> configuration_leb c d.
Definition configuration_geb (c d : Configuration) : option bool := negb <$> configuration_ltb c d.

(** ** Hashes *)
Section hash.
(** [std::hash<std::string>] *)
Variable string_hash : text → Z.

Definition address_hash (a : ServerAddress) : Z := wrap64 (wrap64 (string_hash (host a) * 37) + string_hash (port a)).

Fixpoint hash_loop (c : Configuration) (i : Z) (steps : nat) (out : Z) : option Z :=
  match steps with
  | O => Some out
  | S steps' =>
      a ← GetServerAddress c i;
      hash_loop c (i + 1) steps' (wrap64 (wrap64 (out * 37) + address_hash a))
  end.
(** [x.n * 37] is computed in [int]; [None]: it overflows or a server is missing. *)
Definition configuration_hash (c : Configuration) : option Z :=
  if in_int (n c * 37) then hash_loop c 0 (Z.to_nat (n c)) (wrap64 (n c * 37)) else None.
End hash.
