(* ===== verification/ConfigProof.v ===== *)
(** * Configurations are read as they are written, and ordered

    The grammar of configuration files and that reading a file of it gives its
    servers; what happens to lines outside it; the comparisons and hashes. *)
From Stdlib Require Import ZArith Lia Ascii String.
From stdpp Require Import prelude.
From S2P Require Import Prelude StdMap Serialize FKey Config.

#[local] Open Scope Z_scope.

(** ** Searching *)
Lemma find_from_at f a c b i : Forall (λ x, f x = false) a → f c = true → find_from f (a ++ c :: b) i = i + Z.of_nat (length a).
Proof.
  intros Ha Hc. revert i. induction Ha as [|x a Hx Ha IH]; intros i; cbn [app find_from].
  - rewrite Hc. cbn. lia.
  - rewrite Hx, IH. cbn [length]. lia.
Qed.

Lemma find_from_none f a i : Forall (λ x, f x = false) a → find_from f a i = npos.
Proof. intros Ha. revert i. induction Ha as [|x a Hx Ha IH]; intros i; cbn; [done|]. by rewrite Hx. Qed.

(** The text up to a position is skipped. *)
Lemma find_if_at f p a c b : Forall (λ x, f x = false) a → f c = true →
  find_if f (p ++ a ++ c :: b) (Z.of_nat (length p)) = Z.of_nat (length p + length a).
Proof.
  intros Ha Hc. unfold find_if. rewrite !length_app. cbn [length]. destruct (Z.ltb_spec (Z.of_nat (length p)) (Z.of_nat (length p + (length a + S (length b))))); [|lia].
  rewrite Nat2Z.id, drop_app_length, find_from_at by done. lia.
Qed.

Lemma find_if_none f p a : Forall (λ x, f x = false) a → find_if f (p ++ a) (Z.of_nat (length p)) = npos.
Proof.
  intros Ha. unfold find_if. destruct (Z.ltb_spec (Z.of_nat (length p)) (Z.of_nat (length (p ++ a)))); [|done].
  rewrite Nat2Z.id, drop_app_length. by apply find_from_none.
Qed.

Lemma wrap32_small z : 0 <= z < 2 ^ 32 → wrap32 z = z.
Proof. apply Z.mod_small. Qed.

(** A position kept in an [unsigned int] never equals [npos]. *)
Lemma wrap32_not_npos z : (wrap32 z =? npos) = false.
Proof. apply Z.eqb_neq. unfold wrap32, npos, UINT64_MAX. pose proof (Z.mod_pos_bound z (2 ^ 32)). lia. Qed.

Lemma wrap32_npos : wrap32 npos = 2 ^ 32 - 1.
Proof. done. Qed.

Lemma substr_middle (p m q : text) : substr (p ++ m ++ q) (Z.of_nat (length p)) (Z.of_nat (length m)) = Some m.
Proof.
  unfold substr. rewrite !length_app. destruct (Z.ltb_spec (Z.of_nat (length p + (length m + length q))) (Z.of_nat (length p))); [lia|].
  rewrite Nat2Z.id, drop_app_length, Z.min_l, Nat2Z.id by lia. by rewrite take_app_length.
Qed.

Lemma substr_start (m q : text) : substr (m ++ q) 0 (Z.of_nat (length m)) = Some m.
Proof. exact (substr_middle [] m q). Qed.

Lemma substr_rest (p q : text) k : Z.of_nat (length q) <= k → substr (p ++ q) (Z.of_nat (length p)) k = Some q.
Proof.
  intros Hk. unfold substr. rewrite length_app. destruct (Z.ltb_spec (Z.of_nat (length p + length q)) (Z.of_nat (length p))); [lia|].
  rewrite Nat2Z.id, drop_app_length, Z.min_r by lia.
  rewrite take_ge; [done|]. lia.
Qed.

(** ** The grammar *)
Definition no_eol (t : text) : Prop := Forall (λ c, c ≠ "010"%char) t.

Record server_line := MkLine { keyword : text; blanks : text; at_host : text; at_port : text }.
Inductive item :=
  | Blank
  | Comment (t : text)
  | Server (l : server_line).

Definition line_text (l : server_line) : text := keyword l ++ blanks l ++ at_host l ++ lit ":" ++ at_port l.
Definition item_text (i : item) : text :=
  match i with
  | Blank => []
  | Comment t => "#"%char :: t
  | Server l => line_text l
  end.
Definition item_servers (i : item) : list ServerAddress :=
  match i with Server l => [MkAddress (at_host l) (at_port l)] | _ => [] end.

(** The keyword in any mixture of cases, at least one blank, a host without a colon. *)
Definition line_ok (l : server_line) : Prop :=
  tolower <$> keyword l = lit "server" ∧
  blanks l ≠ [] ∧ Forall (λ c, is_blank c = true) (blanks l) ∧
  Forall (λ c, is_colon c = false) (at_host l) ∧ (∀ c, head (at_host l) = Some c → is_blank c = false) ∧
  no_eol (at_host l) ∧ no_eol (at_port l) ∧ Z.of_nat (length (line_text l)) < 2 ^ 32 - 1.
Definition item_ok (i : item) : Prop :=
  match i with Blank => True | Comment t => no_eol t | Server l => line_ok l end.

Definition file_text (is' : list item) : text := flat_map (λ i, item_text i ++ ["010"%char]) is'.

(** ** Lines *)
Lemma file_lines_app (l s : text) : no_eol l → file_lines (l ++ "010"%char :: s) = l :: file_lines s.
Proof.
  induction 1 as [|c l Hc Hl IH]; cbn [app file_lines]; [done|].
  apply Ascii.eqb_neq in Hc. by rewrite Hc, IH.
Qed.

Lemma keyword_char c : tolower c ∈ lit "server" → is_blank c = false ∧ c ≠ "010"%char ∧ Ascii.eqb c Ascii.zero = false ∧ c ≠ "#"%char.
Proof.
  intros Hin. destruct (is_blank c) eqn:Hb.
  { unfold is_blank in Hb. apply orb_true_iff in Hb as [->%Ascii.eqb_eq| ->%Ascii.eqb_eq]; vm_compute in Hin; set_solver. }
  split; [done|]. split_and!; [|apply Ascii.eqb_neq|]; intros ->; vm_compute in Hin; set_solver.
Qed.

Lemma keyword_chars t : tolower <$> t = lit "server" →
  Forall (λ c, is_blank c = false ∧ c ≠ "010"%char ∧ Ascii.eqb c Ascii.zero = false ∧ c ≠ "#"%char) t.
Proof. intros Ht. apply Forall_forall. intros c Hc. apply keyword_char. rewrite <- Ht. by apply list_elem_of_fmap_2. Qed.

Lemma c_str_id t : Forall (λ c, Ascii.eqb c Ascii.zero = false) t → c_str t = t.
Proof. induction 1 as [|c t Hc Ht IH]; cbn; [done|]. by rewrite Hc, IH. Qed.

Lemma keyword_is_server t : tolower <$> t = lit "server" → is_server t = true.
Proof.
  intros Ht. unfold is_server, strcasecmp_eq. apply lex_eq_spec.
  rewrite c_str_id; [rewrite Ht; done|]. eapply Forall_impl; [by apply keyword_chars|]. naive_solver.
Qed.

Lemma blanks_no_eol t : Forall (λ c, is_blank c = true) t → no_eol t.
Proof. intros Ht. eapply Forall_impl; [done|]. intros c Hc ->. done. Qed.

Lemma item_no_eol i : item_ok i → no_eol (item_text i).
Proof.
  destruct i as [|t|l]; cbn; [constructor|by constructor|]. intros (Hk & _ & Hb & _ & _ & Hh & Hp & _).
  unfold line_text. apply Forall_app. split; [eapply Forall_impl; [by apply keyword_chars|naive_solver]|].
  apply Forall_app. split; [by apply blanks_no_eol|]. apply Forall_app. split; [done|]. by constructor.
Qed.

Lemma file_lines_text is' : Forall item_ok is' → file_lines (file_text is') = (item_text <$> is') ++ [[]].
Proof.
  induction 1 as [|i is' Hi His IH]; cbn [file_text flat_map]; [done|].
  rewrite <- app_assoc. cbn [app]. rewrite file_lines_app by by apply item_no_eol. cbn. f_equal. exact IH.
Qed.

(** ** One line *)
Section line.
Context (k b : text).
Hypothesis Hk : tolower <$> k = lit "server".
Hypothesis Hb : b ≠ [].
Hypothesis Hblank : Forall (λ c, is_blank c = true) b.

Lemma keyword_not_blank : Forall (λ c, is_blank c = false) k.
Proof. eapply Forall_impl; [by apply keyword_chars|]. naive_solver. Qed.

(** The first characters of a [server] line are not those of a comment, and its directive is found. *)
Lemma server_line_starts r : match k ++ b ++ r with [] => true | c :: _ => Ascii.eqb c "#" end = false.
Proof.
  pose proof (keyword_chars k Hk) as Hc. destruct k as [|c k']; [done|]. cbn. apply Ascii.eqb_neq.
  apply Forall_cons_1 in Hc as [Hc _]. naive_solver.
Qed.

Lemma directive_end r : find_if is_blank (k ++ b ++ r) 0 = Z.of_nat (length k).
Proof.
  destruct b as [|c b']; [done|]. apply Forall_cons_1 in Hblank as [Hc _].
  exact (find_if_at is_blank [] k c (b' ++ r) keyword_not_blank Hc).
Qed.

Lemma argument_start c r : is_blank c = false →
  find_if (λ c, negb (is_blank c)) (k ++ b ++ c :: r) (Z.of_nat (length k)) = Z.of_nat (length k + length b).
Proof.
  intros Hc. apply find_if_at; [|by rewrite Hc]. eapply Forall_impl; [done|]. intros x Hx. cbn. by rewrite Hx.
Qed.

(** What [parse_line] does from the second blank on. *)
Lemma parse_server_line c r : is_blank c = false → Z.of_nat (length k + length b) < 2 ^ 32 →
  parse_line (k ++ b ++ c :: r) =
  let t2 := Z.of_nat (length k + length b) in
  let t3 := wrap32 (find_if is_colon (k ++ b ++ c :: r) t2) in
  match substr (k ++ b ++ c :: r) t2 (wrap32 (t3 - t2)), substr (k ++ b ++ c :: r) (wrap32 (t3 + 1)) npos with
  | Some h, Some p => inr [MkAddress h p]
  | _, _ => inl out_of_range
  end.
Proof.
  intros Hc Hlen. unfold parse_line. rewrite server_line_starts, directive_end, (wrap32_small (Z.of_nat (length k))) by lia.
  rewrite (substr_start k (b ++ c :: r)).
  rewrite keyword_is_server by done. rewrite !wrap32_not_npos, argument_start by done. by rewrite (wrap32_small (Z.of_nat (length k + length b))) by lia.
Qed.

(** No argument: the search for one gives an [npos] that the comparison does not recognise. *)
Lemma parse_no_argument : Z.of_nat (length k + length b) < 2 ^ 32 - 1 → parse_line (k ++ b) = inl out_of_range.
Proof.
  intros Hlen. unfold parse_line. replace (k ++ b) with (k ++ b ++ []) by (by rewrite app_nil_r).
  rewrite server_line_starts, directive_end, (wrap32_small (Z.of_nat (length k))) by lia.
  rewrite (substr_start k (b ++ [])), keyword_is_server, app_nil_r by done.
  rewrite find_if_none by (eapply Forall_impl; [done|]; intros x Hx; cbn; by rewrite Hx).
  rewrite !wrap32_not_npos, wrap32_npos. unfold substr at 1. rewrite length_app.
  destruct (Z.ltb_spec (Z.of_nat (length k + length b)) (2 ^ 32 - 1)); [done|lia].
Qed.
End line.

Lemma parse_line_ok l : line_ok l → parse_line (line_text l) = inr [MkAddress (at_host l) (at_port l)].
Proof.
  destruct l as [k b h p]. intros (Hk & Hb & Hblank & Hcolon & Hhead & _ & _ & Hlen). unfold line_text in *. cbn in *.
  rewrite !length_app in Hlen. cbn [length] in Hlen.
  assert (∃ c r, h ++ ":"%char :: p = c :: r ∧ is_blank c = false) as (c & r & Hr & Hc).
  { destruct h as [|c h']; [by exists ":"%char, p|]. exists c, (h' ++ ":"%char :: p). split; [done|]. by apply Hhead. }
  rewrite Hr. rewrite parse_server_line by (done || lia). rewrite <- Hr. cbn zeta.
  rewrite (app_assoc k b (h ++ _)), <- (length_app k b), find_if_at by done. rewrite length_app.
  rewrite (wrap32_small (Z.of_nat _)), (wrap32_small (_ - _)), (wrap32_small (_ + 1)) by lia.
  replace (Z.of_nat (length k + length b + length h) - Z.of_nat (length k + length b)) with (Z.of_nat (length h)) by lia.
  rewrite <- (length_app k b), substr_middle.
  replace (Z.of_nat (length (k ++ b) + length h) + 1) with (Z.of_nat (length ((k ++ b) ++ h ++ lit ":"))) by (rewrite !length_app; cbn; lia).
  replace ((k ++ b) ++ h ++ ":"%char :: p) with (((k ++ b) ++ h ++ lit ":") ++ p) by (by rewrite <- !app_assoc).
  rewrite substr_rest; [done|]. unfold npos, UINT64_MAX. lia.
Qed.

Lemma parse_item i : item_ok i → parse_line (item_text i) = inr (item_servers i).
Proof. destruct i; [done|done|]. apply parse_line_ok. Qed.

Lemma parse_items acc is' : Forall item_ok is' →
  parse_lines acc ((item_text <$> is') ++ [[]]) = inr (acc ++ flat_map item_servers is').
Proof.
  intros His. revert acc. induction His as [|i is' Hi His IH]; intros acc; cbn; [done|].
  rewrite parse_item by done. by rewrite IH, app_assoc.
Qed.

Lemma read_items (is' : list item) :
  Forall item_ok is' → 0 < Z.of_nat (length (flat_map item_servers is')) < 2 ^ 31 →
  read_configuration (file_text is') =
  inr (MkConfiguration (Z.of_nat (length (flat_map item_servers is'))) (flat_map item_servers is') None false).
Proof.
  intros His Hlen. unfold read_configuration. rewrite file_lines_text, parse_items by done. cbn [app].
  assert (to_int (Z.of_nat (length (flat_map item_servers is'))) = Z.of_nat (length (flat_map item_servers is'))) as ->.
  { unfold to_int. rewrite Z.mod_small by lia. case_match; lia. }
  destruct (Z.eqb_spec (Z.of_nat (length (flat_map item_servers is'))) 0); [lia|done].
Qed.

(** C32: a file made of empty lines, comments and lines "server host:port" (in any case, with any blanks after
    the keyword) is read as exactly its servers, in order. *)
Theorem configuration_roundtrip (is' : list item) :
  Forall item_ok is' → 0 < Z.of_nat (length (flat_map item_servers is')) < 2 ^ 31 →
  read_configuration (file_text is') =
  inr (MkConfiguration (Z.of_nat (length (flat_map item_servers is'))) (flat_map item_servers is') None false).
Proof. apply read_items. Qed.

(** ** Lines outside the grammar *)
Lemma parse_line_errors line e : parse_line line = inl e → e ≠ no_argument ∧ e ≠ no_colon.
Proof. unfold parse_line. rewrite !wrap32_not_npos. intros H. repeat case_match; naive_solver. Qed.

Lemma parse_lines_errors acc ls e : parse_lines acc ls = inl e → e ≠ no_argument ∧ e ≠ no_colon.
Proof.
  revert acc. induction ls as [|l ls IH]; intros acc; cbn; [done|].
  destruct (parse_line l) eqn:Hl; [|apply IH]. intros [= ->]. by eapply parse_line_errors.
Qed.

(** The two checks for a missing argument and a missing colon never fire, whatever the file: they compare an
    [unsigned int] with [npos], which it cannot hold. *)
Theorem argument_checks_dead (file : text) :
  read_configuration file ≠ inl no_argument ∧ read_configuration file ≠ inl no_colon.
Proof.
  unfold read_configuration. destruct (parse_lines [] (file_lines file)) as [e|s] eqn:Hp.
  - apply parse_lines_errors in Hp. naive_solver.
  - case_match; naive_solver.
Qed.

(** A [server] line without a colon is accepted: the host is its argument and the port is the whole line.  One
    without an argument ends in the exception of [substr]. *)
Theorem malformed_server_lines (k b h : text) :
  tolower <$> k = lit "server" → b ≠ [] → Forall (λ c, is_blank c = true) b →
  (∀ c, head h = Some c → is_blank c = false) → Forall (λ c, is_colon c = false) (k ++ b ++ h) →
  Z.of_nat (length (k ++ b ++ h)) < 2 ^ 32 - 1 →
  parse_line (k ++ b ++ h) = if decide (h = []) then inl out_of_range else inr [MkAddress h (k ++ b ++ h)].
Proof.
  intros Hk Hb Hblank Hhead Hcolon Hlen. rewrite !length_app in Hlen. case_decide as Hh.
  - rewrite Hh, app_nil_r in *. apply parse_no_argument; try done. cbn in Hlen. lia.
  - destruct h as [|c r]; [done|]. rewrite parse_server_line by (try apply Hhead; done || lia). cbn zeta.
    rewrite <- (length_app k b), (app_assoc k b (c :: r)), find_if_none, wrap32_npos.
    2:{ rewrite !Forall_app in Hcolon. apply Hcolon. }
    change (wrap32 (2 ^ 32 - 1 + 1)) with 0. rewrite (wrap32_small (_ - _)) by (rewrite length_app; lia).
    rewrite substr_rest by (rewrite length_app; lia).
    rewrite (substr_rest [] ((k ++ b) ++ c :: r)); [done|]. unfold npos, UINT64_MAX. rewrite !length_app. lia.
Qed.

(** ** Comparisons *)
Section tuple.
Context {A B : Type} `{KeyOrder A} `{KeyOrder B}.

(** [operator<] of a tuple. *)
#[local] Instance pair_key : KeyOps (A * B) := {
  klt p q := klt p.1 q.1 || (negb (klt q.1 p.1) && klt p.2 q.2);
  keq p q := keq p.1 q.1 && keq p.2 q.2;
}.

Lemma pair_lt p q : klt p q = true ↔ klt p.1 q.1 = true ∨ (p.1 = q.1 ∧ klt p.2 q.2 = true).
Proof.
  cbn [klt pair_key]. rewrite orb_true_iff, andb_true_iff, negb_true_iff. split; [|intros [?|[-> ?]]; rewrite ?klt_irrefl; tauto].
  intros [?|[Hqp Hlt]]; [by left|]. destruct (klt p.1 q.1) eqn:Hpq; [by left|right]. split; [by apply klt_total|done].
Qed.

Lemma pair_order : KeyOrder (A * B).
Proof.
  split.
  - intros p. apply not_true_is_false. rewrite pair_lt, !klt_irrefl. naive_solver.
  - intros p q r. rewrite !pair_lt. intros [Hpq|[Hpq Hpq']] [Hqr|[Hqr Hqr']].
    + left. by eapply klt_trans.
    + left. by rewrite <- Hqr.
    + left. by rewrite Hpq.
    + right. split; [congruence|by eapply klt_trans].
  - intros [a b] [c d] Hpq Hqp. rewrite <- not_true_iff_false, pair_lt in Hpq, Hqp. cbn [fst snd] in *.
    assert (a = c) as -> by (apply klt_total; apply not_true_is_false; naive_solver).
    f_equal. apply klt_total; apply not_true_is_false; naive_solver.
  - intros [a b] [c d]. cbn [keq pair_key fst snd]. rewrite andb_true_iff, !keq_eq. naive_solver.
Qed.
End tuple.
#[local] Existing Instance pair_key.
#[local] Existing Instance pair_order.

#[global] Instance address_order : KeyOrder ServerAddress.
Proof.
  set (f := λ a : ServerAddress, (host a, port a)).
  assert (∀ a b, klt a b = klt (f a) (f b)) as Hf by done. assert (∀ a b, keq a b = keq (f a) (f b)) as Hg by done.
  assert (∀ a b, f a = f b → a = b) as Hinj by (intros [] [] [= -> ->]; done).
  split; [intros a|intros a b c|intros a b|intros a b]; rewrite ?Hf, ?Hg.
  - apply klt_irrefl.
  - apply klt_trans.
  - intros H1 H2. by apply Hinj, klt_total.
  - rewrite keq_eq. split; [apply Hinj|by intros ->].
Qed.

#[local] Instance addresses_key : KeyOps (list ServerAddress) := { klt := lex_lt; keq := lex_eq }.
#[local] Instance addresses_order : KeyOrder (list ServerAddress).
Proof. split; [apply lex_irrefl|apply lex_trans|apply lex_total|apply lex_eq_spec]. Qed.

(** A configuration says it has a multicast address only if it has one: what the constructors give. *)
Definition configuration_ok (c : Configuration) : Prop := hasMulticast c = true → is_Some (multicastAddress c).

(** What the comparisons look at. *)
Definition configuration_key (c : Configuration) : Z * (list ServerAddress * list ServerAddress) :=
  (n c, (servers c, option_list (multicast c))).

Lemma configuration_lt_key c d : configuration_ok c → configuration_ok d →
  configuration_ltb c d = Some (klt (configuration_key c) (configuration_key d)).
Proof.
  intros Hc Hd. unfold configuration_ltb, tuple_ltb, tuple_eqb, configuration_key, multicast, configuration_ok in *.
  cbn [klt pair_key fst snd Z_key_ops addresses_key].
  change (n c =? n d) with (keq (n c) (n d)). change Z.ltb with (klt (K := Z)). 
  change (lex_lt (A := ServerAddress)) with (klt (K := list ServerAddress)). change (lex_eq (A := ServerAddress)) with (keq (K := list ServerAddress)).
  kcases (n c) (n d); kcases (servers c) (servers d); destruct (hasMulticast c), (hasMulticast d); cbn [negb andb orb Bool.eqb]; try done.
  - destruct Hc as [a Ha], Hd as [b Hb]; [done..|]. rewrite Ha, Hb.
    change (Some (klt a b) = Some (klt a b || (keq a b && false))). by rewrite andb_false_r, orb_false_r.
  - destruct Hc as [a Ha]; [done|]. by rewrite Ha.
  - destruct Hd as [b Hb]; [done|]. by rewrite Hb.
Qed.

Lemma configuration_eq_key c d : configuration_ok c → configuration_ok d →
  configuration_eqb c d = Some (keq (configuration_key c) (configuration_key d)).
Proof.
  intros Hc Hd. unfold configuration_eqb, configuration_key, multicast, configuration_ok in *.
  cbn [keq pair_key fst snd Z_key_ops addresses_key].
  destruct (n c =? n d), (lex_eq (servers c) (servers d)); try done; cbn [negb orb andb].
  destruct (hasMulticast c), (hasMulticast d); cbn [negb orb andb Bool.eqb]; try done.
  - destruct Hc as [a Ha], Hd as [b Hb]; [done..|]. rewrite Ha, Hb.
    change (Some (negb (negb (keq a b))) = Some (keq a b && true)). by rewrite negb_involutive, andb_true_r.
  - destruct Hc as [a Ha]; [done|]. by rewrite Ha.
  - destruct Hd as [b Hb]; [done|]. by rewrite Hb.
Qed.

(** The comparisons of configurations are those of a total order that agrees with [operator==]: each of them
    reads no null pointer, exactly one of [<], [==] and [>] holds, [<] is transitive, [<=] and [>=] are its
    reflexive forms, and [==] holds exactly of configurations with the same servers and multicast address. *)
Theorem configurations_ordered c d e :
  configuration_ok c → configuration_ok d → configuration_ok e →
  ∃ lt eq gt, configuration_ltb c d = Some lt ∧ configuration_eqb c d = Some eq ∧ configuration_gtb c d = Some gt ∧
    configuration_ltb d c = Some gt ∧
    configuration_leb c d = Some (lt || eq) ∧ configuration_geb c d = Some (gt || eq) ∧
    (lt, eq, gt) ∈ [(true, false, false); (false, true, false); (false, false, true)] ∧
    (eq = true ↔ n c = n d ∧ servers c = servers d ∧ multicast c = multicast d) ∧
    (lt = true → configuration_ltb d e = Some true → configuration_ltb c e = Some true).
Proof.
  intros Hc Hd He. unfold configuration_geb, configuration_gtb, configuration_leb.
  rewrite !configuration_lt_key, configuration_eq_key by done.
  set (kc := configuration_key c). set (kd := configuration_key d). set (ke := configuration_key e).
  assert (keq kc kd = true ↔ n c = n d ∧ servers c = servers d ∧ multicast c = multicast d) as Heq.
  { rewrite keq_eq. unfold kc, kd, configuration_key. split; [|by intros (-> & -> & ->)].
    intros [= -> -> Hm]. split_and!; [done..|]. destruct (multicast c), (multicast d); naive_solver. }
  exists (klt kc kd), (keq kc kd), (klt kd kc). rewrite <- Heq. clearbody kc kd ke.
  split_and!; try done.
  - kcases kc kd; done.
  - kcases kc kd; done.
  - kcases kc kd; done.
  - kcases kc kd; set_solver.
  - intros Hlt [= Hlt']. f_equal. by eapply klt_trans.
Qed.

(** ** Hashes *)
Lemma hash_loop_ok string_hash c : ∀ steps i out, 0 <= i → i + Z.of_nat steps <= Z.of_nat (length (servers c)) →
  is_Some (hash_loop string_hash c i steps out).
Proof.
  induction steps as [|steps IH]; intros i out Hi Hle; cbn [hash_loop]; [eauto|].
  unfold GetServerAddress. destruct (Z.ltb_spec i 0); [lia|].
  destruct (lookup_lt_is_Some_2 (servers c) (Z.to_nat i)) as [a ->]; [lia|]. apply IH; lia.
Qed.

Lemma hash_loop_servers string_hash c d : servers c = servers d → ∀ steps i out,
  hash_loop string_hash c i steps out = hash_loop string_hash d i steps out.
Proof.
  intros Hs. induction steps as [|steps IH]; intros i out; cbn [hash_loop]; [done|].
  unfold GetServerAddress. rewrite Hs. destruct (if i <? 0 then None else _); [|done]. apply IH.
Qed.

(** A configuration that [operator==] finds equal to another has the same hash, and the hash is defined
    (no server is missing, no integer overflows) for a configuration read from a file of fewer than
    58 million servers. *)
Theorem equal_configurations_hash_equal string_hash c d :
  configuration_ok c → configuration_ok d → configuration_eqb c d = Some true →
  n c = Z.of_nat (length (servers c)) → n c <= 58000000 →
  ∃ h, configuration_hash string_hash c = Some h ∧ configuration_hash string_hash d = Some h.
Proof.
  intros Hc Hd Heq Hn Hmax. rewrite configuration_eq_key in Heq by done. apply (inj Some) in Heq.
  apply keq_eq in Heq. injection Heq as Hn' Hs _.
  unfold configuration_hash. rewrite <- Hn'. rewrite (hash_loop_servers string_hash d c) by done.
  assert (in_int (n c * 37) = true) as -> by (unfold in_int; apply andb_true_iff; rewrite Z.leb_le, Z.ltb_lt; lia).
  destruct (hash_loop_ok string_hash c (Z.to_nat (n c)) 0 (wrap64 (n c * 37))) as [h ->]; [lia|lia|]. eauto.
Qed.

(** ** Examples *)
Definition demo_items : list item :=
  [Comment (lit " two servers"); Server (MkLine (lit "server") (lit " ") (lit "10.0.0.1") (lit "31850")); Blank;
   Server (MkLine (lit "SERVER") (lit "  ") (lit "node-2") (lit "31851"))].
Definition demo_configuration : Configuration :=
  MkConfiguration 2 [MkAddress (lit "10.0.0.1") (lit "31850"); MkAddress (lit "node-2") (lit "31851")] None false.
Definition demo_multicast : Configuration := new_configuration 1 [MkAddress (lit "a") (lit "1")] (Some (MkAddress (lit "m") (lit "2"))).

Lemma no_eol_dec t : forallb (λ c, negb (Ascii.eqb c "010")) t = true → no_eol t.
Proof. rewrite forallb_forall. intros H. apply Forall_forall. intros c Hc ->. by specialize (H _ (proj1 (list_elem_of_In _ _) Hc)). Qed.

Lemma demo_items_ok : Forall item_ok demo_items.
Proof.
  repeat apply Forall_cons_2; try done; cbn [item_ok]; try (by apply no_eol_dec); split_and!; try done;
    try (by apply no_eol_dec); try (by repeat constructor); try (by intros c [= <-]).
Qed.

Lemma configuration_roundtrip_witness : read_configuration (file_text demo_items) = inr demo_configuration.
Proof. apply (configuration_roundtrip demo_items demo_items_ok). done. Defined.

Lemma malformed_server_lines_witness :
  parse_line (lit "server node-2") = inr [MkAddress (lit "node-2") (lit "server node-2")] ∧ parse_line (lit "server  ") = inl out_of_range.
Proof.
  split.
  - apply (malformed_server_lines (lit "server") (lit " ") (lit "node-2")); try done; try (by repeat constructor). by intros c [= <-].
  - apply (malformed_server_lines (lit "server") (lit "  ") []); try done; by repeat constructor.
Defined.

Lemma configurations_ordered_witness : ∃ lt eq gt,
  configuration_ltb demo_multicast demo_configuration = Some lt ∧ configuration_eqb demo_multicast demo_configuration = Some eq ∧
  configuration_gtb demo_multicast demo_configuration = Some gt ∧ (lt, eq, gt) ∈ [(true, false, false); (false, true, false); (false, false, true)].
Proof.
  destruct (configurations_ordered demo_multicast demo_configuration demo_multicast) as (lt & eq & gt & Hlt & Heq & Hgt & _ & _ & _ & Hin & _);
    [by intros _; eexists|done|by intros _; eexists|]. exists lt, eq, gt. by rewrite Hlt, Heq, Hgt.
Defined.

(** An address that is not in use does not count. *)
Definition demo_unused : Configuration := MkConfiguration 2 (servers demo_configuration) (Some (MkAddress (lit "m") (lit "2"))) false.

Lemma equal_configurations_hash_equal_witness : ∃ h,
  configuration_hash (λ t, Z.of_nat (length t)) demo_configuration = Some h ∧ configuration_hash (λ t, Z.of_nat (length t)) demo_unused = Some h.
Proof. apply (equal_configurations_hash_equal (λ t, Z.of_nat (length t)) demo_configuration demo_unused); done. Defined.
