(* ===== verification/ConfigMemory.v ===== *)
(** * Who owns the multicast address (network/configuration.cpp)

    A [Configuration] holds its multicast address through a plain pointer: its constructors make a new address,
    its destructor deletes it.  The heap maps the addresses that are allocated to their contents. *)
From Stdlib Require Import ZArith Lia Ascii String.
From stdpp Require Import prelude gmap.
From S2P Require Import Prelude StdMap Serialize FKey Config.

#[local] Open Scope cpp_scope.

Notation heap := (gmap nat ServerAddress).

(** The two members that matter; [pointer_value] is not initialised unless there is an address. *)
Record multicast_member := MkMember { has_address : bool; pointer_value : nat }.

(** [new ServerAddress(a)], [*p] and [delete p] *)
Definition new_address (a : ServerAddress) : M heap nat := λ h, let p := fresh (dom h) in Ok p (<[p := a]> h).
Definition read_address (p : nat) : M heap ServerAddress := λ h,
  match h !! p with Some a => Ok a h | None => Halt undefined_behaviour end.
Definition delete_address (p : nat) : M heap unit := λ h,
  match h !! p with Some _ => Ok tt (delete p h) | None => Halt undefined_behaviour end.

(** The constructor from a number, a vector and a pointer. *)
Definition construct_member (multicastAddress : option ServerAddress) (junk : nat) : M heap multicast_member :=
  match multicastAddress with
  | Some a => let! p := new_address a in ret (MkMember true p)
  | None => ret (MkMember false junk)
  end.
(** [Configuration(const Configuration &)] *)
Definition copy_member (c : multicast_member) : M heap multicast_member :=
  if has_address c then
    let! a := read_address (pointer_value c) in
    let! p := new_address a in
    ret (MkMember true p)
  else ret (MkMember false 0).
(** [~Configuration()] *)
Definition destroy_member (c : multicast_member) : M heap unit :=
  if has_address c then delete_address (pointer_value c) else ret tt.

(** What a program does with configurations. *)
Inductive configuration_op :=
  | make_configuration (a : option ServerAddress) (junk : nat)
  | copy_of (i : nat)
  | end_of (i : nat).
Definition configuration_step (cs : list multicast_member) (op : configuration_op) : M heap (list multicast_member) :=
  match op with
  | make_configuration a junk => let! c := construct_member a junk in ret (c :: cs)
  | copy_of i => match cs !! i with Some c => let! c' := copy_member c in ret (c' :: cs) | None => ret cs end
  | end_of i => match cs !! i with Some c => destroy_member c ;; ret (delete i cs) | None => ret cs end
  end.
Fixpoint configuration_steps (cs : list multicast_member) (ops : list configuration_op) : M heap (list multicast_member) :=
  match ops with
  | [] => ret cs
  | op :: ops => let! cs := configuration_step cs op in configuration_steps cs ops
  end.

(** ** Ownership *)
Definition owned (cs : list multicast_member) : list nat := flat_map (λ c, if has_address c then [pointer_value c] else []) cs.

Record owns (cs : list multicast_member) (h : heap) : Prop := {
  ow_nodup : NoDup (owned cs);
  ow_heap p : p ∈ owned cs ↔ is_Some (h !! p);
}.

Lemma owned_delete cs i c : cs !! i = Some c → owned cs ≡ₚ (if has_address c then [pointer_value c] else []) ++ owned (delete i cs).
Proof.
  intros Hi. unfold owned. rewrite <- (take_drop_middle cs i c Hi) at 1. rewrite delete_take_drop, !flat_map_app. cbn.
  by rewrite Permutation_app_swap_app.
Qed.

Lemma owned_elem cs i c : cs !! i = Some c → has_address c = true → pointer_value c ∈ owned cs.
Proof. intros Hi Hc. rewrite (owned_delete _ _ _ Hi), Hc. by left. Qed.

Lemma owns_new cs h a : owns cs h → let p := fresh (dom h) in owns (MkMember true p :: cs) (<[p := a]> h).
Proof.
  intros [Hnd Hh] p. assert (h !! p = None) as Hp by (apply not_elem_of_dom, is_fresh). split.
  - cbn. apply NoDup_cons. split; [|done]. rewrite Hh, Hp. by intros [? ?].
  - intros q. cbn. rewrite elem_of_cons, Hh. rewrite lookup_insert_is_Some. destruct (decide (p = q)) as [<-|Hne]; naive_solver.
Qed.

Lemma owns_delete cs h i c : owns cs h → cs !! i = Some c → has_address c = true → owns (delete i cs) (delete (pointer_value c) h).
Proof.
  intros [Hnd Hh] Hi Hc. pose proof (owned_delete _ _ _ Hi) as Hperm. rewrite Hc in Hperm. cbn in Hperm.
  rewrite Hperm in Hnd. apply NoDup_cons in Hnd as [Hni Hnd]. split; [done|]. intros p. rewrite lookup_delete_is_Some, <- Hh, Hperm, elem_of_cons.
  split; [|naive_solver]. intros Hp. split; [|by right]. by intros <-.
Qed.

Lemma owns_step cs h op : owns cs h → ∃ cs' h', configuration_step cs op h = Ok cs' h' ∧ owns cs' h'.
Proof.
  intros Ho. destruct op as [[a|] junk|i|i]; cbn [configuration_step].
  - eexists _, _. split; [done|by apply owns_new].
  - eexists _, _. split; [done|]. split; [apply Ho|apply (ow_heap _ _ Ho)].
  - destruct (cs !! i) as [c|] eqn:Hi; [|by eexists _, _]. unfold copy_member. destruct (has_address c) eqn:Hc.
    + destruct (proj1 (ow_heap _ _ Ho _) (owned_elem _ _ _ Hi Hc)) as [a Ha]. unfold bind, read_address. rewrite Ha.
      eexists _, _. split; [done|by apply owns_new].
    + eexists _, _. split; [done|]. split; [apply Ho|apply (ow_heap _ _ Ho)].
  - destruct (cs !! i) as [c|] eqn:Hi; [|by eexists _, _]. unfold destroy_member. destruct (has_address c) eqn:Hc.
    + destruct (proj1 (ow_heap _ _ Ho _) (owned_elem _ _ _ Hi Hc)) as [a Ha]. unfold bind, delete_address. rewrite Ha.
      eexists _, _. split; [done|by apply owns_delete].
    + eexists _, _. split; [done|]. pose proof (owned_delete _ _ _ Hi) as Hperm. rewrite Hc in Hperm. cbn in Hperm.
      destruct Ho as [Hnd Hh]. split; [by rewrite <- Hperm|]. intros p. by rewrite <- Hperm.
Qed.

Lemma owns_steps cs h ops : owns cs h → ∃ cs' h', configuration_steps cs ops h = Ok cs' h' ∧ owns cs' h'.
Proof.
  revert cs h. induction ops as [|op ops IH]; intros cs h Ho; cbn [configuration_steps]; [by eexists _, _|].
  destruct (owns_step cs h op Ho) as (cs1 & h1 & Hs1 & Ho1). unfold bind. rewrite Hs1. by apply IH.
Qed.

(** However configurations are made, copied and destroyed, no address is read or deleted after it was deleted, and each
    address that is left belongs to exactly one configuration: with the last configuration the last address goes away. *)
Lemma configurations_own_addresses ops : ∃ cs h, configuration_steps [] ops ∅ = Ok cs h ∧ owns cs h ∧ (cs = [] → h = ∅).
Proof.
  destruct (owns_steps [] ∅ ops) as (cs & h & Hs & Ho).
  { split; [apply NoDup_nil_2|]. intros p. split; [by intros ?%elem_of_nil|]. intros [a Ha]. by rewrite lookup_empty in Ha. }
  exists cs, h. split_and!; [done|done|]. intros ->. apply map_empty. intros p. apply eq_None_not_Some. intros Hp%(ow_heap _ _ Ho).
  by apply elem_of_nil in Hp.
Qed.
