(* ===== verification/StorageRpc.v ===== *)
(** * The storage RPCs (common/messages.hpp, client/storage_client.cpp, server/storage_server.cpp)

    The structs of the messages as bytes, the client's calls and reply handlers, and
    the server's request handlers.  The layout is that of the 64-bit little-endian
    machine the program runs on. *)
From Stdlib Require Import ZArith Lia.
From stdpp Require Import prelude gmap.
From S2P Require Import Prelude.

#[local] Open Scope cpp_scope.
#[local] Open Scope Z_scope.

(** Bytes are integers from 0 to 255. *)
Definition bytes := list Z.

(** An integer of [n] bytes, least significant first. *)
Fixpoint put_le (n : nat) (z : Z) : bytes :=
  match n with
  | O => []
  | S n' => z mod 256 :: put_le n' (z / 256)
  end.
Fixpoint get_le (b : bytes) : Z :=
  match b with
  | [] => 0
  | x :: b' => x + 256 * get_le b'
  end.

Definition peek64 (buf : bytes) (off : nat) : Z := get_le (peek buf off 8).

(** Request types and the sizes of the structs. *)
Definition getNodeIdReqType : Z := 1.
Definition evictNodeReqType : Z := 2.
Definition sizeof_nodeid_request : nat := 8.
Definition sizeof_nodeid_response : nat := 16.
Definition EVICT_DATA : nat := Z.to_nat 4096.
Definition sizeof_evictnode_request : nat := 16 + EVICT_DATA.
Definition sizeof_evictnode_response : nat := 16.

(** ** The client *)
Record nodeid_t := MkNodeId { serverIdx : Z; coreIdx : Z; nodeIdx : Z }.

Record client := MkClient {
  lastReqId : Z;
  blocked : bool;
  nodeIdReply : nodeid_t;
  evictNodeReply : bool;
}.

(** A request on its way: its type and its buffer. *)
Record request := MkRequest { req_type : Z; req_buf : bytes }.

Definition with_call (c : client) (reqId : Z) : client :=
  MkClient reqId true (nodeIdReply c) (evictNodeReply c).

(** [GetNodeId] up to the call of the transport; [buf] is the fresh request buffer. *)
Definition get_node_id_send (c : client) (buf : bytes) : option (client * request) :=
  let reqId := wrap64 (lastReqId c + 1) in
  buf ← poke buf 0 (put_le 8 reqId);
  Some (with_call c reqId, MkRequest getNodeIdReqType buf).

(** Its end, when the transport returns. *)
Definition get_node_id_return (c : client) (core server : Z) : client * nodeid_t :=
  let r := MkNodeId server core (nodeIdx (nodeIdReply c)) in
  (MkClient (lastReqId c) (blocked c) r (evictNodeReply c), r).

(** [EvictNode]: the text is copied without regard to the size of the buffer. *)
Definition evict_node_send (c : client) (buf : bytes) (node_id : Z) (text : bytes) : option (client * request) :=
  let reqId := wrap64 (lastReqId c + 1) in
  buf ← poke buf 0 (put_le 8 reqId);
  buf ← poke buf 8 (put_le 8 node_id);
  buf ← poke buf 16 text;
  Some (with_call c reqId, MkRequest evictNodeReqType buf).

Definition handle_get_node_id_reply (c : client) (resp : bytes) : client :=
  if peek64 resp 0 =? lastReqId c then
    MkClient (lastReqId c) false (MkNodeId (serverIdx (nodeIdReply c)) (coreIdx (nodeIdReply c)) (wrap32 (peek64 resp 8)))
             (evictNodeReply c)
  else c.
Definition handle_evict_node_reply (c : client) (resp : bytes) : client :=
  if peek64 resp 0 =? lastReqId c then
    MkClient (lastReqId c) false (nodeIdReply c) (negb (get_le (peek resp 8 1) =? 0))
  else c.

(** An unknown type is only warned about. *)
Definition receive_response (c : client) (reqType : Z) (resp : bytes) : client :=
  if reqType =? getNodeIdReqType then handle_get_node_id_reply c resp
  else if reqType =? evictNodeReqType then handle_evict_node_reply c resp
  else c.

(** ** The server *)
Record server := MkServer { current_id : Z; printed : list (Z * bytes) }.

Definition new_server : server := MkServer 0 [].

(** [current_id++] on a [uint32_t] *)
Definition get_node_id (s : server) : server * Z := (MkServer (wrap32 (current_id s + 1)) (printed s), current_id s).

(** The handlers fill in the response buffer and its length. *)
Definition handle_get_node_id (s : server) (req resp : bytes) : option (server * bytes * nat) :=
  resp ← poke resp 0 (put_le 8 (peek64 req 0));
  let '(s, id) := get_node_id s in
  resp ← poke resp 8 (put_le 8 id);
  Some (s, resp, sizeof_nodeid_response).
Definition handle_evict_node (s : server) (req resp : bytes) : option (server * bytes * nat) :=
  let s := MkServer (current_id s) (printed s ++ [(peek64 req 8, peek req 16 EVICT_DATA)]) in
  resp ← poke resp 0 (put_le 8 (peek64 req 0));
  resp ← poke resp 8 (put_le 1 1);
  Some (s, resp, sizeof_evictnode_response).

(** An unknown type leaves the length that [SendResponse] is called with uninitialised. *)
Definition receive_request (s : server) (r : request) (resp : bytes) : option (server * bytes * nat) :=
  if req_type r =? getNodeIdReqType then handle_get_node_id s (req_buf r) resp
  else if req_type r =? evictNodeReqType then handle_evict_node s (req_buf r) resp
  else None.
