(* ===== verification/StorageRpcProof.v ===== *)
(** * The storage RPCs answer the caller

    Clients, the server and the messages between them as a transition system; eRPC
    delivers each request and each response at most once, to the client object its
    tag names, in any order.  A blocked client has exactly one message in flight,
    which answers its last request, so its call completes, and node ids are handed
    out once. *)
From Stdlib Require Import ZArith Lia.
From stdpp Require Import prelude gmap relations.
From S2P Require Import Prelude StorageRpc.

#[local] Open Scope Z_scope.

(** ** Bytes *)
Lemma length_put_le n z : length (put_le n z) = n.
Proof. revert z. induction n as [|n IH]; intros z; cbn; [done|]. by rewrite IH. Qed.

Lemma get_put_le n z : 0 <= z < 256 ^ Z.of_nat n → get_le (put_le n z) = z.
Proof.
  revert z. induction n as [|n IH]; intros z Hz; cbn [put_le get_le].
  - cbn in Hz. lia.
  - rewrite IH.
    + pose proof (Z.div_mod z 256). lia.
    + rewrite Nat2Z.inj_succ, Z.pow_succ_r in Hz by lia. split; [apply Z.div_pos; lia|].
      apply Z.div_lt_upper_bound; lia.
Qed.

Lemma peek64_poke_same buf off z buf' :
  poke buf off (put_le 8 z) = Some buf' → 0 <= z < 2 ^ 64 → peek64 buf' off = z.
Proof.
  intros Hp Hz. apply peek_poke_same in Hp. rewrite length_put_le in Hp. unfold peek64. rewrite Hp.
  by apply get_put_le.
Qed.

Lemma peek64_poke_before buf off b buf' o :
  poke buf off b = Some buf' → (o + 8 ≤ off)%nat → peek64 buf' o = peek64 buf o.
Proof. intros Hp Ho. unfold peek64. by rewrite (peek_poke_before buf off b buf'). Qed.

Lemma wrap64_range z : 0 <= wrap64 z < 2 ^ 64.
Proof. apply Z.mod_pos_bound. done. Qed.

(** ** What the handlers compute *)
Lemma get_node_id_send_spec c buf :
  length buf = sizeof_nodeid_request → ∃ r,
    get_node_id_send c buf = Some (with_call c (wrap64 (lastReqId c + 1)), r) ∧
    req_type r = getNodeIdReqType ∧ peek64 (req_buf r) 0 = wrap64 (lastReqId c + 1).
Proof.
  intros Hlen. unfold get_node_id_send.
  destruct (poke_fits buf 0 (put_le 8 (wrap64 (lastReqId c + 1)))) as [b Hb]; [rewrite length_put_le, Hlen; done|].
  rewrite Hb. cbn. eexists. split_and!; [done|done|]. cbn. by eapply peek64_poke_same, wrap64_range.
Qed.

Lemma evict_node_send_spec c buf node_id text :
  length buf = sizeof_evictnode_request → (length text ≤ EVICT_DATA)%nat → 0 <= node_id < 2 ^ 64 → ∃ r,
    evict_node_send c buf node_id text = Some (with_call c (wrap64 (lastReqId c + 1)), r) ∧
    req_type r = evictNodeReqType ∧ peek64 (req_buf r) 0 = wrap64 (lastReqId c + 1) ∧
    peek64 (req_buf r) 8 = node_id ∧ peek (req_buf r) 16 (length text) = text.
Proof.
  intros Hlen Htext Hid. unfold evict_node_send, sizeof_evictnode_request in *.
  destruct (poke_fits buf 0 (put_le 8 (wrap64 (lastReqId c + 1)))) as [b1 Hb1]; [rewrite length_put_le; lia|].
  rewrite Hb1. cbn [mbind option_bind]. pose proof (length_poke _ _ _ _ Hb1) as Hl1.
  destruct (poke_fits b1 8 (put_le 8 node_id)) as [b2 Hb2]; [rewrite length_put_le; lia|].
  rewrite Hb2. cbn [mbind option_bind]. pose proof (length_poke _ _ _ _ Hb2) as Hl2.
  destruct (poke_fits b2 16 text) as [b3 Hb3]; [lia|]. rewrite Hb3. cbn [mbind option_bind].
  eexists. split_and!; [done|done|..]; cbn [req_buf].
  - rewrite (peek64_poke_before _ _ _ _ 0 Hb3), (peek64_poke_before _ _ _ _ 0 Hb2) by lia.
    eapply peek64_poke_same; [done|apply wrap64_range].
  - rewrite (peek64_poke_before _ _ _ _ 8 Hb3) by lia. by eapply peek64_poke_same.
  - by apply peek_poke_same in Hb3.
Qed.

Lemma handle_get_node_id_spec s req resp :
  (16 ≤ length resp)%nat → 0 <= peek64 req 0 < 2 ^ 64 → 0 <= current_id s < 2 ^ 64 → ∃ out,
    handle_get_node_id s req resp = Some (MkServer (wrap32 (current_id s + 1)) (printed s), out, sizeof_nodeid_response) ∧
    peek64 out 0 = peek64 req 0 ∧ peek64 out 8 = current_id s.
Proof.
  intros Hlen Hreq Hid. unfold handle_get_node_id.
  destruct (poke_fits resp 0 (put_le 8 (peek64 req 0))) as [b1 Hb1]; [rewrite length_put_le; lia|].
  rewrite Hb1. cbn [mbind option_bind get_node_id]. pose proof (length_poke _ _ _ _ Hb1) as Hl1.
  destruct (poke_fits b1 8 (put_le 8 (current_id s))) as [b2 Hb2]; [rewrite length_put_le; lia|].
  rewrite Hb2. cbn [mbind option_bind]. eexists. split_and!; [done| |].
  - rewrite (peek64_poke_before _ _ _ _ 0 Hb2) by lia. by eapply peek64_poke_same.
  - by eapply peek64_poke_same.
Qed.

Lemma handle_evict_node_spec s req resp :
  (16 ≤ length resp)%nat → 0 <= peek64 req 0 < 2 ^ 64 → ∃ out,
    handle_evict_node s req resp =
      Some (MkServer (current_id s) (printed s ++ [(peek64 req 8, peek req 16 EVICT_DATA)]), out, sizeof_evictnode_response) ∧
    peek64 out 0 = peek64 req 0 ∧ get_le (peek out 8 1) = 1.
Proof.
  intros Hlen Hreq. unfold handle_evict_node.
  destruct (poke_fits resp 0 (put_le 8 (peek64 req 0))) as [b1 Hb1]; [rewrite length_put_le; lia|].
  rewrite Hb1. cbn [mbind option_bind]. pose proof (length_poke _ _ _ _ Hb1) as Hl1.
  destruct (poke_fits b1 8 (put_le 1 1)) as [b2 Hb2]; [rewrite length_put_le; lia|].
  rewrite Hb2. cbn [mbind option_bind]. eexists. split_and!; [done| |].
  - rewrite (peek64_poke_before _ _ _ _ 0 Hb2) by lia. by eapply peek64_poke_same.
  - apply peek_poke_same in Hb2. rewrite length_put_le in Hb2. by rewrite Hb2.
Qed.

(** ** The system *)
Record world := MkWorld {
  clients : gmap nat client;
  srv : server;
  requests : list (nat * request);            (* with the client that waits for the answer *)
  responses : list (nat * (Z * bytes));       (* the type of the request and the response buffer *)
  issued : list Z;                            (* node ids returned by completed calls *)
  granted : nat;                              (* GetNodeId requests served *)
}.

Inductive step : world → world → Prop :=
  | call_get_node_id w i c buf c' r :
      clients w !! i = Some c → blocked c = false → length buf = sizeof_nodeid_request →
      get_node_id_send c buf = Some (c', r) →
      step w (MkWorld (<[i := c']> (clients w)) (srv w) (requests w ++ [(i, r)]) (responses w) (issued w) (granted w))
  | call_evict_node w i c buf node_id text c' r :
      clients w !! i = Some c → blocked c = false → length buf = sizeof_evictnode_request →
      0 <= node_id < 2 ^ 64 → evict_node_send c buf node_id text = Some (c', r) →
      step w (MkWorld (<[i := c']> (clients w)) (srv w) (requests w ++ [(i, r)]) (responses w) (issued w) (granted w))
  | serve w l1 i r l2 resp s' out len :
      requests w = l1 ++ (i, r) :: l2 → (16 ≤ length resp)%nat →
      receive_request (srv w) r resp = Some (s', out, len) →
      step w (MkWorld (clients w) s' (l1 ++ l2) (responses w ++ [(i, (req_type r, out))]) (issued w)
                (if req_type r =? getNodeIdReqType then S (granted w) else granted w))
  | reply w l1 i ty out l2 c :
      responses w = l1 ++ (i, (ty, out)) :: l2 → clients w !! i = Some c →
      step w (MkWorld (<[i := receive_response c ty out]> (clients w)) (srv w) (requests w) (l1 ++ l2)
                (if (ty =? getNodeIdReqType) && blocked c && negb (blocked (receive_response c ty out))
                 then issued w ++ [nodeIdx (nodeIdReply (receive_response c ty out))] else issued w)
                (granted w)).

(** No call yet.  The constructor of [StorageClient] leaves [blocked] as it is in memory, and a call sets it before anything reads
    it; here, where [blocked] also says whether a call is under way, it starts as false. *)
Definition initial (w : world) : Prop :=
  (∀ i c, clients w !! i = Some c → blocked c = false ∧ lastReqId c = 0) ∧
  srv w = new_server ∧ requests w = [] ∧ responses w = [] ∧ issued w = [] ∧ granted w = 0%nat.

Definition reachable (w : world) : Prop := ∃ w0, initial w0 ∧ rtc step w0 w.

(** ** Invariant *)
Definition waiting (w : world) : list nat := (requests w).*1 ++ (responses w).*1.
Definition pending_ids (l : list (nat * (Z * bytes))) : list Z :=
  flat_map (λ p, if p.2.1 =? getNodeIdReqType then [peek64 p.2.2 8] else []) l.

(** The ids that the first [n] answers of the server carry. *)
Definition grants (n : nat) : list Z := (λ k, wrap32 (Z.of_nat k)) <$> seq 0 n.

Definition known (ty : Z) : Prop := ty = getNodeIdReqType ∨ ty = evictNodeReqType.

Record inv (w : world) : Prop := {
  iv_nodup : NoDup (waiting w);
  iv_exists i : i ∈ waiting w → is_Some (clients w !! i);
  iv_blocked i c : clients w !! i = Some c → blocked c = true ↔ i ∈ waiting w;
  iv_last i c : clients w !! i = Some c → 0 <= lastReqId c < 2 ^ 64;
  iv_request i r c : (i, r) ∈ requests w → clients w !! i = Some c →
    peek64 (req_buf r) 0 = lastReqId c ∧ known (req_type r);
  iv_response i ty out c : (i, (ty, out)) ∈ responses w → clients w !! i = Some c →
    peek64 out 0 = lastReqId c ∧ known ty ∧ (ty = getNodeIdReqType → 0 <= peek64 out 8 < 2 ^ 32) ∧
    (ty = evictNodeReqType → get_le (peek out 8 1) = 1);
  iv_server : current_id (srv w) = wrap32 (Z.of_nat (granted w));
  iv_ids : issued w ++ pending_ids (responses w) ≡ₚ grants (granted w);
}.

Lemma initial_inv w : initial w → inv w.
Proof.
  intros (Hc & Hs & Hrq & Hrp & Hi & Hg). unfold waiting.
  split; unfold waiting; rewrite ?Hrq, ?Hrp, ?Hi, ?Hg, ?Hs; cbn.
  - constructor.
  - by intros i ?%elem_of_nil.
  - intros i c [-> _]%Hc. rewrite elem_of_nil. done.
  - intros i c [_ ->]%Hc. done.
  - by intros i r c ?%elem_of_nil.
  - by intros i ty out c ?%elem_of_nil.
  - done.
  - done.
Qed.

Lemma elem_waiting_request w i r : (i, r) ∈ requests w → i ∈ waiting w.
Proof. intros Hin. apply elem_of_app. left. apply list_elem_of_fmap. by exists (i, r). Qed.
Lemma elem_waiting_response w i p : (i, p) ∈ responses w → i ∈ waiting w.
Proof. intros Hin. apply elem_of_app. right. apply list_elem_of_fmap. by exists (i, p). Qed.

Lemma waiting_send w cl s i r ids g :
  waiting (MkWorld cl s (requests w ++ [(i, r)]) (responses w) ids g) ≡ₚ i :: waiting w.
Proof. unfold waiting. cbn. rewrite fmap_app. cbn. rewrite <- app_assoc. cbn. symmetry. apply Permutation_middle. Qed.

(** A client that was not blocked sends a request. *)
Lemma send_inv w i c r reqId :
  inv w → clients w !! i = Some c → blocked c = false → 0 <= reqId < 2 ^ 64 →
  peek64 (req_buf r) 0 = reqId → known (req_type r) →
  inv (MkWorld (<[i := with_call c reqId]> (clients w)) (srv w) (requests w ++ [(i, r)]) (responses w) (issued w) (granted w)).
Proof.
  intros Hw Hc Hb Hid Hr Hk. set (w' := MkWorld _ _ _ _ _ _).
  assert (i ∉ waiting w) as Hni by (intros ?%(iv_blocked w Hw i c Hc); congruence).
  assert (waiting w' ≡ₚ i :: waiting w) as Hwait by apply waiting_send.
  assert (∀ j, j ∈ waiting w' ↔ j = i ∨ j ∈ waiting w) as Hin by (intros j; rewrite Hwait; apply elem_of_cons).
  split; cbn [w' clients srv issued granted responses requests].
  - rewrite Hwait. constructor; [done|apply Hw].
  - intros j [->|Hj]%Hin; [by rewrite lookup_insert_eq|]. apply lookup_insert_is_Some'. right. by apply (iv_exists w Hw).
  - intros j cj [[<- <-]|[Hne Hj]]%lookup_insert_Some; rewrite Hin; [cbn; tauto|].
    rewrite (iv_blocked w Hw j cj Hj). naive_solver.
  - intros j cj [[<- <-]|[Hne Hj]]%lookup_insert_Some; [done|]. by apply (iv_last w Hw j).
  - intros j rj cj [Hin'|[= -> ->]%list_elem_of_singleton]%elem_of_app [[Heq <-]|[Hne Hj]]%lookup_insert_Some; try done.
    + subst j. by apply elem_waiting_request in Hin'.
    + by apply (iv_request w Hw j).
  - intros j ty out cj Hin' [[Heq <-]|[Hne Hj]]%lookup_insert_Some.
    + subst j. by apply elem_waiting_response in Hin'.
    + by apply (iv_response w Hw j).
  - apply Hw.
  - apply Hw.
Qed.

Lemma pending_ids_app l1 l2 : pending_ids (l1 ++ l2) = pending_ids l1 ++ pending_ids l2.
Proof. apply flat_map_app. Qed.

Lemma waiting_serve w cl s l1 i r l2 p ids g :
  requests w = l1 ++ (i, r) :: l2 → waiting (MkWorld cl s (l1 ++ l2) (responses w ++ [(i, p)]) ids g) ≡ₚ waiting w.
Proof.
  intros Hr. unfold waiting. cbn. rewrite Hr, !fmap_app. cbn. rewrite <- !app_assoc, (Permutation_app_comm (responses w).*1).
  cbn. by rewrite <- Permutation_middle, <- (Permutation_middle l1.*1).
Qed.

(** The server answers. *)
Lemma serve_inv w l1 i r l2 s' out :
  inv w → requests w = l1 ++ (i, r) :: l2 → peek64 out 0 = peek64 (req_buf r) 0 →
  (req_type r = evictNodeReqType → get_le (peek out 8 1) = 1) →
  (req_type r = getNodeIdReqType → peek64 out 8 = current_id (srv w)) →
  current_id s' = (if req_type r =? getNodeIdReqType then wrap32 (current_id (srv w) + 1) else current_id (srv w)) →
  inv (MkWorld (clients w) s' (l1 ++ l2) (responses w ++ [(i, (req_type r, out))]) (issued w)
         (if req_type r =? getNodeIdReqType then S (granted w) else granted w)).
Proof.
  intros Hw Hreq Hnr Hok Hid Hs'. set (w' := MkWorld _ _ _ _ _ _).
  assert (waiting w' ≡ₚ waiting w) as Hwait by by apply (waiting_serve w _ _ l1 i r l2).
  assert (∀ j, j ∈ waiting w' ↔ j ∈ waiting w) as Hin by (intros j; by rewrite Hwait).
  assert (∀ x, x ∈ l1 ++ l2 → x ∈ requests w) as Hsub.
  { intros x. rewrite Hreq, !elem_of_app, elem_of_cons. tauto. }
  assert ((i, r) ∈ requests w) as Hir by (rewrite Hreq; apply elem_of_app; right; by left).
  assert (0 <= wrap32 (Z.of_nat (granted w)) < 2 ^ 32) as Hcur by by apply Z.mod_pos_bound.
  split; cbn [w' clients srv issued granted responses requests].
  - rewrite Hwait. apply Hw.
  - intros j Hj%Hin. by apply (iv_exists w Hw).
  - intros j cj Hj. rewrite Hin. by apply (iv_blocked w Hw).
  - apply Hw.
  - intros j rj cj Hj. by apply (iv_request w Hw), Hsub.
  - intros j ty out' cj [Hj|[= -> -> ->]%list_elem_of_singleton]%elem_of_app Hcj; [by apply (iv_response w Hw j)|].
    destruct (iv_request w Hw i r cj Hir Hcj) as [Hlast Hk]. split_and!; [congruence|done| |done].
    intros Hty. by rewrite (Hid Hty), (iv_server w Hw).
  - rewrite Hs', (iv_server w Hw). destruct (req_type r =? getNodeIdReqType); [|done].
    unfold wrap32. rewrite Zplus_mod_idemp_l. f_equal. lia.
  - rewrite pending_ids_app. cbn [pending_ids flat_map fst snd]. destruct (Z.eqb_spec (req_type r) getNodeIdReqType) as [Hty|Hty]; rewrite ?app_nil_r; [|apply Hw].
    rewrite (Hid Hty), (iv_server w Hw), app_assoc, (iv_ids w Hw). unfold grants. by rewrite seq_S, fmap_app.
Qed.

(** What a client that waits learns from its response. *)
Lemma receive_response_spec c ty out :
  peek64 out 0 = lastReqId c → known ty →
  blocked (receive_response c ty out) = false ∧ lastReqId (receive_response c ty out) = lastReqId c ∧
  (ty = getNodeIdReqType → nodeIdx (nodeIdReply (receive_response c ty out)) = wrap32 (peek64 out 8)) ∧
  (ty = evictNodeReqType → evictNodeReply (receive_response c ty out) = negb (get_le (peek out 8 1) =? 0)).
Proof.
  intros Hnr Hty. unfold receive_response, handle_get_node_id_reply, handle_evict_node_reply.
  rewrite Hnr, Z.eqb_refl. by destruct Hty as [-> | ->].
Qed.

Lemma waiting_reply w cl s l1 i p l2 ids g :
  responses w = l1 ++ (i, p) :: l2 → waiting w ≡ₚ i :: waiting (MkWorld cl s (requests w) (l1 ++ l2) ids g).
Proof.
  intros Hr. unfold waiting. cbn. rewrite Hr, !fmap_app. cbn.
  by rewrite !app_assoc, <- Permutation_middle.
Qed.

Lemma pending_reply ids l1 i ty out l2 x :
  (ty = getNodeIdReqType → x = peek64 out 8) →
  ids ++ pending_ids (l1 ++ (i, (ty, out)) :: l2) ≡ₚ
  (if ty =? getNodeIdReqType then ids ++ [x] else ids) ++ pending_ids (l1 ++ l2).
Proof.
  intros Hx. rewrite !pending_ids_app. cbn [pending_ids flat_map fst snd].
  destruct (Z.eqb_spec ty getNodeIdReqType) as [Hty|Hty]; [|done].
  rewrite (Hx Hty), <- (app_assoc ids). cbn [app]. by rewrite <- !Permutation_middle.
Qed.

(** A response arrives. *)
Lemma reply_inv w l1 i ty out l2 c :
  inv w → responses w = l1 ++ (i, (ty, out)) :: l2 → clients w !! i = Some c →
  inv (MkWorld (<[i := receive_response c ty out]> (clients w)) (srv w) (requests w) (l1 ++ l2)
         (if (ty =? getNodeIdReqType) && blocked c && negb (blocked (receive_response c ty out))
          then issued w ++ [nodeIdx (nodeIdReply (receive_response c ty out))] else issued w) (granted w)).
Proof.
  intros Hw Hres Hc. set (w' := MkWorld _ _ _ _ _ _).
  assert ((i, (ty, out)) ∈ responses w) as Hir by (rewrite Hres; apply elem_of_app; right; by left).
  destruct (iv_response w Hw i ty out c Hir Hc) as (Hnr & Hk & Hid & _).
  destruct (receive_response_spec c ty out Hnr Hk) as (Hb & Hl & Hidx & _).
  assert (waiting w ≡ₚ i :: waiting w') as Hwait by by apply (waiting_reply w _ _ l1 i (ty, out) l2).
  pose proof (iv_nodup w Hw) as Hnd. rewrite Hwait, NoDup_cons in Hnd. destruct Hnd as [Hni Hnd].
  assert (∀ j, j ∈ waiting w ↔ j = i ∨ j ∈ waiting w') as Hin by (intros j; rewrite Hwait; apply elem_of_cons).
  assert (∀ x, x ∈ l1 ++ l2 → x ∈ responses w) as Hsub.
  { intros x. rewrite Hres, !elem_of_app, elem_of_cons. tauto. }
  assert (blocked c = true) as Hbc by (apply (iv_blocked w Hw i c Hc), Hin; by left).
  split; cbn [w' clients srv issued granted responses requests].
  - done.
  - intros j Hj. apply lookup_insert_is_Some'. right. apply (iv_exists w Hw), Hin. by right.
  - intros j cj [[<- <-]|[Hne Hj]]%lookup_insert_Some; [rewrite Hb; done|].
    rewrite (iv_blocked w Hw j cj Hj), Hin. naive_solver.
  - intros j cj [[<- <-]|[Hne Hj]]%lookup_insert_Some; [rewrite Hl|]; by eapply (iv_last w Hw).
  - intros j rj cj Hj [[<- <-]|[Hne Hcj]]%lookup_insert_Some; [|by apply (iv_request w Hw j)].
    rewrite Hl. by apply (iv_request w Hw i).
  - intros j ty' out' cj Hj [[<- <-]|[Hne Hcj]]%lookup_insert_Some; [|by apply (iv_response w Hw j), Hcj; apply Hsub].
    rewrite Hl. by apply (iv_response w Hw i), Hc; apply Hsub.
  - apply Hw.
  - rewrite Hb, Hbc, !andb_true_r, <- (iv_ids w Hw), Hres. symmetry. apply pending_reply.
    intros Hty. rewrite (Hidx Hty). apply Z.mod_small. by apply Hid.
Qed.

Lemma with_call_of_send c buf c' r :
  length buf = sizeof_nodeid_request → get_node_id_send c buf = Some (c', r) →
  c' = with_call c (wrap64 (lastReqId c + 1)) ∧ peek64 (req_buf r) 0 = wrap64 (lastReqId c + 1) ∧ known (req_type r).
Proof.
  intros Hlen Hs. destruct (get_node_id_send_spec c buf Hlen) as (r' & Hs' & Hty & Hid).
  rewrite Hs in Hs'. injection Hs' as <- <-. split_and!; [done|done|by left].
Qed.

Lemma evict_text_fits c buf node_id text :
  length buf = sizeof_evictnode_request → is_Some (evict_node_send c buf node_id text) → (length text ≤ EVICT_DATA)%nat.
Proof.
  intros Hlen [p Hs]. unfold evict_node_send, sizeof_evictnode_request in *.
  destruct (poke buf 0 _) as [b1|] eqn:H1; [|done]. cbn [mbind option_bind] in Hs.
  destruct (poke b1 8 _) as [b2|] eqn:H2; [|done]. cbn [mbind option_bind] in Hs.
  destruct (poke b2 16 _) as [b3|] eqn:H3; [|done].
  apply length_poke in H1, H2. apply poke_Some in H3 as [? _]. lia.
Qed.

Lemma serve_spec s r resp :
  known (req_type r) → (16 ≤ length resp)%nat → 0 <= peek64 (req_buf r) 0 < 2 ^ 64 → 0 <= current_id s < 2 ^ 64 →
  ∃ s' out len, receive_request s r resp = Some (s', out, len) ∧
    peek64 out 0 = peek64 (req_buf r) 0 ∧
    (req_type r = evictNodeReqType → get_le (peek out 8 1) = 1) ∧
    (req_type r = getNodeIdReqType → peek64 out 8 = current_id s) ∧
    current_id s' = (if req_type r =? getNodeIdReqType then wrap32 (current_id s + 1) else current_id s).
Proof.
  intros Hk Hlen Hreq Hid. unfold receive_request. destruct Hk as [Hty|Hty]; rewrite Hty; cbn [Z.eqb Pos.eqb getNodeIdReqType evictNodeReqType].
  - destruct (handle_get_node_id_spec s (req_buf r) resp Hlen Hreq Hid) as (out & -> & ? & ?). by eexists _, _, _.
  - destruct (handle_evict_node_spec s (req_buf r) resp Hlen Hreq) as (out & -> & ? & ?). by eexists _, _, _.
Qed.

(** The request a served message carries is the caller's, so its number is in range. *)
Lemma request_of w i r : inv w → (i, r) ∈ requests w →
  ∃ c, clients w !! i = Some c ∧ peek64 (req_buf r) 0 = lastReqId c ∧ known (req_type r) ∧ 0 <= peek64 (req_buf r) 0 < 2 ^ 64.
Proof.
  intros Hw Hir. destruct (iv_exists w Hw i) as [c Hc]; [by eapply elem_waiting_request|].
  destruct (iv_request w Hw i r c Hir Hc) as [Hlast Hk]. exists c. split_and!; [done..| |]; rewrite Hlast; by eapply (iv_last w Hw).
Qed.

Lemma current_id_range w : inv w → 0 <= current_id (srv w) < 2 ^ 64.
Proof. intros Hw. rewrite (iv_server w Hw). pose proof (Z.mod_pos_bound (Z.of_nat (granted w)) (2 ^ 32)). unfold wrap32. lia. Qed.

Lemma step_inv w w' : inv w → step w w' → inv w'.
Proof.
  intros Hw Hs. destruct Hs as [w i c buf c' r Hc Hb Hlen Hs|w i c buf node_id text c' r Hc Hb Hlen Hid Hs
    |w l1 i r l2 resp s' out len Hr Hlen Hs|w l1 i ty out l2 c Hr Hc].
  - destruct (with_call_of_send c buf c' r Hlen Hs) as (-> & ? & ?). apply send_inv; try done. apply wrap64_range.
  - assert (length text ≤ EVICT_DATA)%nat as Hfit by (eapply evict_text_fits; eauto).
    destruct (evict_node_send_spec c buf node_id text Hlen Hfit Hid) as (r' & Hs' & Hty & Hn & _).
    rewrite Hs in Hs'. injection Hs' as -> ->. apply send_inv; try done; [apply wrap64_range|by right].
  - destruct (request_of w i r Hw) as (c & Hc & Hlast & Hk & Hrange); [rewrite Hr; apply elem_of_app; right; by left|].
    destruct (serve_spec (srv w) r resp Hk Hlen Hrange (current_id_range w Hw)) as (s1 & o1 & n1 & Hs' & ? & ? & ? & ?).
    rewrite Hs in Hs'. injection Hs' as -> -> ->. by apply serve_inv.
  - by apply reply_inv.
Qed.

Lemma reachable_inv w : reachable w → inv w.
Proof. intros (w0 & H0 & Hs). apply initial_inv in H0. induction Hs; eauto using step_inv. Qed.

(** ** What the storage RPCs promise *)

Lemma grants_spec n : Z.of_nat n <= 2 ^ 32 → grants n = Z.of_nat <$> seq 0 n.
Proof.
  intros Hn. unfold grants. apply list_fmap_ext. intros i k [-> Hi]%lookup_seq. apply Z.mod_small. lia.
Qed.

(** C22: in every reachable state the node ids that completed calls of all clients returned, together with those in
    responses under way, are 0, 1, 2 and so on, one for each GetNodeId request the server has answered, modulo 2^32.  Up to 2^32 answers they
    are therefore distinct and below the number of answers; the server's counter is a uint32_t, and the next answer repeats id 0. *)
Theorem node_ids_unique w : reachable w →
  issued w ++ pending_ids (responses w) ≡ₚ grants (granted w) ∧
  (Z.of_nat (granted w) <= 2 ^ 32 → NoDup (issued w) ∧ ∀ x, x ∈ issued w → 0 <= x < Z.of_nat (granted w)).
Proof.
  intros Hw%reachable_inv. split; [apply Hw|]. intros Hmax. pose proof (iv_ids w Hw) as Hids. rewrite (grants_spec _ Hmax) in Hids.
  assert (NoDup (issued w ++ pending_ids (responses w))) as (Hnd & _)%NoDup_app.
  { rewrite Hids. apply NoDup_fmap_2; [intros ? ?; lia|apply NoDup_seq]. }
  split; [done|]. intros x Hx. assert (x ∈ Z.of_nat <$> seq 0 (granted w)) as (k & -> & Hk)%list_elem_of_fmap.
  { rewrite <- Hids. apply elem_of_app. by left. }
  apply elem_of_seq in Hk. lia.
Qed.

Lemma response_completes w i c p : inv w → clients w !! i = Some c → (i, p) ∈ responses w →
  ∃ w' c', step w w' ∧ clients w' !! i = Some c' ∧ blocked c' = false ∧ lastReqId c' = lastReqId c.
Proof.
  intros Hw Hc Hin. destruct p as [ty out]. destruct (iv_response w Hw i ty out c Hin Hc) as (Hn & Hk & _).
  destruct (receive_response_spec c ty out Hn Hk) as (Hb & Hl & _).
  apply list_elem_of_split in Hin as (l1 & l2 & Hr). eexists _, (receive_response c ty out).
  split; [by eapply reply|]. cbn [clients]. by rewrite lookup_insert_eq.
Qed.

(** C23: a client that spins on its blocked flag is never stuck.  In every reachable state
    its call completes after at most two more steps of the server and the network,
    whatever the other clients have in flight, and no newer request of its own has
    taken the place of the one it waits for. *)
Theorem call_completes w i c : reachable w → clients w !! i = Some c → blocked c = true →
  ∃ n w' c', (n ≤ 2)%nat ∧ nsteps step n w w' ∧ clients w' !! i = Some c' ∧
    blocked c' = false ∧ lastReqId c' = lastReqId c.
Proof.
  intros Hw%reachable_inv Hc Hb. apply (iv_blocked w Hw i c Hc) in Hb. apply elem_of_app in Hb as [Hb|Hb].
  - apply list_elem_of_fmap in Hb as ([i' r] & Hi & Hin). cbn in Hi. subst i'.
    destruct (request_of w i r Hw Hin) as (c0 & _ & _ & Hk & Hrange).
    destruct (serve_spec (srv w) r (replicate 16 0) Hk (le_n 16) Hrange (current_id_range w Hw)) as (s' & out & len & Hs & _).
    apply list_elem_of_split in Hin as (l1 & l2 & Hr).
    pose proof (serve w l1 i r l2 (replicate 16 0) s' out len Hr (le_n 16) Hs) as Hstep.
    destruct (response_completes _ i c (req_type r, out) (step_inv _ _ Hw Hstep) Hc) as (w' & c' & Hst & Hrest).
    { cbn [responses]. apply elem_of_app. right. by left. }
    exists 2%nat, w', c'. split; [done|]. split; [|done]. eauto using nsteps_l, nsteps_O.
  - apply list_elem_of_fmap in Hb as ([i' p] & Hi & Hin). cbn in Hi. subst i'.
    destruct (response_completes w i c p Hw Hc Hin) as (w' & c' & Hst & Hrest).
    exists 1%nat, w', c'. split; [lia|]. split; [|done]. eauto using nsteps_l, nsteps_O.
Qed.

(** C24: an EvictNode call whose node text has at most 4096 bytes hands the node id and the text to the
    server unchanged, and the server's response unblocks the client with a true reply.
    For a longer text the copy into the request writes past the end of its buffer. *)
Theorem evict_node_roundtrip c s buf resp node_id text :
  length buf = sizeof_evictnode_request → (16 ≤ length resp)%nat → 0 <= node_id < 2 ^ 64 →
  if decide (length text ≤ EVICT_DATA)%nat then
    ∃ c' r s' out, evict_node_send c buf node_id text = Some (c', r) ∧ blocked c' = true ∧
      receive_request s r resp = Some (s', out, sizeof_evictnode_response) ∧
      (∃ pad, printed s' = printed s ++ [(node_id, text ++ pad)]) ∧ current_id s' = current_id s ∧
      blocked (receive_response c' (req_type r) out) = false ∧
      evictNodeReply (receive_response c' (req_type r) out) = true
  else evict_node_send c buf node_id text = None.
Proof.
  intros Hbuf Hresp Hid. case_decide as Hfit.
  - destruct (evict_node_send_spec c buf node_id text Hbuf Hfit Hid) as (r & Hs & Hty & Hn & Hnode & Htext).
    assert (0 <= peek64 (req_buf r) 0 < 2 ^ 64) as Hrange by (rewrite Hn; apply wrap64_range).
    destruct (handle_evict_node_spec s (req_buf r) resp Hresp Hrange) as (out & Hh & Hnr & Hone).
    destruct (receive_response_spec (with_call c (wrap64 (lastReqId c + 1))) (req_type r) out) as (Hb & _ & _ & He).
    { by rewrite Hnr, Hn. } { by right. }
    eexists _, r, _, out. split_and!; [done|done|unfold receive_request; by rewrite Hty| |done|done|].
    + cbn [printed]. exists (drop (length text) (peek (req_buf r) 16 EVICT_DATA)). rewrite Hnode. do 3 f_equal.
      rewrite <- Htext at 1. unfold peek. rewrite <- (take_drop (length text) (take EVICT_DATA _)) at 1. f_equal.
      rewrite take_take. by rewrite Nat.min_l.
    + by rewrite (He Hty), Hone.
  - destruct (evict_node_send c buf node_id text) eqn:Hs; [|done]. destruct Hfit.
    by apply (evict_text_fits c buf node_id text).
Qed.

(** ** Two clients ask for a node id; the second is still waiting *)
Definition idle : client := MkClient 0 false (MkNodeId 0 0 0) false.
Definition two_clients : world := MkWorld {[0%nat := idle; 1%nat := idle]} new_server [] [] [] 0.
Definition asking : world :=
  MkWorld {[0%nat := with_call idle 1; 1%nat := with_call idle 1]} new_server
    [(0%nat, MkRequest 1 [1; 0; 0; 0; 0; 0; 0; 0]); (1%nat, MkRequest 1 [1; 0; 0; 0; 0; 0; 0; 0])] [] [] 0.
Definition one_answered : world :=
  MkWorld {[0%nat := MkClient 1 false (MkNodeId 0 0 0) false; 1%nat := with_call idle 1]} (MkServer 1 [])
    [(1%nat, MkRequest 1 [1; 0; 0; 0; 0; 0; 0; 0])] [] [0] 1.

Lemma asking_reachable : rtc step two_clients asking.
Proof.
  eapply rtc_l; [eapply (call_get_node_id two_clients 0 idle (replicate 8 0)); done|].
  eapply rtc_l; [eapply (call_get_node_id _ 1 idle (replicate 8 0)); done|]. apply rtc_refl.
Qed.

Lemma one_answered_reachable : reachable one_answered.
Proof.
  exists two_clients. split; [split_and!; try done; intros i c; cbn|].
  { rewrite lookup_insert_Some. intros [[_ <-]|[_ H]]; [done|]. apply lookup_singleton_Some in H as [_ <-]. done. }
  transitivity asking; [exact asking_reachable|].
  eapply rtc_l; [by eapply (serve _ [] 0 _ _ (replicate 16 0))|].
  eapply rtc_l; [by eapply (reply _ [] 0 _ _ [])|]. apply rtc_refl.
Qed.

Lemma node_ids_unique_witness : issued one_answered = [0] ∧ NoDup (issued one_answered).
Proof. split; [done|]. apply (proj2 (node_ids_unique one_answered one_answered_reachable)). done. Defined.

Lemma call_completes_witness :
  ∃ n w' c', (n ≤ 2)%nat ∧ nsteps step n one_answered w' ∧ clients w' !! 1%nat = Some c' ∧ blocked c' = false ∧ lastReqId c' = 1.
Proof. apply (call_completes one_answered 1 (with_call idle 1) one_answered_reachable); done. Defined.

Lemma evict_node_roundtrip_witness :
  ∃ c' r s' out, evict_node_send idle (replicate sizeof_evictnode_request 0) 7 [108; 105] = Some (c', r) ∧ blocked c' = true ∧
    receive_request new_server r (replicate 16 0) = Some (s', out, sizeof_evictnode_response) ∧
    (∃ pad, printed s' = [(7, [108; 105] ++ pad)]) ∧ current_id s' = 0 ∧
    blocked (receive_response c' (req_type r) out) = false ∧
    evictNodeReply (receive_response c' (req_type r) out) = true.
Proof. apply (evict_node_roundtrip idle new_server _ (replicate 16 0) 7 [108; 105] (length_replicate _ _)); [done|lia]. Defined.
