(* ===== verification/Transport.v ===== *)
(** * The eRPC transport (network/transport.hpp, network/fasttransport.{hpp,cpp})

    A [FastTransport] belongs to one thread: its context holds the request tags and the
    sessions of the clients of the thread, or the handle of the request a server is
    answering.  The eRPC library and the receivers are interfaces.  The preprocessor
    flag MULTIPLE_ACTIVE_REQUESTS is false, as in the header. *)
From Stdlib Require Import ZArith Lia Ascii String.
From stdpp Require Import prelude gmap.
From S2P Require Import Prelude Serialize Config StorageRpc.

#[local] Open Scope cpp_scope.
#[local] Open Scope Z_scope.

(** ** The eRPC endpoint *)

(** Message buffers, request tags, receivers and request handles are addresses. *)
Notation buf := nat (only parsing).
Notation tag := nat (only parsing).
Notation receiver := nat (only parsing).
Notation handle := nat (only parsing).

(** Events of a session, with eRPC's names. *)
Inductive SmEventType := kConnected | kConnectFailed | kDisconnected | kDisconnectFailed.
Inductive SmErrType :=
  kNoError | kSrvDisconnected | kRingExhausted | kOutOfMemory | kRoutingResolutionFailure | kInvalidRemoteRpcId | kInvalidTransport.
#[global] Instance SmEventType_eq_dec : EqDecision SmEventType.
Proof. solve_decision. Defined.
#[global] Instance SmErrType_eq_dec : EqDecision SmErrType.
Proof. solve_decision. Defined.

(** What one pass of the event loop calls back for. *)
Inductive event :=
  | got_response (t : tag)
  | got_request (h : handle) (reqType : Z)
  | session_event (session_num : Z) (ty : SmEventType) (err : SmErrType).

(** The calls of [erpc::Rpc] that the transport makes; [None]: the call is made against
    its documentation. *)
Class Rpc (R : Type) := {
  get_max_data_per_pkt : Z;
  buf_bytes : R → buf → bytes;
  write_buf : R → buf → bytes → R;                            (* through [MsgBuffer::buf_] *)
  alloc_msg_buffer_or_die : R → Z → option (buf * R);         (* [None]: std::runtime_error *)
  free_msg_buffer : R → buf → option R;
  resize_msg_buffer : R → buf → Z → option R;
  create_session : R → text → Z → Z * R;
  is_connected : R → Z → option bool;
  enqueue_request : R → Z → Z → buf → buf → tag → option R;
  get_req_msgbuf : R → handle → buf;
  pre_resp_msgbuf : R → handle → buf;
  enqueue_response : R → handle → buf → option R;
  poll : R → list event * R;                                  (* [run_event_loop_once] up to the callbacks *)
}.

(** [TransportReceiver].  [ReceiveRequest] fills the response buffer in and gives the length
    that it calls [SendResponse] with. *)
Class TransportReceiver (C : Type) := {
  ReceiveRequest : C → Z → bytes → bytes → option (C * bytes * Z);
  ReceiveResponse : C → Z → bytes → C;
  Blocked : C → bool;
}.

(** ** Preallocated tags *)
Record AppMemPool := MkPool {
  num_to_alloc : Z;
  backing : nat;               (* objects allocated so far: the addresses below *)
  pool : list tag;             (* its last element is the back of the vector *)
}.

Definition new_pool : AppMemPool := MkPool 1 0 [].
Definition extend_pool (p : AppMemPool) : AppMemPool :=
  MkPool (wrap64 (num_to_alloc p * 2)) (backing p + Z.to_nat (num_to_alloc p))
         (pool p ++ seq (backing p) (Z.to_nat (num_to_alloc p))).
(** [pool.back()] of an empty vector has no meaning. *)
Definition pool_alloc (p : AppMemPool) : option (tag * AppMemPool) :=
  let p := if decide (pool p = []) then extend_pool p else p in
  t ← last (pool p);
  Some (t, MkPool (num_to_alloc p) (backing p) (removelast (pool p))).
Definition pool_free (p : AppMemPool) (t : tag) : AppMemPool := MkPool (num_to_alloc p) (backing p) (pool p ++ [t]).

(** ** The transport *)
Record req_tag_t := MkTag {
  req_msgbuf : buf;
  resp_msgbuf : buf;
  reqType : Z;
  src : receiver;
}.

Record transport (R C : Type) := MkTransport {
  config : Configuration;
  id : Z;
  receiverIdx : Z;
  stop : bool;
  crt_req_tag : option tag;
  req_tag_pool : AppMemPool;
  tags : gmap tag req_tag_t;                           (* what the tags point to *)
  sessions : gmap receiver (gmap (Z * Z) Z);
  req_handle : option handle;
  server_receiver : option receiver;
  rpc : R;
  objects : gmap receiver C;                           (* the receivers themselves *)
}.
Arguments MkTransport {R C} _ _ _ _ _ _ _ _ _ _ _ _.
Arguments config {R C} _.
Arguments id {R C} _.
Arguments receiverIdx {R C} _.
Arguments stop {R C} _.
Arguments crt_req_tag {R C} _.
Arguments req_tag_pool {R C} _.
Arguments tags {R C} _.
Arguments sessions {R C} _.
Arguments req_handle {R C} _.
Arguments server_receiver {R C} _.
Arguments rpc {R C} _.
Arguments objects {R C} _.

Definition kBaseSmUdpPort : Z := 31850.

Section transport.
Context {R C : Type} `{Rpc R} `{TransportReceiver C}.
Notation T := (transport R C).

(** Assignments to single members. *)
Definition with_rpc (r : R) (t : T) : T :=
  MkTransport (config t) (id t) (receiverIdx t) (stop t) (crt_req_tag t) (req_tag_pool t) (tags t) (sessions t)
              (req_handle t) (server_receiver t) r (objects t).
Definition with_tag (x : tag) (v : req_tag_t) (t : T) : T :=
  MkTransport (config t) (id t) (receiverIdx t) (stop t) (crt_req_tag t) (req_tag_pool t) (<[x := v]> (tags t)) (sessions t)
              (req_handle t) (server_receiver t) (rpc t) (objects t).
Definition with_pool (p : AppMemPool) (t : T) : T :=
  MkTransport (config t) (id t) (receiverIdx t) (stop t) (crt_req_tag t) p (tags t) (sessions t)
              (req_handle t) (server_receiver t) (rpc t) (objects t).
Definition with_crt (x : tag) (t : T) : T :=
  MkTransport (config t) (id t) (receiverIdx t) (stop t) (Some x) (req_tag_pool t) (tags t) (sessions t)
              (req_handle t) (server_receiver t) (rpc t) (objects t).
Definition with_sessions (ss : gmap receiver (gmap (Z * Z) Z)) (t : T) : T :=
  MkTransport (config t) (id t) (receiverIdx t) (stop t) (crt_req_tag t) (req_tag_pool t) (tags t) ss
              (req_handle t) (server_receiver t) (rpc t) (objects t).
Definition with_handle (h : handle) (t : T) : T :=
  MkTransport (config t) (id t) (receiverIdx t) (stop t) (crt_req_tag t) (req_tag_pool t) (tags t) (sessions t)
              (Some h) (server_receiver t) (rpc t) (objects t).
Definition with_object (x : receiver) (c : C) (t : T) : T :=
  MkTransport (config t) (id t) (receiverIdx t) (stop t) (crt_req_tag t) (req_tag_pool t) (tags t) (sessions t)
              (req_handle t) (server_receiver t) (rpc t) (<[x := c]> (objects t)).
Definition with_registered (idx : Z) (x : option receiver) (t : T) : T :=
  MkTransport (config t) (id t) idx (stop t) (crt_req_tag t) (req_tag_pool t) (tags t) (sessions t)
              (req_handle t) x (rpc t) (objects t).

Definition get {A} (f : T → A) : M T A := λ t, Ok (f t) t.
Definition modify (f : T → T) : M T unit := λ t, Ok tt (f t).
(** A call of the endpoint whose conditions must hold. *)
Definition rpc_call (f : R → option R) : M T unit := λ t,
  match f (rpc t) with
  | Some r => Ok tt (with_rpc r t)
  | None => Halt undefined_behaviour
  end.

(** The members that the methods read, as the constructor and the default initialisers leave them: [c] is the configuration,
    [r] the endpoint made with the address below. *)
Definition local_uri (ip : text) (id : Z) : text := ip ++ lit ":" ++ print_Z (kBaseSmUdpPort + id).
Definition new_transport (c : Configuration) (id : Z) (r : R) : T :=
  MkTransport c id 0 false None new_pool ∅ ∅ None None r ∅.

Definition Register (x : receiver) (idx : Z) : M T unit :=
  let! c := get config in
  assert_ (idx <? n c) ;;
  modify (λ t, with_registered idx (if -1 <? idx then Some x else server_receiver t) t).

(** ** Callbacks *)
Definition fasttransport_response (t : tag) : M T unit :=
  let! rts := get tags in
  let! rt := of_option undefined_behaviour (rts !! t) in
  let! os := get objects in
  let! o := of_option undefined_behaviour (os !! src rt) in
  let! r := get rpc in
  modify (with_object (src rt) (ReceiveResponse o (reqType rt) (buf_bytes r (resp_msgbuf rt)))) ;;
  rpc_call (λ r, free_msg_buffer r (req_msgbuf rt)) ;;
  rpc_call (λ r, free_msg_buffer r (resp_msgbuf rt)) ;;
  modify (λ s, with_pool (pool_free (req_tag_pool s) t) s).

Definition SendResponse (msgLen : Z) : M T bool :=
  let! h := get req_handle in
  let! h := of_option undefined_behaviour h in
  rpc_call (λ r, resize_msg_buffer r (pre_resp_msgbuf r h) msgLen) ;;
  rpc_call (λ r, enqueue_response r h (pre_resp_msgbuf r h)) ;;
  ret true.
(** The form for several active requests is not compiled in. *)
Definition SendResponse_to (reqHandleIdx msgLen : Z) : M T bool := halt assert_failed.

(** The upcall ends with the call of [SendResponse]. *)
Definition fasttransport_request (h : handle) (reqType : Z) : M T unit :=
  modify (with_handle h) ;;
  let! x := get server_receiver in
  let! x := of_option undefined_behaviour x in
  let! os := get objects in
  let! o := of_option undefined_behaviour (os !! x) in
  let! r := get rpc in
  let! '(o, out, len) := of_option undefined_behaviour
    (ReceiveRequest o reqType (buf_bytes r (get_req_msgbuf r h)) (buf_bytes r (pre_resp_msgbuf r h))) in
  modify (with_object x o) ;;
  modify (λ t, with_rpc (write_buf (rpc t) (pre_resp_msgbuf r h) out) t) ;;
  let! _ := SendResponse len in
  ret tt.

(** The session management handler given to eRPC; it expects success. *)
Definition basic_sm_handler (session_num : Z) (sm_event_type : SmEventType) (sm_err_type : SmErrType) : M T unit :=
  assert_ (bool_decide (sm_err_type = kNoError)) ;;
  if negb (bool_decide (sm_event_type = kConnected) || bool_decide (sm_event_type = kDisconnected))
  then throw runtime_error
  else ret tt.

Definition callback (e : event) : M T unit :=
  match e with
  | got_response t => fasttransport_response t
  | got_request h ty => fasttransport_request h ty
  | session_event s ty err => basic_sm_handler s ty err
  end.
Fixpoint callbacks (es : list event) : M T unit :=
  match es with
  | [] => ret tt
  | e :: es' => callback e ;; callbacks es'
  end.
Definition run_event_loop_once : M T unit :=
  let! r := get rpc in
  let '(es, r) := poll r in
  modify (with_rpc r) ;;
  callbacks es.

(** ** Sending *)

(** A member of the object that a tag points to. *)
Definition new_tag : req_tag_t := MkTag 0%nat 0%nat 0 0%nat.
Definition tag_set (x : tag) (f : req_tag_t → req_tag_t) : M T unit :=
  modify (λ t, with_tag x (f (default new_tag (tags t !! x))) t).
Definition alloc_buf (size : Z) : M T buf := λ t,
  match alloc_msg_buffer_or_die (rpc t) size with
  | Some (b, r) => Ok b (with_rpc r t)
  | None => Throw runtime_error t
  end.
Definition alloc_tag : M T tag :=
  let! p := get req_tag_pool in
  let! '(x, p) := of_option undefined_behaviour (pool_alloc p) in
  modify (with_pool p) ;;
  ret x.
Definition current_tag : M T tag :=
  let! x := get crt_req_tag in
  of_option undefined_behaviour x.
Definition current_buf : M T buf :=
  let! x := current_tag in
  let! rts := get tags in
  let! rt := of_option undefined_behaviour (rts !! x) in
  ret (req_msgbuf rt).

Definition GetRequestBuf (reqLen respLen : Z) : M T buf :=
  let reqLen := if reqLen =? 0 then get_max_data_per_pkt else reqLen in
  let respLen := if respLen =? 0 then get_max_data_per_pkt else respLen in
  let! x := alloc_tag in
  modify (with_crt x) ;;
  let! b := alloc_buf reqLen in
  tag_set x (λ rt, MkTag b (resp_msgbuf rt) (reqType rt) (src rt)) ;;
  let! b' := alloc_buf respLen in
  tag_set x (λ rt, MkTag (req_msgbuf rt) b' (reqType rt) (src rt)) ;;
  current_buf.

(** [while (!is_connected(session_id)) run_event_loop_once();] *)
Fixpoint connect_loop (fuel : nat) (session_id : Z) : M T unit :=
  match fuel with
  | O => halt out_of_fuel
  | S fuel' =>
      let! r := get rpc in
      let! b := of_option undefined_behaviour (is_connected r session_id) in
      if b then ret tt else run_event_loop_once ;; connect_loop fuel' session_id
  end.

Definition session_uri (a : ServerAddress) (dstRpcIdx : Z) : text :=
  host a ++ lit ":" ++ print_Z (kBaseSmUdpPort + dstRpcIdx).

(** [serverIdx] and [dstRpcIdx] are [uint8_t]. *)
Definition GetSession (fuel : nat) (x : receiver) (serverIdx dstRpcIdx : Z) : M T Z :=
  modify (λ t, with_sessions (<[x := default ∅ (sessions t !! x)]> (sessions t)) t) ;;
  let! ss := get sessions in
  match default ∅ (ss !! x) !! (serverIdx, dstRpcIdx) with
  | Some s => ret s
  | None =>
      let! c := get config in
      let! a := of_option undefined_behaviour (GetServerAddress c serverIdx) in
      let! r := get rpc in
      let '(session_id, r) := create_session r (session_uri a dstRpcIdx) dstRpcIdx in
      modify (with_rpc r) ;;
      connect_loop fuel session_id ;;
      modify (λ t, with_sessions (<[x := <[(serverIdx, dstRpcIdx) := session_id]> (default ∅ (sessions t !! x))]> (sessions t)) t) ;;
      ret session_id
  end.

(** The request of a tag goes to eRPC, with [fasttransport_response] as its continuation. *)
Definition enqueue (session_id : Z) (reqType : Z) (x : tag) : M T unit :=
  let! rts := get tags in
  let! rt := of_option undefined_behaviour (rts !! x) in
  rpc_call (λ r, enqueue_request r session_id reqType (req_msgbuf rt) (resp_msgbuf rt) x).

(** [while (src->Blocked()) { run_event_loop_once(); yield(); }] *)
Fixpoint wait_loop (yield : M T unit) (fuel : nat) (x : receiver) : M T unit :=
  match fuel with
  | O => halt out_of_fuel
  | S fuel' =>
      let! os := get objects in
      let! o := of_option undefined_behaviour (os !! x) in
      if Blocked o then run_event_loop_once ;; yield ;; wait_loop yield fuel' x else ret tt
  end.

Definition uint8 (z : Z) : Z := z `mod` 256.

Definition SendRequestToServer (yield : M T unit) (fuel : nat) (x : receiver) (ty serverIdx dstRpcIdx msgLen : Z) : M T bool :=
  let! c := get config in
  assert_ (serverIdx <? wrap32 (n c)) ;;
  let! session_id := GetSession fuel x (uint8 serverIdx) dstRpcIdx in
  let! crt := current_tag in
  tag_set crt (λ rt, MkTag (req_msgbuf rt) (resp_msgbuf rt) (reqType rt) x) ;;
  tag_set crt (λ rt, MkTag (req_msgbuf rt) (resp_msgbuf rt) ty (src rt)) ;;
  let! b := current_buf in
  rpc_call (λ r, resize_msg_buffer r b msgLen) ;;
  enqueue session_id ty crt ;;
  wait_loop yield fuel x ;;
  ret true.

(** One server of the loop; the last one gets the current tag, the others a copy of its request. *)
Definition send_to (fuel : nat) (x : receiver) (ty dstRpcIdx msgLen i : Z) : M T unit :=
  let! idx := get receiverIdx in
  if idx =? i then ret tt else
  let! session_id := GetSession fuel x (uint8 i) dstRpcIdx in
  let! c := get config in
  let! crt := current_tag in
  if i =? n c - 1 then
    tag_set crt (λ rt, MkTag (req_msgbuf rt) (resp_msgbuf rt) (reqType rt) x) ;;
    tag_set crt (λ rt, MkTag (req_msgbuf rt) (resp_msgbuf rt) ty (src rt)) ;;
    enqueue session_id ty crt
  else
    let! rt := alloc_tag in
    let! b := alloc_buf msgLen in
    let! b' := alloc_buf get_max_data_per_pkt in
    tag_set rt (λ _, MkTag b b' ty x) ;;
    let! cb := current_buf in
    modify (λ t, with_rpc (write_buf (rpc t) b (take (Z.to_nat msgLen) (buf_bytes (rpc t) cb))) t) ;;
    enqueue session_id ty rt.
Fixpoint send_loop (fuel : nat) (x : receiver) (ty dstRpcIdx msgLen i : Z) (steps : nat) : M T unit :=
  match steps with
  | O => ret tt
  | S steps' => send_to fuel x ty dstRpcIdx msgLen i ;; send_loop fuel x ty dstRpcIdx msgLen (i + 1) steps'
  end.
Definition SendRequestToAllServers (yield : M T unit) (fuel : nat) (x : receiver) (ty dstRpcIdx msgLen : Z) : M T bool :=
  let! b := current_buf in
  rpc_call (λ r, resize_msg_buffer r b msgLen) ;;
  let! c := get config in
  send_loop fuel x ty dstRpcIdx msgLen 0 (Z.to_nat (n c)) ;;
  wait_loop yield fuel x ;;
  ret true.

(** ** The server's loop *)
Fixpoint Run (fuel : nat) : M T unit :=
  match fuel with
  | O => halt out_of_fuel
  | S fuel' =>
      let! b := get stop in
      if b then ret tt else run_event_loop_once ;; Run fuel'
  end.
Definition Stop : M T unit :=
  modify (λ t, MkTransport (config t) (id t) (receiverIdx t) true (crt_req_tag t) (req_tag_pool t) (tags t) (sessions t)
                           (req_handle t) (server_receiver t) (rpc t) (objects t)).
Definition GetID : M T Z := get id.
End transport.
