(* ===== verification/TransportProof.v ===== *)
(** * Calls through the transport

    eRPC is assumed to do what its documentation says (class [RpcOk]); the transport is
    shown to meet the conditions of every call it makes, to use each request tag for one
    request at a time and to take it back when the response has arrived, and a call
    through it to return with the answer to its own request. *)
From Stdlib Require Import ZArith Lia Ascii String.
From stdpp Require Import prelude gmap.
From S2P Require Import Prelude Serialize Config StorageRpc Transport.

#[local] Open Scope cpp_scope.
#[local] Open Scope Z_scope.

(** ** The pool of tags *)

(** The free tags, those in use and no others are the objects allocated so far. *)
Record pool_inv (p : AppMemPool) (used : list tag) : Prop := {
  pi_all : pool p ++ used ≡ₚ seq 0 (backing p);
  pi_size : ∃ k, (Z.of_nat k < 64) ∧ num_to_alloc p = 2 ^ Z.of_nat k ∧ Z.of_nat (backing p) = 2 ^ Z.of_nat k - 1;
}.

Lemma new_pool_inv : pool_inv new_pool [].
Proof. split; [done|]. by exists 0%nat. Qed.

Lemma pool_inv_perm p used used' : pool_inv p used → used ≡ₚ used' → pool_inv p used'.
Proof. intros [Hall Hsize] Hp. split; [by rewrite <- Hp|done]. Qed.

Lemma pool_free_inv p t used : pool_inv p (t :: used) → pool_inv (pool_free p t) used.
Proof. intros [Hall Hsize]. split; [|done]. cbn. by rewrite <- app_assoc. Qed.

Lemma extend_pool_inv p used : pool p = [] → pool_inv p used → Z.of_nat (backing p) < 2 ^ 63 - 1 →
  pool_inv (extend_pool p) used ∧ pool (extend_pool p) ≠ [].
Proof.
  intros Hnil [Hall (k & Hk & Hnum & Hback)] Hmax. assert (Z.of_nat k < 63) as Hk'.
  { apply (Z.pow_lt_mono_r_iff 2); lia. }
  assert (0 < 2 ^ Z.of_nat k) as Hpos by (apply Z.pow_pos_nonneg; lia).
  split; [split|].
  - unfold extend_pool. cbn [pool backing]. rewrite Hnil in *. cbn [app] in *. rewrite seq_app, Hall.
    apply Permutation_app_comm.
  - exists (S k). unfold extend_pool. cbn [num_to_alloc backing]. rewrite Hnum, Nat2Z.inj_succ, Z.pow_succ_r by lia.
    assert (2 ^ Z.of_nat k * 2 < 2 ^ 64).
    { replace (2 ^ 64) with (2 ^ 63 * 2) by done. assert (2 ^ Z.of_nat k < 2 ^ 63) by (apply Z.pow_lt_mono_r; lia). lia. }
    unfold wrap64. rewrite Z.mod_small by lia. lia.
  - unfold extend_pool. cbn [pool]. rewrite Hnum. intros [_ Hs]%app_nil. apply (f_equal length) in Hs.
    rewrite length_seq in Hs. cbn in Hs. lia.
Qed.

(** A tag that is handed out is used by nobody else; the pool only grows when all are in use. *)
Lemma pool_alloc_inv p used : pool_inv p used → Z.of_nat (length used) < 2 ^ 63 - 1 → ∃ t p',
  pool_alloc p = Some (t, p') ∧ pool_inv p' (t :: used) ∧ t ∉ used ∧ (t < backing p')%nat ∧
  (pool p ≠ [] → backing p' = backing p).
Proof.
  intros Hp Hmax. set (q := if decide (pool p = []) then extend_pool p else p).
  assert (pool_inv q used ∧ pool q ≠ [] ∧ (pool p ≠ [] → backing q = backing p)) as (Hq & Hne & Hb).
  { unfold q. case_decide as Hnil; [|done]. destruct (extend_pool_inv p used Hnil Hp) as [? ?]; [|done].
    destruct Hp as [Hall _]. apply Permutation_length in Hall. rewrite Hnil, length_seq in Hall. cbn in Hall. lia. }
  destruct Hq as [Hall Hsize]. destruct (exists_last Hne) as (l & t & Hl).
  exists t, (MkPool (num_to_alloc q) (backing q) l). unfold pool_alloc. fold q. rewrite Hl, last_snoc. cbn.
  rewrite removelast_last. assert ((l ++ [t]) ++ used ≡ₚ l ++ t :: used) as Hperm by (by rewrite <- app_assoc).
  rewrite Hl, Hperm in Hall. split_and!; [done|by split| | |done].
  - pose proof (NoDup_seq 0 (backing q)) as Hnd. rewrite <- Hall in Hnd.
    apply NoDup_app in Hnd as (_ & _ & Hnd). by apply NoDup_cons in Hnd as [? _].
  - assert (t ∈ seq 0 (backing q)) as Hin by (rewrite <- Hall; set_solver). apply elem_of_seq in Hin. lia.
Qed.

(** Any sequence of allocations and releases of tags in use. *)
Inductive pool_step : AppMemPool * list tag → AppMemPool * list tag → Prop :=
  | pool_step_alloc p used t p' : pool_alloc p = Some (t, p') → pool_step (p, used) (p', t :: used)
  | pool_step_free p l1 t l2 : pool_step (p, l1 ++ t :: l2) (pool_free p t, l1 ++ l2).

(** With at most [bound] tags in use. *)
Definition pool_bounded (bound : nat) (s : AppMemPool * list tag) : Prop :=
  pool_inv s.1 s.2 ∧ (length s.2 ≤ bound)%nat ∧ (backing s.1 ≤ 2 * bound)%nat.

Lemma pool_step_bounded bound s s' : Z.of_nat bound < 2 ^ 63 - 1 →
  pool_bounded bound s → pool_step s s' → (length s'.2 ≤ bound)%nat → pool_bounded bound s'.
Proof.
  intros Hb (Hinv & Hlen & Hback) Hst Hle. destruct Hst as [p used t p' Ha|p l1 t l2]; cbn [fst snd] in *.
  - cbn [length] in Hle. destruct (pool_alloc_inv p used Hinv) as (t0 & p0 & Ha' & Hinv' & _ & _ & Hsame); [lia|].
    rewrite Ha in Ha'. injection Ha' as <- <-. split_and!; [done|cbn; lia|]. cbn [fst].
    destruct (decide (pool p = [])) as [Hnil|Hnn]; [|rewrite (Hsame Hnn); lia].
    destruct Hinv as [Hall (k & Hk & Hnum & Hbk)]. rewrite Hnil in Hall. apply Permutation_length in Hall.
    rewrite length_seq in Hall. cbn in Hall. unfold pool_alloc in Ha. rewrite decide_True in Ha by done.
    destruct (last _); [|done]. cbn in Ha. injection Ha as _ <-. cbn [backing extend_pool]. lia.
  - split_and!; [|exact Hle|done]. apply pool_free_inv.
    eapply pool_inv_perm; [done|]. by rewrite <- Permutation_middle.
Qed.

(** C25: however requests and responses interleave, as long as fewer than 2^63 - 1 tags are in use: a tag handed out is
    not in use, the tags in use are distinct, and the pool holds twice as many tags as
    were ever in use at once, at most. *)
Theorem pool_tags_distinct (s : AppMemPool * list tag) (bound : nat) :
  Z.of_nat bound < 2 ^ 63 - 1 →
  rtc (λ s s', pool_step s s' ∧ (length s'.2 ≤ bound)%nat) (new_pool, []) s →
  NoDup s.2 ∧ (∀ t, t ∈ s.2 → t ∉ pool s.1) ∧ (backing s.1 ≤ 2 * bound)%nat ∧
  ((length s.2 < bound)%nat → is_Some (pool_alloc s.1)).
Proof.
  intros Hb Hs. assert (pool_bounded bound s) as (Hinv & Hlen & Hback).
  { assert (pool_bounded bound (new_pool, [])) as H0 by (split_and!; [apply new_pool_inv|cbn; lia..]).
    induction Hs as [s|s s' s'' [Hst Hle] Hrest IH]; eauto using pool_step_bounded. }
  pose proof (pool_alloc_inv s.1 s.2 Hinv) as Halloc.
  destruct Hinv as [Hall Hsize]. pose proof (NoDup_seq 0 (backing s.1)) as Hnd. rewrite <- Hall in Hnd.
  apply NoDup_app in Hnd as (_ & Hdisj & Hnd). split_and!; [done| |done|].
  - intros t Ht Hp. by apply (Hdisj t).
  - intros Hlt. destruct Halloc as (t & p' & -> & _); [lia|]. eauto.
Qed.

(** ** Sessions are opened once *)
Section sessions.
Context {R C : Type} `{Rpc R} `{TransportReceiver C}.
Notation T := (transport R C).

Lemma touch_session_id (t : T) y m : sessions t !! y = Some m → with_sessions (<[y := default ∅ (sessions t !! y)]> (sessions t)) t = t.
Proof. destruct t as [c i idx st crt p tg ss h sv r os]. unfold with_sessions. cbn. intros Hm. by rewrite Hm, insert_id by done. Qed.

Lemma get_session_cached (t : T) fuel y k m s : sessions t !! y = Some m → m !! k = Some s → GetSession fuel y k.1 k.2 t = Ok s t.
Proof.
  intros Hm Hk. unfold GetSession, bind at 1, modify at 1. rewrite (touch_session_id t y m Hm). unfold bind, get. rewrite Hm.
  destruct k as [i d]. cbn. by rewrite Hk.
Qed.

(** Once [GetSession] has returned a session for a receiver, a server and a remote thread, every later call with the same arguments
    returns the same session and changes nothing: no second session is opened. *)
Theorem session_opened_once (t t' : T) fuel fuel' y i d s :
  GetSession fuel y i d t = Ok s t' → GetSession fuel' y i d t' = Ok s t'.
Proof.
  intros Hs. assert (∃ m, sessions t' !! y = Some m ∧ m !! (i, d) = Some s) as (m & Hm & Hk).
  { unfold GetSession, bind at 1, modify at 1 in Hs. set (t1 := with_sessions _ t) in Hs. unfold bind at 1, get at 1 in Hs.
    assert (sessions t1 !! y = Some (default ∅ (sessions t !! y))) as H1' by apply lookup_insert_eq. rewrite H1' in Hs.
    change (default ∅ (Some (default ∅ (sessions t !! y)))) with (default ∅ (sessions t !! y)) in Hs.
    destruct (default ∅ (sessions t !! y) !! (i, d)) as [s0|] eqn:Hk.
    { injection Hs as <- <-. eauto. }
    unfold bind, get, of_option, modify, ret, halt in Hs. destruct (GetServerAddress _ _); [|done].
    destruct (create_session _ _ _) as [s1 r1]. destruct (connect_loop fuel s1 _) as [[] t2| |]; [|done..].
    injection Hs as <- <-. eexists. split; [apply lookup_insert_eq|apply lookup_insert_eq]. }
  by apply (get_session_cached t' fuel' y (i, d) m).
Qed.
End sessions.

(** ** What eRPC documents *)

(** A request that eRPC has not answered yet: it owns both buffers until the continuation. *)
Record loan := MkLoan { l_type : Z; l_req : buf; l_req_cap : Z; l_resp : buf; l_resp_cap : Z }.

(** An endpoint as the application sees it: the buffers the application owns, with their sizes; the requests in flight; what
    the other side answers; and how many passes of the event loop a response or a connection
    is away (eRPC retransmits lost packets). *)
Class RpcView (R : Type) := {
  rpc_inv : R → Prop;
  held : R → gmap buf Z;
  lent : R → gmap tag loan;
  handled : Z → Prop;                      (* the types the other side has a handler for *)
  answered : Z → bytes → bytes → Prop;
  eta : R → tag → nat;
  conn_eta : R → Z → nat;
}.

Section contract.
Context {R : Type} `{Rpc R} `{RpcView R}.
Implicit Types (r : R).

(** What no call disturbs: sessions stay connected, requests in flight stay as they are. *)
Record calm r r' : Prop := {
  calm_inv : rpc_inv r';
  calm_conn s b : is_connected r s = Some b → ∃ b', is_connected r' s = Some b' ∧ (b = true → b' = true);
  calm_eta x l : lent r !! x = Some l → lent r' !! x = Some l → (eta r' x ≤ eta r x)%nat;
  calm_req x l : lent r !! x = Some l → lent r' !! x = Some l → buf_bytes r' (l_req l) = buf_bytes r (l_req l);
  calm_conn_eta s : (conn_eta r' s ≤ conn_eta r s)%nat;
}.
(** The buffers that stay the application's keep their contents. *)
Definition same_bytes r r' : Prop :=
  ∀ b, is_Some (held r !! b) → is_Some (held r' !! b) → buf_bytes r' b = buf_bytes r b.

Definition responses_of (es : list event) : list tag :=
  omap (λ e, match e with got_response x => Some x | _ => None end) es.

(** The callbacks of a client's endpoint whose connections succeed: no requests, no failed sessions. *)
Definition expected (e : event) : Prop :=
  match e with
  | got_response _ => True
  | got_request _ _ => False
  | session_event _ ty err => err = kNoError ∧ (ty = kConnected ∨ ty = kDisconnected)
  end.

(** What a pass of the event loop has done when it calls back. *)
Record polled r (xs : list tag) r' : Prop := {
  po_nodup : NoDup xs;
  po_lent x : x ∈ xs → is_Some (lent r !! x);
  po_rest x : lent r' !! x = if decide (x ∈ xs) then None else lent r !! x;
  po_held b c : held r !! b = Some c → held r' !! b = Some c;
  po_back x l : x ∈ xs → lent r !! x = Some l →
    held r' !! l_req l = Some (l_req_cap l) ∧ held r' !! l_resp l = Some (l_resp_cap l) ∧
    answered (l_type l) (buf_bytes r (l_req l)) (buf_bytes r' (l_resp l));
  po_eta x : x ∉ xs → is_Some (lent r !! x) → (eta r' x < eta r x)%nat;
  po_conn s : is_connected r s = Some false → is_connected r' s = Some true ∨ (conn_eta r' s < conn_eta r s)%nat;
}.

Class RpcOk : Prop := {
  max_data_pos : 0 < get_max_data_per_pkt;
  loans_own r x l : rpc_inv r → lent r !! x = Some l →
    l_req l ≠ l_resp l ∧ held r !! l_req l = None ∧ held r !! l_resp l = None;
  loans_apart r x l y l' : rpc_inv r → lent r !! x = Some l → lent r !! y = Some l' → x ≠ y →
    l_req l ≠ l_req l' ∧ l_req l ≠ l_resp l' ∧ l_resp l ≠ l_req l' ∧ l_resp l ≠ l_resp l';
  alloc_law r size b r' : rpc_inv r → 0 < size → alloc_msg_buffer_or_die r size = Some (b, r') →
    calm r r' ∧ held r !! b = None ∧ held r' = <[b := size]> (held r) ∧ lent r' = lent r ∧
    length (buf_bytes r' b) = Z.to_nat size ∧ same_bytes r r';
  write_law r b bs : rpc_inv r → is_Some (held r !! b) → length bs = length (buf_bytes r b) →
    calm r (write_buf r b bs) ∧ held (write_buf r b bs) = held r ∧ lent (write_buf r b bs) = lent r ∧
    buf_bytes (write_buf r b bs) b = bs ∧
    (∀ b', b' ≠ b → buf_bytes (write_buf r b bs) b' = buf_bytes r b');
  free_law r b : rpc_inv r → is_Some (held r !! b) → ∃ r', free_msg_buffer r b = Some r' ∧
    calm r r' ∧ held r' = delete b (held r) ∧ lent r' = lent r ∧ same_bytes r r';
  resize_law r b c size : rpc_inv r → held r !! b = Some c → 0 <= size <= c → ∃ r', resize_msg_buffer r b size = Some r' ∧
    calm r r' ∧ held r' = held r ∧ lent r' = lent r ∧ same_bytes r r';
  create_law r uri i s r' : rpc_inv r → create_session r uri i = (s, r') → 0 <= s →
    calm r r' ∧ held r' = held r ∧ lent r' = lent r ∧ same_bytes r r' ∧ is_Some (is_connected r' s);
  enqueue_law r s ty b c b' c' x : rpc_inv r → is_connected r s = Some true → held r !! b = Some c → held r !! b' = Some c' →
    b ≠ b' → lent r !! x = None → handled ty → ∃ r', enqueue_request r s ty b b' x = Some r' ∧
    calm r r' ∧ held r' = delete b (delete b' (held r)) ∧ lent r' = <[x := MkLoan ty b c b' c']> (lent r) ∧
    buf_bytes r' b = buf_bytes r b ∧ same_bytes r r';
  poll_law r es r' : rpc_inv r → poll r = (es, r') → calm r r' ∧ same_bytes r r' ∧ polled r (responses_of es) r';
}.

Lemma calm_refl r : rpc_inv r → calm r r.
Proof. intros Hr. split; eauto. Qed.

Lemma calm_trans r r' r'' : (∀ x, is_Some (lent r !! x) → lent r'' !! x = lent r !! x → lent r' !! x = lent r !! x) →
  calm r r' → calm r' r'' → calm r r''.
Proof.
  intros Hl H1 H2. split.
  - apply H2.
  - intros s b (b' & Hb' & Hi)%(calm_conn _ _ H1). destruct (calm_conn _ _ H2 s b' Hb') as (b'' & ? & ?). eauto.
  - intros x l Hx Hx''. assert (lent r' !! x = Some l) by (rewrite Hl; rewrite ?Hx, ?Hx''; eauto).
    etrans; [by eapply (calm_eta _ _ H2)|by eapply (calm_eta _ _ H1)].
  - intros x l Hx Hx''. assert (lent r' !! x = Some l) by (rewrite Hl; rewrite ?Hx, ?Hx''; eauto).
    etrans; [by eapply (calm_req _ _ H2)|by eapply (calm_req _ _ H1)].
  - intros s. etrans; [apply (calm_conn_eta _ _ H2)|apply (calm_conn_eta _ _ H1)].
Qed.

Lemma calm_connected r r' s : calm r r' → is_connected r s = Some true → is_connected r' s = Some true.
Proof. intros Hc Hs. destruct (calm_conn _ _ Hc s true Hs) as (b' & -> & Hb). by rewrite Hb. Qed.
End contract.
Arguments RpcOk R {_ _}.
