(* ===== verification/TransportCalls.v ===== *)
(** * A call through the transport returns

    The invariant of a client's transport, that each operation keeps it, and that a
    request sent by [SendRequestToServer] is answered to the receiver that sent it. *)
From Stdlib Require Import ZArith Lia Ascii String.
From stdpp Require Import prelude gmap.
From S2P Require Import Prelude Serialize Config StorageRpc Transport TransportProof.

#[local] Open Scope cpp_scope.
#[local] Open Scope Z_scope.

Section calls.
Context {R C : Type} `{RpcOk R} `{TransportReceiver C}.
Notation T := (transport R C).
Implicit Types (t : T) (r : R).

(** The endpoints that only make calls are never called. *)
Hypothesis expected_events : ∀ r, rpc_inv r → Forall expected (poll r).1.

Definition outstanding t : list tag := (map_to_list (lent (rpc t))).*1.

(** The tags that are not in the pool are those of the requests in flight and [extra]. *)
Record t_inv t (extra : list tag) : Prop := {
  ti_rpc : rpc_inv (rpc t);
  ti_pool : pool_inv (req_tag_pool t) (outstanding t ++ extra);
  ti_loan x l : lent (rpc t) !! x = Some l → ∃ rt, tags t !! x = Some rt ∧
    req_msgbuf rt = l_req l ∧ resp_msgbuf rt = l_resp l ∧ reqType rt = l_type l ∧ is_Some (objects t !! src rt);
  ti_sessions y m k s : sessions t !! y = Some m → m !! k = Some s → is_connected (rpc t) s = Some true;
}.

(** What the event loop does not change. *)
Record unchanged t t' : Prop := {
  un_config : config t' = config t;
  un_crt : crt_req_tag t' = crt_req_tag t;
  un_tags : tags t' = tags t;
  un_sessions : sessions t' = sessions t;
  un_idx : receiverIdx t' = receiverIdx t;
  un_objects y : is_Some (objects t !! y) → is_Some (objects t' !! y);
}.

Lemma unchanged_refl t : unchanged t t.
Proof. by split. Qed.
Lemma unchanged_trans t t' t'' : unchanged t t' → unchanged t' t'' → unchanged t t''.
Proof. intros [] []. split; try congruence. eauto. Qed.

Lemma outstanding_elem t x : x ∈ outstanding t ↔ is_Some (lent (rpc t) !! x).
Proof.
  unfold outstanding. rewrite list_elem_of_fmap. split.
  - intros ([x' l] & -> & Hl%elem_of_map_to_list). eauto.
  - intros [l Hl]. exists (x, l). by rewrite elem_of_map_to_list.
Qed.

Lemma outstanding_nodup t : NoDup (outstanding t).
Proof. apply NoDup_fst_map_to_list. Qed.

(** Steps of straight-line code. *)
Lemma bind_run {A B} (m : M T A) (k : A → M T B) t a t' : m t = Ok a t' → bind m k t = k a t'.
Proof. unfold bind. by intros ->. Qed.
Lemma current_tag_run t x : crt_req_tag t = Some x → current_tag t = Ok x t.
Proof. unfold current_tag, bind, get, of_option. by intros ->. Qed.
Lemma current_buf_run t x rt : crt_req_tag t = Some x → tags t !! x = Some rt → current_buf t = Ok (req_msgbuf rt) t.
Proof. unfold current_buf, current_tag, bind, get, of_option, ret. intros -> Hrt. cbn. by rewrite Hrt. Qed.
Lemma tag_set_run t x rt f : tags t !! x = Some rt → tag_set x f t = Ok tt (with_tag x (f rt) t).
Proof. unfold tag_set, modify. by intros ->. Qed.
Lemma rpc_call_run t f r : f (rpc t) = Some r → rpc_call f t = Ok tt (with_rpc r t).
Proof. unfold rpc_call. by intros ->. Qed.

(** ** One response *)

(** A tag whose response has arrived: its buffers are the application's again. *)
Definition arrived t (x : tag) : Prop := ∃ rt, tags t !! x = Some rt ∧ req_msgbuf rt ≠ resp_msgbuf rt ∧
  is_Some (held (rpc t) !! req_msgbuf rt) ∧ is_Some (held (rpc t) !! resp_msgbuf rt) ∧ is_Some (objects t !! src rt).

Definition apart t (x y : tag) : Prop := ∀ rt rt', tags t !! x = Some rt → tags t !! y = Some rt' →
  req_msgbuf rt ≠ req_msgbuf rt' ∧ req_msgbuf rt ≠ resp_msgbuf rt' ∧ resp_msgbuf rt ≠ req_msgbuf rt' ∧ resp_msgbuf rt ≠ resp_msgbuf rt'.

(** The buffers of [x] are freed, no others. *)
Definition freed t (xs : list tag) t' : Prop := ∀ b,
  (∀ x rt, x ∈ xs → tags t !! x = Some rt → b ≠ req_msgbuf rt ∧ b ≠ resp_msgbuf rt) →
  held (rpc t') !! b = held (rpc t) !! b ∧ (is_Some (held (rpc t) !! b) → buf_bytes (rpc t') b = buf_bytes (rpc t) b).

Definition receive t (x : tag) (os : gmap receiver C) : gmap receiver C :=
  match tags t !! x with
  | Some rt => alter (λ o, ReceiveResponse o (reqType rt) (buf_bytes (rpc t) (resp_msgbuf rt))) (src rt) os
  | None => os
  end.

Lemma response_ok t x extra : t_inv t (x :: extra) → arrived t x → ∃ t',
  fasttransport_response x t = Ok tt t' ∧ t_inv t' extra ∧ unchanged t t' ∧ calm (rpc t) (rpc t') ∧
  lent (rpc t') = lent (rpc t) ∧ freed t [x] t' ∧ objects t' = receive t x (objects t).
Proof.
  intros Ht (rt & Hrt & Hne & Hreq & Hresp & [o Ho]).
  destruct (free_law (rpc t) (req_msgbuf rt) (ti_rpc _ _ Ht) Hreq) as (r1 & Hf1 & Hc1 & Hh1 & Hl1 & Hb1).
  assert (is_Some (held r1 !! resp_msgbuf rt)) as Hresp1 by by rewrite Hh1, lookup_delete_ne.
  destruct (free_law r1 (resp_msgbuf rt) (calm_inv _ _ Hc1) Hresp1) as (r2 & Hf2 & Hc2 & Hh2 & Hl2 & Hb2).
  assert (calm (rpc t) r2) as Hc by (eapply calm_trans; [|done..]; intros; by rewrite Hl1).
  eexists. split_and!.
  - unfold fasttransport_response, bind, get, modify, of_option, rpc_call, ret. rewrite Hrt, Ho. cbn.
    rewrite Hf1. cbn. rewrite Hf2. cbn. done.
  - split; cbn.
    + apply Hc.
    + apply pool_free_inv. eapply pool_inv_perm; [apply (ti_pool _ _ Ht)|].
      unfold outstanding. cbn. rewrite Hl2, Hl1. symmetry. apply Permutation_middle.
    + rewrite Hl2, Hl1. intros y l Hy. destruct (ti_loan _ _ Ht y l Hy) as (rt' & ? & ? & ? & ? & Hsrc).
      exists rt'. split_and!; try done. apply lookup_insert_is_Some'. by right.
    + intros y m k s Hy Hk. eapply calm_connected, (ti_sessions _ _ Ht); eauto.
  - split; cbn; try done. intros y Hy. apply lookup_insert_is_Some'. by right.
  - done.
  - cbn. by rewrite Hl2.
  - intros b Hb. destruct (Hb x rt) as [Hb1' Hb2']; [set_solver|done|]. cbn.
    rewrite Hh2, Hh1, !lookup_delete_ne by done. split; [done|]. intros Hs.
    rewrite Hb2, Hb1; rewrite ?Hh2, ?Hh1, ?lookup_delete_ne by done; done.
  - unfold receive. rewrite Hrt. cbn. symmetry. apply map_eq. intros y.
    destruct (decide (y = src rt)) as [->|Hy]; [by rewrite lookup_alter_eq, Ho, lookup_insert_eq|].
    by rewrite lookup_alter_ne, lookup_insert_ne.
Qed.

Lemma apart_not x y t rt rt' : apart t x y → tags t !! x = Some rt → tags t !! y = Some rt' →
  (∀ z rt0, z ∈ [x] → tags t !! z = Some rt0 → req_msgbuf rt' ≠ req_msgbuf rt0 ∧ req_msgbuf rt' ≠ resp_msgbuf rt0) ∧
  (∀ z rt0, z ∈ [x] → tags t !! z = Some rt0 → resp_msgbuf rt' ≠ req_msgbuf rt0 ∧ resp_msgbuf rt' ≠ resp_msgbuf rt0).
Proof.
  intros Ha Hx Hy. destruct (Ha rt rt' Hx Hy) as (? & ? & ? & ?).
  split; intros z rt0 ->%list_elem_of_singleton Hz; rewrite Hx in Hz; injection Hz as <-; auto.
Qed.

(** ** The responses of one pass *)
Lemma callbacks_ok xs extra : ∀ t, t_inv t (xs ++ extra) → NoDup xs → (∀ x, x ∈ xs → arrived t x) →
  (∀ x y, x ∈ xs → y ∈ xs → x ≠ y → apart t x y) → ∃ t',
  callbacks (got_response <$> xs) t = Ok tt t' ∧ t_inv t' extra ∧ unchanged t t' ∧ calm (rpc t) (rpc t') ∧
  lent (rpc t') = lent (rpc t) ∧ freed t xs t' ∧ objects t' = foldl (λ os x, receive t x os) (objects t) xs.
Proof.
  induction xs as [|x xs IH]; intros t Ht Hnd Harr Hap.
  { exists t. split_and!; try done; [apply calm_refl, Ht]. }
  apply NoDup_cons in Hnd as [Hx Hnd].
  destruct (response_ok t x (xs ++ extra) Ht) as (t1 & Hr & Ht1 & Hu1 & Hc1 & Hl1 & Hf1 & Ho1); [apply Harr; set_solver|].
  assert (∀ y rt, y ∈ xs → tags t !! y = Some rt →
    held (rpc t1) !! req_msgbuf rt = held (rpc t) !! req_msgbuf rt ∧ held (rpc t1) !! resp_msgbuf rt = held (rpc t) !! resp_msgbuf rt ∧
    (is_Some (held (rpc t) !! resp_msgbuf rt) → buf_bytes (rpc t1) (resp_msgbuf rt) = buf_bytes (rpc t) (resp_msgbuf rt))) as Hkeep.
  { intros y rt Hy Hrt. destruct (Harr x) as (rtx & Hrtx & _); [set_solver|].
    destruct (apart_not x y t rtx rt) as [H3 H4]; [apply Hap; set_solver|done..|].
    destruct (Hf1 _ H3) as [? _], (Hf1 _ H4) as [? ?]. done. }
  assert (∀ os, foldl (λ os x, receive t1 x os) os xs = foldl (λ os x, receive t x os) os xs) as Hfold.
  { clear IH Hnd Ht Ht1. assert (∀ y os, y ∈ xs → receive t1 y os = receive t y os) as Heq.
    { intros y os Hy. destruct (Harr y) as (rt & Hrt & _ & _ & Hs & _); [set_solver|].
      unfold receive. rewrite (un_tags _ _ Hu1), Hrt. destruct (Hkeep y rt Hy Hrt) as (_ & _ & Hb). by rewrite Hb. }
    clear -Heq. induction xs as [|y xs IH]; intros os; cbn; [done|]. rewrite Heq by set_solver. apply IH. set_solver. }
  destruct (IH t1) as (t2 & Hr2 & Ht2 & Hu2 & Hc2 & Hl2 & Hf2 & Ho2); [done|done| | |].
  { intros y Hy. destruct (Harr y) as (rt & Hrt & Hne & H3 & H4 & H5); [set_solver|].
    destruct (Hkeep y rt Hy Hrt) as (K1 & K2 & _). exists rt. rewrite (un_tags _ _ Hu1), K1, K2.
    split_and!; try done. by apply (un_objects _ _ Hu1). }
  { intros y z Hy Hz Hyz rt rt'. rewrite (un_tags _ _ Hu1). apply Hap; set_solver. }
  exists t2. split_and!.
  - cbn [callbacks callback fmap list_fmap]. unfold bind. by rewrite Hr.
  - done.
  - by eapply unchanged_trans.
  - eapply calm_trans; [|done..]. intros. by rewrite Hl1.
  - by rewrite Hl2.
  - intros b Hb. destruct (Hf1 b) as [K1 K2]; [set_solver|]. destruct (Hf2 b) as [K3 K4].
    { intros y rt Hy. rewrite (un_tags _ _ Hu1). apply Hb. set_solver. }
    rewrite K3, K1. split; [done|]. intros Hs. by rewrite K4, K2 by (rewrite ?K1; done).
  - rewrite Ho2, Hfold, Ho1. done.
Qed.

Lemma receive_lookup t x os y :
  receive t x os !! y = match tags t !! x with
    | Some rt => if decide (src rt = y) then (λ o, ReceiveResponse o (reqType rt) (buf_bytes (rpc t) (resp_msgbuf rt))) <$> os !! y else os !! y
    | None => os !! y
    end.
Proof.
  unfold receive. destruct (tags t !! x); [|done]. case_decide as Hy; [subst y; by rewrite lookup_alter_eq|by rewrite lookup_alter_ne].
Qed.

Lemma receive_other t xs y : (∀ x rt, x ∈ xs → tags t !! x = Some rt → src rt ≠ y) → ∀ os,
  foldl (λ os x, receive t x os) os xs !! y = os !! y.
Proof.
  induction xs as [|x xs IH]; intros Hs os; cbn; [done|]. rewrite IH by (intros; eapply Hs; [|done]; set_solver).
  rewrite receive_lookup. destruct (tags t !! x) as [rt|] eqn:Hx; [|done].
  rewrite decide_False; [done|]. eapply Hs; [|done]. set_solver.
Qed.

Lemma receive_one t xs x rt : NoDup xs → x ∈ xs → tags t !! x = Some rt →
  (∀ y rt', y ∈ xs → y ≠ x → tags t !! y = Some rt' → src rt' ≠ src rt) → ∀ os o, os !! src rt = Some o →
  foldl (λ os x, receive t x os) os xs !! src rt = Some (ReceiveResponse o (reqType rt) (buf_bytes (rpc t) (resp_msgbuf rt))).
Proof.
  intros Hnd Hx Hrt Hs os o Ho. apply list_elem_of_split in Hx as (l1 & l2 & ->).
  rewrite foldl_app. cbn [foldl]. apply NoDup_app in Hnd as (_ & Hd & [Hx2 _]%NoDup_cons).
  rewrite receive_other. 2:{ intros y rt' Hy. apply Hs; set_solver. }
  rewrite receive_lookup, Hrt, decide_True by done.
  rewrite receive_other, Ho; [done|]. intros y rt' Hy. apply Hs; [set_solver|]. intros ->. apply (Hd x Hy). by left.
Qed.

(** ** One pass of the event loop *)

(** A receiver has at most one request in flight: what clients that wait for their answers keep to. *)
Definition single t : Prop := ∀ x y rt rt', is_Some (lent (rpc t) !! x) → is_Some (lent (rpc t) !! y) →
  tags t !! x = Some rt → tags t !! y = Some rt' → src rt = src rt' → x = y.

(** What became of a request in flight. *)
Definition waits t (x : tag) (l : loan) (rt : req_tag_t) (o : C) : Prop :=
  lent (rpc t) !! x = Some l ∧ tags t !! x = Some rt ∧ objects t !! src rt = Some o.
Definition answer t (ty : Z) (req : bytes) (y : receiver) (o : C) : Prop :=
  ∃ resp, answered ty req resp ∧ objects t !! y = Some (ReceiveResponse o ty resp).

Record passed t t' : Prop := {
  pa_unchanged : unchanged t t';
  pa_calm : calm (rpc t) (rpc t');
  pa_held b c : held (rpc t) !! b = Some c → held (rpc t') !! b = Some c ∧ buf_bytes (rpc t') b = buf_bytes (rpc t) b;
  pa_loans x : is_Some (lent (rpc t') !! x) → lent (rpc t') !! x = lent (rpc t) !! x;
  pa_others y : (∀ x rt, is_Some (lent (rpc t) !! x) → tags t !! x = Some rt → src rt ≠ y) → objects t' !! y = objects t !! y;
  pa_conn s : is_connected (rpc t) s = Some false → is_connected (rpc t') s = Some true ∨ (conn_eta (rpc t') s < conn_eta (rpc t) s)%nat;
  pa_waits x l rt o : single t → waits t x l rt o →
    (waits t' x l rt o ∧ (eta (rpc t') x < eta (rpc t) x)%nat ∧ buf_bytes (rpc t') (l_req l) = buf_bytes (rpc t) (l_req l)) ∨
    (lent (rpc t') !! x = None ∧ answer t' (l_type l) (buf_bytes (rpc t) (l_req l)) (src rt) o);
}.

(** The other events of a pass leave no trace. *)
Lemma callbacks_expected es : Forall expected es → ∀ t, callbacks es t = callbacks (got_response <$> responses_of es) t.
Proof.
  induction 1 as [|e es He _ IH]; intros t; [done|]. destruct e as [x|h ty|s ty err]; [|done|].
  - cbn. unfold bind. destruct (fasttransport_response x t); auto.
  - cbn. destruct He as [-> [-> | ->]]; apply IH.
Qed.

(** The state in which the callbacks of a pass start. *)
Lemma polled_inv t extra es r' : t_inv t extra → poll (rpc t) = (es, r') →
  let xs := responses_of es in let t1 := with_rpc r' t in
  t_inv t1 (xs ++ extra) ∧ (∀ x, x ∈ xs → arrived t1 x) ∧ (∀ x y, x ∈ xs → y ∈ xs → x ≠ y → apart t1 x y).
Proof.
  intros Ht Hp xs t1. pose proof (ti_rpc _ _ Ht) as Hinv. destruct (poll_law _ _ _ Hinv Hp) as (Hc & Hb & Hpo). fold xs in Hpo.
  split_and!.
  - split; cbn.
    + apply Hc.
    + eapply pool_inv_perm; [apply (ti_pool _ _ Ht)|]. rewrite app_assoc. apply Permutation_app_tail. apply NoDup_Permutation.
      * apply outstanding_nodup.
      * apply NoDup_app. split_and!; [apply outstanding_nodup| |apply Hpo].
        intros x Hx Hxs. apply outstanding_elem in Hx. cbn in Hx. rewrite (po_rest _ _ _ Hpo), decide_True in Hx by done. by destruct Hx.
      * intros x. rewrite elem_of_app, !outstanding_elem. cbn. rewrite (po_rest _ _ _ Hpo). case_decide as Hx.
        -- split; [by right|]. intros _. by apply Hpo.
        -- naive_solver.
    + intros x l Hx. rewrite (po_rest _ _ _ Hpo) in Hx. case_decide; [done|]. by apply (ti_loan _ _ Ht).
    + intros y m k s Hy Hk. eapply calm_connected, (ti_sessions _ _ Ht); eauto.
  - intros x Hx. destruct (po_lent _ _ _ Hpo x Hx) as [l Hl]. destruct (ti_loan _ _ Ht x l Hl) as (rt & Hrt & Hq & Hs & _ & Ho).
    destruct (loans_own _ _ _ Hinv Hl) as (Hne & _). destruct (po_back _ _ _ Hpo x l Hx Hl) as (K1 & K2 & _).
    exists rt. cbn. rewrite Hq, Hs, K1, K2. split_and!; eauto.
  - intros x y Hx Hy Hxy rt rt' Hrt Hrt'. destruct (po_lent _ _ _ Hpo x Hx) as [l Hl], (po_lent _ _ _ Hpo y Hy) as [l' Hl'].
    destruct (ti_loan _ _ Ht x l Hl) as (rt1 & Hrt1 & K1 & K2 & _), (ti_loan _ _ Ht y l' Hl') as (rt2 & Hrt2 & K3 & K4 & _).
    cbn in Hrt, Hrt'. rewrite Hrt1 in Hrt. rewrite Hrt2 in Hrt'. injection Hrt as <-. injection Hrt' as <-. rewrite K1, K2, K3, K4.
    by apply (loans_apart _ _ _ _ _ Hinv Hl Hl').
Qed.

Lemma loop_ok t extra : t_inv t extra → ∃ t', run_event_loop_once t = Ok tt t' ∧ t_inv t' extra ∧ passed t t'.
Proof.
  intros Ht. pose proof (ti_rpc _ _ Ht) as Hinv. pose proof (expected_events _ Hinv) as Hes.
  destruct (poll (rpc t)) as [es r'] eqn:Hp. cbn in Hes. destruct (polled_inv t extra es r' Ht Hp) as (Ht1 & Harr & Hap).
  destruct (poll_law _ _ _ Hinv Hp) as (Hc & Hb & Hpo). set (xs := responses_of es) in *. set (t1 := with_rpc r' t) in *.
  destruct (callbacks_ok xs extra t1 Ht1 (po_nodup _ _ _ Hpo) Harr Hap) as (t' & Hr & Ht' & Hu & Hc' & Hl & Hf & Ho).
  assert (∀ x, lent (rpc t') !! x = if decide (x ∈ xs) then None else lent (rpc t) !! x) as Hlent.
  { intros x. rewrite Hl. apply Hpo. }
  exists t'. split; [|split; [done|]].
  { unfold run_event_loop_once, bind, get, modify. rewrite Hp. by rewrite callbacks_expected. }
  split.
  - destruct Hu as [??????]. by split.
  - eapply calm_trans; [|apply Hc|apply Hc']. intros x Hx. rewrite Hl. done.
  - intros b c Hbc. destruct (Hf b) as [K1 K2].
    { intros x rt Hx Hrt. destruct (po_lent _ _ _ Hpo x Hx) as [l Hlx].
      destruct (ti_loan _ _ Ht x l Hlx) as (rt1 & Hrt1 & Q1 & Q2 & _). cbn in Hrt. rewrite Hrt1 in Hrt. injection Hrt as <-.
      destruct (loans_own _ _ _ Hinv Hlx) as (_ & Q3 & Q4). rewrite Q1, Q2. split; intros ->; congruence. }
    pose proof (po_held _ _ _ Hpo b c Hbc) as Hbc'. rewrite K1. split; [done|]. rewrite K2 by eauto. apply Hb; eauto.
  - intros x. rewrite Hlent. case_decide; [|done]. intros [? ?]. done.
  - intros y Hy. rewrite Ho. apply (receive_other t1). intros x rt Hx Hrt. eapply Hy; [|done]. by apply Hpo.
  - intros s Hs. destruct (po_conn _ _ _ Hpo s Hs) as [Hs'|Hs'].
    + left. by eapply calm_connected.
    + right. eapply Nat.le_lt_trans; [apply (calm_conn_eta _ _ Hc')|done].
  - intros x l rt o Hsingle (Hx & Hrt & Hobj). destruct (decide (x ∈ xs)) as [Hxs|Hxs].
    + right. rewrite Hlent, decide_True by done. split; [done|].
      destruct (po_back _ _ _ Hpo x l Hxs Hx) as (_ & _ & Hans).
      destruct (ti_loan _ _ Ht x l Hx) as (rt1 & Hrt1 & _ & Q2 & Q3 & _). rewrite Hrt1 in Hrt. injection Hrt as <-.
      exists (buf_bytes r' (l_resp l)). split; [done|]. rewrite Ho, <- Q2, <- Q3.
      apply (receive_one t1 xs x); [apply Hpo|done|done| |done].
      intros y rt' Hy Hyx Hrt'. intros Heq. apply Hyx. eapply (Hsingle y x rt' rt1); eauto. by apply Hpo.
    + left. assert (lent (rpc t') !! x = Some l) as Hx' by by rewrite Hlent, decide_False.
      assert (lent r' !! x = Some l) as Hx1 by (rewrite (po_rest _ _ _ Hpo), decide_False; done). split_and!.
      * split_and!; [done|by rewrite (un_tags _ _ Hu)|]. rewrite Ho. rewrite (receive_other t1); [done|].
        intros y rt' Hy Hrt' Heq. apply Hxs. rewrite <- (Hsingle y x rt' rt); eauto. by apply Hpo.
      * eapply Nat.le_lt_trans; [by eapply (calm_eta _ _ Hc')|]. apply (po_eta _ _ _ Hpo); eauto.
      * rewrite (calm_req _ _ Hc' x l Hx1 Hx'). apply (calm_req _ _ Hc x l Hx Hx1).
Qed.

(** ** Several passes *)
Definition idle t (y : receiver) : Prop := ∀ x rt, is_Some (lent (rpc t) !! x) → tags t !! x = Some rt → src rt ≠ y.

Record drift t t' : Prop := {
  dr_config : config t' = config t;
  dr_crt : crt_req_tag t' = crt_req_tag t;
  dr_tags : tags t' = tags t;
  dr_objects y : is_Some (objects t !! y) → is_Some (objects t' !! y);
  dr_conn s b : is_connected (rpc t) s = Some b → ∃ b', is_connected (rpc t') s = Some b' ∧ (b = true → b' = true);
  dr_held b c : held (rpc t) !! b = Some c → held (rpc t') !! b = Some c ∧ buf_bytes (rpc t') b = buf_bytes (rpc t) b;
  dr_loans x : is_Some (lent (rpc t') !! x) → lent (rpc t') !! x = lent (rpc t) !! x;
  dr_idle y : idle t y → objects t' !! y = objects t !! y;
}.

Lemma passed_drift t t' : passed t t' → drift t t'.
Proof. intros []. split; try apply pa_unchanged0; try apply pa_calm0; done. Qed.

Lemma drift_refl t : drift t t.
Proof. split; eauto. Qed.

Lemma drift_idle t t' y : drift t t' → idle t y → idle t' y.
Proof.
  intros Hd Hy x rt Hx. rewrite (dr_tags _ _ Hd). apply Hy. by rewrite <- (dr_loans _ _ Hd).
Qed.

Lemma drift_single t t' : drift t t' → single t → single t'.
Proof.
  intros Hd Hs x y rt rt' Hx Hy. rewrite (dr_tags _ _ Hd). apply Hs; by rewrite <- (dr_loans _ _ Hd).
Qed.

Lemma drift_trans t t' t'' : drift t t' → drift t' t'' → drift t t''.
Proof.
  intros D1 D2. split.
  - by rewrite (dr_config _ _ D2), (dr_config _ _ D1).
  - by rewrite (dr_crt _ _ D2), (dr_crt _ _ D1).
  - by rewrite (dr_tags _ _ D2), (dr_tags _ _ D1).
  - intros y Hy. by apply (dr_objects _ _ D2), (dr_objects _ _ D1).
  - intros s b (b' & Hb' & Hi)%(dr_conn _ _ D1). destruct (dr_conn _ _ D2 s b' Hb') as (b'' & ? & ?). eauto.
  - intros b c (Hb & Hbb)%(dr_held _ _ D1). destruct (dr_held _ _ D2 b c Hb) as [? ->]. done.
  - intros x Hx. rewrite (dr_loans _ _ D2) by done. apply (dr_loans _ _ D1). by rewrite <- (dr_loans _ _ D2).
  - intros y Hy. rewrite (dr_idle _ _ D2) by (by eapply drift_idle). by apply (dr_idle _ _ D1).
Qed.

(** A new session is polled until it is connected. *)
Lemma connect_ok extra s : ∀ k t b, (conn_eta (rpc t) s ≤ k)%nat → t_inv t extra → is_connected (rpc t) s = Some b →
  ∃ t' N, (∀ fuel, (N ≤ fuel)%nat → connect_loop fuel s t = Ok tt t') ∧ t_inv t' extra ∧ drift t t' ∧
    is_connected (rpc t') s = Some true ∧ sessions t' = sessions t.
Proof.
  induction k as [k IH] using lt_wf_ind. intros t b Hk Ht Hs. destruct b.
  { exists t, 1%nat. split_and!; try done; [|apply drift_refl]. intros [|fuel] Hf; [lia|]. cbn. unfold bind, get, of_option. by rewrite Hs. }
  destruct (loop_ok t extra Ht) as (t1 & Hr & Ht1 & Hp).
  assert (∃ b', is_connected (rpc t1) s = Some b' ∧ (b' = true ∨ (conn_eta (rpc t1) s < conn_eta (rpc t) s)%nat)) as (b' & Hb' & Hlt).
  { destruct (pa_conn _ _ Hp s Hs) as [Hs'|Hs']; [eauto|].
    destruct (calm_conn _ _ (pa_calm _ _ Hp) s false Hs) as (b' & ? & _). eauto. }
  assert (∃ t' N, (∀ fuel, (N ≤ fuel)%nat → connect_loop fuel s t1 = Ok tt t') ∧ t_inv t' extra ∧ drift t1 t' ∧
    is_connected (rpc t') s = Some true ∧ sessions t' = sessions t1) as (t' & N & Hrun & Ht' & Hd & Hc & Hss).
  { destruct Hlt as [->|Hlt].
    - exists t1, 1%nat. split_and!; try done; [|apply drift_refl]. intros [|fuel] Hf; [lia|]. cbn. unfold bind, get, of_option. by rewrite Hb'.
    - apply (IH (conn_eta (rpc t1) s) ltac:(lia) t1 b'); [lia|done..]. }
  exists t', (S N). split_and!; try done.
  - intros [|fuel] Hf; [lia|]. cbn [connect_loop]. unfold bind, get, of_option. rewrite Hs. cbn [ret]. unfold ret. rewrite Hr. apply Hrun. lia.
  - eapply drift_trans; [by apply passed_drift|done].
  - rewrite Hss. apply (pa_unchanged _ _ Hp).
Qed.

(** ** Sessions *)
Lemma with_rpc_inv t r' extra : t_inv t extra → calm (rpc t) r' → lent r' = lent (rpc t) → t_inv (with_rpc r' t) extra.
Proof.
  intros Ht Hc Hl. split; cbn.
  - apply Hc.
  - unfold outstanding. cbn. rewrite Hl. apply Ht.
  - rewrite Hl. apply Ht.
  - intros y m k s Hy Hk. eapply calm_connected, (ti_sessions _ _ Ht); eauto.
Qed.

Lemma with_rpc_drift t r' : calm (rpc t) r' → held r' = held (rpc t) → lent r' = lent (rpc t) → same_bytes (rpc t) r' → drift t (with_rpc r' t).
Proof.
  intros Hc Hh Hl Hb. split; cbn; try done.
  - apply Hc.
  - intros b c Hbc. rewrite Hh. split; [done|]. apply Hb; rewrite ?Hh; eauto.
  - intros x _. by rewrite Hl.
Qed.

(** A session that a receiver's calls may use. *)
Definition has_session t (y : receiver) (k : Z * Z) (s : Z) : Prop := ∃ m, sessions t !! y = Some m ∧ m !! k = Some s.

Lemma add_session_inv t extra y k s : t_inv t extra → is_connected (rpc t) s = Some true →
  t_inv (with_sessions (<[y := <[k := s]> (default ∅ (sessions t !! y))]> (sessions t)) t) extra.
Proof.
  intros Ht Hs. split; cbn; try apply Ht.
  intros y' m k' s' [[<- <-]|[_ Hm]]%lookup_insert_Some Hk; [|by eapply (ti_sessions _ _ Ht)].
  apply lookup_insert_Some in Hk as [[_ <-]|[_ Hk]]; [done|].
  destruct (sessions t !! y) as [m|] eqn:Hm; cbn in Hk; [by eapply (ti_sessions _ _ Ht)|by rewrite lookup_empty in Hk].
Qed.

Lemma touch_session_inv t extra y : t_inv t extra → t_inv (with_sessions (<[y := default ∅ (sessions t !! y)]> (sessions t)) t) extra.
Proof.
  intros Ht. split; cbn; try apply Ht.
  intros y' m k' s' [[<- <-]|[_ Hm]]%lookup_insert_Some Hk; [|by eapply (ti_sessions _ _ Ht)].
  destruct (sessions t !! y) as [m|] eqn:Hm; cbn in Hk; [by eapply (ti_sessions _ _ Ht)|by rewrite lookup_empty in Hk].
Qed.

Lemma with_sessions_drift t ss : drift t (with_sessions ss t).
Proof. split; cbn; eauto. Qed.

(** The endpoint has room for another session. *)
Hypothesis sessions_open : ∀ r uri i, rpc_inv r → 0 <= (create_session r uri i).1.

Lemma session_ok t extra y i d : t_inv t extra → 0 <= i < Z.of_nat (length (servers (config t))) → ∃ s t' N,
  (∀ fuel, (N ≤ fuel)%nat → GetSession fuel y i d t = Ok s t') ∧ t_inv t' extra ∧ drift t t' ∧
  is_connected (rpc t') s = Some true ∧ has_session t' y (i, d) s.
Proof.
  intros Ht Hi. set (t1 := with_sessions (<[y := default ∅ (sessions t !! y)]> (sessions t)) t).
  assert (t_inv t1 extra) as Ht1 by by apply touch_session_inv.
  assert (∀ fuel, GetSession fuel y i d t = match default ∅ (sessions t !! y) !! (i, d) with Some s => Ok s t1 | None =>
    (let! c := get config in let! a := of_option undefined_behaviour (GetServerAddress c i) in let! r := get rpc in
      let '(session_id, r) := create_session r (session_uri a d) d in
      modify (with_rpc r) ;; connect_loop fuel session_id ;;
      modify (λ t, with_sessions (<[y := <[(i, d) := session_id]> (default ∅ (sessions t !! y))]> (sessions t)) t) ;; ret session_id) t1 end) as Hrun.
  { intros fuel. unfold GetSession. unfold bind at 1, modify at 1. unfold bind at 1, get at 1. fold t1.
    replace (default ∅ (sessions t1 !! y)) with (default ∅ (sessions t !! y)); [by destruct (default ∅ (sessions t !! y) !! (i, d))|].
    unfold t1. cbn. by rewrite lookup_insert_eq. }
  destruct (default ∅ (sessions t !! y) !! (i, d)) as [s|] eqn:Hs.
  { exists s, t1, 0%nat. assert (has_session t1 y (i, d) s) as (m & Hm & Hk).
    { eexists. split; [apply lookup_insert_eq|done]. }
    split_and!; [intros; apply Hrun|done|apply with_sessions_drift|by eapply (ti_sessions _ _ Ht1)|by exists m]. }
  destruct (lookup_lt_is_Some_2 (servers (config t)) (Z.to_nat i)) as [a Ha]; [lia|].
  destruct (create_session (rpc t1) (session_uri a d) d) as [s r'] eqn:Hcr.
  assert (0 <= s) as Hs0 by (pose proof (sessions_open (rpc t1) (session_uri a d) d (ti_rpc _ _ Ht1)) as Hpos; by rewrite Hcr in Hpos).
  destruct (create_law _ _ _ _ _ (ti_rpc _ _ Ht1) Hcr Hs0) as (Hc & Hh & Hl & Hb & [b Hconn]).
  destruct (connect_ok extra s (conn_eta r' s) (with_rpc r' t1) b) as (t2 & N & Hloop & Ht2 & Hd2 & Hc2 & Hss); [done|by apply with_rpc_inv|done|].
  exists s, (with_sessions (<[y := <[(i, d) := s]> (default ∅ (sessions t2 !! y))]> (sessions t2)) t2), N. split_and!.
  - intros fuel Hf. rewrite Hrun. unfold bind, get, of_option, modify, ret, GetServerAddress.
    destruct (Z.ltb_spec i 0); [lia|]. cbn [config t1 with_sessions]. rewrite Ha, Hcr. by rewrite Hloop.
  - by apply add_session_inv.
  - eapply drift_trans; [apply with_sessions_drift|]. eapply drift_trans; [by apply with_rpc_drift|].
    eapply drift_trans; [done|apply with_sessions_drift].
  - done.
  - eexists. split; [apply lookup_insert_eq|apply lookup_insert_eq].
Qed.

(** ** Waiting for the response *)

(** The request of receiver [y] is in flight, or answered. *)
Definition in_flight t (y : receiver) (x : tag) (l : loan) (o : C) : Prop := ∃ rt, src rt = y ∧ waits t x l rt o.
Definition settled t (y : receiver) (l : loan) (req : bytes) (o : C) : Prop := idle t y ∧ answer t (l_type l) req y o.

(** What the other fibers of the thread may do while receiver [y] waits: anything but use it. *)
Definition fibers_ok (yield : M T unit) (y : receiver) : Prop := ∀ t, t_inv t [] → single t → ∃ t',
  yield t = Ok tt t' ∧ t_inv t' [] ∧ single t' ∧
  (idle t y → idle t' y ∧ objects t' !! y = objects t !! y) ∧
  (∀ x l o, in_flight t y x l o →
    (in_flight t' y x l o ∧ (eta (rpc t') x ≤ eta (rpc t) x)%nat ∧ buf_bytes (rpc t') (l_req l) = buf_bytes (rpc t) (l_req l)) ∨
    settled t' y l (buf_bytes (rpc t) (l_req l)) o).

(** A pass on behalf of any fiber. *)
Lemma passed_progress t t' y x l o : passed t t' → single t → in_flight t y x l o →
  (in_flight t' y x l o ∧ (eta (rpc t') x < eta (rpc t) x)%nat ∧ buf_bytes (rpc t') (l_req l) = buf_bytes (rpc t) (l_req l)) ∨
  settled t' y l (buf_bytes (rpc t) (l_req l)) o.
Proof.
  intros Hp Hs (rt & Hsrc & Hw). destruct (pa_waits _ _ Hp x l rt o Hs Hw) as [(Hw' & He & Hb)|[Hnone Ha]].
  - left. split_and!; [by exists rt|done..].
  - right. rewrite <- Hsrc. split; [|done]. intros x' rt' Hx' Hrt' Heq. rewrite (un_tags _ _ (pa_unchanged _ _ Hp)) in Hrt'.
    destruct Hw as (Hx & Hrt & _). assert (x' = x) as ->; [|rewrite Hnone in Hx'; by destruct Hx'].
    apply (Hs x' x rt' rt); eauto. by rewrite <- (pa_loans _ _ Hp).
Qed.

Lemma fibers_ok_none y : fibers_ok (ret tt) y.
Proof. intros t Ht Hs. exists t. split_and!; try done. intros x l o Hw. by left. Qed.

Lemma fibers_ok_polling y : fibers_ok run_event_loop_once y.
Proof.
  intros t Ht Hs. destruct (loop_ok t [] Ht) as (t' & Hr & Ht' & Hp). pose proof (passed_drift _ _ Hp) as Hd. exists t'. split_and!; try done.
  - by eapply drift_single.
  - intros Hy. split; [by eapply drift_idle|by apply (dr_idle _ _ Hd)].
  - intros x l o Hw. destruct (passed_progress t t' y x l o Hp Hs Hw) as [(? & ? & ?)|?]; [left|by right].
    split_and!; [done|lia|done].
Qed.

Section wait.
Context (yield : M T unit) (y : receiver) (o : C) (l : loan) (req : bytes).
Hypothesis Hyield : fibers_ok yield y.
Hypothesis Hblocked : Blocked o = true.
Hypothesis Hunblocks : ∀ resp, answered (l_type l) req resp → Blocked (ReceiveResponse o (l_type l) resp) = false.

Lemma wait_settled t : settled t y l req o → ∀ fuel, (1 ≤ fuel)%nat → wait_loop yield fuel y t = Ok tt t.
Proof.
  intros (_ & resp & Ha & Ho) [|fuel] Hf; [lia|]. cbn [wait_loop]. unfold bind, get, of_option. rewrite Ho.
  unfold ret. by rewrite Hunblocks.
Qed.

Lemma wait_ok x : ∀ k t, (eta (rpc t) x ≤ k)%nat → t_inv t [] → single t → in_flight t y x l o → buf_bytes (rpc t) (l_req l) = req →
  ∃ t' N, (∀ fuel, (N ≤ fuel)%nat → wait_loop yield fuel y t = Ok tt t') ∧ t_inv t' [] ∧ single t' ∧ settled t' y l req o.
Proof.
  induction k as [k IH] using lt_wf_ind. intros t Hk Ht Hs Hw Hreq.
  destruct (loop_ok t [] Ht) as (t1 & Hr1 & Ht1 & Hp). pose proof (passed_drift _ _ Hp) as Hd.
  assert (single t1) as Hs1 by by eapply drift_single.
  destruct (Hyield t1 Ht1 Hs1) as (t2 & Hr2 & Ht2 & Hs2 & Hidle & Hfly).
  assert (settled t2 y l req o ∨ (in_flight t2 y x l o ∧ (eta (rpc t2) x < eta (rpc t) x)%nat ∧ buf_bytes (rpc t2) (l_req l) = req)) as Hcases.
  { destruct (passed_progress t t1 y x l o Hp Hs Hw) as [(Hw1 & He1 & Hb1)|Hset].
    - destruct (Hfly x l o Hw1) as [(Hw2 & He2 & Hb2)|Hset].
      + right. split_and!; [done|lia|congruence].
      + left. by rewrite Hb1, Hreq in Hset.
    - left. rewrite Hreq in Hset. destruct Hset as (Hi & resp & Ha & Ho). destruct (Hidle Hi) as [Hi2 Ho2].
      split; [done|]. exists resp. by rewrite Ho2. }
  assert (∃ t' N, (∀ fuel, (N ≤ fuel)%nat → wait_loop yield fuel y t2 = Ok tt t') ∧ t_inv t' [] ∧ single t' ∧ settled t' y l req o) as (t' & N & Hrun & Hrest).
  { destruct Hcases as [Hset|(Hw2 & He2 & Hb2)].
    - exists t2, 1%nat. split; [by apply wait_settled|done].
    - apply (IH (eta (rpc t2) x) ltac:(lia) t2); [lia|done..]. }
  exists t', (S N). split; [|done]. intros [|fuel] Hf; [lia|]. destruct Hw as (rt & Hsrc & _ & _ & Ho). rewrite Hsrc in Ho.
  cbn [wait_loop]. unfold bind, get, of_option. rewrite Ho. unfold ret. rewrite Hblocked, Hr1, Hr2. apply Hrun. lia.
Qed.
End wait.

(** ** Sending a request *)
Lemma extra_not_lent t x extra : t_inv t (x :: extra) → lent (rpc t) !! x = None.
Proof.
  intros Ht. destruct (lent (rpc t) !! x) as [l|] eqn:Hl; [|done]. exfalso.
  destruct (ti_pool _ _ Ht) as [Hall _]. pose proof (NoDup_seq 0 (backing (req_tag_pool t))) as Hnd. rewrite <- Hall in Hnd.
  apply NoDup_app in Hnd as (_ & _ & Hnd). apply NoDup_app in Hnd as (_ & Hd & _).
  apply (Hd x); [apply outstanding_elem; eauto|by left].
Qed.

(** Filling in a tag that is not in flight. *)
Lemma set_tag_inv t x v extra : t_inv t (x :: extra) → t_inv (with_tag x v t) (x :: extra).
Proof.
  intros Ht. pose proof (extra_not_lent t x extra Ht) as Hx. split; cbn; try apply Ht.
  intros x' l Hl. rewrite lookup_insert_ne by congruence. by apply (ti_loan _ _ Ht).
Qed.

Lemma enqueue_ok t x extra b b' c c' s ty y : t_inv t (x :: extra) → tags t !! x = Some (MkTag b b' ty y) →
  b ≠ b' → held (rpc t) !! b = Some c → held (rpc t) !! b' = Some c' → is_connected (rpc t) s = Some true →
  is_Some (objects t !! y) → handled ty → ∃ r', enqueue s ty x t = Ok tt (with_rpc r' t) ∧ t_inv (with_rpc r' t) extra ∧
    lent r' = <[x := MkLoan ty b c b' c']> (lent (rpc t)) ∧ buf_bytes r' b = buf_bytes (rpc t) b.
Proof.
  intros Ht Hx Hne Hb Hb' Hs Hy Hty. pose proof (extra_not_lent t x extra Ht) as Hnl.
  destruct (enqueue_law (rpc t) s ty b c b' c' x (ti_rpc _ _ Ht) Hs Hb Hb' Hne Hnl Hty) as (r' & Hr & Hc & Hh & Hl & Hbytes & Hsame).
  exists r'. split_and!; [|split|done|done]; cbn.
  - unfold enqueue, bind, get, of_option, rpc_call, ret. rewrite Hx. cbn. by rewrite Hr.
  - apply Hc.
  - eapply pool_inv_perm; [apply (ti_pool _ _ Ht)|]. unfold outstanding. cbn. rewrite Hl.
    rewrite map_to_list_insert by done. cbn. rewrite <- Permutation_middle. done.
  - rewrite Hl. intros x' l' [[<- <-]|[Hx' Hl']]%lookup_insert_Some; [by eexists|by apply (ti_loan _ _ Ht)].
  - intros y' m k s' Hy' Hk. eapply calm_connected, (ti_sessions _ _ Ht); eauto.
Qed.

(** The current tag, with its buffers and the request in the first. *)
Definition prepared t (x : tag) (c c' : Z) (req : bytes) : Prop := crt_req_tag t = Some x ∧
  ∃ rt, tags t !! x = Some rt ∧ req_msgbuf rt ≠ resp_msgbuf rt ∧ held (rpc t) !! req_msgbuf rt = Some c ∧
    held (rpc t) !! resp_msgbuf rt = Some c' ∧ buf_bytes (rpc t) (req_msgbuf rt) = req.

Lemma prepared_drift t t' x c c' req : drift t t' → prepared t x c c' req → prepared t' x c c' req.
Proof.
  intros Hd (Hcrt & rt & Hrt & Hne & Hb & Hb' & Hreq). destruct (dr_held _ _ Hd _ _ Hb) as [Q1 Q2], (dr_held _ _ Hd _ _ Hb') as [Q3 _].
  split; [by rewrite (dr_crt _ _ Hd)|]. exists rt. rewrite (dr_tags _ _ Hd). split_and!; try done. congruence.
Qed.

(** From the connected session to the request in flight. *)
Lemma launch_ok t x c c' req s ty y o msgLen : t_inv t [x] → single t → idle t y → prepared t x c c' req →
  0 <= msgLen <= c → is_connected (rpc t) s = Some true → objects t !! y = Some o → handled ty →
  ∃ t' l, l_type l = ty ∧ (∀ k : M T bool,
    (let! crt := current_tag in
     tag_set crt (λ rt, MkTag (req_msgbuf rt) (resp_msgbuf rt) (reqType rt) y) ;;
     tag_set crt (λ rt, MkTag (req_msgbuf rt) (resp_msgbuf rt) ty (src rt)) ;;
     let! b := current_buf in
     rpc_call (λ r, resize_msg_buffer r b msgLen) ;;
     enqueue s ty crt ;; k) t = k t') ∧
    t_inv t' [] ∧ single t' ∧ in_flight t' y x l o ∧ buf_bytes (rpc t') (l_req l) = req.
Proof.
  intros Ht Hs Hidle (Hcrt & rt & Hrt & Hne & Hb & Hb' & Hreq) Hlen Hconn Ho Hhandled. destruct rt as [b b' ty0 y0]. cbn in *.
  set (t1 := with_tag x (MkTag b b' ty0 y) t). set (t2 := with_tag x (MkTag b b' ty y) t1).
  assert (t_inv t2 [x]) as Ht2 by by apply set_tag_inv, set_tag_inv.
  destruct (resize_law (rpc t2) b c msgLen (ti_rpc _ _ Ht2) Hb Hlen) as (r3 & Hr3 & Hc3 & Hh3 & Hl3 & Hb3).
  set (t3 := with_rpc r3 t2). assert (t_inv t3 [x]) as Ht3 by by apply with_rpc_inv.
  assert (tags t3 !! x = Some (MkTag b b' ty y)) as Hx3 by apply lookup_insert_eq.
  assert (held (rpc t3) !! b = Some c ∧ held (rpc t3) !! b' = Some c') as [Q1 Q2] by (cbn; by rewrite Hh3).
  assert (is_connected (rpc t3) s = Some true) as Q3 by by eapply calm_connected.
  destruct (enqueue_ok t3 x [] b b' c c' s ty y Ht3 Hx3 Hne Q1 Q2 Q3) as (r4 & Hr4 & Ht4 & Hl4 & Hb4); [by eexists|done|].
  clear Q1 Q2 Q3.
  pose proof (extra_not_lent t x [] Ht) as Hnl. assert (lent r4 = <[x := MkLoan ty b c b' c']> (lent (rpc t))) as Hl4'.
  { rewrite Hl4. cbn. by rewrite Hl3. }
  assert (∀ x' rt', x' ≠ x → is_Some (lent r4 !! x') → tags t3 !! x' = Some rt' → is_Some (lent (rpc t) !! x') ∧ tags t !! x' = Some rt') as Hold.
  { intros x' rt' Hx'. rewrite Hl4'. cbn. by rewrite !lookup_insert_ne. }
  exists (with_rpc r4 t3), (MkLoan ty b c b' c'). split_and!; [done| |done| | |].
  - intros k. rewrite (bind_run _ _ t x t) by by apply current_tag_run.
    rewrite (bind_run _ _ t tt t1) by by apply (tag_set_run t x (MkTag b b' ty0 y0)).
    rewrite (bind_run _ _ t1 tt t2) by (apply (tag_set_run t1 x (MkTag b b' ty0 y)), lookup_insert_eq).
    rewrite (bind_run _ _ t2 b t2) by (apply (current_buf_run t2 x (MkTag b b' ty y)); [done|apply lookup_insert_eq]).
    rewrite (bind_run _ _ t2 tt t3) by by apply rpc_call_run.
    by rewrite (bind_run _ _ t3 tt (with_rpc r4 t3)).
  - intros x1 x2 rt1 rt2 Hx1 Hx2 Hrt1 Hrt2 Hsrc. cbn [rpc with_rpc tags] in *.
    destruct (decide (x1 = x)) as [->|Hn1], (decide (x2 = x)) as [->|Hn2]; try done.
    + rewrite Hx3 in Hrt1. injection Hrt1 as <-. destruct (Hold x2 rt2) as [Q1 Q2]; try done. by destruct (Hidle x2 rt2 Q1 Q2).
    + rewrite Hx3 in Hrt2. injection Hrt2 as <-. destruct (Hold x1 rt1) as [Q1 Q2]; try done. by destruct (Hidle x1 rt1 Q1 Q2).
    + destruct (Hold x1 rt1) as [Q1 Q2], (Hold x2 rt2) as [Q3 Q4]; try done. by apply (Hs x1 x2 rt1 rt2).
  - exists (MkTag b b' ty y). split; [done|]. split_and!; [cbn; rewrite Hl4'; apply lookup_insert_eq|exact Hx3|done].
  - cbn. rewrite Hb4. cbn. rewrite Hb3; [done|cbn; eauto..]. rewrite Hh3. cbn. eauto.
Qed.

(** A server of the configuration. *)
Definition server_known (c : Configuration) (serverIdx : Z) : Prop :=
  n c = Z.of_nat (length (servers c)) ∧ n c < 2 ^ 31 ∧ 0 <= serverIdx < n c.

(** A request that was prepared is sent and answered, whatever the other fibers do. *)
Lemma send_ok yield t x c c' req ty y o serverIdx d msgLen : t_inv t [x] → single t → idle t y → prepared t x c c' req →
  0 <= msgLen <= c → server_known (config t) serverIdx → objects t !! y = Some o → Blocked o = true →
  (∀ resp, answered ty req resp → Blocked (ReceiveResponse o ty resp) = false) → fibers_ok yield y → handled ty →
  ∃ t' N, (∀ fuel, (N ≤ fuel)%nat → SendRequestToServer yield fuel y ty serverIdx d msgLen t = Ok true t') ∧
    t_inv t' [] ∧ single t' ∧ idle t' y ∧ answer t' ty req y o.
Proof.
  intros Ht Hs Hidle Hprep Hlen (Hn & Hmax & Hidx) Ho Hbl Hunbl Hyield Hhandled.
  assert (0 <= uint8 serverIdx < Z.of_nat (length (servers (config t)))) as Hi.
  { unfold uint8. pose proof (Z.mod_pos_bound serverIdx 256 ltac:(lia)). pose proof (Z.mod_le serverIdx 256 ltac:(lia) ltac:(lia)). lia. }
  destruct (session_ok t [x] y (uint8 serverIdx) d Ht Hi) as (s & t1 & N1 & Hrun1 & Ht1 & Hd1 & Hc1 & _).
  assert (objects t1 !! y = Some o) as Ho1 by by rewrite (dr_idle _ _ Hd1).
  destruct (launch_ok t1 x c c' req s ty y o msgLen Ht1 (drift_single _ _ Hd1 Hs) (drift_idle _ _ _ Hd1 Hidle)
    (prepared_drift _ _ _ _ _ _ Hd1 Hprep) Hlen Hc1 Ho1 Hhandled) as (t2 & l & Hty & Hrun2 & Ht2 & Hs2 & Hfly & Hreq).
  subst ty. destruct (wait_ok yield y o l req Hyield Hbl Hunbl x (eta (rpc t2) x) t2) as (t3 & N2 & Hrun3 & Ht3 & Hs3 & Hi3 & Ha3); try done.
  exists t3, (max N1 N2). split_and!; try done. intros fuel Hf. unfold SendRequestToServer.
  rewrite (bind_run _ _ t (config t) t) by done. rewrite (bind_run _ _ t tt t).
  2:{ unfold wrap32. rewrite Z.mod_small by lia. by destruct (Z.ltb_spec serverIdx (n (config t))); [|lia]. }
  rewrite (bind_run _ _ t s t1) by (apply Hrun1; lia). rewrite Hrun2. rewrite (bind_run _ _ t2 tt t3) by (apply Hrun3; lia). done.
Qed.

(** ** Preparing a request *)
Lemma alloc_buf_ok t extra size : t_inv t extra → 0 < size →
  match alloc_buf size t with
  | Ok b t' => ∃ r', t' = with_rpc r' t ∧ t_inv t' extra ∧ held (rpc t) !! b = None ∧ held r' = <[b := size]> (held (rpc t)) ∧
      lent r' = lent (rpc t) ∧ length (buf_bytes r' b) = Z.to_nat size ∧ same_bytes (rpc t) r'
  | Throw e _ => e = runtime_error
  | Halt _ => False
  end.
Proof.
  intros Ht Hsize. unfold alloc_buf. destruct (alloc_msg_buffer_or_die (rpc t) size) as [[b r']|] eqn:Ha; [|done].
  destruct (alloc_law _ _ _ _ (ti_rpc _ _ Ht) Hsize Ha) as (Hc & ? & ? & Hl & ? & ?). exists r'. split_and!; try done. by apply with_rpc_inv.
Qed.

Lemma alloc_tag_ok t extra : t_inv t extra → Z.of_nat (length (outstanding t ++ extra)) < 2 ^ 63 - 1 → ∃ x p,
  alloc_tag t = Ok x (with_pool p t) ∧ t_inv (with_pool p t) (x :: extra).
Proof.
  intros Ht Hlen. destruct (pool_alloc_inv _ _ (ti_pool _ _ Ht) Hlen) as (x & p & Hp & Hinv & _).
  exists x, p. split.
  - unfold alloc_tag, bind, get, of_option, modify, ret. by rewrite Hp.
  - split; cbn; try apply Ht. eapply pool_inv_perm; [done|]. apply Permutation_middle.
Qed.

Lemma request_buf_ok t reqLen respLen : t_inv t [] → Z.of_nat (length (outstanding t)) < 2 ^ 63 - 1 → 0 < reqLen → 0 < respLen →
  match GetRequestBuf reqLen respLen t with
  | Ok b t' => ∃ x, t_inv t' [x] ∧ prepared t' x reqLen respLen (buf_bytes (rpc t') b) ∧
      (∃ rt, tags t' !! x = Some rt ∧ req_msgbuf rt = b) ∧ length (buf_bytes (rpc t') b) = Z.to_nat reqLen ∧
      config t' = config t ∧ objects t' = objects t ∧ lent (rpc t') = lent (rpc t) ∧
      (∀ x', is_Some (lent (rpc t) !! x') → tags t' !! x' = tags t !! x')
  | Throw e _ => e = runtime_error
  | Halt _ => False
  end.
Proof.
  intros Ht Hlen Hreq Hresp. destruct (alloc_tag_ok t [] Ht) as (x & p & Hr1 & Ht1); [by rewrite app_nil_r|].
  unfold GetRequestBuf. destruct (Z.eqb_spec reqLen 0), (Z.eqb_spec respLen 0); [lia..|].
  rewrite (bind_run _ _ _ _ _ Hr1). set (t1 := with_pool p t) in *. set (t2 := with_crt x t1).
  rewrite (bind_run _ _ t1 tt t2) by done. assert (t_inv t2 [x]) as Ht2 by (destruct Ht1; by split).
  pose proof (alloc_buf_ok t2 [x] reqLen Ht2 Hreq) as Ha. unfold bind at 1. destruct (alloc_buf reqLen t2) as [b t3|e t3|]; [|done..].
  destruct Ha as (r3 & -> & Ht3 & Hn3 & Hh3 & Hl3 & Hb3 & _). set (t3 := with_rpc r3 t2) in *.
  set (rt0 := default new_tag (tags t3 !! x)). set (rt1 := MkTag b (resp_msgbuf rt0) (reqType rt0) (src rt0)). set (t4 := with_tag x rt1 t3).
  rewrite (bind_run _ _ t3 tt t4) by done. assert (t_inv t4 [x]) as Ht4 by by apply set_tag_inv.
  pose proof (alloc_buf_ok t4 [x] respLen Ht4 Hresp) as Ha. unfold bind at 1. destruct (alloc_buf respLen t4) as [b' t5|e t5|]; [|done..].
  destruct Ha as (r5 & -> & Ht5 & Hn5 & Hh5 & Hl5 & Hb5 & Hs5). set (t5 := with_rpc r5 t4) in *.
  assert (tags t5 !! x = Some rt1) as Hx5 by apply lookup_insert_eq.
  rewrite (bind_run _ _ _ _ _ (tag_set_run t5 x rt1 _ Hx5)). cbn [rt1 req_msgbuf resp_msgbuf reqType src].
  set (rt2 := MkTag b b' (reqType rt0) (src rt0)). set (t6 := with_tag x rt2 t5).
  assert (tags t6 !! x = Some rt2) as Hx6 by apply lookup_insert_eq. rewrite (current_buf_run t6 x rt2) by done.
  assert (held (rpc t4) !! b = Some reqLen) as Hb4 by (cbn; rewrite Hh3; apply lookup_insert_eq).
  assert (b ≠ b') as Hbb by congruence.
  assert (held r5 !! b = Some reqLen) as Hb4' by (rewrite Hh5, lookup_insert_ne; done).
  exists x. split_and!; [by apply set_tag_inv| |by exists rt2| |done|done| |].
  - split; [done|]. exists rt2. split_and!; try done. cbn. rewrite Hh5. apply lookup_insert_eq.
  - cbn. rewrite Hs5; [done|by rewrite Hb4|by rewrite Hb4'].
  - cbn. rewrite Hl5. cbn. by rewrite Hl3.
  - intros x' Hx'. cbn. pose proof (extra_not_lent t2 x [] Ht2) as Hnl. cbn in Hnl.
    rewrite !lookup_insert_ne; [done|..]; intros ->; rewrite Hnl in Hx'; by destruct Hx'.
Qed.
End calls.
