(* ===== verification/StorageClient.v ===== *)
(** * The storage client and server as receivers of the transport

    [StorageClient::GetNodeId] and [EvictNode] from the call to the return
    (client/storage_client.cpp), and the two classes as [TransportReceiver]s. *)
From Stdlib Require Import ZArith Lia.
From stdpp Require Import prelude gmap.
From S2P Require Import Prelude Serialize Config StorageRpc Transport.

#[local] Open Scope cpp_scope.
#[local] Open Scope Z_scope.

(** A client panics when it gets a request. *)
#[global] Instance client_receiver : TransportReceiver client := {
  ReceiveRequest _ _ _ _ := None;
  ReceiveResponse := receive_response;
  Blocked := blocked;
}.
#[global] Instance server_receiver : TransportReceiver server := {
  ReceiveRequest s ty req resp :=
    '(s, out, len) ← receive_request s (MkRequest ty req) resp; Some (s, out, Z.of_nat len);
  ReceiveResponse s _ _ := s;
  Blocked _ := false;
}.

Section client.
Context {R : Type} `{Rpc R}.
Notation T := (transport R client).

Definition this (y : receiver) : M T client :=
  let! os := get objects in
  of_option undefined_behaviour (os !! y).
(** A store through a pointer into a message buffer. *)
Definition fill (b : buf) (off : nat) (bs : bytes) : M T unit :=
  let! r := get rpc in
  let! bs := of_option undefined_behaviour (poke (buf_bytes r b) off bs) in
  modify (λ t, with_rpc (write_buf (rpc t) b bs) t).

(** The constructor leaves [blocked] and the replies as they are in memory. *)
Definition new_storage_client (y : receiver) (memory : client) : M T unit :=
  modify (with_object y (MkClient 0 (blocked memory) (nodeIdReply memory) (evictNodeReply memory))) ;;
  Register y (-1).

(** [++lastReqId] *)
Definition next_request (y : receiver) : M T Z :=
  let! c := this y in
  let reqId := wrap64 (lastReqId c + 1) in
  modify (with_object y (MkClient reqId (blocked c) (nodeIdReply c) (evictNodeReply c))) ;;
  ret reqId.
Definition set_blocked (y : receiver) : M T unit :=
  let! c := this y in
  modify (with_object y (MkClient (lastReqId c) true (nodeIdReply c) (evictNodeReply c))).

Definition GetNodeId (yield : M T unit) (fuel : nat) (y : receiver) (coreIdx serverIdx : Z) : M T nodeid_t :=
  let! reqId := next_request y in
  let! b := GetRequestBuf (Z.of_nat sizeof_nodeid_request) (Z.of_nat sizeof_nodeid_response) in
  fill b 0 (put_le 8 reqId) ;;
  set_blocked y ;;
  let! _ := SendRequestToServer yield fuel y getNodeIdReqType serverIdx coreIdx (Z.of_nat sizeof_nodeid_request) in
  let! c := this y in
  let '(c, r) := get_node_id_return c coreIdx serverIdx in
  modify (with_object y c) ;;
  ret r.

Definition EvictNode (yield : M T unit) (fuel : nat) (y : receiver) (coreIdx serverIdx node_id : Z) (text : bytes) : M T bool :=
  let! reqId := next_request y in
  let! b := GetRequestBuf (Z.of_nat sizeof_evictnode_request) (Z.of_nat sizeof_evictnode_response) in
  fill b 0 (put_le 8 reqId) ;;
  fill b 8 (put_le 8 node_id) ;;
  fill b 16 text ;;
  set_blocked y ;;
  let! _ := SendRequestToServer yield fuel y evictNodeReqType serverIdx coreIdx (Z.of_nat sizeof_evictnode_request) in
  let! c := this y in
  ret (evictNodeReply c).
End client.
