(* ===== verification/TransportFrame.v ===== *)
(** * What no call through the transport changes

    A property of a transport that does not depend on the endpoint, the tags, the sessions, the current handle and the
    contents of the receivers that exist holds after every method that returns if it held before: the configuration, the
    flag [stop] and the number of receivers stay as they are. *)
From Stdlib Require Import ZArith Lia.
From stdpp Require Import prelude gmap.
From S2P Require Import Prelude Serialize Config StorageRpc Transport StorageClient.

#[local] Open Scope cpp_scope.
#[local] Open Scope Z_scope.

Section frame.
Context {R C : Type} `{Rpc R} `{TransportReceiver C}.
Notation T := (transport R C).
Implicit Types (t : T).

Record framed (P : T → Prop) : Prop := {
  fr_rpc t r : P t → P (with_rpc r t);
  fr_tag t x v : P t → P (with_tag x v t);
  fr_pool t p : P t → P (with_pool p t);
  fr_crt t x : P t → P (with_crt x t);
  fr_sessions t ss : P t → P (with_sessions ss t);
  fr_handle t h : P t → P (with_handle h t);
  fr_object t x o o' : objects t !! x = Some o → P t → P (with_object x o' t);
}.

Context (P : T → Prop) (HP : framed P).
Lemma keeps_get {A} (f : T → A) : keeps P (get f).
Proof. by intros t. Qed.
Lemma keeps_modify f : (∀ t, P t → P (f t)) → keeps P (modify f).
Proof. intros Hf t Ht. by apply Hf. Qed.
Lemma keeps_rpc_call f : keeps P (rpc_call f).
Proof. intros t Ht. unfold rpc_call. destruct (f (rpc t)); [|done]. by apply HP. Qed.
Lemma keeps_alloc_buf size : keeps P (alloc_buf size).
Proof. intros t Ht. unfold alloc_buf. destruct (alloc_msg_buffer_or_die _ _) as [[b r]|]; [|done]. by apply HP. Qed.
Lemma keeps_tag_set x f : keeps P (tag_set x f).
Proof. apply keeps_modify. intros t. apply HP. Qed.
(** A receiver that is read is one that exists, and so may be written. *)
Lemma keeps_receiver {A} x (k : C → M T A) :
  (∀ o t, objects t !! x = Some o → P t → ends P (k o t)) →
  keeps P (let! os := get objects in let! o := of_option undefined_behaviour (os !! x) in k o).
Proof. intros Hk t Ht. unfold bind, get, of_option. destruct (objects t !! x) as [o|] eqn:Ho; [|done]. by apply Hk. Qed.
Lemma keeps_reading {A} x (k : C → M T A) : (∀ o, keeps P (k o)) →
  keeps P (let! os := get objects in let! o := of_option undefined_behaviour (os !! x) in k o).
Proof. intros Hk. apply keeps_receiver. intros o t _. apply Hk. Qed.
Lemma keeps_write {A} x o o' (k : M T A) t : keeps P k → objects t !! x = Some o → P t →
  ends P ((modify (with_object x o') ;; k) t).
Proof. intros Hk Ho Ht. apply Hk. by eapply (fr_object _ HP). Qed.
End frame.

#[global] Hint Resolve keeps_get : betree.

(** Takes a method apart. *)
Ltac keep HP :=
  repeat first
    [ progress eauto 2 using keeps_rpc_call, keeps_alloc_buf, keeps_tag_set with betree
    | apply keeps_modify; intros ? ?; first [ by apply (fr_rpc _ HP) | by apply (fr_pool _ HP) | by apply (fr_crt _ HP)
        | by apply (fr_sessions _ HP) | by apply (fr_handle _ HP) | by apply (fr_tag _ HP) ]
    | lazymatch goal with
      | |- keeps _ (bind (get objects) _) => fail
      | |- keeps _ (bind _ _) => apply keeps_bind; [|intros ?]
      end
    | match goal with |- keeps _ (match ?x with _ => _ end) => destruct x end ].

Section methods.
Context {R C : Type} `{Rpc R} `{TransportReceiver C}.
Notation T := (transport R C).
Context (P : T → Prop) (HP : framed P).

Lemma keeps_response x : keeps P (fasttransport_response x).
Proof.
  unfold fasttransport_response. keep HP. apply keeps_receiver. intros o t Ho Ht.
  apply (keeps_write P HP _ o); [|done..]. keep HP.
Qed.

Lemma keeps_send_response len : keeps P (SendResponse len).
Proof. unfold SendResponse. keep HP. Qed.

Lemma keeps_request h ty : keeps P (fasttransport_request h ty).
Proof.
  unfold fasttransport_request. keep HP. apply keeps_receiver. intros o t Ho Ht.
  unfold bind at 1, get at 1, bind at 1, of_option at 1.
  destruct (ReceiveRequest _ _ _ _) as [[[o' out] len]|]; [|done]. unfold ret at 1.
  apply (keeps_write P HP _ o); [|done..]. keep HP. apply keeps_send_response.
Qed.

Lemma keeps_sm_handler s ty err : keeps P (basic_sm_handler s ty err).
Proof. unfold basic_sm_handler. keep HP. Qed.

Lemma keeps_callbacks es : keeps P (callbacks es).
Proof.
  induction es as [|e es IH]; [apply keeps_ret|]. apply keeps_bind; [|intros _; exact IH].
  destruct e; [apply keeps_response|apply keeps_request|apply keeps_sm_handler].
Qed.

Lemma keeps_event_loop : keeps P run_event_loop_once.
Proof. unfold run_event_loop_once. keep HP. apply keeps_callbacks. Qed.

Lemma keeps_connect fuel s : keeps P (connect_loop fuel s).
Proof. induction fuel as [|fuel IH]; [apply keeps_halt|]. cbn [connect_loop]. keep HP. apply keeps_event_loop. Qed.

Lemma keeps_session fuel x i d : keeps P (GetSession fuel x i d).
Proof. unfold GetSession. keep HP. apply keeps_connect. Qed.

Lemma keeps_wait yield fuel x : keeps P yield → keeps P (wait_loop yield fuel x).
Proof.
  intros Hy. induction fuel as [|fuel IH]; [apply keeps_halt|]. cbn [wait_loop]. apply keeps_reading. intros o. keep HP. by apply keeps_event_loop.
Qed.

Lemma keeps_request_buf reqLen respLen : keeps P (GetRequestBuf reqLen respLen).
Proof. unfold GetRequestBuf, alloc_tag, current_buf, current_tag. keep HP. Qed.

Lemma keeps_send yield fuel x ty server core len : keeps P yield → keeps P (SendRequestToServer yield fuel x ty server core len).
Proof.
  intros Hy. unfold SendRequestToServer, current_buf, current_tag, enqueue. keep HP; [apply keeps_session|by apply keeps_wait].
Qed.
End methods.

Section client.
Context {R : Type} `{Rpc R}.
Notation T := (transport R client).
Context (P : T → Prop) (HP : framed P).

(** The client itself is read, and may be written back. *)
Lemma keeps_this {A} y (k : client → M T A) : (∀ c t, objects t !! y = Some c → P t → ends P (k c t)) → keeps P (let! c := this y in k c).
Proof. intros Hk t Ht. unfold this, bind, get, of_option. destruct (objects t !! y) as [c|] eqn:Hc; [|done]. by apply Hk. Qed.

Lemma keeps_next_request y : keeps P (next_request y).
Proof. apply keeps_this. intros c t Hc Ht. apply (keeps_write P HP y c); [apply keeps_ret|done..]. Qed.
Lemma keeps_set_blocked y : keeps P (set_blocked y).
Proof. apply keeps_this. intros c t Hc Ht. by eapply (fr_object _ HP). Qed.
Lemma keeps_fill b off bs : keeps P (fill b off bs).
Proof. unfold fill. keep HP. Qed.

Lemma keeps_GetNodeId yield fuel y core server : keeps P yield → keeps P (GetNodeId yield fuel y core server).
Proof.
  intros Hy. unfold GetNodeId. apply keeps_bind; [apply keeps_next_request|intros reqId].
  apply keeps_bind; [by apply keeps_request_buf|intros b]. apply keeps_bind; [apply keeps_fill|intros _].
  apply keeps_bind; [apply keeps_set_blocked|intros _]. apply keeps_bind; [by apply keeps_send|intros _].
  apply keeps_this. intros c t Hc Ht. by eapply (fr_object _ HP).
Qed.
Lemma keeps_EvictNode yield fuel y core server id text : keeps P yield → keeps P (EvictNode yield fuel y core server id text).
Proof.
  intros Hy. unfold EvictNode. apply keeps_bind; [apply keeps_next_request|intros reqId].
  apply keeps_bind; [by apply keeps_request_buf|intros b]. do 3 (apply keeps_bind; [apply keeps_fill|intros _]).
  apply keeps_bind; [apply keeps_set_blocked|intros _]. apply keeps_bind; [by apply keeps_send|intros _].
  apply keeps_this. intros c t _ Ht. by apply keeps_ret.
Qed.
End client.
