(* ===== verification/ClientCalls.v ===== *)
(** * The calls of the storage client return the server's answers

    [GetNodeId] and [EvictNode] over any endpoint that keeps to eRPC's documentation and
    whose other side is the storage server. *)
From Stdlib Require Import ZArith Lia.
From stdpp Require Import prelude gmap.
From S2P Require Import Prelude Serialize Config StorageRpc StorageRpcProof Transport TransportProof TransportCalls StorageClient.

#[local] Open Scope cpp_scope.
#[local] Open Scope Z_scope.

(** The server answered the request in some state; eRPC carries the 16 bytes of the response. *)
Definition server_answer (ty : Z) (req resp : bytes) : Prop := ∃ s buf s' out len,
  (16 ≤ length buf)%nat ∧ 0 <= current_id s < 2 ^ 32 ∧
  receive_request s (MkRequest ty req) buf = Some (s', out, len) ∧ take 16 resp = take 16 out.

Lemma peek_take16 (b b' : bytes) off k : take 16 b = take 16 b' → (off + k ≤ 16)%nat → peek b off k = peek b' off k.
Proof.
  intros Heq Hle. unfold peek. assert (∀ x : bytes, take k (drop off x) = take k (drop off (take 16 x))) as Ht.
  { intros x. rewrite !take_drop_commute, take_take. do 2 f_equal. lia. }
  by rewrite Ht, Heq, <- Ht.
Qed.

Section calls.
Context {R : Type} `{RpcOk R}.
Notation T := (transport R client).
Implicit Types (t : T).

Hypothesis expected_events : ∀ r : R, rpc_inv r → Forall expected (poll r).1.
Hypothesis sessions_open : ∀ (r : R) uri i, rpc_inv r → 0 <= (create_session r uri i).1.
Hypothesis storage_server : ∀ ty req resp, answered ty req resp → server_answer ty req resp.

Hypothesis storage_handlers : handled getNodeIdReqType ∧ handled evictNodeReqType.

(** ** Steps of a call *)
Lemma with_object_inv t y c extra : t_inv t extra → t_inv (with_object y c t) extra.
Proof.
  intros Ht. split; cbn; try apply Ht. intros x l Hx. destruct (ti_loan _ _ Ht x l Hx) as (rt & ? & ? & ? & ? & ?).
  exists rt. split_and!; try done. apply lookup_insert_is_Some'. by right.
Qed.

Lemma this_run t y c : objects t !! y = Some c → this y t = Ok c t.
Proof. unfold this, bind, get, of_option. by intros ->. Qed.

(** A state in which client [y] may make a call. *)
Record ready t (y : receiver) (c : client) : Prop := {
  rd_inv : t_inv t [];
  rd_single : single t;
  rd_idle : idle t y;
  rd_object : objects t !! y = Some c;
  rd_room : Z.of_nat (length (outstanding t)) < 2 ^ 63 - 1;
}.
(** A state in which its request is being written. *)
Record writing t (y : receiver) (c : client) (cfg : Configuration) (x : tag) (b : buf) (cap cap' : Z) (req : bytes) : Prop := {
  wr_inv : t_inv t [x];
  wr_single : single t;
  wr_idle : idle t y;
  wr_object : objects t !! y = Some c;
  wr_config : config t = cfg;
  wr_prepared : prepared t x cap cap' req;
  wr_buf rt : tags t !! x = Some rt → req_msgbuf rt = b;
}.

Lemma begin_call t y c reqLen respLen : ready t y c → 0 < reqLen → 0 < respLen →
  let reqId := wrap64 (lastReqId c + 1) in
  (∃ t', ∀ A (k : Z → buf → M T A), (let! reqId := next_request y in let! b := GetRequestBuf reqLen respLen in k reqId b) t = Throw runtime_error t') ∨
  (∃ b t' x req, (∀ A (k : Z → buf → M T A), (let! reqId := next_request y in let! b := GetRequestBuf reqLen respLen in k reqId b) t = k reqId b t') ∧
    writing t' y (MkClient reqId (blocked c) (nodeIdReply c) (evictNodeReply c)) (config t) x b reqLen respLen req ∧
    length req = Z.to_nat reqLen).
Proof.
  intros [Ht Hs Hi Ho Hroom] H1' H2' reqId. set (c1 := MkClient reqId _ _ _). set (t1 := with_object y c1 t).
  assert (next_request y t = Ok reqId t1) as Hn by (unfold next_request; by rewrite (bind_run _ _ _ _ _ (this_run t y c Ho))).
  pose proof (request_buf_ok t1 reqLen respLen (with_object_inv t y c1 [] Ht) Hroom H1' H2') as Hb.
  destruct (GetRequestBuf reqLen respLen t1) as [b t2|e t2|] eqn:Hg; [right|left|done].
  2:{ exists t2. intros A k. rewrite (bind_run _ _ _ _ _ Hn). unfold bind. by rewrite Hg, Hb. }
  destruct Hb as (x & Ht2 & Hp & (rt & Hrt & Hrb) & Hlen & Hcfg & Hob & Hl & Htg).
  exists b, t2, x, (buf_bytes (rpc t2) b). split_and!; [|split; try done|done].
  - intros A k. by rewrite (bind_run _ _ _ _ _ Hn), (bind_run _ _ _ _ _ Hg).
  - intros x1 x2 rt1 rt2 Hx1 Hx2. rewrite Hl in Hx1, Hx2. rewrite (Htg x1), (Htg x2) by done. by apply Hs.
  - intros x1 rt1 Hx1. rewrite Hl in Hx1. rewrite (Htg x1) by done. by apply Hi.
  - rewrite Hob. apply lookup_insert_eq.
  - intros rt' Hrt'. rewrite Hrt in Hrt'. by injection Hrt' as <-.
Qed.

(** Writing into the request. *)
Lemma fill_run t y c cfg x b cap cap' req off bs req' : writing t y c cfg x b cap cap' req → poke req off bs = Some req' →
  ∃ t', fill b off bs t = Ok tt t' ∧ writing t' y c cfg x b cap cap' req'.
Proof.
  intros [Ht Hs Hi Ho Hcfg (Hcrt & rt & Hrt & Hne & Hb & Hb' & Hreq) Hbuf] Hp. pose proof (Hbuf rt Hrt) as Hrb. rewrite Hrb in *.
  destruct (write_law (rpc t) b req' (ti_rpc _ _ Ht)) as (Hc & Hh & Hl & Hbytes & _); [eauto|rewrite Hreq; by eapply length_poke|].
  exists (with_rpc (write_buf (rpc t) b req') t). split.
  - unfold fill, bind, get, of_option, modify, ret. by rewrite Hreq, Hp.
  - split; try done.
    + by apply with_rpc_inv.
    + intros x1 x2 rt1 rt2. cbn. rewrite Hl. apply Hs.
    + intros x1 rt1. cbn. rewrite Hl. apply Hi.
    + split; [done|]. exists rt. rewrite Hrb. cbn. by rewrite Hh.
Qed.

Lemma set_blocked_run t y c cfg x b cap cap' req : writing t y c cfg x b cap cap' req → ∃ t',
  set_blocked y t = Ok tt t' ∧ writing t' y (MkClient (lastReqId c) true (nodeIdReply c) (evictNodeReply c)) cfg x b cap cap' req.
Proof.
  intros [Ht Hs Hi Ho Hcfg Hprep Hbuf]. exists (with_object y (MkClient (lastReqId c) true (nodeIdReply c) (evictNodeReply c)) t). split.
  - unfold set_blocked. by rewrite (bind_run _ _ _ _ _ (this_run t y c Ho)).
  - split; try done; [by apply with_object_inv|apply lookup_insert_eq].
Qed.

(** ** What the answers do to the client *)
Lemma server_answer_id c req resp : server_answer getNodeIdReqType req resp → peek64 req 0 = lastReqId c → 0 <= lastReqId c < 2 ^ 64 →
  0 <= peek64 resp 8 < 2 ^ 32 ∧
  receive_response c getNodeIdReqType resp =
    MkClient (lastReqId c) false (MkNodeId (serverIdx (nodeIdReply c)) (coreIdx (nodeIdReply c)) (peek64 resp 8)) (evictNodeReply c).
Proof.
  intros (s & buf & s' & out & len & Hbuf & Hid & Hrec & Htake) Hreq Hlast.
  destruct (handle_get_node_id_spec s req buf Hbuf) as (out' & Hh & Hnr & Hout); [lia..|].
  unfold receive_request in Hrec. cbn [req_type req_buf] in Hrec. rewrite Z.eqb_refl, Hh in Hrec. injection Hrec as <- <- <-.
  assert (peek64 resp 0 = lastReqId c) as Hn by (unfold peek64; rewrite (peek_take16 resp out') by (done || lia); fold (peek64 out' 0); congruence).
  assert (peek64 resp 8 = current_id s) as Hi by (unfold peek64; rewrite (peek_take16 resp out') by (done || lia); done).
  split; [lia|]. unfold receive_response, handle_get_node_id_reply. rewrite Z.eqb_refl, Hn, Z.eqb_refl. do 2 f_equal. apply Z.mod_small. lia.
Qed.

Lemma server_answer_evict c req resp : server_answer evictNodeReqType req resp → peek64 req 0 = lastReqId c → 0 <= lastReqId c < 2 ^ 64 →
  receive_response c evictNodeReqType resp = MkClient (lastReqId c) false (nodeIdReply c) true.
Proof.
  intros (s & buf & s' & out & len & Hbuf & Hid & Hrec & Htake) Hreq Hlast.
  destruct (handle_evict_node_spec s req buf Hbuf) as (out' & Hh & Hnr & Hout); [lia|].
  unfold receive_request in Hrec. cbn [req_type req_buf] in Hrec. rewrite Z.eqb_refl, Hh in Hrec. injection Hrec as <- <- <-.
  assert (peek64 resp 0 = lastReqId c) as Hn by (unfold peek64; rewrite (peek_take16 resp out') by (done || lia); fold (peek64 out' 0); congruence).
  unfold receive_response, handle_evict_node_reply. rewrite Z.eqb_refl, Hn, Z.eqb_refl.
  by rewrite (peek_take16 resp out' 8 1), Hout by (done || lia).
Qed.

(** A call that is being written, once its receiver is blocked. *)
Lemma finish_call yield t y c cfg x b cap cap' req ty server core msgLen :
  writing t y c cfg x b cap cap' req → blocked c = true → 0 <= msgLen <= cap → server_known cfg server → fibers_ok yield y →
  (∀ resp, server_answer ty req resp → blocked (receive_response c ty resp) = false) → handled ty →
  ∃ t' N, (∀ fuel, (N ≤ fuel)%nat → SendRequestToServer yield fuel y ty server core msgLen t = Ok true t') ∧
    t_inv t' [] ∧ single t' ∧ idle t' y ∧ ∃ resp, answered ty req resp ∧ objects t' !! y = Some (receive_response c ty resp).
Proof.
  intros [Ht Hs Hi Ho Hcfg Hprep Hbuf] Hb Hlen Hsrv Hy Hunbl Hty. subst cfg.
  refine (send_ok expected_events sessions_open yield t x cap cap' req ty y c server core msgLen Ht Hs Hi Hprep Hlen Hsrv Ho Hb _ Hy Hty).
  intros resp Ha. by apply Hunbl, storage_server.
Qed.

(** A state after a call of client [y]. *)
Record returned t (y : receiver) (c : client) : Prop := {
  rt_inv : t_inv t [];
  rt_single : single t;
  rt_idle : idle t y;
  rt_object : objects t !! y = Some c;
}.

Lemma poke_request buf reqId : length buf = sizeof_nodeid_request → 0 <= reqId < 2 ^ 64 →
  ∃ req, poke buf 0 (put_le 8 reqId) = Some req ∧ peek64 req 0 = reqId.
Proof.
  intros Hlen Hid. destruct (poke_fits buf 0 (put_le 8 reqId)) as [req Hp]; [rewrite length_put_le, Hlen; done|].
  exists req. split; [done|]. by eapply peek64_poke_same.
Qed.

Lemma get_node_id_ok yield t y c core server :
  ready t y c → server_known (config t) server → fibers_ok yield y →
  (∃ t', ∀ fuel, GetNodeId yield fuel y core server t = Throw runtime_error t') ∨
  ∃ N r t' req resp, (∀ fuel, (N ≤ fuel)%nat → GetNodeId yield fuel y core server t = Ok r t') ∧
    answered getNodeIdReqType req resp ∧ peek64 req 0 = wrap64 (lastReqId c + 1) ∧
    r = MkNodeId server core (peek64 resp 8) ∧ 0 <= nodeIdx r < 2 ^ 32 ∧
    returned t' y (MkClient (wrap64 (lastReqId c + 1)) false r (evictNodeReply c)).
Proof.
  intros Hrd Hsrv Hy. set (reqId := wrap64 (lastReqId c + 1)). assert (0 <= reqId < 2 ^ 64) as Hid by apply wrap64_range.
  destruct (begin_call t y c 8 16 Hrd ltac:(lia) ltac:(lia)) as [[t0 Hthrow]|(b & t1 & x & req0 & Hrun1 & Hw1 & Hlen)].
  { left. exists t0. intros fuel. unfold GetNodeId. by rewrite Hthrow. }
  destruct (poke_request req0 reqId Hlen Hid) as (req & Hpoke & Hnr).
  destruct (fill_run _ _ _ _ _ _ _ _ _ _ _ _ Hw1 Hpoke) as (t2 & Hrun2 & Hw2).
  destruct (set_blocked_run _ _ _ _ _ _ _ _ _ Hw2) as (t3 & Hrun3 & Hw3). cbn [lastReqId nodeIdReply evictNodeReply] in Hw3.
  set (c3 := MkClient reqId true (nodeIdReply c) (evictNodeReply c)) in Hw3.
  destruct (finish_call yield t3 y c3 _ x b _ _ req getNodeIdReqType server core 8 Hw3) as (t4 & N & Hrun4 & Ht4 & Hs4 & Hi4 & resp & Ha & Ho4); [done|lia|done|done| |apply storage_handlers|].
  { intros resp Ha. by destruct (server_answer_id c3 req resp Ha Hnr Hid) as [_ ->]. }
  destruct (server_answer_id c3 req resp (storage_server _ _ _ Ha) Hnr Hid) as [Hrange Hrec]. rewrite Hrec in Ho4.
  right. pose (r := MkNodeId server core (peek64 resp 8)).
  exists N, r, (with_object y (MkClient reqId false r (evictNodeReply c)) t4), req, resp. split_and!; try done; try (cbn; lia).
  - intros fuel Hf. unfold GetNodeId. rewrite Hrun1, (bind_run _ _ _ _ _ Hrun2), (bind_run _ _ _ _ _ Hrun3), (bind_run _ _ _ _ _ (Hrun4 fuel Hf)).
    by rewrite (bind_run _ _ _ _ _ (this_run t4 y _ Ho4)).
  - split; [by apply with_object_inv|done|done|apply lookup_insert_eq].
Qed.

(** C18: [GetNodeId] returns: whatever the other fibers of the thread do, after enough passes of the event loop the call is back
    with the id from the server's answer to this very request (its number is in the request), the client
    unblocked, no request tag lost, and no call of eRPC made against its documentation.  Only a
    lack of memory for message buffers throws. *)
Theorem get_node_id_returns yield t y c core server :
  ready t y c → server_known (config t) server → fibers_ok yield y →
  ∃ N, ∀ fuel, (N ≤ fuel)%nat →
  match GetNodeId yield fuel y core server t with
  | Ok r t' => ∃ req resp, answered getNodeIdReqType req resp ∧ peek64 req 0 = wrap64 (lastReqId c + 1) ∧
      r = MkNodeId server core (peek64 resp 8) ∧ 0 <= nodeIdx r < 2 ^ 32 ∧
      returned t' y (MkClient (wrap64 (lastReqId c + 1)) false r (evictNodeReply c))
  | Throw e _ => e = runtime_error
  | Halt _ => False
  end.
Proof.
  intros Hrd Hsrv Hy. destruct (get_node_id_ok yield t y c core server Hrd Hsrv Hy) as [[t' Ht]|(N & r & t' & req & resp & Hrun & Hrest)].
  - exists 0%nat. intros fuel _. by rewrite Ht.
  - exists N. intros fuel Hf. rewrite (Hrun fuel Hf). by exists req, resp.
Qed.

Lemma poke_evict buf reqId node_id text : length buf = sizeof_evictnode_request → (length text ≤ EVICT_DATA)%nat →
  0 <= reqId < 2 ^ 64 → 0 <= node_id < 2 ^ 64 → ∃ b1 b2 req,
  poke buf 0 (put_le 8 reqId) = Some b1 ∧ poke b1 8 (put_le 8 node_id) = Some b2 ∧ poke b2 16 text = Some req ∧
  peek64 req 0 = reqId ∧ peek64 req 8 = node_id ∧ peek req 16 (length text) = text.
Proof.
  intros Hlen Htext Hid Hnode. unfold sizeof_evictnode_request in Hlen.
  destruct (poke_fits buf 0 (put_le 8 reqId)) as [b1 Hb1]; [rewrite length_put_le; lia|]. pose proof (length_poke _ _ _ _ Hb1) as Hl1.
  destruct (poke_fits b1 8 (put_le 8 node_id)) as [b2 Hb2]; [rewrite length_put_le; lia|]. pose proof (length_poke _ _ _ _ Hb2) as Hl2.
  destruct (poke_fits b2 16 text) as [req Hb3]; [lia|]. exists b1, b2, req. split_and!; try done.
  - rewrite (peek64_poke_before _ _ _ _ 0 Hb3), (peek64_poke_before _ _ _ _ 0 Hb2) by lia. by eapply peek64_poke_same.
  - rewrite (peek64_poke_before _ _ _ _ 8 Hb3) by lia. by eapply peek64_poke_same.
  - by apply peek_poke_same in Hb3.
Qed.

Lemma evict_node_ok yield t y c core server node_id text :
  ready t y c → server_known (config t) server → fibers_ok yield y →
  (length text ≤ EVICT_DATA)%nat → 0 <= node_id < 2 ^ 64 →
  (∃ t', ∀ fuel, EvictNode yield fuel y core server node_id text t = Throw runtime_error t') ∨
  ∃ N t' req resp, (∀ fuel, (N ≤ fuel)%nat → EvictNode yield fuel y core server node_id text t = Ok true t') ∧
    answered evictNodeReqType req resp ∧ peek64 req 0 = wrap64 (lastReqId c + 1) ∧
    peek64 req 8 = node_id ∧ peek req 16 (length text) = text ∧
    returned t' y (MkClient (wrap64 (lastReqId c + 1)) false (nodeIdReply c) true).
Proof.
  intros Hrd Hsrv Hy Htext Hnode. set (reqId := wrap64 (lastReqId c + 1)). assert (0 <= reqId < 2 ^ 64) as Hid by apply wrap64_range.
  set (size := Z.of_nat sizeof_evictnode_request). assert (0 < size) as Hsize by (unfold size, sizeof_evictnode_request; lia).
  destruct (begin_call t y c size 16 Hrd Hsize ltac:(lia)) as [[t0 Hthrow]|(b & t1 & x & req0 & Hrun1 & Hw1 & Hlen)].
  { left. exists t0. intros fuel. unfold EvictNode. by rewrite Hthrow. }
  unfold size in Hlen. rewrite Nat2Z.id in Hlen.
  destruct (poke_evict req0 reqId node_id text Hlen Htext Hid Hnode) as (b1 & b2 & req & Hp1 & Hp2 & Hp3 & Hnr & Hni & Htx).
  destruct (fill_run _ _ _ _ _ _ _ _ _ _ _ _ Hw1 Hp1) as (t2 & Hrun2 & Hw2).
  destruct (fill_run _ _ _ _ _ _ _ _ _ _ _ _ Hw2 Hp2) as (t3 & Hrun3 & Hw3).
  destruct (fill_run _ _ _ _ _ _ _ _ _ _ _ _ Hw3 Hp3) as (t4 & Hrun4 & Hw4).
  destruct (set_blocked_run _ _ _ _ _ _ _ _ _ Hw4) as (t5 & Hrun5 & Hw5). cbn [lastReqId nodeIdReply evictNodeReply] in Hw5.
  set (c5 := MkClient reqId true (nodeIdReply c) (evictNodeReply c)) in Hw5.
  destruct (finish_call yield t5 y c5 _ x b _ _ req evictNodeReqType server core size Hw5) as (t6 & N & Hrun6 & Ht6 & Hs6 & Hi6 & resp & Ha & Ho6); [done|lia|done|done| |apply storage_handlers|].
  { intros resp Ha. by rewrite (server_answer_evict c5 req resp Ha Hnr Hid). }
  rewrite (server_answer_evict c5 req resp (storage_server _ _ _ Ha) Hnr Hid) in Ho6.
  right. exists N, t6, req, resp. split_and!; try done.
  intros fuel Hf. unfold EvictNode. rewrite Hrun1, (bind_run _ _ _ _ _ Hrun2), (bind_run _ _ _ _ _ Hrun3), (bind_run _ _ _ _ _ Hrun4),
    (bind_run _ _ _ _ _ Hrun5), (bind_run _ _ _ _ _ (Hrun6 fuel Hf)). by rewrite (bind_run _ _ _ _ _ (this_run t6 y _ Ho6)).
Qed.

(** C19: [EvictNode] with a node text of at most 4096 bytes returns true, and what the server answered was a request with this
    node id and this text; otherwise as for [GetNodeId]. *)
Theorem evict_node_returns yield t y c core server node_id text :
  ready t y c → server_known (config t) server → fibers_ok yield y →
  (length text ≤ EVICT_DATA)%nat → 0 <= node_id < 2 ^ 64 →
  ∃ N, ∀ fuel, (N ≤ fuel)%nat →
  match EvictNode yield fuel y core server node_id text t with
  | Ok r t' => r = true ∧ (∃ req resp, answered evictNodeReqType req resp ∧ peek64 req 0 = wrap64 (lastReqId c + 1) ∧
        peek64 req 8 = node_id ∧ peek req 16 (length text) = text) ∧
      returned t' y (MkClient (wrap64 (lastReqId c + 1)) false (nodeIdReply c) true)
  | Throw e _ => e = runtime_error
  | Halt _ => False
  end.
Proof.
  intros Hrd Hsrv Hy Htext Hnode.
  destruct (evict_node_ok yield t y c core server node_id text Hrd Hsrv Hy Htext Hnode) as [[t' Ht]|(N & t' & req & resp & Hrun & Hrest)].
  - exists 0%nat. intros fuel _. by rewrite Ht.
  - exists N. intros fuel Hf. rewrite (Hrun fuel Hf). destruct Hrest as (? & ? & ? & ? & ?). split_and!; [done|by exists req, resp|done].
Qed.
End calls.
