(* ===== verification/Loopback.v ===== *)
(** * An endpoint connected to a storage server

    A concrete eRPC endpoint that keeps to the documentation: sessions connect at once and each
    pass of the event loop has the server answer the oldest request.  It shows that the
    assumptions of the calls can hold together, and runs them. *)
From Stdlib Require Import ZArith Lia Ascii String.
From stdpp Require Import prelude gmap.
From S2P Require Import Prelude Serialize Config StorageRpc StorageRpcProof Transport TransportProof TransportCalls StorageClient ClientCalls.

#[local] Open Scope cpp_scope.
#[local] Open Scope Z_scope.

Record loop := MkLoop {
  lb_bytes : gmap buf bytes;
  lb_held : gmap buf Z;
  lb_queue : list (tag * loan);
  lb_sessions : Z;
  lb_server : server;
  lb_next : nat;
}.

Definition known_type (ty : Z) : bool := (ty =? getNodeIdReqType) || (ty =? evictNodeReqType).

Definition lb_read (r : loop) (b : buf) : bytes := default [] (lb_bytes r !! b).
Definition lb_alloc (r : loop) (size : Z) : option (buf * loop) :=
  Some (lb_next r, MkLoop (<[lb_next r := replicate (Z.to_nat size) 0]> (lb_bytes r)) (<[lb_next r := size]> (lb_held r))
                          (lb_queue r) (lb_sessions r) (lb_server r) (S (lb_next r))).
Definition lb_free (r : loop) (b : buf) : option loop :=
  if lb_held r !! b then
    Some (MkLoop (lb_bytes r) (delete b (lb_held r)) (lb_queue r) (lb_sessions r) (lb_server r) (lb_next r))
  else None.
Definition lb_resize (r : loop) (b : buf) (size : Z) : option loop :=
  c ← lb_held r !! b;
  if (0 <=? size) && (size <=? c) then Some r else None.
Definition lb_connected (r : loop) (s : Z) : option bool :=
  if (0 <=? s) && (s <? lb_sessions r) then Some true else None.
Definition lb_enqueue (r : loop) (s ty : Z) (b b' : buf) (x : tag) : option loop :=
  _ ← lb_connected r s; c ← lb_held r !! b; c' ← lb_held r !! b';
  if known_type ty then
    Some (MkLoop (lb_bytes r) (delete b (delete b' (lb_held r))) (lb_queue r ++ [(x, MkLoan ty b c b' c')])
                 (lb_sessions r) (lb_server r) (lb_next r))
  else None.
Definition lb_poll (r : loop) : list event * loop :=
  match lb_queue r with
  | [] => ([], r)
  | (x, l) :: q =>
      match receive_request (lb_server r) (MkRequest (l_type l) (lb_read r (l_req l))) (replicate 16 0) with
      | Some (s, out, _) =>
          ([got_response x],
           MkLoop (<[l_resp l := out]> (lb_bytes r))
                  (<[l_req l := l_req_cap l]> (<[l_resp l := l_resp_cap l]> (lb_held r))) q (lb_sessions r) s (lb_next r))
      | None => ([], r)
      end
  end.

#[global] Instance loop_rpc : Rpc loop := {
  get_max_data_per_pkt := 1024;
  buf_bytes := lb_read;
  write_buf r b bs := MkLoop (<[b := bs]> (lb_bytes r)) (lb_held r) (lb_queue r) (lb_sessions r) (lb_server r) (lb_next r);
  alloc_msg_buffer_or_die := lb_alloc;
  free_msg_buffer := lb_free;
  resize_msg_buffer := lb_resize;
  create_session r _ _ := (lb_sessions r, MkLoop (lb_bytes r) (lb_held r) (lb_queue r) (lb_sessions r + 1) (lb_server r) (lb_next r));
  is_connected := lb_connected;
  enqueue_request := lb_enqueue;
  get_req_msgbuf _ _ := 0%nat;
  pre_resp_msgbuf _ _ := 0%nat;
  enqueue_response _ _ _ := None;
  poll := lb_poll;
}.

(** ** It keeps to the documentation *)
Definition loan_bufs (p : tag * loan) : list buf := [l_req p.2; l_resp p.2].
Definition lb_bufs (r : loop) : list buf := flat_map loan_bufs (lb_queue r).

Record lb_inv (r : loop) : Prop := {
  li_tags : NoDup (lb_queue r).*1;
  li_bufs : NoDup (lb_bufs r);
  li_own b : b ∈ lb_bufs r → lb_held r !! b = None ∧ (b < lb_next r)%nat;
  li_next b : is_Some (lb_held r !! b) → (b < lb_next r)%nat;
  li_types x l : (x, l) ∈ lb_queue r → known_type (l_type l) = true;
  li_sessions : 0 <= lb_sessions r;
  li_server : 0 <= current_id (lb_server r) < 2 ^ 32;
}.

Fixpoint position (x : tag) (q : list (tag * loan)) : nat :=
  match q with
  | [] => 0
  | p :: q' => if decide (p.1 = x) then 0 else S (position x q')
  end.

#[global] Instance loop_view : RpcView loop := {
  rpc_inv := lb_inv;
  held := lb_held;
  lent r := list_to_map (lb_queue r);
  handled ty := known_type ty = true;
  answered := server_answer;
  eta r x := position x (lb_queue r);
  conn_eta _ _ := 0%nat;
}.

Lemma lb_lent r x l : lb_inv r → (list_to_map (lb_queue r) : gmap tag loan) !! x = Some l ↔ (x, l) ∈ lb_queue r.
Proof. intros Hr. symmetry. apply elem_of_list_to_map, Hr. Qed.

Lemma lb_bufs_elem r x l b : (x, l) ∈ lb_queue r → b = l_req l ∨ b = l_resp l → b ∈ lb_bufs r.
Proof.
  intros Hin Hb. apply list_elem_of_In, in_flat_map. exists (x, l). split; [by apply list_elem_of_In|]. cbn. naive_solver.
Qed.

(** Two loans of the queue have no buffer in common. *)
Lemma loan_bufs_apart q p p' : NoDup (flat_map loan_bufs q) → p ∈ q → p' ∈ q → p ≠ p' →
  ∀ b, b ∈ loan_bufs p → b ∉ loan_bufs p'.
Proof.
  induction q as [|p0 q IH]; intros Hnd Hp Hp' Hne b Hb Hb'; [by apply elem_of_nil in Hp|]. cbn [flat_map] in Hnd.
  apply NoDup_app in Hnd as (_ & Hd & Hnd).
  assert (∀ p1, p1 ∈ q → b ∈ loan_bufs p1 → b ∈ flat_map loan_bufs q) as Hin.
  { intros p1 Hp1 Hb1. apply list_elem_of_In, in_flat_map. exists p1. by rewrite <- !list_elem_of_In. }
  apply elem_of_cons in Hp as [Hp|Hp], Hp' as [Hp'|Hp']; subst; try done.
  - apply (Hd b Hb). by eapply Hin.
  - apply (Hd b Hb'). by eapply Hin.
  - by eapply IH.
Qed.

Lemma lb_calm r r' : lb_inv r' → lb_sessions r <= lb_sessions r' →
  (∀ x l, (x, l) ∈ lb_queue r → (x, l) ∈ lb_queue r' → (position x (lb_queue r') ≤ position x (lb_queue r))%nat ∧
    lb_read r' (l_req l) = lb_read r (l_req l)) → lb_inv r → calm r r'.
Proof.
  intros Hr' Hs Hq Hr. split; cbn.
  - done.
  - intros s b. unfold lb_connected. intros Hb. exists b. split; [|done].
    destruct (Z.leb_spec 0 s), (Z.ltb_spec s (lb_sessions r)), (Z.ltb_spec s (lb_sessions r')); cbn in *; (done || lia).
  - intros x l Hx%lb_lent Hx'%lb_lent; [|done..]. by apply (Hq x l).
  - intros x l Hx%lb_lent Hx'%lb_lent; [|done..]. by apply (Hq x l).
  - done.
Qed.

Lemma position_app x q p : x ∈ q.*1 → position x (q ++ [p]) = position x q.
Proof.
  induction q as [|p0 q IH]; cbn; [by intros ?%elem_of_nil|]. intros Hx. case_decide; [done|]. f_equal. apply IH. set_solver.
Qed.

(** Calls that only change the buffers of the application. *)
Lemma lb_same_queue r r' : lb_inv r → lb_queue r' = lb_queue r → lb_server r' = lb_server r → lb_sessions r <= lb_sessions r' →
  (lb_next r ≤ lb_next r')%nat → (∀ b, b ∈ lb_bufs r → lb_held r' !! b = None ∧ lb_read r' b = lb_read r b) →
  (∀ b, is_Some (lb_held r' !! b) → (b < lb_next r')%nat) → calm r r'.
Proof.
  intros Hr Hq Hsv Hs Hn Hb Hh. apply lb_calm; try done.
  - destruct Hr as [H1 H2 H3 H4 H5 H6 H7]. split; unfold lb_bufs in *; rewrite ?Hq, ?Hsv; try done; [|lia].
    intros b Hin. destruct (H3 b Hin), (Hb b Hin). split; [done|lia].
  - intros x l Hx _. rewrite Hq. split; [done|]. apply Hb. eapply lb_bufs_elem; [done|by left].
Qed.

Lemma lb_own r x l : lb_inv r → (x, l) ∈ lb_queue r → l_req l ≠ l_resp l ∧ lb_held r !! l_req l = None ∧ lb_held r !! l_resp l = None.
Proof.
  intros Hr Hx. split_and!; [|by apply (li_own r Hr); eapply lb_bufs_elem; eauto..].
  pose proof (li_bufs r Hr) as Hnd. unfold lb_bufs in Hnd. apply list_elem_of_split in Hx as (q1 & q2 & Hq). rewrite Hq, flat_map_app in Hnd.
  apply NoDup_app in Hnd as (_ & _ & Hnd). cbn in Hnd. apply NoDup_cons in Hnd as [Hnd _]. set_solver.
Qed.

Lemma lb_alloc_law r size (b : buf) r' : lb_inv r → lb_alloc r size = Some (b, r') →
  calm r r' ∧ lb_held r !! b = None ∧ lb_held r' = <[b := size]> (lb_held r) ∧ lb_queue r' = lb_queue r ∧
  length (lb_read r' b) = Z.to_nat size ∧ same_bytes r r'.
Proof.
  intros Hr [= <- <-]. assert (lb_held r !! lb_next r = None) as Hn.
  { destruct (lb_held r !! lb_next r) eqn:E; [|done]. pose proof (li_next r Hr (lb_next r) (mk_is_Some _ _ E)). lia. }
  split_and!; try done.
  - apply lb_same_queue; cbn; try done; [lia| |].
    + intros b Hb. destruct (li_own r Hr b Hb) as [Ho Hlt]. unfold lb_read. cbn. rewrite !lookup_insert_ne by lia. done.
    + intros b Hb. destruct (decide (b = lb_next r)) as [->|Hne]; [lia|]. rewrite lookup_insert_ne in Hb by done.
      pose proof (li_next r Hr b Hb). lia.
  - unfold lb_read. cbn. rewrite lookup_insert_eq. cbn. apply length_replicate.
  - intros b [c Hb] _. unfold buf_bytes, loop_rpc, lb_read. cbn. rewrite lookup_insert_ne; [done|]. intros Heq. subst b.
    assert (Some c = None) as [=]. rewrite <- Hb. exact Hn.
Qed.

Lemma lb_enqueue_law r s ty (b : buf) c (b' : buf) c' (x : tag) : lb_inv r → lb_connected r s = Some true → lb_held r !! b = Some c → lb_held r !! b' = Some c' →
  b ≠ b' → (list_to_map (lb_queue r) : gmap tag loan) !! x = None → known_type ty = true → ∃ r', lb_enqueue r s ty b b' x = Some r' ∧
  calm r r' ∧ lb_held r' = delete b (delete b' (lb_held r)) ∧
  (list_to_map (lb_queue r') : gmap tag loan) = <[x := MkLoan ty b c b' c']> (list_to_map (lb_queue r)) ∧
  lb_read r' b = lb_read r b ∧ same_bytes r r'.
Proof.
  intros Hr Hs Hb Hb' Hne Hx Hty. unfold lb_enqueue. rewrite Hs, Hb. cbn. rewrite Hb'. cbn. rewrite Hty. eexists. split; [done|].
  apply not_elem_of_list_to_map in Hx.
  assert (∀ b0, b0 ∈ lb_bufs r → b0 ≠ b ∧ b0 ≠ b') as Hfresh.
  { intros b0 [Hn _]%(li_own r Hr). split; intros ->; congruence. }
  split_and!; try done.
  - apply lb_calm; try done.
    + destruct Hr as [H1 H2 H3 H4 H5 H6 H7]. split; cbn [lb_queue lb_held lb_next lb_sessions lb_server]; try done.
      * rewrite fmap_app. cbn. apply NoDup_app. split_and!; [done|set_solver|apply NoDup_singleton].
      * unfold lb_bufs. cbn. rewrite flat_map_app. cbn. apply NoDup_app. split_and!; [done| |].
        -- intros b0 Hb0 Hin. destruct (Hfresh b0 Hb0). set_solver.
        -- apply NoDup_cons. split; [set_solver|apply NoDup_singleton].
      * unfold lb_bufs. cbn. rewrite flat_map_app. cbn. intros b0 [Hb0|Hb0]%elem_of_app.
        -- destruct (H3 b0 Hb0), (Hfresh b0 Hb0). by rewrite !lookup_delete_ne.
        -- apply elem_of_cons in Hb0 as [->|Hb0]; [rewrite lookup_delete_eq; eauto|].
           apply list_elem_of_singleton in Hb0 as ->. rewrite lookup_delete_ne, lookup_delete_eq by done. eauto.
      * intros b0 Hb0. apply H4. rewrite !lookup_delete_is_Some in Hb0. tauto.
      * intros x' l [Hin|[= -> ->]%list_elem_of_singleton]%elem_of_app; [by eapply H5|done].
    + cbn. intros x' l Hin _. split; [|done]. rewrite position_app; [done|]. apply list_elem_of_fmap. by exists (x', l).
  - cbn. rewrite list_to_map_snoc; done.
Qed.

Lemma serve_known s ty req : known_type ty = true → ∃ s' out len, receive_request s (MkRequest ty req) (replicate 16 0) = Some (s', out, len) ∧
  (0 <= current_id s < 2 ^ 32 → 0 <= current_id s' < 2 ^ 32).
Proof.
  intros Hty. assert (∀ z, ∃ b1, poke (replicate 16 0) 0 (put_le 8 z) = Some b1 ∧ length b1 = 16%nat) as Hp.
  { intros z. destruct (poke_fits (replicate 16 0) 0 (put_le 8 z)) as [b1 Hb1]; [rewrite length_put_le; cbn; lia|].
    exists b1. split; [done|]. by rewrite (length_poke _ _ _ _ Hb1). }
  destruct (Hp (peek64 req 0)) as (b1 & Hb1 & Hl1). unfold receive_request. cbn [req_type req_buf].
  destruct (Z.eqb_spec ty getNodeIdReqType) as [_|Hne].
  - destruct (poke_fits b1 8 (put_le 8 (current_id s))) as [b2 Hb2]; [rewrite length_put_le; lia|].
    unfold handle_get_node_id. rewrite Hb1. cbn [mbind option_bind get_node_id]. rewrite Hb2. cbn [mbind option_bind].
    eexists _, _, _. split; [done|]. intros _. cbn. by apply Z.mod_pos_bound.
  - destruct (Z.eqb_spec ty evictNodeReqType) as [_|Hne']; [|unfold known_type in Hty; apply orb_true_iff in Hty; rewrite !Z.eqb_eq in Hty; tauto].
    destruct (poke_fits b1 8 (put_le 1 1)) as [b2 Hb2]; [rewrite length_put_le; lia|].
    unfold handle_evict_node. rewrite Hb1. cbn [mbind option_bind]. rewrite Hb2. cbn [mbind option_bind].
    eexists _, _, _. split; [done|]. done.
Qed.

(** The state after the oldest request was answered. *)
Lemma lb_answer_inv r x l q s out : lb_inv r → lb_queue r = (x, l) :: q → 0 <= current_id s < 2 ^ 32 →
  lb_inv (MkLoop (<[l_resp l := out]> (lb_bytes r)) (<[l_req l := l_req_cap l]> (<[l_resp l := l_resp_cap l]> (lb_held r))) q (lb_sessions r) s (lb_next r)).
Proof.
  intros Hr Hq Hs. assert (l_req l ∈ lb_bufs r ∧ l_resp l ∈ lb_bufs r) as [Hreq Hresp].
  { split; eapply (lb_bufs_elem r x l); rewrite ?Hq; eauto; by left. }
  assert (∀ b, b ∈ flat_map loan_bufs q → b ≠ l_req l ∧ b ≠ l_resp l) as Hne.
  { intros b Hb. pose proof (li_bufs r Hr) as Hnd. unfold lb_bufs in Hnd. rewrite Hq in Hnd. cbn [flat_map] in Hnd.
    apply NoDup_app in Hnd as (_ & Hd & _). split; intros ->; (eapply Hd; [|exact Hb]); cbn; set_solver. }
  destruct Hr as [H1 H2 H3 H4 H5 H6 H7]. unfold lb_bufs in *. rewrite Hq in *. cbn [flat_map fmap list_fmap fst] in *.
  split; cbn [lb_queue lb_held lb_next lb_sessions lb_server]; try done.
  - by apply NoDup_cons in H1 as [_ ?].
  - unfold lb_bufs. cbn. by apply NoDup_app in H2 as (_ & _ & ?).
  - unfold lb_bufs. cbn. intros b Hb. destruct (Hne b Hb). rewrite !lookup_insert_ne by done. apply H3, elem_of_app. by right.
  - intros b. rewrite !lookup_insert_is_Some'. intros [<-|[<-|Hb]]; [by apply H3..|by apply H4].
  - intros x' l' Hin. eapply (H5 x'). by right.
Qed.

Lemma lb_poll_law r es r' : lb_inv r → lb_poll r = (es, r') → calm r r' ∧ same_bytes r r' ∧ polled r (responses_of es) r'.
Proof.
  intros Hr Hp. unfold lb_poll in Hp. destruct (lb_queue r) as [|[x l] q] eqn:Hq.
  { injection Hp as <- <-. split_and!; [by apply calm_refl|done|]. split; cbn.
    - constructor.
    - by intros ? ?%elem_of_nil.
    - done.
    - done.
    - by intros ? ? ?%elem_of_nil.
    - rewrite Hq. cbn. intros x _ [? Hx]. by rewrite lookup_empty in Hx.
    - intros s. unfold lb_connected. by case_match. }
  assert (known_type (l_type l) = true) as Hty by (eapply (li_types r Hr x); rewrite Hq; by left).
  destruct (serve_known (lb_server r) (l_type l) (lb_read r (l_req l)) Hty) as (s & out & len & Hs & Hid).
  rewrite Hs in Hp. injection Hp as <- <-. set (r' := MkLoop _ _ _ _ _ _).
  assert (lb_inv r') as Hr' by (apply (lb_answer_inv r x); [done..|apply Hid, Hr]).
  assert ((x, l) ∈ lb_queue r) as Hx by (rewrite Hq; by left). destruct (lb_own r x l Hr Hx) as (Hne & Hh1 & Hh2).
  assert (∀ y l', (y, l') ∈ q → y ≠ x ∧ l_req l' ≠ l_resp l) as Hother.
  { intros y l' Hy. pose proof (li_tags r Hr) as Hnd. rewrite Hq in Hnd. cbn in Hnd. apply NoDup_cons in Hnd as [Hnd _].
    assert (y ≠ x) as Hyx by (intros ->; apply Hnd, list_elem_of_fmap; by exists (x, l')). split; [done|]. intros Heq.
    eapply (loan_bufs_apart (lb_queue r) (x, l) (y, l') (li_bufs r Hr) Hx) with (b := l_resp l); [rewrite Hq; by right|congruence|cbn; set_solver|cbn; rewrite <- Heq; set_solver]. }
  split_and!.
  - apply lb_calm; try done. intros y l' _ Hy. destruct (Hother y l' Hy) as [Hyx Hyl]. split.
    + cbn. rewrite Hq. cbn. rewrite decide_False by done. lia.
    + unfold lb_read. cbn. by rewrite lookup_insert_ne.
  - intros b [c Hb] _. unfold buf_bytes, loop_rpc, lb_read. cbn. rewrite lookup_insert_ne; [done|]. intros <-. cbn in Hb. congruence.
  - split; cbn [responses_of omap list_omap].
    + apply NoDup_singleton.
    + intros y ->%list_elem_of_singleton. cbn. rewrite Hq. cbn. rewrite lookup_insert_eq. eauto.
    + intros y. cbn. rewrite Hq. cbn. case_decide as Hy; [apply list_elem_of_singleton in Hy as ->|].
      * apply not_elem_of_list_to_map. intros ([y l'] & -> & Hin)%list_elem_of_fmap. by destruct (Hother y l' Hin).
      * rewrite lookup_insert_ne; [done|]. set_solver.
    + intros b c Hb. cbn in *. rewrite !lookup_insert_ne; [done|..]; intros <-; congruence.
    + intros y l' ->%list_elem_of_singleton Hl'. cbn in Hl'. rewrite Hq in Hl'. cbn in Hl'. rewrite lookup_insert_eq in Hl'. injection Hl' as <-.
      cbn. rewrite lookup_insert_eq, lookup_insert_ne, lookup_insert_eq by done. split_and!; [done|done|].
      exists (lb_server r), (replicate 16 0), s, out, len. split_and!; [done|apply Hr|apply Hr|done|]. unfold lb_read. cbn. by rewrite lookup_insert_eq.
    + intros y Hy _. cbn. rewrite Hq. cbn. rewrite decide_False by set_solver. lia.
    + intros s0. cbn. unfold lb_connected. by case_match.
Qed.

#[global] Instance loop_ok' : RpcOk loop.
Proof.
  split.
  - done.
  - intros r x l Hr Hx%lb_lent; [|done]. by eapply lb_own.
  - intros r x l y l' Hr Hx%lb_lent Hy%lb_lent Hxy; [|done..].
    pose proof (loan_bufs_apart _ (x, l) (y, l') (li_bufs r Hr) Hx Hy ltac:(congruence)) as Hd.
    assert (l_req l ∈ loan_bufs (x, l) ∧ l_resp l ∈ loan_bufs (x, l)) as [K1%Hd K2%Hd] by (cbn; set_solver). cbn in K1, K2. set_solver.
  - intros r size b r' Hr _ Ha. destruct (lb_alloc_law r size b r' Hr Ha) as (? & ? & ? & Hq & ? & ?). split_and!; try done. cbn. by rewrite Hq.
  - intros r b bs Hr Hb Hlen. cbn in Hb. split_and!; try done; cbn.
    + apply lb_same_queue; cbn; try done; [|apply Hr]. intros b' Hb'. destruct (li_own r Hr b' Hb') as [Hn _]. split; [done|].
      unfold lb_read. cbn. rewrite lookup_insert_ne; [done|]. intros <-. rewrite Hn in Hb. by destruct Hb.
    + unfold lb_read. cbn. by rewrite lookup_insert_eq.
    + intros b' Hb'. unfold lb_read. cbn. by rewrite lookup_insert_ne.
  - intros r b Hr [c Hb]. cbn in Hb. cbn. unfold lb_free. rewrite Hb. eexists. split_and!; try done.
    apply lb_same_queue; cbn; try done.
    + intros b' Hb'. destruct (li_own r Hr b' Hb') as [Hn _]. rewrite lookup_delete_ne; [done|]. congruence.
    + intros b'. rewrite lookup_delete_is_Some. intros [_ Hb']. by apply (li_next r Hr).
  - intros r b c size Hr Hb Hsize. cbn in Hb. exists r. split_and!; [|by apply calm_refl|done..]. cbn. unfold lb_resize. rewrite Hb. cbn.
    destruct (Z.leb_spec 0 size), (Z.leb_spec size c); (done || lia).
  - intros r uri i s r' Hr [= <- <-] _. split_and!; try done.
    + apply lb_same_queue; cbn; try done; [lia| |apply Hr]. intros b Hb. by destruct (li_own r Hr b Hb).
    + cbn. unfold lb_connected. cbn. pose proof (li_sessions r Hr).
      destruct (Z.leb_spec 0 (lb_sessions r)), (Z.ltb_spec (lb_sessions r) (lb_sessions r + 1)); (lia || eauto).
  - intros r s ty b c b' c' x Hr Hs Hb Hb' Hne Hx Hty. by apply lb_enqueue_law.
  - apply lb_poll_law.
Qed.

(** ** Two calls of a client *)
Definition demo_endpoint : loop := MkLoop ∅ ∅ [] 0 new_server 0.
Definition demo_cfg : Configuration := MkConfiguration 1 [MkAddress (lit "10.0.0.1") (lit "31850")] None false.
(** A transport with a storage client at address 5, whose memory was all ones. *)
Definition demo_net : transport loop client :=
  (result (tt, MkTransport demo_cfg 0 0 false None new_pool ∅ ∅ None None demo_endpoint ∅)
     (new_storage_client 5 (MkClient 1 true (MkNodeId 1 1 1) true)
        (MkTransport demo_cfg 0 0 false None new_pool ∅ ∅ None None demo_endpoint ∅))).2.
Definition demo_client : client := MkClient 0 true (MkNodeId 1 1 1) true.

Lemma loop_expected (r : loop) : rpc_inv r → Forall expected (poll r).1.
Proof.
  intros _. cbn. unfold lb_poll. destruct (lb_queue r) as [|[x l] q]; [constructor|].
  destruct (receive_request _ _ _) as [[[] ]|]; by repeat constructor.
Qed.

Lemma loop_sessions_open (r : loop) uri i : rpc_inv r → 0 <= (create_session r uri i).1.
Proof. apply li_sessions. Qed.

Lemma demo_ready : ready demo_net 5 demo_client.
Proof.
  assert (lb_inv demo_endpoint) as He.
  { split; cbn; [apply NoDup_nil_2|apply NoDup_nil_2|by intros b ?%elem_of_nil|by intros b [? ?]|by intros x l ?%elem_of_nil|done|done]. }
  split.
  - split; [exact He|exact new_pool_inv| |].
    + intros x l Hx. cbn in Hx. by rewrite lookup_empty in Hx.
    + intros y m k s Hy. cbn in Hy. by rewrite lookup_empty in Hy.
  - intros x y rt rt' [l Hx]. cbn in Hx. by rewrite lookup_empty in Hx.
  - intros x rt [l Hx]. cbn in Hx. by rewrite lookup_empty in Hx.
  - done.
  - done.
Qed.

Lemma demo_server_known : server_known (config demo_net) 0.
Proof. by vm_compute. Qed.

Lemma get_node_id_returns_witness : ∃ N, ∀ fuel, (N ≤ fuel)%nat →
  match GetNodeId (ret tt) fuel 5 0 0 demo_net with
  | Ok r t' => ∃ req resp, answered getNodeIdReqType req resp ∧ peek64 req 0 = 1 ∧
      r = MkNodeId 0 0 (peek64 resp 8) ∧ 0 <= nodeIdx r < 2 ^ 32 ∧ returned t' 5 (MkClient 1 false r true)
  | Throw e _ => e = runtime_error
  | Halt _ => False
  end.
Proof.
  exact (get_node_id_returns loop_expected loop_sessions_open (λ _ _ _ H, H) (conj eq_refl eq_refl)
    (ret tt) demo_net 5 demo_client 0 0 demo_ready demo_server_known (fibers_ok_none 5)).
Defined.

Lemma evict_node_returns_witness : ∃ N, ∀ fuel, (N ≤ fuel)%nat →
  match EvictNode run_event_loop_once fuel 5 0 0 7 [108; 105] demo_net with
  | Ok r t' => r = true ∧ (∃ req resp, answered evictNodeReqType req resp ∧ peek64 req 0 = 1 ∧
        peek64 req 8 = 7 ∧ peek req 16 2 = [108; 105]) ∧ returned t' 5 (MkClient 1 false (MkNodeId 1 1 1) true)
  | Throw e _ => e = runtime_error
  | Halt _ => False
  end.
Proof.
  assert (length [108; 105] ≤ EVICT_DATA)%nat as Hlen by (unfold EVICT_DATA; cbn [length]; lia).
  exact (evict_node_returns loop_expected loop_sessions_open (λ _ _ _ H, H) (conj eq_refl eq_refl)
    run_event_loop_once demo_net 5 demo_client 0 0 7 [108; 105] demo_ready demo_server_known (fibers_ok_polling loop_expected 5) Hlen ltac:(lia)).
Defined.

(** The first id handed out is 0, the second 1. *)
Example demo_two_ids :
  match GetNodeId (ret tt) 3 5 2 0 demo_net with
  | Ok r t => (nodeIdx r, match GetNodeId (ret tt) 3 5 2 0 t with Ok r' t' => (nodeIdx r', pool (req_tag_pool t')) | _ => (9, []) end)
  | _ => (9, (9, []))
  end = (0, (1, [0%nat])).
Proof. by vm_compute. Qed.

(** ** The pool and the sessions at work *)
Lemma pool_tags_distinct_witness : let s := (MkPool 4 3 [1%nat; 0%nat], [2%nat]) in
  NoDup s.2 ∧ (∀ t, t ∈ s.2 → t ∉ pool s.1) ∧ (backing s.1 ≤ 4)%nat ∧ ((length s.2 < 2)%nat → is_Some (pool_alloc s.1)).
Proof.
  apply (pool_tags_distinct (MkPool 4 3 [1%nat; 0%nat], [2%nat]) 2); [done|].
  eapply rtc_l; [split; [by apply (pool_step_alloc new_pool [] 0%nat (MkPool 2 1 []))|cbn; lia]|].
  eapply rtc_l; [split; [by apply (pool_step_alloc _ [0%nat] 2%nat (MkPool 4 3 [1%nat]))|cbn; lia]|].
  eapply rtc_l; [split; [exact (pool_step_free (MkPool 4 3 [1%nat]) [2%nat] 0%nat [])|cbn; lia]|]. apply rtc_refl.
Defined.

Lemma session_opened_once_witness :
  let t' := (result (0, demo_net) (GetSession 3 5 0 7 demo_net)).2 in GetSession 9 5 0 7 t' = Ok 0 t'.
Proof. cbv zeta. apply (session_opened_once demo_net _ 3 9 5 0 7 0). reflexivity. Defined.
