(* ===== verification/ServerLoop.v ===== *)
(** * The server answers every request once

    The server's event loop ([FastTransport::Run], [fasttransport_request],
    [SendResponse]) over an endpoint that keeps to eRPC's documentation refines the
    pure request handlers: each request of a pass is answered once, in order. *)
From Stdlib Require Import ZArith Lia Ascii String.
From stdpp Require Import prelude gmap.
From S2P Require Import Prelude Serialize Config StorageRpc StorageRpcProof Transport TransportProof StorageClient.

#[local] Open Scope cpp_scope.
#[local] Open Scope Z_scope.

(** ** What eRPC documents for servers *)
Class ServerView (R : Type) := {
  srv_inv : R → Prop;
  active : R → gset handle;                  (* requests that wait for [enqueue_response] *)
  resp_size : R → handle → Z;                (* what [resize_msg_buffer] set *)
  replied : R → list (handle * bytes);       (* responses sent so far *)
}.

Section contract.
Context {R : Type} `{Rpc R} `{ServerView R}.
Implicit Types (r : R).

(** Requests stay as they are, and so do the buffers for the answers to other requests. *)
Record same_requests r r' (touched : handle → Prop) : Prop := {
  sr_inv : srv_inv r';
  sr_req h : get_req_msgbuf r' h = get_req_msgbuf r h;
  sr_pre h : pre_resp_msgbuf r' h = pre_resp_msgbuf r h;
  sr_req_bytes h : h ∈ active r → buf_bytes r' (get_req_msgbuf r h) = buf_bytes r (get_req_msgbuf r h);
  sr_pre_bytes h : h ∈ active r → ¬ touched h → buf_bytes r' (pre_resp_msgbuf r h) = buf_bytes r (pre_resp_msgbuf r h);
}.

Class ServerOk : Prop := {
  packet_size : 16 <= get_max_data_per_pkt;
  pre_resp_room r h : srv_inv r → h ∈ active r → (16 ≤ length (buf_bytes r (pre_resp_msgbuf r h)))%nat;
  srv_write r h bs : srv_inv r → h ∈ active r → length bs = length (buf_bytes r (pre_resp_msgbuf r h)) →
    let r' := write_buf r (pre_resp_msgbuf r h) bs in
    same_requests r r' (λ h', h' = h) ∧ buf_bytes r' (pre_resp_msgbuf r h) = bs ∧ active r' = active r ∧ replied r' = replied r;
  srv_resize r h size : srv_inv r → h ∈ active r → 0 <= size <= get_max_data_per_pkt → ∃ r',
    resize_msg_buffer r (pre_resp_msgbuf r h) size = Some r' ∧ same_requests r r' (λ _, False) ∧
    resp_size r' h = size ∧ active r' = active r ∧ replied r' = replied r;
  srv_enqueue r h : srv_inv r → h ∈ active r → ∃ r', enqueue_response r h (pre_resp_msgbuf r h) = Some r' ∧
    same_requests r r' (λ h', h' = h) ∧ active r' = active r ∖ {[h]} ∧
    replied r' = replied r ++ [(h, take (Z.to_nat (resp_size r h)) (buf_bytes r (pre_resp_msgbuf r h)))];
  srv_poll r es r' : srv_inv r → poll r = (es, r') → srv_inv r' ∧ replied r' = replied r ∧
    ∃ hs, es = (λ p, got_request p.1 p.2) <$> hs ∧ NoDup hs.*1 ∧ (∀ h, h ∈ hs.*1 → h ∉ active r) ∧
      active r' = active r ∪ list_to_set hs.*1;
}.
End contract.
Arguments ServerOk R {_ _}.

(** The handlers alone: the server after the requests, and the answers. *)
Fixpoint serve_all (s : server) (reqs : list (handle * request * bytes)) : option (server * list (handle * bytes)) :=
  match reqs with
  | [] => Some (s, [])
  | (h, rq, resp) :: reqs' =>
      '(s, out, len) ← receive_request s rq resp;
      '(s, answers) ← serve_all s reqs';
      Some (s, (h, take len out) :: answers)
  end.

Lemma receive_request_spec s rq resp s' out len : receive_request s rq resp = Some (s', out, len) →
  length out = length resp ∧ len = 16%nat.
Proof.
  unfold receive_request, handle_get_node_id, handle_evict_node. intros Hr. repeat case_match; try done.
  - destruct (poke resp 0 _) as [b1|] eqn:H1; [|done]. cbn [mbind option_bind get_node_id] in Hr.
    destruct (poke b1 8 _) as [b2|] eqn:H2; [|done]. cbn [mbind option_bind] in Hr. injection Hr as <- <- <-.
    by rewrite (length_poke _ _ _ _ H2), (length_poke _ _ _ _ H1).
  - destruct (poke resp 0 _) as [b1|] eqn:H1; [|done]. cbn [mbind option_bind] in Hr.
    destruct (poke b1 8 _) as [b2|] eqn:H2; [|done]. cbn [mbind option_bind] in Hr. injection Hr as <- <- <-.
    by rewrite (length_poke _ _ _ _ H2), (length_poke _ _ _ _ H1).
Qed.

Section server.
Context {R : Type} `{ServerOk R}.
Notation T := (transport R server).
Implicit Types (t : T) (r : R).

(** What a handle's request is. *)
Definition request_of_handle r (p : handle * Z) : handle * request * bytes :=
  (p.1, MkRequest p.2 (buf_bytes r (get_req_msgbuf r p.1)), buf_bytes r (pre_resp_msgbuf r p.1)).

Definition serving t (x : receiver) (s : server) : Prop :=
  srv_inv (rpc t) ∧ Transport.server_receiver t = Some x ∧ objects t !! x = Some s.

Lemma bind_step {A B} (m : M T A) (k : A → M T B) t a t' : m t = Ok a t' → bind m k t = k a t'.
Proof. unfold bind. by intros ->. Qed.

(** One request. *)
Lemma request_served t x s h ty s' out len : serving t x s → h ∈ active (rpc t) →
  receive_request s (MkRequest ty (buf_bytes (rpc t) (get_req_msgbuf (rpc t) h))) (buf_bytes (rpc t) (pre_resp_msgbuf (rpc t) h)) = Some (s', out, len) →
  ∃ t', fasttransport_request h ty t = Ok tt t' ∧ serving t' x s' ∧ active (rpc t') = active (rpc t) ∖ {[h]} ∧
    replied (rpc t') = replied (rpc t) ++ [(h, take len out)] ∧ same_requests (rpc t) (rpc t') (λ h', h' = h).
Proof.
  intros (Hinv & Hx & Ho) Hh Hrec. destruct (receive_request_spec _ _ _ _ _ _ Hrec) as [Hlen Hlen16]. subst len.
  set (t1 := with_object x s' (with_handle h t)).
  destruct (srv_write (rpc t) h out Hinv Hh Hlen) as (Hs2 & Hb2 & Ha2 & Hp2). set (r2 := write_buf _ _ _) in *. set (t2 := with_rpc r2 t1).
  assert (h ∈ active r2) as Hh2 by by rewrite Ha2.
  destruct (srv_resize r2 h 16 (sr_inv _ _ _ Hs2) Hh2) as (r3 & Hr3 & Hs3 & Hsz & Ha3 & Hp3); [pose proof packet_size; lia|].
  assert (h ∈ active r3) as Hh3 by by rewrite Ha3.
  destruct (srv_enqueue r3 h (sr_inv _ _ _ Hs3) Hh3) as (r4 & Hr4 & Hs4 & Ha4 & Hp4). exists (with_rpc r4 t2). split_and!.
  - unfold fasttransport_request. rewrite (bind_step _ _ t tt (with_handle h t)) by done.
    unfold bind, get, of_option, modify, ret, SendResponse, rpc_call. cbn. rewrite Hx. cbn. rewrite Ho. cbn. rewrite Hrec. cbn.
    fold r2. unfold bind, ret. cbn [rpc with_rpc]. change (Z.of_nat 16) with 16. rewrite Hr3. cbn [rpc with_rpc]. by rewrite Hr4.
  - split_and!; [apply Hs4|done|apply lookup_insert_eq].
  - cbn. by rewrite Ha4, Ha3, Ha2.
  - cbn. rewrite Hp4, Hp3, Hp2, Hsz. do 3 f_equal. rewrite (sr_pre _ _ _ Hs3), (sr_pre_bytes _ _ _ Hs3) by (done || tauto).
    rewrite (sr_pre _ _ _ Hs2), Hb2. done.
  - cbn. split; [apply Hs4|..].
    + intros h'. by rewrite (sr_req _ _ _ Hs4), (sr_req _ _ _ Hs3), (sr_req _ _ _ Hs2).
    + intros h'. by rewrite (sr_pre _ _ _ Hs4), (sr_pre _ _ _ Hs3), (sr_pre _ _ _ Hs2).
    + intros h' Hh'. pose proof (sr_req_bytes _ _ _ Hs4 h') as K4. pose proof (sr_req_bytes _ _ _ Hs3 h') as K3.
      rewrite ?Ha3, ?Ha2, ?(sr_req _ _ _ Hs3), ?(sr_req _ _ _ Hs2) in *. rewrite K4, K3 by done. by apply Hs2.
    + intros h' Hh' Hne. pose proof (sr_pre_bytes _ _ _ Hs4 h') as K4. pose proof (sr_pre_bytes _ _ _ Hs3 h') as K3.
      rewrite ?Ha3, ?Ha2, ?(sr_pre _ _ _ Hs3), ?(sr_pre _ _ _ Hs2) in *. rewrite K4, K3 by (done || tauto). by apply Hs2.
Qed.

Lemma known_served s ty req resp : known ty → (16 ≤ length resp)%nat → ∃ s' out len, receive_request s (MkRequest ty req) resp = Some (s', out, len).
Proof.
  intros Hk Hlen. unfold receive_request, handle_get_node_id, handle_evict_node. cbn [req_type req_buf].
  destruct (poke_fits resp 0 (put_le 8 (peek64 req 0))) as [b1 Hb1]; [rewrite length_put_le; lia|].
  pose proof (length_poke _ _ _ _ Hb1) as Hl1. rewrite Hb1. cbn [mbind option_bind get_node_id].
  destruct Hk as [-> | ->]; cbn [Z.eqb Pos.eqb getNodeIdReqType evictNodeReqType].
  - destruct (poke_fits b1 8 (put_le 8 (current_id s))) as [b2 ->]; [rewrite length_put_le; lia|]. eauto.
  - destruct (poke_fits b1 8 (put_le 1 1)) as [b2 ->]; [rewrite length_put_le; lia|]. eauto.
Qed.

Lemma requests_served x hs : ∀ t s, serving t x s → NoDup hs.*1 → (∀ h, h ∈ hs.*1 → h ∈ active (rpc t)) → Forall (λ p, known p.2) hs →
  ∃ t' s' answers, callbacks ((λ p, got_request p.1 p.2) <$> hs) t = Ok tt t' ∧ serving t' x s' ∧
    serve_all s (request_of_handle (rpc t) <$> hs) = Some (s', answers) ∧ answers.*1 = hs.*1 ∧
    replied (rpc t') = replied (rpc t) ++ answers ∧ active (rpc t') = active (rpc t) ∖ list_to_set hs.*1.
Proof.
  induction hs as [|[h ty] hs IH]; intros t s Hsv Hnd Hact Hk.
  { exists t, s, []. cbn. rewrite app_nil_r. split_and!; try done. set_solver. }
  cbn in Hnd. apply NoDup_cons in Hnd as [Hh Hnd]. apply Forall_cons_1 in Hk as [Hty Hk]. cbn in Hty.
  assert (h ∈ active (rpc t)) as Hha by (apply Hact; cbn; set_solver).
  destruct (known_served s ty (buf_bytes (rpc t) (get_req_msgbuf (rpc t) h)) (buf_bytes (rpc t) (pre_resp_msgbuf (rpc t) h)) Hty) as (s1 & out & len & Hrec).
  { apply pre_resp_room; [apply Hsv|done]. }
  destruct (request_served t x s h ty s1 out len Hsv Hha Hrec) as (t1 & Hr1 & Hsv1 & Ha1 & Hp1 & Hs1).
  destruct (IH t1 s1 Hsv1 Hnd) as (t' & s' & answers & Hr & Hsv' & Hserve & Hans & Hp & Ha); [|done|].
  { intros h' Hh'. rewrite Ha1. apply elem_of_difference. split; [apply Hact; cbn; set_solver|set_solver]. }
  exists t', s', ((h, take len out) :: answers). split_and!.
  - cbn [fmap list_fmap callbacks callback fst snd]. by rewrite (bind_step _ _ _ _ _ Hr1).
  - done.
  - cbn [fmap list_fmap serve_all]. unfold request_of_handle at 1. cbn [fst snd]. rewrite Hrec. cbn [mbind option_bind].
    replace (request_of_handle (rpc t) <$> hs) with (request_of_handle (rpc t1) <$> hs); [by rewrite Hserve|].
    apply list_fmap_ext. intros i [h' ty'] Hi. unfold request_of_handle. cbn. assert (h' ∈ hs.*1) as Hin.
    { apply list_elem_of_fmap. exists (h', ty'). split; [done|]. by eapply list_elem_of_lookup_2. }
    assert (h' ∈ active (rpc t)) by (apply Hact; cbn; set_solver).
    by rewrite (sr_req _ _ _ Hs1), (sr_pre _ _ _ Hs1), (sr_req_bytes _ _ _ Hs1), (sr_pre_bytes _ _ _ Hs1) by set_solver.
  - cbn. by rewrite Hans.
  - rewrite Hp, Hp1, <- app_assoc. done.
  - rewrite Ha, Ha1. cbn. set_solver.
Qed.

Definition requests_of (es : list event) : list (handle * Z) :=
  omap (λ e, match e with got_request h ty => Some (h, ty) | _ => None end) es.

Lemma requests_of_fmap hs : requests_of ((λ p, got_request p.1 p.2) <$> hs) = hs.
Proof. induction hs as [|[h ty] hs IH]; cbn; [done|]. by f_equal. Qed.

Lemma pass_served t x s es r' :
  serving t x s → poll (rpc t) = (es, r') → Forall (λ p, known p.2) (requests_of es) →
  ∃ t' s' answers, run_event_loop_once t = Ok tt t' ∧ serving t' x s' ∧
    serve_all s (request_of_handle r' <$> requests_of es) = Some (s', answers) ∧ answers.*1 = (requests_of es).*1 ∧
    replied (rpc t') = replied (rpc t) ++ answers ∧ active (rpc t') = active (rpc t).
Proof.
  intros (Hinv & Hx & Ho) Hp Hk. destruct (srv_poll _ _ _ Hinv Hp) as (Hinv' & Hrep & hs & -> & Hnd & Hnew & Hact).
  rewrite requests_of_fmap in *.
  destruct (requests_served x hs (with_rpc r' t) s) as (t' & s' & answers & Hr & Hsv & Hserve & Hans & Hp' & Ha); [by split|done| |done|].
  { intros h Hh. cbn. rewrite Hact. set_solver. }
  exists t', s', answers. split_and!; try done.
  - unfold run_event_loop_once, bind, get, modify. by rewrite Hp.
  - cbn in Hp'. by rewrite Hp', Hrep.
  - cbn in Ha. rewrite Ha, Hact. set_solver.
Qed.

(** C20: a pass of the server's event loop answers each request that arrived exactly once, in the order of arrival, with
    what the handlers make of it, one after the other from the server's state; it makes
    no call of eRPC against its documentation and leaves no request without an answer. *)
Theorem server_pass_refines t x s es r' :
  serving t x s → poll (rpc t) = (es, r') → Forall (λ p, known p.2) (requests_of es) →
  ∃ t' s' answers, run_event_loop_once t = Ok tt t' ∧ serving t' x s' ∧
    serve_all s (request_of_handle r' <$> requests_of es) = Some (s', answers) ∧ answers.*1 = (requests_of es).*1 ∧
    replied (rpc t') = replied (rpc t) ++ answers ∧ active (rpc t') = active (rpc t).
Proof. apply pass_served. Qed.
End server.

(** ** An endpoint to which requests arrive one per pass *)
Record inbox := MkInbox {
  ib_bytes : gmap buf bytes;
  ib_size : gmap handle Z;
  ib_active : gset handle;
  ib_replied : list (handle * bytes);
  ib_arriving : list (handle * Z * bytes);
}.

Definition ib_read (r : inbox) (b : buf) : bytes := default [] (ib_bytes r !! b).
Definition ib_req (h : handle) : buf := (2 * h)%nat.
Definition ib_pre (h : handle) : buf := S (2 * h).

#[global] Instance inbox_rpc : Rpc inbox := {
  get_max_data_per_pkt := 1024;
  buf_bytes := ib_read;
  write_buf r b bs := MkInbox (<[b := bs]> (ib_bytes r)) (ib_size r) (ib_active r) (ib_replied r) (ib_arriving r);
  alloc_msg_buffer_or_die _ _ := None;
  free_msg_buffer _ _ := None;
  resize_msg_buffer r b size := Some (MkInbox (ib_bytes r) (<[Nat.div2 b := size]> (ib_size r)) (ib_active r) (ib_replied r) (ib_arriving r));
  create_session r _ _ := (-1, r);
  is_connected _ _ := None;
  enqueue_request _ _ _ _ _ _ := None;
  get_req_msgbuf _ := ib_req;
  pre_resp_msgbuf _ := ib_pre;
  enqueue_response r h b :=
    Some (MkInbox (ib_bytes r) (ib_size r) (ib_active r ∖ {[h]})
                  (ib_replied r ++ [(h, take (Z.to_nat (default 0 (ib_size r !! h))) (ib_read r b))]) (ib_arriving r));
  poll r :=
    match ib_arriving r with
    | [] => ([], r)
    | (h, ty, req) :: rest =>
        ([got_request h ty], MkInbox (<[ib_req h := req]> (<[ib_pre h := replicate 16 0]> (ib_bytes r))) (ib_size r)
                                     ({[h]} ∪ ib_active r) (ib_replied r) rest)
    end;
}.

Record ib_inv (r : inbox) : Prop := {
  ib_nodup : NoDup (ib_arriving r).*1.*1;
  ib_new h : h ∈ (ib_arriving r).*1.*1 → h ∉ ib_active r;
  ib_room h : h ∈ ib_active r → (16 ≤ length (ib_read r (ib_pre h)))%nat;
  ib_types : Forall (λ q, known q.1.2) (ib_arriving r);
}.

#[global] Instance inbox_view : ServerView inbox := {
  srv_inv := ib_inv;
  active := ib_active;
  resp_size r h := default 0 (ib_size r !! h);
  replied := ib_replied;
}.

Lemma ib_req_pre h h' : ib_req h ≠ ib_pre h'.
Proof. unfold ib_req, ib_pre. lia. Qed.
Lemma ib_pre_inj h h' : ib_pre h = ib_pre h' → h = h'.
Proof. unfold ib_pre. lia. Qed.
Lemma ib_pre_div h : Nat.div2 (ib_pre h) = h.
Proof. unfold ib_pre. apply Nat.div2_succ_double. Qed.

Lemma ib_read_insert r b b' bs : ib_read (MkInbox (<[b := bs]> (ib_bytes r)) (ib_size r) (ib_active r) (ib_replied r) (ib_arriving r)) b' =
  if decide (b = b') then bs else ib_read r b'.
Proof. unfold ib_read. cbn. case_decide as Hb; [subst; by rewrite lookup_insert_eq|by rewrite lookup_insert_ne]. Qed.

#[global] Instance inbox_ok : ServerOk inbox.
Proof.
  split.
  - done.
  - intros r h Hr. apply Hr.
  - intros r h bs Hr Hh Hlen. split_and!; try done; cbn.
    + split; cbn; try done.
      * split; cbn; try apply Hr. intros h' Hh'. rewrite ib_read_insert. case_decide as Hp; [|by apply Hr]. rewrite Hlen. by apply Hr.
      * intros h' _. rewrite ib_read_insert, decide_False; [done|]. intros Heq. by apply (ib_req_pre h' h).
      * intros h' _ Hne. rewrite ib_read_insert, decide_False; [done|]. intros Heq%ib_pre_inj. by apply Hne.
    + by rewrite ib_read_insert, decide_True.
  - intros r h size Hr Hh Hs. eexists. split_and!; [done| | |done|done].
    + split; try done. by destruct Hr.
    + change (default 0 (<[Nat.div2 (ib_pre h) := size]> (ib_size r) !! h) = size). by rewrite ib_pre_div, lookup_insert_eq.
  - intros r h Hr Hh. eexists. split_and!; try done. split; try done. destruct Hr as [H1 H2 H3 H4]. split; cbn; try done.
    + intros h' Hh'%H2. set_solver.
    + intros h' Hh'. apply (H3 h'). set_solver.
  - intros r es r' Hr Hp. cbn in Hp. destruct Hr as [H1 H2 H3 H4]. destruct (ib_arriving r) as [|[[h ty] req] rest] eqn:Ha; injection Hp as <- <-.
    + split_and!; [by split; rewrite ?Ha|done|]. exists []. split_and!; [done|apply NoDup_nil_2|by intros h ?%elem_of_nil|cbn; set_solver].
    + cbn in H1. apply NoDup_cons in H1 as [Hh H1]. cbn in H2. split_and!; [|done|].
      * apply Forall_cons_1 in H4 as [_ H4]. split; cbn; [done| | |done].
        -- intros h' Hh'. assert (h' ≠ h) by (intros ->; done). pose proof (H2 h'). set_solver.
        -- intros h' Hh'. unfold ib_read. cbn. rewrite lookup_insert_ne by apply ib_req_pre.
           destruct (decide (h' = h)) as [->|Hne]; [rewrite lookup_insert_eq; done|]. rewrite lookup_insert_ne by (intros ?%ib_pre_inj; done).
           apply H3. set_solver.
      * exists [(h, ty)]. split_and!; [done|apply NoDup_singleton| |cbn; set_solver]. intros h' ->%list_elem_of_singleton. apply H2. by left.
Qed.

(** A server that holds a request for a node id. *)
Definition demo_server : transport inbox server :=
  MkTransport (MkConfiguration 1 [MkAddress [] []] None false) 0 0 false None new_pool ∅ ∅ None (Some 3%nat)
    (MkInbox ∅ ∅ ∅ [] [(8%nat, getNodeIdReqType, [4; 0; 0; 0; 0; 0; 0; 0])]) {[3%nat := MkServer 6 []]}.

Lemma server_pass_refines_witness : ∃ t' s' answers, run_event_loop_once demo_server = Ok tt t' ∧ serving t' 3 s' ∧
  replied (rpc t') = answers ∧ answers.*1 = [8%nat] ∧ active (rpc t') = ∅.
Proof.
  destruct (server_pass_refines demo_server 3 (MkServer 6 []) _ _ ltac:(split; [split; [apply NoDup_singleton|set_solver|set_solver|apply Forall_singleton; by left]|done]) eq_refl
    ltac:(apply Forall_singleton; by left)) as (t' & s' & answers & Hr & Hs & _ & Ha & Hp & Hact).
  exists t', s', answers. done.
Defined.
