(* ===== verification/Driver.v ===== *)
(** * The test driver (client/main.cpp, [test] and [do_scan])

    [test] runs operations against the tree and a [std::map] and asserts that they
    agree.  Where the program draws its commands at random or from a script, the
    model takes them as a list.  The key type and its constructor from a string are
    parameters; the program has [FKey], for which they are instantiated in FKeyTree. *)
From Stdlib Require Import ZArith Lia Ascii String.
From stdpp Require Import prelude gmap.
From S2P Require Import Prelude StdMap Message NodeStore BeTree Iterator Serialize.

#[local] Open Scope cpp_scope.

(** [std::string]: [operator+] appends; the default value is empty. *)
#[global] Instance string_value : ValueOps text := {| vadd := app; vnew := [] |}.

Section driver.
Context {K : Type} `{KeyOps K} `{KeyNew K} (key : text → K).
Context {St : Type} `{StoreOps St (node K text)}.
Implicit Types (bet : betree text) (reference : list (K * text)).

(** The iterator and the rest of the reference map. *)
Fixpoint do_scan (rounds fuel : nat) (bet : betree text) (betit : iterator K text) (refit : list (K * text))
    : M St unit :=
  match refit with
  | [] => assert_ (iterator_eqb betit betree_end)
  | kv :: refit' =>
      assert_ (iterator_neb betit betree_end) ;;
      assert_ (keq (first betit) kv.1) ;;
      assert_ (bool_decide (second betit = kv.2)) ;;
      let! betit := iterator_incr rounds fuel bet betit in
      do_scan rounds fuel bet betit refit'
  end.

(** One round of the loop of [test]: [op] and [t] are the command and its argument. *)
Definition test_step (rounds fuel : nat) (bet : betree text) (reference : list (K * text)) (op : Z) (t : text)
    : M St (betree text * list (K * text)) :=
  let v := t ++ lit ":" in
  if (op =? 0)%Z then
    let! bet := insert fuel bet (key t) v in
    ret (bet, map_assign reference (key t) v)
  else if (op =? 1)%Z then
    let! bet := update fuel bet (key t) v in
    ret (bet, map_assign reference (key t)
                (match map_find reference (key t) with Some w => w ++ v | None => v end))
  else if (op =? 2)%Z then
    let! bet := erase fuel bet (key t) in
    ret (bet, map_erase reference (key t))
  else if (op =? 3)%Z then
    catch_oor
      (let! bval := query fuel bet (key t) in
       match map_find reference (key t) with
       | Some rval => assert_ (bool_decide (bval = rval)) ;; ret (bet, reference)
       | None => halt assert_failed
       end)
      (match map_find reference (key t) with
       | Some _ => halt assert_failed
       | None => ret (bet, reference)
       end)
  else if (op =? 4)%Z then
    let! betit := begin rounds fuel bet in
    do_scan rounds fuel bet betit reference ;;
    ret (bet, reference)
  else if (op =? 5)%Z then
    let! betit := iterator_lower_bound rounds fuel bet (key t) in
    do_scan rounds fuel bet betit (lower_bound reference (key t)).2 ;;
    ret (bet, reference)
  else if (op =? 6)%Z then
    let! betit := iterator_upper_bound rounds fuel bet (key t) in
    do_scan rounds fuel bet betit (upper_bound reference (key t)).2 ;;
    ret (bet, reference)
  else halt assert_failed.

Fixpoint test_loop (rounds fuel : nat) (bet : betree text) (reference : list (K * text)) (commands : list (Z * text))
    : M St (betree text * list (K * text)) :=
  match commands with
  | [] => ret (bet, reference)
  | (op, t) :: commands' =>
      let! '(bet, reference) := test_step rounds fuel bet reference op t in
      test_loop rounds fuel bet reference commands'
  end.

Definition test (rounds fuel : nat) (bet : betree text) (commands : list (Z * text))
    : M St (betree text * list (K * text)) :=
  test_loop rounds fuel bet [] commands.

(** [betree<FKey, std::string> b(&sspace, max_node_size, min_flush_size)] in [client_fiber_func]:
    the flush size of the driver is the third parameter of the constructor, [minnodesize],
    and the fourth one, [minflushsize], keeps its default value. *)
Definition TEST_MAX_NODE_SIZE : Z := 64.
Definition TEST_MIN_FLUSH_SIZE : Z := TEST_MAX_NODE_SIZE / 4.
Definition DEFAULT_MIN_FLUSH_SIZE : Z := 2 ^ 18 / 16.
Definition client_tree : M St (betree text) := new_betree TEST_MAX_NODE_SIZE TEST_MIN_FLUSH_SIZE DEFAULT_MIN_FLUSH_SIZE.

(** [benchmark_upserts], without its timers. *)
Fixpoint benchmark_updates (fuel : nat) (bet : betree text) (draws : list text) : M St (betree text) :=
  match draws with
  | [] => ret bet
  | t :: draws' =>
      let! bet := update fuel bet (key t) (t ++ lit ":") in
      benchmark_updates fuel bet draws'
  end.

(** The second half of [benchmark_queries]; an absent key is an uncaught exception. *)
Fixpoint benchmark_query_loop (fuel : nat) (bet : betree text) (draws : list text) : M St unit :=
  match draws with
  | [] => ret tt
  | t :: draws' => query fuel bet (key t) ;; benchmark_query_loop fuel bet draws'
  end.
Definition benchmark_queries (fuel : nat) (bet : betree text) (draws : list text) : M St (betree text) :=
  let! bet := benchmark_updates fuel bet draws in
  benchmark_query_loop fuel bet draws ;;
  ret bet.
End driver.
