(* ===== verification/StoreFrame.v ===== *)
(** * What the tree leaves to its store

    The tree changes the store only through the operations of [StoreOps]: a property of stores that each of them keeps is
    kept by every operation of the tree, and by the programs that run on it. *)
From Stdlib Require Import ZArith Lia.
From stdpp Require Import prelude gmap.
From S2P Require Import Prelude StdMap Message NodeStore BeTree Iterator Serialize Driver.

#[local] Open Scope cpp_scope.

Record store_framed {St node} `{StoreOps St node} (P : St → Prop) : Prop := {
  sf_enter p d : keeps P (st_enter p d);
  sf_leave p : keeps P (st_leave p);
  sf_deref p : keeps P (st_deref p);
  sf_update p n : keeps P (st_update p n);
  sf_allocate n : keeps P (st_allocate n);
  sf_release p : keeps P (st_release p);
  sf_is_dirty p : keeps P (st_is_dirty p);
  sf_is_in_memory p : keeps P (st_is_in_memory p);
}.

Section arrow.
Context {St node : Type} `{StoreOps St node} (P : St → Prop) (HP : store_framed P).

Lemma keeps_arrow {A} p d (body : M St A) : keeps P body → keeps P (arrow p d body).
Proof.
  intros Hb. unfold arrow. apply keeps_bind; [apply HP|]. intros [] s Hs. specialize (Hb s Hs).
  destruct (body s) as [r s'|e s'|]; [| |done]; cbn in Hb; pose proof (sf_leave _ HP p s' Hb) as Hl; unfold bind; by destruct (st_leave p s').
Qed.
Lemma keeps_arrow_read p d : keeps P (arrow_read p d).
Proof. apply keeps_arrow, HP. Qed.
Lemma keeps_arrow_twice {A} p (f : node → node → M St A) : (∀ n1 n2, keeps P (f n1 n2)) → keeps P (arrow_twice p f).
Proof.
  intros Hf. apply keeps_arrow, keeps_bind; [apply HP|]. intros n1. apply keeps_arrow, keeps_bind; [apply HP|auto].
Qed.
Lemma keeps_arrow_modify p f : keeps P (arrow_modify p f).
Proof. apply keeps_arrow, keeps_bind; [apply HP|]. intros n. apply HP. Qed.
End arrow.
#[export] Hint Resolve keeps_arrow keeps_arrow_read keeps_arrow_modify : betree.

(** Takes an operation apart; [HP] is the frame. *)
Ltac stay HP :=
  repeat first
    [ solve [ auto 3 with betree ]
    | first [ apply (sf_enter _ HP) | apply (sf_leave _ HP) | apply (sf_deref _ HP) | apply (sf_update _ HP) | apply (sf_allocate _ HP)
            | apply (sf_release _ HP) | apply (sf_is_dirty _ HP) | apply (sf_is_in_memory _ HP) ]
    | match goal with |- keeps _ (arrow_twice _ _) => apply (keeps_arrow_twice _ HP); intros ? ? end
    | apply keeps_bind; [|intros ?]
    | apply keeps_catch_oor
    | match goal with |- keeps _ (match ?x with _ => _ end) => destruct x end ].

Section tree.
Context {K V : Type} `{KeyOps K} `{ValueOps V} {St : Type} `{StoreOps St (node K V)}.
Context (P : St → Prop) (HP : store_framed P).

Lemma keeps_get_pivot mp (k : K) : keeps P (get_pivot mp k).
Proof. unfold get_pivot. stay HP. Qed.
Hint Resolve keeps_get_pivot : betree.

(** ** [split] *)
Lemma keeps_split_counts (bet : betree V) (n : node K V) : keeps P (split_counts bet n).
Proof. unfold split_counts. stay HP. Qed.
Lemma keeps_move_elements p es es' z : keeps P (move_elements (K := K) (V := V) p es es' z).
Proof. revert z. induction es as [|e es IH]; intros z; cbn [move_elements]; stay HP. Qed.
Hint Resolve keeps_split_counts keeps_move_elements : betree.
Lemma keeps_fill_node fuel this p limit : ∀ ps es z, keeps P (fill_node (K := K) (V := V) fuel this p limit ps es z).
Proof. induction fuel as [|fuel IH]; intros ps es z; cbn [fill_node]; stay HP. Qed.
Lemma keeps_release_old result (k : K) : keeps P (release_old result k).
Proof. unfold release_old. stay HP. Qed.
Hint Resolve keeps_fill_node keeps_release_old : betree.
Lemma keeps_split_loop count this per : ∀ i ps es z result, keeps P (split_loop (K := K) (V := V) count i this per ps es z result).
Proof. induction count as [|count IH]; intros; cbn [split_loop]; stay HP. Qed.
Lemma keeps_set_child_sizes (result : pivot_map K) : keeps P (set_child_sizes result).
Proof. induction result as [|[k ci] result IH]; cbn [set_child_sizes]; stay HP. Qed.
Hint Resolve keeps_split_loop keeps_set_child_sizes : betree.
Lemma keeps_split (bet : betree V) this : keeps P (split bet this).
Proof. unfold split. stay HP. Qed.
Hint Resolve keeps_split : betree.

(** ** [flush] *)
Lemma keeps_child_total c : keeps P (child_total c).
Proof. unfold child_total. stay HP. Qed.
Lemma keeps_worth_flushing (bet : betree V) sz c : keeps P (worth_flushing bet sz c).
Proof. unfold worth_flushing. stay HP. Qed.
Hint Resolve keeps_child_total keeps_worth_flushing : betree.
Lemma keeps_flush_loop fl : (∀ p es, keeps P (fl p es)) → ∀ fuel (bet : betree V) this (k : K) valid, keeps P (flush_loop fl fuel bet this k valid).
Proof. intros Hfl fuel bet this k. induction fuel as [|fuel IH]; intros valid; cbn [flush_loop]; stay HP. Qed.
Lemma keeps_flush fuel (bet : betree V) : ∀ this es, keeps P (flush fuel bet this es).
Proof.
  induction fuel as [|fuel IH]; intros this es; cbn [flush]; [stay HP|].
  pose proof (keeps_flush_loop (flush fuel bet) IH). stay HP.
Qed.
Hint Resolve keeps_flush : betree.

(** ** [query] and the public operations *)
Lemma keeps_apply_updates (k : K) es : ∀ v : V, keeps P (apply_updates k v es).
Proof. induction es as [|[mk m] es IH]; intros v; cbn [apply_updates]; stay HP. Qed.
Hint Resolve keeps_apply_updates : betree.
Lemma keeps_query_node fuel (bet : betree V) : ∀ this (k : K), keeps P (query_node fuel bet this k).
Proof. induction fuel as [|fuel IH]; intros this k; cbn [query_node]; stay HP. Qed.
Hint Resolve keeps_query_node : betree.

Lemma keeps_new_betree a b c : keeps P (new_betree (K := K) (V := V) a b c).
Proof. unfold new_betree. stay HP. Qed.
Lemma keeps_upsert fuel (bet : betree V) opc (k : K) v : keeps P (upsert fuel bet opc k v).
Proof. unfold upsert. stay HP. Qed.
Lemma keeps_query fuel (bet : betree V) (k : K) : keeps P (query fuel bet k).
Proof. unfold query. stay HP. Qed.
End tree.
