(* ===== verification/DriverProof.v ===== *)
(** * The test driver passes

    As long as the number of operations leaves the tree [steady], no assertion of
    [test] fails and nothing aborts, whatever the commands are, for every key type
    with a total order and every store that satisfies the laws of [Store]. *)
From Stdlib Require Import ZArith Lia Ascii String.
From stdpp Require Import prelude gmap.
From S2P Require Import Prelude StdMap Message NodeStore BeTree Iterator MessageSem Tree NodeLemmas Serialize.
From S2P Require Import QueryProof Live Listing NextProof Dictionary IteratorProof Driver.

#[local] Open Scope cpp_scope.

Section driver_proof.
Context {K : Type} `{KeyOrder K} `{KeyNew K} (key : text → K).
Context {St : Type} `{StoreOps St (node K text)} `{!Store St (node K text)}.
Implicit Types (s : St) (bet : betree text) (R : list (K * text)) (it : iterator K text).

(** *** Scans *)
Lemma found_end bet t it L : found bet t it [] L → iterator_eqb it end_iterator = true.
Proof.
  intros (Hst & _ & Hv). destruct (is_valid it) eqn:Ev; [done|]. destruct Hv as [_ ->]. cbn in Hst.
  unfold iterator_eqb. by rewrite Ev, Hst.
Qed.

Lemma found_pair bet t it kv l L :
  found bet t it (kv :: l) L →
  iterator_eqb it end_iterator = false ∧ kv = (first it, second it) ∧ l = live (default_value bet) L.
Proof.
  intros (_ & _ & Hv). destruct (is_valid it) eqn:Ev; [|by destruct Hv].
  injection Hv as -> ->. unfold iterator_eqb. by rewrite Ev.
Qed.

Lemma wp_do_scan bet t clean fuel rounds R : ∀ it L s,
  keeps bet t clean s → height t ≤ fuel → length (entries t) ≤ rounds → found bet t it R L →
  wp store_only (do_scan rounds fuel bet it R) s (λ _ s', keeps bet t clean s') no_exn.
Proof.
  induction R as [|kv R IH]; intros it L s Hs Hfuel Hlen Hf; cbn [do_scan]; unfold betree_end, iterator_neb, iterator_incr.
  - by rewrite (found_end _ _ _ _ Hf).
  - destruct (found_pair _ _ _ _ _ _ Hf) as (-> & -> & ->). cbn [negb fst snd].
    rewrite keq_refl, bool_decide_true by done. do 3 (apply wp_bind, wp_ret). apply wp_bind.
    destruct Hf as (Hst & Hsuf & _). eapply (wp_setup_next bet t clean fuel rounds it L); try done.
    { etrans; [by apply suffix_length|done]. }
    intros it' s' L' Hs' Hf'. by eapply IH.
Qed.

(** *** The reference map *)
Record agrees (N n : nat) bet s R : Prop := {
  ag_steady : steady N n bet s (map_find R);
  ag_sorted : sorted R;
  ag_default : default_value bet = [];
}.

Lemma steady_ext N n bet s (m m' : K → option text) :
  steady N n bet s m → (∀ k, m k = m' k) → steady N n bet s m'.
Proof.
  intros (? & ? & ? & t & ? & ? & Hl & Hrest) Hm. split_and!; [done..|]. exists t. split_and!; try done; [|apply Hrest..].
  intros k. by rewrite Hl.
Qed.

Lemma agrees_tree N n bet s R :
  agrees N n bet s R → ∃ t, keeps bet t True s ∧ height t ≤ S n ∧ length (entries t) ≤ n ∧ wf t ∧
    (∀ k, map_find R k = lookup (default_value bet) t k) ∧
    ∀ s', keeps bet t True s' → agrees N n bet s' R.
Proof.
  intros [(? & ? & ? & t & Hat & ? & Hl & ? & ? & Hd) HR Hdef]. exists t. split_and!; try done; [by apply Hat|].
  intros s' [Hat' Hd']. split; [|done..]. split_and!; [done..|]. exists t. split_and!; try done. by apply Hd'.
Qed.

(** An update, and what it does to the reference. *)
Lemma wp_agrees_upsert fuel N n bet s R opc k v R' (Q : betree text → St → Prop) :
  agrees N n bet s R → n < N → N ≤ fuel → valid_op (MkMessage opc v) → sorted R' →
  (∀ k', map_find R' k' = updated [] (map_find R) opc k v k') →
  (∀ bet' s', agrees N (S n) bet' s' R' → Q bet' s') →
  wp store_only (upsert fuel bet opc k v) s Q no_exn.
Proof.
  intros [Hst HR Hdef] Hn Hfuel Hop HR' Hf HQ. eapply wp_steady_upsert; [done|done|lia|done|].
  intros bet' s' Hst' Hdef'. apply HQ. split; [|done|congruence]. eapply steady_ext; [done|].
  intros k'. by rewrite Hf, Hdef.
Qed.

(** A scan from an iterator made by the constructor. *)
Lemma wp_agrees_scan fuel rounds N n bet s R mkey R' (Q : betree text * list (K * text) → St → Prop) :
  agrees N n bet s R → S N ≤ fuel → N ≤ rounds →
  (∀ t, wf t → (∀ k, map_find R k = lookup (default_value bet) t k) →
     live (default_value bet) (List.filter (after mkey) (listing (entries t))) = R') →
  (∀ s', agrees N n bet s' R → Q (bet, R) s') →
  wp store_only (let! betit := iterator_from rounds fuel bet mkey in
                 do_scan rounds fuel bet betit R' ;; ret (bet, R)) s Q no_exn.
Proof.
  intros Hag Hfuel Hrounds HR' HQ. assert (n ≤ N) as HnN by apply Hag.
  destruct (agrees_tree _ _ _ _ _ Hag) as (t & Hs & Hh & Hlen & Hwf & Hl & Hback).
  apply wp_bind. eapply (wp_iterator_from bet t True); [done|lia|lia|]. intros it s1 L Hs1 Hf.
  rewrite (HR' t Hwf Hl) in Hf. apply wp_bind. eapply wp_mono; [eapply (wp_do_scan bet t True); try done; lia| |done].
  intros [] s2 Hs2. apply wp_ret. by apply HQ, Hback.
Qed.

Lemma wp_test_step rounds fuel N n bet s R op (t : text) :
  agrees N n bet s R → n < N → S N ≤ fuel → N ≤ rounds → (0 <= op < 7)%Z →
  wp store_only (test_step key rounds fuel bet R op t) s (λ r s', agrees N (S n) r.1 s' r.2) no_exn.
Proof.
  intros Hag Hn Hfuel Hrounds Hop. pose proof Hag as [Hst HR Hdef].
  assert (∀ s', agrees N n bet s' R → agrees N (S n) bet s' R) as Hmore.
  { intros s' [(? & ? & ? & tr & ? & ? & ? & ? & ? & ?) ? ?]. split; [|done..]. split_and!; [done|lia|lia|].
    exists tr. split_and!; try done; [lia|lia|nia]. }
  unfold test_step, insert, update, erase. rewrite Hdef.
  destruct (Z.eqb_spec op 0); [|destruct (Z.eqb_spec op 1); [|destruct (Z.eqb_spec op 2);
    [|destruct (Z.eqb_spec op 3); [|destruct (Z.eqb_spec op 4); [|destruct (Z.eqb_spec op 5);
    [|destruct (Z.eqb_spec op 6); [|lia]]]]]]].
  - apply wp_bind. eapply (wp_agrees_upsert _ N n _ _ R); [done|done|lia|by left|by apply sorted_map_assign| |by intros; apply wp_ret].
    intros k'. by rewrite map_find_assign.
  - apply wp_bind. eapply (wp_agrees_upsert _ N n _ _ R); [done|done|lia|by right; right|by apply sorted_map_assign| |by intros; apply wp_ret].
    intros k'. rewrite map_find_assign by done. unfold updated. destruct (keq k' (key t)); [|done].
    cbn. by destruct (map_find R (key t)).
  - apply wp_bind. eapply (wp_agrees_upsert _ N n _ _ R); [done|done|lia|by right; left|by apply sorted_map_erase| |by intros; apply wp_ret].
    intros k'. by rewrite map_find_erase.
  - apply wp_catch_oor, wp_bind. eapply wp_steady_query; [done|lia|]. intros s' Hst'.
    destruct (map_find R (key t)) as [rval|].
    + rewrite bool_decide_true by done. apply wp_bind, wp_ret, wp_ret. by apply Hmore.
    + apply wp_ret. by apply Hmore.
  - eapply wp_agrees_scan; [done|lia|lia| |by auto]. intros tr Hwf Hl. rewrite lfilter_all by done. by apply live_listing.
  - eapply wp_agrees_scan; [done|lia|lia| |by auto]. intros tr Hwf Hl. by apply live_lower_bound.
  - eapply wp_agrees_scan; [done|lia|lia| |by auto]. intros tr Hwf Hl. by apply live_upper_bound.
Qed.

Lemma wp_test_loop rounds fuel N commands : ∀ n bet s R,
  agrees N n bet s R → n + length commands ≤ N → S N ≤ fuel → N ≤ rounds →
  Forall (λ c : Z * text, (0 <= c.1 < 7)%Z) commands →
  wp store_only (test_loop key rounds fuel bet R commands) s
     (λ r s', agrees N (n + length commands) r.1 s' r.2) no_exn.
Proof.
  induction commands as [|[op t] commands IH]; intros n bet s R Hag Hlen Hfuel Hrounds Hall; cbn [test_loop length].
  - apply wp_ret. by rewrite Nat.add_0_r.
  - inversion Hall as [|? ? Hop Hall']; subst. cbn in Hop, Hlen. apply wp_bind.
    eapply wp_mono; [apply (wp_test_step rounds fuel N n); try done; lia| |done].
    intros [bet' R'] s' Hag'. cbn in Hag'.
    rewrite <- Nat.add_succ_comm. apply IH; [done|lia|done..].
Qed.

Lemma wp_client_tree s N (Q : betree text → St → Prop) :
  st_inv s → (Z.of_nat N <= 2 ^ 13)%Z → (∀ bet s', agrees N 0 bet s' [] → Q bet s') →
  wp store_only client_tree s Q no_exn.
Proof.
  intros Hinv HN HQ. eapply wp_mono; [apply (wp_new_betree s N); [done|done|change DEFAULT_MIN_FLUSH_SIZE with 16384%Z; lia|lia]| |done].
  intros bet s' [Hst Hdef]. apply HQ. by split; [|apply sorted_nil|].
Qed.

Definition test_spec s rounds fuel commands : Prop :=
  wp store_only (let! b := client_tree in test key rounds fuel b commands) s
     (λ r s', sorted r.2 ∧ ∃ t, tree_at r.1 s' t ∧ ∀ k, lookup [] t k = map_find r.2 k) no_exn.

Lemma wp_test s rounds fuel commands :
  st_inv s → (Z.of_nat (length commands) <= 2 ^ 13)%Z → Forall (λ c : Z * text, (0 <= c.1 < 7)%Z) commands →
  length commands ≤ rounds → S (length commands) ≤ fuel → test_spec s rounds fuel commands.
Proof.
  intros Hinv Hlen Hops Hrounds Hfuel. apply wp_bind, (wp_client_tree s (length commands)); [done..|].
  intros bet s1 Hag. eapply wp_mono; [apply (wp_test_loop rounds fuel (length commands) commands 0); done| |done].
  intros [bet' R] s2 Hag'. pose proof Hag' as [_ HR Hdef].
  destruct (agrees_tree _ _ _ _ _ Hag') as (t & [Hat _] & _ & _ & _ & Hl & _). split; [done|].
  exists t. split; [done|]. intros k. cbn in Hdef. rewrite <- Hdef. by rewrite (Hl k).
Qed.

(** C1: [test], a template over the key type, on a new tree with the parameters of [client_fiber_func] and up to 2^13
    commands (the program runs 2^12): for every key type with a total order and every store that keeps the laws of [Store]
    it passes.  No assertion of the driver, the tree, its nodes or its iterators fails, nothing is undefined, no loop runs on, and at
    the end the tree holds exactly the reference map; only a fault of the store stops it. *)
Theorem test_passes s rounds fuel commands :
  st_inv s → (Z.of_nat (length commands) <= 2 ^ 13)%Z → Forall (λ c : Z * text, (0 <= c.1 < 7)%Z) commands →
  length commands ≤ rounds → S (length commands) ≤ fuel →
  wp store_only (let! b := client_tree in test key rounds fuel b commands) s
     (λ r s', sorted r.2 ∧ ∃ t, tree_at r.1 s' t ∧ ∀ k, lookup [] t k = map_find r.2 k) no_exn.
Proof. apply wp_test. Qed.

(** *** The benchmark *)
Lemma wp_benchmark_updates fuel N draws : ∀ n bet s (m : K → option text) (seen : text → Prop) (Q : betree text → St → Prop),
  steady N n bet s m → n + length draws ≤ N → S N ≤ fuel → (∀ t, seen t → is_Some (m (key t))) →
  (∀ bet' s' m', steady N (n + length draws) bet' s' m' →
     (∀ t, seen t ∨ t ∈ draws → is_Some (m' (key t))) → default_value bet' = default_value bet → Q bet' s') →
  wp store_only (benchmark_updates key fuel bet draws) s Q no_exn.
Proof.
  induction draws as [|t draws IH]; intros n bet s m seen Q Hst Hlen Hfuel Hseen HQ; cbn [benchmark_updates].
  - apply wp_ret. eapply HQ; [by rewrite Nat.add_0_r| |done]. intros t [?|?%elem_of_nil]; [auto|done].
  - cbn in Hlen. apply wp_bind. eapply wp_steady_upsert; [done|lia|lia|by right; right|].
    intros bet' s' Hst' Hd'. eapply (IH (S n) _ _ _ (λ u, seen u ∨ u = t)); [done|lia|done| |].
    + intros u Hu. unfold updated. destruct (keq (key u) (key t)) eqn:E; [by eexists|].
      destruct Hu as [?| ->]; [auto|]. by rewrite keq_refl in E.
    + intros bet2 s2 m2 Hst2 Hs2 Hd2. eapply HQ; [cbn [length]; by rewrite <- Nat.add_succ_comm| |congruence].
      intros u [?|[->|?]%elem_of_cons]; apply Hs2; auto.
Qed.

Lemma wp_benchmark_query_loop fuel N n bet (m : K → option text) draws : ∀ s,
  steady N n bet s m → S N ≤ fuel → (∀ t, t ∈ draws → is_Some (m (key t))) →
  wp store_only (benchmark_query_loop key fuel bet draws) s (λ _ s', steady N n bet s' m) no_exn.
Proof.
  induction draws as [|t draws IH]; intros s Hst Hfuel Hin; cbn [benchmark_query_loop]; [by apply wp_ret|].
  apply wp_bind. assert (n ≤ N) by apply Hst. eapply wp_steady_query; [done|lia|]. intros s' Hst'.
  destruct (Hin t) as [v ->]; [by left|]. apply IH; [done|done|]. intros u Hu. apply Hin. by right.
Qed.

(** [benchmark_queries] on a new tree finds every key it asks for, for every key type with a total order and every store that keeps the laws. *)
Definition benchmark_spec s fuel draws : Prop :=
  wp store_only (let! b := client_tree in benchmark_queries key fuel b draws) s
     (λ b s', ∃ t, tree_at b s' t ∧ ∀ x, x ∈ draws → is_Some (lookup [] t (key x))) no_exn.

Lemma wp_benchmark_queries s fuel draws :
  st_inv s → (Z.of_nat (length draws) <= 2 ^ 13)%Z → S (length draws) ≤ fuel → benchmark_spec s fuel draws.
Proof.
  intros Hinv Hlen Hfuel. apply wp_bind, (wp_client_tree s (length draws)); [done..|].
  intros bet s1 [Hst _ Hdef]. apply wp_bind.
  eapply (wp_benchmark_updates fuel (length draws) draws 0 _ _ _ (λ _, False)); [done|lia|done|done|].
  intros bet' s' m' Hst' Hseen Hd'. apply wp_bind. eapply wp_mono; [eapply (wp_benchmark_query_loop fuel (length draws)); try done; auto| |done].
  intros [] s2 (_ & _ & _ & t & Hat & _ & Hl & _). apply wp_ret. exists t. split; [done|].
  intros x Hx. rewrite <- Hdef, <- Hd', Hl. apply Hseen. by right.
Qed.
End driver_proof.
