(* ===== verification/TreeProperties.v ===== *)
(** * What the methods of a node do

    The specifications of [split], [flush], [apply], [get_next_message] and of the
    scans, each for any tree the invariant describes. *)
From Stdlib Require Import ZArith Lia Ascii String.
From stdpp Require Import prelude gmap.
From S2P Require Import Prelude StdMap Message NodeStore BeTree Iterator MessageSem Tree NodeLemmas Serialize.
From S2P Require Import SplitProof SplitForest Grown FlushProof QueryProof Live Listing NextProof Dictionary.
From S2P Require Import IteratorProof Driver DriverProof.

#[local] Open Scope cpp_scope.

Section tree_properties.
Context {K V : Type} `{KeyOrder K} `{KeyNew K} `{ValueOps V} `{EqDecision V}.
Context {St : Type} `{StoreOps St (node K V)} `{!Store St (node K V)}.
Implicit Types (s : St) (t : tree K V) (k : K) (bet : betree V).


(** C10: [split] of a node that is over its size succeeds: the new nodes are fresh objects that
    hold the children and the messages of the old one in order, each message with a
    pivot to go to, each [child_size] the size of its node; the old node is left empty. *)
Theorem split_partitions bet s this ch es :
  st_inv s → 0 < st_pins s this → st_dirty s this →
  st_view s !! this = Some (MkNode (fpivots ch) es) →
  sorted ch → buf_ok (no_children ch) es → covered es ch → split_safe bet (length ch + length es) →
  wp store_only (split bet this) s
     (λ r s', ∃ F, r = fpivots F ∧ split_result s s' ch es F ∧ st_view s' !! this = Some empty_node ∧
                   evolves {[ this ]} s s') no_exn.
Proof.
  intros Hinv Hpin Hd Hthis Hch Hbuf Hcov Hsafe. eapply (wp_split store_only); try done; [by right|].
  intros s' F Hev He Hr. by exists F.
Qed.

(** C29: [apply] of a message that is the newest for its key has the effect of its opcode on that
    key and none on the others, keeps the buffer's shape (in a leaf one [INSERT] per key,
    elsewhere at most one message and then updates), and never meets an unknown opcode. *)
Theorem apply_runs_message n mk elt (dv : V) :
  buf_ok (is_leaf n) (elements n) → (0 < mk_timestamp mk <= UINT64_MAX)%Z → valid_op elt →
  (∀ e, e ∈ elements n → ekey e = mk_key mk → (ets e < mk_timestamp mk)%Z) →
  ∃ n', apply n mk elt dv = Some n' ∧ pivots n' = pivots n ∧ buf_ok (is_leaf n) (elements n') ∧
    (∀ k, k ≠ mk_key mk → msgs k (elements n') = msgs k (elements n)) ∧
    (∀ o, (is_leaf n = true → o = None) →
       run dv (msgs (mk_key mk) (elements n')) o = step dv (run dv (msgs (mk_key mk) (elements n)) o) elt).
Proof.
  intros Hb Hts Hop Hnew. destruct (apply_spec n mk elt dv Hb Hts Hop Hnew) as (n' & Ha & Hp & Hap).
  exists n'. split_and!; [done|done|apply Hap..].
Qed.

(** C30: [get_next_message] returns the least message after [mkey] over all nodes of the subtree and
    throws [out_of_range] exactly when there is none; the store only swaps. *)
Theorem get_next_is_least fuel t s mkey :
  st_inv s → rep (st_view s) t → 0 < st_pins s (tid t) → wf t → height t ≤ fuel →
  wp store_only (get_next_message fuel (tid t) mkey) s
     (λ e s', e ∈ entries t ∧ after mkey e = true ∧ st_view s' = st_view s ∧
              ∀ e', e' ∈ entries t → after mkey e' = true → e' = e ∨ klt e.1 e'.1 = true)
     (λ ex s', ex = out_of_range ∧ st_view s' = st_view s ∧ ∀ e, e ∈ entries t → after mkey e = false).
Proof.
  intros Hinv Hrep Hpin Hwf Hht. pose proof (next_after_is_next mkey (entries t) (keyed_entries t Hwf)) as Hn.
  eapply wp_mono; [by apply (answers_next store_only eq_refl)|..].
  - intros e s' (He & _ & Hv). rewrite He in Hn. destruct Hn as (? & ? & ?). by split_and!.
  - intros ex s' (-> & He & _ & Hv). rewrite He in Hn. by split_and!.
Qed.

(** The messages [dump_loop] still prints are those of the rest of the listing. *)
Lemma wp_dump_loop bet t fuel rounds : ∀ mkey L out s,
  keeps bet t False s → height t ≤ fuel → length L < rounds → suffix_of_listing t L →
  next_after mkey (entries t) = head L →
  wp store_only (dump_loop rounds fuel bet mkey out) s (λ l s', l = out ++ L ∧ tree_at bet s' t) no_exn.
Proof.
  induction rounds as [|rounds IH]; intros mkey L out s Hs Hfuel Hlen Hsuf Hnext; [lia|]. cbn [dump_loop].
  apply wp_catch_oor, wp_bind. apply (wp_root_next bet t False); [done..|]. intros s1 Hs1. rewrite Hnext.
  destruct L as [|e L]; cbn [head].
  - apply wp_ret. by rewrite app_nil_r; split; [|apply Hs1].
  - cbn in Hlen. eapply wp_mono; [apply (IH (Some e.1) L); try done; [lia|by eapply suffix_tail|by apply next_after_suffix_head]|..].
    + intros l s2 [-> ?]. by rewrite <- app_assoc.
    + by intros ? ? [].
Qed.

(** [dump_messages] prints every message of the tree once, in the order of keys and timestamps. *)
Theorem dump_lists_all bet t s rounds fuel :
  tree_at bet s t → height t ≤ fuel → length (entries t) < rounds →
  wp store_only (dump_messages rounds fuel bet) s
     (λ l s', sorted l ∧ (∀ e, e ∈ l ↔ e ∈ entries t) ∧ tree_at bet s' t) no_exn.
Proof.
  intros Hat Hfuel Hlen. assert (keyed (entries t)) as Hk by apply keyed_entries, Hat. pose proof (length_listing (entries t)).
  eapply wp_mono; [apply (wp_dump_loop bet t fuel rounds None (listing (entries t))); try done; [lia|by exists []|]| |done].
  - unfold next_after. by rewrite lfilter_all.
  - cbn. intros l s' [-> Hat']. split_and!; [apply sorted_listing|intros e; by apply elem_of_listing|done].
Qed.
End tree_properties.

Section scans.
Context {K : Type} `{KeyOrder K} `{KeyNew K}.
Context {St : Type} `{StoreOps St (node K text)} `{!Store St (node K text)}.
Implicit Types (s : St) (t : tree K text) (k : K) (bet : betree text).

(** C31: a scan from [lower_bound(k)] visits the keys from [k] on that have a value, each once, in order,
    with their values: [do_scan] against the sorted map of the tree's meaning passes. *)
Theorem lower_bound_scan bet t s k R rounds fuel :
  tree_at bet s t → height t ≤ fuel → length (entries t) ≤ rounds →
  sorted R → (∀ k, map_find R k = lookup (default_value bet) t k) →
  wp store_only (let! it := iterator_lower_bound rounds fuel bet k in
                 do_scan rounds fuel bet it (lower_bound R k).2) s (λ _ s', tree_at bet s' t) no_exn.
Proof.
  intros Hat Hfuel Hlen HR Hf. apply wp_bind. eapply (wp_iterator_from bet t False); [by split|done|done|].
  intros it s1 L Hs1 Hfound. rewrite (live_lower_bound bet t k R) in Hfound; [|apply Hat|done|done].
  eapply wp_mono; [by eapply (wp_do_scan bet t False)| |done]. intros [] s2 Hs2. apply Hs2.
Qed.
End scans.
