(* ===== verification/Concrete.v ===== *)
(** * A tree of 64-bit keys and strings in a swap space

    The template instance [betree<uint64_t, std::string>] on a swap space over an empty
    directory, which runs inside the logic. *)
From Stdlib Require Import ZArith Lia Ascii String.
From stdpp Require Import prelude gmap.
From S2P Require Import Prelude StdMap Message NodeStore BeTree Iterator MessageSem Tree SplitProof Grown FlushProof.
From S2P Require Import Listing Serialize BackingStore SwapSpace SwapSpaceProof NodeCodec Dictionary IteratorProof.
From S2P Require Import Driver DriverProof TreeProperties.

#[local] Open Scope cpp_scope.

#[global] Existing Instance uint64_serial.

Definition string_fits (v : text) : bool := is_uint64 (Z.of_nat (length v)).

#[global] Instance uint64_key_ok : SerialOk Z (λ k, is_uint64 k = true).
Proof. intros w k rest Hw Hk%is_uint64_ok. by apply uint64_serial_ok. Qed.
#[global] Instance string_value_ok : SerialOk text (λ v, string_fits v = true).
Proof. intros w v rest Hw Hv%is_uint64_ok. by apply string_serial_ok. Qed.

#[global] Instance cnode_codec : Codec (node Z text) := node_codec is_uint64 string_fits.
#[global] Instance cnode_codec_ok : CodecOk (node Z text).
Proof. apply node_codec_ok; apply _. Qed.

Notation store := (swap_space (node Z text)).

(** An empty cache of [n] objects over an empty directory. *)
Definition fresh_store (n : Z) : store := new_swap_space (new_backing_store (lit "tmpdir") ∅) n.

Lemma fresh_store_inv n : st_inv (fresh_store n).
Proof. apply new_swap_space_inv; [left; apply _|done]. Qed.

#[global] Instance uint64_new : KeyNew Z := 0%Z.
Definition number (t : text) : Z := Z.of_N (digits_value t).

(** ** A small run: the tree of [client_fiber_func] after one insertion *)
Definition no_tree : betree text := MkBetree 0 0 0 0%N 0 [].
Definition demo0 : betree text * store :=
  result (no_tree, fresh_store 4) (client_tree (K := Z) (fresh_store 4)).
Definition demo1 : betree text * store :=
  result demo0 (insert (K := Z) 2 demo0.1 5%Z (lit "five") demo0.2).
Definition demo1_tree : tree Z text := Tree 2%N [(MkMessageKey 5%Z 1, MkMessage INSERT (lit "five"))] [].

Lemma demo0_steady : steady (K := Z) 100 0 demo0.1 demo0.2 (λ _, None) ∧ default_value demo0.1 = [].
Proof.
  refine (wp_result store_only (client_tree (K := Z)) (fresh_store 4) (no_tree, fresh_store 4)
    (λ b s, steady (K := Z) 100 0 b s (λ _, None) ∧ default_value b = []) no_exn _ _); [by vm_compute|].
  refine (wp_new_betree (fresh_store 4) 100 TEST_MAX_NODE_SIZE TEST_MIN_FLUSH_SIZE DEFAULT_MIN_FLUSH_SIZE _ _ _ _);
    [apply fresh_store_inv|done..].
Qed.

Lemma leaf_tree_eq bet (s : store) t es :
  tree_at bet s t → ss_view s !! root bet = Some (MkNode [] es) → t = Tree (root bet) es [].
Proof.
  intros Hat Hr. pose proof (ta_rep _ _ _ Hat) as [Hn _]%rep_unfold. change (st_view s) with (ss_view s) in Hn.
  rewrite (ta_root _ _ _ Hat) in Hr |- *.
  assert (MkNode [] es = tnode t) as [= Hp ->] by (apply (inj Some); exact (eq_trans (eq_sym Hr) Hn)).
  destruct t as [i es' ch]. cbn in *. by destruct ch.
Qed.

Lemma demo1_steady : steady (K := Z) 100 1 demo1.1 demo1.2 (updated [] (λ _, None) INSERT 5%Z (lit "five")).
Proof.
  refine (wp_result store_only (insert (K := Z) 2 demo0.1 5%Z (lit "five")) demo0.2 demo0
    (λ b s, steady (K := Z) 100 1 b s (updated [] (λ _, None) INSERT 5%Z (lit "five"))) no_exn _ _); [by vm_compute|].
  eapply wp_steady_upsert; [apply demo0_steady|lia|lia|by left|]. intros bet' s' Hst _.
  rewrite (proj2 demo0_steady) in Hst. exact Hst.
Qed.

Lemma demo1_at : tree_at demo1.1 demo1.2 demo1_tree.
Proof.
  destruct demo1_steady as (_ & _ & _ & t & Hat & _). rewrite (leaf_tree_eq _ _ _ (tes demo1_tree) Hat) in Hat; [|by vm_compute].
  exact Hat.
Qed.
