(* ===== verification/Witnesses.v ===== *)
(** * The properties on a concrete tree

    Each property with hypotheses, applied to the tree and the swap space of
    [Concrete]. *)
From Stdlib Require Import ZArith Lia Ascii String.
From stdpp Require Import prelude gmap.
From S2P Require Import Prelude StdMap Message NodeStore BeTree Iterator MessageSem Tree SplitProof Grown FlushProof.
From S2P Require Import Listing Serialize BackingStore SwapSpace SwapSpaceProof NodeCodec Dictionary IteratorProof.
From S2P Require Import Driver DriverProof TreeProperties Concrete Transparency NodeTypes.

#[local] Open Scope cpp_scope.

(** The node of the tree, pinned for writing. *)
Definition demo_pinned : store := (result (tt, demo1.2) (st_enter 2%N true demo1.2)).2.

Lemma demo_pinned_holds : holds demo_pinned demo1_tree.
Proof.
  pose proof demo1_at as Hat. assert (st_pins demo1.2 2%N = 0) as Hp0 by (apply (ta_free _ _ _ Hat); by left).
  refine (wp_result store_only (st_enter 2%N true) demo1.2 (tt, demo1.2) (λ _ s, holds s demo1_tree) no_exn _ _);
    [by vm_compute|].
  eapply wp_mono; [apply (st_enter_spec store_only); [done|apply Hat|by vm_compute; eexists]| |done].
  intros [] s (Hi & Hv & Hp & _ & _ & Hd). split; [done|rewrite Hv; apply Hat|apply Hat| |by apply Hd|by intros ? ?%elem_of_nil].
  rewrite Hp, decide_True by done. lia.
Qed.

Definition demo_commands : list (Z * text) :=
  [(0%Z, lit "5"); (1%Z, lit "7"); (1%Z, lit "5"); (3%Z, lit "5"); (2%Z, lit "7"); (3%Z, lit "7"); (4%Z, lit "0");
   (5%Z, lit "5"); (6%Z, lit "5")].

Lemma test_passes_witness :
  wp store_only (let! b := client_tree in test number 9 10 b demo_commands) (fresh_store 4)
     (λ r s', sorted r.2 ∧ ∃ t, tree_at r.1 s' t ∧ ∀ k, lookup [] t k = map_find r.2 k) no_exn.
Proof.
  apply (test_passes number (fresh_store 4) 9 10 demo_commands); [apply fresh_store_inv|done| |cbn; lia|cbn; lia].
  repeat constructor; done.
Defined.

Lemma upsert_refines_witness :
  wp may_abort (upsert 2 demo1.1 UPDATE 5%Z (lit "!")) demo1.2
     (λ bet' s', represents 3 bet' s' (updated (default_value demo1.1) (updated [] (λ _, None) INSERT 5%Z (lit "five")) UPDATE 5%Z (lit "!")) ∧
                 next_timestamp bet' = (next_timestamp demo1.1 + 1)%Z) no_exn ∧
  wp store_only (upsert 2 demo1.1 UPDATE 5%Z (lit "!")) demo1.2
     (λ bet' s', steady 100 2 bet' s' (updated (default_value demo1.1) (updated [] (λ _, None) INSERT 5%Z (lit "five")) UPDATE 5%Z (lit "!"))) no_exn.
Proof.
  destruct (upsert_refines 2 2 demo1.1 demo1.2 (updated [] (λ _, None) INSERT 5%Z (lit "five")) UPDATE 5%Z (lit "!")) as [Hany Hroom];
    [eapply steady_represents, demo1_steady|lia|by vm_compute|by right; right|].
  split; [exact Hany|]. apply (Hroom 100 1); [exact demo1_steady|lia|lia].
Defined.

Lemma query_refines_witness :
  wp store_only (query 2 demo1.1 5%Z) demo1.2
     (λ v s', updated [] (λ _, None) INSERT 5%Z (lit "five") 5%Z = Some v ∧
              represents 2 demo1.1 s' (updated [] (λ _, None) INSERT 5%Z (lit "five")))
     (λ e s', e = out_of_range ∧ updated [] (λ _, None) INSERT 5%Z (lit "five") 5%Z = None ∧
              represents 2 demo1.1 s' (updated [] (λ _, None) INSERT 5%Z (lit "five"))).
Proof. apply (query_refines 2 2 demo1.1 demo1.2); [|lia]. eapply steady_represents, demo1_steady. Defined.



(** The pinned node filled up to be split by a tree with small nodes. *)
Definition tiny_bet : betree text := MkBetree 100 3 1 2%N 4 [].
Definition full_buffer : message_map Z text := map (λ i, (MkMessageKey i 1, MkMessage INSERT (lit "v"))) [1; 2; 3; 4]%Z.
Definition demo_full : store := (result (tt, demo_pinned) (st_update 2%N (MkNode [] full_buffer) demo_pinned)).2.

Lemma demo_full_state :
  st_inv demo_full ∧ 0 < st_pins demo_full 2%N ∧ st_dirty demo_full 2%N ∧ st_view demo_full !! 2%N = Some (MkNode [] full_buffer).
Proof.
  destruct demo_pinned_holds as [Hi _ _ Hp Hd _].
  refine (wp_result store_only (st_update 2%N (MkNode [] full_buffer)) demo_pinned (tt, demo_pinned)
    (λ _ s, st_inv s ∧ 0 < st_pins s 2%N ∧ st_dirty s 2%N ∧ st_view s !! 2%N = Some (MkNode [] full_buffer)) no_exn _ _);
    [by vm_compute|].
  eapply wp_mono; [by apply (st_update_spec store_only)| |done].
  intros [] s (Hi' & Hv' & Hp' & Hd'). split_and!; [done|by rewrite Hp'|by apply Hd'|by rewrite Hv', lookup_insert_eq].
Qed.

Lemma full_buffer_msgs k : msgs k full_buffer = [] ∨ msgs k full_buffer = [MkMessage INSERT (lit "v")].
Proof.
  destruct (decide (k ∈ [1; 2; 3; 4]%Z)) as [Hin|Hout].
  - right. revert k Hin. apply Forall_forall. by repeat constructor.
  - left. apply msgs_nil. intros e (i & -> & Hi)%list_elem_of_fmap <-. done.
Qed.

Lemma full_buffer_ok : buf_ok true full_buffer.
Proof.
  split; [by apply sortedb_sorted| | |].
  - intros e (i & -> & Hi)%list_elem_of_fmap. done.
  - intros k. destruct (full_buffer_msgs k) as [-> | ->]; [done|]. cbn. split_and!; [by left|constructor|done].
  - intros k _. by destruct (full_buffer_msgs k) as [-> | ->].
Qed.

Lemma tiny_split_safe : split_safe tiny_bet (length ([] : forest Z text) + length full_buffer).
Proof. by vm_compute. Qed.

Lemma split_partitions_witness :
  wp store_only (split tiny_bet 2%N) demo_full
     (λ r s', ∃ F, r = fpivots F ∧ split_result demo_full s' [] full_buffer F ∧
                   st_view s' !! 2%N = Some empty_node ∧ evolves {[ 2%N ]} demo_full s') no_exn.
Proof.
  destruct demo_full_state as (Hi & Hp & Hd & Hv).
  exact (split_partitions tiny_bet demo_full 2%N [] full_buffer Hi Hp Hd Hv sorted_nil full_buffer_ok
    (or_introl eq_refl) tiny_split_safe).
Defined.

Lemma apply_runs_message_witness :
  ∃ n', apply (tnode demo1_tree) (MkMessageKey 5%Z 2) (MkMessage UPDATE (lit "!")) [] = Some n' ∧
        pivots n' = [] ∧ buf_ok true (elements n') ∧
        (∀ k, k ≠ 5%Z → msgs k (elements n') = msgs k (tes demo1_tree)) ∧
        (∀ o, (true = true → o = None) →
           run [] (msgs 5%Z (elements n')) o = step [] (run [] (msgs 5%Z (tes demo1_tree)) o) (MkMessage UPDATE (lit "!"))).
Proof.
  apply (apply_runs_message (tnode demo1_tree) (MkMessageKey 5%Z 2) (MkMessage UPDATE (lit "!")) ([] : text)).
  - apply (wf_inv _ (ta_wf _ _ _ demo1_at)).
  - done.
  - by right; right.
  - intros e ->%list_elem_of_singleton _. done.
Defined.

Lemma get_next_is_least_witness :
  wp store_only (get_next_message 1 2%N (Some (range_start 3%Z))) demo_pinned
     (λ e s', e ∈ entries demo1_tree ∧ after (Some (range_start 3%Z)) e = true ∧ st_view s' = st_view demo_pinned ∧
              ∀ e', e' ∈ entries demo1_tree → after (Some (range_start 3%Z)) e' = true → e' = e ∨ klt e.1 e'.1 = true)
     (λ ex s', ex = out_of_range ∧ st_view s' = st_view demo_pinned ∧
               ∀ e, e ∈ entries demo1_tree → after (Some (range_start 3%Z)) e = false).
Proof.
  apply (get_next_is_least 1 demo1_tree demo_pinned); [apply demo_pinned_holds..|apply demo1_at|cbn; lia].
Defined.

Lemma dump_lists_all_witness :
  wp store_only (dump_messages 2 1 demo1.1) demo1.2
     (λ l s', sorted l ∧ (∀ e, e ∈ l ↔ e ∈ entries demo1_tree) ∧ tree_at demo1.1 s' demo1_tree) no_exn.
Proof. apply (dump_lists_all demo1.1 demo1_tree); [apply demo1_at|cbn; lia|cbn; lia]. Defined.

Lemma lower_bound_scan_witness :
  wp store_only (let! it := iterator_lower_bound 1 1 demo1.1 4%Z in
                 do_scan 1 1 demo1.1 it (lower_bound [(5%Z, lit "five")] 4%Z).2) demo1.2
     (λ _ s', tree_at demo1.1 s' demo1_tree) no_exn.
Proof.
  apply (lower_bound_scan demo1.1 demo1_tree); [apply demo1_at|cbn; lia|cbn; lia|by apply sortedb_sorted|].
  intros k. destruct (decide (k = 5%Z)) as [->|Hne]; [by vm_compute|]. unfold lookup.
  rewrite msgs_nil by (intros e ->%list_elem_of_singleton; exact (not_eq_sym Hne)).
  apply map_find_None; [by apply sortedb_sorted|]. by intros v [= ? _]%list_elem_of_singleton.
Defined.

(** ** The swap space *)

(** A tree over several nodes, in a cache of three. *)
Definition demo_many : betree text * store :=
  result (no_tree, fresh_store 3)
    ((let! b := new_betree (K := Z) 4 1 100 in
      let! b := insert 7 b 1%Z (lit "a") in let! b := insert 7 b 2%Z (lit "b") in
      let! b := insert 7 b 3%Z (lit "c") in let! b := insert 7 b 4%Z (lit "d") in
      let! b := insert 7 b 5%Z (lit "e") in insert 7 b 6%Z (lit "f")) (fresh_store 3)).

Definition unpinned (s : store) : bool := forallb (λ p, (o_pincount p.2 =? 0)%Z) (map_to_list (objects s)).

Lemma unpinned_pins s i : unpinned s = true → ss_pins s i = 0.
Proof.
  unfold unpinned, ss_pins. rewrite forallb_forall. intros Hall. destruct (objects s !! i) as [o|] eqn:Ho; [|done].
  apply elem_of_map_to_list in Ho. specialize (Hall (i, o) (proj1 (list_elem_of_In _ _) Ho)). cbn in Hall. lia.
Qed.

Lemma demo_many_at : ∃ t, tree_at demo_many.1 demo_many.2 t.
Proof.
  refine (wp_result store_only _ (fresh_store 3) (no_tree, fresh_store 3) (λ b s, ∃ t, tree_at b s t) no_exn _ _); [by vm_compute|].
  apply wp_bind. eapply wp_mono; [apply (wp_new_betree (K := Z) (fresh_store 3) 10); [apply fresh_store_inv|done..]| |done].
  intros b s [Hst _].
  do 5 (apply wp_bind; eapply wp_steady_upsert; [eassumption|lia|lia|by left|]; intros ? ? ? _).
  eapply wp_steady_upsert; [eassumption|lia|lia|by left|]. intros b6 s6 (_ & _ & _ & t & Hat & _) _. by exists t.
Qed.

Lemma demo_many_inv : ss_inv demo_many.2.
Proof. destruct demo_many_at as [t Hat]. apply Hat. Qed.

Lemma access_reads_content_witness :
  ∃ n, ss_view demo_many.2 !! 6%N = Some n ∧
    wp store_only (st_enter 6%N false ;; st_deref 6%N) demo_many.2
       (λ n' s', n' = n ∧ ss_view s' = ss_view demo_many.2 ∧ ss_inv s') no_exn.
Proof.
  exists (MkNode [] [(MkMessageKey 2%Z 2, MkMessage INSERT (lit "b"))]). split; [by vm_compute|].
  apply (access_reads_content demo_many.2 6%N); [apply demo_many_inv|by vm_compute].
Defined.

(** The second state has lost count: three objects in memory, two of them counted. *)
Lemma evict_all_persists_witness :
  uncounted demo1.2 = 0%Z ∧ uncounted demo_many.2 = 1%Z ∧
  wp store_only evict_all demo1.2 (λ _ s', ∀ i o, objects s' !! i = Some o → o_target o = None) no_exn ∧
  wp store_only evict_all demo_many.2 (λ _ s', length (lru_pqueue s') = 1) no_exn.
Proof.
  split; [by vm_compute|]. split; [by vm_compute|]. split.
  - eapply wp_mono; [apply (evict_all_persists demo1.2); [apply demo1_at|by vm_compute]| |done].
    intros [] s' (_ & _ & _ & _ & _ & H). apply H; [intros i; apply unpinned_pins; by vm_compute|by vm_compute].
  - eapply wp_mono; [apply (evict_all_persists demo_many.2); [apply demo_many_inv|by vm_compute]| |done].
    intros [] s' (_ & _ & _ & _ & H & _). apply Nat2Z.inj, H. intros i. apply unpinned_pins. by vm_compute.
Defined.

Lemma cache_within_limit_witness :
  wp store_only maybe_evict_something demo1.2 (λ _ s',
    (Z.of_nat (length (lru_pqueue s')) <= max_in_memory_objects demo1.2)%Z ∧ ss_view s' = ss_view demo1.2) no_exn.
Proof.
  eapply wp_mono; [apply (cache_within_limit demo1.2); [apply demo1_at|by vm_compute|by vm_compute]| |done].
  intros [] s' (Hv & _ & _ & _ & _ & H). split; [|done]. apply H; [intros i; apply unpinned_pins; by vm_compute|by vm_compute].
Defined.

Lemma victim_least_recent_witness :
  ∃ t i, find_unpinned (objects demo_many.2) (lru_pqueue demo_many.2) = Some (t, i) ∧
  ∃ o, objects demo_many.2 !! i = Some o ∧ o_pincount o = 0%Z ∧ in_memory o ∧
    ∀ j oj, objects demo_many.2 !! j = Some oj → in_memory oj → o_pincount oj = 0%Z → (o_last_access o <= o_last_access oj)%Z.
Proof.
  exists 26%Z, 8%N. split; [by vm_compute|]. apply (victim_least_recent demo_many.2 26 8 demo_many_inv). by vm_compute.
Defined.

Definition inner_node : node Z text :=
  MkNode [(0%Z, MkChildInfo 3%N 2); (7%Z, MkChildInfo 5%N 1)] [(MkMessageKey 7%Z 4, MkMessage UPDATE (lit "two words"))].
Lemma node_text_roundtrip_witness :
  ∃ w', ws w' ∧ deserialize_node (lit " " ++ serialize_node inner_node ++ lit "rest") = Some (inner_node, w' ++ lit "rest").
Proof. apply (node_text_roundtrip is_uint64 string_fits (lit " ") inner_node (lit "rest")); [by repeat constructor|by vm_compute]. Defined.

(** ** Where the count goes wrong *)

Definition demo_evicted : store := (result (tt, demo_many.2) (evict_all demo_many.2)).2.

(** Two leaves in a cache of one object: the first is only in the backing store. *)
Definition two_leaves : store :=
  (result (0%N, fresh_store 1) ((st_allocate (St := store) (MkNode [] [(MkMessageKey 1%Z 1, MkMessage INSERT (lit "a"))]) ;;
     st_allocate (St := store) (MkNode [] [(MkMessageKey 2%Z 2, MkMessage INSERT (lit "b"))])) (fresh_store 1))).2.

Lemma two_leaves_inv : ss_inv two_leaves.
Proof.
  refine (wp_result store_only (st_allocate (St := store) _ ;; st_allocate (St := store) _) (fresh_store 1) (0%N, fresh_store 1)
    (λ _ s, ss_inv s) no_exn _ _); [by vm_compute|]. apply wp_bind.
  eapply wp_mono; [apply (st_allocate_spec store_only); [done|apply fresh_store_inv]| |done]. intros i s (Hs & _).
  eapply wp_mono; [by apply (st_allocate_spec store_only)| |done]. by intros j s' (? & _).
Qed.

Lemma freed_leaf_miscounted_witness :
  wp store_only (st_release 2%N ;; evict_all) two_leaves (λ _ s',
    ss_view s' = delete 2%N (ss_view two_leaves) ∧ length (lru_pqueue s') = 1 ∧ ¬ counted s') no_exn.
Proof.
  assert (∃ o, objects two_leaves !! 2%N = Some o ∧ o_target o = None ∧ o_is_leaf o = true) as (o & Ho & Hn & Hl)
    by (vm_compute; eexists; split; [reflexivity|by split]).
  apply (freed_leaf_miscounted two_leaves 2%N o two_leaves_inv); [by vm_compute|intros i; apply unpinned_pins; by vm_compute|by vm_compute|done..].
Defined.

(** A run of insertions into a new tree over a cache of three objects ends with nothing pinned and
    every invariant of the swap space intact, but with fewer objects counted than are in
    memory: [depoint] of a leaf that is only in the backing store decrements the count as
    well.  [evict_all] then stops early and leaves a dirty object in memory that was
    never written back. *)
Lemma evict_all_leaves_dirty :
  ss_inv demo_many.2 ∧ (∀ i, ss_pins demo_many.2 i = 0) ∧ counted (fresh_store 3) ∧ ¬ counted demo_many.2 ∧
  is_ok (evict_all demo_many.2) = true ∧
  ∃ i o, objects demo_evicted !! i = Some o ∧ is_Some (o_target o) ∧ o_dirty o = true.
Proof.
  split_and!; [apply demo_many_inv|intros i; apply unpinned_pins; by vm_compute|by vm_compute|intros [Hc _]; vm_compute in Hc; discriminate Hc|by vm_compute|].
  exists 10%N. eexists. split; [vm_compute; reflexivity|]. split; [by eexists|done].
Qed.

(** ** Batches *)
Fixpoint insert_all (fuel : nat) (bet : betree text) (ks : list Z) : M store (betree text) :=
  match ks with
  | [] => ret bet
  | k :: ks' => let! bet := insert fuel bet k (lit "v") in insert_all fuel bet ks'
  end.
Definition small_tree (min_flush_size : Z) (ks : list Z) : M store (betree text) :=
  let! b := new_betree 6 6 min_flush_size in insert_all 20 b ks.

Definition dangling_keys : list Z := [56; 61; 9; 51; 84; 76; 13; 50; 52; 23; 2; 99; 16; 94; 31; 32; 86; 3; 10]%Z.

(** When nodes flush batches (here [min_flush_size] is 1, with nodes of 6 and a cache of 3), nineteen insertions into a new tree suffice for [flush] to use a dangling
    iterator: its loop has erased the pivot of [first_pivot_idx] in one round and stores the size of another child
    through it in a later one. *)
Lemma batch_flush_dangles :
  is_ok (small_tree 1 (take 18 dangling_keys) (fresh_store 3)) = true ∧
  small_tree 1 dangling_keys (fresh_store 3) = Halt undefined_behaviour.
Proof. split; by vm_compute. Qed.

(** What an application does with a tree: it inserts a key, or looks one up and copes with its absence. *)
Inductive use := put (k : Z) | look (k : Z).
Definition use_one (fuel : nat) (bet : betree text) (u : use) : M store (betree text) :=
  match u with
  | put k => insert fuel bet k (lit "v")
  | look k => catch_oor (query fuel bet k ;; ret bet) (ret bet)
  end.
Fixpoint use_all (fuel : nat) (bet : betree text) (us : list use) : M store (betree text) :=
  match us with
  | [] => ret bet
  | u :: us' => let! bet := use_one fuel bet u in use_all fuel bet us'
  end.
Definition used_tree (us : list use) : M store (betree text) := let! b := new_betree 7 7 1 in use_all 20 b us.

Definition keys_before : list Z :=
  [3; 4; 18; 17; 1; 2; 36; 7; 6; 25; 28; 26; 27; 30; 29; 31; 41; 40; 43; 42; 38; 39; 16; 32; 33; 34; 20; 21; 37]%Z.
Definition keys_after : list Z := [9; 8; 10; 11; 35; 5; 44; 15; 14; 12; 13; 19; 23; 24]%Z.

(** "There shouldn't be anything in our buffer for this child", [flush] asserts of a dirty child.  A lookup changes
    which nodes are evicted first, so that a node can be written back before its dirty child; when a batch then goes to
    the node, messages for the child stay in its buffer.  Forty-three insertions succeed; with one lookup among them the
    last one fails the assertion. *)
Lemma lookup_breaks_flush :
  is_ok (used_tree (map put (keys_before ++ keys_after)) (fresh_store 11)) = true ∧
  is_ok (used_tree (map put keys_before ++ [look 22] ++ map put (removelast keys_after)) (fresh_store 11)) = true ∧
  used_tree (map put keys_before ++ [look 22] ++ map put keys_after) (fresh_store 11) = Halt assert_failed.
Proof. split_and!; by vm_compute. Qed.

(** A node that passes its messages on to a dirty child does not look at its own size when the child is split: with nodes of 6, twenty insertions in
    order leave a node of 9. *)
Lemma nodes_outgrow_limit :
  let s := (result (no_tree, fresh_store 40) (small_tree 16384 (seqZ 0 20) (fresh_store 40))).2 in
  is_ok (small_tree 16384 (seqZ 0 20) (fresh_store 40)) = true ∧
  ∃ i o n, objects s !! i = Some o ∧ o_target o = Some n ∧ node_size n = 9%Z.
Proof.
  split; [by vm_compute|]. pose (s := (result (no_tree, fresh_store 40) (small_tree 16384 (seqZ 0 20) (fresh_store 40))).2).
  change (∃ i o n, objects s !! i = Some o ∧ o_target o = Some n ∧ node_size n = 9%Z).
  assert (existsb (λ p : N * object (node Z text), from_option (λ n, (node_size n =? 9)%Z) false (o_target p.2)) (map_to_list (objects s)) = true) as Hex
    by (by vm_compute).
  apply List.existsb_exists in Hex as ([i o] & Hin%list_elem_of_In%elem_of_map_to_list & Ho). cbn in Ho.
  destruct (o_target o) as [n|] eqn:Hn; [|done]. exists i, o, n. split_and!; [done..|]. by apply Z.eqb_eq.
Qed.

(** Nodes of four in a cache of three, and nodes of 64 in a cache of a hundred. *)
Definition small_demo : betree text * store := result (no_tree, fresh_store 3) (new_betree (K := Z) 4 1 100 (fresh_store 3)).
Definition large_demo : betree text * store := result (no_tree, fresh_store 100) (new_betree (K := Z) 64 16 100 (fresh_store 100)).
Definition demo_operations : list (operation Z text) :=
  [inserts 1%Z (lit "a"); inserts 2%Z (lit "b"); inserts 3%Z (lit "c"); inserts 4%Z (lit "d"); updates 2%Z (lit "x");
   inserts 5%Z (lit "e"); erases 3%Z; inserts 6%Z (lit "f"); queries 2%Z; queries 3%Z; updates 3%Z (lit "y"); queries 3%Z].

Lemma new_demo_represents cache maxnodesize minnodesize :
  (3 <= maxnodesize < 2 ^ 59)%Z → is_ok (new_betree (K := Z) maxnodesize minnodesize 100 (fresh_store cache)) = true →
  let r := result (no_tree, fresh_store cache) (new_betree (K := Z) maxnodesize minnodesize 100 (fresh_store cache)) in
  steady (K := Z) 50 0 r.1 r.2 (λ _, None) ∧ represents (K := Z) 1 r.1 r.2 (λ _, None) ∧ default_value r.1 = [] ∧ (next_timestamp r.1 <= 1)%Z.
Proof.
  intros Hmax Hok r.
  refine (wp_result store_only (new_betree (K := Z) maxnodesize minnodesize 100) (fresh_store cache) (no_tree, fresh_store cache)
    (λ b s, steady (K := Z) 50 0 b s (λ _, None) ∧ represents (K := Z) 1 b s (λ _, None) ∧ default_value b = [] ∧ (next_timestamp b <= 1)%Z) no_exn _ _); [exact Hok|].
  eapply wp_mono; [apply (wp_new_betree (K := Z) (fresh_store cache) 50); [apply fresh_store_inv|done|lia|lia]| |done].
  intros b s [Hst Hd]. split; [done|]. split; [by apply (steady_represents 50 0)|]. split; [done|]. destruct Hst as (_ & _ & Hts & _). lia.
Qed.

Lemma tuning_invisible_witness :
  (result ((no_tree, []), fresh_store 3) (perform_all 20 small_demo.1 demo_operations small_demo.2)).1.2 = [Some (lit "bx"); None; Some (lit "y")] ∧
  wp store_only (perform_all 60 small_demo.1 demo_operations) small_demo.2 (λ r1 _,
    wp store_only (perform_all 60 large_demo.1 demo_operations) large_demo.2 (λ r2 _, r1.2 = r2.2) no_exn) no_exn.
Proof.
  split; [by vm_compute|].
  destruct (new_demo_represents 3 4 1) as (Hs1 & Hr1 & Hd1 & Ht1); [lia|by vm_compute|].
  destruct (new_demo_represents 100 64 16) as (Hs2 & Hr2 & Hd2 & Ht2); [lia|by vm_compute|].
  refine (proj2 (tuning_invisible 60 1 small_demo.1 small_demo.2 large_demo.1 large_demo.2 (λ _, None) demo_operations Hr1 Hr2 _ _ _ _) 50 0 50 0 Hs1 Hs2 _ _ _ _);
    [| | | |cbn; lia|cbn; lia|lia|lia].
  - exact (eq_trans Hd1 (eq_sym Hd2)).
  - cbn. lia.
  - fold small_demo in Ht1. cbn [length demo_operations]. unfold UINT64_MAX. lia.
  - fold large_demo in Ht2. cbn [length demo_operations]. unfold UINT64_MAX. lia.
Defined.

#[global] Instance uint64_typed : SerialTyped Z is_uint64.
Proof. intros s z rest. apply read_uint64_typed. Qed.

