(* ===== verification/MergeWitness.v ===== *)
(** * Merging on concrete nodes

    [merge] of the children of a tree of several nodes, and the run of [merge_small_children] that overfills a node. *)
From Stdlib Require Import ZArith Lia Ascii String.
From stdpp Require Import prelude gmap.
From S2P Require Import Prelude StdMap Message NodeStore BeTree MessageSem Tree Merge MergeProof.
From S2P Require Import Serialize BackingStore SwapSpace SwapSpaceProof NodeCodec Dictionary Driver Concrete Witnesses.

#[local] Open Scope cpp_scope.

Lemma merge_keeps_messages_witness : ∃ t : tree Z text,
  ss_view demo_many.2 !! root demo_many.1 = Some (tnode t) ∧ length (tch t) = 4 ∧
  wp store_only (merge (fpivots (tch t))) demo_many.2 (λ i s',
    ss_view demo_many.2 !! i = None ∧ ss_view s' = <[i := tnode (merged i (tch t))]> (ss_view demo_many.2) ∧
    ∀ d k, Tree.lookup d (merged i (tch t)) k = run d (msgs k (fentries (tch t))) None) no_exn.
Proof.
  destruct demo_many_at as [t Hat]. exists t. pose proof (ta_rep _ _ _ Hat) as [Hroot Hrep]%rep_unfold.
  change (st_view demo_many.2) with (ss_view demo_many.2) in Hroot.
  destruct (wf_inv _ (ta_wf _ _ _ Hat)) as (_ & Hok & _ & _ & Hwf). rewrite <- (ta_root _ _ _ Hat) in Hroot.
  split; [exact Hroot|]. split.
  - assert ((λ n, length (pivots n)) <$> ss_view demo_many.2 !! root demo_many.1 = Some 4) as Hlen by (by vm_compute).
    unfold node_pointer in Hlen. rewrite Hroot in Hlen. apply (inj Some) in Hlen. unfold tnode, fpivots in Hlen. cbn [pivots] in Hlen. by rewrite length_fmap in Hlen.
  - exact (merge_keeps_messages demo_many.2 (tch t) (ta_inv _ _ _ Hat) Hrep Hok Hwf).
Defined.

(** Three leaves, of one, nine and nine messages, below a node of a tree whose nodes hold ten. *)
Definition leaf_with (first count : nat) : node Z text :=
  MkNode [] ((λ k : nat, (MkMessageKey (Z.of_nat k) (Z.of_nat k), MkMessage INSERT (lit "v"))) <$> seq first count).
Definition small_tree : betree text := MkBetree 2 10 2 0%N 30 [].
Definition overfilling : M store (list (Z * Z)) :=
  let! a := st_allocate (St := store) (leaf_with 1 1) in
  let! b := st_allocate (St := store) (leaf_with 2 9) in
  let! c := st_allocate (St := store) (leaf_with 11 9) in
  let! p := st_allocate (St := store) (MkNode [(1%Z, MkChildInfo a 1); (2%Z, MkChildInfo b 9); (11%Z, MkChildInfo c 9)] []) in
  st_enter (St := store) (node := node Z text) p true ;;
  merge_small_children (K := Z) (St := store) small_tree p ;;
  let! n := st_deref (St := store) (node := node Z text) p in
  ret ((λ p, (p.1, child_size p.2)) <$> pivots n).

(** The sizes of the second and third child are not looked at: all three become one node of nineteen messages, almost
    twice [max_node_size]. *)
Lemma merge_overfills : (result ([], fresh_store 8) (overfilling (fresh_store 8))).1 = [(1%Z, 19%Z)] ∧ max_node_size small_tree = 10%Z.
Proof. by vm_compute. Qed.
