(* ===== verification/Lifetime.v ===== *)
(** * The lifetime of nodes

    What programs over pointers do to the objects of a swap space, and what the end of a [betree] does to the nodes
    of its tree: its only member with a destructor is the root pointer. *)
From Stdlib Require Import ZArith Lia Ascii String.
From stdpp Require Import gmultiset prelude gmap list.
From S2P Require Import Prelude StdMap Message NodeStore BeTree MessageSem Tree Serialize BackingStore SwapSpace SwapSpaceProof.
From S2P Require Import Pointers PointersProof NodeCodec Dictionary Driver Concrete Witnesses.

#[local] Open Scope cpp_scope.

(** ** The subtrees of a tree *)
Section subtrees.
Context {K V : Type}.
Implicit Types (t u : tree K V) (ch : forest K V).

Fixpoint subtrees t : list (tree K V) :=
  match t with
  | Tree _ _ ch => t :: flat_map (λ x : K * (Z * tree K V), subtrees x.2.2) ch
  end.

Lemma nodes_subtrees t : nodes t = (λ u, (tid u, tnode u)) <$> subtrees t.
Proof.
  induction t as [i es ch IH] using tree_ind'. cbn. f_equal. induction ch as [|x ch IHch]; [done|]. cbn.
  rewrite fmap_app, IH by (by left). f_equal. apply IHch. intros y Hy. apply IH. by right.
Qed.

Lemma subtrees_self t : t ∈ subtrees t.
Proof. destruct t. by left. Qed.

Lemma subtrees_child t u x : u ∈ subtrees t → x ∈ tch u → x.2.2 ∈ subtrees t.
Proof.
  revert u. induction t as [i es ch IH] using tree_ind'. cbn. intros u [->|Hu]%elem_of_cons Hx; right; apply elem_of_flat_map.
  - exists x. split; [done|apply subtrees_self].
  - apply elem_of_flat_map in Hu as (y & Hy & Hu). exists y. split; [done|]. by eapply IH.
Qed.

Lemma height_child u x : x ∈ tch u → height x.2.2 < height u.
Proof.
  destruct u as [i es ch]. cbn. induction ch as [|y ch IH]; [by intros ?%elem_of_nil|].
  intros [->|Hx]%elem_of_cons; cbn; [lia|]. specialize (IH Hx). lia.
Qed.

(** The pointers of the nodes lead to every node but the root, once each. *)
Lemma links_nodes t : flat_map links (nodes t).*2 ≡ₚ fids (tch t).
Proof.
  induction t as [i es ch IH] using tree_ind'. cbn [tch nodes]. rewrite fmap_cons. cbn [flat_map]. unfold fids, fnodes.
  change (links _) with ((λ p, child p.2) <$> fpivots ch). induction ch as [|x ch IHch]; [done|]. cbn.
  rewrite !fmap_app, flat_map_app, IH by (by left). rewrite <- IHch by (intros y Hy; apply IH; by right).
  destruct x as [k [sz u]]. cbn. rewrite (nodes_unfold u). cbn. constructor. unfold fids. solve_Permutation.
Qed.
End subtrees.

(** ** The swap space that holds exactly a tree *)
Section lifetime.
Context {K V : Type} `{CodecOk (node K V)}.
Implicit Types (t : tree K V) (s : swap_space (node K V)).

(** The objects are the nodes of the tree. *)
Record exactly s t : Prop := {
  ex_inv : ss_inv s;
  ex_rep : rep (ss_view s) t;
  ex_nodup : NoDup (ids t);
  ex_all i : is_Some (objects s !! i) → i ∈ ids t;
}.

Lemma all_links_list (l : list (N * node K V)) : NoDup l.*1 → all_links (list_to_map l) = list_to_set_disj (flat_map links l.*2).
Proof.
  induction l as [|[i n] l IH]; [done|]. rewrite fmap_cons. intros Hnd.
  pose proof (NoDup_cons_1_1 _ _ Hnd) as Hi. pose proof (NoDup_cons_1_2 _ _ Hnd) as Hl. cbn. rewrite (all_links_delete _ i n) by apply lookup_insert_eq.
  rewrite delete_insert_id by (by apply not_elem_of_list_to_map). by rewrite IH, list_to_set_disj_app.
Qed.

Lemma multiplicity_nodup (l : list N) i : NoDup l → i ∈ l → multiplicity i (list_to_set_disj l) = 1.
Proof.
  intros Hl [l1 [l2 ->]]%list_elem_of_split. rewrite list_to_set_disj_app, list_to_set_disj_cons, !multiplicity_disj_union.
  rewrite multiplicity_singleton, decide_True by done. apply NoDup_app in Hl as (_ & Hl1 & Hl2%NoDup_cons_1_1).
  assert (∀ l' : list N, i ∉ l' → multiplicity i (list_to_set_disj l') = 0) as Hz.
  { intros l' Hi. rewrite <- elem_of_list_to_set_disj, elem_of_multiplicity in Hi. lia. }
  rewrite !Hz; [done|done|]. intros Hi. by apply (Hl1 i Hi), list_elem_of_here.
Qed.

Lemma exactly_view s t : exactly s t → ss_view s = list_to_map (nodes t).
Proof.
  intros [Hinv Hrep Hnd Hall]. apply map_eq. intros i. destruct (list_to_map (nodes t) !! i) as [n|] eqn:Hi.
  - apply Hrep. by apply elem_of_list_to_map_2.
  - apply not_elem_of_list_to_map in Hi. rewrite view_lookup. destruct (objects s !! i) eqn:Ho; [|done].
    destruct Hi. apply Hall. eauto.
Qed.

Lemma exactly_counts s t : exactly s t → gc_inv {[+ tid t +]} s.
Proof.
  intros Hex. pose proof Hex as [Hinv Hrep Hnd Hall].
  assert (references {[+ tid t +]} s = list_to_set_disj (ids t)) as Href.
  { unfold references. rewrite (exactly_view _ _ Hex), all_links_list by done. rewrite (list_to_set_disj_perm _ _ (links_nodes t)).
    by rewrite ids_unfold, list_to_set_disj_cons. }
  assert (∀ i, i ∈ ids t → is_Some (objects s !! i)) as Hsome.
  { intros i ([j n] & -> & Hn)%list_elem_of_fmap. apply Hrep in Hn. rewrite view_lookup in Hn. cbn. by destruct (objects s !! j). }
  split; rewrite Href.
  - eapply inv_recount; [exact Hinv|]. intros i Hi. cbv beta. by rewrite (multiplicity_nodup (ids t)) by auto.
  - intros i Hi. by apply elem_of_list_to_set_disj, Hall.
  - intros i Hi _. by apply Hsome, elem_of_list_to_set_disj.
Qed.

Lemma exactly_acyclic s t : exactly s t → acyclic (ss_view s).
Proof.
  intros Hex. rewrite (exactly_view _ _ Hex). pose proof (ex_nodup _ _ Hex) as Hnd. unfold ids in Hnd. rewrite nodes_subtrees in *.
  set (table := (λ u, (tid u, height u)) <$> subtrees t).
  assert (∀ u, u ∈ subtrees t → (list_to_map table : gmap N nat) !! tid u = Some (height u)) as Hrank.
  { intros u Hu. apply elem_of_list_to_map_1.
    - replace table.*1 with ((λ u, (tid u, tnode u)) <$> subtrees t).*1; [done|]. subst table.
      clear. induction (subtrees t) as [|u us IH]; [done|]. cbn. by f_equal.
    - apply list_elem_of_fmap. by exists u. }
  exists (λ i, default 0 ((list_to_map table : gmap N nat) !! i)). intros i n j Hi Hj. apply elem_of_list_to_map_2, list_elem_of_fmap in Hi.
  destruct Hi as (u & [= -> ->] & Hu). unfold links, node_links, tnode, fpivots in Hj. cbn in Hj.
  apply list_elem_of_fmap in Hj as (p & -> & (x & -> & Hx)%list_elem_of_fmap). cbn.
  rewrite !Hrank; [by apply height_child|done|by eapply subtrees_child].
Qed.

Lemma wp_tree_freed s t :
  exactly s t → wp store_only (pointer_depoint (MkPointer true (tid t))) s (λ p s', p = MkPointer true 0 ∧ objects s' = ∅) no_exn.
Proof.
  intros Hex. eapply wp_mono; [apply (wp_pointer_depoint ∅)| |done].
  - rewrite (right_id_L ∅ (⊎)). by apply exactly_counts.
  - intros p s' [-> Hco]. split; [done|]. apply unreferenced_empty; [apply Hco|].
    eapply acyclic_subseteq; [apply Hco|by eapply exactly_acyclic].
Qed.
End lifetime.

(** C13: the count of an object is the number of pointers to it.  Whatever copies, assignments and destructions a
    program does with the pointers it holds, starting from right counts: nothing fails but the counter of references,
    the counts stay right, so that each object that is pointed to is there and each that is there is pointed to, and
    no object changes.  When the program has no pointer left, nothing is left in the swap space, unless objects
    point to each other in a circle. *)
Theorem pointers_collect {K V} `{CodecOk (node K V)} (s : swap_space (node K V)) vars ops :
  gc_inv (held_by vars) s → acyclic (ss_view s) →
  wp store_only (pointer_steps vars ops) s (λ vars' s',
    gc_inv (held_by vars') s' ∧ ss_view s' ⊆ ss_view s ∧ (Forall (λ p, p_target p = 0%N) vars' → objects s' = ∅)) no_exn.
Proof.
  intros Hs Hac. eapply wp_mono; [by apply wp_pointer_steps| |done]. intros vars' s' [Hs' Hv]. split_and!; [done|done|].
  intros Hnull. apply unreferenced_empty; [by eapply held_by_null|by eapply acyclic_subseteq].
Qed.

(** C14: a [betree] that goes out of scope destroys its root pointer.  When the objects of the swap space are the nodes of
    the tree, all of them are freed, those that are on disk included. *)
Theorem tree_freed {K V} `{CodecOk (node K V)} (bet : betree V) (s : swap_space (node K V)) (t : tree K V) :
  root bet = tid t → exactly s t →
  wp store_only (pointer_depoint (MkPointer true (root bet))) s (λ p s', p_target p = 0%N ∧ objects s' = ∅) no_exn.
Proof. intros -> Hex. eapply wp_mono; [by apply wp_tree_freed| |done]. by intros p s' [-> ->]. Qed.

(** ** A tree of several nodes *)
Fixpoint tree_of (fuel : nat) (h : gmap N (node Z text)) (i : N) : option (tree Z text) :=
  match fuel, h !! i with
  | S fuel', Some n => Tree i (elements n) <$> mapM (λ p, (λ u, (p.1, (child_size p.2, u))) <$> tree_of fuel' h (child p.2)) (pivots n)
  | _, _ => None
  end.

Definition many_tree : tree Z text := default (Tree 0 [] []) (tree_of 5 (ss_view demo_many.2) (root demo_many.1)).

#[local] Instance message_key_eq_dec : EqDecision (MessageKey Z).
Proof. solve_decision. Defined.
#[local] Instance message_eq_dec : EqDecision (Message text).
Proof. solve_decision. Defined.
#[local] Instance child_info_eq_dec : EqDecision child_info.
Proof. solve_decision. Defined.
#[local] Instance node_eq_dec : EqDecision (node Z text).
Proof. solve_decision. Defined.

Definition exactlyb (s : store) (t : tree Z text) : bool :=
  forallb (λ p, bool_decide (ss_view s !! p.1 = Some p.2)) (nodes t) && bool_decide (NoDup (ids t)) &&
  forallb (λ p, bool_decide (p.1 ∈ ids t)) (map_to_list (objects s)).

Lemma exactlyb_ok s t : ss_inv s → exactlyb s t = true → exactly s t.
Proof.
  unfold exactlyb. rewrite !andb_true_iff, !forallb_forall, bool_decide_eq_true. intros Hs [[Hrep Hnd] Hall]. split; [done| |done|].
  - intros i n Hn%list_elem_of_In%Hrep. by apply bool_decide_eq_true in Hn.
  - intros i [o Ho]. apply elem_of_map_to_list, list_elem_of_In, Hall in Ho. by apply bool_decide_eq_true in Ho.
Qed.

Lemma many_tree_exactly : exactly demo_many.2 many_tree.
Proof. apply exactlyb_ok; [apply demo_many_inv|by vm_compute]. Qed.

Lemma tree_freed_witness :
  length (nodes many_tree) = 5 ∧
  wp store_only (pointer_depoint (MkPointer true (root demo_many.1))) demo_many.2 (λ p s', p_target p = 0%N ∧ objects s' = ∅) no_exn.
Proof. split; [by vm_compute|]. apply (tree_freed demo_many.1 demo_many.2 many_tree); [by vm_compute|apply many_tree_exactly]. Defined.

(** The root is copied twice, one copy is assigned to another, and all are destroyed. *)
Definition demo_pointer_ops : list pointer_op := [copies 0; copies 1; assigns 0 2; destroys 1; assigns 0 0; destroys 0; destroys 0].

Lemma pointers_collect_witness :
  (result ([], demo_many.2) (pointer_steps [MkPointer true (root demo_many.1)] demo_pointer_ops demo_many.2)).1 = [] ∧
  wp store_only (pointer_steps [MkPointer true (root demo_many.1)] demo_pointer_ops) demo_many.2 (λ vars' s',
    gc_inv (held_by vars') s' ∧ ss_view s' ⊆ ss_view demo_many.2 ∧ (Forall (λ p, p_target p = 0%N) vars' → objects s' = ∅)) no_exn.
Proof.
  split; [by vm_compute|]. pose proof many_tree_exactly as Hex. apply (pointers_collect demo_many.2 [MkPointer true (root demo_many.1)]).
  - unfold held_by. cbn [fmap list_fmap p_target]. rewrite list_to_set_disj_cons, list_to_set_disj_nil, (right_id_L ∅ (⊎)).
    assert (root demo_many.1 = tid many_tree) as -> by by vm_compute. by apply exactly_counts.
  - by eapply exactly_acyclic.
Defined.

(** A pin that is copied is counted once and given back twice: the count of pins wraps around, and the object is
    never evicted again. *)
Lemma copied_pin_wraps :
  let s' := (result (tt, demo_many.2)
    ((let! p := get_pin (MkPointer true (root demo_many.1)) in let! q := pin_copy p in pin_unpin p ;; pin_unpin q ;; ret tt) demo_many.2)).2 in
  o_pincount <$> objects s' !! root demo_many.1 = Some UINT64_MAX.
Proof. by vm_compute. Qed.
