(* ===== verification/Log.v ===== *)
(** * The logging library (debug/message.{hpp,cpp})

    Messages with their prefix, position and time stamp; the buffers that are freed after
    the message that prints them; the patterns of the environment variable [DEBUG]; the hex dump and the
    abbreviated blob.  What the system answers (the terminal, the clock, the environment, [fnmatch],
    [malloc]) is an argument. *)
From Stdlib Require Import ZArith Lia Ascii String.
From stdpp Require Import prelude gmap.
From S2P Require Import Prelude StdMap Serialize FKey Config.

#[local] Open Scope cpp_scope.
#[local] Open Scope Z_scope.

(** ** printf *)
Definition esc : ascii := ascii_of_N 27.


(** [%0<w>d] *)
Definition fmt_0d (w : nat) (z : Z) : text :=
  if z <? 0 then lit "-" ++ repeat "0"%char (w - 1 - length (print_Z (- z))) ++ print_Z (- z)
  else repeat "0"%char (w - length (print_Z z)) ++ print_Z z.
(** [%-<w>s] *)
Definition fmt_left (w : nat) (s : text) : text := s ++ repeat " "%char (w - length s).

Definition hex_char (d : Z) : ascii := ascii_of_N (Z.to_N (if d <? 10 then 48 + d else 87 + d)).
(** The last [w] hexadecimal digits; all of them for a value below [16 ^ w], as in [%02x] of a byte
    and in [%08x] of an [int]. *)
Fixpoint hex (w : nat) (z : Z) : text :=
  match w with
  | O => []
  | S w' => hex w' (z / 16) ++ [hex_char (z mod 16)]
  end.

(** [isprint] in the C locale; glibc gives the same answer for a byte passed as a negative [char]. *)
Definition isprint (c : ascii) : bool := let n := N_of_ascii c in (32 <=? n)%N && (n <=? 126)%N.
Definition shown (c : ascii) : ascii := if isprint c then c else "."%char.

(** What follows the last occurrence of a character ([strrchr] and one further). *)
Fixpoint after_last (c : ascii) (s : text) : option text :=
  match s with
  | [] => None
  | x :: s' =>
      match after_last c s' with
      | Some r => Some r
      | None => if Ascii.eqb x c then Some s' else None
      end
  end.

(** ** Messages *)
Definition MSG_PANIC : Z := 0.
Definition MSG_WARNING : Z := 1.
Definition MSG_NOTICE : Z := 2.
Definition MSG_DEBUG : Z := 3.
Definition MSG_NUM_TYPES : Z := 4.
Definition MSG_PERROR : Z := 2 ^ 16.

Definition descs : list (text * option text) :=
  [(lit "PANIC", Some (lit "1;31")); (lit "!", Some (lit "1;33")); (lit "*", None); (lit " ", Some (lit "22;37"));
   (lit "<Invalid message type>", None)].

Record tm := MkTm { tm_year : Z; tm_mon : Z; tm_mday : Z; tm_hour : Z; tm_min : Z; tm_sec : Z }.

(** What the system answers while a message is written. *)
Record system := MkSystem {
  isatty : bool;
  now : option (tm * Z);       (* local time and microseconds; [None]: gettimeofday failed *)
  getpid : Z;
  strerror : text;
}.

Definition time_stamp (sys : system) : text :=
  match now sys with
  | None => []
  | Some (t, usec) =>
      fmt_0d 4 (1900 + tm_year t) ++ fmt_0d 2 (tm_mon t) ++ fmt_0d 2 (tm_mday t) ++ lit "-" ++
      fmt_0d 2 (tm_hour t) ++ fmt_0d 2 (tm_min t) ++ fmt_0d 2 (tm_sec t) ++ lit "-" ++
      fmt_0d 4 (usec / 100) ++ lit " " ++ fmt_0d 5 (getpid sys) ++ lit " "
  end.

(** [filepos] has 32 characters with its terminator. *)
Definition file_position (fname : text) (line : Z) (func : text) : text :=
  let fbasename := match after_last "/" fname with Some b => b | None => fname end in
  let filepos := take 31 (lit "(" ++ fbasename ++ lit ":" ++ print_Z line ++ lit "):") in
  fmt_left 15 func ++ lit " " ++ fmt_left 19 filepos ++ lit " ".

(** What [_Message_VA] writes; [body] is the text that [vfprintf] makes of the format and its arguments. *)
Definition message_text (color : bool) (sys : system) (type : Z) (pos : option (text * Z * text)) (body : text)
    : option text :=
  let nDesc := Z.land type (Z.lnot MSG_PERROR) in
  let nDesc := if MSG_NUM_TYPES <? nDesc then MSG_NUM_TYPES else nDesc in
  '(prefix, desc_color) ← (if 0 <=? nDesc then descs !! Z.to_nat nDesc else None);
  let colored := match desc_color with Some c => if color then Some c else None | None => None end in
  Some (match colored with Some c => [esc] ++ lit "[" ++ c ++ lit "m" | None => [] end ++
        time_stamp sys ++ prefix ++ lit " " ++
        match pos with Some (fname, line, func) => file_position fname line func | None => [] end ++
        body ++
        (if Z.land type MSG_PERROR =? 0 then [] else lit ": " ++ strerror sys) ++
        match colored with Some _ => [esc] ++ lit "[0m" | None => [] end ++ endl).

(** The static variables, the log and the allocated blobs. *)
Record logger := MkLogger {
  haveColor : Z;
  log : list text;             (* one entry per message *)
  deferredFrees : list nat;    (* the first [nDeferredFrees] entries *)
  blobs : gset nat;
}.

Definition MAX_DEFERRED_FREES : nat := 16.

Definition _Message_VA (sys : system) (type : Z) (pos : option (text * Z * text)) (body : text) : M logger unit := λ l,
  let color := if haveColor l =? -1 then (if isatty sys then 1 else 0) else haveColor l in
  match message_text (negb (color =? 0)) sys type pos body with
  | Some s => Ok tt (MkLogger color (log l ++ [s]) (deferredFrees l) (blobs l))
  | None => Halt undefined_behaviour
  end.

(** [free]: of a block that is allocated. *)
Fixpoint free_all (ps : list nat) (heap : gset nat) : option (gset nat) :=
  match ps with
  | [] => Some heap
  | p :: ps' => if decide (p ∈ heap) then free_all ps' (heap ∖ {[p]}) else None
  end.
Definition Message_DoFrees : M logger unit := λ l,
  match free_all (deferredFrees l) (blobs l) with
  | Some heap => Ok tt (MkLogger (haveColor l) (log l) [] heap)
  | None => Halt undefined_behaviour
  end.

(** A weak symbol: the definition of the library, to [stderr]. *)
Definition Message_VA (sys : system) (type : Z) (pos : option (text * Z * text)) (body : text) : M logger unit :=
  _Message_VA sys type pos body.

Definition _Message (sys : system) (type : Z) (pos : option (text * Z * text)) (body : text) : M logger unit :=
  Message_VA sys type pos body ;;
  Message_DoFrees.

(** The macros; [pos] is [__FILE__], [__LINE__] and [__func__].  [_Panic] prints the backtrace [bt] and aborts. *)
Definition MessageFlags (sys : system) (flags : Z) (pos : text * Z * text) (body : text) : M logger unit := _Message sys flags (Some pos) body.
Definition Warning (sys : system) (pos : text * Z * text) (body : text) : M logger unit := MessageFlags sys MSG_WARNING pos body.
Definition Notice (sys : system) (pos : text * Z * text) (body : text) : M logger unit := MessageFlags sys MSG_NOTICE pos body.
Definition QNotice (sys : system) (body : text) : M logger unit := _Message sys MSG_NOTICE None body.
Definition PWarning (sys : system) (pos : text * Z * text) (body : text) : M logger unit :=
  MessageFlags sys (Z.lor MSG_WARNING MSG_PERROR) pos body.
Definition PNotice (sys : system) (pos : text * Z * text) (body : text) : M logger unit :=
  MessageFlags sys (Z.lor MSG_NOTICE MSG_PERROR) pos body.
Fixpoint warnings (sys : system) (pos : text * Z * text) (bt : list text) : M logger unit :=
  match bt with
  | [] => ret tt
  | s :: bt' => Warning sys pos s ;; warnings sys pos bt'
  end.
Definition panic_position : text * Z * text := (lit "debug/message.cpp", 173, lit "_Panic").
Definition _Panic (sys : system) (bt : list text) {A} : M logger A :=
  warnings sys panic_position bt ;;
  halt assert_failed.
Definition PanicFlags (sys : system) (bt : list text) (flags : Z) (pos : text * Z * text) (body : text) {A} : M logger A :=
  _Message sys (Z.lor MSG_PANIC flags) (Some pos) body ;;
  _Panic sys bt.
Definition Panic (sys : system) (bt : list text) (pos : text * Z * text) (body : text) {A} : M logger A := PanicFlags sys bt 0 pos body.
Definition PPanic (sys : system) (bt : list text) (pos : text * Z * text) (body : text) {A} : M logger A := PanicFlags sys bt MSG_PERROR pos body.

(** [Assert(pred)], [src] being the source text of [pred], and the macros of debug/assert.hpp. *)
Definition Assert (sys : system) (bt : list text) (pos : text * Z * text) (src : text) (pred : bool) : M logger unit :=
  if negb pred then Panic sys bt pos (lit "Assertion `" ++ src ++ lit "' failed") else ret tt.
Definition ASSERT (sys : system) (bt : list text) (pos : text * Z * text) (src : text) (x : bool) : M logger unit := Assert sys bt pos src x.
Definition ASSERT_EQ (sys : system) (bt : list text) (pos : text * Z * text) (src : text) (x y : Z) : M logger unit := Assert sys bt pos src (x =? y).
Definition ASSERT_LT (sys : system) (bt : list text) (pos : text * Z * text) (src : text) (x y : Z) : M logger unit := Assert sys bt pos src (x <? y).
Definition ASSERT_GT (sys : system) (bt : list text) (pos : text * Z * text) (src : text) (x y : Z) : M logger unit := Assert sys bt pos src (x >? y).
Definition ASSERT_LE (sys : system) (bt : list text) (pos : text * Z * text) (src : text) (x y : Z) : M logger unit := Assert sys bt pos src (x <=? y).
Definition ASSERT_GE (sys : system) (bt : list text) (pos : text * Z * text) (src : text) (x y : Z) : M logger unit := Assert sys bt pos src (x >=? y).
Definition put_line (s : text) : M logger unit := λ l, Ok tt (MkLogger (haveColor l) (log l ++ [s]) (deferredFrees l) (blobs l)).
Definition NOT_REACHABLE (pos : text * Z * text) {A} : M logger A :=
  put_line (lit "NOT_REACHABLE point reached: " ++ pos.1.1 ++ lit ", line " ++ print_Z pos.1.2 ++ endl) ;;
  halt assert_failed.
Definition NOT_IMPLEMENTED (pos : text * Z * text) {A} : M logger A :=
  put_line (lit "NOT_IMPLEMENTED point reached: " ++ pos.1.1 ++ lit ", line " ++ print_Z pos.1.2 ++ endl) ;;
  halt assert_failed.
Definition PanicOnSignal (sys : system) (bt : list text) (signo : Z) : M logger unit :=
  Panic sys bt (lit "debug/message.cpp", 341, lit "PanicOnSignal") (lit "Received signal " ++ print_Z signo).

(** [None] is the null pointer. *)
Definition dfree_position : text * Z * text := (lit "debug/message.cpp", 191, lit "Message_DFree").
Definition Message_DFree (sys : system) (bt : list text) (buf : option nat) : M logger (option nat) :=
  match buf with
  | None => ret None
  | Some p =>
      (λ l, if decide (length (deferredFrees l) = MAX_DEFERRED_FREES)
            then Panic sys bt dfree_position (lit "Too many deferred frees") l
            else Ok tt l) ;;
      (λ l, Ok (Some p) (MkLogger (haveColor l) (log l) (deferredFrees l ++ [p]) (blobs l)))
  end.

(** A statement that logs blobs: its arguments are [Message_DFree(Message_FmtBlob(...))], evaluated
    before the message is written. *)
Fixpoint dfree_all (sys : system) (bt : list text) (ps : list nat) : M logger unit :=
  match ps with
  | [] => ret tt
  | p :: ps' => Message_DFree sys bt (Some p) ;; dfree_all sys bt ps'
  end.
Definition log_statement (sys : system) (bt : list text) (ps : list nat) (type : Z) (pos : option (text * Z * text)) (body : text)
    : M logger unit :=
  dfree_all sys bt ps ;;
  _Message sys type pos body.

(** ** Which files log debug messages *)
Record patterns := MkPatterns {
  parsed : bool;
  pat_buf : option text;           (* [None]: a null pointer *)
  pats : list (option nat);        (* offsets in the buffer; [None]: not initialised *)
}.
(** The initial values; [nPats] is the length of [pats]. *)
Definition no_patterns : patterns := MkPatterns false None [].

Definition is_separator (c : ascii) : bool := Ascii.eqb c "," || Ascii.eqb c " ".

(** The second loop: [strlen(buf)] is evaluated in every round, after the writes of the rounds before, and
    [patOut] is 1 throughout.  The buffer is longer than [i] in every round, so its length is fuel enough. *)
Fixpoint cut_patterns (fuel : nat) (i : nat) (buf : text) (ps : list (option nat)) : option (text * list (option nat)) :=
  if (i <? length (c_str buf))%nat then
    match fuel with
    | O => None
    | S fuel' =>
        if match buf !! i with Some c => is_separator c | None => false end then
          ps' ← poke ps 1 [Some (S i)];
          buf' ← poke buf i [nul];
          cut_patterns fuel' (S i) buf' ps'
        else cut_patterns fuel' (S i) buf ps
    end
  else Some (buf, ps).

(** The first part of [_Message_DebugEnabled], for the value [env] of the variable. *)
Definition parse_patterns (env : option text) : option patterns :=
  match env with
  | Some (c :: e) =>
      let buf := c :: e in
      let nPats := S (length (List.filter is_separator buf)) in
      '(buf', ps) ← cut_patterns (length buf) 0 buf (Some 0%nat :: repeat None (nPats - 1));
      Some (MkPatterns true (Some buf') ps)
  | _ => Some (MkPatterns true None [])
  end.

Section debug_enabled.
(** [fnmatch(pattern, string, FNM_PATHNAME) == 0] *)
Context (fnmatch : text → text → bool).

Definition starts_caret (p : text) : bool := match p with c :: _ => Ascii.eqb c "^" | [] => false end.

Definition pattern_matches (p fname : text) : bool :=
  let pat := if starts_caret p then List.tl p else p in
  fnmatch pat fname ||
  match after_last "/" fname with Some fbasename => fnmatch pat fbasename | None => false end.

(** The loop over the patterns; [None]: a pointer that was never set is read. *)
Fixpoint match_patterns (buf : text) (fname : text) (ps : list (option nat)) (result : bool) : option bool :=
  match ps with
  | [] => Some result
  | None :: _ => None
  | Some off :: ps' =>
      let p := c_str (drop off buf) in
      match_patterns buf fname ps' (if pattern_matches p fname then negb (starts_caret p) else result)
  end.

Definition _Message_DebugEnabled (env : option text) (fname : text) (s : patterns) : option (bool * patterns) :=
  s ← (if parsed s then Some s else parse_patterns env);
  match pat_buf s with
  | None => Some (false, s)
  | Some buf =>
      off ← mjoin (head (pats s));
      let p := c_str (drop off buf) in
      r ← match_patterns buf fname (pats s) (bool_decide (p = lit "all") || starts_caret p);
      Some (r, s)
  end.

(** The flag of each file, a [signed char], starts at -1. *)
Definition Message_DebugEnabled (env : option text) (fname : text) (flag : Z) (s : patterns)
    : option (bool * Z * patterns) :=
  if 0 <=? flag then Some (negb (flag =? 0), flag, s)
  else '(r, s) ← _Message_DebugEnabled env fname s;
       Some (r, if (r : bool) then 1 else 0, s).
End debug_enabled.

(** ** Hex dump *)

(** [sprintf] and [strcpy] into a buffer. *)
Definition sprintf (buf : text) (out : nat) (s : text) : option text := poke buf out (s ++ [nul]).

(** The columns of the bytes: [rest] holds the bytes from [base + offset] on. *)
Fixpoint hex_columns (n : nat) (offset : nat) (rest : list ascii) (buf : text) (out : nat) : option (text * nat) :=
  match n with
  | O => Some (buf, out)
  | S n' =>
      '(buf, out) ← (if (offset =? 8)%nat then buf ← poke buf out [" "%char]; Some (buf, S out) else Some (buf, out));
      buf ← sprintf buf out (match rest with
                             | [] => lit "   "
                             | d :: _ => lit " " ++ hex 2 (Z.of_N (N_of_ascii d))
                             end);
      hex_columns n' (S offset) (List.tl rest) buf (out + 3)
  end.
Fixpoint char_columns (n : nat) (rest : list ascii) (buf : text) (out : nat) : option (text * nat) :=
  match n, rest with
  | S n', d :: rest' => buf ← poke buf out [shown d]; char_columns n' rest' buf (S out)
  | _, _ => Some (buf, out)
  end.

Definition hexdump_line (buf : text) (base : Z) (rest : list ascii) : option text :=
  buf ← sprintf buf 0 (hex 8 base);
  '(buf, out) ← hex_columns 16 0 rest buf 8;
  buf ← sprintf buf out (lit " |");
  '(buf, out) ← char_columns 16 rest buf (out + 2);
  sprintf buf out (lit "|").

(** The loop: the lines that it logs.  [buf] is not initialised, [rest] the bytes from [base] on.  A
    round takes 16 bytes, so the number of bytes is fuel enough. *)
Fixpoint hexdump_loop (fuel : nat) (buf : text) (base : Z) (rest : list ascii) : option (list text) :=
  match rest, fuel with
  | [], _ => Some []
  | _, O => None
  | _, S fuel' =>
      buf ← hexdump_line buf base rest;
      if in_int (base + 16)
      then ls ← hexdump_loop fuel' buf (base + 16) (drop 16 rest); Some (c_str buf :: ls)
      else None
  end.
Definition _Message_Hexdump (junk : text) (data : list ascii) : option (list text) :=
  hexdump_loop (length data) junk 0 data.

(** ** Blobs *)

(** [atoi]; [None]: the value does not fit an [int], which is undefined. *)
Definition atoi (s : text) : option Z :=
  let s := skip_ws s in
  let '(neg, s) := match s with
                   | c :: s' => if Ascii.eqb c "-" then (true, s') else if Ascii.eqb c "+" then (false, s') else (false, s)
                   | [] => (false, s)
                   end in
  let v := Z.of_N (digits_value (span is_digit s).1) in
  let z := if (neg : bool) then - v else v in
  if in_int z then Some z else None.

(** [blobmax], read from the environment while it is -1. *)
Definition read_blobmax (env : option text) (blobmax : Z) : option Z :=
  if blobmax =? -1 then match env with None => Some 32 | Some e => atoi e end else Some blobmax.

Fixpoint blob_columns (buf : text) (i : nat) (data : list ascii) : option text :=
  match data with
  | [] => Some buf
  | c :: data' => buf ← poke buf (S i) [shown c]; blob_columns buf (S i) data'
  end.

(** Given the block of [plen + 3] bytes that [malloc] returned. *)
Definition fill_blob (buf : text) (data : list ascii) (plen : Z) : option text :=
  buf ← poke buf 0 ["|"%char];
  buf ← blob_columns buf 0 (take (Z.to_nat plen) data);
  let i := Z.to_nat plen in
  buf ← poke buf (S i) [if Z.of_nat (length data) =? plen then "|"%char else ">"%char];
  poke buf (S (S i)) [nul].

(** [malloc] gives a block of that many bytes or a null pointer ([None]).  The outer option is [None] where
    a byte outside the block is written or the size overflows. *)
Definition Message_FmtBlob (malloc : Z → option text) (env : option text) (blobmax : Z) (data : list ascii)
    : option (option text * Z) :=
  blobmax ← read_blobmax env blobmax;
  let plen := Z.min (Z.of_nat (length data)) blobmax in
  if negb (in_int (plen + 3)) then None else
  match malloc (wrap64 (plen + 3)) with
  | None => Some (None, blobmax)
  | Some block => buf ← fill_blob block data plen; Some (Some (c_str buf), blobmax)
  end.

(** ** Debug statements *)

(** The static flag of a file with the patterns and the log. *)
Record debugger := MkDebugger { _Message_FileDebugFlag : Z; d_patterns : patterns; d_logger : logger }.

Section debug_statements.
Context (fnmatch : text → text → bool) (sys : system) (env : option text) (fname : text).

Definition debug_enabled : M debugger bool := λ d,
  match Message_DebugEnabled fnmatch env fname (_Message_FileDebugFlag d) (d_patterns d) with
  | Some (r, flag, ps) => Ok r (MkDebugger flag ps (d_logger d))
  | None => Halt undefined_behaviour
  end.
Definition on_logger (m : M logger unit) : M debugger unit := λ d,
  match m (d_logger d) with
  | Ok u l => Ok u (MkDebugger (_Message_FileDebugFlag d) (d_patterns d) l)
  | Throw e l => Throw e (MkDebugger (_Message_FileDebugFlag d) (d_patterns d) l)
  | Halt f => Halt f
  end.

Definition Debug (pos : text * Z * text) (body : text) : M debugger unit :=
  let! enabled := debug_enabled in
  if enabled : bool then on_logger (MessageFlags sys MSG_DEBUG pos body) else ret tt.

(** Each line of the dump is a message. *)
Fixpoint log_lines (ls : list text) : M logger unit :=
  match ls with
  | [] => ret tt
  | s :: ls' => _Message sys MSG_DEBUG None s ;; log_lines ls'
  end.
Definition Message_Hexdump (junk : text) (data : list ascii) : M debugger unit :=
  let! enabled := debug_enabled in
  if enabled : bool then
    match _Message_Hexdump junk data with
    | Some ls => on_logger (log_lines ls)
    | None => halt undefined_behaviour
    end
  else ret tt.
End debug_statements.
