(* ===== verification/LogProof.v ===== *)
(** * Properties of the logging library

    The hex dump fits its buffer and can be read back; a blob fits its block unless the limit is
    negative; what the patterns of [DEBUG] decide; a statement frees its own blobs. *)
From Stdlib Require Import ZArith Lia Ascii String.
From stdpp Require Import prelude gmap.
From S2P Require Import Prelude StdMap Serialize FKey Config ConfigProof Log.

#[local] Open Scope cpp_scope.

(** ** Buffers written from the front *)
Definition no_nul (s : text) : Prop := Forall (λ c, Ascii.eqb c nul = false) s.

Lemma c_str_app_nul (s rest : text) : no_nul s → c_str (s ++ nul :: rest) = s.
Proof. induction 1 as [|c s Hc _ IH]; cbn [c_str app]; [done|]. unfold nul in Hc. by rewrite Hc, IH. Qed.

(** [buf] begins with [w]. *)
Definition begins (buf w : text) : Prop := ∃ rest, buf = w ++ rest.

Lemma poke_begins buf w s : begins buf w → length w + length s ≤ length buf →
  ∃ buf', poke buf (length w) s = Some buf' ∧ begins buf' (w ++ s) ∧ length buf' = length buf.
Proof.
  intros [rest ->] Hlen. destruct (poke_fits (w ++ rest) (length w) s Hlen) as [buf' Hp]. exists buf'.
  split_and!; [done| |by apply length_poke in Hp]. apply poke_Some in Hp as [_ ->]. rewrite take_app_length. eexists. by rewrite <- (assoc_L (++)).
Qed.

Lemma begins_app buf w s : begins buf (w ++ s) → begins buf w.
Proof. intros [rest ->]. exists (s ++ rest). by rewrite (assoc_L (++)). Qed.

Lemma sprintf_begins buf w s : begins buf w → length w + length s < length buf →
  ∃ buf', sprintf buf (length w) s = Some buf' ∧ begins buf' (w ++ s ++ [nul]) ∧ length buf' = length buf.
Proof. intros Hb Hlen. apply poke_begins; [done|]. rewrite length_app. cbn. lia. Qed.

(** ** The hex dump *)
Lemma length_hex w z : length (hex w z) = w.
Proof. revert z. induction w as [|w IH]; intros z; [done|]. cbn [hex]. rewrite length_app, IH. cbn. lia. Qed.

Lemma hex_char_nul z : (0 <= z < 16)%Z → Ascii.eqb (hex_char z) nul = false.
Proof. intros Hz. assert (z ∈ seqZ 0 16) as Hin by (apply elem_of_seqZ; lia). clear Hz. revert z Hin. apply Forall_forall. by repeat constructor. Qed.

Lemma hex_no_nul w z : no_nul (hex w z).
Proof.
  revert z. induction w as [|w IH]; intros z; [constructor|]. cbn [hex]. apply Forall_app. split; [apply IH|].
  constructor; [|constructor]. apply hex_char_nul. by apply Z.mod_pos_bound.
Qed.

Lemma shown_nul c : Ascii.eqb (shown c) nul = false.
Proof. by destruct c as [[] [] [] [] [] [] [] []]. Qed.

(** What a line is to look like. *)
Definition cell (rest : list ascii) : text :=
  match rest with [] => lit "   " | d :: _ => lit " " ++ hex 2 (Z.of_N (N_of_ascii d)) end.
Fixpoint columns (n offset : nat) (rest : list ascii) : text :=
  match n with
  | O => []
  | S n' => (if (offset =? 8)%nat then lit " " else []) ++ cell rest ++ columns n' (S offset) (List.tl rest)
  end.
Definition line_text (base : Z) (rest : list ascii) : text :=
  hex 8 base ++ columns 16 0 rest ++ lit " |" ++ (shown <$> take 16 rest) ++ lit "|".

Lemma length_cell rest : length (cell rest) = 3.
Proof. destruct rest; [done|]. cbn [cell]. by rewrite length_app, length_hex. Qed.
Lemma cell_no_nul rest : no_nul (cell rest).
Proof. destruct rest; [by repeat constructor|]. apply Forall_app. split; [by repeat constructor|apply hex_no_nul]. Qed.
Lemma columns_no_nul n offset rest : no_nul (columns n offset rest).
Proof.
  revert offset rest. induction n as [|n IH]; intros offset rest; [constructor|]. cbn [columns].
  unfold no_nul. rewrite !Forall_app. split_and!; [destruct (offset =? 8)%nat; by repeat constructor|apply cell_no_nul|apply IH].
Qed.
Lemma length_columns16 rest : length (columns 16 0 rest) = 49.
Proof. cbn [columns Nat.eqb app]. repeat rewrite length_app. rewrite !length_cell. done. Qed.

Lemma shown_no_nul (l : list ascii) : no_nul (shown <$> l).
Proof. apply Forall_fmap, Forall_true. intros c. apply shown_nul. Qed.
Lemma no_nul_app a b : no_nul a → no_nul b → no_nul (a ++ b).
Proof. apply Forall_app_2. Qed.
Lemma no_nul_nil : no_nul [].
Proof. constructor. Qed.
Lemma no_nul_cons c s : Ascii.eqb c nul = false → no_nul s → no_nul (c :: s).
Proof. by constructor. Qed.
#[export] Hint Resolve hex_no_nul cell_no_nul columns_no_nul shown_no_nul shown_nul no_nul_app no_nul_nil no_nul_cons : betree.

Lemma line_no_nul base rest : no_nul (line_text base rest).
Proof. unfold line_text, lit. cbn [list_ascii_of_string]. auto 12 with betree. Qed.
Lemma length_line base rest : length (line_text base rest) ≤ 76.
Proof.
  unfold line_text. rewrite !length_app, length_hex, length_columns16, length_fmap, length_take. cbn [length lit list_ascii_of_string]. lia.
Qed.

Lemma hex_columns_text n : ∀ offset rest buf w,
  begins buf w → length w + length (columns n offset rest) < length buf →
  ∃ buf', hex_columns n offset rest buf (length w) = Some (buf', length (w ++ columns n offset rest)) ∧
          begins buf' (w ++ columns n offset rest) ∧ length buf' = length buf.
Proof.
  induction n as [|n IH]; intros offset rest buf w Hb Hlen; cbn [columns hex_columns] in *.
  { exists buf. by rewrite app_nil_r. }
  rewrite !length_app, length_cell in Hlen. set (gap := if (offset =? 8)%nat then lit " " else []) in *.
  change (length (if (offset =? 8)%nat then lit " " else [])) with (length gap) in Hlen.
  assert (∃ buf1, (if (offset =? 8)%nat then buf ← poke buf (length w) [" "%char]; Some (buf, S (length w)) else Some (buf, length w))
            = Some (buf1, length (w ++ gap)) ∧ begins buf1 (w ++ gap) ∧ length buf1 = length buf) as (buf1 & -> & Hb1 & Hl1).
  { unfold gap in *. destruct (offset =? 8)%nat; [|exists buf; by rewrite app_nil_r].
    destruct (poke_begins buf w [" "%char] Hb) as (buf1 & -> & Hb1 & Hl1); [cbn in *; lia|].
    exists buf1. split_and!; [|done..]. cbn. do 2 f_equal. rewrite length_app. cbn. lia. }
  cbn [mbind option_bind]. fold (cell rest).
  destruct (sprintf_begins buf1 (w ++ gap) (cell rest) Hb1) as (buf2 & -> & Hb2 & Hl2).
  { rewrite length_app, length_cell. lia. }
  cbn [mbind option_bind]. replace (length (w ++ gap) + 3) with (length ((w ++ gap) ++ cell rest)) by (rewrite (length_app _ (cell rest)), length_cell; lia).
  rewrite (assoc_L (++)) in Hb2. apply begins_app in Hb2.
  destruct (IH (S offset) (List.tl rest) buf2 _ Hb2) as (buf3 & -> & Hb3 & Hl3).
  { rewrite !length_app, length_cell. lia. }
  exists buf3. rewrite <- !(assoc_L (++)) in *. split_and!; [done..|lia].
Qed.

Lemma char_columns_text n : ∀ rest buf w,
  begins buf w → length w + n ≤ length buf →
  ∃ buf', char_columns n rest buf (length w) = Some (buf', length (w ++ (shown <$> take n rest))) ∧
          begins buf' (w ++ (shown <$> take n rest)) ∧ length buf' = length buf.
Proof.
  induction n as [|n IH]; intros [|d rest] buf w Hb Hlen; cbn [char_columns take fmap list_fmap];
    try (exists buf; by rewrite app_nil_r).
  destruct (poke_begins buf w [shown d] Hb) as (buf1 & -> & Hb1 & Hl1); [cbn; lia|]. cbn [mbind option_bind].
  replace (S (length w)) with (length (w ++ [shown d])) by (rewrite length_app; cbn; lia).
  destruct (IH rest buf1 _ Hb1) as (buf2 & -> & Hb2 & Hl2); [rewrite length_app; cbn; lia|].
  exists buf2. rewrite <- !(assoc_L (++)) in *. split_and!; [done..|lia].
Qed.

Lemma hexdump_line_text buf base rest : length buf = 80 →
  ∃ buf', hexdump_line buf base rest = Some buf' ∧ c_str buf' = line_text base rest ∧ length buf' = 80.
Proof.
  intros Hl. unfold hexdump_line.
  destruct (sprintf_begins buf [] (hex 8 base)) as (b1 & H1 & Hb1 & Hl1); [by exists buf|rewrite length_hex; cbn; lia|].
  cbn [length app] in H1, Hb1. rewrite H1. cbn [mbind option_bind]. apply begins_app in Hb1.
  destruct (hex_columns_text 16 0 rest b1 _ Hb1) as (b2 & H2 & Hb2 & Hl2); [rewrite length_hex, length_columns16; lia|].
  rewrite length_hex in H2. rewrite H2. cbn [mbind option_bind].
  assert (length (hex 8 base ++ columns 16 0 rest) = 57) as Hw by (by rewrite length_app, length_hex, length_columns16).
  destruct (sprintf_begins b2 _ (lit " |") Hb2) as (b3 & -> & Hb3 & Hl3); [rewrite Hw; cbn; lia|].
  cbn [mbind option_bind]. rewrite (assoc_L (++)) in Hb3. apply begins_app in Hb3.
  replace (length (hex 8 base ++ columns 16 0 rest) + 2) with (length ((hex 8 base ++ columns 16 0 rest) ++ lit " |"))
    by (rewrite length_app; done).
  destruct (char_columns_text 16 rest b3 _ Hb3) as (b4 & -> & Hb4 & Hl4); [rewrite length_app, Hw; cbn; lia|].
  cbn [mbind option_bind]. destruct (sprintf_begins b4 _ (lit "|") Hb4) as (b5 & -> & [r ->] & Hl5).
  { rewrite !length_app, length_hex, length_columns16, length_fmap, length_take. cbn [length lit list_ascii_of_string]. lia. }
  eexists. split_and!; [done| |lia]. match goal with |- c_str ?x = _ => replace x with (line_text base rest ++ nul :: r) end.
  - apply c_str_app_nul, line_no_nul.
  - unfold line_text. by rewrite <- !(assoc_L (++)).
Qed.

(** Reading a line back: the columns up to the first empty one. *)
Definition hex_value (c : ascii) : N := let n := N_of_ascii c in if (n <? 58)%N then (n - 48)%N else (n - 87)%N.
Fixpoint read_columns (n offset : nat) (s : text) : list ascii :=
  match n with
  | O => []
  | S n' =>
      let s := if (offset =? 8)%nat then List.tl s else s in
      match s with
      | _ :: h :: l :: s' => if is_space h then [] else ascii_of_N (16 * hex_value h + hex_value l) :: read_columns n' (S offset) s'
      | _ => []
      end
  end.
Definition read_line (s : text) : list ascii := read_columns 16 0 (drop 8 s).

Lemma read_cell d : ∃ h l, cell [d] = [" "%char; h; l] ∧ is_space h = false ∧ ascii_of_N (16 * hex_value h + hex_value l) = d.
Proof. destruct d as [[] [] [] [] [] [] [] []]; eexists _, _; (split_and!; [vm_compute; reflexivity|done|done]). Qed.

Lemma read_columns_text n : ∀ offset rest s, read_columns n offset (columns n offset rest ++ s) = take n rest.
Proof.
  induction n as [|n IH]; intros offset rest s; [done|]. cbn [columns read_columns].
  assert (∀ x : text, (if (offset =? 8)%nat then List.tl (((if (offset =? 8)%nat then lit " " else []) ++ x)) else ((if (offset =? 8)%nat then lit " " else []) ++ x)) = x) as Hgap
    by (intros; by destruct (offset =? 8)%nat).
  rewrite <- !(assoc_L (++)), Hgap. destruct rest as [|d rest]; [done|].
  change (cell (d :: rest)) with (cell [d]). destruct (read_cell d) as (h & l & -> & Hh & Hd).
  cbn [app List.tl take]. by rewrite Hh, Hd, IH.
Qed.

Lemma length_read_columns n : ∀ offset s, length (read_columns n offset s) ≤ n.
Proof.
  induction n as [|n IH]; intros offset s; cbn [read_columns]; [done|].
  destruct (if (offset =? 8)%nat then _ else _) as [|a [|h [|l s']]]; cbn; try lia. destruct (is_space h); cbn; [lia|].
  pose proof (IH (S offset) s'). lia.
Qed.

Lemma read_line_text base rest : read_line (line_text base rest) = take 16 rest.
Proof.
  unfold read_line, line_text. rewrite drop_app_ge by (by rewrite length_hex). rewrite length_hex, Nat.sub_diag, drop_0.
  apply read_columns_text.
Qed.

Lemma hexdump_loop_text fuel : ∀ buf base data,
  length buf = 80 → length data ≤ fuel → (0 <= base)%Z → (base + Z.of_nat (length data) <= 2 ^ 31 - 16)%Z →
  ∃ ls, hexdump_loop fuel buf base data = Some ls ∧ 16 * length ls < length data + 16 ∧
        Forall (λ l, length l < 80) ls ∧ concat (read_line <$> ls) = data.
Proof.
  induction fuel as [|fuel IH]; intros buf base data Hbuf Hfuel Hbase Hint;
    (destruct data as [|d data]; [exists []; by split_and!; [|cbn; lia|..]|]); [cbn in Hfuel; lia|].
  cbn [hexdump_loop]. destruct (hexdump_line_text buf base (d :: data) Hbuf) as (buf' & -> & Hc & Hbuf'). cbn [mbind option_bind].
  assert (in_int (base + 16) = true) as -> by (unfold in_int; cbn [length] in Hint; rewrite andb_true_iff, Z.leb_le, Z.ltb_lt; lia).
  pose proof (length_drop (d :: data) 16) as Hd.
  destruct (decide (length (d :: data) ≤ 16)) as [Hle|Hgt].
  - rewrite (drop_ge _ 16) by done. assert (hexdump_loop fuel buf' (base + 16) [] = Some []) as -> by (by destruct fuel).
    cbn [mbind option_bind]. eexists. split_and!; [done|cbn; lia| |].
    + constructor; [|constructor]. rewrite Hc. pose proof (length_line base (d :: data)). lia.
    + cbn [fmap list_fmap concat]. by rewrite Hc, read_line_text, app_nil_r, take_ge.
  - destruct (IH buf' (base + 16)%Z (drop 16 (d :: data))) as (ls & -> & Hls & Hall & Hcat); [done|lia|lia|lia|].
    cbn [mbind option_bind]. eexists. split_and!; [done|cbn [length] in *; lia| |].
    + constructor; [|done]. rewrite Hc. pose proof (length_line base (d :: data)). lia.
    + cbn [fmap list_fmap concat]. by rewrite Hc, read_line_text, Hcat, take_drop.
Qed.

(** C35: the hex dump of any data that an [int] can measure, up to 2^31 - 16 bytes, is written: no line overruns the buffer of
    80 characters, whatever it held before, there is one line per 16 bytes begun, and
    the data can be read back from the lines. *)
Theorem hexdump_roundtrip junk data :
  length junk = 80 → (Z.of_nat (length data) <= 2 ^ 31 - 16)%Z →
  ∃ ls, _Message_Hexdump junk data = Some ls ∧ length ls = (length data + 15) / 16 ∧
        Forall (λ l, length l < 80) ls ∧ concat (read_line <$> ls) = data.
Proof.
  intros Hj Hd. destruct (hexdump_loop_text (length data) junk 0 data) as (ls & Hls & Hlen & Hall & Hcat); [done|lia|lia|lia|].
  exists ls. split_and!; [done| |done..]. apply (Nat.div_unique _ _ _ (length data + 15 - 16 * length ls)); [|].
  all: enough (length data ≤ 16 * length ls) by lia.
  all: rewrite <- Hcat at 1; clear; induction ls as [|l ls IH]; cbn [fmap list_fmap concat length]; [done|];
    rewrite length_app; pose proof (length_read_columns 16 0 (drop 8 l)) as Hl; fold (read_line l) in Hl; unfold text in *; lia.
Qed.

Lemma hexdump_roundtrip_witness :
  ∃ ls, _Message_Hexdump (repeat "x"%char 80) (lit "seventeen bytes!!") = Some ls ∧ length ls = 2 ∧
        Forall (λ l, length l < 80) ls ∧ concat (read_line <$> ls) = lit "seventeen bytes!!".
Proof. apply (hexdump_roundtrip (repeat "x"%char 80) (lit "seventeen bytes!!")); [done|]. cbn. lia. Defined.

(** ** Blobs *)
Lemma blob_columns_text data : ∀ buf w,
  begins buf (w ++ []) → 0 < length w → length w + length data ≤ length buf →
  ∃ buf', blob_columns buf (length w - 1) data = Some buf' ∧ begins buf' (w ++ (shown <$> data)) ∧ length buf' = length buf.
Proof.
  induction data as [|c data IH]; intros buf w Hb Hw Hlen; cbn [blob_columns fmap list_fmap]; [by exists buf|].
  rewrite app_nil_r in Hb. replace (S (length w - 1)) with (length w) by lia.
  destruct (poke_begins buf w [shown c] Hb) as (b1 & -> & Hb1 & Hl1); [cbn in *; lia|]. cbn [mbind option_bind].
  assert (length (w ++ [shown c]) = S (length w)) as Hw1 by (rewrite length_app; cbn; lia).
  destruct (IH b1 (w ++ [shown c])) as (b2 & H2 & Hb2 & Hl2); [by rewrite app_nil_r|lia|cbn in Hlen; lia|].
  rewrite Hw1 in H2. replace (S (length w) - 1) with (length w) in H2 by lia. exists b2.
  rewrite <- (assoc_L (++)) in Hb2. split_and!; [done..|lia].
Qed.

Definition blob_text (data : list ascii) (blobmax : Z) : text :=
  lit "|" ++ (shown <$> take (Z.to_nat blobmax) data) ++
  (if (Z.of_nat (length data) <=? blobmax)%Z then lit "|" else lit ">").

Lemma fill_blob_text block data m : (0 <= m)%Z →
  length block = Z.to_nat (Z.min (Z.of_nat (length data)) m + 3) →
  c_str <$> fill_blob block data (Z.min (Z.of_nat (length data)) m) = Some (blob_text data m).
Proof.
  intros Hm Hb. set (plen := Z.min (Z.of_nat (length data)) m) in *. unfold fill_blob.
  destruct (poke_begins block [] (lit "|")) as (b1 & H1 & Hb1 & Hl1); [by exists block|cbn; lia|].
  cbn [length app] in H1, Hb1. change ["|"%char] with (lit "|"). rewrite H1. cbn [mbind option_bind].
  assert (length (take (Z.to_nat plen) data) = Z.to_nat plen) as Hpl by (rewrite length_take; lia).
  destruct (blob_columns_text (take (Z.to_nat plen) data) b1 (lit "|")) as (b2 & H2 & Hb2 & Hl2); [by rewrite app_nil_r|cbn; lia|cbn in *; lia|].
  cbn [length lit list_ascii_of_string Nat.sub] in H2. rewrite H2. cbn [mbind option_bind].
  set (w2 := lit "|" ++ (shown <$> take (Z.to_nat plen) data)) in *.
  assert (length w2 = S (Z.to_nat plen)) as Hw2 by (unfold w2; rewrite length_app, length_fmap, Hpl; done).
  set (mark := if (Z.of_nat (length data) =? plen)%Z then _ else _). rewrite <- Hw2.
  destruct (poke_begins b2 w2 [mark] Hb2) as (b3 & -> & Hb3 & Hl3); [cbn [length]; lia|]. cbn [mbind option_bind].
  assert (S (length w2) = length (w2 ++ [mark])) as -> by (rewrite length_app; cbn [length]; lia).
  destruct (poke_begins b3 _ [nul] Hb3) as (b4 & -> & [r ->] & Hl4); [rewrite length_app; cbn [length]; lia|].
  cbn [fmap option_fmap option_map]. f_equal. rewrite <- (assoc_L (++)). change ([nul] ++ r) with (nul :: r). rewrite c_str_app_nul.
  - unfold blob_text, w2. rewrite <- (assoc_L (++)). f_equal. f_equal.
    + f_equal. unfold plen. destruct (Z.leb_spec m (Z.of_nat (length data))); [f_equal; lia|]. rewrite !take_ge; [done|lia..].
    + unfold mark. destruct (Z.eqb_spec (Z.of_nat (length data)) plen), (Z.leb_spec (Z.of_nat (length data)) m); [done|lia|lia|done].
  - unfold w2, lit. cbn [list_ascii_of_string]. assert (Ascii.eqb mark nul = false) by (unfold mark; by destruct (_ =? plen)%Z).
    auto 12 with betree.
Qed.

(** With a limit that is not negative, [Message_FmtBlob] stays in the block it allocated and gives the first bytes of
    the data, those that do not print as dots, with a mark where it left some out.  With
    a limit of -1, -2 or -3 in the environment it writes past the end of its block. *)
Theorem fmt_blob_bounds malloc env blobmax m data :
  (∀ n b, malloc n = Some b → length b = Z.to_nat n) → read_blobmax env blobmax = Some m →
  (Z.of_nat (length data) <= 2 ^ 31 - 4)%Z →
  ((0 <= m)%Z → Message_FmtBlob malloc env blobmax data =
     Some ((λ _, blob_text data m) <$> malloc (Z.min (Z.of_nat (length data)) m + 3)%Z, m)) ∧
  ((-3 <= m < 0)%Z → is_Some (malloc (m + 3)%Z) → Message_FmtBlob malloc env blobmax data = None).
Proof.
  intros Hmal Hm Hlen. unfold Message_FmtBlob. rewrite Hm. cbn [mbind option_bind].
  split.
  - intros Hpos. assert (in_int (Z.min (Z.of_nat (length data)) m + 3) = true) as ->
      by (unfold in_int; rewrite andb_true_iff, Z.leb_le, Z.ltb_lt; lia).
    unfold wrap64. rewrite Z.mod_small by lia. cbn [negb]. destruct (malloc _) as [block|] eqn:E; [|done].
    pose proof (fill_blob_text block data m Hpos (Hmal _ _ E)) as Hf. cbn [fmap option_fmap option_map].
    destruct (fill_blob _ _ _); [|done]. injection Hf as Hf. cbn. by rewrite Hf.
  - intros Hneg [block E]. rewrite Z.min_r by lia. unfold wrap64. rewrite Z.mod_small by lia.
    destruct (negb _); [done|]. rewrite E. pose proof (Hmal _ _ E) as Hb. unfold fill_blob.
    replace (Z.to_nat m) with 0 by lia. rewrite take_0. cbn [mbind option_bind blob_columns].
    destruct (poke block 0 _) as [b1|] eqn:H1; [|done]. cbn. destruct (poke b1 1 _) as [b2|] eqn:H2; [|done]. cbn.
    apply length_poke in H1, H2. unfold poke. rewrite decide_False; [done|]. cbn. lia.
Qed.

Lemma fmt_blob_bounds_witness :
  let malloc n := if (n <? 1000)%Z then Some (repeat nul (Z.to_nat n)) else None in
  Message_FmtBlob malloc (Some (lit "5")) (-1) (lit "too long") = Some (Some (lit "|too l>"), 5%Z) ∧
  Message_FmtBlob malloc (Some (lit "-1")) (-1) (lit "too long") = None.
Proof.
  intros malloc. assert (∀ n b, malloc n = Some b → length b = Z.to_nat n) as Hm.
  { intros n b. unfold malloc. destruct (n <? 1000)%Z; [|done]. intros [= <-]. by rewrite repeat_length. }
  split.
  - by apply (fmt_blob_bounds malloc (Some (lit "5")) (-1) 5 (lit "too long") Hm).
  - apply (fmt_blob_bounds malloc (Some (lit "-1")) (-1) (-1) (lit "too long") Hm); [done|done|done|by eexists].
Defined.

(** ** The patterns of [DEBUG] *)

(** The pieces between the separators. *)
Fixpoint pieces (s : text) : list text :=
  match s with
  | [] => [[]]
  | c :: s' =>
      if is_separator c then [] :: pieces s'
      else match pieces s' with
           | [] => [[c]]
           | w :: ws => (c :: w) :: ws
           end
  end.

Lemma pieces_cases s :
  (Forall (λ c, is_separator c = false) s ∧ pieces s = [s]) ∨
  ∃ a c b, s = a ++ c :: b ∧ Forall (λ c, is_separator c = false) a ∧ is_separator c = true ∧ pieces s = a :: pieces b.
Proof.
  induction s as [|x s IH]; [by left|]. cbn [pieces]. destruct (is_separator x) eqn:Ex.
  { right. exists [], x, s. by split_and!; [|constructor|..]. }
  destruct IH as [[Hs ->]|(a & c & b & -> & Ha & Hc & ->)]; [left; split; [by constructor|done]|].
  right. exists (x :: a), c, b. by split_and!; [|constructor|..].
Qed.

Lemma length_pieces s : length (pieces s) = S (length (List.filter is_separator s)).
Proof.
  induction s as [|c s IH]; [done|]. cbn [pieces List.filter]. destruct (is_separator c); [cbn; by rewrite IH|].
  by destruct (pieces s).
Qed.

Lemma c_str_no_nul s : no_nul s → c_str s = s.
Proof. apply c_str_id. Qed.

Lemma cut_none fuel : ∀ i (buf : text) ps, no_nul buf → Forall (λ c, is_separator c = false) buf → length buf ≤ fuel + i →
  cut_patterns fuel i buf ps = Some (buf, ps).
Proof.
  induction fuel as [|fuel IH]; intros i buf ps Hn Hs Hlen; cbn [cut_patterns]; rewrite c_str_no_nul by done;
    (destruct (Nat.ltb_spec i (length buf)) as [Hi|?]; [|done]); [lia|].
  assert (∃ c, buf !! i = Some c) as [c Hc] by exact (lookup_lt_is_Some_2 buf i Hi). rewrite Hc, (Forall_lookup_1 _ _ _ _ Hs Hc). apply IH; [done..|lia].
Qed.

Lemma cut_first fuel : ∀ i (a : text) c (b : text) p q ps,
  no_nul (a ++ c :: b) → Forall (λ c, is_separator c = false) a → is_separator c = true → i ≤ length a →
  length (a ++ c :: b) ≤ fuel + i →
  cut_patterns fuel i (a ++ c :: b) (p :: q :: ps) = Some (a ++ nul :: b, p :: Some (S (length a)) :: ps).
Proof.
  induction fuel as [|fuel IH]; intros i a c b p q ps Hn Ha Hc Hi Hlen; rewrite length_app in Hlen; cbn [length] in Hlen; [lia|].
  cbn [cut_patterns]. rewrite c_str_no_nul, length_app by done. cbn [length]. destruct (Nat.ltb_spec i (length a + S (length b))); [|lia].
  destruct (decide (i = length a)) as [->|Hne].
  - assert ((a ++ c :: b : text) !! length a = Some c) as Hat by (by apply list_lookup_middle).
    rewrite Hat, Hc. cbn [mbind option_bind]. unfold poke.
    rewrite !decide_True by (rewrite ?length_app; cbn; lia). cbn [mbind option_bind].
    rewrite take_app_length, (drop_app_ge _ _ (length a + _)) by lia.
    replace (length a + length [nul] - length a) with 1 by (cbn; lia). cbn [take drop app length Nat.add]. rewrite !drop_0.
    assert (no_nul a) as Hna by (by apply Forall_app in Hn as [??]).
    assert (c_str (a ++ nul :: b) = a) as Hcs by (by apply c_str_app_nul).
    destruct fuel; cbn [cut_patterns]; rewrite Hcs; (destruct (Nat.ltb_spec (S (length a)) (length a)); [lia|done]).
  - destruct (lookup_lt_is_Some_2 a i) as [x Hx]; [lia|].
    assert ((a ++ c :: b : text) !! i = Some x) as Hat by (by apply lookup_app_l_Some).
    rewrite Hat, (Forall_lookup_1 _ _ _ _ Ha Hx).
    apply IH; [done..|lia|rewrite length_app; cbn; lia].
Qed.

Section debug_patterns.
Context (fnmatch : text → text → bool).

(** The last pattern that matches decides; a caret turns it round; with none, it is whether the first one is [all]
    or has a caret. *)
Definition verdict (fname : text) (ps : list text) : bool :=
  foldl (λ r p, if pattern_matches fnmatch p fname then negb (starts_caret p) else r)
    match ps with p :: _ => bool_decide (p = lit "all") || starts_caret p | [] => false end ps.

Lemma debug_enabled_pieces env fname : env ≠ [] → no_nul env →
  fst <$> _Message_DebugEnabled fnmatch (Some env) fname no_patterns =
  if (length (pieces env) <=? 2)%nat then Some (verdict fname (pieces env)) else None.
Proof.
  intros Hne Hn. unfold _Message_DebugEnabled. cbn [parsed no_patterns]. unfold parse_patterns.
  destruct env as [|e0 env']; [done|]. set (env := e0 :: env') in *. clearbody env. pose proof (length_pieces env) as Hl.
  destruct (pieces_cases env) as [[Hs Hp]|(a & c & b & -> & Ha & Hc & Hp)]; rewrite Hp in Hl |- *.
  - injection Hl as Hl. rewrite <- Hl. cbn [repeat Nat.sub mbind option_bind]. rewrite cut_none by (done || lia).
    cbn. by rewrite c_str_no_nul.
  - cbn [length] in Hl. injection Hl as Hl. rewrite <- Hl. cbn [Nat.sub]. rewrite Nat.sub_0_r.
    pose proof (length_pieces b) as Hlb. destruct (length (pieces b)) as [|k] eqn:Hk; [done|]. cbn [repeat].
    cbn [mbind option_bind]. rewrite cut_first by (done || lia). cbn [mbind option_bind pat_buf pats head mjoin option_join].
    assert (no_nul a ∧ no_nul b) as [Hna Hnb] by (apply Forall_app in Hn as [? Hn']; by inversion Hn').
    cbn [match_patterns]. rewrite drop_0, c_str_app_nul by done. rewrite drop_app_ge by lia.
    replace (S (length a) - length a) with 1 by lia. cbn [drop]. rewrite drop_0, (c_str_no_nul b) by done.
    cbn [length]. rewrite Hk. destruct k as [|k]; [|done]. cbn [repeat match_patterns].
    destruct (pieces_cases b) as [[_ Hb]|(a' & c' & b' & _ & _ & _ & Hb)]; rewrite Hb in *; [done|].
    cbn in Hk. pose proof (length_pieces b'). lia.
Qed.

Lemma debug_enabled_again env fname r s :
  _Message_DebugEnabled fnmatch env fname no_patterns = Some (r, s) →
  ∀ env' fname', _Message_DebugEnabled fnmatch env' fname' s = _Message_DebugEnabled fnmatch env fname' no_patterns.
Proof.
  unfold _Message_DebugEnabled at 1. cbn [parsed no_patterns]. destruct (parse_patterns env) as [s1|] eqn:Hp; [|done].
  cbn [mbind option_bind]. intros Hs env' fname'.
  assert (parsed s1 = true ∧ s = s1) as [Hpd ->].
  { split.
    - unfold parse_patterns in Hp. destruct env as [[|c e]|]; [by injection Hp as <-| |by injection Hp as <-].
      apply bind_Some in Hp as ([? ?] & _ & [= <-]). done.
    - destruct (pat_buf s1); [|by injection Hs]. apply bind_Some in Hs as (? & _ & Hs). by apply bind_Some in Hs as (? & _ & [= _ ->]). }
  unfold _Message_DebugEnabled. rewrite Hpd. cbn [parsed no_patterns]. by rewrite Hp.
Qed.

(** With one or two patterns in [DEBUG], whether a file logs is what the patterns say, and it stays so
    in later calls, whatever has become of the variable.  With three or more, the loop that cuts the
    variable up ends at its first separator and never advances [patOut]: a pointer that was never set is read. *)
Theorem debug_patterns env fname :
  env ≠ [] → no_nul env →
  (fst <$> _Message_DebugEnabled fnmatch (Some env) fname no_patterns =
     if (length (pieces env) <=? 2)%nat then Some (verdict fname (pieces env)) else None) ∧
  ∀ r s, _Message_DebugEnabled fnmatch (Some env) fname no_patterns = Some (r, s) →
    ∀ env' fname', (length (pieces env) ≤ 2)%nat →
      fst <$> _Message_DebugEnabled fnmatch env' fname' s = Some (verdict fname' (pieces env)).
Proof.
  intros Hne Hn. split; [by apply debug_enabled_pieces|]. intros r s Hs env' fname' Hl%Nat.leb_le.
  rewrite (debug_enabled_again _ _ _ _ Hs), debug_enabled_pieces by done. by rewrite Hl.
Qed.
End debug_patterns.

Lemma debug_patterns_witness :
  let fnmatch p s := bool_decide (p = s) in
  fst <$> _Message_DebugEnabled fnmatch (Some (lit "all,^b.cpp")) (lit "net/b.cpp") no_patterns = Some false ∧
  fst <$> _Message_DebugEnabled fnmatch (Some (lit "a.cpp b.cpp c.cpp")) (lit "b.cpp") no_patterns = None.
Proof.
  intros fnmatch. split.
  - apply (debug_patterns fnmatch (lit "all,^b.cpp") (lit "net/b.cpp")); [done|by repeat constructor].
  - apply (debug_patterns fnmatch (lit "a.cpp b.cpp c.cpp") (lit "b.cpp")); [done|by repeat constructor].
Defined.

(** ** Messages and their blobs *)
Lemma message_text_some color sys type pos body : (0 <= type)%Z → is_Some (message_text color sys type pos body).
Proof.
  intros Ht. unfold message_text. cbv zeta. set (n := Z.land type (Z.lnot MSG_PERROR)). assert (0 <= n)%Z as Hn by (apply Z.land_nonneg; by left).
  clearbody n. set (n' := if (MSG_NUM_TYPES <? n)%Z then MSG_NUM_TYPES else n).
  assert (0 <= n' <= 4)%Z as Hn' by (unfold n', MSG_NUM_TYPES; destruct (Z.ltb_spec 4 n); lia). clearbody n'.
  destruct (Z.leb_spec 0 n'); [|lia]. 
  match goal with |- is_Some (mbind _ ?o) => assert (is_Some o) as [[prefix c] ->] by (apply lookup_lt_is_Some_2; cbn; lia) end.
  cbn [mbind option_bind]. by eexists.
Qed.

Lemma free_all_some ps : ∀ heap : gset nat, NoDup ps → list_to_set ps ⊆ heap → free_all ps heap = Some (heap ∖ list_to_set ps).
Proof.
  induction ps as [|p ps IH]; intros heap Hnd Hin; cbn [free_all].
  - f_equal. set_solver.
  - apply NoDup_cons in Hnd as [Hp Hnd]. cbn in Hin. rewrite decide_True by set_solver.
    rewrite IH; [f_equal; set_solver|done|]. intros q Hq. apply elem_of_difference. split; [set_solver|].
    intros ->%elem_of_singleton. by apply elem_of_list_to_set in Hq.
Qed.

(** The deferred blobs are distinct and allocated. *)
Definition deferred_ok (l : logger) : Prop := NoDup (deferredFrees l) ∧ list_to_set (deferredFrees l) ⊆ blobs l.

Lemma message_ok sys type pos body l : (0 <= type)%Z → deferred_ok l →
  ∃ l' line color, _Message sys type pos body l = Ok tt l' ∧ message_text color sys type pos body = Some line ∧
    log l' = log l ++ [line] ∧ deferredFrees l' = [] ∧ blobs l' = blobs l ∖ list_to_set (deferredFrees l).
Proof.
  intros Ht [Hnd Hin]. unfold _Message, Message_VA, bind, _Message_VA. set (color := if (haveColor l =? -1)%Z then _ else _).
  destruct (message_text_some (negb (color =? 0)%Z) sys type pos body Ht) as [line Hline]. rewrite Hline.
  unfold Message_DoFrees. cbn. rewrite free_all_some by done. by eexists _, line, _.
Qed.

Lemma warnings_ok sys pos bt : ∀ l, deferred_ok l → ∃ l', warnings sys pos bt l = Ok tt l'.
Proof.
  induction bt as [|s bt IH]; intros l Hl; [by eexists|]. cbn [warnings]. unfold bind, Warning, MessageFlags.
  destruct (message_ok sys MSG_WARNING (Some pos) s l) as (l' & _ & _ & -> & _ & _ & Hd & _); [done|done|]. apply IH.
  unfold deferred_ok. rewrite Hd. split; [apply NoDup_nil_2|done].
Qed.

Lemma panic_aborts sys bt pos body A l : deferred_ok l → Panic (A := A) sys bt pos body l = Halt assert_failed.
Proof.
  intros Hl. unfold Panic, PanicFlags, _Panic, bind. change (Z.lor MSG_PANIC 0) with MSG_PANIC.
  destruct (message_ok sys MSG_PANIC (Some pos) body l) as (l' & _ & _ & -> & _ & _ & Hd & _); [done|done|].
  destruct (warnings_ok sys panic_position bt l') as [l'' ->]; [|done].
  unfold deferred_ok. rewrite Hd. split; [apply NoDup_nil_2|done].
Qed.

Lemma dfree_all_run sys bt ps : ∀ l,
  NoDup (deferredFrees l ++ ps) → list_to_set (deferredFrees l ++ ps) ⊆ blobs l → length (deferredFrees l) ≤ MAX_DEFERRED_FREES →
  dfree_all sys bt ps l =
  if decide (length (deferredFrees l) + length ps ≤ MAX_DEFERRED_FREES)
  then Ok tt (MkLogger (haveColor l) (log l) (deferredFrees l ++ ps) (blobs l)) else Halt assert_failed.
Proof.
  induction ps as [|p ps IH]; intros l Hnd Hin Hle; cbn [dfree_all].
  { rewrite decide_True by (cbn; lia). rewrite app_nil_r. by destruct l. }
  unfold bind at 1, Message_DFree, bind at 1. destruct (decide (length (deferredFrees l) = MAX_DEFERRED_FREES)) as [Heq|Hne].
  - rewrite panic_aborts, decide_False; [done|cbn [length]; lia|]. split; [by apply NoDup_app in Hnd as [? _]|].
    rewrite list_to_set_app in Hin. set_solver.
  - rewrite IH; cbn [deferredFrees haveColor log blobs]; rewrite <- ?(assoc_L (++)); [|done|done|rewrite length_app; cbn; lia].
    rewrite length_app. cbn [length app]. destruct (decide _), (decide _); try done; lia.
Qed.

(** C36: a statement that logs with up to 16 blobs writes one line and frees its blobs, no more
    and no less, for every type of message with or without [MSG_PERROR]; with more it aborts. *)
Theorem log_statement_frees sys bt ps type pos body l :
  (0 <= type)%Z → deferredFrees l = [] → NoDup ps → list_to_set ps ⊆ blobs l →
  (length ps ≤ 16 → ∃ l' line color, log_statement sys bt ps type pos body l = Ok tt l' ∧
     message_text color sys type pos body = Some line ∧ log l' = log l ++ [line] ∧
     deferredFrees l' = [] ∧ blobs l' = blobs l ∖ list_to_set ps) ∧
  (16 < length ps → log_statement sys bt ps type pos body l = Halt assert_failed).
Proof.
  intros Ht Hd Hnd Hin. unfold log_statement, bind. rewrite dfree_all_run; rewrite Hd; [|done|done|cbn; lia]. cbn [length app Nat.add].
  split; intros Hlen.
  - rewrite decide_True by done. apply (message_ok sys type pos body (MkLogger (haveColor l) (log l) ps (blobs l)) Ht). by split.
  - by rewrite decide_False by (unfold MAX_DEFERRED_FREES; lia).
Qed.

Definition demo_system : system := MkSystem false (Some (MkTm 121 0 31 9 5 7, 123456%Z)) 42 (lit "No such file").
Lemma log_statement_frees_witness :
  (∃ l' line color, log_statement demo_system [] [1; 2] MSG_WARNING None (lit "two blobs") (MkLogger (-1) [] [] {[1; 2; 3]}) = Ok tt l' ∧
     message_text color demo_system MSG_WARNING None (lit "two blobs") = Some line ∧ log l' = [line] ∧
     deferredFrees l' = [] ∧ blobs l' = {[1; 2; 3]} ∖ list_to_set [1; 2]) ∧
  log_statement demo_system [] (seq 0 17) MSG_WARNING None [] (MkLogger (-1) [] [] (list_to_set (seq 0 17))) = Halt assert_failed.
Proof.
  split.
  - refine (proj1 (log_statement_frees demo_system [] [1; 2] MSG_WARNING None (lit "two blobs") (MkLogger (-1) [] [] {[1; 2; 3]}) _ _ _ _) _);
      [done|done|apply (bool_decide_unpack _); by vm_compute|cbn; set_solver|cbn; lia].
  - refine (proj2 (log_statement_frees demo_system [] (seq 0 17) MSG_WARNING None [] (MkLogger (-1) [] [] (list_to_set (seq 0 17))) _ _ _ _) _);
      [done|done|apply NoDup_seq|done|rewrite length_seq; lia].
Defined.

(** The statics are shared by the threads: a message of another thread between the evaluation of a blob and the message that prints it frees the
    blob. *)
Lemma other_thread_frees sys bt p type pos body l :
  (0 <= type)%Z → deferredFrees l = [] → p ∈ blobs l →
  ∃ l', (Message_DFree sys bt (Some p) ;; _Message sys type pos body) l = Ok tt l' ∧ p ∉ blobs l'.
Proof.
  intros Ht Hd Hp. unfold Message_DFree, bind. rewrite Hd, decide_False by done.
  destruct (message_ok sys type pos body (MkLogger (haveColor l) (log l) ([] ++ [p]) (blobs l)) Ht) as (l' & _ & _ & Hr & _ & _ & _ & Hb).
  { split; cbn; [apply NoDup_singleton|set_solver]. }
  exists l'. rewrite Hd. split; [done|]. rewrite Hb. cbn. set_solver.
Qed.

(** ** Debug statements *)

(** The first statement of a file decides for the file: later ones log, or do not, whatever the variable [DEBUG] is then. *)
Lemma debug_decided_once fnmatch sys env env' fname pos body pos' body' d d1 :
  (-1 <= _Message_FileDebugFlag d <= 1)%Z → deferred_ok (d_logger d) → Debug fnmatch sys env fname pos body d = Ok tt d1 →
  ∃ d2, Debug fnmatch sys env' fname pos' body' d1 = Ok tt d2 ∧ _Message_FileDebugFlag d2 = _Message_FileDebugFlag d1 ∧
    length (log (d_logger d2)) = length (log (d_logger d1)) + Z.to_nat (_Message_FileDebugFlag d1).
Proof.
  intros Hflag Hl. unfold Debug, bind, debug_enabled.
  destruct (Message_DebugEnabled fnmatch env fname _ _) as [[[r flag] ps]|] eqn:He; [|done].
  assert (flag = if r then 1 else 0)%Z as ->.
  { unfold Message_DebugEnabled in He. destruct (Z.leb_spec 0 (_Message_FileDebugFlag d)).
    - injection He as <- <- _. destruct (Z.eqb_spec (_Message_FileDebugFlag d) 0); cbn; lia.
    - destruct (_Message_DebugEnabled _ _ _ _) as [[r' ps']|]; [|done]. by injection He as <- <- _. }
  assert (∀ l1, MkDebugger (if r then 1 else 0) ps l1 = d1 → deferred_ok l1 → ∃ d2,
    match Message_DebugEnabled fnmatch env' fname (_Message_FileDebugFlag d1) (d_patterns d1) with
    | Some (r, flag, ps) => (if r then on_logger (MessageFlags sys MSG_DEBUG pos' body') else ret tt) (MkDebugger flag ps (d_logger d1))
    | None => Halt undefined_behaviour
    end = Ok tt d2 ∧ _Message_FileDebugFlag d2 = _Message_FileDebugFlag d1 ∧
    length (log (d_logger d2)) = length (log (d_logger d1)) + Z.to_nat (_Message_FileDebugFlag d1)) as Hsecond.
  { intros l1 <- Hl1. unfold Message_DebugEnabled. cbn [_Message_FileDebugFlag d_patterns d_logger]. destruct r; cbn -[Z.add].
    - unfold on_logger, MessageFlags. cbn [d_logger].
      destruct (message_ok sys MSG_DEBUG (Some pos') body' l1) as (l2 & line & color & -> & _ & Hlog & _); [done|done|].
      eexists. split; [done|]. split; [done|]. cbn. rewrite Hlog, length_app. cbn. lia.
    - eexists. split; [done|]. split; [done|]. cbn. lia. }
  destruct r; [|intros [= <-]; by eapply Hsecond].
  unfold on_logger, MessageFlags. cbn [d_logger].
  destruct (message_ok sys MSG_DEBUG (Some pos) body (d_logger d)) as (l1 & line & color & -> & _ & Hlog & Hd & _); [done|done|].
  intros [= <-]. eapply Hsecond; [done|]. split; rewrite Hd; [apply NoDup_nil_2|done].
Qed.
