(* ===== verification/Programs.v ===== *)
(** * The two programs (client/main.cpp, server/main.cpp)

    The client: the scripts that [test] writes and reads, the timers, the rounds of [benchmark_upserts], the work
    of a client fiber on a swap space, and the checks of [main].  The server: the checks of
    [main] and the address its thread serves.  The random draws are a list. *)
From Stdlib Require Import ZArith QArith.QArith_base Lia Ascii String.
From stdpp Require Import prelude gmap.
From S2P Require Import Prelude StdMap Message NodeStore BeTree Iterator Serialize BackingStore SwapSpace Driver FKey Config.

#[local] Open Scope cpp_scope.

(** ** Scripts *)

(** [%s] of [scanf]: a word, up to white space or the end of the input; [None] at the end. *)
Definition scan_word (s : text) : option (text * text) :=
  match span (λ c, negb (is_space c)) (skip_ws s) with
  | ([], _) => None
  | (w, rest) => Some (w, rest)
  end.

Inductive scanned :=
  | at_end                                   (* EOF *)
  | exits (code : Z)
  | overrun                                  (* a word does not fit its array *)
  | command (op : Z) (arg rest : text).

Definition is_word (w : text) (s : string) : bool := bool_decide (c_str w = lit s).

(** The comparisons of the command, once it and its argument are read. *)
Definition dispatch (w arg rest : text) : scanned :=
  if is_word w "Inserting" then command 0 arg rest
  else if is_word w "Updating" then command 1 arg rest
  else if is_word w "Deleting" then command 2 arg rest
  else if is_word w "Query" then
    match skip_ws rest with
    | c1 :: c2 :: rest =>
        if Ascii.eqb c1 "-" && Ascii.eqb c2 ">" then
          match scan_word rest with
          | None => exits 3
          | Some (v, rest) => if (64 <=? length v)%nat then overrun else command 3 arg rest
          end
        else exits 3
    | _ => exits 3
    end
  else if is_word w "Full_scan" then command 4 arg rest
  else if is_word w "Lower_bound_scan" then command 5 arg rest
  else if is_word w "Upper_bound_scan" then command 6 arg rest
  else exits 1.

(** The arrays are [command[64]] and [ck[256]] of the caller. *)
Definition next_command (input : text) : scanned :=
  match scan_word input with
  | None => at_end
  | Some (w, rest) =>
      if (64 <=? length w)%nat then overrun else
      match scan_word rest with
      | None => exits 3
      | Some (arg, rest) => if (256 <=? length arg)%nat then overrun else dispatch w arg rest
      end
  end.

(** What [test] writes to its script for a command; [found] is what the query returned. *)
Definition script_line (op : Z) (t : text) (found : option text) : text :=
  if (op =? 0)%Z then lit "Inserting " ++ c_str t ++ endl
  else if (op =? 1)%Z then lit "Updating " ++ c_str t ++ endl
  else if (op =? 2)%Z then lit "Deleting " ++ c_str t ++ endl
  else if (op =? 3)%Z then
    match found with
    | Some bval => lit "Query " ++ c_str t ++ lit " -> " ++ c_str bval ++ endl
    | None => lit "Query " ++ c_str t ++ lit " -> DNE" ++ endl
    end
  else if (op =? 4)%Z then lit "Full_scan 0" ++ endl
  else if (op =? 5)%Z then lit "Lower_bound_scan " ++ c_str t ++ endl
  else lit "Upper_bound_scan " ++ c_str t ++ endl.

(** How the commands of a script end. *)
Inductive ending :=
  | all_read
  | exited (code : Z)
  | undefined.

(** The commands that the loop of [test] takes from its script.  At the end of the script [std::string(ck)] is
    built before the result of [next_command] is looked at; [ck] is then not initialised, [junk] is what it
    holds. *)
Fixpoint script_commands (junk : text) (nops : nat) (input : text) : list (Z * text) * ending :=
  match nops with
  | O => ([], all_read)
  | S nops' =>
      match next_command input with
      | at_end => ([], if bool_decide (nul ∈ junk) then exited 0 else undefined)
      | exits code => ([], exited code)
      | overrun => ([], undefined)
      | command op arg rest => let '(cs, e) := script_commands junk nops' rest in ((op, c_str arg) :: cs, e)
      end
  end.

(** ** Timers *)
Record timeval := MkTimeval { tv_sec : Z; tv_usec : Z }.
Definition timer_start (timer : Z) (t : timeval) : Z := wrap64 (timer - (1000000 * tv_sec t + tv_usec t)).
Definition timer_stop (timer : Z) (t : timeval) : Z := wrap64 (timer + (1000000 * tv_sec t + tv_usec t)).

(** ** A client fiber *)
Definition TEST_CACHE_SIZE : Z := 4.
Definition TEST_NOPS : nat := Z.to_nat (2 ^ 12).

(** What [usage] prints; nothing calls it. *)
Definition TEST_NDISTINCT_KEYS : Z := 2 ^ 10.
Definition usage (name : text) : text :=
  lit "Usage: " ++ c_str name ++ lit " [OPTIONS]" ++ endl ++
  lit "Tests the betree implementation" ++ endl ++
  endl ++
  lit "Options are" ++ endl ++
  lit "  Required:" ++ endl ++
  lit "    -d <backing_store_directory>                    [ default: none, parameter is required ]" ++ endl ++
  lit "    -m  <mode>  (test or benchmark-<mode>)          [ default: none, parameter required ]" ++ endl ++
  lit "        benchmark modes:" ++ endl ++
  lit "          upserts    " ++ endl ++
  lit "          queries    " ++ endl ++
  lit "  Betree tuning parameters:" ++ endl ++
  lit "    -N <max_node_size>            (in elements)     [ default: " ++ print_Z TEST_MAX_NODE_SIZE ++ lit " ]" ++ endl ++
  lit "    -f <min_flush_size>           (in elements)     [ default: " ++ print_Z TEST_MIN_FLUSH_SIZE ++ lit " ]" ++ endl ++
  lit "    -C <max_cache_size>           (in betree nodes) [ default: " ++ print_Z TEST_CACHE_SIZE ++ lit " ]" ++ endl ++
  lit "  Options for both tests and benchmarks" ++ endl ++
  lit "    -k <number_of_distinct_keys>                    [ default: " ++ print_Z TEST_NDISTINCT_KEYS ++ lit " ]" ++ endl ++
  lit "    -t <number_of_operations>                       [ default: " ++ print_Z (Z.of_nat TEST_NOPS) ++ lit " ]" ++ endl ++
  lit "    -s <random_seed>                                [ default: random ]" ++ endl ++
  lit "  Test scripting options" ++ endl ++
  lit "    -o <output_script>                              [ default: no output ]" ++ endl ++
  lit "    -i <script_file>                                [ default: none ]" ++ endl.

Section fiber.
Context {K : Type} `{KeyOps K} `{KeyNew K} (key : text → K).

Section rounds.
Context {St : Type} `{StoreOps St (node K text)}.

(** [rounds] rounds of [per] updates; the timers are below. *)
Fixpoint upsert_rounds (fuel rounds per : nat) (bet : betree text) (draws : list text) : M St (betree text) :=
  match rounds with
  | O => ret bet
  | S rounds' =>
      let! bet := benchmark_updates key fuel bet (take per draws) in
      upsert_rounds fuel rounds' per bet (drop per draws)
  end.
Definition benchmark_upserts (fuel : nat) (bet : betree text) (nops : nat) (draws : list text) : M St (betree text) :=
  upsert_rounds fuel 100 (nops / 100) bet draws.
End rounds.

(** The times that [benchmark_upserts] prints: of each round, and their sum. *)
Definition round_time (clock : timeval * timeval) : Z := timer_stop (timer_start 0 clock.1) clock.2.
Definition overall_time (clocks : list (timeval * timeval)) : Z := foldl (λ t c, wrap64 (t + round_time c)) 0%Z clocks.

Context `{Codec (node K text)}.

(** [betree::evict_all] *)
Definition betree_evict_all : M (swap_space (node K text)) unit := evict_all.

(** [client_fiber_func] on the swap space it makes. *)
Definition client_fiber_func (benchmark : text) (fuel nops : nat) (draws : list text) : M (swap_space (node K text)) (betree text) :=
  let! b := client_tree in
  let! b := (if bool_decide (benchmark = lit "benchmark-upserts") then benchmark_upserts fuel b nops draws
             else if bool_decide (benchmark = lit "benchmark-queries") then benchmark_queries key fuel b (take nops draws)
             else ret b) in
  betree_evict_all ;;
  ret b.
End fiber.

(** ** [main] *)

(** The flags of common/gflags.hpp, in the order of the file, with their defaults; integers are in the range of their types. *)
Record flags := MkFlags {
  configFile : text;
  backingStoreDir : text;
  benchmark : text;
  serverIndex : Z;                           (* int32 *)
  keysFile : text;
  shardIndex : Z;                            (* uint32 *)
  numKeys : Z;                               (* uint64 *)
  numShards : Z;
  numServerThreads : Z;
  logPath : text;
  numClientThreads : Z;
  numClientFibers : Z;
  secondsFromEpoch : Z;                      (* uint64 *)
  duration : Z;
  warmup : Z;
  tLen : Z;
  wPer : Z;
  closestServer : Z;                         (* int32 *)
  zipf : Q;                                  (* double *)
  ncpu : Z;
  nhost : Z;
  skew : Z;
  error : Z;
  clientIP : text;
  physPort : Z;
}.
Definition default_flags : flags :=
  MkFlags [] [] [] (-1) [] 0 1000000 1 1 (lit "/mnt/log") 1 1 0 10 3 10 50 (-1) (-1) 0 0 0 0 [] 0.
(** The flags that the programs read, given on the command line; the others keep their defaults. *)
Definition given_flags (configFile backingStoreDir benchmark : text) (serverIndex : Z) (clientIP : text)
    (numServerThreads numClientThreads numClientFibers physPort : Z) : flags :=
  MkFlags configFile backingStoreDir benchmark serverIndex [] 0 1000000 1 numServerThreads (lit "/mnt/log")
    numClientThreads numClientFibers 0 10 3 10 50 (-1) (-1) 0 0 0 0 clientIP physPort.

Inductive start (A : Type) :=
  | exit_failure                             (* return EXIT_FAILURE *)
  | bad_configuration (e : parse_error)
  | still_reading                            (* the fuel is used up *)
  | out_of_bounds                            (* undefined behaviour *)
  | panicked                                 (* Panic *)
  | started (a : A).
Arguments exit_failure {A}.
Arguments bad_configuration {A} e.
Arguments still_reading {A}.
Arguments out_of_bounds {A}.
Arguments panicked {A}.
Arguments started {A} a.

Definition start_bind {A B} (m : start A) (k : A → start B) : start B :=
  match m with
  | started a => k a
  | exit_failure => exit_failure
  | bad_configuration e => bad_configuration e
  | still_reading => still_reading
  | out_of_bounds => out_of_bounds
  | panicked => panicked
  end.

(** [Configuration(std::ifstream &)] reads until [eof()].  A stream that could not be opened ([None]) fails without ever
    being at its end: [getline] leaves an empty line. *)
Fixpoint configuration_loop (fuel : nat) (stream : option (list text)) (acc : list ServerAddress) : start (list ServerAddress) :=
  match stream with
  | Some [] => started acc
  | _ =>
      match fuel with
      | O => still_reading
      | S fuel' =>
          let '(line, stream') := match stream with
                                  | Some (l :: ls) => (l, Some ls)
                                  | _ => ([], stream)
                                  end in
          match parse_line line with
          | inl e => bad_configuration e
          | inr a => configuration_loop fuel' stream' (acc ++ a)
          end
      end
  end.
Definition load_configuration (fuel : nat) (file : option text) : start Configuration :=
  start_bind (configuration_loop fuel (file_lines <$> file) []) (λ servers,
    let n := to_int (Z.of_nat (length servers)) in
    if (n =? 0)%Z then bad_configuration no_servers else started (MkConfiguration n servers None false)).

(** The client's [main] up to its threads: the fibers that they start, by number, with the configuration. *)
Definition fiber_ids (f : flags) : list Z :=
  flat_map (λ thread_id : nat, (λ i : nat, to_int (Z.of_nat thread_id * numClientFibers f + Z.of_nat i)) <$> seq 0 (Z.to_nat (numClientFibers f)))
    (seq 0 (Z.to_nat (numClientThreads f))).
Definition client_main (fuel : nat) (f : flags) (file : option text) : start (Configuration * list Z) :=
  if bool_decide (configFile f = []) then exit_failure
  else if bool_decide (benchmark f = []) then exit_failure
  else if bool_decide (backingStoreDir f = []) then exit_failure
  else if bool_decide (clientIP f = []) then exit_failure
  else start_bind (load_configuration fuel file) (λ config, started (config, fiber_ids f)).

(** The server's [main] and the first lines of [server_thread_func]: the host that the transport listens on.  An index
    that is too large is reported and used all the same.  [numa_available] is what libnuma answers. *)
Definition server_main (numa_available : Z) (fuel : nat) (f : flags) (file : option text) : start (Configuration * text) :=
  if bool_decide (configFile f = []) then exit_failure
  else if (serverIndex f =? -1)%Z then exit_failure
  else start_bind (load_configuration fuel file) (λ config,
    if (numa_available =? -1)%Z then panicked else
    match GetServerAddress config (serverIndex f) with
    | Some a => started (config, host a)
    | None => out_of_bounds
    end).
