(* ===== verification/Requests.v ===== *)
(** * What a swap space asks of its storage client

    Every request that the swap space sends while programs run on it fits its message: the id is one it gave out, and the
    text of a node fits the buffer of [EvictNode]. *)
From Stdlib Require Import ZArith Lia Ascii String.
From stdpp Require Import prelude gmap.
From S2P Require Import Prelude StdMap Message NodeStore BeTree Iterator Serialize BackingStore SwapSpace Driver StoreFrame Programs.

#[local] Open Scope cpp_scope.

(** ** The requests that a swap space makes *)
Definition request_ok (r : request) : Prop :=
  match r with
  | GetNodeId => True
  | EvictNode id buffer => (id < 2 ^ 64)%N ∧ length buffer ≤ EVICT_BUFFER
  end.

Section requests.
Context {node : Type} `{Codec node} `{Links node}.
Notation S := (swap_space node).
Implicit Types (s : S).

Definition requests_ok s : Prop := Forall request_ok (sc s) ∧ ∀ i, is_Some (objects s !! i) → (i < 2 ^ 64)%N.

Lemma keeps_ss_get : keeps requests_ok (get (node := node)).
Proof. by intros s. Qed.
Lemma keeps_ss_modify f : (∀ s, sc (f s) = sc s) → (∀ s, objects (f s) = objects s) → keeps requests_ok (modify (node := node) f).
Proof. intros Hsc Ho s [Hr Hi]. cbn. split; [by rewrite Hsc|by rewrite Ho]. Qed.
Lemma keeps_on_backstore {A} (m : M backing_store A) : keeps requests_ok (on_backstore (node := node) m).
Proof. intros s Hs. unfold on_backstore. by destruct (m (backstore s)). Qed.
Lemma keeps_put_object id o : (id < 2 ^ 64)%N → keeps requests_ok (put_object (node := node) id o).
Proof.
  intros Hid s [Hr Hi]. split; [done|]. cbn. intros i. destruct (decide (id = i)) as [->|Hne]; [done|].
  rewrite lookup_insert_ne by done. apply Hi.
Qed.
(** An object that is found has an id that was given out. *)
Lemma keeps_object_at {A} id (k : object node → M S A) : (∀ o, (id < 2 ^ 64)%N → keeps requests_ok (k o)) →
  keeps requests_ok (let! o := object_at id in k o).
Proof.
  intros Hk s Hs. unfold bind, object_at. destruct (objects s !! id) as [o|] eqn:Ho; [|done]. apply Hk; [|done]. apply Hs. eauto.
Qed.
Lemma keeps_check_pointers n : keeps requests_ok (check_pointers (node := node) n).
Proof. intros s Hs. unfold check_pointers. by destruct (pointers_live n s). Qed.
Lemma keeps_counted {A} z (k : Z → M S A) : (∀ c, (c < 2 ^ 64)%Z → keeps requests_ok (k c)) → keeps requests_ok (let! c := count64 z in k c).
Proof.
  intros Hk s Hs. unfold bind, count64, UINT64_MAX. destruct (Z.ltb_spec z (2 ^ 64 - 1)); [|done]. apply Hk; [lia|done].
Qed.
Lemma keeps_log r : request_ok r → keeps requests_ok (modify (node := node) (λ s, set_sc (sc s ++ [r]) s)).
Proof. intros Hr s [Hs Hi]. split; [|done]. cbn. apply Forall_app. split; [done|by apply Forall_singleton]. Qed.

Hint Resolve keeps_ss_get keeps_on_backstore keeps_put_object keeps_check_pointers keeps_log : betree.
Ltac send :=
  repeat first
    [ solve [ eauto 3 with betree ]
    | apply keeps_ss_modify; done
    | apply keeps_object_at; intros ? ?
    | apply keeps_counted; intros ? ?
    | apply keeps_bind; [|intros ?]
    | match goal with |- keeps _ (match ?x with _ => _ end) => destruct x end ].

Lemma keeps_evict_node id buffer : (id < 2 ^ 64)%N → keeps requests_ok (evict_node (node := node) id buffer).
Proof.
  intros Hid. unfold evict_node. destruct (Z.leb_spec (Z.of_nat (length buffer)) (Z.of_nat EVICT_BUFFER)); [|apply keeps_halt].
  apply keeps_log. split; [done|lia].
Qed.
Hint Resolve keeps_evict_node : betree.
Lemma keeps_write_back id : keeps requests_ok (write_back (node := node) id).
Proof. unfold write_back. send. Qed.
Hint Resolve keeps_write_back : betree.
Lemma keeps_evict_object id : keeps requests_ok (evict_object (node := node) id).
Proof. unfold evict_object. send. Qed.
Hint Resolve keeps_evict_object : betree.
Lemma keeps_evict_loop limit fuel : keeps requests_ok (evict_loop (node := node) fuel limit).
Proof. induction fuel as [|fuel IH]; cbn [evict_loop]; send. Qed.
Hint Resolve keeps_evict_loop : betree.
Lemma keeps_maybe_evict : keeps requests_ok (maybe_evict_something (node := node)).
Proof. unfold maybe_evict_something. send. Qed.
Lemma keeps_evict_all : keeps requests_ok (evict_all (node := node)).
Proof. unfold evict_all. send. Qed.
Lemma keeps_load id : keeps requests_ok (load (node := node) id).
Proof. unfold load. send. Qed.
Hint Resolve keeps_maybe_evict keeps_load : betree.

Lemma to_N_small c : (c < 2 ^ 64)%Z → (Z.to_N c < 2 ^ 64)%N.
Proof. lia. Qed.
Hint Resolve to_N_small : betree.
Lemma keeps_allocate n : keeps requests_ok (allocate (node := node) n).
Proof. unfold allocate. apply keeps_bind; [apply keeps_ss_get|intros s]. send. by apply keeps_log. Qed.

Lemma keeps_dopin p : keeps requests_ok (dopin (node := node) p).
Proof. unfold dopin. send. Qed.
Lemma keeps_access p d : keeps requests_ok (access (node := node) p d).
Proof. unfold access. send. Qed.
Lemma keeps_unpin p : keeps requests_ok (unpin (node := node) p).
Proof. unfold unpin. send. Qed.
Lemma keeps_delete p : keeps requests_ok (modify (node := node) (λ s, set_objects (delete p (objects s)) s)).
Proof. intros s [Hr Hi]. split; [done|]. cbn. intros i [o [_ Ho]%lookup_delete_Some]. apply Hi. eauto. Qed.
Hint Resolve keeps_delete : betree.
Lemma keeps_depoint fuel : ∀ p, keeps requests_ok (depoint (node := node) fuel p).
Proof.
  induction fuel as [|fuel IH]; intros p; cbn [depoint]; send.
  match goal with |- keeps _ (foldr _ _ ?xs) => generalize xs end. intros ps. induction ps as [|q ps IHps]; cbn [foldr]; send.
Qed.
Hint Resolve keeps_allocate keeps_dopin keeps_access keeps_unpin : betree.

Lemma swap_space_framed : store_framed (St := S) (node := node) requests_ok.
Proof.
  split; intros; cbn [st_enter st_leave st_deref st_update st_allocate st_release st_is_dirty st_is_in_memory swap_space_ops].
  - send.
  - send.
  - intros s Hs. unfold deref. destruct (objects s !! p) as [o|]; [|done]. by destruct (o_target o).
  - unfold SwapSpace.update. send.
  - send.
  - intros s Hs. by apply (keeps_depoint (Datatypes.S (size (objects s))) p).
  - unfold is_dirty. send.
  - unfold is_in_memory. send.
Qed.
End requests.

(** ** A fiber's requests *)
Section fiber.
Context {K : Type} `{KeyOps K} `{KeyNew K} (key : text → K) `{Codec (node K text)}.
Notation St := (swap_space (node K text)).
Notation ok := (requests_ok (node := node K text)).
Let framed : store_framed (St := St) (node := node K text) ok := swap_space_framed.

Lemma keeps_updates fuel draws : ∀ bet : betree text, keeps ok (benchmark_updates key fuel bet draws).
Proof.
  induction draws as [|t draws IH]; intros bet; [apply keeps_ret|]. apply keeps_bind; [|intros b; apply IH].
  by apply keeps_upsert.
Qed.
Lemma keeps_rounds fuel rounds per : ∀ (bet : betree text) draws, keeps ok (upsert_rounds key fuel rounds per bet draws).
Proof.
  induction rounds as [|rounds IH]; intros bet draws; [apply keeps_ret|]. apply keeps_bind; [apply keeps_updates|intros b; apply IH].
Qed.
Lemma keeps_queries fuel draws (bet : betree text) : keeps ok (benchmark_queries key fuel bet draws).
Proof.
  apply keeps_bind; [apply keeps_updates|intros b]. apply keeps_bind; [|intros _; apply keeps_ret].
  induction draws as [|t draws IH]; [apply keeps_ret|]. apply keeps_bind; [by apply keeps_query|intros _; exact IH].
Qed.
Lemma keeps_fiber flag fuel nops draws : keeps ok (client_fiber_func key flag fuel nops draws).
Proof.
  apply keeps_bind; [by apply keeps_new_betree|intros b]. apply keeps_bind; [|intros b']; [|apply keeps_bind; [apply keeps_evict_all|intros _; apply keeps_ret]].
  case_bool_decide; [apply keeps_rounds|]. case_bool_decide; [apply keeps_queries|apply keeps_ret].
Qed.
End fiber.
