(* ===== verification/Traffic.v ===== *)
(** * From the swap space to the storage server and back

    The requests of a swap space, sent through its [StorageClient] and the transport, are all answered: the calls that the
    components are modelled with on each side fit together. *)
From Stdlib Require Import ZArith Lia Ascii String.
From stdpp Require Import prelude gmap.
From S2P Require Import Prelude StdMap Message NodeStore BeTree Iterator Serialize BackingStore SwapSpace Driver Programs Requests.
From S2P Require Import Concrete Config StorageRpc StorageRpcProof Transport TransportProof TransportCalls StorageClient TransportFrame ClientCalls Loopback.

#[local] Open Scope cpp_scope.
#[local] Open Scope Z_scope.

(** The characters of a text as the message carries them. *)
Definition text_bytes (t : text) : bytes := (λ c, Z.of_N (N_of_ascii c)) <$> t.

Section traffic.
Context {R : Type} `{RpcOk R}.
Notation T := (transport R client).
Implicit Types (t : T).

(** The calls of [swap_space]: [sc->GetNodeId] with 0, 0 and an empty string and [sc->EvictNode(0, 0, obj->id, buffer)], whose results it does not use. *)
Definition send_request (yield : M T unit) (fuel : nat) (y : receiver) (r : SwapSpace.request) : M T unit :=
  match r with
  | SwapSpace.GetNodeId => let! _ := GetNodeId yield fuel y 0 0 in ret tt
  | SwapSpace.EvictNode id buffer => let! _ := EvictNode yield fuel y 0 0 (Z.of_N id) (text_bytes buffer) in ret tt
  end.
Fixpoint send_requests (yield : M T unit) (fuel : nat) (y : receiver) (rs : list SwapSpace.request) : M T unit :=
  match rs with
  | [] => ret tt
  | r :: rs' => send_request yield fuel y r ;; send_requests yield fuel y rs'
  end.

(** A message and its answer that carry a request of the swap space. *)
Definition carries (r : SwapSpace.request) (m : bytes * bytes) : Prop :=
  match r with
  | SwapSpace.GetNodeId => answered getNodeIdReqType m.1 m.2
  | SwapSpace.EvictNode id buffer => answered evictNodeReqType m.1 m.2 ∧ peek64 m.1 8 = Z.of_N id ∧
      peek m.1 16 (length buffer) = text_bytes buffer
  end.

Hypothesis expected_events : ∀ r : R, rpc_inv r → Forall expected (poll r).1.
Hypothesis sessions_open : ∀ (r : R) uri i, rpc_inv r → 0 <= (create_session r uri i).1.
Hypothesis storage_server : ∀ ty req resp, answered ty req resp → server_answer ty req resp.
Hypothesis storage_handlers : handled getNodeIdReqType ∧ handled evictNodeReqType.

(** ** Room for one more request *)

(** Each receiver has one request in flight at most. *)
Lemma outstanding_bound t : t_inv t [] → single t → (length (outstanding t) ≤ size (objects t))%nat.
Proof.
  intros Ht Hs. pose (f (x : tag) := from_option src 0%nat (tags t !! x)).
  assert (∀ x, x ∈ outstanding t → ∃ rt, tags t !! x = Some rt ∧ is_Some (objects t !! src rt) ∧ is_Some (lent (rpc t) !! x)) as Hx.
  { intros x Hin. apply outstanding_elem in Hin as [l Hl]. destruct (ti_loan _ _ Ht x l Hl) as (rt & ? & _ & _ & _ & ?). eauto. }
  rewrite <- (length_fmap f), <- size_dom. unfold size, set_size. cbn. apply submseteq_length, NoDup_submseteq.
  - apply NoDup_fmap_2_strong; [|apply outstanding_nodup]. intros x x' Hin Hin' Heq. unfold f in Heq.
    destruct (Hx x Hin) as (rt & Hrt & _ & Hl), (Hx x' Hin') as (rt' & Hrt' & _ & Hl'). rewrite Hrt, Hrt' in Heq. by apply (Hs x x' rt rt').
  - intros z (x & -> & Hin)%list_elem_of_fmap. destruct (Hx x Hin) as (rt & Hrt & Ho & _). unfold f. rewrite Hrt. cbn.
    by apply elem_of_elements, elem_of_dom.
Qed.

Context (cfg : Configuration) (clients : nat).
Hypothesis few_clients : Z.of_nat clients < 2 ^ 63 - 1.
Definition undisturbed t : Prop := config t = cfg ∧ (size (objects t) ≤ clients)%nat.

Lemma undisturbed_framed : framed undisturbed.
Proof.
  split; try done. intros t x o o' Ho [Hc Hn]. split; [done|]. cbn. rewrite map_size_insert_Some; [done|eauto].
Qed.

Lemma returned_ready t y c : returned t y c → undisturbed t → ready t y c.
Proof.
  intros [Hi Hs Hid Ho] [_ Hn]. split; try done. pose proof (outstanding_bound t Hi Hs). lia.
Qed.

(** ** The calls return *)
Section calls.
Context (yield : M T unit) (y : receiver).
Hypothesis Hfibers : fibers_ok yield y.
Hypothesis Hyield : keeps undisturbed yield.
Hypothesis Hserver : server_known cfg 0.

Lemma request_returns t c r : ready t y c → undisturbed t → request_ok r →
  (∃ t', ∀ fuel, send_request yield fuel y r t = Throw runtime_error t') ∨
  ∃ N m t' c', (∀ fuel, (N ≤ fuel)%nat → send_request yield fuel y r t = Ok tt t') ∧ carries r m ∧
    peek64 m.1 0 = wrap64 (lastReqId c + 1) ∧ lastReqId c' = wrap64 (lastReqId c + 1) ∧ ready t' y c' ∧ undisturbed t'.
Proof.
  intros Hrd Hst Hr. pose proof Hst as [Hcfg _]. destruct r as [|id buffer]; cbn [send_request].
  - destruct (get_node_id_ok expected_events sessions_open storage_server storage_handlers yield t y c 0 0 Hrd) as
      [[t' Ht]|(N & r & t' & req & resp & Hrun & Ha & Hnr & Hr' & _ & Hret)]; [by rewrite Hcfg|done|left|right].
    + exists t'. intros fuel. unfold bind. by rewrite Ht.
    + assert (undisturbed t') as Hst'.
      { eapply (keeps_ok _ _ t); [by apply (keeps_GetNodeId _ undisturbed_framed)|done|by apply (Hrun N)]. }
      exists N, (req, resp), t'. eexists. split_and!; [|done|done| |by apply returned_ready|done]; [|done].
      intros fuel Hf. unfold bind. by rewrite Hrun.
  - destruct Hr as [Hid Hlen].
    assert (length (text_bytes buffer) ≤ EVICT_DATA)%nat as Hlen' by (unfold text_bytes; rewrite length_fmap; exact Hlen).
    destruct (evict_node_ok expected_events sessions_open storage_server storage_handlers yield t y c 0 0 (Z.of_N id) (text_bytes buffer) Hrd) as
      [[t' Ht]|(N & t' & req & resp & Hrun & Ha & Hnr & Hni & Htx & Hret)]; [by rewrite Hcfg|done|done|lia|left|right].
    + exists t'. intros fuel. unfold bind. by rewrite Ht.
    + assert (undisturbed t') as Hst'.
      { eapply (keeps_ok _ _ t); [by apply (keeps_EvictNode _ undisturbed_framed)|done|by apply (Hrun N)]. }
      exists N, (req, resp), t'. eexists. split_and!; [| |done| |by apply returned_ready|done]; [| |done].
      * intros fuel Hf. unfold bind. by rewrite Hrun.
      * split_and!; [done|done|]. unfold text_bytes in *. by rewrite length_fmap in Htx.
Qed.

Lemma requests_return rs : ∀ t c, ready t y c → undisturbed t → Forall request_ok rs →
  ∃ N, ∀ fuel, (N ≤ fuel)%nat →
  match send_requests yield fuel y rs t with
  | Ok _ t' => ∃ ms c', Forall2 carries rs ms ∧ (∀ i m, ms !! i = Some m → peek64 m.1 0 = wrap64 (lastReqId c + Z.of_nat i + 1)) ∧ ready t' y c'
  | Throw e _ => e = runtime_error
  | Halt _ => False
  end.
Proof.
  induction rs as [|r rs IH]; intros t c Hrd Hst Hrs.
  { exists 0%nat. intros fuel _. exists [], c. split_and!; [constructor|by intros i m|done]. }
  apply Forall_cons_1 in Hrs as [Hr Hrs].
  destruct (request_returns t c r Hrd Hst Hr) as [[t' Ht]|(N & m & t1 & c1 & Hrun & Hm & Hnr & Hlast & Hrd1 & Hst1)].
  { exists 0%nat. intros fuel _. cbn. unfold bind. by rewrite Ht. }
  destruct (IH t1 c1 Hrd1 Hst1 Hrs) as [N' Hrest]. exists (N `max` N')%nat. intros fuel Hf. specialize (Hrest fuel ltac:(lia)).
  cbn. unfold bind. rewrite (Hrun fuel ltac:(lia)). destruct (send_requests yield fuel y rs t1) as [u t'|e t'|]; [|done..].
  destruct Hrest as (ms & c' & Hms & Hnrs & Hrd'). exists (m :: ms), c'. split_and!; [by constructor| |done].
  intros [|i] m'; cbn; [intros [= <-]; rewrite Hnr; f_equal; lia|]. intros Hi. rewrite (Hnrs i m' Hi), Hlast.
  unfold wrap64. rewrite <- Z.add_assoc, Z.add_mod_idemp_l by done. f_equal. lia.
Qed.
End calls.

(** C7: everything that a fiber's swap space asks of the storage server while the fiber runs its benchmark, from its first node to
    [evict_all], is answered by the server: sent in order through the fiber's client over the
    transport, whatever the other fibers of the thread do meanwhile, each call returns after enough passes of the event loop, with a
    message that carries the request (the whole text of the node, its id, a number of its own) and the server's answer to it.  Only a lack of memory
    for message buffers throws. *)
Theorem fiber_traffic_answered {K : Type} `{KeyOps K} `{Iterator.KeyNew K} `{Codec (node K text)}
    (key : text → K) (s s' : swap_space (node K text)) b flag fuel0 nops draws yield y t c :
  sc s = [] → SwapSpace.objects s = ∅ → client_fiber_func key flag fuel0 nops draws s = Ok b s' →
  ready t y c → undisturbed t → fibers_ok yield y → keeps undisturbed yield → server_known cfg 0 →
  ∃ N, ∀ fuel, (N ≤ fuel)%nat →
  match send_requests yield fuel y (sc s') t with
  | Ok _ t' => ∃ ms c', Forall2 carries (sc s') ms ∧
      (∀ i m, ms !! i = Some m → peek64 m.1 0 = wrap64 (lastReqId c + Z.of_nat i + 1)) ∧ ready t' y c'
  | Throw e _ => e = runtime_error
  | Halt _ => False
  end.
Proof.
  intros Hsc Ho Hrun Hrd Hst Hfib Hy Hsrv. apply requests_return; try done.
  assert (requests_ok s') as [Hok _]; [|exact Hok]. eapply keeps_ok; [apply keeps_fiber| |done].
  split; [by rewrite Hsc|]. intros i. rewrite Ho, lookup_empty. by intros [? ?].
Qed.
End traffic.

(** ** A run *)
Definition demo_fiber : betree text * store :=
  result (no_tree, fresh_store 4)
    (client_fiber_func number (lit "benchmark-queries") 20 3 [lit "7"; lit "9"; lit "7"] (fresh_store 4)).

Lemma fiber_traffic_answered_witness :
  length (sc demo_fiber.2) = 2%nat ∧
  ∃ N, ∀ fuel, (N ≤ fuel)%nat →
  match send_requests run_event_loop_once fuel 5%nat (sc demo_fiber.2) demo_net with
  | Ok _ t' => ∃ ms c', Forall2 carries (sc demo_fiber.2) ms ∧
      (∀ i m, ms !! i = Some m → peek64 m.1 0 = wrap64 (lastReqId demo_client + Z.of_nat i + 1)) ∧ ready t' 5%nat c'
  | Throw e _ => e = runtime_error
  | Halt _ => False
  end.
Proof.
  split; [by vm_compute|].
  refine (fiber_traffic_answered loop_expected loop_sessions_open (λ _ _ _ H, H) (conj eq_refl eq_refl) demo_cfg 1 _
    number (fresh_store 4) demo_fiber.2 demo_fiber.1 (lit "benchmark-queries") 20 3 [lit "7"; lit "9"; lit "7"] run_event_loop_once 5%nat demo_net demo_client
    _ _ _ demo_ready _ (fibers_ok_polling loop_expected 5) _ demo_server_known).
  - lia.
  - reflexivity.
  - reflexivity.
  - unfold demo_fiber. apply (ok_result (no_tree, fresh_store 4)). by vm_compute.
  - split; [reflexivity|]. by vm_compute.
  - apply keeps_event_loop, undisturbed_framed.
Defined.
