(* ===== verification/ProgramsProof.v ===== *)
(** * Properties of the two programs

    A script that [test] wrote is read back as the same commands; a client fiber ends with every key it
    updated in its tree; the server listens on its own address. *)
From Stdlib Require Import ZArith Lia Ascii String.
From stdpp Require Import prelude gmap.
From S2P Require Import Prelude StdMap Message NodeStore BeTree Iterator MessageSem Tree Serialize BackingStore SwapSpace SwapSpaceProof.
From S2P Require Import Dictionary Driver DriverProof FKey Config ConfigProof Concrete Programs.

#[local] Open Scope cpp_scope.

(** ** Scripts *)

(** A word that fits an array of [n] characters with its terminator. *)
Definition word_ok (n : nat) (t : text) : Prop :=
  t ≠ [] ∧ Forall (λ c, is_space c = false ∧ Ascii.eqb c nul = false) t ∧ length t < n.

Definition word_okb (n : nat) (t : text) : bool :=
  negb (bool_decide (t = [])) && forallb (λ c, negb (is_space c) && negb (Ascii.eqb c nul)) t && (length t <? n)%nat.
Lemma word_okb_ok n t : word_okb n t = true → word_ok n t.
Proof.
  unfold word_okb. rewrite !andb_true_iff, negb_true_iff, bool_decide_eq_false, Nat.ltb_lt, forallb_forall.
  intros [[Hne Hc] Hl]. split_and!; [done| |done]. apply Forall_forall. intros c Hin%list_elem_of_In.
  apply Hc in Hin. by rewrite andb_true_iff, !negb_true_iff in Hin.
Qed.

Lemma word_c_str n t : word_ok n t → c_str t = t.
Proof. intros (_ & Ht & _). apply c_str_id. eapply Forall_impl; [done|]. by intros c [_ ?]. Qed.

(** The input ends there or goes on with white space. *)
Definition breaks (s : text) : Prop := match s with [] => True | c :: _ => is_space c = true end.

Lemma scan_word_ok w t rest : ws w → t ≠ [] → Forall (λ c, is_space c = false) t → breaks rest →
  scan_word (w ++ t ++ rest) = Some (t, rest).
Proof.
  intros Hw Hne Ht Hr. destruct t as [|c t]; [done|]. inversion Ht as [|? ? Hc Ht']; subst. unfold scan_word.
  cbn [app]. rewrite skip_ws_text by done. change (c :: t ++ rest) with ((c :: t) ++ rest). rewrite span_app; [done| |].
  - eapply Forall_impl; [done|]. cbn. by intros x ->.
  - destruct rest; [done|]. cbn in *. by rewrite Hr.
Qed.

Lemma word_chars n t : word_ok n t → t ≠ [] ∧ Forall (λ c, is_space c = false) t.
Proof. intros (? & Ht & _). split; [done|]. eapply Forall_impl; [done|]. by intros c [? _]. Qed.

Lemma next_command_scan w kw t rest : ws w → word_ok 64 kw → word_ok 256 t → breaks rest →
  next_command (w ++ kw ++ lit " " ++ t ++ rest) = dispatch kw t rest.
Proof.
  intros Hw Hkw Ht Hr. pose proof (word_chars _ _ Hkw) as [Hk1 Hk2]. pose proof (word_chars _ _ Ht) as [Ht1 Ht2].
  destruct Hkw as (_ & _ & Hkl), Ht as (_ & _ & Htl). unfold next_command.
  rewrite scan_word_ok by done. destruct (Nat.leb_spec 64 (length kw)); [lia|].
  rewrite scan_word_ok by (done || by repeat constructor). by destruct (Nat.leb_spec 256 (length t)); [lia|].
Qed.

Lemma dispatch_query t v rest : v ≠ [] → Forall (λ c, is_space c = false) v → breaks rest →
  dispatch (lit "Query") t (lit " -> " ++ v ++ rest) = if (64 <=? length v)%nat then overrun else command 3 t rest.
Proof.
  intros Hv Hv' Hr. change (dispatch (lit "Query") t (lit " -> " ++ v ++ rest)) with
    (match scan_word (lit " " ++ v ++ rest) with
     | None => exits 3
     | Some (v, rest) => if (64 <=? length v)%nat then overrun else command 3 t rest
     end).
  by rewrite scan_word_ok by (done || by repeat constructor).
Qed.

(** A command with what its query found, as [test] runs it. *)
Definition script_ok (c : Z * text * option text) : Prop :=
  (0 <= c.1.1 < 7)%Z ∧ word_ok 256 c.1.2 ∧ (∀ v, c.2 = Some v → word_ok 64 v).
Definition script_text (cs : list (Z * text * option text)) : text := flat_map (λ c, script_line c.1.1 c.1.2 c.2) cs.
(** As it is read back: a full scan has the argument 0. *)
Definition replayed (c : Z * text * option text) : Z * text := if (c.1.1 =? 4)%Z then (4%Z, lit "0") else c.1.

Lemma next_command_line w c rest : ws w → script_ok c →
  next_command (w ++ script_line c.1.1 c.1.2 c.2 ++ rest) = command (replayed c).1 (replayed c).2 (endl ++ rest).
Proof.
  destruct c as [[op t] found]. intros Hw (Hop & Ht & Hf). cbn [fst snd] in *. unfold script_line, replayed. cbn [fst snd].
  rewrite (word_c_str _ _ Ht).
  assert (∀ kw, word_ok 64 kw → next_command (w ++ ((kw ++ lit " ") ++ t ++ endl) ++ rest) = dispatch kw t (endl ++ rest)) as Hsimple.
  { intros kw Hkw. rewrite <- !(assoc_L (++)). by apply next_command_scan. }
  assert (∀ v, word_ok 64 v → next_command (w ++ ((lit "Query" ++ lit " ") ++ t ++ lit " -> " ++ v ++ endl) ++ rest) = command 3 t (endl ++ rest)) as Hquery.
  { intros v Hv. pose proof (word_chars _ _ Hv) as [Hv1 Hv2]. destruct Hv as (_ & _ & Hl). rewrite <- !(assoc_L (++)).
    rewrite next_command_scan; [|done|by apply word_okb_ok|done|done]. rewrite dispatch_query by done.
    by destruct (Nat.leb_spec 64 (length v)); [lia|]. }
  destruct (Z.eqb_spec op 0) as [->|]; [by apply (Hsimple (lit "Inserting")), word_okb_ok|].
  destruct (Z.eqb_spec op 1) as [->|]; [by apply (Hsimple (lit "Updating")), word_okb_ok|].
  destruct (Z.eqb_spec op 2) as [->|]; [by apply (Hsimple (lit "Deleting")), word_okb_ok|].
  destruct (Z.eqb_spec op 3) as [->|].
  { destruct found as [v|]; [rewrite (word_c_str 64 v) by auto; apply Hquery; auto|].
    by apply (Hquery (lit "DNE")), word_okb_ok. }
  destruct (Z.eqb_spec op 4) as [->|].
  { change (lit "Full_scan 0" ++ endl) with (lit "Full_scan" ++ lit " " ++ lit "0" ++ endl). rewrite <- !(assoc_L (++)).
    by rewrite next_command_scan; [|done|by apply word_okb_ok..|]. }
  destruct (Z.eqb_spec op 5) as [->|]; [by apply (Hsimple (lit "Lower_bound_scan")), word_okb_ok|].
  assert (op = 6%Z) as -> by lia. by apply (Hsimple (lit "Upper_bound_scan")), word_okb_ok.
Qed.

Lemma script_commands_read junk cs : Forall script_ok cs → ∀ w, ws w →
  script_commands junk (length cs) (w ++ script_text cs) = (replayed <$> cs, all_read).
Proof.
  induction 1 as [|c cs Hc _ IH]; intros w Hw; [done|]. cbn [script_text flat_map length script_commands].
  rewrite next_command_line by done. fold (script_text cs). rewrite IH by (by repeat constructor). cbn [fmap list_fmap].
  assert (c_str (replayed c).2 = (replayed c).2) as ->; [|by destruct (replayed c)].
  unfold replayed. destruct (_ =? 4)%Z; [done|]. destruct Hc as (_ & Ht & _). by apply (word_c_str 256).
Qed.

(** The script that [test] writes is read back as the commands it ran, as long as the keys fit [ck] and the values
    found by queries fit [command].  A value of 64 characters or more overruns that array. *)
Theorem script_roundtrip junk cs :
  Forall script_ok cs →
  script_commands junk (length cs) (script_text cs) = (replayed <$> cs, all_read) ∧
  ∀ t v rest, word_ok 256 t → v ≠ [] → Forall (λ c, is_space c = false ∧ Ascii.eqb c nul = false) v → 64 ≤ length v →
    next_command (script_line 3 t (Some v) ++ rest) = overrun.
Proof.
  intros Hcs. split; [apply (script_commands_read junk cs Hcs []); constructor|]. intros t v rest Ht Hv Hvc Hlen.
  assert (word_ok (S (length v)) v) as Hw by (split_and!; [done|done|lia]).
  change (script_line 3 t (Some v)) with (lit "Query " ++ c_str t ++ lit " -> " ++ c_str v ++ endl).
  rewrite (word_c_str _ _ Ht), (word_c_str _ _ Hw). change (lit "Query ") with (lit "Query" ++ lit " ").
  rewrite <- !(assoc_L (++)). match goal with |- next_command ?x = _ => change (next_command ([] ++ x) = overrun) end.
  rewrite next_command_scan; [|constructor|by apply word_okb_ok|done|done].
  pose proof (word_chars _ _ Hw) as [Hv1 Hv2]. rewrite dispatch_query by done. by destruct (Nat.leb_spec 64 (length v)); [|lia].
Qed.

Definition demo_script : list (Z * text * option text) :=
  [(1%Z, lit "17", None); (3%Z, lit "17", Some (lit "17:")); (4%Z, lit "5", None); (3%Z, lit "9", None)].
Lemma script_roundtrip_witness :
  script_commands [] 4 (script_text demo_script) = ([(1%Z, lit "17"); (3%Z, lit "17"); (4%Z, lit "0"); (3%Z, lit "9")], all_read) ∧
  next_command (script_line 3 (lit "17") (Some (concat (repeat (lit "17:") 22)))) = overrun.
Proof.
  assert (Forall script_ok demo_script) as Hs.
  { assert (∀ op t f, (0 <= op < 7)%Z → word_okb 256 t = true → from_option (word_okb 64) true f = true → script_ok (op, t, f)) as Hc.
    { intros op t f Hop Ht%word_okb_ok Hf. split; [done|split; [done|]]. cbn [snd] in *. intros v ->. by apply word_okb_ok. }
    unfold demo_script. repeat (apply Forall_cons_2; [by apply Hc|]). apply Forall_nil_2. }
  split; [apply (script_roundtrip [] demo_script Hs)|]. rewrite <- (app_nil_r (script_line _ _ _)).
  apply (script_roundtrip [] demo_script Hs); [by apply word_okb_ok|done|by repeat constructor|cbn; lia].
Defined.

(** ** A client fiber *)
Section fiber_proof.
Context {K : Type} `{KeyOrder K} `{KeyNew K} (key : text → K).

Section rounds.
Context {St : Type} `{StoreOps St (node K text)}.
Implicit Types (s : St) (bet : betree text).

Lemma benchmark_updates_app fuel a b : ∀ bet s,
  benchmark_updates key fuel bet (a ++ b) s =
  (let! bet := benchmark_updates key fuel bet a in benchmark_updates key fuel bet b) s.
Proof.
  induction a as [|t a IH]; intros bet s; [done|]. cbn [app benchmark_updates]. unfold bind.
  destruct (BeTree.update fuel bet (key t) _ s); [apply IH|done..].
Qed.

Lemma upsert_rounds_updates fuel rounds per : ∀ draws bet s,
  upsert_rounds key fuel rounds per bet draws s = benchmark_updates key fuel bet (take (rounds * per) draws) s.
Proof.
  induction rounds as [|rounds IH]; intros draws bet s; [done|]. cbn [upsert_rounds Nat.mul].
  rewrite <- take_take_drop, benchmark_updates_app. unfold bind.
  destruct (benchmark_updates key fuel bet (take per draws) s); [apply IH|done..].
Qed.
End rounds.

(** The keys that a benchmark drew have values. *)
Definition drawn (flag : text) (nops : nat) (draws : list text) (t : tree K text) : Prop :=
  (flag = lit "benchmark-upserts" → ∀ x, x ∈ take (100 * (nops / 100)) draws → is_Some (lookup [] t (key x))) ∧
  (flag = lit "benchmark-queries" → ∀ x, x ∈ take nops draws → is_Some (lookup [] t (key x))).

Context `{Codec (node K text)}.
Implicit Types (s : swap_space (node K text)) (bet : betree text).

(** Up to its last step, [evict_all]. *)
Lemma wp_fiber s fuel nops draws flag (Q : betree text → swap_space (node K text) → Prop) :
  ss_inv s → (Z.of_nat nops <= 2 ^ 13)%Z → S nops ≤ fuel →
  (∀ bet s' t, tree_at bet s' t → drawn flag nops draws t → wp store_only (betree_evict_all ;; ret bet) s' Q no_exn) →
  wp store_only (client_fiber_func key flag fuel nops draws) s Q no_exn.
Proof.
  intros Hs Hn Hfuel HQ. apply wp_bind, (wp_client_tree s nops); [done..|]. intros bet s1 [Hst _ Hdef]. apply wp_bind.
  assert (100 * (nops / 100) ≤ nops) as Hdiv by (apply Nat.Div0.mul_div_le).
  case_bool_decide as Hu; [|case_bool_decide as Hq].
  - unfold benchmark_upserts, wp at 1. rewrite upsert_rounds_updates.
    eapply (wp_benchmark_updates key fuel nops _ 0 _ _ _ (λ _, False)); [done|rewrite length_take; lia|done|done|].
    intros bet' s' m' (_ & _ & _ & t & Hat & _ & Hl & _) Hseen Hd'.
    apply (HQ bet' s' t); [done|]. rewrite Hd', Hdef in Hl. split; [|by rewrite Hu].
    intros _ x Hx. rewrite Hl. apply Hseen. by right.
  - unfold benchmark_queries. apply wp_bind.
    eapply (wp_benchmark_updates key fuel nops _ 0 _ _ _ (λ _, False)); [done|rewrite length_take; lia|done|done|].
    intros bet' s' m' Hst' Hseen Hd'. apply wp_bind.
    eapply wp_mono; [eapply (wp_benchmark_query_loop key fuel nops); [exact Hst'|done|auto]| |done].
    intros [] s2 (_ & _ & _ & t & Hat & _ & Hl & _). apply wp_ret.
    apply (HQ bet' s2 t); [done|]. rewrite Hd', Hdef in Hl. split; [done|].
    intros _ x Hx. rewrite Hl. apply Hseen. by right.
  - apply wp_ret. destruct Hst as (_ & _ & _ & t & Hat & _). by apply (HQ bet s1 t).
Qed.

Lemma tree_at_swaps bet s s' t : swaps (λ _, 1%Z) s s' → tree_at bet s t → tree_at bet s' t.
Proof.
  intros [Hi Hv Hp _ _] [Hr _ Hrep Hnd Hfree Hwf Hts Hold]. split; [done|done| |done| |done..].
  - change (rep (ss_view s') t). rewrite Hv. exact Hrep.
  - intros i Hin. change (ss_pins s' i = 0). rewrite Hp. by apply Hfree.
Qed.

Lemma wp_betree_evict_all bet s t (P : tree K text → Prop) : CodecOk (node K text) → tree_at bet s t → P t →
  wp store_only (betree_evict_all ;; ret bet) s (λ b s', ∃ t, tree_at b s' t ∧ settled 0 s' ∧ P t) no_exn.
Proof.
  intros Hcodec Hat HP. apply wp_bind. eapply wp_mono; [apply wp_evict_all; [done|done|apply Hat]| |done].
  intros [] s' [Hsw _ Hset]. apply wp_ret. exists t. split_and!; [by eapply tree_at_swaps|done..].
Qed.

Context `{!CodecOk (node K text)}.

(** C6: a client fiber, as a template over the key type, on a new swap space runs to its end with nothing but a fault of the store to stop it, for any draws
    (4096 in the program), when the keys have a total order and nodes are read back as they were written.  Its tree then has a value for every key drawn, in
    the swap space after [evict_all], which has stopped because by its count nothing is left in memory or
    nothing that is could be evicted. *)
Theorem client_fiber_completes s fuel nops draws flag :
  ss_inv s → (Z.of_nat nops <= 2 ^ 13)%Z → S nops ≤ fuel →
  wp store_only (client_fiber_func key flag fuel nops draws) s
     (λ b s', ∃ t, tree_at b s' t ∧ settled 0 s' ∧ drawn flag nops draws t) no_exn.
Proof. intros Hs Hn Hfuel. apply wp_fiber; [done..|]. intros. by eapply wp_betree_evict_all. Qed.
End fiber_proof.

Lemma client_fiber_completes_witness :
  wp store_only (client_fiber_func number (lit "benchmark-upserts") 301 300 (repeat (lit "7") 300)) (fresh_store TEST_CACHE_SIZE)
     (λ b s', ∃ t, tree_at b s' t ∧ settled 0 s' ∧ drawn number (lit "benchmark-upserts") 300 (repeat (lit "7") 300) t) no_exn.
Proof. apply (client_fiber_completes number (fresh_store TEST_CACHE_SIZE)); [apply fresh_store_inv|done|lia]. Defined.

(** ** [main] *)
Lemma configuration_loop_open fuel : ∀ ls acc, length ls ≤ fuel →
  configuration_loop fuel (Some ls) acc = match parse_lines acc ls with inl e => bad_configuration e | inr a => started a end.
Proof.
  induction fuel as [|fuel IH]; intros [|l ls] acc Hlen; cbn [length] in Hlen; try done; [lia|].
  cbn [configuration_loop parse_lines]. destruct (parse_line l); [done|]. apply IH. lia.
Qed.

Lemma load_open fuel file : length (file_lines file) ≤ fuel →
  load_configuration fuel (Some file) = match read_configuration file with inl e => bad_configuration e | inr c => started c end.
Proof.
  intros Hlen. unfold load_configuration, read_configuration. cbn [fmap option_fmap option_map]. rewrite configuration_loop_open by done.
  destruct (parse_lines [] (file_lines file)) as [e|a]; [done|]. cbn [start_bind]. by destruct (_ =? 0)%Z.
Qed.

Lemma load_unreadable fuel : load_configuration fuel None = still_reading.
Proof.
  unfold load_configuration. enough (∀ acc, configuration_loop fuel None acc = still_reading) as Hloop by (cbn; by rewrite Hloop).
  induction fuel as [|fuel IH]; intros acc; [done|]. cbn [configuration_loop parse_line]. apply IH.
Qed.

(** C33: the server's [main] with a configuration file and an index below the number of servers listens on the host of that line.  With an
    index that is too large, or negative and not -1, it only reports at most and goes on to read
    outside the list of servers; and with a file that cannot be opened it reports and then reads for ever,
    as does the client. *)
Theorem main_starts numa fuel f items :
  Forall item_ok items → (0 < Z.of_nat (length (flat_map item_servers items)) < 2 ^ 31)%Z → S (length items) ≤ fuel →
  configFile f ≠ [] → serverIndex f ≠ (-1)%Z → numa ≠ (-1)%Z → benchmark f ≠ [] → backingStoreDir f ≠ [] → clientIP f ≠ [] →
  let c := MkConfiguration (Z.of_nat (length (flat_map item_servers items))) (flat_map item_servers items) None false in
  client_main fuel f (Some (file_text items)) = started (c, fiber_ids f) ∧
  ((0 <= serverIndex f < n c)%Z → ∃ a, servers c !! Z.to_nat (serverIndex f) = Some a ∧
     server_main numa fuel f (Some (file_text items)) = started (c, host a)) ∧
  ((serverIndex f < 0 ∨ n c <= serverIndex f)%Z → server_main numa fuel f (Some (file_text items)) = out_of_bounds) ∧
  ∀ fuel', server_main numa fuel' f None = still_reading ∧ client_main fuel' f None = still_reading.
Proof.
  intros Hok Hn Hfuel Hcf Hidx Hnuma Hb Hd Hip c. apply Z.eqb_neq in Hidx, Hnuma.
  assert (∀ file, server_main numa fuel f file = start_bind (load_configuration fuel file) (λ config,
    match GetServerAddress config (serverIndex f) with Some a => started (config, host a) | None => out_of_bounds end)) as Hserver.
  { intros file. unfold server_main. rewrite bool_decide_false, Hidx by done. by rewrite Hnuma. }
  assert (∀ fuel file, client_main fuel f file = start_bind (load_configuration fuel file) (λ config, started (config, fiber_ids f))) as Hclient.
  { intros fuel' file. unfold client_main. by rewrite !bool_decide_false by done. }
  assert (load_configuration fuel (Some (file_text items)) = started c) as Hload.
  { rewrite load_open; [by rewrite read_items|]. rewrite file_lines_text, length_app, length_fmap by done. cbn. lia. }
  rewrite Hclient, Hserver, Hload. cbn [start_bind]. unfold GetServerAddress. split_and!; [done| | |].
  - intros [Hlo Hhi]. destruct (Z.ltb_spec (serverIndex f) 0); [lia|].
    destruct (lookup_lt_is_Some_2 (servers c) (Z.to_nat (serverIndex f))) as [a Ha]; [cbn in *; lia|]. exists a. by rewrite Ha.
  - intros Hout. destruct (Z.ltb_spec (serverIndex f) 0); [done|]. rewrite lookup_ge_None_2; [done|]. cbn in *. lia.
  - intros fuel'. rewrite Hclient, load_unreadable. unfold server_main. by rewrite bool_decide_false, Hidx, load_unreadable by done.
Qed.

Lemma main_starts_witness :
  server_main 0 20 (given_flags (lit "config.txt") (lit "tmpdir") (lit "benchmark-upserts") 0 (lit "10.0.0.1") 1 1 2 0) (Some (file_text demo_items)) =
    started (demo_configuration, from_option host [] (servers demo_configuration !! 0)) ∧
  client_main 20 (given_flags (lit "config.txt") (lit "tmpdir") (lit "benchmark-upserts") 0 (lit "10.0.0.1") 1 1 2 0) (Some (file_text demo_items)) =
    started (demo_configuration, [0%Z; 1%Z]).
Proof.
  set (f := given_flags _ _ _ _ _ _ _ _ _). destruct (main_starts 0 20 f demo_items demo_items_ok) as (Hc & Hs & _); [done|cbn; lia|done..|].
  split; [|exact Hc]. destruct Hs as (a & Ha & Hs); [done|]. rewrite Hs. by injection Ha as <-.
Defined.
