(* ===== verification/FKeyTree.v ===== *)
(** * Trees of file-system keys

    The template instance [betree<FKey, std::string>] of client/main.cpp, as far as its keys stay as their constructor made them.
    Those keys are a type with a total order, to which the theorems about [betree] apply.  A key that is read back is not one of
    them ([FKey._deserialize] loses its tokens), so the cache here is one that never evicts: its limit is the largest number. *)
From Stdlib Require Import ZArith Lia Ascii String.
From stdpp Require Import prelude gmap.
From S2P Require Import Prelude StdMap Message NodeStore BeTree Iterator MessageSem Tree Serialize BackingStore SwapSpace SwapSpaceProof.
From S2P Require Import NodeCodec Dictionary IteratorProof FKey Driver DriverProof Concrete Programs ProgramsProof.

#[local] Open Scope cpp_scope.

(** The keys made by [FKey(k)] from paths of fewer than 256 tokens without a slash at the end. *)
Definition path_key : Type := { k : FKey | clean k = true }.
Definition path (k : path_key) : FKey := proj1_sig k.

Lemma path_inj (a b : path_key) : path a = path b → a = b.
Proof. destruct a as [a Ha], b as [b Hb]. cbn. intros ->. f_equal. apply proof_irrel. Qed.

(** The operators of [FKey]. *)
#[global] Instance path_key_ops : KeyOps path_key := { klt a b := klt (path a) (path b); keq a b := keq (path a) (path b) }.
#[global] Instance path_key_new : KeyNew path_key := exist _ empty_fkey eq_refl.

Lemma path_key_lt (a b : path_key) : klt a b = path_lt (tokens (path a)) (tokens (path b)).
Proof. destruct a as [a Ha], b as [b Hb]. cbn. by rewrite clean_lt. Qed.

#[global] Instance path_key_order : KeyOrder path_key.
Proof.
  split.
  - intros a. rewrite path_key_lt. apply path_irrefl.
  - intros a b c. rewrite !path_key_lt. apply path_trans.
  - intros a b. rewrite !path_key_lt. intros Hab Hba. apply path_inj.
    destruct (path_total (tokens (path a)) (tokens (path b))) as [Heq|[?|?]]; [|congruence..].
    apply clean_tokens_inj; [apply (proj2_sig a)|apply (proj2_sig b)|done].
  - intros a b. change (keq (fkey (path a)) (fkey (path b)) = true ↔ a = b). rewrite keq_eq. split; [|by intros ->]. intros Heq.
    apply path_inj, clean_inj; [apply (proj2_sig a)|apply (proj2_sig b)|done].
Qed.

(** [FKey(t)] *)
Definition make_key (t : text) : path_key :=
  match decide (clean (new_fkey t) = true) with
  | left Ht => exist _ (new_fkey t) Ht
  | right _ => path_key_new
  end.

Lemma make_key_path t : clean (new_fkey t) = true → path (make_key t) = new_fkey t.
Proof. intros Ht. unfold make_key. by destruct (decide _). Qed.

(** The text of a number, which is what the programs draw, is a path of one token. *)
Lemma lines_plain s : Forall (λ c, c ≠ "/"%char) s → ∀ item some, lines item some s = if some || negb (bool_decide (s = [])) then [item ++ s] else [].
Proof.
  induction 1 as [|c s Hc Hs IH]; intros item some; cbn [lines].
  - rewrite app_nil_r. by destruct some.
  - rewrite (proj2 (Ascii.eqb_neq c "/") Hc), IH. cbn. by rewrite <- app_assoc, orb_true_r.
Qed.

Lemma plain_clean s : Forall (λ c, c ≠ "/"%char) s → clean (new_fkey s) = true.
Proof.
  intros Hs. unfold clean. cbn [new_fkey tokens fkey]. rewrite bool_decide_true by done. cbn [andb]. unfold split_path.
  rewrite lines_plain by done. destruct (bool_decide (s = [])); cbn [negb orb length].
  all: destruct (last s) as [c|] eqn:Hl; [|done]; apply last_Some_elem_of in Hl; rewrite Forall_forall in Hs; by rewrite (proj2 (Ascii.eqb_neq c "/") (Hs c Hl)).
Qed.

(** What [FKey] writes, and reads: a key without its tokens is none of ours, unless it is the empty one. *)
Definition checked (r : option (FKey * text)) : option (path_key * text) :=
  match r with
  | Some (k, s) => match decide (clean k = true) with left Hk => Some (exist _ k Hk, s) | right _ => None end
  | None => None
  end.
#[global] Instance path_key_serial : Serial path_key := {
  serialize k := serialize (path k);
  deserialize s := checked (deserialize s);
}.

(** A key that [operator>>] reads as one word. *)
Definition key_fits (k : path_key) : bool :=
  negb (bool_decide (fkey (path k) = [])) && forallb (λ c, negb (is_space c)) (fkey (path k)) && string_fits (fkey (path k)).
#[global] Instance path_node_codec : Codec (node path_key text) := node_codec key_fits string_fits.

(** A new swap space that never evicts. *)
Definition unbounded_store (b : backing_store) : swap_space (node path_key text) := new_swap_space b UINT64_MAX.

(** ** Reading with the tokens made again

    With [tokens = split_path()] at the end of [_deserialize] every key would be read back as it was: this is how we look at what
    the files hold. *)
Definition retokenized (r : option (FKey * text)) : option (FKey * text) :=
  match r with Some (k, s) => Some (new_fkey (fkey k), s) | None => None end.
Definition repaired_serial : Serial path_key := {|
  serialize k := serialize (path k);
  deserialize s := checked (retokenized (deserialize s));
|}.
Definition repaired_codec : Codec (node path_key text) := @node_codec path_key text _ repaired_serial _ key_fits string_fits.

Lemma key_fits_spec k : key_fits k = true →
  fkey (path k) ≠ [] ∧ Forall (λ c, is_space c = false) (fkey (path k)) ∧ uint64_ok (Z.of_nat (length (fkey (path k)))).
Proof.
  unfold key_fits. rewrite !andb_true_iff, negb_true_iff, bool_decide_eq_false, forallb_forall. intros [[Hne Hsp] Hlen%is_uint64_ok].
  split_and!; [done| |done]. apply Forall_forall. intros c Hc%list_elem_of_In%Hsp. by apply negb_true_iff.
Qed.

Lemma repaired_serial_ok : @SerialOk path_key repaired_serial (λ k, key_fits k = true).
Proof.
  intros w k rest Hw (Hne & Hsp & Hlen)%key_fits_spec.
  destruct (string_serial_ok [" "%char] (fkey (path k)) rest) as (w' & Hw' & Hd); [by repeat constructor|done|].
  exists w'. split; [done|]. cbn [deserialize serialize repaired_serial fkey_serial]. change (lit " ") with [" "%char]. rewrite <- !app_assoc. cbn [app].
  rewrite read_word_print by done. cbn [mbind option_bind]. cbn [app] in Hd. rewrite Hd. cbn [mbind option_bind retokenized fkey checked].
  destruct k as [k Hk]. cbn [path proj1_sig fkey] in *. destruct (clean_spec k Hk) as (Ht & _).
  assert (new_fkey (fkey k) = k) as -> by (unfold new_fkey; rewrite <- Ht; by destruct k).
  destruct (decide (clean k = true)) as [Hk'|]; [|done]. do 2 f_equal. by apply path_inj.
Qed.

Lemma repaired_codec_ok : @CodecOk (node path_key text) repaired_codec.
Proof. apply (@node_codec_ok path_key text _ _ repaired_serial _ _ _ repaired_serial_ok), _. Qed.

Lemma unbounded_store_inv b : bs_inv b → st_inv (unbounded_store b).
Proof. intros Hb. apply new_swap_space_inv; [by right|done]. Qed.

Lemma number_path x : path (make_key (print_N x)) = new_fkey (print_N x).
Proof.
  apply make_key_path, plain_clean. destruct (print_N_digits x) as [Hd _]. eapply Forall_impl; [exact Hd|]. by intros c Hc ->.
Qed.

(** Nodes are not read back as they were written, so everything must have stayed in memory. *)
Lemma lost_tokens : ¬ CodecOk (node path_key text).
Proof.
  intros Hok. pose (n := MkNode [] [(MkMessageKey (make_key (lit "1")) 1, MkMessage INSERT [])] : node path_key text).
  assert (decode (encode n) = None) as Hnone by by vm_compute. rewrite (Hok n) in Hnone; [done|by vm_compute..].
Qed.

Lemma path_store_resident (s : swap_space (node path_key text)) : ss_inv s → resident s.
Proof. intros Hs. by destruct (inv_swap _ s Hs) as [?%lost_tokens|]. Qed.

(** What is in memory does not depend on how texts are read. *)
Lemma reread_inv (s : swap_space (node path_key text)) :
  ss_inv s → @ss_inv_at _ _ repaired_codec (λ _, 1%Z) s ∧ @ss_view _ repaired_codec s = ss_view s.
Proof.
  intros Hs. pose proof (rs_object s (path_store_resident s Hs)) as Hin. split.
  - destruct Hs as [Hb Hn Hid Hobj Ht Ha Hl _]. split; [done..| |done|done|done|left; apply repaired_codec_ok].
    intros i o Ho. destruct (Hin i o Ho) as [[n Hm] Hd]. destruct (Hobj i o Ho) as [Hr Hp Hbs Hf Hpr _]. split; [done..| |congruence].
    intros m Hm'. split; [by apply Hpr|congruence].
  - apply map_eq. intros i. rewrite !view_lookup. destruct (objects s !! i) as [o|] eqn:Ho; [|done]. cbn.
    destruct (Hin i o Ho) as [[n Hm] _]. unfold content. by rewrite Hm.
Qed.

(** A tree, in a swap space whose files are read with the tokens made again. *)
Definition tree_reread (bet : betree text) (s : swap_space (node path_key text)) (t : tree path_key text) : Prop :=
  @tree_at path_key text _ _ _ (@swap_space_store _ _ repaired_codec) bet s t.

Lemma tree_at_reread bet s t : tree_at bet s t → tree_reread bet s t.
Proof.
  intros [Hr Hi Hrep Hnd Hfree Hwf Hts Hold]. destruct (reread_inv s Hi) as [Hi' Hv]. split; [done|exact Hi'| |done|exact Hfree|done..].
  change (rep (@ss_view _ repaired_codec s) t). rewrite Hv. exact Hrep.
Qed.

Lemma wp_path_evict_all bet (s : swap_space (node path_key text)) t (P : tree path_key text → Prop) : tree_at bet s t → P t →
  wp store_only (betree_evict_all ;; ret bet) s
    (λ b s', ∃ t, tree_reread b s' t ∧ uncounted s' = 0%Z ∧ settled 0 s' ∧ P t) no_exn.
Proof.
  intros Hat HP. pose proof (path_store_resident s (ta_inv _ _ _ Hat)) as Hres. pose proof (resident_fits s Hres) as Hfit.
  destruct (reread_inv s (ta_inv _ _ _ Hat)) as [Hi _]. apply wp_bind.
  eapply wp_mono; [exact (@wp_evict_all _ _ repaired_codec (λ _, 1%Z) store_only s repaired_codec_ok eq_refl Hi)| |done].
  intros [] s' [Hsw Hcount Hset]. apply wp_ret. exists t. split_and!; [|..|done|done].
  - by eapply (@tree_at_swaps _ _ repaired_codec), tree_at_reread.
  - destruct (Hcount ltac:(lia) Hfit) as [_ ->]. unfold uncounted. rewrite (rs_count s Hres). lia.
Qed.

(** ** The programs on keys of the file system *)

(** C37: [test] of client/main.cpp on [betree<FKey, std::string>], with its parameters, up to 2^13 commands and the keys that the program
    draws, texts of numbers, over a swap space whose cache never evicts: the keys are those that [FKey(t)] makes, no
    assertion fails and nothing is undefined, and at the end the tree holds exactly the reference map.  Only a fault of the store stops it.  (With
    the program's cache of four objects nodes are read back, and then their keys have lost their order.) *)
Theorem fkey_test_passes b rounds fuel (commands : list (Z * N)) :
  bs_inv b → (Z.of_nat (length commands) <= 2 ^ 13)%Z → Forall (λ c : Z * N, (0 <= c.1 < 7)%Z) commands →
  length commands ≤ rounds → S (length commands) ≤ fuel →
  (∀ c, c ∈ commands → path (make_key (print_N c.2)) = new_fkey (print_N c.2)) ∧
  wp store_only (let! bet := client_tree in test make_key rounds fuel bet ((λ c : Z * N, (c.1, print_N c.2)) <$> commands))
     (unbounded_store b) (λ r s', sorted r.2 ∧ ∃ t, tree_at r.1 s' t ∧ ∀ k, lookup [] t k = map_find r.2 k) no_exn.
Proof.
  intros Hb Hlen Hops Hrounds Hfuel. split; [intros c _; apply number_path|].
  apply wp_test; rewrite ?length_fmap; [by apply unbounded_store_inv|done| |done..]. by apply Forall_fmap.
Qed.

(** C8: [benchmark_queries] of client/main.cpp on [betree<FKey, std::string>], with its parameters, up to 2^13 draws of numbers, over a
    swap space whose cache never evicts: the keys are those that [FKey(t)] makes, and every key that is asked for is found.  No query throws and
    nothing aborts; only a fault of the store stops it. *)
Theorem fkey_benchmark_finds_all b fuel (draws : list N) :
  bs_inv b → (Z.of_nat (length draws) <= 2 ^ 13)%Z → S (length draws) ≤ fuel →
  (∀ x, x ∈ draws → path (make_key (print_N x)) = new_fkey (print_N x)) ∧
  wp store_only (let! bet := client_tree in benchmark_queries make_key fuel bet (print_N <$> draws)) (unbounded_store b)
     (λ bet s', ∃ t, tree_at bet s' t ∧ ∀ x, x ∈ draws → is_Some (lookup [] t (make_key (print_N x)))) no_exn.
Proof.
  intros Hb Hlen Hfuel. split; [intros x _; apply number_path|].
  eapply wp_mono; [apply (wp_benchmark_queries make_key (unbounded_store b) fuel (print_N <$> draws));
    rewrite ?length_fmap; [by apply unbounded_store_inv|done..]| |done].
  intros bet s' (t & Hat & Hall). exists t. split; [done|]. intros x Hx. apply Hall, list_elem_of_fmap. by exists x.
Qed.

(** C38: a client fiber of client/main.cpp with its [betree<FKey, std::string>], its parameters, up to 2^13 operations and draws of numbers, over
    a swap space whose cache never evicts before its end: it runs to the end with nothing but a fault of the store to stop it.
    The tree, which then is in the files that [evict_all] wrote (read with the tokens made again), has a value for every key drawn; the count of objects in
    memory is right, and it is 0 or everything in memory is pinned. *)
Theorem fkey_fiber_completes b fuel nops (draws : list N) flag :
  bs_inv b → (Z.of_nat nops <= 2 ^ 13)%Z → S nops ≤ fuel →
  wp store_only (client_fiber_func make_key flag fuel nops (print_N <$> draws)) (unbounded_store b)
     (λ bet s', ∃ t, tree_reread bet s' t ∧ uncounted s' = 0%Z ∧ settled 0 s' ∧ drawn make_key flag nops (print_N <$> draws) t) no_exn.
Proof.
  intros Hb Hn Hfuel. apply wp_fiber; [by apply unbounded_store_inv|done..|]. intros bet s t Hat Hdrawn. by eapply wp_path_evict_all.
Qed.

(** Seventy draws, so that the root has been split and the tree has two levels. *)
Definition demo_directory : backing_store := new_backing_store (lit "tmpdir") ∅.
Definition demo_draws : list N := N.of_nat <$> seq 0 70.

Lemma fkey_test_passes_witness :
  wp store_only (let! bet := client_tree in test make_key 6 7 bet
      ((λ c : Z * N, (c.1, print_N c.2)) <$> [(0%Z, 5%N); (1%Z, 17%N); (1%Z, 5%N); (3%Z, 5%N); (2%Z, 17%N); (4%Z, 0%N)]))
     (unbounded_store demo_directory) (λ r s', sorted r.2 ∧ ∃ t, tree_at r.1 s' t ∧ ∀ k, lookup [] t k = map_find r.2 k) no_exn.
Proof.
  apply (fkey_test_passes demo_directory 6 7 [(0%Z, 5%N); (1%Z, 17%N); (1%Z, 5%N); (3%Z, 5%N); (2%Z, 17%N); (4%Z, 0%N)]);
    [done|done|by repeat constructor|cbn; lia|cbn; lia].
Defined.

Lemma fkey_benchmark_finds_all_witness :
  is_ok ((let! bet := client_tree in benchmark_queries make_key 71 bet (print_N <$> demo_draws)) (unbounded_store demo_directory)) = true ∧
  wp store_only (let! bet := client_tree in benchmark_queries make_key 71 bet (print_N <$> demo_draws)) (unbounded_store demo_directory)
     (λ bet s', ∃ t, tree_at bet s' t ∧ ∀ x, x ∈ demo_draws → is_Some (lookup [] t (make_key (print_N x)))) no_exn.
Proof.
  split; [by vm_compute|]. apply (fkey_benchmark_finds_all demo_directory 71 demo_draws); [done|by vm_compute|by vm_compute; lia].
Defined.

Lemma fkey_fiber_completes_witness :
  wp store_only (client_fiber_func make_key (lit "benchmark-queries") 71 70 (print_N <$> demo_draws)) (unbounded_store demo_directory)
     (λ bet s', ∃ t, tree_reread bet s' t ∧ uncounted s' = 0%Z ∧ settled 0 s' ∧
        drawn make_key (lit "benchmark-queries") 70 (print_N <$> demo_draws) t) no_exn.
Proof. apply (fkey_fiber_completes demo_directory 71 70 demo_draws); [done|done|lia]. Defined.
