(* ===== verification/Startup.v ===== *)
(** * From [main] to the first request (network/fasttransport.cpp, client/main.cpp, server/main.cpp, server/storage_server.cpp)

    The constructor of [FastTransport], which the threads of a process run under a lock, the constructor of
    [StorageServer], and the functions of the client's and the server's threads.  eRPC's [Nexus] and the
    constructor of its [Rpc] are an interface; libevent is the list of the calls made to it. *)
From Stdlib Require Import ZArith Lia Ascii String.
From stdpp Require Import prelude gmap.
From S2P Require Import Prelude Serialize Config StorageRpc Transport StorageClient Programs.

#[local] Open Scope cpp_scope.
#[local] Open Scope Z_scope.

(** [X]: a [Nexus].  A request function is given by its number [n], for [fasttransport_request_n]; the result of
    [register_req_func] is not looked at. *)
Class Erpc (X R : Type) := {
  new_nexus : text → Z → Z → option X;                        (* [None]: std::runtime_error *)
  register_req_func : X → Z → Z → X;
  new_rpc : X → Z → Z → option R;                             (* [None]: std::runtime_error *)
}.

(** ** The globals of the process *)
Inductive libevent_call :=
  | evthread_use_pthreads
  | event_base_new (base : nat)
  | evthread_make_base_notifiable (base : nat).

Record globals := MkGlobals {
  fasttransport_lock : bool;                                  (* held by some thread *)
  fasttransport_initialized : bool;
  libevent : list libevent_call;
}.
Definition no_globals : globals := MkGlobals false false [].

Definition is_base_new (c : libevent_call) : bool := match c with event_base_new _ => true | _ => false end.
(** The base made next, numbered by those made so far. *)
Definition next_base (g : globals) : nat := length (List.filter is_base_new (libevent g)).

Definition globals_get : M globals globals := λ g, Ok g g.
Definition set_lock (b : bool) : M globals unit := λ g,
  Ok tt (MkGlobals b (fasttransport_initialized g) (libevent g)).
Definition set_initialized : M globals unit := λ g, Ok tt (MkGlobals (fasttransport_lock g) true (libevent g)).
Definition call_libevent (c : libevent_call) : M globals unit := λ g,
  Ok tt (MkGlobals (fasttransport_lock g) (fasttransport_initialized g) (libevent g ++ [c])).

(** The same thread may not lock the mutex again; another one waits, see [advance]. *)
Definition lock : M globals unit :=
  let! g := globals_get in
  if fasttransport_lock g then halt undefined_behaviour else set_lock true.
Definition unlock : M globals unit := set_lock false.

(** ** The constructor of the transport *)
Record transport_args := MkArgs {
  a_config : Configuration;
  a_ip : text;
  a_nthreads : Z;
  a_nr_req_types : Z;
  a_phy_port : Z;
  a_numa_node : Z;
  a_id : Z;
}.

(** The members that no method reads are kept beside the others. *)
Record FastTransport (X R C : Type) := MkFastTransport {
  core : transport R C;
  phy_port : Z;
  nthreads : Z;
  numa_node : Z;
  nexus : X;
  eventBase : nat;
}.
Arguments MkFastTransport {X R C} _ _ _ _ _ _.
Arguments core {X R C} _.
Arguments phy_port {X R C} _.
Arguments nthreads {X R C} _.
Arguments numa_node {X R C} _.
Arguments nexus {X R C} _.
Arguments eventBase {X R C} _.

Section startup.
Context {X R C : Type} `{Rpc R} `{TransportReceiver C} `{Erpc X R}.
Context (numa_max_node : Z).
Notation FT := (FastTransport X R C).

(** The first thread to grab the lock sets libevent up; no signal events are added. *)
Definition new_event_base : M globals nat :=
  let! g := globals_get in
  let b := next_base g in
  call_libevent (event_base_new b) ;;
  call_libevent (evthread_make_base_notifiable b) ;;
  ret b.
Definition setup_libevent : M globals nat :=
  let! g := globals_get in
  if fasttransport_initialized g then new_event_base
  else
    call_libevent evthread_use_pthreads ;;
    let! b := new_event_base in
    set_initialized ;;
    ret b.

(** The five request functions are registered whatever [nr_req_types] says. *)
Definition register_all (x : X) : X := foldl (λ x j, register_req_func x j j) x [1; 2; 3; 4; 5].

Definition setup_erpc (a : transport_args) (base : nat) : M globals FT := λ g,
  match (x ← new_nexus (local_uri (a_ip a) (a_id a)) (a_numa_node a) 0;
         let x := register_all x in
         r ← new_rpc x (a_id a) (a_phy_port a);
         Some (MkFastTransport (new_transport (a_config a) (a_id a) r) (a_phy_port a) (a_nthreads a) (a_numa_node a) x base)) with
  | Some ft => Ok ft g
  | None => Throw runtime_error g
  end.

Definition check_numa (a : transport_args) : M globals unit := assert_ (a_numa_node a <=? numa_max_node).

(** An exception leaves the mutex locked. *)
Definition new_FastTransport (a : transport_args) : M globals FT :=
  check_numa a ;;
  lock ;;
  let! base := setup_libevent in
  let! ft := setup_erpc a base in
  unlock ;;
  ret ft.

(** ** Threads that make their transports side by side *)
Inductive phase :=
  | entered
  | waiting                                                   (* at [fasttransport_lock.lock()] *)
  | holding
  | with_base (base : nat)
  | with_rpc_object (ft : FT)
  | made (ft : FT).

(** One step of a thread; [None]: it has to wait, or is done. *)
Definition advance (a : transport_args) (p : phase) (g : globals) : option (outcome globals phase) :=
  match p with
  | entered => Some ((check_numa a ;; ret waiting) g)
  | waiting => if fasttransport_lock g then None else Some ((lock ;; ret holding) g)
  | holding => Some ((let! b := setup_libevent in ret (with_base b)) g)
  | with_base b => Some ((let! ft := setup_erpc a b in ret (with_rpc_object ft)) g)
  | with_rpc_object ft => Some ((unlock ;; ret (made ft)) g)
  | made _ => None
  end.

(** Any thread may go next.  A thread that fails ends the process, so that there is no next state. *)
Inductive step : globals * list (transport_args * phase) → globals * list (transport_args * phase) → Prop :=
  | step_thread g l1 a p l2 p' g' : advance a p g = Some (Ok p' g') →
      step (g, l1 ++ (a, p) :: l2) (g', l1 ++ (a, p') :: l2).

Definition launch (args : list transport_args) : globals * list (transport_args * phase) :=
  (no_globals, (λ a, (a, entered)) <$> args).
End startup.
Arguments phase : clear implicits.

(** ** The server's thread *)

(** A call on a transport, from code whose state is that of the process. *)
Definition on_transport {G R C A} (m : M (transport R C) A) (t : transport R C) : M G (A * transport R C) := λ g,
  match m t with
  | Ok a t' => Ok (a, t') g
  | Throw e _ => Throw e g
  | Halt f => Halt f
  end.

Section server.
Context {X R : Type} `{Rpc R} `{Erpc X R}.
Notation T := (transport R server).
Context (numa_max_node : Z).

(** The constructor of [StorageServer] at address [x], with a transport; [app] is the application it serves. *)
Definition new_StorageServer (x : receiver) (myIdx : Z) (app : server) : M T unit :=
  modify (with_object x app) ;;
  Register x myIdx.

(** [server_thread_func] up to [Run]. *)
Definition server_args (config : Configuration) (ip : text) (numa thread_id : Z) : transport_args :=
  MkArgs config ip 1 4 0 numa thread_id.
Definition server_thread_start (x : receiver) (app : server) (config : Configuration) (serverIndex numa thread_id : Z)
    : M globals (FastTransport X R server) :=
  let! a := of_option undefined_behaviour (GetServerAddress config serverIndex) in
  let! ft := new_FastTransport numa_max_node (server_args config (host a) numa thread_id) in
  let! '(_, t) := on_transport (new_StorageServer x serverIndex app) (core ft) in
  ret (MkFastTransport t (phy_port ft) (nthreads ft) (numa_node ft) (nexus ft) (eventBase ft)).
Definition server_thread_func (fuel : nat) (x : receiver) (app : server) (config : Configuration) (serverIndex numa thread_id : Z)
    : M globals unit :=
  let! ft := server_thread_start x app config serverIndex numa thread_id in
  let! _ := on_transport (Run fuel) (core ft) in
  ret tt.

(** The thread that the server's [main] starts and joins, with a new [StorageServerApp]. *)
Definition server_run (fuel : nat) (x : receiver) (config : Configuration) (serverIndex : Z) : M globals unit :=
  server_thread_func fuel x new_server config serverIndex 0 0.
End server.

(** ** The client's threads *)
Section client.
Context {X R : Type} `{Rpc R} `{Erpc X R}.
Notation T := (transport R client).
Context (numa_max_node : Z).

(** The index of the thread is an [int], the transport's id a [uint8_t]. *)
Definition client_args (f : flags) (config : Configuration) (thread_id : Z) : transport_args :=
  MkArgs config (clientIP f) (to_int (numServerThreads f)) 0 (uint8 (physPort f)) 0 (uint8 thread_id).

(** The [StorageClient]s that the fibers of the thread start with, each at its address with what its memory holds. *)
Fixpoint new_clients (fibers : list (receiver * client)) : M T unit :=
  match fibers with
  | [] => ret tt
  | (y, memory) :: fibers' => new_storage_client y memory ;; new_clients fibers'
  end.
Definition client_thread_start (f : flags) (config : Configuration) (thread_id : Z) (fibers : list (receiver * client))
    : M globals (FastTransport X R client) :=
  let! ft := new_FastTransport numa_max_node (client_args f config thread_id) in
  let! '(_, t) := on_transport (new_clients fibers) (core ft) in
  ret (MkFastTransport t (phy_port ft) (nthreads ft) (numa_node ft) (nexus ft) (eventBase ft)).

(** The transports of the threads that the client's [main] starts. *)
Definition client_transports (f : flags) (config : Configuration) : list transport_args :=
  (λ i : nat, client_args f config (Z.of_nat i)) <$> seq 0 (Z.to_nat (numClientThreads f)).
End client.
