(* ===== verification/StartupProof.v ===== *)
(** * The programs start

    However the threads of a process interleave, libevent is set up once and before its first use, and every thread
    gets its transport; the server's thread then serves, and the fibers of a client's thread may call the server. *)
From Stdlib Require Import ZArith Lia Ascii String.
From stdpp Require Import prelude gmap.
From S2P Require Import Prelude Serialize Config StorageRpc StorageRpcProof Transport TransportProof TransportCalls.
From S2P Require Import StorageClient TransportFrame ClientCalls Loopback ServerLoop Programs Startup.

#[local] Open Scope cpp_scope.
#[local] Open Scope Z_scope.

Section threads.
Context {X R C : Type} `{Rpc R} `{TransportReceiver C} `{Erpc X R} (numa_max_node : Z).
Notation ph := (phase X R C).
Notation threads := (list (transport_args * ph)).
Notation stp := (step (X := X) (R := R) (C := C) numa_max_node).
Implicit Types (ts : threads) (p : ph).

(** ** One thread at a time *)
Definition inside p : bool := match p with holding | with_base _ | with_rpc_object _ => true | _ => false end.
Definition base_of p : option nat :=
  match p with with_base b => Some b | with_rpc_object ft | made ft => Some (eventBase ft) | _ => None end.
Definition rank p : nat :=
  match p with entered => 5 | waiting => 4 | holding => 3 | with_base _ => 2 | with_rpc_object _ => 1 | made _ => 0 end.

Definition holders ts : threads := List.filter (λ t, inside t.2) ts.
Definition bases ts : list nat := omap (λ t, base_of t.2) ts.

(** What libevent has seen when [k] bases were made. *)
Definition libevent_log (k : nat) : list libevent_call :=
  match k with
  | O => []
  | S _ => evthread_use_pthreads :: flat_map (λ b, [event_base_new b; evthread_make_base_notifiable b]) (seq 0 k)
  end.

Record threads_inv (s : globals * threads) : Prop := {
  th_lock : length (holders s.2) = if fasttransport_lock s.1 then 1%nat else 0%nat;
  th_bases : bases s.2 ≡ₚ seq 0 (length (bases s.2));
  th_init : fasttransport_initialized s.1 = negb (length (bases s.2) =? 0)%nat;
  th_log : libevent s.1 = libevent_log (length (bases s.2));
}.

Lemma holders_app ts ts' : holders (ts ++ ts') = holders ts ++ holders ts'.
Proof. apply List.filter_app. Qed.
Lemma holders_one a p ts : length (holders ((a, p) :: ts)) = ((if inside p then 1 else 0) + length (holders ts))%nat.
Proof. unfold holders. cbn. by destruct (inside p). Qed.
Lemma bases_app ts ts' : bases (ts ++ ts') = bases ts ++ bases ts'.
Proof. apply omap_app. Qed.

Lemma libevent_log_bases k : length (List.filter is_base_new (libevent_log k)) = k.
Proof.
  destruct k as [|k]; [done|]. unfold libevent_log. cbn [List.filter is_base_new].
  transitivity (length (seq 0 (S k))); [|apply length_seq]. generalize (seq 0 (S k)). induction l; [done|]. cbn. by f_equal.
Qed.

Lemma libevent_log_S k :
  libevent_log (S k) = (if (k =? 0)%nat then [evthread_use_pthreads] else libevent_log k) ++ [event_base_new k; evthread_make_base_notifiable k].
Proof.
  destruct k as [|k]; [done|]. unfold libevent_log at 1. rewrite seq_S, flat_map_app. done.
Qed.

Lemma setup_libevent_run g k : fasttransport_initialized g = negb (k =? 0)%nat → libevent g = libevent_log k →
  setup_libevent g = Ok k (MkGlobals (fasttransport_lock g) true (libevent_log (S k))).
Proof.
  intros Hi Hl. destruct g as [lk init log]. cbn in Hi, Hl. subst init log.
  unfold setup_libevent, new_event_base, bind, globals_get, call_libevent, set_initialized, ret. cbn [fasttransport_initialized].
  rewrite libevent_log_S. destruct k as [|k]; [done|]. cbn [Nat.eqb negb fasttransport_lock libevent].
  unfold next_base. cbn [libevent]. rewrite libevent_log_bases. by rewrite <- app_assoc.
Qed.

(** The change of the thread at one position. *)
Lemma launch_step_inv s s' : threads_inv s → stp s s' → threads_inv s'.
Proof.
  intros Hs Hst. destruct Hst as [g l1 a p l2 p' g' Hadv]. destruct Hs as [Hlock Hbases Hinit Hlog]. cbn [fst snd] in *.
  rewrite holders_app, length_app, holders_one in Hlock. rewrite bases_app in Hbases, Hinit, Hlog.
  assert (∀ q, bases ((a, q) :: l2) = from_option (λ b, [b]) [] (base_of q) ++ bases l2) as Hcons by (intros q; cbn; by destruct (base_of q)).
  rewrite Hcons in Hbases, Hinit, Hlog.
  destruct p; cbn [advance] in Hadv; try done.
  - unfold check_numa, bind, assert_ in Hadv. destruct (a_numa_node a <=? numa_max_node); [|done]. injection Hadv as <- <-.
    split; cbn [fst snd]; rewrite ?holders_app, ?length_app, ?holders_one, ?bases_app, ?Hcons; done.
  - destruct (fasttransport_lock g) eqn:Hg; [done|]. unfold lock, bind, globals_get, set_lock, ret in Hadv. rewrite Hg in Hadv.
    injection Hadv as <- <-.
    split; cbn [fst snd fasttransport_lock fasttransport_initialized libevent]; rewrite ?holders_app, ?length_app, ?holders_one, ?bases_app, ?Hcons; try done.
    cbn in Hlock |- *. lia.
  - cbn [base_of from_option app] in *. unfold bind in Hadv. rewrite (setup_libevent_run g _ Hinit Hlog) in Hadv.
    set (k := length (bases l1 ++ bases l2)) in *.
    assert (p' = with_base k ∧ g' = MkGlobals (fasttransport_lock g) true (libevent_log (S k))) as [-> ->] by (unfold ret in Hadv; split; congruence).
    assert (length (bases l1 ++ [k] ++ bases l2) = S k) as Hlen by (unfold k; rewrite !length_app; cbn; lia).
    split; cbn [fst snd fasttransport_lock fasttransport_initialized libevent]; rewrite ?holders_app, ?bases_app, ?Hcons; cbn [base_of from_option];
      rewrite ?Hlen; try done.
    + rewrite length_app, holders_one. cbn in Hlock |- *. lia.
    + rewrite seq_S, <- Hbases. cbn. by rewrite <- Permutation_middle, Permutation_cons_append.
  - unfold bind, setup_erpc in Hadv. destruct (new_nexus _ _ _) as [x|]; [|done]. cbn in Hadv. destruct (new_rpc _ _ _) as [r|]; [|done].
    injection Hadv as <- <-. split; cbn [fst snd]; rewrite ?holders_app, ?length_app, ?holders_one, ?bases_app, ?Hcons; done.
  - injection Hadv as <- <-.
    split; cbn [fst snd fasttransport_lock fasttransport_initialized libevent]; rewrite ?holders_app, ?length_app, ?holders_one, ?bases_app, ?Hcons; try done.
    cbn in Hlock |- *. destruct (fasttransport_lock g); lia.
Qed.

Lemma launch_inv args : threads_inv (launch args).
Proof.
  assert (bases ((λ a, (a, entered)) <$> args : threads) = []) as Hb by (induction args as [|a args IH]; [done|exact IH]).
  assert (holders ((λ a, (a, entered)) <$> args : threads) = []) as Hh by (clear Hb; induction args as [|a args IH]; [done|exact IH]).
  split; cbn [launch fst snd]; by rewrite ?Hb, ?Hh.
Qed.

Lemma launch_reachable_inv args s : rtc stp (launch args) s → threads_inv s.
Proof. apply (rtc_ind_r threads_inv); [apply launch_inv|]. intros s1 s2 _ Hst Hs1. by eapply launch_step_inv. Qed.

(** C26: however the threads of a process interleave while they make their transports, at most one is between lock and unlock at a
    time, [evthread_use_pthreads] is called once, before the first event base is made, and each thread has an event
    base of its own, made notifiable. *)
Theorem libevent_set_up_once args g ts : rtc stp (launch args) (g, ts) →
  (length (holders ts) ≤ 1)%nat ∧ NoDup (bases ts) ∧ libevent g = libevent_log (length (bases ts)) ∧
  (fasttransport_initialized g = true ↔ bases ts ≠ []).
Proof.
  intros Hr. destruct (launch_reachable_inv args _ Hr) as [Hlock Hb Hi Hl]. cbn [fst snd] in *. split_and!.
  - rewrite Hlock. destruct (fasttransport_lock g); lia.
  - rewrite Hb. apply NoDup_seq.
  - done.
  - rewrite Hi. destruct (bases ts); cbn; split; congruence.
Qed.

(** ** Every thread gets its transport *)

(** eRPC makes the two objects that the thread asks it for. *)
Definition can_start (a : transport_args) : Prop :=
  a_numa_node a <= numa_max_node ∧
  ∃ (x : X) (r : R), new_nexus (local_uri (a_ip a) (a_id a)) (a_numa_node a) 0 = Some x ∧
    new_rpc (register_all x) (a_id a) (a_phy_port a) = Some r.

(** A transport that was made as its thread asked. *)
Definition as_asked (a : transport_args) (ft : FastTransport X R C) : Prop :=
  ∃ x r, new_nexus (local_uri (a_ip a) (a_id a)) (a_numa_node a) 0 = Some x ∧
    new_rpc (register_all x) (a_id a) (a_phy_port a) = Some r ∧ nexus ft = register_all x ∧
    core ft = new_transport (a_config a) (a_id a) r.
Definition thread_ok (t : transport_args * ph) : Prop :=
  match t.2 with with_rpc_object ft | made ft => as_asked t.1 ft | _ => True end.

Lemma setup_erpc_asked a b g ft g' : setup_erpc a b g = Ok ft g' → as_asked a ft ∧ eventBase ft = b ∧ g' = g.
Proof.
  unfold setup_erpc. destruct (new_nexus _ _ _) as [x|] eqn:Hx; [|done]. cbn. destruct (new_rpc _ _ _) as [r|] eqn:Hr; [|done].
  intros [= <- <-]. split_and!; [|done..]. by exists x, r.
Qed.

Lemma advance_ok a p g p' g' : thread_ok (a, p) → advance numa_max_node a p g = Some (Ok p' g') →
  thread_ok (a, p') ∧ S (rank p') = rank p.
Proof.
  intros Hok. destruct p; cbn [advance]; try done.
  - unfold check_numa, bind, assert_. destruct (_ <=? _); [|done]. by intros [= <- <-].
  - destruct (fasttransport_lock g) eqn:Hg; [done|]. unfold lock, bind, globals_get. rewrite Hg. by intros [= <- <-].
  - unfold bind. destruct (setup_libevent g); [|done..]. by intros [= <- <-].
  - unfold bind. destruct (setup_erpc a base g) as [ft g1| |] eqn:He; [|done..]. intros [= <- <-].
    by destruct (setup_erpc_asked _ _ _ _ _ He).
  - by intros [= <- <-].
Qed.

Definition remaining ts : nat := sum_list_with (λ t, rank t.2) ts.

Lemma step_ok s s' : Forall thread_ok s.2 → stp s s' →
  Forall thread_ok s'.2 ∧ S (remaining s'.2) = remaining s.2 ∧ s'.2.*1 = s.2.*1.
Proof.
  intros Hs Hst. destruct Hst as [g l1 a p l2 p' g' Hadv]. cbn [snd] in *.
  apply Forall_app in Hs as [Hl1 [Hp Hl2]%Forall_cons]. destruct (advance_ok _ _ _ _ _ Hp Hadv) as [Hp' Hrank]. split_and!.
  - apply Forall_app. split; [done|]. by constructor.
  - unfold remaining. rewrite !sum_list_with_app. cbn. lia.
  - by rewrite !fmap_app.
Qed.

Lemma remaining_launch (args : list transport_args) : remaining ((λ a, (a, entered)) <$> args) = (5 * length args)%nat.
Proof. induction args as [|a args IH]; [done|]. unfold remaining in *. rewrite fmap_cons. cbn [sum_list_with rank snd length]. lia. Qed.

Lemma nsteps_ok args k s : nsteps stp k (launch args) s →
  Forall thread_ok s.2 ∧ (k + remaining s.2 = 5 * length args)%nat ∧ s.2.*1 = args.
Proof.
  revert s. induction k as [|k IH]; intros s.
  - intros Hn. inversion Hn; subst. cbn [launch snd]. split_and!.
    + apply Forall_fmap, Forall_true. done.
    + apply remaining_launch.
    + rewrite <- list_fmap_compose. apply list_fmap_id.
  - intros Hn. apply nsteps_inv_r in Hn as (s1 & Hs1 & Hst). destruct (IH s1 Hs1) as (Hok & Hrem & Hargs).
    destruct (step_ok s1 s Hok Hst) as (? & ? & Heq). split_and!; [done|lia|congruence].
Qed.

(** Some thread can go on unless all are done. *)
Lemma thread_steps g l1 a p l2 p' g' : advance numa_max_node a p g = Some (Ok p' g') → ∃ s', stp (g, l1 ++ (a, p) :: l2) s'.
Proof. intros Hadv. eexists. by constructor. Qed.

Lemma inside_steps a p g : can_start a → inside p = true → ∃ p' g', advance numa_max_node a p g = Some (Ok p' g').
Proof.
  intros [Hnuma (x & r & Hx & Hr)] Hin. destruct p; try done; cbn [advance].
  - unfold setup_libevent, new_event_base, bind, globals_get, call_libevent, set_initialized, ret.
    destruct (fasttransport_initialized g); eauto.
  - unfold bind, setup_erpc. rewrite Hx. cbn [mbind option_bind]. rewrite Hr. cbn [mbind option_bind]. eauto.
  - eauto.
Qed.

Lemma outside_steps a p g : can_start a → inside p = false → fasttransport_lock g = false → rank p ≠ 0%nat →
  ∃ p' g', advance numa_max_node a p g = Some (Ok p' g').
Proof.
  intros [Hnuma _] Hin Hg Hrank. destruct p; try done; cbn [advance].
  - unfold check_numa, bind, assert_. destruct (Z.leb_spec (a_numa_node a) numa_max_node); [cbn; eauto|lia].
  - rewrite Hg. unfold lock, bind, globals_get. rewrite Hg. cbn. eauto.
Qed.

Lemma some_step args s : Forall can_start args → s.2.*1 = args → threads_inv s → remaining s.2 ≠ 0%nat → ∃ s', stp s s'.
Proof.
  intros Hcan Hargs Hs Hrem. destruct s as [g ts]. cbn [snd] in *. subst args. rewrite Forall_fmap in Hcan.
  destruct (fasttransport_lock g) eqn:Hg.
  - pose proof (th_lock _ Hs) as Hlock. cbn [fst snd] in Hlock. rewrite Hg in Hlock.
    destruct (holders ts) as [|[a p] hs] eqn:Hh; [done|]. assert ((a, p) ∈ holders ts) as Hin by (rewrite Hh; by left).
    apply list_elem_of_In, filter_In in Hin as [Hin Hp]. apply list_elem_of_In in Hin.
    rewrite Forall_forall in Hcan. destruct (inside_steps a p g (Hcan _ Hin) Hp) as (p' & g' & Hadv).
    apply list_elem_of_split in Hin as (l1 & l2 & ->). by eapply thread_steps.
  - assert (∃ a p, (a, p) ∈ ts ∧ rank p ≠ 0%nat) as (a & p & Hin & Hrank).
    { clear -Hrem. unfold remaining in Hrem. induction ts as [|[a p] ts IH]; [done|]. cbn in Hrem. destruct (decide (rank p = 0%nat)) as [Hz|Hz].
      - destruct IH as (a' & p' & ? & ?); [lia|]. exists a', p'. split; [by right|done].
      - exists a, p. split; [by left|done]. }
    assert (inside p = false) as Hp.
    { apply not_true_is_false. intros Hp. pose proof (th_lock _ Hs) as Hlock. cbn [fst snd] in Hlock. rewrite Hg in Hlock.
      apply nil_length_inv in Hlock. assert ((a, p) ∈ holders ts) as Hh by (apply list_elem_of_In, filter_In; split; [by apply list_elem_of_In|done]).
      rewrite Hlock in Hh. by apply elem_of_nil in Hh. }
    rewrite Forall_forall in Hcan. destruct (outside_steps a p g (Hcan _ Hin) Hp Hg Hrank) as (p' & g' & Hadv).
    apply list_elem_of_split in Hin as (l1 & l2 & ->). by eapply thread_steps.
Qed.

(** C27: if eRPC makes the objects the threads ask it for, no order of their steps leaves a thread waiting for ever: a run takes at
    most five steps per thread, and one that cannot go on has made every thread's transport, with the five request functions
    registered, the id and the address of the thread, and an event base of its own. *)
Theorem transports_made args k g ts : Forall can_start args → nsteps stp k (launch args) (g, ts) →
  (k ≤ 5 * length args)%nat ∧
  ((∀ s', ¬ stp (g, ts) s') → ts.*1 = args ∧ bases ts ≡ₚ seq 0 (length args) ∧ fasttransport_lock g = false ∧
     Forall (λ t, ∃ ft, t.2 = made ft ∧ as_asked t.1 ft) ts).
Proof.
  intros Hcan Hn. destruct (nsteps_ok args k _ Hn) as (Hok & Hrem & Hargs). cbn [snd] in *. split; [lia|]. intros Hstuck.
  assert (threads_inv (g, ts)) as Hinv by (eapply launch_reachable_inv, rtc_nsteps; eauto).
  assert (remaining ts = 0%nat) as Hzero.
  { destruct (decide (remaining ts = 0%nat)); [done|]. destruct (some_step args (g, ts) Hcan Hargs Hinv ltac:(done)) as [s' Hs']. by destruct (Hstuck s'). }
  assert (Forall (λ t, ∃ ft, t.2 = made ft ∧ as_asked t.1 ft) ts) as Hall.
  { clear -Hok Hzero. induction Hok as [|[a p] ts Hp _ IH]; [done|]. unfold remaining in *. cbn in Hzero. constructor; [|apply IH; lia].
    destruct p; cbn in *; try lia. eauto. }
  split_and!; [done| | |done].
  - rewrite (th_bases _ Hinv). cbn [snd]. replace (length (bases ts)) with (length args); [done|]. rewrite <- Hargs, length_fmap.
    clear -Hall. induction Hall as [|[a p] ts (ft & Hp & _) _ IH]; [done|]. cbn in Hp. subst p. cbn. by f_equal.
  - pose proof (th_lock _ Hinv) as Hlock. cbn [fst snd] in Hlock. destruct (fasttransport_lock g); [|done].
    exfalso. enough (holders ts = []) as Hh by by rewrite Hh in Hlock.
    clear -Hall. induction Hall as [|[a p] ts (ft & Hp & _) _ IH]; [done|]. cbn in Hp. by subst p.
Qed.
End threads.

(** ** One thread alone *)
Section alone.
Context {X R C : Type} `{Rpc R} `{TransportReceiver C} `{Erpc X R} (numa_max_node : Z).

Lemma new_transport_run (a : transport_args) g : can_start (X := X) (R := R) numa_max_node a → fasttransport_lock g = false →
  ∃ (ft : FastTransport X R C) g', new_FastTransport numa_max_node a g = Ok ft g' ∧ as_asked a ft ∧ fasttransport_lock g' = false.
Proof.
  intros [Hnuma (x & r & Hx & Hr)] Hg.
  assert (∃ b g1, setup_libevent (MkGlobals true (fasttransport_initialized g) (libevent g)) = Ok b g1 ∧ fasttransport_lock g1 = true) as (b & g1 & Hb & Hg1).
  { unfold setup_libevent, new_event_base, bind, globals_get, call_libevent, set_initialized, ret. cbn.
    destruct (fasttransport_initialized g); eauto. }
  pose (ft := MkFastTransport (new_transport (C := C) (a_config a) (a_id a) r) (a_phy_port a) (a_nthreads a) (a_numa_node a) (register_all x) b).
  exists ft, (MkGlobals false (fasttransport_initialized g1) (libevent g1)). split_and!; [|by exists x, r|done].
  unfold new_FastTransport, check_numa, lock, bind, assert_, globals_get, set_lock, ret. destruct (Z.leb_spec (a_numa_node a) numa_max_node); [|lia].
  rewrite Hg, Hb. unfold setup_erpc. rewrite Hx. cbn [mbind option_bind]. by rewrite Hr.
Qed.
End alone.

(** ** The server's thread serves *)
Section server.
Context {X R : Type} `{ServerOk R} `{Erpc X R} (numa_max_node : Z).
Notation T := (transport R server).
Implicit Types (t : T).

(** A new endpoint has received nothing yet. *)
Hypothesis fresh_endpoint : ∀ (x : X) i port r, new_rpc x i port = Some r → srv_inv r ∧ active r = ∅ ∧ replied r = [].
(** The clients of this program send two types of requests. *)
Hypothesis served_types : ∀ r : R, srv_inv r → Forall (λ p, known p.2) (requests_of (poll r).1).

Fixpoint passes (k : nat) : M T unit :=
  match k with
  | O => ret tt
  | S k' => run_event_loop_once ;; passes k'
  end.

(** The requests that arrive in [k] passes, in order. *)
Fixpoint arrivals (k : nat) (t : T) : list (handle * request * bytes) :=
  match k with
  | O => []
  | S k' =>
      let '(es, r) := poll (rpc t) in
      (request_of_handle r <$> requests_of es) ++ match run_event_loop_once t with Ok _ t1 => arrivals k' t1 | _ => [] end
  end.

Lemma serve_all_app s rs rs' s1 a1 s2 a2 :
  serve_all s rs = Some (s1, a1) → serve_all s1 rs' = Some (s2, a2) → serve_all s (rs ++ rs') = Some (s2, a1 ++ a2).
Proof.
  revert s a1. induction rs as [|[[h rq] resp] rs IH]; intros s a1; cbn; [by intros [= -> <-]|].
  destruct (receive_request s rq resp) as [[[s' out] len]|]; [|done]. cbn.
  destruct (serve_all s' rs) as [[s'' a]|] eqn:Hs; [|done]. cbn. intros [= -> <-] Hs2. by rewrite (IH s' a Hs Hs2).
Qed.

Lemma not_stopped : framed (λ t, stop t = false).
Proof. by split. Qed.

Lemma passes_served k : ∀ t x s, serving t x s → active (rpc t) = ∅ → ∃ t' s' answers,
  passes k t = Ok tt t' ∧ serving t' x s' ∧ serve_all s (arrivals k t) = Some (s', answers) ∧
  replied (rpc t') = replied (rpc t) ++ answers ∧ active (rpc t') = ∅.
Proof.
  induction k as [|k IH]; intros t x s Hs Ha; [exists t, s, []; by rewrite app_nil_r|].
  pose proof (served_types (rpc t) (proj1 Hs)) as Hk. cbn [passes arrivals]. destruct (poll (rpc t)) as [es r'] eqn:Hp.
  destruct (pass_served t x s es r' Hs Hp Hk) as (t1 & s1 & ans & Hr & Hs1 & Hsv & _ & Hrep & Hact).
  destruct (IH t1 x s1 Hs1) as (t' & s' & answers & Hr' & Hs' & Hsv' & Hrep' & Hact'); [congruence|].
  exists t', s', (ans ++ answers). rewrite (bind_step _ _ _ _ _ Hr), Hr.
  split_and!; [done|done|by eapply serve_all_app|by rewrite Hrep', Hrep, app_assoc|done].
Qed.

Lemma run_passes k : ∀ t t', stop t = false → passes k t = Ok tt t' → Run k t = Halt out_of_fuel.
Proof.
  induction k as [|k IH]; intros t t' Hst Hp; [done|]. cbn [Run passes] in *. unfold bind in *. unfold get. rewrite Hst.
  destruct (run_event_loop_once t) as [u t1| |] eqn:Hr; [|done..]. eapply IH; [|done]. by eapply (keeps_ok _ _ _ _ _ (keeps_event_loop _ not_stopped)).
Qed.

(** C21: from the start of the server's thread, with an index of the configuration and an endpoint from eRPC that gets
    the requests of this program's clients: the thread listens on the host of its line, registers the server, and then
    runs for ever; after any number of passes of its loop every request that has arrived is answered, in order, as the
    handlers answer them from a new server. *)
Theorem server_serves (y : receiver) (c : Configuration) (i numa tid : Z) (a : ServerAddress) g :
  GetServerAddress c i = Some a → i < n c →
  can_start (X := X) (R := R) numa_max_node (server_args c (host a) numa tid) → fasttransport_lock g = false →
  (∀ fuel, server_thread_func (X := X) numa_max_node fuel y new_server c i numa tid g = Halt out_of_fuel) ∧
  ∃ (ft : FastTransport X R server) g', server_thread_start numa_max_node y new_server c i numa tid g = Ok ft g' ∧ id (core ft) = tid ∧
  ∀ k, ∃ t' s' answers, passes k (core ft) = Ok tt t' ∧ serving t' y s' ∧
    serve_all new_server (arrivals k (core ft)) = Some (s', answers) ∧ replied (rpc t') = answers ∧ active (rpc t') = ∅.
Proof.
  intros Ha Hi Hcan Hg. destruct (new_transport_run (C := server) numa_max_node _ g Hcan Hg) as (ft & g' & Hft & (x & r & _ & Hr & _ & Hcore) & _).
  destruct (fresh_endpoint _ _ _ _ Hr) as (Hinv & Hact & Hrep).
  pose (t0 := with_registered i (Some y) (with_object y new_server (core ft))).
  pose (ft' := MkFastTransport t0 (phy_port ft) (nthreads ft) (numa_node ft) (nexus ft) (eventBase ft)).
  assert (0 <= i) as Hi0 by (unfold GetServerAddress in Ha; destruct (Z.ltb_spec i 0); [done|lia]).
  assert (server_thread_start numa_max_node y new_server c i numa tid g = Ok ft' g') as Hstart.
  { unfold server_thread_start, of_option. rewrite Ha. unfold bind at 1, ret at 1. unfold bind at 1. rewrite Hft.
    unfold bind at 1, on_transport, new_StorageServer, Register, bind, modify, get, assert_. rewrite Hcore. cbn -[Z.ltb].
    destruct (Z.ltb_spec i (n c)); [|lia]. destruct (Z.ltb_spec (-1) i); [|lia]. unfold ret, ft', t0. by rewrite Hcore. }
  assert (∀ k, ∃ t' s' answers, passes k (core ft') = Ok tt t' ∧ serving t' y s' ∧
    serve_all new_server (arrivals k (core ft')) = Some (s', answers) ∧ replied (rpc t') = answers ∧ active (rpc t') = ∅) as Hpass.
  { intros k. destruct (passes_served k t0 y new_server) as (t' & s' & answers & ? & ? & ? & Hrep' & ?).
    - unfold t0. rewrite Hcore. split_and!; [done|done|apply lookup_insert_eq].
    - unfold t0. by rewrite Hcore.
    - exists t', s', answers. split_and!; try done. rewrite Hrep'. unfold t0. rewrite Hcore. cbn. by rewrite Hrep. }
  split; [|exists ft', g'; split_and!; [done|unfold ft', t0; by rewrite Hcore|done]].
  intros fuel. unfold server_thread_func, bind. rewrite Hstart. destruct (Hpass fuel) as (t' & _ & _ & Hp & _).
  unfold on_transport. rewrite (run_passes fuel (core ft') t'); [done| |done]. unfold ft', t0. by rewrite Hcore.
Qed.
End server.

(** ** The fibers of a client's thread may call *)
Section client.
Context {X R : Type} `{RpcOk R} `{Erpc X R} (numa_max_node : Z).
Notation T := (transport R client).
Implicit Types (t : T).

(** A new endpoint has no requests in flight. *)
Hypothesis fresh_endpoint : ∀ (x : X) i port r, new_rpc x i port = Some r → rpc_inv r ∧ lent r = ∅.

Definition quiet t : Prop := rpc_inv (rpc t) ∧ lent (rpc t) = ∅ ∧ req_tag_pool t = new_pool ∧ sessions t = ∅.

Lemma quiet_ready t y c : quiet t → objects t !! y = Some c → ready t y c.
Proof.
  intros (Hinv & Hlent & Hpool & Hss) Hc. assert (outstanding t = []) as Hout by (unfold outstanding; by rewrite Hlent, map_to_list_empty).
  split.
  - split; [done|by rewrite Hpool, Hout; apply new_pool_inv| |].
    + intros x l. by rewrite Hlent, lookup_empty.
    + intros z m k s. by rewrite Hss, lookup_empty.
  - intros x z rt rt' [l Hx]. by rewrite Hlent, lookup_empty in Hx.
  - intros x rt [l Hx]. by rewrite Hlent, lookup_empty in Hx.
  - done.
  - by rewrite Hout.
Qed.

(** What the constructor of [StorageClient] makes of its memory. *)
Definition fresh_client (memory : client) : client := MkClient 0 (blocked memory) (nodeIdReply memory) (evictNodeReply memory).

Lemma new_clients_run fibers : ∀ t, quiet t → -1 < n (config t) → NoDup fibers.*1 → ∃ t', new_clients fibers t = Ok tt t' ∧ quiet t' ∧
  config t' = config t ∧ id t' = id t ∧ (∀ y, y ∉ fibers.*1 → objects t' !! y = objects t !! y) ∧
  (∀ y memory, (y, memory) ∈ fibers → objects t' !! y = Some (fresh_client memory)).
Proof.
  induction fibers as [|[y memory] fibers IH]; intros t Hq Hn Hnd; cbn [fmap list_fmap fst] in Hnd.
  { exists t. split_and!; try done. by intros y memory ?%elem_of_nil. }
  apply NoDup_cons in Hnd as [Hy Hnd]. pose (t1 := with_registered (-1) (Transport.server_receiver (with_object y (fresh_client memory) t)) (with_object y (fresh_client memory) t)).
  destruct (IH t1) as (t' & Hr & Hq' & Hc & Hid & Ho & Hf); [done..|]. exists t'. split_and!; try done.
  - cbn [new_clients]. unfold new_storage_client, Register, bind, modify, get, assert_. cbn -[Z.ltb].
    destruct (Z.ltb_spec (-1) (n (config t))); [|lia]. cbn. exact Hr.
  - intros z Hz. cbn [fmap list_fmap fst] in Hz. rewrite Ho by set_solver. cbn. apply lookup_insert_ne. set_solver.
  - intros z m [[= -> ->]|Hin]%elem_of_cons; [|by apply Hf]. rewrite Ho by done. apply lookup_insert_eq.
Qed.

(** A client's thread that gets its endpoint from eRPC makes its transport and the clients of its fibers, and each of the
    fibers may then call the server: nothing is in flight, no session is open and all tags are free. *)
Theorem clients_ready f c tid fibers g :
  -1 < n c → NoDup fibers.*1 → can_start (X := X) (R := R) numa_max_node (client_args f c tid) → fasttransport_lock g = false →
  ∃ (ft : FastTransport X R client) g', client_thread_start numa_max_node f c tid fibers g = Ok ft g' ∧ fasttransport_lock g' = false ∧
    config (core ft) = c ∧ id (core ft) = uint8 tid ∧
    ∀ y memory, (y, memory) ∈ fibers → ready (core ft) y (fresh_client memory).
Proof.
  intros Hn Hnd Hcan Hg. destruct (new_transport_run (C := client) numa_max_node _ g Hcan Hg) as (ft & g' & Hft & (x & r & _ & Hr & _ & Hcore) & Hg').
  destruct (fresh_endpoint _ _ _ _ Hr) as [Hinv Hlent].
  destruct (new_clients_run fibers (core ft)) as (t' & Hrun & Hq & Hc & Hid & _ & Hf).
  - rewrite Hcore. by split_and!.
  - by rewrite Hcore.
  - done.
  - rewrite Hcore in Hc, Hid.
    exists (MkFastTransport t' (phy_port ft) (nthreads ft) (numa_node ft) (nexus ft) (eventBase ft)), g'. split_and!; try done.
    + unfold client_thread_start, bind. rewrite Hft. unfold on_transport. by rewrite Hrun.
    + intros y memory Hin. apply quiet_ready; [done|]. by apply Hf.
Qed.
End client.

(** ** More threads than eRPC has ports *)
Section limit.
Context {X R C : Type} `{Rpc R} `{TransportReceiver C} `{Erpc X R} (numa_max_node : Z).

(** The port of a Nexus "must be in [kBaseSmUdpPort, kBaseSmUdpPort + kMaxNumERpcProcesses)", which is 32. *)
Hypothesis nexus_port : ∀ ip port numa bg (x : X), new_nexus (ip ++ lit ":" ++ print_Z port) numa bg = Some x → kBaseSmUdpPort <= port < kBaseSmUdpPort + 32.

(** Each thread of the client has a Nexus of its own, on the port of its number: the thread with number 32 throws out of the
    constructor, and the mutex stays locked. *)
Lemma thread_limit f c tid g : 0 <= numa_max_node → 32 <= tid < 256 → fasttransport_lock g = false →
  ∃ g', new_FastTransport (X := X) (R := R) (C := C) numa_max_node (client_args f c tid) g = Throw runtime_error g' ∧ fasttransport_lock g' = true.
Proof.
  intros Hnuma Htid Hg. unfold new_FastTransport, check_numa, lock, bind, assert_, globals_get, set_lock, ret. cbn [a_numa_node client_args].
  destruct (Z.leb_spec 0 numa_max_node); [|lia]. rewrite Hg.
  assert (new_nexus (X := X) (local_uri (clientIP f) (uint8 tid)) 0 0 = None) as Hnone.
  { destruct (new_nexus _ _ _) as [x|] eqn:Hx; [|done]. apply nexus_port in Hx. unfold uint8 in Hx. rewrite Z.mod_small in Hx; lia. }
  unfold setup_libevent, new_event_base, bind, globals_get, call_libevent, set_initialized, setup_erpc, ret. cbn -[new_nexus local_uri].
  destruct (fasttransport_initialized g); cbn -[new_nexus local_uri]; rewrite Hnone; cbn; eauto.
Qed.
End limit.

(** ** Endpoints that eRPC could make *)
#[global] Instance inbox_erpc : Erpc (list (Z * Z)) inbox := {
  new_nexus _ _ _ := Some [];
  register_req_func x ty f := x ++ [(ty, f)];
  new_rpc x _ _ := if bool_decide (x = [(1, 1); (2, 2); (3, 3); (4, 4); (5, 5)])
                   then Some (MkInbox ∅ ∅ ∅ [] [(8%nat, getNodeIdReqType, [4; 0; 0; 0; 0; 0; 0; 0])]) else None;
}.
#[global] Instance loop_erpc : Erpc (list (Z * Z)) loop := {
  new_nexus _ _ _ := Some [];
  register_req_func x ty f := x ++ [(ty, f)];
  new_rpc x _ _ := if bool_decide (x = [(1, 1); (2, 2); (3, 3); (4, 4); (5, 5)]) then Some demo_endpoint else None;
}.

Lemma loop_fresh (x : list (Z * Z)) i port (r : loop) : new_rpc x i port = Some r → rpc_inv r ∧ lent r = ∅.
Proof. cbn. case_bool_decide; [|done]. intros [= <-]. split; [apply demo_ready|done]. Qed.

Definition demo_flags : flags := given_flags (lit "config.txt") (lit "tmpdir") (lit "benchmark-upserts") 0 (lit "10.0.0.2") 1 2 1 0.
Notation two_threads := (client_transports demo_flags demo_cfg).
Notation demo_launch := (launch (X := list (Z * Z)) (R := loop) (C := client) two_threads).
Notation demo_step := (step (X := list (Z * Z)) (R := loop) (C := client) 0).

(** The second thread takes the lock while the first has not reached it. *)
Definition demo_moved : globals * list (transport_args * phase (list (Z * Z)) loop client) :=
  (MkGlobals true false [], [(client_args demo_flags demo_cfg 0, waiting); (client_args demo_flags demo_cfg 1, holding)]).

Lemma demo_moves : nsteps demo_step 3 demo_launch demo_moved.
Proof.
  eapply nsteps_l; [apply (step_thread _ _ [] _ _ [_]); reflexivity|].
  eapply nsteps_l; [apply (step_thread _ _ [_] _ _ []); reflexivity|].
  apply nsteps_once. apply (step_thread 0 _ [_] _ _ []). reflexivity.
Qed.

Lemma demo_can_start (i : Z) : can_start (X := list (Z * Z)) (R := loop) 0 (client_args demo_flags demo_cfg i).
Proof. split; [done|]. by eexists _, _. Qed.

Lemma libevent_set_up_once_witness : (length (holders demo_moved.2) ≤ 1)%nat ∧ NoDup (bases demo_moved.2).
Proof.
  destruct (libevent_set_up_once 0 two_threads demo_moved.1 demo_moved.2) as (Hh & Hb & _); [|by split].
  apply rtc_nsteps. exists 3%nat. exact demo_moves.
Defined.

Lemma transports_made_witness : Forall (can_start (X := list (Z * Z)) (R := loop) 0) two_threads ∧ (3 ≤ 5 * length two_threads)%nat.
Proof.
  assert (Forall (can_start (X := list (Z * Z)) (R := loop) 0) two_threads) as Hcan by (repeat constructor; apply demo_can_start).
  split; [exact Hcan|]. exact (proj1 (transports_made 0 two_threads 3 demo_moved.1 demo_moved.2 Hcan demo_moves)).
Defined.

Lemma server_serves_witness : ∃ (ft : FastTransport (list (Z * Z)) inbox server) g',
  server_thread_start 0 3%nat new_server demo_cfg 0 0 0 no_globals = Ok ft g' ∧ id (core ft) = 0 ∧
  ∀ k, ∃ t' s' answers, passes k (core ft) = Ok tt t' ∧ serving t' 3 s' ∧
    serve_all new_server (arrivals k (core ft)) = Some (s', answers) ∧ replied (rpc t') = answers ∧ active (rpc t') = ∅.
Proof.
  refine (proj2 (server_serves 0 _ _ 3%nat demo_cfg 0 0 0 (MkAddress (lit "10.0.0.1") (lit "31850")) no_globals _ _ _ _)).
  - intros x i port r. cbn. case_bool_decide; [|done]. intros [= <-]. split_and!; [|done|done].
    split; [apply NoDup_singleton|set_solver|set_solver|apply Forall_singleton; by left].
  - intros r Hr. pose proof (ib_types _ Hr) as Ht. cbn. destruct (ib_arriving r) as [|[[h ty] req] rest]; [done|].
    apply Forall_cons_1 in Ht as [Ht _]. by apply Forall_singleton.
  - reflexivity.
  - reflexivity.
  - split; [done|]. by eexists _, _.
  - reflexivity.
Defined.

Lemma clients_ready_witness : ∃ (ft : FastTransport (list (Z * Z)) loop client) g',
  client_thread_start 0 demo_flags demo_cfg 1 [(5%nat, demo_client)] no_globals = Ok ft g' ∧ ready (core ft) 5 (fresh_client demo_client).
Proof.
  destruct (clients_ready (X := list (Z * Z)) (R := loop) 0 loop_fresh demo_flags demo_cfg 1 [(5%nat, demo_client)] no_globals) as (ft & g' & Hr & _ & _ & _ & Hy).
  - reflexivity.
  - apply NoDup_singleton.
  - apply demo_can_start.
  - reflexivity.
  - exists ft, g'. split; [exact Hr|]. apply Hy. by left.
Defined.
